(* ===== verification/_CoqProject ===== *)
-Q . S2P
Prelude.v
CLib.v
CDouble.v
Http.v
HttpProofs.v
Getopt.v
GetoptProofs.v
Options.v
OptionsProofs.v
JsonValue.v
JsonNotes.v
JsonNoted.v
JsonValueProofs.v
JsonReader.v
JsonReaderProofs.v
JsonTypeProofs.v
JsonLegacyReader.v
JsonLegacyProofs.v
JsonPath.v
JsonPathProofs.v
JsonIterator.v
JsonWriter.v
JsonStyledWriter.v
JsonGrammar.v
JsonGap.v
JsonParseProofs.v
JsonComments.v
JsonPrintProofs.v
JsonWriterProofs.v
JsonStream.v
Log.v
MessageQueue.v
MessageQueueProofs.v
Socket.v
Observer.v
Connection.v
SampleNet.v
SocketProofs.v
ConnectionProofs.v
ObserverProofs.v
Server.v
SampleServer.v
ServerInvariant.v
ServerProofs.v
Delivery.v
Answer.v
Trickle.v
