(* ===== verification/Prelude.v ===== *)
(** * A WebRTC reflector: verification development

    The program is a small HTTP(S) server that lets WebRTC peers talk to it: a
    browser signs in, posts its offer and its ICE candidates, and asks with
    [wait] requests for what the server has to say; the server makes a peer
    connection of its own for each of them, answers the offer, and sends the
    media it receives back.

    ** The parts and where they are modelled

    - src/server.cpp: [main].  Options.v has the option loop over getopt;
      Server.v has the rest: the four replies ([sendReplyError],
      [sendReplyPage], [sendReplyFavicon], [sendReply]), [start] (everything
      before the loop) and the loop as four steps of the main thread,
      [accept_step], [read_step], [serve_step] and [close_step].  [server_step]
      runs the main thread or one connection's thread by one step, so every
      interleaving is a list of [actor]s for [run_server].
    - src/webrtc_connection.cpp, webrtc_connection.h: Connection.v.  The thread
      function [Run] is [run_step], one step for each access to shared data or
      critical section; [sendMessage], [pushMessage], [setOutboundSocket],
      [connect], [disconnect].  The main thread and the connections' threads
      share the sockets through a heap ([Shared]) in which [delete] really
      removes an object.
    - src/observer.cpp, observer.h: Observer.v.  The callbacks of WebRTC are the
      constructors of [PcEvent]; [onSignalingMessage] handles the two messages
      of a peer, [OnSuccess] the answer WebRTC has made.
    - src/message_queue.cpp, message_queue.h: MessageQueue.v, at the level of
      the mutex, the condition variable and the accesses in between.
      Connection.v uses the atomic queue that MessageQueueProofs.v proves it to
      be.
    - src/platform_socket.cpp, platform_socket.h: Socket.v.
    - src/http.cpp, http.h: Http.v, over memory blocks that may be read out of
      bounds.
    - src/getopt.cpp, getopt.h: Getopt.v, with the argument vector as pointers.
    - src/jsoncpp.cpp, json/json.h: JsonValue.v ([Json::Value]), JsonNotes.v
      (the comments and offsets a value keeps beside its payload, as a map from
      the places in a tree of values), JsonNoted.v (how the operations on values
      move them), JsonReader.v ([OurReader], [CharReaderBuilder]), JsonWriter.v
      ([BuiltStyledStreamWriter], [StreamWriterBuilder], [FastWriter]); and what
      the library keeps for older clients: JsonLegacyReader.v ([Reader],
      [Features]), JsonStyledWriter.v ([StyledWriter] and [StyledStreamWriter],
      as two instances of the class [Layout]), JsonPath.v ([Path]),
      JsonIterator.v ([ValueIteratorBase]) and JsonStream.v ([operator>>],
      [operator<<], [parseFromStream]).
    - src/log.cpp: Log.v.

    This file has what all of them share: bytes, the outcomes of a piece of
    C++ code ([outcome]: a value, an exception, undefined behaviour, fuel used
    up), machine integers, tactics, and lemmas on lists.  CLib.v and CDouble.v
    model the parts of the C and C++ libraries the program uses, [size_t] with
    32 bits as in the project's build for x86.

    ** What lies outside

    WebRTC, Winsock and OpenSSL, the file system, the clock and the scheduler
    are parameters: the type classes [WebRTC] (Observer.v), [Winsock]
    (Socket.v, with the documented behaviour used by some theorems in its class
    [WinsockLaws]), [Runtime] (Connection.v), and [Files] and
    [SslSetup] (Server.v).  SampleNet.v and SampleServer.v give instances, in
    which the theorems are applied to concrete executions.

    ** What is proved

    - The whole server (ServerInvariant.v, ServerProofs.v): in every
      interleaving no deleted socket or connection is used and every socket has
      at most one owner; peer ids are unique until the counter wraps around;
      receiving stays inside the buffer and when the terminating NUL does not;
      ended connections are removed; which sockets leak.  SocketProofs.v: which
      handle [accept] opens, and when it loses it.
    - The ways of a message (Delivery.v, ObserverProofs.v, ConnectionProofs.v,
      MessageQueueProofs.v): a request that arrives in pieces is put together and
      parsed as the client printed it, its body is appended to the queue of the
      connection that its [Pragma] names; the queue is first-in first-out, and its
      callers see what those of an atomic queue see; the observer's messages split
      into the candidates and descriptions they were made of; what the observer
      queues is sent in order, each message as one complete HTTP response.
      Answer.v and Trickle.v put these together: the posted offer of a peer is
      answered on the socket it waits with, and the candidates it posts reach
      WebRTC in their order.
    - The parsers: http.cpp against a tokenizer and a line-by-line parser, with
      the URLs on which it throws (HttpProofs.v); getopt's permutation and the
      option loop (GetoptProofs.v, OptionsProofs.v).
    - JSON (JsonValueProofs.v, JsonReaderProofs.v, JsonTypeProofs.v,
      JsonParseProofs.v, JsonPrintProofs.v, JsonWriterProofs.v): objects and
      arrays are ordered maps; the reader stays inside the text, returns on every
      text, throws only on three kinds of text and leaves only values of its own
      type; it reads every text of the grammar of JsonGrammar.v as the value the
      text denotes, comments between its tokens included (JsonGap.v), and what
      the writer prints, with any settings that indent with blanks and keep
      nulls, it reads back.  Which value each comment goes to is proved in
      JsonComments.v; two examples in JsonWriterProofs.v show comments for which
      the writers' layout fails.
    - The rest of the JSON library: what the styled writers and the fast writer
      print is a text of the grammar too (JsonWriterProofs.v, against the laws
      of a layout); the older reader agrees with the one in use
      (JsonLegacyProofs.v); paths are read back from their text, and [make] and
      [resolve] meet (JsonPathProofs.v); a loop over the iterators of a value
      sees each entry once (JsonIterator.v), and streams give back what was
      written to them (JsonStream.v).

    ** Bounds and fuel

    Loops that are not structural take fuel, and a theorem or the invariant says
    that the fuel given is enough: [receive_fuel] is the buffer's size plus one,
    since each turn but the last receives a byte; [parse_fuel] of a JSON text
    exceeds its length by enough for every turn to use up a character or end,
    and [value_depth v + 1] is enough for the writers; [candidates_loop] has one
    turn per character; the length of a path is enough for [makePath] when the
    path has no NUL, and no fuel is otherwise; the loops of getopt.cpp are bounded by the length of
    the argument vector and of [place].  Sizes in hypotheses (texts below 2 ^ 29 or
    2 ^ 31 bytes) keep the 32-bit offsets and counts of the code from wrapping.
    Signed arithmetic that C++ leaves undefined on overflow wraps around, as
    in the negation of [decodeNumber].

    ** Not modelled

    - The allocation of strings inside a [Json::Value] and the [CppTL] variants
      of jsoncpp.  The comments of a value are a map beside it: [OurReader_parse]
      gives the value with this map, [OurCharReader_parse], which the program
      uses, the value alone.
    - Log output inside the other parts and [printUsage] (pure output); the
      memory of objects nothing refers to any more.
    - The interleaving of accesses inside one critical section or one step, and
      callbacks of WebRTC from its own threads at a point other than the end of
      the call or [ProcessMessages] that makes them.
    - The bundled headers under src/webrtc/include and the pages under bin/. *)
From Stdlib Require Import ZArith Ascii String Lia.
From stdpp Require Export base tactics list sets.
From stdpp Require Import strings.


(** ** Bytes

    A [char] is an [ascii]; a memory block, a [std::string] and the characters
    of a C string are lists of them.  [bs "..."] is the text of a literal. *)

Abbreviation bytes := (list ascii).

Definition bs (s : string) : bytes := String.list_ascii_of_string s.

#[global] Arguments bs _ : simpl never.

Definition NUL : ascii := "000"%char.
Definition LF : ascii := "010"%char.
Definition CR : ascii := "013"%char.
Definition SP : ascii := " "%char.

Definition CRLF : bytes := [CR; LF].

#[export] Instance ascii_eq_decision : EqDecision ascii := ascii_dec.

(** ** Outcomes

    What a piece of C++ code does: it yields a value, throws, runs into
    behaviour the language leaves undefined (or a failed [assert]), or the
    model's fuel ends before the loop does. *)

Inductive exn := ExOutOfRange | ExRuntime | ExLogic.

Inductive fault :=
  | OutOfBounds
  | NullPointer
  | BadFormat
  | AssertFailed
  | UseAfterFree
  | MovedFrom
  | BadConversion
  | DivByZero.

Inductive outcome (A : Type) :=
  | Ok (a : A)
  | Throw (e : exn)
  | UB (f : fault)
  | NoFuel.
Arguments Ok {_} _.
Arguments Throw {_} _.
Arguments UB {_} _.
Arguments NoFuel {_}.

#[export] Instance exn_eq_decision : EqDecision exn.
Proof. solve_decision. Defined.
#[export] Instance fault_eq_decision : EqDecision fault.
Proof. solve_decision. Defined.
#[export] Instance outcome_eq_decision `{EqDecision A} : EqDecision (outcome A).
Proof. solve_decision. Defined.

#[export] Instance outcome_ret : MRet outcome := fun _ a => Ok a.
#[export] Instance outcome_bind : MBind outcome := fun A B f m =>
  match m with
  | Ok a => f a
  | Throw e => Throw e
  | UB w => UB w
  | NoFuel => NoFuel
  end.
#[export] Instance outcome_fmap : FMap outcome := fun A B f m =>
  match m with
  | Ok a => Ok (f a)
  | Throw e => Throw e
  | UB w => UB w
  | NoFuel => NoFuel
  end.

Lemma bind_Ok {A B} (a : A) (f : A -> outcome B) : (Ok a ≫= f) = f a.
Proof. reflexivity. Qed.

Lemma bind_Ok_inv {A B} (m : outcome A) (f : A -> outcome B) b :
  m ≫= f = Ok b -> exists a, m = Ok a /\ f a = Ok b.
Proof. destruct m; intros H; try discriminate H; eauto. Qed.

Lemma bind_assoc {A B C} (m : outcome A) (f : A -> outcome B) (g : B -> outcome C) :
  (m ≫= f) ≫= g = m ≫= (fun a => f a ≫= g).
Proof. by destruct m. Qed.

Lemma fmap_Ok {A B} (f : A -> B) a : f <$> Ok a = Ok (f a).
Proof. reflexivity. Qed.

Definition is_Ok {A} (m : outcome A) : Prop := exists a, m = Ok a.

(** Fold in the outcome monad, first element first. *)
Fixpoint foldM {A B} (f : B -> A -> outcome B) (b : B) (l : list A) : outcome B :=
  match l with
  | [] => Ok b
  | a :: l => f b a ≫= fun b' => foldM f b' l
  end.

Lemma foldM_app {A B} (f : B -> A -> outcome B) b l1 l2 :
  foldM f b (l1 ++ l2) = foldM f b l1 ≫= fun b' => foldM f b' l2.
Proof.
  revert b; induction l1 as [|a l1 IH]; intros b; [done|]; simpl.
  rewrite bind_assoc; destruct (f b a); simpl; auto.
Qed.

(** ** Machine integers *)

#[local] Open Scope Z_scope.

Definition u8 (z : Z) : Z := z mod 2 ^ 8.
Definition u16 (z : Z) : Z := z mod 2 ^ 16.
Definition u32 (z : Z) : Z := z mod 2 ^ 32.
Definition u64 (z : Z) : Z := z mod 2 ^ 64.
Definition i32 (z : Z) : Z := (z + 2 ^ 31) mod 2 ^ 32 - 2 ^ 31.
Definition INT_MAX : Z := 2147483647.
Definition INT_MIN : Z := -2147483648.
Definition UINT_MAX : Z := 4294967295.

Lemma u32_range z : 0 <= u32 z < 2 ^ 32.
Proof. unfold u32; apply Z.mod_pos_bound; lia. Qed.

Lemma u32_small z : 0 <= z < 2 ^ 32 -> u32 z = z.
Proof. unfold u32; intros; by apply Z.mod_small. Qed.

Lemma i32_range z : INT_MIN <= i32 z <= INT_MAX.
Proof.
  unfold i32, INT_MIN, INT_MAX.
  pose proof (Z.mod_pos_bound (z + 2 ^ 31) (2 ^ 32)); lia.
Qed.

Lemma i32_small z : INT_MIN <= z <= INT_MAX -> i32 z = z.
Proof. unfold i32, INT_MIN, INT_MAX; intros; rewrite Z.mod_small; lia. Qed.

#[local] Close Scope Z_scope.

(** ** Automation *)

Create HintDb reflector.
Create Rewrite HintDb reflector.
#[export] Hint Rewrite @bind_Ok @fmap_Ok : reflector.
#[export] Hint Resolve u32_range i32_range : reflector.

(** Runs the binds that have become [Ok]. *)
Ltac run := repeat (rewrite ?bind_Ok, ?fmap_Ok; cbn [mret outcome_ret]).

(** Turns [m ≫= f = Ok b] hypotheses into their parts. *)
Ltac inv_bind :=
  repeat match goal with
  | H : _ ≫= _ = Ok _ |- _ =>
      apply bind_Ok_inv in H; destruct H as (? & ? & H)
  | H : Ok _ = Ok _ |- _ => injection H as H; try subst
  | H : Throw _ = Ok _ |- _ => discriminate H
  | H : UB _ = Ok _ |- _ => discriminate H
  | H : NoFuel = Ok _ |- _ => discriminate H
  end.

(** Reduces the length of a text built from literals to a sum. *)
Ltac bs_length :=
  unfold CRLF; rewrite ?length_app;
  repeat match goal with
  | |- context [length (bs ?s)] =>
      let n := eval vm_compute in (length (bs s)) in change (length (bs s)) with n
  end; cbn [length].

(** ** Lists *)

Lemma drop_cons_lookup {A} (l : list A) i x :
  l !! i = Some x -> drop i l = x :: drop (S i) l.
Proof. apply drop_S. Qed.

Lemma take_snoc_lookup {A} (l : list A) i x :
  l !! i = Some x -> take (S i) l = take i l ++ [x].
Proof. apply take_S_r. Qed.

(** The sublist of [n] elements from [i]. *)
Definition slice {A} (i n : nat) (l : list A) : list A := take n (drop i l).

Lemma slice_0 {A} i (l : list A) : slice i 0 l = [].
Proof. reflexivity. Qed.

Lemma slice_length {A} i n (l : list A) : i + n <= length l -> length (slice i n l) = n.
Proof. intros; unfold slice; rewrite length_take, length_drop; lia. Qed.

Lemma slice_snoc {A} i n (l : list A) x :
  l !! (i + n) = Some x -> slice i (S n) l = slice i n l ++ [x].
Proof. intros H; unfold slice; apply take_S_r; by rewrite lookup_drop. Qed.

Lemma slice_cons {A} i n (l : list A) x :
  l !! i = Some x -> slice i (S n) l = x :: slice (S i) n l.
Proof. intros H; unfold slice; by rewrite (drop_cons_lookup _ _ _ H). Qed.

Lemma slice_slice {A} i n j m (l : list A) :
  j + m <= n -> slice j m (slice i n l) = slice (i + j) m l.
Proof.
  intros; unfold slice. rewrite skipn_firstn_comm, drop_drop, take_take.
  f_equal; lia.
Qed.

Lemma slice_full {A} (l : list A) n : n = length l -> slice 0 n l = l.
Proof. intros ->; unfold slice; rewrite drop_0; by apply take_ge. Qed.

Lemma slice_app_l {A} i n (l l' : list A) :
  i + n <= length l -> slice i n (l ++ l') = slice i n l.
Proof.
  intros; unfold slice. rewrite drop_app_le by lia.
  apply take_app_le; rewrite length_drop; lia.
Qed.

Lemma slice_lookup {A} i n j (l : list A) :
  slice i n l !! j = if decide (j < n) then l !! (i + j) else None.
Proof.
  unfold slice. case_decide; [by rewrite lookup_take_lt, lookup_drop|].
  apply lookup_ge_None. rewrite length_take. lia.
Qed.
