(* ===== verification/CLib.v ===== *)
(** * The C and C++ standard library, as far as the program uses it

    Memory blocks and [std::string]s as byte lists, [strlen], [std::string]'s
    [find] and [substr], [vector::at], [atoi], and the [printf] family.
    [size_t] has 32 bits: the makefile builds for x86. *)
From Stdlib Require Import ZArith Ascii String Lia.
From stdpp Require Import base tactics list.
From S2P Require Import Prelude.

#[local] Open Scope Z_scope.

(** ** Memory and C strings *)

(** [str[i]] for a block whose allocated bytes are [mem]. *)
Definition char_at (mem : bytes) (i : nat) : outcome ascii :=
  match mem !! i with Some c => Ok c | None => UB OutOfBounds end.

(** The [n] bytes from [start], as [string::assign(mem + start, n)] reads them. *)
Definition mem_range (mem : bytes) (start n : nat) : outcome bytes :=
  if (start + n <=? length mem)%nat then Ok (slice start n mem) else UB OutOfBounds.

(** [v.at(i)] *)
Definition list_at {A} (l : list A) (i : nat) : outcome A :=
  match l !! i with Some a => Ok a | None => Throw ExOutOfRange end.

(** The characters before the first NUL. *)
Fixpoint cstr (s : bytes) : bytes :=
  match s with
  | [] => []
  | c :: s => if decide (c = NUL) then [] else c :: cstr s
  end.

Definition strlen (s : bytes) : nat := length (cstr s).

(** [s.c_str()]: the characters and the terminating NUL. *)
Definition c_str (s : bytes) : bytes := s ++ [NUL].

Lemma cstr_c_str s : cstr (c_str s) = cstr s.
Proof. unfold c_str; induction s as [|c s IH]; simpl; [done|]; by rewrite IH. Qed.

Lemma cstr_no_nul s : NUL ∉ cstr s.
Proof.
  induction s as [|c s IH]; simpl; [apply not_elem_of_nil|].
  case_decide; [apply not_elem_of_nil|]. by apply not_elem_of_cons.
Qed.

Lemma cstr_id s : NUL ∉ s -> cstr s = s.
Proof.
  induction s as [|c s IH]; simpl; intros Hn; [done|].
  rewrite decide_False by set_solver. f_equal; apply IH; set_solver.
Qed.

Lemma cstr_idemp s : cstr (cstr s) = cstr s.
Proof. apply cstr_id, cstr_no_nul. Qed.

Lemma cstr_app s t : NUL ∉ s -> cstr (s ++ t) = s ++ cstr t.
Proof.
  induction s as [|c s IH]; simpl; intros Hn; [done|].
  rewrite decide_False by set_solver. f_equal; apply IH; set_solver.
Qed.

Lemma strlen_le s : (strlen s <= length s)%nat.
Proof. unfold strlen; induction s as [|c s IH]; simpl; [lia|]; case_decide; simpl; lia. Qed.

Lemma cstr_prefix s : exists t, s = cstr s ++ t.
Proof.
  induction s as [|c s [t IH]]; simpl; [by exists []|].
  case_decide; [by exists (c :: s)|]. exists t; simpl; congruence.
Qed.

Lemma char_at_Ok mem i c : mem !! i = Some c -> char_at mem i = Ok c.
Proof. unfold char_at; by intros ->. Qed.

Lemma mem_range_Ok mem i n : (i + n <= length mem)%nat -> mem_range mem i n = Ok (slice i n mem).
Proof. unfold mem_range; intros; destruct (Nat.leb_spec (i + n) (length mem)); [done|lia]. Qed.

(** ** [std::string] *)

Definition npos : Z := 2 ^ 32 - 1.
Definition size_t (z : Z) : Z := u32 z.
Definition size (s : bytes) : Z := Z.of_nat (length s).

Definition is_prefix (p s : bytes) : bool := bool_decide (take (length p) s = p).

Fixpoint find_go (pat s : bytes) (i : nat) : option nat :=
  if is_prefix pat s then Some i
  else match s with [] => None | _ :: s => find_go pat s (S i) end.

(** Position of the first occurrence of [pat] at or after [pos]. *)
Definition find_nat (pat s : bytes) (pos : nat) : option nat :=
  if (pos <=? length s)%nat then find_go pat (drop pos s) pos else None.

(** [s.find(pat, pos)] *)
Definition str_find (pat s : bytes) (pos : Z) : Z :=
  match find_nat pat s (Z.to_nat pos) with Some i => Z.of_nat i | None => npos end.

(** [s.substr(pos, n)] *)
Definition substr (s : bytes) (pos n : Z) : outcome bytes :=
  if size s <? pos then Throw ExOutOfRange
  else Ok (slice (Z.to_nat pos) (Z.to_nat (Z.min n (size s - pos))) s).

(** [s.substr(pos)] *)
Definition substr_from (s : bytes) (pos : Z) : outcome bytes := substr s pos npos.

Lemma is_prefix_spec p s : is_prefix p s = true <-> exists t, s = p ++ t.
Proof.
  unfold is_prefix; rewrite bool_decide_eq_true; split.
  - intros H; exists (drop (length p) s). rewrite <- H at 1. by rewrite take_drop.
  - intros [t ->]. by rewrite take_app_length.
Qed.

Lemma find_go_shift pat s i j :
  find_go pat s (i + j)%nat = (fun k => (k + j)%nat) <$> find_go pat s i.
Proof.
  revert i; induction s as [|c s IH]; intros i; simpl; destruct (is_prefix _ _); try done.
  apply (IH (S i)).
Qed.

(** The first occurrence splits the string. *)
Lemma find_go_Some pat s i k :
  find_go pat s i = Some k ->
  exists t u, s = t ++ pat ++ u /\ k = (i + length t)%nat /\
    forall j, (j < length t)%nat -> is_prefix pat (drop j s) = false.
Proof.
  revert i; induction s as [|c s IH]; intros i; simpl.
  - destruct (is_prefix pat []) eqn:E; [|done]; intros [= <-].
    apply is_prefix_spec in E as [t E]; exists [], t; split_and!; simpl; try done; lia.
  - destruct (is_prefix pat (c :: s)) eqn:E.
    + intros [= <-]. apply is_prefix_spec in E as [t E].
      exists [], t; split_and!; simpl; try done; lia.
    + intros H; apply IH in H as (t & u & -> & -> & Hf).
      exists (c :: t), u; split_and!; simpl; [done|lia|].
      intros [|j] Hj; simpl; [done|]. apply Hf; lia.
Qed.

Lemma find_go_None pat s i :
  find_go pat s i = None -> forall j, (j <= length s)%nat -> is_prefix pat (drop j s) = false.
Proof.
  revert i; induction s as [|c s IH]; intros i; simpl.
  - destruct (is_prefix pat []) eqn:E; [done|]; intros _ j Hj.
    by replace j with 0%nat by lia.
  - destruct (is_prefix pat (c :: s)) eqn:E; [done|]; intros H [|j] Hj; [done|].
    simpl; apply (IH (S i)); [done|lia].
Qed.

Lemma find_nat_lt pat s pos k :
  find_nat pat s pos = Some k -> (pos <= k /\ k + length pat <= length s)%nat.
Proof.
  unfold find_nat; destruct (Nat.leb_spec pos (length s)); [|done].
  intros H0; apply find_go_Some in H0 as (t & u & Hs & -> & _).
  apply (f_equal length) in Hs; rewrite length_drop, !length_app in Hs; lia.
Qed.

Lemma substr_Ok s pos n :
  0 <= pos <= size s -> 0 <= n ->
  substr s pos n = Ok (take (Z.to_nat n) (drop (Z.to_nat pos) s)).
Proof.
  intros Hp Hn; unfold substr, size in *.
  destruct (Z.ltb_spec (Z.of_nat (length s)) pos); [lia|].
  f_equal; unfold slice.
  destruct (Z.min_spec n (Z.of_nat (length s) - pos)) as [[? ->]|[? ->]]; [done|].
  rewrite !take_ge; [done|rewrite length_drop; lia..].
Qed.

Lemma substr_from_Ok s pos :
  size s <= npos -> 0 <= pos <= size s -> substr_from s pos = Ok (drop (Z.to_nat pos) s).
Proof.
  intros; unfold substr_from. rewrite substr_Ok; [|lia|unfold npos; lia].
  f_equal; apply take_ge; rewrite length_drop; unfold size in *; lia.
Qed.

(** ** [atoi] *)

Definition code (c : ascii) : Z := Z.of_N (N_of_ascii c).

Definition is_digit (c : ascii) : bool := (48 <=? code c) && (code c <=? 57).

Definition is_space (c : ascii) : bool :=
  (code c =? 32) || ((9 <=? code c) && (code c <=? 13)).

Fixpoint skip_space (s : bytes) : bytes :=
  match s with
  | c :: s' => if is_space c then skip_space s' else s
  | [] => []
  end.

Fixpoint digits_value (s : bytes) (acc : Z) : Z :=
  match s with
  | c :: s => if is_digit c then digits_value s (10 * acc + (code c - 48)) else acc
  | [] => acc
  end.

(** [atoi(s)]; out of range the Microsoft library returns the nearest [int]. *)
Definition atoi (s : bytes) : Z :=
  let v := match skip_space (cstr s) with
           | [] => 0
           | c :: s => if decide (c = "-"%char) then - digits_value s 0
                       else if decide (c = "+"%char) then digits_value s 0
                       else digits_value (c :: s) 0
           end in
  Z.max INT_MIN (Z.min INT_MAX v).

Lemma atoi_range s : INT_MIN <= atoi s <= INT_MAX.
Proof. unfold atoi, INT_MIN, INT_MAX; lia. Qed.

(** ** Decimal output *)

Definition digit (d : Z) : ascii := ascii_of_N (Z.to_N (48 + d)).

Fixpoint dec_go (fuel : nat) (n : Z) (acc : bytes) : bytes :=
  match fuel with
  | O => acc
  | S fuel =>
      let acc := digit (n mod 10) :: acc in
      if n <? 10 then acc else dec_go fuel (n / 10) acc
  end.

(** A non-negative number below [10 ^ 20] (so any 64-bit one) in decimal. *)
Definition dec_unsigned (n : Z) : bytes := dec_go 20 n [].

Definition dec (n : Z) : bytes :=
  if n <? 0 then "-"%char :: dec_unsigned (- n) else dec_unsigned n.

(** ** The [printf] family

    The conversions the program's formats use. An argument is a C string or a
    32-bit integer; [%d] reads its bits as [int], [%u] as [unsigned]. *)

Inductive arg := AStr (s : bytes) | AInt (z : Z).

Fixpoint vformat (fmt : bytes) (args : list arg) : outcome bytes :=
  match fmt with
  | [] => Ok []
  | c :: fmt =>
      if decide (c = "%"%char) then
        match fmt, args with
        | "%"%char :: fmt, _ => o ← vformat fmt args; Ok ("%"%char :: o)
        | "s"%char :: fmt, AStr s :: args => o ← vformat fmt args; Ok (cstr s ++ o)
        | "d"%char :: fmt, AInt z :: args => o ← vformat fmt args; Ok (dec (i32 z) ++ o)
        | "u"%char :: fmt, AInt z :: args => o ← vformat fmt args; Ok (dec (u32 z) ++ o)
        | _, _ => UB BadFormat
        end
      else o ← vformat fmt args; Ok (c :: o)
  end.

(** What [snprintf(buf, n, fmt, ...)] leaves in [buf], up to its NUL. *)
Definition snprintf (n : Z) (fmt : bytes) (args : list arg) : outcome bytes :=
  take (Z.to_nat (n - 1)) <$> vformat (cstr fmt) args.

(** *** Numbers print to digits and read back *)

Definition all_digits (s : bytes) : Prop := Forall (fun c => is_digit c = true) s.

Lemma code_digit d : 0 <= d < 10 -> code (digit d) = 48 + d.
Proof.
  intros. unfold code, digit. rewrite N_ascii_embedding by lia. lia.
Qed.

Lemma digit_is_digit d : 0 <= d < 10 -> is_digit (digit d) = true.
Proof. intros; unfold is_digit; rewrite code_digit by done; lia. Qed.

Lemma digits_value_app s t acc :
  all_digits s -> digits_value (s ++ t) acc = digits_value t (digits_value s acc).
Proof.
  revert acc; induction s as [|c s IH]; intros acc Hs; [done|]; simpl.
  apply Forall_cons in Hs as [-> Hs]. by apply IH.
Qed.

Lemma digits_value_ge ds v :
  all_digits ds -> 0 <= v -> v * 10 ^ Z.of_nat (length ds) <= digits_value ds v.
Proof.
  intros Hds. revert v. induction Hds as [|d ds Hd Hds IH]; intros v Hv; [simpl; lia|].
  cbn [digits_value length]. rewrite Hd. rewrite Nat2Z.inj_succ, Z.pow_succ_r by lia.
  assert (0 <= code d - 48) by (unfold is_digit in Hd; lia).
  specialize (IH (10 * v + (code d - 48)) ltac:(lia)).
  pose proof (Z.pow_pos_nonneg 10 (Z.of_nat (length ds)) ltac:(lia) ltac:(lia)). nia.
Qed.

Lemma dec_go_acc fuel n acc : dec_go fuel n acc = dec_go fuel n [] ++ acc.
Proof.
  revert n acc; induction fuel as [|fuel IH]; intros n acc; simpl; [done|].
  destruct (n <? 10); [done|]. rewrite IH, (IH _ [_]), <- app_assoc; done.
Qed.

Lemma dec_go_digits fuel n : 0 <= n -> all_digits (dec_go fuel n []).
Proof.
  revert n; induction fuel as [|fuel IH]; intros n Hn; simpl; [constructor|].
  assert (is_digit (digit (n mod 10)) = true) by (apply digit_is_digit, Z.mod_pos_bound; lia).
  destruct (n <? 10); [by repeat constructor|].
  rewrite dec_go_acc; apply Forall_app; split; [apply IH, Z.div_pos; lia|by repeat constructor].
Qed.

Lemma dec_go_value fuel n :
  0 <= n < 10 ^ Z.of_nat fuel -> digits_value (dec_go fuel n []) 0 = n.
Proof.
  revert n; induction fuel as [|fuel IH]; intros n Hn.
  - simpl in *; lia.
  - cbn [dec_go]. assert (0 <= n mod 10 < 10) by (apply Z.mod_pos_bound; lia).
    destruct (Z.ltb_spec n 10).
    + rewrite Z.mod_small by lia. simpl. rewrite digit_is_digit, code_digit by lia. lia.
    + rewrite Nat2Z.inj_succ, Z.pow_succ_r in Hn by lia.
      assert (0 <= n / 10) by (apply Z.div_pos; lia).
      rewrite dec_go_acc, digits_value_app by (by apply dec_go_digits).
      rewrite IH by (split; [done|apply Z.div_lt_upper_bound; lia]).
      cbn [digits_value]. rewrite digit_is_digit, code_digit by done.
      pose proof (Z.div_mod n 10); lia.
Qed.

Lemma dec_unsigned_digits n : 0 <= n -> all_digits (dec_unsigned n).
Proof. apply dec_go_digits. Qed.

Lemma dec_unsigned_value n : 0 <= n < 10 ^ 20 -> digits_value (dec_unsigned n) 0 = n.
Proof. intros; by apply dec_go_value. Qed.

Lemma dec_go_cons fuel n c s : exists c' s', dec_go fuel n (c :: s) = c' :: s'.
Proof.
  revert n c s; induction fuel as [|fuel IH]; intros n c s; simpl; [eauto|].
  destruct (n <? 10); eauto.
Qed.

Lemma dec_go_S fuel n : exists c s, dec_go (S fuel) n [] = c :: s.
Proof. cbn [dec_go]. destruct (n <? 10); [by eexists _, []|apply dec_go_cons]. Qed.

Lemma dec_unsigned_cons n : exists c s, dec_unsigned n = c :: s.
Proof. apply dec_go_S. Qed.

Lemma is_digit_no_nul c : is_digit c = true -> c <> NUL.
Proof. intros H ->; discriminate H. Qed.

Lemma all_digits_no_nul s : all_digits s -> NUL ∉ s.
Proof.
  unfold all_digits; rewrite Forall_forall; intros H Hin.
  by apply H, is_digit_no_nul in Hin.
Qed.

(** [atoi] reads back a printed [unsigned] that an [int] can hold. *)
Lemma atoi_dec n : 0 <= n <= INT_MAX -> atoi (dec_unsigned n) = n.
Proof.
  intros Hn. assert (Hd := dec_unsigned_digits n (proj1 Hn)).
  assert (Hv := dec_unsigned_value n ltac:(unfold INT_MAX in *; lia)).
  unfold atoi. rewrite cstr_id by (by apply all_digits_no_nul).
  destruct (dec_unsigned_cons n) as (c & s & E); rewrite E in *.
  apply Forall_cons in Hd as [Hc _].
  assert (is_space c = false) as Hsp by (unfold is_space, is_digit in *; lia).
  cbn [skip_space]; rewrite Hsp.
  rewrite !decide_False by (intros ->; discriminate Hc).
  unfold INT_MIN, INT_MAX in *; lia.
Qed.

(** *** Formats without conversions are copied *)

Lemma vformat_plain s fmt args :
  "%"%char ∉ s -> vformat (s ++ fmt) args = (s ++.) <$> vformat fmt args.
Proof.
  induction s as [|c s IH]; intros Hs.
  - simpl. by destruct (vformat fmt args).
  - simpl. rewrite decide_False, IH by set_solver. by destruct (vformat fmt args).
Qed.

Lemma vformat_str fmt args s :
  vformat (bs "%s" ++ fmt) (AStr s :: args) = (cstr s ++.) <$> vformat fmt args.
Proof. simpl. by destruct (vformat fmt args). Qed.

Lemma vformat_dec fmt args z :
  vformat (bs "%d" ++ fmt) (AInt z :: args) = (dec (i32 z) ++.) <$> vformat fmt args.
Proof. simpl. by destruct (vformat fmt args). Qed.

Lemma vformat_unsigned fmt args z :
  vformat (bs "%u" ++ fmt) (AInt z :: args) = (dec (u32 z) ++.) <$> vformat fmt args.
Proof. simpl. by destruct (vformat fmt args). Qed.
