(* ===== verification/CDouble.v ===== *)
(** * [double] in the C library

    IEEE binary64 values as [spec_float]s, with what the JSON code does with
    them: conversions to and from integers, comparison, [modf], [sscanf] with
    [%lf] on the decimal numbers the reader accepts, and [%.*g], [%.*f]. *)
From Stdlib Require Import ZArith Ascii String Lia SpecFloat.
From stdpp Require Import base tactics list.
From S2P Require Import Prelude CLib.

#[local] Open Scope Z_scope.

Definition double : Type := spec_float.

#[export] Instance double_eq_dec : EqDecision double.
Proof. solve_decision. Defined.

(** [static_cast<double>(z)], rounded to nearest, ties to even. *)
Definition double_of_Z (z : Z) : double := binary_normalize 53 1024 z 0 false.

(** [static_cast<float>(d)]. *)
Definition float_of_double (d : double) : spec_float :=
  match d with
  | S754_finite s m e => binary_normalize 24 128 (if s then Z.neg m else Z.pos m) e s
  | d => d
  end.

Definition dlt (x y : double) : bool := SFltb x y.
Definition dle (x y : double) : bool := SFleb x y.
Definition deq (x y : double) : bool := SFeqb x y.

(** [d >= min && d <= max] for integers [min] and [max]. *)
Definition InRange (d : double) (min max : Z) : bool :=
  dle (double_of_Z min) d && dle d (double_of_Z max).

Definition is_nan (d : double) : bool := match d with S754_nan => true | _ => false end.
Definition is_zero (d : double) : bool := match d with S754_zero _ => true | _ => false end.
Definition is_finite (d : double) : bool :=
  match d with S754_zero _ | S754_finite _ _ _ => true | _ => false end.

(** [modf(d, &i) == 0.0] *)
Definition IsIntegral (d : double) : bool :=
  match d with
  | S754_zero _ | S754_infinity _ => true
  | S754_nan => false
  | S754_finite _ m e => (0 <=? e) || (Z.pos m mod 2 ^ (- e) =? 0)
  end.

(** Conversion to an integer type with the given bounds: towards zero, and
    undefined when the result does not fit. *)
Definition double_to_int (min max : Z) (d : double) : outcome Z :=
  match d with
  | S754_zero _ => Ok 0
  | S754_finite s m e =>
      let a := if 0 <=? e then Z.pos m * 2 ^ e else Z.pos m / 2 ^ (- e) in
      let z := if s then - a else a in
      if (min <=? z) && (z <=? max) then Ok z else UB BadConversion
  | _ => UB BadConversion
  end.

(** ** Reading *)

(** The digits in front of a string, and the rest. *)
Fixpoint span_digits (s : bytes) : bytes * bytes :=
  match s with
  | c :: s' => if is_digit c then let '(d, r) := span_digits s' in (c :: d, r) else ([], s)
  | [] => ([], [])
  end.

(** The [double] nearest to [(-1)^neg * n * 10^k]. *)
Definition double_of_decimal (neg : bool) (n k : Z) : double :=
  match n with
  | Z.pos p =>
      if 0 <=? k then binary_normalize 53 1024 ((if neg then -1 else 1) * (n * 10 ^ k)) 0 neg
      else match 10 ^ (- k) with
           | Z.pos q => SFdiv 53 1024 (S754_finite neg p 0) (S754_finite false q 0)
           | _ => S754_nan
           end
  | _ => S754_zero neg
  end.

(** [sscanf(s, "%lf", &value)] on a decimal number: [None] when no number can
    be read (no digits in the mantissa, or none behind the [e]). *)
Definition sscanf_lf (s : bytes) : option double :=
  let s := cstr s in
  let '(neg, s) := match s with
                   | "-"%char :: s => (true, s)
                   | "+"%char :: s => (false, s)
                   | s => (false, s)
                   end in
  let '(ip, s) := span_digits s in
  let '(fp, s) := match s with "."%char :: s => span_digits s | s => ([], s) end in
  if bool_decide (ip ++ fp = []) then None
  else
    let n := digits_value (ip ++ fp) 0 in
    let k := - Z.of_nat (length fp) in
    match s with
    | c :: s =>
        if decide (c = "e"%char \/ c = "E"%char) then
          let '(eneg, s) := match s with
                            | "-"%char :: s => (true, s)
                            | "+"%char :: s => (false, s)
                            | s => (false, s)
                            end in
          let '(ed, _) := span_digits s in
          if bool_decide (ed = []) then None
          else
            let e := digits_value ed 0 in
            Some (double_of_decimal neg n (k + if eneg : bool then - e else e))
        else Some (double_of_decimal neg n k)
    | [] => Some (double_of_decimal neg n k)
    end.

(** ** Printing *)

(** [a / b] rounded to nearest, ties to even. *)
Definition div_round (a b : Z) : Z :=
  let q := a / b in
  let r := 2 * (a mod b) in
  if r <? b then q else if b <? r then q + 1 else if Z.even q then q else q + 1.

(** [n] in decimal with at least [w] digits. *)
Fixpoint dec_pad (w : nat) (n : Z) (acc : bytes) : bytes :=
  match w with
  | O => acc
  | S w => dec_pad w (n / 10) (digit (n mod 10) :: acc)
  end.

Fixpoint count_digits (fuel : nat) (n : Z) : nat :=
  match fuel with
  | O => 1%nat
  | S fuel => if n <? 10 then 1%nat else S (count_digits fuel (n / 10))
  end.

Definition dec_big (n : Z) : bytes := dec_pad (count_digits (Z.to_nat (Z.log2 n)) n) n [].

(** [num / den] (positive) with [p] decimal places. *)
Definition format_fixed (num den : Z) (p : nat) : bytes :=
  let n := div_round (num * 10 ^ Z.of_nat p) den in
  let t := 10 ^ Z.of_nat p in
  dec_big (n / t) ++ if (p =? 0)%nat then [] else "."%char :: dec_pad p (n mod t) [].

(** The decimal exponent of [num / den]: the [x] with [10^x <= num/den < 10^(x+1)],
    searched from [x] downwards and upwards. *)
Fixpoint exponent_up (fuel : nat) (num den x : Z) : Z :=
  match fuel with
  | O => x
  | S fuel => if 10 * den <=? num then exponent_up fuel num (10 * den) (x + 1) else x
  end.
Fixpoint exponent_down (fuel : nat) (num den x : Z) : Z :=
  match fuel with
  | O => x
  | S fuel => if num <? den then exponent_down fuel (10 * num) den (x - 1) else x
  end.

Definition decimal_exponent (num den : Z) : Z :=
  if num <? den then exponent_down 400 num den 0 else exponent_up 400 num den 0.

(** Drops zeros at the end, and a point that is left there. *)
Fixpoint strip_zeros_rev (r : bytes) : bytes :=
  match r with
  | c :: r' => if decide (c = "0"%char) then strip_zeros_rev r'
               else if decide (c = "."%char) then r' else r
  | [] => []
  end.
Definition strip_zeros (s : bytes) : bytes :=
  if decide ("."%char ∈ s) then rev (strip_zeros_rev (rev s)) else s.

(** [%.*g] *)
Definition format_general (num den : Z) (precision : Z) : bytes :=
  let p := Z.max 1 precision in
  let x0 := decimal_exponent num den in
  (* the [p] digits; rounding may carry into one more *)
  let scaled x := if p - 1 - x <? 0 then div_round num (den * 10 ^ (x - (p - 1)))
                  else div_round (num * 10 ^ (p - 1 - x)) den in
  let x := if 10 ^ p <=? scaled x0 then x0 + 1 else x0 in
  let d := scaled x in
  if (-4 <=? x) && (x <? p) then strip_zeros (format_fixed num den (Z.to_nat (p - 1 - x)))
  else
    let ds := dec_pad (Z.to_nat p) d [] in
    strip_zeros (take 1 ds ++ "."%char :: drop 1 ds)
    ++ "e"%char :: (if x <? 0 then "-"%char else "+"%char)
    :: dec_pad (Nat.max 2 (count_digits 3 (Z.abs x))) (Z.abs x) [].

(** [%.*g] when [general], else [%.*f], of a finite value. *)
Definition format_double (general : bool) (precision : Z) (d : double) : bytes :=
  match d with
  | S754_finite s m e =>
      let num := if 0 <=? e then Z.pos m * 2 ^ e else Z.pos m in
      let den := if 0 <=? e then 1 else 2 ^ (- e) in
      (if s then (cons "-"%char) else id)
        (if general then format_general num den precision
         else format_fixed num den (Z.to_nat precision))
  | S754_zero s =>
      (if s then (cons "-"%char) else id)
        (if general || (precision =? 0) then bs "0"
         else bs "0." ++ replicate (Z.to_nat precision) "0"%char)
  | _ => []
  end.
