(* ===== verification/Http.v ===== *)
(** * The HTTP request parser (http.cpp, http.h)

    The model: [splitString], [copyString], [parseUrl] and [parseHttpMessage],
    over a memory block that may be read out of bounds.  Then what they
    promise: the tokenizer and the line-by-line parser they implement, and the
    shape of the URLs on which [parseUrl] throws.  HttpProofs.v proves it. *)
From Stdlib Require Import ZArith Ascii String Lia.
From stdpp Require Import base tactics list.
From S2P Require Import Prelude CLib.

(** ** Data *)

Record HttpUrlParam_t := HttpUrlParam { key : bytes; value : bytes }.

Record HttpReqUrl_t := HttpReqUrl { cmd : bytes; param : list HttpUrlParam_t }.

(** [data] points into the parsed buffer: its offset there. *)
Record HttpReq_t := HttpReq {
  sessionId : Z;
  type : bytes;
  url : HttpReqUrl_t;
  version : bytes;
  origin : bytes;
  keepAlive : bool;
  data : option nat;
  dataSize : Z;
  pragma : Z
}.

Record StringDesc_t := StringDesc { start : nat; length_ : nat }.

Abbreviation StringDescList_t := (list StringDesc_t).

#[export] Instance StringDesc_eq_dec : EqDecision StringDesc_t.
Proof. solve_decision. Defined.
#[export] Instance HttpUrlParam_eq_dec : EqDecision HttpUrlParam_t.
Proof. solve_decision. Defined.
#[export] Instance HttpReqUrl_eq_dec : EqDecision HttpReqUrl_t.
Proof. solve_decision. Defined.
#[export] Instance HttpReq_eq_dec : EqDecision HttpReq_t.
Proof. solve_decision. Defined.

Definition HTTP_LINE_SIZE_MAX : Z := 512.
Definition HTTP_HEADER_SIZE_MAX : Z := 1024.
Definition HTTP_SERVER_NAME : bytes := bs "WebRTC Reflector".

(** A request as [HttpReq_t httpReq;] constructs it (strings empty; the other
    fields are set by [parseHttpMessage] before anything reads them). *)
Definition emptyReq : HttpReq_t :=
  HttpReq 0 [] (HttpReqUrl [] []) [] [] false None 0 0.

Definition set_type v r := HttpReq (sessionId r) v (url r) (version r) (origin r)
  (keepAlive r) (data r) (dataSize r) (pragma r).
Definition set_url v r := HttpReq (sessionId r) (type r) v (version r) (origin r)
  (keepAlive r) (data r) (dataSize r) (pragma r).
Definition set_version v r := HttpReq (sessionId r) (type r) (url r) v (origin r)
  (keepAlive r) (data r) (dataSize r) (pragma r).
Definition set_origin v r := HttpReq (sessionId r) (type r) (url r) (version r) v
  (keepAlive r) (data r) (dataSize r) (pragma r).
Definition set_keepAlive v r := HttpReq (sessionId r) (type r) (url r) (version r)
  (origin r) v (data r) (dataSize r) (pragma r).
Definition set_data v r := HttpReq (sessionId r) (type r) (url r) (version r)
  (origin r) (keepAlive r) v (dataSize r) (pragma r).
Definition set_dataSize v r := HttpReq (sessionId r) (type r) (url r) (version r)
  (origin r) (keepAlive r) (data r) v (pragma r).
Definition set_pragma v r := HttpReq (sessionId r) (type r) (url r) (version r)
  (origin r) (keepAlive r) (data r) (dataSize r) v.

(** ** Operations *)

(** The descriptor of the characters from [s] up to [i], when there are any. *)
Definition pushDesc (i s : nat) (list : StringDescList_t) : StringDescList_t :=
  if (0 <? i - s)%nat then list ++ [StringDesc s (i - s)] else list.

(** The loop of [splitString]; [n] iterations are left ([end - i]). *)
Fixpoint splitString_loop (str ptrn : bytes) (n i s : nat) (list : StringDescList_t)
  : outcome (nat * nat * StringDescList_t) :=
  match n with
  | O => Ok (i, s, list)
  | S n =>
      c ← char_at str i;
      if decide (c ∈ ptrn) then
        splitString_loop str ptrn n (i + 1) (i + 1) (pushDesc i s list)
      else splitString_loop str ptrn n (i + 1) s list
  end.

(** The list [splitString] leaves; its result is the list's length. *)
Definition splitString (str : bytes) (start end_ : nat) (ptrn : bytes)
  : outcome StringDescList_t :=
  '(i, s, list) ← splitString_loop str ptrn (end_ - start) start start [];
  Ok (pushDesc i s list).

Definition copyString (src : bytes) (desc : StringDesc_t) : outcome bytes :=
  mem_range src (start desc) (length_ desc).

Definition split_desc (str : bytes) (desc : StringDesc_t) (ptrn : bytes)
  : outcome StringDescList_t :=
  splitString str (start desc) (start desc + length_ desc) ptrn.

(** One parameter of the query string. *)
Definition parseParam (buff : bytes) (params : list HttpUrlParam_t) (desc : StringDesc_t)
  : outcome (list HttpUrlParam_t) :=
  strDesc2 ← split_desc buff desc (bs "=");
  if (length strDesc2 <? 2)%nat then Ok params
  else
    d0 ← list_at strDesc2 0;
    k ← copyString buff d0;
    d1 ← list_at strDesc2 1;
    v ← copyString buff d1;
    Ok (params ++ [HttpUrlParam k v]).

Definition parseUrl (buff : bytes) (reqUrl : HttpReqUrl_t) : outcome (Z * HttpReqUrl_t) :=
  let mem := c_str buff in
  strDesc ← splitString mem 0 (strlen mem) (bs "/");
  let index := (Z.of_nat (length strDesc) - 1)%Z in
  if (index <? 0)%Z then Ok ((-1)%Z, reqUrl)
  else
    desc ← list_at strDesc (Z.to_nat index);
    strDesc ← split_desc mem desc (bs "?");
    let count := length strDesc in
    d0 ← list_at strDesc 0;
    c ← copyString mem d0;
    let reqUrl := HttpReqUrl c (param reqUrl) in
    if (1 <? count)%nat then
      d1 ← list_at strDesc 1;
      strDesc ← split_desc mem d1 (bs "&");
      params ← foldM (parseParam mem) (param reqUrl) strDesc;
      Ok (0%Z, HttpReqUrl (cmd reqUrl) params)
    else Ok (0%Z, reqUrl).

(** The request line: method, URL, version. *)
Definition parseRequestLine (buffer : bytes) (lineStart lineEnd : nat) (httpReq : HttpReq_t)
  : outcome HttpReq_t :=
  descList ← splitString buffer lineStart lineEnd (bs " ");
  httpReq ← match descList !! 0%nat with
            | Some d => t ← copyString buffer d; Ok (set_type t httpReq)
            | None => Ok httpReq
            end;
  httpReq ← match descList !! 1%nat with
            | Some d => temp ← copyString buffer d;
                        '(_, u) ← parseUrl temp (url httpReq); Ok (set_url u httpReq)
            | None => Ok httpReq
            end;
  match descList !! 2%nat with
  | Some d => v ← copyString buffer d; Ok (set_version v httpReq)
  | None => Ok httpReq
  end.

(** A header line: its text up to the first space names the field. *)
Definition parseHeaderLine (line : bytes) (httpReq : HttpReq_t) : outcome HttpReq_t :=
  let pos := str_find (bs " ") line 0 in
  if (pos =? npos)%Z then Ok httpReq
  else
    name ← substr line 0 pos;
    rest ← substr_from line (pos + 1);
    Ok (if decide (name = bs "Content-Length:") then
          set_dataSize (u32 (atoi (c_str rest))) httpReq
        else if decide (name = bs "Pragma:") then
          set_pragma (u32 (atoi (c_str rest))) httpReq
        else if decide (name = bs "Origin:") then set_origin rest httpReq
        else if decide (name = bs "Connection:") then
          set_keepAlive (bool_decide (rest = bs "keep-alive")) httpReq
        else httpReq).

(** The loop of [parseHttpMessage]; every iteration advances [i]. *)
Fixpoint parse_loop (fuel : nat) (buffer : bytes) (len i lineStart lineNo : nat)
    (httpReq : HttpReq_t) : outcome (bool * HttpReq_t) :=
  if (i <? len)%nat then
    match fuel with
    | O => NoFuel
    | S fuel =>
        c ← char_at buffer i;
        crlf ← (if decide (c = CR) then
                  c' ← char_at buffer (i + 1); Ok (bool_decide (c' = LF))
                else Ok false);
        if (crlf : bool) then
          let lineEnd := i in
          if (0 <? lineEnd - lineStart)%nat then
            httpReq ← (if (lineNo =? 0)%nat then
                         parseRequestLine buffer lineStart lineEnd httpReq
                       else
                         line ← mem_range buffer lineStart (lineEnd - lineStart);
                         parseHeaderLine line httpReq);
            parse_loop fuel buffer len (i + 2) (i + 2) (lineNo + 1) httpReq
          else
            let i := (i + 2)%nat in
            Ok (true, if (i <? len)%nat then set_data (Some i) httpReq else httpReq)
        else parse_loop fuel buffer len (i + 1) lineStart lineNo httpReq
    end
  else Ok (false, httpReq).

Definition parseHttpMessage (buffer : bytes) (len : nat) (httpReq : HttpReq_t)
  : outcome (bool * HttpReq_t) :=
  let httpReq := HttpReq 0 (type httpReq) (url httpReq) (version httpReq) (origin httpReq)
                   false None 0 0 in
  parse_loop len buffer len 0 0 0 httpReq.

(** ** Specification: tokens

    [splitString] cuts a range into the maximal runs of characters outside
    [ptrn]. *)

(** The maximal runs of characters outside [ptrn]; [cur] is the run so far. *)
Fixpoint tokens_go (ptrn s cur : bytes) : list bytes :=
  match s with
  | [] => if decide (cur = []) then [] else [cur]
  | c :: s =>
      if decide (c ∈ ptrn) then
        (if decide (cur = []) then [] else [cur]) ++ tokens_go ptrn s []
      else tokens_go ptrn s (cur ++ [c])
  end.

Definition tokens (ptrn s : bytes) : list bytes := tokens_go ptrn s [].

Definition desc_text (str : bytes) (d : StringDesc_t) : bytes := slice (start d) (length_ d) str.

Definition desc_in (lo hi : nat) (d : StringDesc_t) : Prop :=
  lo <= start d /\ 0 < length_ d /\ start d + length_ d <= hi.

(** ** Specification: URLs *)

(** What a query parameter contributes: its first two [=]-separated parts. *)
Definition param_of (p : bytes) : list HttpUrlParam_t :=
  match tokens (bs "=") p with
  | k :: v :: _ => [HttpUrlParam k v]
  | _ => []
  end.

(** The command is the path's last segment up to [?], the parameters follow. *)
Definition url_spec (buff : bytes) (reqUrl : HttpReqUrl_t) : outcome (Z * HttpReqUrl_t) :=
  match last (tokens (bs "/") (cstr buff)) with
  | None => Ok ((-1)%Z, reqUrl)
  | Some seg =>
      match tokens (bs "?") seg with
      | [] => Throw ExOutOfRange
      | [c] => Ok (0%Z, HttpReqUrl c (param reqUrl))
      | c :: q :: _ => Ok (0%Z, HttpReqUrl c (param reqUrl ++ (tokens (bs "&") q ≫= param_of)))
      end
  end.

Definition only_question_marks (seg : bytes) : bool := bool_decide (Forall (fun c => c = "?"%char) seg).

(** The last non-empty segment of the URL consists of [?] only. *)
Definition url_throws (buff : bytes) : bool :=
  match last (tokens (bs "/") (cstr buff)) with
  | Some seg => only_question_marks seg
  | None => false
  end.

(** ** Specification: requests, line by line *)

(** The lines before the blank one, and what follows it; [cur] is the line so far. *)
Fixpoint header_lines (s cur : bytes) : list bytes * option bytes :=
  match s with
  | c :: (c' :: s'') as s' =>
      if decide (c = CR /\ c' = LF) then
        if decide (cur = []) then ([], Some s'')
        else let '(ls, body) := header_lines s'' [] in (cur :: ls, body)
      else header_lines s' (cur ++ [c])
  | _ => ([], None)
  end.

Definition request_line_spec (line : bytes) (httpReq : HttpReq_t) : outcome HttpReq_t :=
  let words := tokens (bs " ") line in
  let httpReq := match words !! 0 with Some t => set_type t httpReq | None => httpReq end in
  httpReq ← match words !! 1 with
            | Some t => '(_, u) ← url_spec t (url httpReq); Ok (set_url u httpReq)
            | None => Ok httpReq
            end;
  Ok (match words !! 2 with Some v => set_version v httpReq | None => httpReq end).

Definition line_spec (lineNo : nat) (line : bytes) (httpReq : HttpReq_t) : outcome HttpReq_t :=
  if (lineNo =? 0)%nat then request_line_spec line httpReq else parseHeaderLine line httpReq.

Fixpoint lines_spec (lineNo : nat) (lines : list bytes) (httpReq : HttpReq_t)
  : outcome HttpReq_t :=
  match lines with
  | [] => Ok httpReq
  | line :: lines => line_spec lineNo line httpReq ≫= lines_spec (lineNo + 1) lines
  end.

(** The body is where the buffer continues after the blank line. *)
Definition body_spec (msg : bytes) (body : option bytes) (httpReq : HttpReq_t) : HttpReq_t :=
  match body with
  | Some ((_ :: _) as b) => set_data (Some (length msg - length b)) httpReq
  | _ => httpReq
  end.

Definition message_spec (msg : bytes) (httpReq : HttpReq_t) : outcome (bool * HttpReq_t) :=
  let '(lines, body) := header_lines msg [] in
  r ← lines_spec 0 lines (HttpReq 0 (type httpReq) (url httpReq) (version httpReq)
                            (origin httpReq) false None 0 0);
  Ok (bool_decide (is_Some body), body_spec msg body r).

(** The second word of the first header line: the URL of the request. *)
Definition request_target (msg : bytes) : option bytes :=
  match fst (header_lines msg []) with
  | line :: _ => tokens (bs " ") line !! 1
  | [] => None
  end.

Definition request_throws (msg : bytes) : bool :=
  match request_target msg with Some u => url_throws u | None => false end.


(** ** Specification: printed requests

    The request a client of the page sends: a method, a one-segment path and
    the four header fields the server reads. *)
Definition render_request (meth command org : bytes) (alive : bool) (prag : Z) (body : bytes) : bytes :=
  (meth ++ bs " /" ++ command ++ bs " HTTP/1.1") ++ CRLF ++
  (bs "Origin: " ++ org) ++ CRLF ++
  (bs "Connection: " ++ (if alive then bs "keep-alive" else bs "close")) ++ CRLF ++
  (bs "Pragma: " ++ dec_unsigned prag) ++ CRLF ++
  (bs "Content-Length: " ++ dec_unsigned (Z.of_nat (length body))) ++ CRLF ++ CRLF ++ body.

(** A non-empty text without the characters of [forbidden]. *)
Definition word_without (forbidden w : bytes) : Prop :=
  w <> [] /\ forall c, c ∈ w -> c ∉ forbidden.

(** What reading it back gives. *)
Definition rendered_request (meth command org : bytes) (alive : bool) (prag : Z) (body : bytes)
  : HttpReq_t :=
  let msg := render_request meth command org alive prag body in
  HttpReq 0 meth (HttpReqUrl command []) (bs "HTTP/1.1") org alive
    (match body with [] => None | _ => Some (length msg - length body) end)
    (Z.of_nat (length body)) prag.
