(* ===== verification/HttpProofs.v ===== *)
(** * The HTTP request parser: lemmas and properties

    [splitString] is the tokenizer, [parseUrl] and [parseHttpMessage] are their
    list-level specifications; when the parser throws, when it accepts, and
    that it reads back a printed request. *)
From Stdlib Require Import ZArith Ascii String Lia.
From stdpp Require Import base tactics list.
From S2P Require Import Prelude CLib Http.

(** ** The tokenizer *)

Lemma tokens_go_nonempty ptrn s cur : Forall (fun t => t <> []) (tokens_go ptrn s cur).
Proof.
  revert cur; induction s as [|c s IH]; intros cur; simpl; repeat case_decide; simpl;
    eauto using Forall_nil, Forall_cons.
Qed.

Lemma tokens_go_no_delim ptrn s cur :
  (forall c, c ∈ cur -> c ∉ ptrn) ->
  Forall (fun t => forall c, c ∈ t -> c ∉ ptrn) (tokens_go ptrn s cur).
Proof.
  revert cur; induction s as [|c s IH]; intros cur Hc; simpl; repeat case_decide; simpl;
    repeat first [apply Forall_cons; split | apply Forall_nil | apply IH]; set_solver.
Qed.

Lemma tokens_go_concat ptrn s cur :
  concat (tokens_go ptrn s cur) = cur ++ filter (fun c => c ∉ ptrn) s.
Proof.
  revert cur; induction s as [|c s IH]; intros cur; simpl.
  - case_decide; subst; simpl; by rewrite ?app_nil_r.
  - rewrite (filter_cons (fun c => c ∉ ptrn)). destruct (decide (c ∈ ptrn)) as [Hin|Hin].
    + rewrite (decide_False (P := c ∉ ptrn)) by tauto.
      case_decide; subst; simpl; by rewrite IH.
    + rewrite (decide_True (P := c ∉ ptrn)) by done. by rewrite IH, <- app_assoc.
Qed.

(** A text without delimiters is one token. *)
Lemma tokens_go_word ptrn w s cur :
  (forall c, c ∈ w -> c ∉ ptrn) -> tokens_go ptrn (w ++ s) cur = tokens_go ptrn s (cur ++ w).
Proof.
  revert cur; induction w as [|c w IH]; intros cur Hw; simpl; [by rewrite app_nil_r|].
  rewrite decide_False by set_solver. rewrite IH by set_solver. by rewrite <- app_assoc.
Qed.

Lemma tokens_word ptrn w :
  (forall c, c ∈ w -> c ∉ ptrn) -> w <> [] -> tokens ptrn w = [w].
Proof.
  intros Hw Hn; unfold tokens. rewrite <- (app_nil_r w) at 1.
  rewrite tokens_go_word by done. simpl. by rewrite decide_False.
Qed.

Lemma tokens_word_delim ptrn w d s :
  (forall c, c ∈ w -> c ∉ ptrn) -> w <> [] -> d ∈ ptrn ->
  tokens ptrn (w ++ d :: s) = w :: tokens ptrn s.
Proof.
  intros Hw Hn Hd; unfold tokens. rewrite tokens_go_word by done. simpl.
  by rewrite decide_True, decide_False by done.
Qed.

Lemma tokens_delim ptrn d s : d ∈ ptrn -> tokens ptrn (d :: s) = tokens ptrn s.
Proof. intros; unfold tokens; simpl. by rewrite decide_True. Qed.

Lemma tokens_nil_iff ptrn s : tokens ptrn s = [] <-> Forall (fun c => c ∈ ptrn) s.
Proof.
  unfold tokens; split.
  - intros H. pose proof (tokens_go_concat ptrn s []) as E. rewrite H in E; simpl in E.
    apply Forall_forall; intros c Hc. destruct (decide (c ∈ ptrn)); [done|].
    assert (c ∈ filter (fun c => c ∉ ptrn) s) as Hin by (by apply list_elem_of_filter).
    rewrite <- E in Hin. by apply not_elem_of_nil in Hin.
  - induction 1; simpl; [done|]. by rewrite decide_True.
Qed.

(** ** [splitString] *)

Lemma desc_text_push str i s list :
  s <= i <= length str ->
  desc_text str <$> pushDesc i s list
  = (desc_text str <$> list)
    ++ (if decide (slice s (i - s) str = []) then [] else [slice s (i - s) str]).
Proof.
  intros Hi; unfold pushDesc.
  assert (length (slice s (i - s) str) = i - s)%nat as Hl by (apply slice_length; lia).
  destruct (Nat.ltb_spec 0 (i - s)).
  - rewrite decide_False by (intros E; rewrite E in Hl; simpl in Hl; lia).
    by rewrite fmap_app.
  - replace (i - s)%nat with 0 by lia.
    rewrite decide_True by done. by rewrite app_nil_r.
Qed.

Lemma desc_in_push lo hi i s list :
  lo <= s -> i <= hi -> Forall (desc_in lo hi) list ->
  Forall (desc_in lo hi) (pushDesc i s list).
Proof.
  intros; unfold pushDesc; destruct (Nat.ltb_spec 0 (i - s)); [|done].
  apply Forall_app; split; [done|]. repeat constructor; simpl; lia.
Qed.

Lemma splitString_loop_spec str ptrn lo n i s list :
  lo <= s <= i -> i + n <= length str -> Forall (desc_in lo (i + n)) list ->
  exists s' list',
    splitString_loop str ptrn n i s list = Ok (i + n, s', list') /\ lo <= s' <= i + n /\
    Forall (desc_in lo (i + n)) list' /\
    desc_text str <$> pushDesc (i + n) s' list'
    = (desc_text str <$> list) ++ tokens_go ptrn (slice i n str) (slice s (i - s) str).
Proof.
  revert i s list; induction n as [|n IH]; intros i s list Hs Hi Hl.
  - exists s, list. rewrite Nat.add_0_r in *. split_and!; try done; try lia.
    rewrite desc_text_push by lia. done.
  - destruct (lookup_lt_is_Some_2 str i) as [c Hc]; [lia|].
    cbn [splitString_loop]. rewrite (char_at_Ok _ _ _ Hc). run.
    rewrite (slice_cons _ _ _ _ Hc). cbn [tokens_go].
    replace (i + S n) with (i + 1 + n) in * by lia. replace (S i) with (i + 1) by lia.
    destruct (decide (c ∈ ptrn)).
    + destruct (IH (i + 1) (i + 1) (pushDesc i s list)) as (s' & list' & -> & ? & ? & E);
        [lia|lia|apply desc_in_push; [lia|lia|done]|].
      exists s', list'; split_and!; [done|lia|lia|done|].
      rewrite E, desc_text_push, <- app_assoc by lia.
      replace (i + 1 - (i + 1)) with 0 by lia. done.
    + destruct (IH (i + 1) s list) as (s' & list' & -> & ? & ? & E); [lia|lia|done|].
      exists s', list'; split_and!; [done|lia|lia|done|].
      rewrite E. do 2 f_equal. replace (i + 1 - s) with (S (i - s)) by lia.
      apply slice_snoc. by replace (s + (i - s)) with i by lia.
Qed.

Lemma splitString_tokens str start_ end_ ptrn :
  start_ <= end_ <= length str ->
  exists list, splitString str start_ end_ ptrn = Ok list /\
    Forall (desc_in start_ end_) list /\
    desc_text str <$> list = tokens ptrn (slice start_ (end_ - start_) str).
Proof.
  intros Hr; unfold splitString.
  destruct (splitString_loop_spec str ptrn start_ (end_ - start_) start_ start_ [])
    as (s' & list' & -> & Hs & Hl & E); [lia|lia|constructor|].
  replace (start_ + (end_ - start_)) with end_ in * by lia.
  eexists; split; [reflexivity|]. split; [by apply desc_in_push; [lia|lia|]|].
  rewrite E, Nat.sub_diag. done.
Qed.

(** ** [parseUrl] *)

Section Descriptors.
Context (str : bytes).

Definition wf_desc (d : StringDesc_t) : Prop := start d + length_ d <= length str.

Lemma wf_desc_in lo hi l :
  hi <= length str -> Forall (desc_in lo hi) l -> Forall wf_desc l.
Proof.
  intros Hh Hl; eapply Forall_impl; [exact Hl|]. unfold desc_in, wf_desc; intros; lia.
Qed.

Lemma copyString_wf d : wf_desc d -> copyString str d = Ok (desc_text str d).
Proof. intros; by apply mem_range_Ok. Qed.

Lemma split_desc_tokens d ptrn :
  wf_desc d ->
  exists l, split_desc str d ptrn = Ok l /\ Forall wf_desc l /\
    desc_text str <$> l = tokens ptrn (desc_text str d).
Proof.
  intros Hd; destruct (splitString_tokens str (start d) (start d + length_ d) ptrn)
    as (l & E & Hl & Et); [unfold wf_desc in *; lia|].
  exists l; split_and!; [done|by eapply wf_desc_in|].
  rewrite Et. unfold desc_text; do 2 f_equal; lia.
Qed.

Lemma parseParam_spec params d :
  wf_desc d -> parseParam str params d = Ok (params ++ param_of (desc_text str d)).
Proof.
  intros Hd; unfold parseParam, param_of.
  destruct (split_desc_tokens d (bs "=") Hd) as (l & -> & Hl & Et); run.
  rewrite <- Et. destruct l as [|d0 [|d1 l]]; simpl; rewrite ?app_nil_r; try done.
  apply Forall_cons in Hl as [? Hl]. apply Forall_cons in Hl as [? _].
  by rewrite !copyString_wf.
Qed.

Lemma parseParams_spec params l :
  Forall wf_desc l ->
  foldM (parseParam str) params l = Ok (params ++ ((desc_text str <$> l) ≫= param_of)).
Proof.
  intros Hl; revert params; induction Hl as [|d l Hd Hl IH]; intros params; simpl.
  - by rewrite app_nil_r.
  - rewrite parseParam_spec by done; run. by rewrite IH, <- app_assoc.
Qed.
End Descriptors.

Lemma slice_c_str s : slice 0 (strlen (c_str s)) (c_str s) = cstr s.
Proof.
  unfold strlen; rewrite cstr_c_str. destruct (cstr_prefix s) as [t E].
  unfold c_str, slice; rewrite drop_0. rewrite E at 2.
  rewrite <- app_assoc. by rewrite take_app_length.
Qed.

Lemma list_at_last {A} (l : list A) x :
  last l = Some x -> list_at l (Z.to_nat (Z.of_nat (length l) - 1)) = Ok x.
Proof.
  unfold list_at; rewrite last_lookup; intros E.
  replace (Z.to_nat (Z.of_nat (length l) - 1)) with (pred (length l)) by lia.
  by rewrite E.
Qed.

Lemma parseUrl_refines buff reqUrl : parseUrl buff reqUrl = url_spec buff reqUrl.
Proof.
  unfold parseUrl, url_spec; set (mem := c_str buff).
  assert (strlen mem <= length mem) by apply strlen_le.
  destruct (splitString_tokens mem 0 (strlen mem) (bs "/")) as (l & -> & Hl & Et); [lia|]; run.
  rewrite Nat.sub_0_r in Et; unfold mem in Et at 2 3; rewrite slice_c_str in Et.
  rewrite <- Et, fmap_last.
  destruct (last l) as [d|] eqn:El; simpl.
  - assert (l <> []) by (intros ->; discriminate El).
    destruct (Z.ltb_spec (Z.of_nat (length l) - 1) 0); [destruct l; [done|simpl in *; lia]|].
    rewrite (list_at_last _ _ El); run.
    apply (wf_desc_in mem) in Hl; [|done].
    assert (wf_desc mem d) as Hd
      by (rewrite Forall_forall in Hl; apply Hl; by apply last_Some_elem_of).
    destruct (split_desc_tokens mem d (bs "?") Hd) as (q & -> & Hq & Eq); run.
    rewrite <- Eq. destruct q as [|q0 q]; [done|]. apply Forall_cons in Hq as [Hq0 Hq]; simpl.
    rewrite copyString_wf by done; run. destruct q as [|q1 q]; [done|]; simpl.
    apply Forall_cons in Hq as [Hq1 _].
    destruct (split_desc_tokens mem q1 (bs "&") Hq1) as (p & -> & Hp & Ep); run.
    rewrite parseParams_spec by done; run. by rewrite Ep.
  - apply last_None in El as ->. done.
Qed.

(** *** When [parseUrl] throws *)

Lemma elem_of_question c : c ∈ bs "?" <-> c = "?"%char.
Proof. apply list_elem_of_singleton. Qed.

Lemma only_question_tokens seg :
  only_question_marks seg = true <-> tokens (bs "?") seg = [].
Proof.
  unfold only_question_marks. rewrite bool_decide_eq_true, tokens_nil_iff.
  split; intros H; eapply Forall_impl; try exact H; intros c; apply elem_of_question.
Qed.

Lemma url_spec_cases buff reqUrl :
  if url_throws buff then url_spec buff reqUrl = Throw ExOutOfRange
  else exists r u, url_spec buff reqUrl = Ok (r, u).
Proof.
  unfold url_throws, url_spec. destruct (last _) as [seg|]; [|eauto].
  destruct (only_question_marks seg) eqn:E.
  - by apply only_question_tokens in E as ->.
  - destruct (tokens (bs "?") seg) as [|c [|q l]] eqn:Et; [|eauto..].
    apply only_question_tokens in Et; congruence.
Qed.

(** ** [parseHttpMessage] *)

Lemma parseRequestLine_spec buffer lineStart lineEnd httpReq :
  lineStart <= lineEnd <= length buffer ->
  parseRequestLine buffer lineStart lineEnd httpReq
  = request_line_spec (slice lineStart (lineEnd - lineStart) buffer) httpReq.
Proof.
  intros Hr; unfold parseRequestLine, request_line_spec.
  destruct (splitString_tokens buffer lineStart lineEnd (bs " ") Hr) as (l & -> & Hl & <-); run.
  apply (wf_desc_in buffer) in Hl; [|lia].
  destruct Hl as [|d0 l H0 Hl]; [done|]; simpl. rewrite copyString_wf by done; run.
  destruct Hl as [|d1 l H1 Hl]; [done|]; simpl. rewrite copyString_wf by done; run.
  rewrite parseUrl_refines. destruct (url_spec _ _) as [[? u]| | |]; run; try done.
  destruct Hl as [|d2 l H2 Hl]; [done|]; simpl. by rewrite copyString_wf.
Qed.

Section Refinement.
Context (msg junk : bytes).

Definition block : bytes := msg ++ NUL :: junk.

Lemma block_lookup i c : msg !! i = Some c -> char_at block i = Ok c.
Proof. intros H; apply char_at_Ok, lookup_app_Some; auto. Qed.

Lemma block_end : char_at block (length msg) = Ok NUL.
Proof. apply char_at_Ok. unfold block. by rewrite list_lookup_middle. Qed.

Lemma block_slice i n : i + n <= length msg -> slice i n block = slice i n msg.
Proof. apply slice_app_l. Qed.

Lemma line_spec_block lineNo ls i req :
  ls <= i <= length msg ->
  (if (lineNo =? 0)%nat then parseRequestLine block ls i req
   else line ← mem_range block ls (i - ls); parseHeaderLine line req)
  = line_spec lineNo (slice ls (i - ls) msg) req.
Proof.
  intros Hi; assert (length msg <= length block) by (unfold block; rewrite length_app; lia).
  rewrite <- block_slice by lia. unfold line_spec; destruct (lineNo =? 0).
  - apply parseRequestLine_spec; lia.
  - by rewrite mem_range_Ok by lia.
Qed.

Definition rest_spec (i ls lineNo : nat) (req : HttpReq_t) : outcome (bool * HttpReq_t) :=
  let '(lines, body) := header_lines (drop i msg) (slice ls (i - ls) msg) in
  r ← lines_spec lineNo lines req;
  Ok (bool_decide (is_Some body), body_spec msg body r).

(** One iteration that does not complete a line. *)
Lemma rest_spec_char i ls lineNo req c :
  msg !! i = Some c -> ls <= i ->
  ~ (c = CR /\ msg !! (i + 1) = Some LF) ->
  rest_spec i ls lineNo req = rest_spec (i + 1) ls lineNo req.
Proof.
  intros Hc Hi Hn; unfold rest_spec. rewrite (drop_cons_lookup _ _ _ Hc).
  replace (S i) with (i + 1) by lia. replace (i + 1 - ls) with (S (i - ls)) by lia.
  rewrite (slice_snoc ls (i - ls) msg c) by (by replace (ls + (i - ls)) with i by lia).
  destruct (msg !! (i + 1)) as [c'|] eqn:Hc'.
  - rewrite (drop_cons_lookup _ _ _ Hc'). cbn [header_lines].
    rewrite decide_False by (intros [-> ->]; auto). done.
  - apply lookup_ge_None in Hc'. by rewrite drop_ge by done.
Qed.

Lemma rest_spec_crlf i ls lineNo req :
  msg !! i = Some CR -> msg !! (i + 1) = Some LF -> ls <= i ->
  rest_spec i ls lineNo req =
  if (0 <? i - ls)%nat then
    line_spec lineNo (slice ls (i - ls) msg) req ≫= rest_spec (i + 2) (i + 2) (lineNo + 1)
  else Ok (true, if (i + 2 <? length msg)%nat then set_data (Some (i + 2)) req else req).
Proof.
  intros Hc Hc' Hi; unfold rest_spec. rewrite (drop_cons_lookup _ _ _ Hc).
  replace (S i) with (i + 1) by lia. rewrite (drop_cons_lookup _ _ _ Hc').
  replace (S (i + 1)) with (i + 2) by lia. cbn [header_lines].
  rewrite decide_True by done. rewrite Nat.sub_diag, slice_0.
  apply lookup_lt_Some in Hc'.
  assert (length (slice ls (i - ls) msg) = i - ls) as Hl by (apply slice_length; lia).
  destruct (Nat.ltb_spec 0 (i - ls)).
  - rewrite decide_False by (intros E; rewrite E in Hl; simpl in Hl; lia).
    destruct (header_lines (drop (i + 2) msg) []) as [lines body]. cbn [lines_spec].
    by rewrite bind_assoc.
  - rewrite decide_True by (apply nil_length_inv; lia).
    simpl; run. do 2 f_equal. pose proof (length_drop msg (i + 2)).
    unfold body_spec; destruct (drop (i + 2) msg) as [|b l]; cbn [length] in *.
    + destruct (Nat.ltb_spec (i + 2) (length msg)); [lia|done].
    + destruct (Nat.ltb_spec (i + 2) (length msg)); [|lia]. do 2 f_equal. cbn [length]; lia.
Qed.

Lemma parse_loop_spec fuel i ls lineNo req :
  length msg - i <= fuel -> ls <= i ->  ls <= length msg ->
  parse_loop fuel block (length msg) i ls lineNo req = rest_spec i ls lineNo req.
Proof.
  revert i ls lineNo req; induction fuel as [|fuel IH]; intros i ls lineNo req Hf Hi Hl;
    cbn [parse_loop]; destruct (Nat.ltb_spec i (length msg)) as [Hlt|Hge]; try lia;
    try (unfold rest_spec; by rewrite drop_ge by done).
  destruct (lookup_lt_is_Some_2 msg i Hlt) as [c Hc]. rewrite (block_lookup _ _ Hc); run.
  destruct (decide (c = CR /\ msg !! (i + 1) = Some LF)) as [[-> Hc']|Hn].
  - rewrite decide_True, (block_lookup _ _ Hc'), (rest_spec_crlf _ _ _ _ Hc Hc' Hi) by done; run.
    rewrite bool_decide_true by done.
    destruct (0 <? i - ls)%nat; [|done]. rewrite line_spec_block by lia.
    apply lookup_lt_Some in Hc'.
    destruct (line_spec _ _ _); run; try done. apply IH; lia.
  - rewrite (rest_spec_char _ _ _ _ _ Hc Hi Hn), <- (IH (i + 1)) by lia.
    destruct (decide (c = CR)) as [->|]; run; [|done].
    destruct (msg !! (i + 1)) as [c'|] eqn:Hc'.
    + rewrite (block_lookup _ _ Hc'); run. rewrite bool_decide_false by (intros ->; auto); done.
    + apply lookup_ge_None in Hc'. replace (i + 1) with (length msg) by lia.
      by rewrite block_end.
Qed.
End Refinement.

Lemma parse_message_spec msg junk httpReq :
  parseHttpMessage (msg ++ NUL :: junk) (length msg) httpReq = message_spec msg httpReq.
Proof.
  unfold parseHttpMessage, message_spec.
  change (msg ++ NUL :: junk) with (block msg junk). rewrite parse_loop_spec by lia.
  unfold rest_spec. rewrite drop_0, Nat.sub_diag, slice_0. by destruct (header_lines msg []).
Qed.

(** ** Header lines *)

Lemma find_go_word w v i : SP ∉ w -> find_go (bs " ") (w ++ SP :: v) i = Some (i + length w).
Proof.
  revert i; induction w as [|c w IH]; intros i Hw; simpl.
  - by rewrite Nat.add_0_r.
  - assert (is_prefix (bs " ") (c :: w ++ SP :: v) = false) as ->.
    { apply bool_decide_false. intros [= ->]. set_solver. }
    rewrite IH by set_solver. f_equal; lia.
Qed.

Lemma find_space_lt line pos :
  str_find (bs " ") line 0 = pos -> pos <> npos -> (0 <= pos < size line)%Z.
Proof.
  unfold str_find. destruct (find_nat (bs " ") line (Z.to_nat 0)) as [k|] eqn:E; intros <- Hn; [|congruence].
  apply find_nat_lt in E as [_ E]. change (length (bs " ")) with 1 in E. unfold size; lia.
Qed.

Lemma parseHeaderLine_total line req : is_Ok (parseHeaderLine line req).
Proof.
  unfold parseHeaderLine. destruct (Z.eqb_spec (str_find (bs " ") line 0) npos) as [|Hn].
  - by eexists.
  - pose proof (find_space_lt line _ eq_refl Hn) as Hp.
    unfold substr_from. rewrite !substr_Ok by (unfold npos in *; lia). run. by eexists.
Qed.

(** The value of a field: what follows the first space. *)
Lemma parseHeaderLine_field name v req :
  SP ∉ name -> (Z.of_nat (length (name ++ SP :: v)) < npos)%Z ->
  parseHeaderLine (name ++ SP :: v) req
  = Ok (if decide (name = bs "Content-Length:") then set_dataSize (u32 (atoi v)) req
        else if decide (name = bs "Pragma:") then set_pragma (u32 (atoi v)) req
        else if decide (name = bs "Origin:") then set_origin v req
        else if decide (name = bs "Connection:") then
          set_keepAlive (bool_decide (v = bs "keep-alive")) req
        else req).
Proof.
  intros Hn Hl; unfold parseHeaderLine. rewrite length_app in Hl; simpl in Hl.
  assert (str_find (bs " ") (name ++ SP :: v) 0 = Z.of_nat (length name)) as ->.
  { unfold str_find, find_nat; simpl. rewrite drop_0, find_go_word by done. done. }
  destruct (Z.eqb_spec (Z.of_nat (length name)) npos); [lia|].
  assert (Z.of_nat (length (name ++ SP :: v)) = Z.of_nat (length name) + 1 + Z.of_nat (length v))%Z
    by (rewrite length_app; simpl; lia).
  rewrite substr_Ok, substr_from_Ok by (unfold size; lia). run.
  rewrite Nat2Z.id; simpl. rewrite drop_0, take_app_length.
  replace (Z.to_nat (Z.of_nat (length name) + 1)) with (S (length name)) by lia.
  assert (drop (S (length name)) (name ++ SP :: v) = v) as ->.
  { replace (S (length name)) with (length name + 1) by lia.
    by rewrite <- drop_drop, drop_app_length. }
  assert (atoi (c_str v) = atoi v) as ->.
  { unfold atoi. by rewrite cstr_c_str. }
  done.
Qed.

Lemma lines_spec_header_total n lines req : is_Ok (lines_spec (S n) lines req).
Proof.
  revert n req; induction lines as [|l lines IH]; intros n req; simpl; [by eexists|].
  unfold line_spec; simpl. destruct (parseHeaderLine_total l req) as [r ->]; run. apply IH.
Qed.

(** ** Safety of the parser *)

Lemma message_spec_cases msg req :
  if request_throws msg then message_spec msg req = Throw ExOutOfRange
  else is_Ok (message_spec msg req).
Proof.
  unfold request_throws, request_target, message_spec.
  destruct (header_lines msg []) as [[|line lines] body]; simpl; [by eexists|].
  unfold line_spec; simpl; unfold request_line_spec.
  destruct (tokens (bs " ") line !! 1) as [u|].
  - match goal with |- context [url_spec u ?r] => pose proof (url_spec_cases u r) as H end.
    destruct (url_throws u); [by rewrite H|]. destruct H as (? & ? & ->); run.
    match goal with |- context [lines_spec 1 ?l ?r] =>
      destruct (lines_spec_header_total 0 l r) as [? ->] end. by eexists.
  - run. match goal with |- context [lines_spec 1 ?l ?r] =>
      destruct (lines_spec_header_total 0 l r) as [? ->] end. by eexists.
Qed.

(** ** Which messages are complete *)

Lemma header_lines_nil_cur s :
  header_lines (CRLF ++ s) [] = ([], Some s).
Proof. reflexivity. Qed.

Lemma header_lines_crlf s cur :
  cur <> [] ->
  header_lines (CRLF ++ s) cur = (cur :: fst (header_lines s []), snd (header_lines s [])).
Proof.
  intros; simpl. rewrite decide_False by done. by destruct (header_lines s []).
Qed.

Lemma header_lines_char c s cur :
  (forall s', c :: s <> CRLF ++ s') -> header_lines (c :: s) cur = header_lines s (cur ++ [c]).
Proof.
  intros Hn; destruct s as [|c' s]; [done|]. cbn [header_lines].
  rewrite decide_False; [done|]. intros [-> ->]. by apply (Hn s).
Qed.

Lemma crlf_dec (s : bytes) : {s' | s = CRLF ++ s'} + {forall s', s <> CRLF ++ s'}.
Proof.
  destruct s as [|c [|c' s]]; [right; done..|].
  destruct (decide (c = CR)) as [->|]; [|right; simpl; congruence].
  destruct (decide (c' = LF)) as [->|]; [|right; simpl; congruence].
  left; by exists s.
Qed.

(** [header_lines] finds a blank line exactly where one is: at the start of a
    line, which is the start of the text or behind a CRLF. *)
Lemma header_lines_blank s cur :
  is_Some (snd (header_lines s cur)) <->
  (cur = [] /\ exists q, s = CRLF ++ q) \/ exists p q, s = p ++ CRLF ++ CRLF ++ q.
Proof.
  remember (length s) as n eqn:Hn. revert s cur Hn.
  induction (lt_wf n) as [n _ IH]; intros s cur ->.
  destruct (crlf_dec s) as [[s' ->]|Hs].
  - destruct (decide (cur = [])) as [->|Hc].
    + rewrite header_lines_nil_cur. split; [eauto|]; intros _; by eexists.
    + rewrite header_lines_crlf by done; simpl. rewrite (IH (length s')) by (unfold CRLF; simpl; try done; lia).
      split; (intros [[Hq (q & Hs)]|(p & q & Hs)]).
      * right; subst; by exists [], q.
      * right; subst; by exists (CRLF ++ p), q.
      * congruence.
      * destruct p as [|c [|c' p]]; simplify_eq/=; [left; eauto|right; eauto].
  - destruct s as [|c s].
    + split; [intros [? [=]]|]. intros [(_ & ? & ?)|(p & ? & Hp)]; [done|].
      by destruct p.
    + rewrite header_lines_char, (IH (length s)) by (simpl; try done; lia).
      split; (intros [[Hq (q & E)]|(p & q & E)]).
      * by apply app_nil in Hq as [_ ?].
      * right; subst; by exists (c :: p), q.
      * by destruct (Hs q).
      * right. destruct p as [|c' p]; simplify_eq/=; [by edestruct Hs|eauto].
Qed.

(** ** Reading back a printed request *)

Lemma header_lines_line l s cur :
  CR ∉ l -> cur ++ l <> [] ->
  header_lines (l ++ CRLF ++ s) cur = ((cur ++ l) :: fst (header_lines s []), snd (header_lines s [])).
Proof.
  revert cur; induction l as [|c l IH]; intros cur Hl Hn.
  - rewrite app_nil_r in *. change ([] ++ CRLF ++ s) with (CRLF ++ s). by rewrite header_lines_crlf.
  - cbn [app]. rewrite header_lines_char by (intros s' [= -> _]; set_solver).
    rewrite IH; [|set_solver|by destruct cur]. by rewrite <- app_assoc.
Qed.

(** Membership of literal characters. *)
Ltac chars :=
  unfold bs, word_without in *;
  cbn [list_ascii_of_string app] in *;
  try match goal with H : _ /\ _ |- _ => destruct H as [? H] end;
  set_solver.

Lemma word_without_sub f f' w : word_without f w -> f' ⊆ f -> word_without f' w.
Proof. intros [Hn Hw] Hs; split; [done|]. intros c Hc Hf. by apply (Hw c Hc), Hs. Qed.

Lemma url_spec_command command reqUrl :
  word_without (bs "/?" ++ [NUL]) command ->
  url_spec ("/"%char :: command) reqUrl = Ok (0%Z, HttpReqUrl command (param reqUrl)).
Proof.
  intros Hw; unfold url_spec.
  rewrite cstr_id by (apply not_elem_of_cons; split; [done|]; intros Hin;
                      apply (proj2 Hw) in Hin; apply Hin; chars).
  rewrite tokens_delim by chars.
  assert (word_without (bs "/") command) as [Hn H1] by (eapply word_without_sub; [done|]; chars).
  assert (word_without (bs "?") command) as [_ H2] by (eapply word_without_sub; [done|]; chars).
  by rewrite tokens_word, last_singleton, tokens_word by done.
Qed.

Lemma request_line_command meth command req :
  word_without (bs " ") meth -> word_without (bs " /?" ++ [NUL]) command ->
  request_line_spec (meth ++ bs " /" ++ command ++ bs " HTTP/1.1") req
  = Ok (set_version (bs "HTTP/1.1")
         (set_url (HttpReqUrl command (param (url req))) (set_type meth req))).
Proof.
  intros [Hm Hm'] Hc; unfold request_line_spec.
  change (meth ++ bs " /" ++ command ++ bs " HTTP/1.1")
    with (meth ++ SP :: ("/"%char :: command) ++ SP :: bs "HTTP/1.1").
  rewrite tokens_word_delim by (done || chars).
  assert (word_without (bs " ") command) as [_ H1] by (eapply word_without_sub; [done|]; chars).
  rewrite tokens_word_delim; [|chars|done|chars].
  simpl. by rewrite url_spec_command by (eapply word_without_sub; [done|]; chars).
Qed.

Lemma digits_no_cr s : all_digits s -> CR ∉ s.
Proof. unfold all_digits; rewrite Forall_forall; intros H Hin. by apply H in Hin. Qed.

Lemma header_lines_render meth command org alive prag body :
  word_without (bs " " ++ [CR]) meth -> word_without (bs " /?" ++ [NUL; CR]) command ->
  CR ∉ org -> (0 <= prag)%Z ->
  header_lines (render_request meth command org alive prag body) []
  = ([meth ++ bs " /" ++ command ++ bs " HTTP/1.1"; bs "Origin: " ++ org;
      bs "Connection: " ++ (if alive then bs "keep-alive" else bs "close");
      bs "Pragma: " ++ dec_unsigned prag;
      bs "Content-Length: " ++ dec_unsigned (Z.of_nat (length body))], Some body).
Proof.
  intros Hm Hc Ho Hp; unfold render_request.
  assert (CR ∉ dec_unsigned prag) by (by apply digits_no_cr, dec_unsigned_digits).
  assert (CR ∉ dec_unsigned (Z.of_nat (length body)))
    by (apply digits_no_cr, dec_unsigned_digits; lia).
  rewrite header_lines_line; [|rewrite !not_elem_of_app; split_and!; chars|by destruct meth; [destruct (proj1 Hm)|]].
  do 4 (rewrite header_lines_line; [|rewrite ?not_elem_of_app; split_and?; try destruct alive; chars|done]).
  done.
Qed.

Section Fields.
Context (v : bytes) (req : HttpReq_t) (Hv : (size v < npos - 16)%Z).

Ltac field n :=
  match goal with |- _ = ?r => change (parseHeaderLine (bs n ++ SP :: v) req = r) end;
  rewrite parseHeaderLine_field by (chars || (unfold size in *; rewrite length_app; simpl; lia)).

Lemma parse_origin : parseHeaderLine (bs "Origin: " ++ v) req = Ok (set_origin v req).
Proof. field "Origin:"%string. done. Qed.

Lemma parse_pragma :
  parseHeaderLine (bs "Pragma: " ++ v) req = Ok (set_pragma (u32 (atoi v)) req).
Proof. field "Pragma:"%string. done. Qed.

Lemma parse_connection :
  parseHeaderLine (bs "Connection: " ++ v) req
  = Ok (set_keepAlive (bool_decide (v = bs "keep-alive")) req).
Proof. field "Connection:"%string. done. Qed.

Lemma parse_content_length :
  parseHeaderLine (bs "Content-Length: " ++ v) req = Ok (set_dataSize (u32 (atoi v)) req).
Proof. field "Content-Length:"%string. done. Qed.
End Fields.

Lemma message_spec_render meth command org alive prag body :
  word_without (bs " " ++ [CR]) meth -> word_without (bs " /?" ++ [NUL; CR]) command ->
  CR ∉ org -> (0 <= prag <= INT_MAX)%Z -> (Z.of_nat (length body) <= INT_MAX)%Z ->
  (size (render_request meth command org alive prag body) < npos)%Z ->
  message_spec (render_request meth command org alive prag body) emptyReq
  = Ok (true, rendered_request meth command org alive prag body).
Proof.
  intros Hm Hc Ho Hp Hb Hs; unfold message_spec, rendered_request.
  rewrite header_lines_render by (done || lia). cbn [lines_spec Nat.add].
  change (line_spec 0) with request_line_spec.
  change (line_spec 1) with parseHeaderLine; change (line_spec 2) with parseHeaderLine;
    change (line_spec 3) with parseHeaderLine; change (line_spec 4) with parseHeaderLine.
  set (msg := render_request meth command org alive prag body) in *.
  assert (Hlen : (size org < npos - 16 /\ size (dec_unsigned prag) < npos - 16 /\
    size (dec_unsigned (Z.of_nat (length body))) < npos - 16)%Z).
  { unfold msg, render_request, size in *. rewrite !length_app in Hs; simpl in Hs; lia. }
  rewrite request_line_command by (eapply word_without_sub; [done|chars]); run.
  rewrite parse_origin by tauto; run.
  rewrite parse_connection by (by destruct alive); run.
  rewrite parse_pragma by tauto; run. rewrite parse_content_length by tauto; run.
  rewrite !atoi_dec, !u32_small by (unfold INT_MAX in *; lia).
  rewrite bool_decide_true by (by eexists).
  replace (bool_decide (_ = bs "keep-alive")) with alive by (by destruct alive).
  by destruct body.
Qed.

(** ** Properties *)

(** C24: [parseHttpMessage] on a buffer that holds [msg] and then the NUL the
    server writes is the line-by-line parser: it reads only [msg] and that NUL,
    whatever bytes an earlier request left behind, and its loop ends. *)
Theorem parseHttpMessage_refines msg junk httpReq :
  parseHttpMessage (msg ++ NUL :: junk) (length msg) httpReq = message_spec msg httpReq.
Proof. apply parse_message_spec. Qed.

(** C25: [parseHttpMessage] never reads out of bounds and always terminates; it
    throws [std::out_of_range] exactly when the request's URL ends in a segment
    of question marks, and otherwise returns. *)
Theorem parseHttpMessage_safe msg junk httpReq :
  (parseHttpMessage (msg ++ NUL :: junk) (length msg) httpReq = Throw ExOutOfRange <->
   request_throws msg = true) /\
  (request_throws msg = false ->
   is_Ok (parseHttpMessage (msg ++ NUL :: junk) (length msg) httpReq)).
Proof.
  rewrite parse_message_spec. pose proof (message_spec_cases msg httpReq) as H.
  destruct (request_throws msg); [by rewrite H|].
  destruct H as [r ->]. split; [done|]. by eexists.
Qed.

Example parseHttpMessage_safe_witness :
  (parseHttpMessage (bs "GET /? HTTP/1.1" ++ CRLF ++ NUL :: []) 17 emptyReq
   = Throw ExOutOfRange) /\
  is_Ok (parseHttpMessage (bs "GET /a?b HTTP/1.1" ++ CRLF ++ NUL :: []) 19 emptyReq).
Proof.
  split.
  - apply (proj1 (parseHttpMessage_safe (bs "GET /? HTTP/1.1" ++ CRLF) [] emptyReq)). reflexivity.
  - apply (proj2 (parseHttpMessage_safe (bs "GET /a?b HTTP/1.1" ++ CRLF) [] emptyReq)). reflexivity.
Defined.

(** When [parseHttpMessage] returns, it returns [true] exactly when the
    message has a blank line: a CRLF at its start or two in a row. *)
Theorem parseHttpMessage_accepts msg junk httpReq ok r :
  parseHttpMessage (msg ++ NUL :: junk) (length msg) httpReq = Ok (ok, r) ->
  ok = true <-> (exists q, msg = CRLF ++ q) \/ exists p q, msg = p ++ CRLF ++ CRLF ++ q.
Proof.
  rewrite parse_message_spec; unfold message_spec.
  pose proof (header_lines_blank msg []) as Hb.
  destruct (header_lines msg []) as [lines body]; cbn [snd] in Hb.
  intros H; inv_bind. rewrite bool_decide_eq_true, Hb. tauto.
Qed.

Example parseHttpMessage_accepts_witness :
  exists r, parseHttpMessage (bs "GET / HTTP/1.1" ++ CRLF ++ CRLF ++ NUL :: []) 18 emptyReq
            = Ok (true, r) /\
  (true = true <-> (exists q, bs "GET / HTTP/1.1" ++ CRLF ++ CRLF = CRLF ++ q) \/
     exists p q, bs "GET / HTTP/1.1" ++ CRLF ++ CRLF = p ++ CRLF ++ CRLF ++ q).
Proof.
  eexists; split; [vm_compute; reflexivity|].
  eapply (parseHttpMessage_accepts (bs "GET / HTTP/1.1" ++ CRLF ++ CRLF) [] emptyReq true).
  vm_compute; reflexivity.
Defined.

(** C26: a request the page's client prints (method, one-segment path, [Origin],
    [Connection], [Pragma], [Content-Length], body) is read back field by
    field, with [data] pointing at the body, for ids and sizes an [int] holds. *)
Theorem parse_render_roundtrip meth command org alive prag body junk :
  word_without (bs " " ++ [CR]) meth -> word_without (bs " /?" ++ [NUL; CR]) command ->
  CR ∉ org -> (0 <= prag <= INT_MAX)%Z -> (Z.of_nat (length body) <= INT_MAX)%Z ->
  (size (render_request meth command org alive prag body) < npos)%Z ->
  let msg := render_request meth command org alive prag body in
  parseHttpMessage (msg ++ NUL :: junk) (length msg) emptyReq
  = Ok (true, rendered_request meth command org alive prag body) /\
  drop (length msg - length body) msg = body.
Proof.
  intros Hm Hc Ho Hp Hb Hs msg; split.
  - rewrite parse_message_spec. by apply message_spec_render.
  - unfold msg, render_request. rewrite !app_assoc. apply drop_app_length'.
    rewrite !length_app; lia.
Qed.

Example parse_render_roundtrip_witness :
  let msg := render_request (bs "POST") (bs "message") (bs "https://h") true 7 (bs "SDP->{}") in
  parseHttpMessage (msg ++ NUL :: []) (length msg) emptyReq
  = Ok (true, rendered_request (bs "POST") (bs "message") (bs "https://h") true 7 (bs "SDP->{}")) /\
  drop (length msg - 7) msg = bs "SDP->{}".
Proof.
  apply (parse_render_roundtrip (bs "POST") (bs "message") (bs "https://h") true 7 (bs "SDP->{}") []).
  - split; [done|]. intros c Hc Hf. revert Hc Hf. unfold bs; simpl. set_solver.
  - split; [done|]. intros c Hc Hf. revert Hc Hf. unfold bs; simpl. set_solver.
  - unfold bs; simpl; set_solver.
  - unfold INT_MAX; lia.
  - vm_compute; discriminate.
  - vm_compute; reflexivity.
Defined.

(** [parseUrl] takes as command the last path segment up to its first [?]
    and as parameters the [key=value] parts behind it; it throws exactly on a
    last segment of question marks and never misbehaves otherwise. *)
Theorem parseUrl_correct buff reqUrl :
  parseUrl buff reqUrl = url_spec buff reqUrl /\
  (parseUrl buff reqUrl = Throw ExOutOfRange <-> url_throws buff = true) /\
  (is_Ok (parseUrl buff reqUrl) <-> url_throws buff = false).
Proof.
  rewrite parseUrl_refines. split; [done|]. pose proof (url_spec_cases buff reqUrl) as H.
  destruct (url_throws buff); unfold is_Ok.
  - rewrite H. split; [done|]. split; [by intros [? ?]|done].
  - destruct H as (r & u & ->). split; [done|]. split; [done|eauto].
Qed.

(** [splitString] on a range inside the block returns, in order, the
    maximal runs without delimiters: none is empty or has a delimiter, and
    together they are the range with the delimiters taken out. *)
Theorem splitString_correct str start_ end_ ptrn :
  start_ <= end_ <= length str ->
  exists list, splitString str start_ end_ ptrn = Ok list /\
    Forall (desc_in start_ end_) list /\
    desc_text str <$> list = tokens ptrn (slice start_ (end_ - start_) str) /\
    Forall (word_without ptrn) (desc_text str <$> list) /\
    concat (desc_text str <$> list)
    = filter (fun c => c ∉ ptrn) (slice start_ (end_ - start_) str).
Proof.
  intros Hr. destruct (splitString_tokens str start_ end_ ptrn Hr) as (l & E & Hl & Et).
  exists l; rewrite Et. split_and!; [done..| |apply (tokens_go_concat ptrn _ [])].
  apply Forall_and; split; [apply tokens_go_nonempty|].
  apply tokens_go_no_delim. intros c Hc; by apply not_elem_of_nil in Hc.
Qed.

Example splitString_correct_witness :
  exists list, splitString (bs "/a//bc/") 0 7 (bs "/") = Ok list /\
    desc_text (bs "/a//bc/") <$> list = [bs "a"; bs "bc"].
Proof.
  destruct (splitString_correct (bs "/a//bc/") 0 7 (bs "/")) as (l & E & _ & Et & _).
  - simpl; lia.
  - exists l; split; [exact E|]. rewrite Et. reflexivity.
Defined.
