(* ===== verification/Getopt.v ===== *)
(** * Command-line options (getopt.cpp, getopt.h)

    The argument vector is a list of pointers into a fixed store of strings,
    because [permute_args] moves the pointers and [place] and [optarg] point
    into the strings.  The globals and statics of getopt.cpp are the fields of
    [GState]; diagnostics on [stderr] are not part of it. *)
From Stdlib Require Import ZArith Ascii String Lia.
From stdpp Require Import base tactics list gmap.
From S2P Require Import Prelude CLib.

#[local] Open Scope Z_scope.

(** ** Arrays indexed by an [int] *)

Definition zget {A} (l : list A) (i : Z) : outcome A :=
  if i <? 0 then UB OutOfBounds
  else match l !! Z.to_nat i with Some a => Ok a | None => UB OutOfBounds end.

Definition zset {A} (l : list A) (i : Z) (a : A) : outcome (list A) :=
  if (i <? 0) || (Z.of_nat (length l) <=? i) then UB OutOfBounds
  else Ok (<[Z.to_nat i := a]> l).

(** ** [gcd] and [permute_args] *)

Fixpoint gcd_loop (fuel : nat) (a b c : Z) : outcome Z :=
  if c =? 0 then Ok b
  else match fuel with
       | O => NoFuel
       | S fuel => let a := b in let b := c in gcd_loop fuel a b (Z.rem a b)
       end.

(** [a % b] is undefined for [b = 0]; [c] decreases from below [|b|]. *)
Definition gcd (a b : Z) : outcome Z :=
  if b =? 0 then UB DivByZero else gcd_loop (Z.to_nat (Z.abs b)) a b (Z.rem a b).

Definition permute_pos (panonopt_end nnonopts nopts pos : Z) : Z :=
  if panonopt_end <=? pos then pos - nnonopts else pos + nopts.

Section Permute.
Context {A : Type} (panonopt_end nnonopts nopts : Z).

(** The inner loop; [j] counts its iterations. *)
Fixpoint permute_cycle (j : nat) (cstart pos : Z) (nargv : list A) : outcome (list A) :=
  match j with
  | O => Ok nargv
  | S j =>
      let pos := permute_pos panonopt_end nnonopts nopts pos in
      swap ← zget nargv pos;
      x ← zget nargv cstart;
      nargv ← zset nargv pos x;
      nargv ← zset nargv cstart swap;
      permute_cycle j cstart pos nargv
  end.

(** The outer loop, from [i]; [n] cycles are left. *)
Fixpoint permute_cycles (n : nat) (i cyclelen : Z) (nargv : list A) : outcome (list A) :=
  match n with
  | O => Ok nargv
  | S n =>
      let cstart := panonopt_end + i in
      nargv ← permute_cycle (Z.to_nat cyclelen) cstart cstart nargv;
      permute_cycles n (i + 1) cyclelen nargv
  end.
End Permute.

Definition permute_args {A} (panonopt_start panonopt_end opt_end : Z) (nargv : list A)
  : outcome (list A) :=
  let nnonopts := panonopt_end - panonopt_start in
  let nopts := opt_end - panonopt_end in
  ncycle ← gcd nnonopts nopts;
  if ncycle =? 0 then UB DivByZero
  else
    let cyclelen := Z.quot (opt_end - panonopt_start) ncycle in
    permute_cycles panonopt_end nnonopts nopts (Z.to_nat ncycle) 0 cyclelen nargv.

(** ** State *)

(** A character of the [p_str]-th argument string. *)
Record ptr := Ptr { p_str : nat; p_off : nat }.

#[export] Instance ptr_eq_dec : EqDecision ptr.
Proof. solve_decision. Defined.

Record LongOption := MkLongOption {
  lo_name : bytes;
  lo_has_arg : Z;
  lo_flag : option nat;
  lo_val : Z
}.

Definition no_argument : Z := 0.
Definition required_argument : Z := 1.
Definition optional_argument : Z := 2.

Definition FLAG_PERMUTE : Z := 1.
Definition FLAG_ALLARGS : Z := 2.
Definition FLAG_LONGONLY : Z := 4.

(** [place] is [None] when it points to [EMSG]; [nargv] and [optarg] hold
    pointers to strings, [None] being [NULL]. *)
Record GState := MkGState {
  nargv : list ptr;
  optind : Z;
  optopt : Z;
  optreset : Z;
  optarg : option ptr;
  place : option ptr;
  nonopt_start : Z;
  nonopt_end : Z;
  posixly_correct : Z;
  idx : Z;
  flag_vars : gmap nat Z
}.

Definition set_nargv v s := MkGState v (optind s) (optopt s) (optreset s) (optarg s) (place s)
  (nonopt_start s) (nonopt_end s) (posixly_correct s) (idx s) (flag_vars s).
Definition set_optind v s := MkGState (nargv s) v (optopt s) (optreset s) (optarg s) (place s)
  (nonopt_start s) (nonopt_end s) (posixly_correct s) (idx s) (flag_vars s).
Definition set_optopt v s := MkGState (nargv s) (optind s) v (optreset s) (optarg s) (place s)
  (nonopt_start s) (nonopt_end s) (posixly_correct s) (idx s) (flag_vars s).
Definition set_optreset v s := MkGState (nargv s) (optind s) (optopt s) v (optarg s) (place s)
  (nonopt_start s) (nonopt_end s) (posixly_correct s) (idx s) (flag_vars s).
Definition set_optarg v s := MkGState (nargv s) (optind s) (optopt s) (optreset s) v (place s)
  (nonopt_start s) (nonopt_end s) (posixly_correct s) (idx s) (flag_vars s).
Definition set_place v s := MkGState (nargv s) (optind s) (optopt s) (optreset s) (optarg s) v
  (nonopt_start s) (nonopt_end s) (posixly_correct s) (idx s) (flag_vars s).
Definition set_nonopt v w s := MkGState (nargv s) (optind s) (optopt s) (optreset s) (optarg s)
  (place s) v w (posixly_correct s) (idx s) (flag_vars s).
Definition set_posixly v s := MkGState (nargv s) (optind s) (optopt s) (optreset s) (optarg s)
  (place s) (nonopt_start s) (nonopt_end s) v (idx s) (flag_vars s).
Definition set_idx v s := MkGState (nargv s) (optind s) (optopt s) (optreset s) (optarg s)
  (place s) (nonopt_start s) (nonopt_end s) (posixly_correct s) v (flag_vars s).
Definition set_flag_var i v s := MkGState (nargv s) (optind s) (optopt s) (optreset s) (optarg s)
  (place s) (nonopt_start s) (nonopt_end s) (posixly_correct s) (idx s) (<[i := v]> (flag_vars s)).

(** The globals at program start, for [argc] arguments. *)
Definition initial_GState (argc : nat) : GState :=
  MkGState ((fun i => Ptr i 0) <$> seq 0 argc) 1 63 0 None None (-1) (-1) (-1) 0 ∅.

(** ** Character access *)

(** [char] is signed. *)
Definition schar (c : ascii) : Z := if code c <? 128 then code c else code c - 256.

(** [strchr(s, c)], as an index; the terminating NUL counts. *)
Fixpoint strchr_go (s : bytes) (c : ascii) (i : nat) : option nat :=
  match s with
  | [] => if decide (c = NUL) then Some i else None
  | d :: s => if decide (d = c) then Some i else strchr_go s c (S i)
  end.

Definition strchr (s : bytes) (c : ascii) : option nat := strchr_go (cstr s) c 0.

(** [*options]: the first character of a C string. *)
Definition first_char (s : bytes) : ascii := match cstr s with c :: _ => c | [] => NUL end.

Definition BADCH : Z := 63.
Definition BADARG (options : bytes) : Z := if decide (first_char options = ":"%char) then 58 else 63.
Definition INORDER : Z := 1.

Section Getopt.
(** The strings of [argv], [argc], whether [POSIXLY_CORRECT] is set, and
    whether the caller passed a non-null [idx]. *)
Context (strs : list bytes) (nargc : Z) (posixly_env : bool) (idx_given : bool).

(** [place[k]]; [EMSG] is the empty string. *)
Definition peek (p : option ptr) (k : nat) : outcome ascii :=
  match p with
  | None => char_at [NUL] k
  | Some p => match strs !! p_str p with
              | Some s => char_at (c_str s) (p_off p + k)
              | None => UB OutOfBounds
              end
  end.

Definition advance (p : option ptr) (k : nat) : option ptr :=
  match p with Some p => Some (Ptr (p_str p) (p_off p + k)) | None => None end.

(** The C string at a pointer. *)
Definition string_at (p : option ptr) : outcome bytes :=
  match p with
  | None => Ok []
  | Some p => match strs !! p_str p with
              | Some s => if (p_off p <=? length s)%nat then Ok (cstr (drop (p_off p) s))
                          else UB OutOfBounds
              | None => UB OutOfBounds
              end
  end.

(** [nargv[i]]; [argv[argc]] is [NULL]. *)
Definition argv_at (s : GState) (i : Z) : outcome (option ptr) :=
  if i =? Z.of_nat (length (nargv s)) then Ok None
  else p ← zget (nargv s) i; Ok (Some p).

(** *** [parse_long_options] *)

Definition identical_interpretation (x y : LongOption) : bool :=
  (lo_has_arg x =? lo_has_arg y) && bool_decide (lo_flag x = lo_flag y)
  && (lo_val x =? lo_val y).

(** The matching loop: [match_] and [ambiguous] so far, [opts] still to try
    from index [i]. *)
Fixpoint match_long (all opts : list LongOption) (cur : bytes) (len : nat) (short_too : bool)
    (i match_ : Z) (ambiguous : bool) : Z * bool :=
  match opts with
  | [] => (match_, ambiguous)
  | o :: opts =>
      if negb (bool_decide (take len (cstr (lo_name o)) = take len cur)) then
        match_long all opts cur len short_too (i + 1) match_ ambiguous
      else if (strlen (lo_name o) =? len)%nat then (i, false)
      else if short_too && (len =? 1)%nat then
        match_long all opts cur len short_too (i + 1) match_ ambiguous
      else if match_ =? -1 then match_long all opts cur len short_too (i + 1) i ambiguous
      else
        let same := match all !! Z.to_nat match_ with
                    | Some m => identical_interpretation o m | None => false end in
        match_long all opts cur len short_too (i + 1) match_ (ambiguous || negb same)
  end.

(** [optopt] for an argument error of option [o]. *)
Definition optopt_of (o : LongOption) : Z :=
  match lo_flag o with None => lo_val o | Some _ => 0 end.

Definition parse_long_options (options : bytes) (long_options : list LongOption)
    (short_too : bool) (s : GState) : outcome (Z * GState) :=
  let current_argv := place s in
  let s := set_optind (optind s + 1) s in
  cur ← string_at current_argv;
  let eq := find_nat (bs "=") cur 0 in
  let has_equal := (fun n => advance current_argv (n + 1)) <$> eq in
  let current_argv_len := default (length cur) eq in
  let '(match_, ambiguous) :=
    match_long long_options long_options cur current_argv_len short_too 0 (-1) false in
  if (ambiguous : bool) then Ok (BADCH, set_optopt 0 s)
  else if negb (match_ =? -1) then
    o ← zget long_options match_;
    if (lo_has_arg o =? no_argument) && bool_decide (is_Some has_equal) then
      Ok (BADARG options, set_optopt (optopt_of o) s)
    else
      s ← (if (lo_has_arg o =? required_argument) || (lo_has_arg o =? optional_argument) then
             match has_equal with
             | Some p => Ok (set_optarg p s)
             | None =>
                 if lo_has_arg o =? required_argument then
                   p ← argv_at s (optind s);
                   Ok (set_optind (optind s + 1) (set_optarg p s))
                 else Ok s
             end
           else Ok s);
      if (lo_has_arg o =? required_argument) && bool_decide (optarg s = None) then
        Ok (BADARG options, set_optind (optind s - 1) (set_optopt (optopt_of o) s))
      else
        let s := if idx_given then set_idx match_ s else s in
        match lo_flag o with
        | Some f => Ok (0, set_flag_var f (lo_val o) s)
        | None => Ok (lo_val o, s)
        end
  else if short_too then Ok (-1, set_optind (optind s - 1) s)
  else Ok (BADCH, set_optopt 0 s).

(** *** [getopt_internal] *)

(** Moves the non-options skipped so far behind the options scanned. *)
Definition permute_skipped (s : GState) : outcome GState :=
  if negb (nonopt_end s =? -1) then
    v ← permute_args (nonopt_start s) (nonopt_end s) (optind s) (nargv s);
    Ok (set_optind (optind s - (nonopt_end s - nonopt_start s)) (set_nargv v s))
  else Ok s.

(** The block behind the label [start]. [Some r]: the function returns [r];
    [None]: an option character is at [place]. *)
Fixpoint scan_start (fuel : nat) (options : bytes) (flags : Z) (s : GState)
  : outcome (option Z * GState) :=
  c ← peek (place s) 0;
  if negb (optreset s =? 0) || bool_decide (c = NUL) then
    let s := set_optreset 0 s in
    if nargc <=? optind s then
      let s := set_place None s in
      s ← (if negb (nonopt_end s =? -1) then permute_skipped s
           else if negb (nonopt_start s =? -1) then Ok (set_optind (nonopt_start s) s)
           else Ok s);
      Ok (Some (-1), set_nonopt (-1) (-1) s)
    else
      p ← argv_at s (optind s);
      p ← match p with Some p => Ok (Some p) | None => UB NullPointer end;
      let s := set_place p s in
      c0 ← peek p 0;
      nonoption ← (if decide (c0 = "-"%char) then
                     c1 ← peek p 1;
                     Ok (bool_decide (c1 = NUL)
                         && bool_decide (strchr options "-"%char = None))
                   else Ok true);
      if (nonoption : bool) then
        let s := set_place None s in
        if negb (Z.land flags FLAG_ALLARGS =? 0) then
          p ← argv_at s (optind s);
          Ok (Some INORDER, set_optind (optind s + 1) (set_optarg p s))
        else if Z.land flags FLAG_PERMUTE =? 0 then Ok (Some (-1), s)
        else
          s ← (if nonopt_start s =? -1 then Ok (set_nonopt (optind s) (nonopt_end s) s)
               else if negb (nonopt_end s =? -1) then
                 v ← permute_args (nonopt_start s) (nonopt_end s) (optind s) (nargv s);
                 Ok (set_nonopt (optind s - (nonopt_end s - nonopt_start s)) (-1)
                       (set_nargv v s))
               else Ok s);
          let s := set_optind (optind s + 1) s in
          match fuel with
          | O => NoFuel
          | S fuel => scan_start fuel options flags s
          end
      else
        let s := if negb (nonopt_start s =? -1) && (nonopt_end s =? -1)
                 then set_nonopt (nonopt_start s) (optind s) s else s in
        c1 ← peek (place s) 1;
        if decide (c1 = NUL) then Ok (None, s)
        else
          let s := set_place (advance (place s) 1) s in
          dashdash ← (if decide (c1 = "-"%char) then
                        c2 ← peek (place s) 1; Ok (bool_decide (c2 = NUL))
                      else Ok false);
          if (dashdash : bool) then
            let s := set_place None (set_optind (optind s + 1) s) in
            s ← permute_skipped s;
            Ok (Some (-1), set_nonopt (-1) (-1) s)
          else Ok (None, s)
  else Ok (None, s).

(** The argument, if any, of the option [optchar], whose letter is at [oli]
    of [options] with [o1] behind it; [next] is the character at [place]. *)
Definition short_argument (options : bytes) (o1 : ascii) (oli : nat) (next : ascii)
    (optchar : Z) (s : GState) : outcome (Z * GState) :=
  if decide (o1 <> ":"%char) then
    Ok (optchar, if decide (next = NUL) then set_optind (optind s + 1) s else s)
  else
    let s := set_optarg None s in
    o2 ← char_at (c_str options) (oli + 2);
    if decide (next <> NUL) then
      Ok (optchar, set_optind (optind s + 1) (set_place None (set_optarg (place s) s)))
    else if decide (o2 <> ":"%char) then
      let s := set_optind (optind s + 1) s in
      if nargc <=? optind s then Ok (BADARG options, set_optopt optchar (set_place None s))
      else
        p ← argv_at s (optind s);
        Ok (optchar, set_optind (optind s + 1) (set_place None (set_optarg p s)))
    else Ok (optchar, set_optind (optind s + 1) (set_place None s)).

(** The option character at [place] (the end of [getopt_internal]). *)
Definition short_option (options : bytes) (long_options : option (list LongOption))
    (s : GState) : outcome (Z * GState) :=
  c ← peek (place s) 0;
  let s := set_place (advance (place s) 1) s in
  next ← peek (place s) 0;
  let optchar := schar c in
  let oli := strchr options c in
  match (if decide (c = ":"%char) then None
         else if decide (c = "-"%char /\ next <> NUL) then None else oli) with
  | None =>
      if decide (c = "-"%char /\ next = NUL) then Ok (-1, s)
      else
        let s := if decide (next = NUL) then set_optind (optind s + 1) s else s in
        Ok (BADCH, set_optopt optchar s)
  | Some oli =>
      o1 ← char_at (c_str options) (oli + 1);
      match long_options with
      | Some lo =>
          if decide (c = "W"%char /\ o1 = ";"%char) then
            s ← (if decide (next <> NUL) then Ok (inl s)
                 else
                   let s := set_optind (optind s + 1) s in
                   if nargc <=? optind s then
                     Ok (inr (BADARG options, set_optopt optchar (set_place None s)))
                   else
                     p ← argv_at s (optind s);
                     match p with
                     | Some p => Ok (inl (set_place (Some p) s))
                     | None => UB NullPointer
                     end);
            match s with
            | inr r => Ok r
            | inl s =>
                '(r, s) ← parse_long_options options lo false s;
                Ok (r, set_place None s)
            end
          else short_argument options o1 oli next optchar s
      | None => short_argument options o1 oli next optchar s
      end
  end.

(** The check for a long option in front of [short_option]. *)
Definition long_option (options : bytes) (long_options : option (list LongOption)) (flags : Z)
    (s : GState) : outcome (option Z * GState) :=
  match long_options with
  | None => Ok (None, s)
  | Some lo =>
      cur ← argv_at s (optind s);
      c ← peek (place s) 0;
      if decide (place s <> cur) then
        if bool_decide (c = "-"%char) || negb (Z.land flags FLAG_LONGONLY =? 0) then
          let '(s, short_too) :=
            if decide (c = "-"%char) then (set_place (advance (place s) 1) s, false)
            else (s, bool_decide (c <> ":"%char) && bool_decide (is_Some (strchr options c))) in
          '(r, s) ← parse_long_options options lo short_too s;
          if negb (r =? -1) then Ok (Some r, set_place None s) else Ok (None, s)
        else Ok (None, s)
      else Ok (None, s)
  end.

(** The part of [getopt_internal] in front of [start]: the flags and the
    options string it scans with, and the state. *)
Definition getopt_setup (options : bytes) (flags : Z) (s : GState) : bytes * Z * GState :=
  let s := if optind s =? 0 then set_optind 1 (set_optreset 1 s) else s in
  let s := if (posixly_correct s =? -1) || negb (optreset s =? 0)
           then set_posixly (if posixly_env then 1 else 0) s else s in
  let c := first_char options in
  let flags :=
    if decide (c = "-"%char) then Z.lor flags FLAG_ALLARGS
    else if negb (posixly_correct s =? 0) || bool_decide (c = "+"%char)
         then Z.land flags (Z.lnot FLAG_PERMUTE) else flags in
  let options := if decide (c = "+"%char \/ c = "-"%char) then drop 1 options else options in
  let s := set_optarg None s in
  let s := if negb (optreset s =? 0) then set_nonopt (-1) (-1) s else s in
  (options, flags, s).

Definition getopt_internal (options : option bytes) (long_options : option (list LongOption))
    (flags : Z) (s : GState) : outcome (Z * GState) :=
  match options with
  | None => Ok (-1, s)
  | Some options =>
      let '(options, flags, s) := getopt_setup options flags s in
      '(r, s) ← scan_start (Z.to_nat nargc) options flags s;
      match r with
      | Some r => Ok (r, s)
      | None =>
          '(r, s) ← long_option options long_options flags s;
          match r with
          | Some r => Ok (r, s)
          | None => short_option options long_options s
          end
      end
  end.
End Getopt.

Definition getopt strs nargc posixly_env (options : bytes) (s : GState) : outcome (Z * GState) :=
  getopt_internal strs nargc posixly_env false (Some options) None 0 s.

Definition getopt_long strs nargc posixly_env (options : bytes) (long_options : list LongOption)
    (idx_given : bool) (s : GState) : outcome (Z * GState) :=
  getopt_internal strs nargc posixly_env idx_given (Some options) (Some long_options)
    FLAG_PERMUTE s.

Definition getopt_long_only strs nargc posixly_env (options : bytes)
    (long_options : list LongOption) (idx_given : bool) (s : GState) : outcome (Z * GState) :=
  getopt_internal strs nargc posixly_env idx_given (Some options) (Some long_options)
    (Z.lor FLAG_PERMUTE FLAG_LONGONLY) s.

(** ** Specification of [permute_args]

    The block of [n2] elements behind [n1] elements from [i] moves before them. *)
Definition exchange_blocks {A} (i n1 n2 : nat) (l : list A) : list A :=
  take i l ++ slice (i + n1) n2 l ++ slice i n1 l ++ drop (i + n1 + n2) l.
