(* ===== verification/GetoptProofs.v ===== *)
(** * Command-line options: lemmas and properties

    [gcd] is the greatest common divisor, the cycle-leader loop of
    [permute_args] exchanges two adjacent blocks, and [getopt] reads back the
    option-argument pairs of a command line. *)
From Stdlib Require Import ZArith Znumtheory Ascii String Lia.
From stdpp Require Import base tactics list gmap.
From S2P Require Import Prelude CLib Getopt.

#[local] Open Scope Z_scope.

(** ** [gcd] *)

Lemma gcd_loop_spec fuel a b :
  0 <= a -> 0 < b <= Z.of_nat fuel -> gcd_loop fuel a b (Z.rem a b) = Ok (Z.gcd a b).
Proof.
  revert a b; induction fuel as [|fuel IH]; intros a b Ha Hb; [lia|].
  rewrite Z.rem_mod_nonneg by lia. cbn [gcd_loop].
  pose proof (Z.mod_pos_bound a b ltac:(lia)).
  rewrite Z.gcd_comm, <- Z.gcd_mod, Z.gcd_comm by lia.
  destruct (Z.eqb_spec (a mod b) 0) as [->|Hn].
  - by rewrite Z.gcd_0_r, Z.abs_eq by lia.
  - apply IH; lia.
Qed.

Lemma gcd_spec a b : 0 <= a -> 0 < b -> gcd a b = Ok (Z.gcd a b).
Proof.
  intros Ha Hb; unfold gcd. destruct (Z.eqb_spec b 0); [lia|].
  apply gcd_loop_spec; lia.
Qed.

(** ** The cycles of a rotation *)

Section Rotation.
Context (g m' k' : Z).
Context (Hg : 0 < g) (Hm : 0 < m') (Hk : 0 < k') (Hco : Z.gcd m' k' = 1).

Let m := g * m'.
Let k := g * k'.
Let L := m' + k'.
Let N := m + k.

Lemma rot_N : N = g * L.
Proof. unfold N, L, m, k; lia. Qed.

Lemma rot_pos : 0 < m /\ 0 < k /\ 0 < L /\ 0 < N.
Proof. unfold N, L, m, k; nia. Qed.

(** The [t]-th position of the [i]-th cycle, from the start of the blocks. *)
Definition cyc (i t : Z) : Z := (m + i + t * k) mod N.

Lemma cyc_range i t : 0 <= cyc i t < N.
Proof. apply Z.mod_pos_bound, rot_pos. Qed.

Lemma cyc_succ i t : cyc i (t + 1) = (cyc i t + k) mod N.
Proof.
  unfold cyc. rewrite Z.add_mod_idemp_l by (pose proof rot_pos; lia). f_equal; lia.
Qed.

Lemma cyc_0 i : 0 <= i < g -> cyc i 0 = m + i.
Proof. intros; unfold cyc. rewrite Z.mul_0_l, Z.add_0_r. apply Z.mod_small. unfold N, m, k; nia. Qed.

Lemma cyc_period i : 0 <= i < g -> cyc i L = m + i.
Proof.
  intros Hi; rewrite <- (cyc_0 i Hi). unfold cyc.
  replace (m + i + L * k) with (m + i + 0 * k + k' * N) by (rewrite rot_N; unfold k; lia).
  rewrite Z.mod_add by (pose proof rot_pos; lia). done.
Qed.

Lemma mod_N_g a : (a mod N) mod g = a mod g.
Proof. apply Z.mod_mod_divide. exists L. rewrite rot_N; lia. Qed.

Lemma mod_add_k_g a : ((a + k) mod N) mod g = a mod g.
Proof.
  rewrite mod_N_g. unfold k. rewrite (Z.mul_comm g). apply Z.mod_add; lia.
Qed.

(** The cycles are the residues modulo [g]. *)
Lemma cyc_residue i t : 0 <= i < g -> cyc i t mod g = i.
Proof.
  intros Hi; unfold cyc; rewrite mod_N_g.
  replace (m + i + t * k) with (i + (m' + t * k') * g) by (unfold m, k; lia).
  rewrite Z.mod_add, Z.mod_small by lia; done.
Qed.

Lemma gcd_L : Z.gcd L k' = 1.
Proof.
  unfold L. rewrite Z.gcd_comm, <- Hco, (Z.gcd_comm m').
  rewrite <- (Z.gcd_add_mult_diag_r k' m' 1). f_equal; lia.
Qed.

Lemma cyc_inj i t t' : 0 <= t < L -> 0 <= t' < L -> cyc i t = cyc i t' -> t = t'.
Proof.
  intros Ht Ht' E. assert (Hd : (N | (t - t') * k)).
  { apply Z.mod_divide; [pose proof rot_pos; lia|]. unfold cyc in E.
    replace ((t - t') * k) with ((m + i + t * k) - (m + i + t' * k)) by lia.
    rewrite Zminus_mod, E, Z.sub_diag. apply Z.mod_0_l. pose proof rot_pos; lia. }
  assert (Hd' : (L | k' * (t - t'))).
  { destruct Hd as [q Hq]. exists q. rewrite rot_N in Hq. unfold k in Hq.
    apply (Z.mul_reg_l _ _ g); lia. }
  apply Z.gauss in Hd'; [|exact gcd_L].
  destruct Hd' as [q Hq]. destruct (Z.eq_dec q 0); [lia|]. nia.
Qed.

Lemma cyc_surj i r :
  0 <= i < g -> 0 <= r < N -> r mod g = i -> exists t, 0 <= t < L /\ cyc i t = r.
Proof.
  intros Hi Hr Hmod. pose proof rot_pos as (? & ? & ? & ?).
  destruct (Z.gcd_bezout k' L 1) as (u & v & Huv); [rewrite Z.gcd_comm; apply gcd_L|].
  set (w := (r - i) / g - m').
  assert (Hw : r = i + (w + m') * g) by (unfold w; pose proof (Z.div_mod r g); 
    replace (r - i) with (r / g * g) by lia; rewrite Z.div_mul; lia).
  exists ((w * u) mod L). split; [apply Z.mod_pos_bound; lia|]. unfold cyc.
  rewrite (Z.mod_eq (w * u)) by lia.
  replace (m + i + (w * u - L * (w * u / L)) * k)
    with (r + (- (w * v) - (w * u / L) * k') * N).
  - rewrite Z.mod_add by lia. apply Z.mod_small; lia.
  - rewrite rot_N, Hw. unfold m, k.
    replace (w * g) with (w * g * (u * k' + v * L)) at 1 by (rewrite Huv; lia).
    nia.
Qed.
End Rotation.

(** ** Chains of swaps *)

Definition swap_at {A} (c : nat) (l : list A) (p : nat) : list A :=
  match l !! p, l !! c with
  | Some x, Some y => <[c := x]> (<[p := y]> l)
  | _, _ => l
  end.

Lemma swap_at_length {A} c (l : list A) p : length (swap_at c l p) = length l.
Proof. unfold swap_at; repeat case_match; by rewrite ?length_insert. Qed.

Lemma swaps_length {A} c (l : list A) ps : length (foldl (swap_at c) l ps) = length l.
Proof. revert l; induction ps as [|p ps IH]; intros l; simpl; [done|]. by rewrite IH, swap_at_length. Qed.

Lemma swap_at_lookup {A} c (l : list A) p q :
  (p < length l)%nat -> (c < length l)%nat ->
  swap_at c l p !! q = if decide (q = c) then l !! p else if decide (q = p) then l !! c else l !! q.
Proof.
  intros Hp Hc; unfold swap_at.
  destruct (lookup_lt_is_Some_2 l p Hp) as [x Hx], (lookup_lt_is_Some_2 l c Hc) as [y Hy].
  rewrite Hx, Hy. destruct (decide (q = c)) as [->|].
  - rewrite list_lookup_insert_eq by (by rewrite length_insert). done.
  - rewrite list_lookup_insert_ne by done. destruct (decide (q = p)) as [->|].
    + by rewrite list_lookup_insert_eq.
    + by rewrite list_lookup_insert_ne.
Qed.

(** Swapping [c] with [p1], then [p2], ... shifts the values one position
    along [c, p1, p2, ...] and leaves the last one at [c]. *)
Lemma swaps_shift {A} c (l : list A) ps :
  NoDup (c :: ps) -> (c < length l)%nat -> Forall (fun p => p < length l)%nat ps ->
  (forall t p q, (c :: ps) !! t = Some p -> ps !! t = Some q ->
     foldl (swap_at c) l ps !! q = l !! p) /\
  (forall p, last (c :: ps) = Some p -> foldl (swap_at c) l ps !! c = l !! p) /\
  (forall q, q ∉ c :: ps -> foldl (swap_at c) l ps !! q = l !! q).
Proof.
  revert l; induction ps as [|p1 ps IH]; intros l Hnd Hc Hps.
  - split_and!; simpl; [done|intros p [= <-]; done|done].
  - apply NoDup_cons in Hnd as [Hc1 Hnd]. apply NoDup_cons in Hnd as [Hp1 Hnd].
    apply Forall_cons in Hps as [Hlp Hps]. apply not_elem_of_cons in Hc1 as [Hcp Hc1].
    destruct (IH (swap_at c l p1)) as (I1 & I2 & I3);
      [by apply NoDup_cons|by rewrite swap_at_length|by rewrite swap_at_length|].
    cbn [foldl]. split_and!.
    + intros [|[|t]] p q Hp Hq; simplify_eq/=.
      * rewrite I3 by (apply not_elem_of_cons; auto). rewrite swap_at_lookup by done.
        by rewrite decide_False, decide_True by done.
      * destruct ps as [|p2 ps]; [done|]; simplify_eq/=.
        rewrite (I1 0%nat c q) by done. rewrite swap_at_lookup by done. by rewrite decide_True.
      * rewrite (I1 (S t) p q) by done. rewrite swap_at_lookup by done.
        assert (p ∈ ps) by (by eapply list_elem_of_lookup_2).
        by rewrite !decide_False by (intros ->; done).
    + intros p Hlast. destruct ps as [|p2 ps]; simplify_eq/=.
      * rewrite swap_at_lookup by done. by rewrite decide_True.
      * rewrite (I2 p) by done. rewrite swap_at_lookup by done.
        assert (p ∈ p2 :: ps) by (by apply last_Some_elem_of).
        by rewrite !decide_False by (intros ->; done).
    + intros q Hq. apply not_elem_of_cons in Hq as [Hq1 Hq]. apply not_elem_of_cons in Hq as [Hq2 Hq].
      rewrite I3 by (by apply not_elem_of_cons). rewrite swap_at_lookup by done.
      by rewrite !decide_False.
Qed.

Lemma zget_Some {A} (l : list A) i a : l !! i = Some a -> zget l (Z.of_nat i) = Ok a.
Proof.
  intros H; unfold zget. destruct (Z.ltb_spec (Z.of_nat i) 0); [lia|]. by rewrite Nat2Z.id, H.
Qed.

Lemma zset_Ok {A} (l : list A) i a : (i < length l)%nat -> zset l (Z.of_nat i) a = Ok (<[i := a]> l).
Proof.
  intros H; unfold zset. destruct (Z.ltb_spec (Z.of_nat i) 0); [lia|].
  destruct (Z.leb_spec (Z.of_nat (length l)) (Z.of_nat i)); [lia|]. by rewrite Nat2Z.id.
Qed.

(** One iteration of the inner loop is a swap. *)
Lemma permute_cycle_step {A} e nn no j c pos (l : list A) p :
  permute_pos e nn no pos = Z.of_nat p -> (p < length l)%nat -> (c < length l)%nat ->
  permute_cycle e nn no (S j) (Z.of_nat c) pos l
  = permute_cycle e nn no j (Z.of_nat c) (Z.of_nat p) (swap_at c l p).
Proof.
  intros Hpos Hp Hc. cbn [permute_cycle]. rewrite Hpos. unfold swap_at.
  destruct (lookup_lt_is_Some_2 l p Hp) as [x Hx], (lookup_lt_is_Some_2 l c Hc) as [y Hy].
  rewrite (zget_Some _ _ _ Hx); run. rewrite (zget_Some _ _ _ Hy); run.
  rewrite zset_Ok by done; run. rewrite zset_Ok by (by rewrite length_insert); run.
  by rewrite Hx, Hy.
Qed.

Section PermuteCycle.
Context {A : Type} (g m' k' s : Z).
Context (Hg : 0 < g) (Hm : 0 < m') (Hk : 0 < k') (Hco : Z.gcd m' k' = 1) (Hs : 0 <= s).

Abbreviation m := (g * m').
Abbreviation k := (g * k').
Abbreviation L := (m' + k').
Abbreviation N := (m + k).
Abbreviation cyc := (cyc g m' k').

(** The array index of position [t] of cycle [i]. *)
Definition at_ (i t : Z) : nat := Z.to_nat (s + cyc i t).

Lemma at_Z i t : Z.of_nat (at_ i t) = s + cyc i t.
Proof. pose proof (cyc_range g m' k' Hg Hm Hk i t). unfold at_; lia. Qed.

Lemma permute_pos_next r : 0 <= r < N -> permute_pos (s + m) m k (s + r) = s + (r + k) mod N.
Proof.
  intros Hr; unfold permute_pos. destruct (Z.leb_spec (s + m) (s + r)).
  - replace (r + k) with (r - m + 1 * N) by lia. rewrite Z.mod_add, Z.mod_small by lia; lia.
  - rewrite Z.mod_small by lia. lia.
Qed.

Lemma permute_cycle_chain i n t c (l : list A) :
  s + N <= Z.of_nat (length l) -> (c < length l)%nat ->
  permute_cycle (s + m) m k n (Z.of_nat c) (Z.of_nat (at_ i t)) l
  = Ok (foldl (swap_at c) l ((fun u => at_ i (t + 1 + Z.of_nat u)) <$> seq 0 n)).
Proof.
  intros Hl Hc; revert t l Hl Hc; induction n as [|n IH]; intros t l Hl Hc; [done|].
  pose proof (cyc_range g m' k' Hg Hm Hk i t). pose proof (cyc_range g m' k' Hg Hm Hk i (t + 1)).
  pose proof (at_Z i (t + 1)).
  rewrite (permute_cycle_step _ _ _ _ _ _ _ (at_ i (t + 1))); [| |lia|done].
  2: { rewrite !at_Z, permute_pos_next, cyc_succ by done. done. }
  rewrite IH by (by rewrite swap_at_length).
  cbn [seq fmap list_fmap foldl]. rewrite <- fmap_S_seq, <- list_fmap_compose.
  replace (t + 1 + Z.of_nat 0) with (t + 1) by lia.
  do 2 f_equal. apply list_fmap_ext; intros ? u _; simpl; f_equal; lia.
Qed.

(** The positions of a cycle, its leader first. *)
Definition cycle_tail (i : Z) : list nat :=
  (fun u => at_ i (1 + Z.of_nat u)) <$> seq 0 (Z.to_nat (L - 1)).
Definition cycle (i : Z) : list nat := at_ i 0 :: cycle_tail i.

Lemma cycle_lookup i t x : cycle i !! t = Some x <-> Z.of_nat t < L /\ x = at_ i (Z.of_nat t).
Proof.
  unfold cycle, cycle_tail. destruct t as [|t]; simpl.
  - split; [intros [= <-]; split; [lia|done]|]. by intros [_ ->].
  - rewrite list_lookup_fmap, fmap_Some. setoid_rewrite lookup_seq.
    replace (Z.of_nat (S t)) with (1 + Z.of_nat t) by lia. split.
    + intros (u & [-> Hu] & ->). simpl. split; [lia|done].
    + intros [Ht ->]. exists t. split; [split; [done|lia]|done].
Qed.

Lemma cycle_bound i x : x ∈ cycle i -> Z.of_nat x < s + N.
Proof.
  intros [t Hx]%list_elem_of_lookup. apply cycle_lookup in Hx as [_ ->].
  pose proof (cyc_range g m' k' Hg Hm Hk i (Z.of_nat t)). rewrite at_Z. lia.
Qed.

Lemma at_inj i t t' : 0 <= t < L -> 0 <= t' < L -> at_ i t = at_ i t' -> t = t'.
Proof.
  intros Ht Ht' E. apply (cyc_inj g m' k' Hg Hm Hk Hco i); [done..|].
  pose proof (at_Z i t); pose proof (at_Z i t'); lia.
Qed.

Lemma cycle_NoDup i : NoDup (cycle i).
Proof.
  apply NoDup_alt; intros a b x Ha Hb.
  apply cycle_lookup in Ha as [La ->]. apply cycle_lookup in Hb as [Lb E].
  apply at_inj in E; lia.
Qed.

Lemma cycle_last i : last (cycle i) = Some (at_ i (L - 1)).
Proof.
  rewrite last_lookup. unfold cycle at 2. simpl. unfold cycle_tail.
  rewrite length_fmap, length_seq. apply cycle_lookup. split; [lia|]. f_equal; lia.
Qed.

Lemma at_period i : 0 <= i < g -> at_ i L = at_ i 0.
Proof. intros; unfold at_. by rewrite cyc_period, cyc_0. Qed.

(** The inner loop is the chain of swaps along the cycle; its last iteration
    swaps the leader with itself. *)
Lemma permute_cycle_swaps i (l : list A) :
  0 <= i < g -> s + N <= Z.of_nat (length l) ->
  permute_cycle (s + m) m k (Z.to_nat L) (s + m + i) (s + m + i) l
  = Ok (foldl (swap_at (at_ i 0)) l (cycle_tail i)).
Proof.
  intros Hi Hl. assert (Hc : Z.of_nat (at_ i 0) = s + m + i) by (rewrite at_Z, cyc_0 by done; lia).
  assert (Hik : i < k) by nia. rewrite <- Hc, permute_cycle_chain by lia.
  replace (Z.to_nat L) with (S (Z.to_nat (L - 1))) by lia.
  rewrite seq_S, fmap_app, foldl_app. cbn [fmap list_fmap foldl].
  replace (0 + 1 + Z.of_nat (0 + Z.to_nat (L - 1))) with L by lia.
  rewrite at_period by done. fold (cycle_tail i). f_equal.
  set (l2 := foldl _ _ _). unfold swap_at.
  destruct (l2 !! at_ i 0) as [x|] eqn:E; [|done].
  by rewrite (list_insert_id l2 _ x E), (list_insert_id l2 _ x E).
Qed.

(** A whole cycle moves every value one position along it. *)
Lemma permute_cycle_spec i (l : list A) :
  0 <= i < g -> s + N <= Z.of_nat (length l) ->
  exists l', permute_cycle (s + m) m k (Z.to_nat L) (s + m + i) (s + m + i) l = Ok l' /\
    length l' = length l /\
    (forall t, 0 <= t < L -> l' !! at_ i (t + 1) = l !! at_ i t) /\
    (forall q, (forall t, 0 <= t < L -> q <> at_ i t) -> l' !! q = l !! q).
Proof.
  intros Hi Hl. exists (foldl (swap_at (at_ i 0)) l (cycle_tail i)).
  pose proof (cycle_bound i) as Hb.
  destruct (swaps_shift (at_ i 0) l (cycle_tail i)) as (S1 & S2 & S3).
  { apply cycle_NoDup. }
  { enough (Z.of_nat (at_ i 0) < s + N) by lia. apply Hb, list_elem_of_here. }
  { apply Forall_forall; intros x Hx. enough (Z.of_nat x < s + N) by lia.
    by apply Hb, list_elem_of_further. }
  split_and!; [by apply permute_cycle_swaps|apply swaps_length| |].
  - intros t Ht. destruct (Z.eq_dec (t + 1) L) as [Et|Et].
    + rewrite Et, at_period by done. apply S2. fold (cycle i). rewrite (cycle_last i).
      do 2 f_equal; lia.
    + apply (S1 (Z.to_nat t)).
      * apply cycle_lookup. split; [lia|f_equal; lia].
      * apply (proj2 (cycle_lookup i (S (Z.to_nat t)) _)). split; [lia|f_equal; lia].
  - intros q Hq. apply S3. intros [t Hx]%list_elem_of_lookup.
    apply cycle_lookup in Hx as [Ht Hx]. apply (Hq (Z.of_nat t)); [lia|done].
Qed.

(** ** All cycles *)

(** After the cycles below [i]: the values of the first residues are moved. *)
Definition rotated_below (i : Z) (l0 l : list A) : Prop :=
  length l = length l0 /\
  (forall r, 0 <= r < N ->
     l !! Z.to_nat (s + (r + k) mod N)
     = l0 !! Z.to_nat (if r mod g <? i then s + r else s + (r + k) mod N)) /\
  (forall q, (Z.of_nat q < s \/ s + N <= Z.of_nat q) -> l !! q = l0 !! q).

Lemma rotated_below_value i l0 l r :
  rotated_below i l0 l -> 0 <= r < N -> i <= r mod g ->
  l !! Z.to_nat (s + r) = l0 !! Z.to_nat (s + r).
Proof.
  intros (_ & Hr & _) Hrn Hi. pose proof (rot_pos g m' k' Hg Hm Hk) as (? & ? & ? & ?).
  pose proof (Z.mod_pos_bound (r + m) N ltac:(lia)).
  specialize (Hr ((r + m) mod N) ltac:(lia)).
  assert (((r + m) mod N + k) mod N = r) as E.
  { rewrite Z.add_mod_idemp_l by lia. replace (r + m + k) with (r + 1 * N) by lia.
    rewrite Z.mod_add by lia. apply Z.mod_small; lia. }
  assert (((r + m) mod N) mod g = r mod g) as Eg.
  { rewrite (mod_N_g g m' k'). rewrite (Z.mul_comm g m'). apply Z.mod_add; lia. }
  rewrite E, Eg in Hr. destruct (Z.ltb_spec (r mod g) i); [lia|done].
Qed.

Lemma rotated_below_step i l0 l :
  0 <= i < g -> s + N <= Z.of_nat (length l0) -> rotated_below i l0 l ->
  exists l', permute_cycle (s + m) m k (Z.to_nat L) (s + m + i) (s + m + i) l = Ok l' /\
    rotated_below (i + 1) l0 l'.
Proof.
  intros Hi Hl Hrot. pose proof Hrot as (Hlen & Hr & Hout).
  pose proof (rot_pos g m' k' Hg Hm Hk) as (? & ? & ? & ?).
  destruct (permute_cycle_spec i l Hi) as (l' & E & Hlen' & Hin & Hno); [lia|].
  exists l'; split; [done|]. split_and!; [congruence| |].
  - intros r Hrr. destruct (decide (r mod g = i)) as [Hri|Hri].
    + destruct (cyc_surj g m' k' Hg Hm Hk Hco i r Hi Hrr Hri) as (t & Ht & Hcr).
      specialize (Hin t Ht). unfold at_ in Hin. rewrite cyc_succ, Hcr in Hin by done.
      rewrite Hin, (rotated_below_value i l0 l r) by (done || lia).
      destruct (Z.ltb_spec (r mod g) (i + 1)); [done|lia].
    + rewrite Hno.
      * rewrite Hr by done. destruct (Z.ltb_spec (r mod g) i), (Z.ltb_spec (r mod g) (i + 1)); (done || lia).
      * intros t Ht Heq. apply Hri. rewrite <- (cyc_residue g m' k' Hg i t Hi).
        rewrite <- (mod_add_k_g g m' k' Hg r). f_equal.
        pose proof (cyc_range g m' k' Hg Hm Hk i t).
        pose proof (Z.mod_pos_bound (r + k) N ltac:(lia)). pose proof (at_Z i t). lia.
  - intros q Hq. rewrite Hno by (intros t Ht ->; rewrite at_Z in Hq;
      pose proof (cyc_range g m' k' Hg Hm Hk i t); lia). by apply Hout.
Qed.

Lemma permute_cycles_spec n i l0 l :
  Z.of_nat n = g - i -> 0 <= i -> s + N <= Z.of_nat (length l0) -> rotated_below i l0 l ->
  exists l', permute_cycles (s + m) m k n i L l = Ok l' /\ rotated_below g l0 l'.
Proof.
  revert i l; induction n as [|n IH]; intros i l Hn Hi Hl Hrot; cbn [permute_cycles].
  - exists l. by replace g with i by lia.
  - destruct (rotated_below_step i l0 l) as (l' & -> & Hrot'); [lia|done..|]; run.
    apply (IH (i + 1)); [lia..|done].
Qed.
End PermuteCycle.

(** ** [permute_args] exchanges the blocks *)

Lemma exchange_blocks_lookup {A} i n1 n2 (l : list A) q :
  (i + n1 + n2 <= length l)%nat ->
  exchange_blocks i n1 n2 l !! q
  = l !! (if decide (q < i)%nat then q
          else if decide (q < i + n2)%nat then (q + n1)%nat
          else if decide (q < i + n1 + n2)%nat then (q - n2)%nat else q).
Proof.
  intros Hl; unfold exchange_blocks.
  assert (length (take i l) = i) as L1 by (rewrite length_take; lia).
  pose proof (slice_length (i + n1) n2 l ltac:(lia)) as L2.
  pose proof (slice_length i n1 l ltac:(lia)) as L3.
  destruct (decide (q < i)%nat).
  { by rewrite lookup_app_l, lookup_take_lt by lia. }
  rewrite lookup_app_r, L1 by lia. destruct (decide (q < i + n2)%nat).
  { rewrite lookup_app_l, slice_lookup, decide_True by lia. f_equal; lia. }
  rewrite lookup_app_r, L2 by lia. destruct (decide (q < i + n1 + n2)%nat).
  { rewrite lookup_app_l, slice_lookup, decide_True by lia. f_equal; lia. }
  rewrite lookup_app_r, L3, lookup_drop by lia. f_equal; lia.
Qed.

Lemma exchange_blocks_length {A} i n1 n2 (l : list A) :
  (i + n1 + n2 <= length l)%nat -> length (exchange_blocks i n1 n2 l) = length l.
Proof.
  intros; unfold exchange_blocks.
  rewrite !length_app, length_take, !slice_length, length_drop by lia. lia.
Qed.

Lemma permute_args_exchange {A} i n1 n2 (l : list A) :
  (0 < n1)%nat -> (0 < n2)%nat -> (i + n1 + n2 <= length l)%nat ->
  permute_args (Z.of_nat i) (Z.of_nat (i + n1)) (Z.of_nat (i + n1 + n2)) l
  = Ok (exchange_blocks i n1 n2 l).
Proof.
  intros H1 H2 Hl; unfold permute_args.
  replace (Z.of_nat (i + n1) - Z.of_nat i) with (Z.of_nat n1) by lia.
  replace (Z.of_nat (i + n1 + n2) - Z.of_nat (i + n1)) with (Z.of_nat n2) by lia.
  rewrite gcd_spec by lia; run. set (g := Z.gcd (Z.of_nat n1) (Z.of_nat n2)).
  assert (Hg : 0 < g) by (pose proof (Z.gcd_nonneg (Z.of_nat n1) (Z.of_nat n2));
    assert (g <> 0) by (unfold g; rewrite Z.gcd_eq_0; lia); unfold g in *; lia).
  destruct (Z.gcd_divide_l (Z.of_nat n1) (Z.of_nat n2)) as [m' Hm].
  destruct (Z.gcd_divide_r (Z.of_nat n1) (Z.of_nat n2)) as [k' Hk]. fold g in Hm, Hk.
  rewrite (Z.mul_comm m') in Hm; rewrite (Z.mul_comm k') in Hk.
  assert (0 < m' /\ 0 < k') as [Hm' Hk'] by nia.
  assert (Hco : Z.gcd m' k' = 1).
  { apply (Z.mul_reg_l _ _ g); [lia|]. rewrite <- Z.gcd_mul_mono_l_nonneg by lia.
    rewrite <- Hm, <- Hk. fold g. lia. }
  destruct (Z.eqb_spec g 0); [lia|].
  replace (Z.quot (Z.of_nat (i + n1 + n2) - Z.of_nat i) g) with (m' + k')
    by (rewrite Z.quot_div_nonneg by lia;
        replace (Z.of_nat (i + n1 + n2) - Z.of_nat i) with ((m' + k') * g) by lia;
        by rewrite Z.div_mul by lia).
  replace (Z.of_nat (i + n1)) with (Z.of_nat i + g * m') by lia. rewrite Hm, Hk.
  destruct (permute_cycles_spec g m' k' (Z.of_nat i) Hg Hm' Hk' Hco ltac:(lia) (Z.to_nat g) 0 l l)
    as (l' & -> & Hlen & Hr & Hout); [lia..| |].
  { split; [done|]. split; [|done]. intros r Hr.
    by destruct (Z.ltb_spec (r mod g) 0); [pose proof (Z.mod_pos_bound r g); lia|]. }
  f_equal. apply list_eq; intros q. rewrite exchange_blocks_lookup by done.
  rewrite <- Hm, <- Hk in Hr. rewrite <- Hm, <- Hk in Hout.
  destruct (decide (q < i)%nat); [apply Hout; lia|].
  destruct (decide (q < i + n1 + n2)%nat); [|rewrite decide_False by lia; apply Hout; lia].
  set (r := if decide (q < i + n2)%nat then Z.of_nat (q - i + n1) else Z.of_nat (q - i - n2)).
  assert (0 <= r < Z.of_nat n1 + Z.of_nat n2) as Hrr by (unfold r; case_decide; lia).
  assert ((r + Z.of_nat n2) mod (Z.of_nat n1 + Z.of_nat n2) = Z.of_nat (q - i)) as E.
  { unfold r; case_decide; [|rewrite Z.mod_small; lia].
    replace (Z.of_nat (q - i + n1) + Z.of_nat n2)
      with (Z.of_nat (q - i) + 1 * (Z.of_nat n1 + Z.of_nat n2)) by lia.
    rewrite Z.mod_add by lia. apply Z.mod_small; lia. }
  specialize (Hr r Hrr). rewrite E in Hr.
  destruct (Z.ltb_spec (r mod g) g); [|pose proof (Z.mod_pos_bound r g); lia].
  replace (Z.to_nat (Z.of_nat i + Z.of_nat (q - i))) with q in Hr by lia. rewrite Hr.
  f_equal. unfold r; repeat case_decide; lia.
Qed.

(** ** One call of [getopt] *)

(** [options] lists [c] with a mandatory argument. *)
Definition takes_argument (options : bytes) (c : ascii) : Prop :=
  c <> ":"%char /\ c <> "-"%char /\ c <> NUL /\
  exists k o2, strchr options c = Some k /\ c_str options !! (k + 1)%nat = Some ":"%char /\
    c_str options !! (k + 2)%nat = Some o2 /\ o2 <> ":"%char.

Definition plain_options (options : bytes) : Prop :=
  first_char options <> "-"%char /\ first_char options <> "+"%char.

Section OneCall.
Context (strs : list bytes) (env : bool) (options : bytes).
Context (Hopt : plain_options options).

Abbreviation nargc s := (Z.of_nat (length (nargv s))).

(** Between two arguments of the command line. *)
Definition at_argument (s : GState) : Prop :=
  place s = None /\ optreset s = 0 /\ nonopt_start s = -1 /\ nonopt_end s = -1 /\ 1 <= optind s.

(** The state [getopt_setup] leaves. *)
Definition ready (s : GState) : GState :=
  set_optarg None (if posixly_correct s =? -1 then set_posixly (if env then 1 else 0) s else s).

Lemma getopt_setup_ready s :
  at_argument s -> getopt_setup env options 0 s = (options, 0, ready s).
Proof.
  intros (Hp & Hr & H1 & H2 & Hi). destruct Hopt as [Ho1 Ho2]. unfold getopt_setup, ready.
  destruct (Z.eqb_spec (optind s) 0); [lia|]. rewrite Hr. cbn [negb Z.eqb orb].
  rewrite orb_false_r. rewrite (decide_False (P := first_char options = "-"%char)) by done.
  rewrite (decide_False (P := _ \/ _)) by tauto.
  assert (forall b : bool, (if b then Z.land 0 (Z.lnot FLAG_PERMUTE) else 0) = 0) as -> by (by intros []).
  destruct (posixly_correct s =? -1); cbn; by rewrite Hr.
Qed.

Lemma ready_fields s :
  at_argument s ->
  at_argument (ready s) /\ nargv (ready s) = nargv s /\ optind (ready s) = optind s /\
  optarg (ready s) = None.
Proof. unfold at_argument, ready; destruct (posixly_correct s =? -1); simpl; tauto. Qed.

(** The next argument's string. *)
Definition argument (s : GState) (a : bytes) (p : ptr) : Prop :=
  nargv s !! Z.to_nat (optind s) = Some p /\ p_off p = 0%nat /\ strs !! p_str p = Some a.

Lemma argv_at_Some s i p :
  0 <= i -> nargv s !! Z.to_nat i = Some p -> argv_at s i = Ok (Some p).
Proof.
  intros Hi H. apply lookup_lt_Some in H as Hl. unfold argv_at.
  destruct (Z.eqb_spec i (Z.of_nat (length (nargv s)))); [lia|].
  rewrite <- (Z2Nat.id i) by done. by rewrite (zget_Some _ _ _ H).
Qed.

Lemma argv_at_ext s s' i : nargv s = nargv s' -> argv_at s i = argv_at s' i.
Proof. unfold argv_at; by intros ->. Qed.

Lemma peek_Some p a k c :
  strs !! p_str p = Some a -> c_str a !! (p_off p + k)%nat = Some c ->
  peek strs (Some p) k = Ok c.
Proof. intros Hp Hc; unfold peek. rewrite Hp. by apply char_at_Ok. Qed.

(** The first step of the scan, between two arguments. *)
Lemma scan_start_unfold fuel n opts s :
  at_argument s ->
  scan_start strs n fuel opts 0 s
  = if n <=? optind s then Ok (Some (-1), s)
    else
      p ← argv_at s (optind s);
      p ← match p with Some p => Ok (Some p) | None => UB NullPointer end;
      let s := set_place p s in
      c0 ← peek strs p 0;
      nonoption ← (if decide (c0 = "-"%char) then
                     c1 ← peek strs p 1;
                     Ok (bool_decide (c1 = NUL) && bool_decide (strchr opts "-"%char = None))
                   else Ok true);
      if (nonoption : bool) then Ok (Some (-1), set_place None s)
      else
        c1 ← peek strs p 1;
        if decide (c1 = NUL) then Ok (None, s)
        else
          let s := set_place (advance p 1) s in
          dashdash ← (if decide (c1 = "-"%char) then
                        c2 ← peek strs (place s) 1; Ok (bool_decide (c2 = NUL))
                      else Ok false);
          if (dashdash : bool) then
            Ok (Some (-1), set_place None (set_optind (optind s + 1) s))
          else Ok (None, s).
Proof.
  destruct s as [v i oo rs oa pl ns ne pc ix fv].
  intros (Hp & Hr & H1 & H2 & Hi). simpl in *. subst.
  destruct fuel; reflexivity.
Qed.

(** The command line is at its end. *)
Lemma getopt_end s :
  at_argument s -> nargc s <= optind s ->
  getopt strs (nargc s) env options s = Ok (-1, ready s).
Proof.
  intros Hs Hend. unfold getopt, getopt_internal. rewrite getopt_setup_ready by done.
  destruct (ready_fields s Hs) as (Hs' & Hv & Hi & _).
  rewrite scan_start_unfold by done. rewrite Hi.
  by destruct (Z.leb_spec (nargc s) (optind s)); [|lia].
Qed.

(** An argument that starts with [-c], [c] not [-]: the scan stops at [c]. *)
Lemma scan_start_option s p c v fuel :
  at_argument s -> optind s < nargc s -> argument s ("-"%char :: c :: v) p ->
  c <> NUL -> (c = "-"%char -> v <> [] /\ NUL ∉ v) ->
  scan_start strs (nargc s) fuel options 0 s
  = Ok (None, set_place (Some (Ptr (p_str p) 1)) s).
Proof.
  intros Hs Hlt (Hv & Ho & Ha) Hc Hc'. rewrite scan_start_unfold by done.
  destruct (Z.leb_spec (nargc s) (optind s)); [lia|].
  rewrite (argv_at_Some _ _ p) by (done || (unfold at_argument in Hs; lia)); run.
  rewrite (peek_Some p _ 0 "-"%char Ha) by (by rewrite Ho); run.
  rewrite (decide_True (P := "-"%char = "-"%char)) by done.
  rewrite !(peek_Some p _ 1 c Ha) by (by rewrite Ho); run.
  rewrite (bool_decide_false (c = NUL)) by done; cbn [andb].
  rewrite (decide_False (P := c = NUL)) by done. cbn [place set_place advance]. rewrite Ho.
  case_decide as Hd; [|done]. destruct (Hc' Hd) as [Hne Hnf].
  destruct v as [|d v]; [done|].
  rewrite (peek_Some (Ptr (p_str p) (0 + 1)) _ 1 d Ha) by done; run.
  rewrite bool_decide_false by set_solver. done.
Qed.

(** The state after an option with its argument at [q]. *)
Definition after_option (s : GState) (k : Z) (q : option ptr) : GState :=
  set_optind (optind s + k) (set_place None (set_optarg q (ready s))).

Lemma getopt_to_short s p c v :
  at_argument s -> optind s < nargc s -> argument s ("-"%char :: c :: v) p ->
  c <> NUL -> (c = "-"%char -> v <> [] /\ NUL ∉ v) ->
  getopt strs (nargc s) env options s
  = short_option strs (nargc s) false options None
      (set_place (Some (Ptr (p_str p) 1)) (ready s)).
Proof.
  intros Hs Hlt Ha Hc Hc'. unfold getopt, getopt_internal.
  rewrite getopt_setup_ready by done.
  destruct (ready_fields s Hs) as (Hs' & Hv & Hi & _). rewrite <- Hv.
  rewrite (scan_start_option _ p c v) by (rewrite ?Hi, ?Hv; try done;
    unfold argument in *; by rewrite Hv, Hi). by run.
Qed.

Lemma short_option_argument s p c v :
  strs !! p_str p = Some ("-"%char :: c :: v) -> takes_argument options c ->
  exists oli o2, o2 <> ":"%char /\ c_str options !! (oli + 2)%nat = Some o2 /\
  short_option strs (nargc s) false options None (set_place (Some (Ptr (p_str p) 1)) s)
  = (next ← peek strs (Some (Ptr (p_str p) 2)) 0;
     short_argument (nargc s) options ":"%char oli next (schar c)
       (set_place (Some (Ptr (p_str p) 2)) s)).
Proof.
  intros Ha (Hc1 & Hc2 & Hc3 & oli & o2 & Hk & Hk1 & Hk2 & Ho2).
  exists oli, o2; split_and!; [done..|]. unfold short_option. cbn [place set_place].
  rewrite (peek_Some (Ptr (p_str p) 1) _ 0 c Ha) by done; run. cbn [advance p_str p_off Nat.add].
  destruct (peek strs (Some (Ptr (p_str p) 2)) 0) as [next| | |]; run; try done.
  rewrite (decide_False (P := c = ":"%char)) by done.
  rewrite (decide_False (P := c = "-"%char /\ _)) by tauto.
  rewrite Hk, (char_at_Ok _ _ _ Hk1). done.
Qed.

Lemma getopt_attached s p c d v :
  at_argument s -> optind s < nargc s -> argument s ("-"%char :: c :: d :: v) p ->
  d <> NUL -> takes_argument options c ->
  getopt strs (nargc s) env options s
  = Ok (schar c, after_option s 1 (Some (Ptr (p_str p) 2))).
Proof.
  intros Hs Hlt Ha Hd Hc. rewrite (getopt_to_short s p c (d :: v)) by (done || by destruct Hc as (_ & ? & ? & _)).
  destruct Ha as (Hv & Ho & Ha). destruct (ready_fields s Hs) as (_ & Hv' & Hi & _).
  destruct (short_option_argument (ready s) p c (d :: v) Ha Hc)
    as (oli & o2 & Ho2 & Hk & E).
  rewrite Hv' in E. rewrite E.
  rewrite (peek_Some (Ptr (p_str p) 2) _ 0 d Ha) by done; run. unfold short_argument.
  rewrite decide_False by (by intros []). rewrite (char_at_Ok _ _ _ Hk); run.
  rewrite decide_True by done. unfold after_option. by rewrite <- Hi.
Qed.

Lemma getopt_separate s p c :
  at_argument s -> optind s < nargc s -> argument s ["-"%char; c] p -> takes_argument options c ->
  getopt strs (nargc s) env options s
  = if nargc s <=? optind s + 1 then
      Ok (BADARG options, set_optopt (schar c) (after_option s 1 None))
    else q ← argv_at s (optind s + 1); Ok (schar c, after_option s 2 q).
Proof.
  intros Hs Hlt Ha Hc. rewrite (getopt_to_short s p c []) by (done || by destruct Hc as (_ & ? & ? & _)).
  destruct Ha as (Hv & Ho & Ha). destruct (ready_fields s Hs) as (_ & Hv' & Hi & _).
  destruct (short_option_argument (ready s) p c [] Ha Hc)
    as (oli & o2 & Ho2 & Hk & E).
  rewrite Hv' in E. rewrite E.
  rewrite (peek_Some (Ptr (p_str p) 2) _ 0 NUL Ha) by done; run. unfold short_argument.
  rewrite decide_False by (by intros []). rewrite (char_at_Ok _ _ _ Hk); run.
  rewrite decide_False by (by intros []). rewrite decide_True by done.
  clear E. unfold after_option. rewrite (argv_at_ext s (ready s)), <- Hi, <- Hv' by done.
  destruct (ready s) as [v i oo rs oa pl ns ne pc ix fv]; cbn in *.
  destruct (_ <=? i + 1); [done|].
  rewrite (argv_at_ext _ (MkGState v i oo rs oa pl ns ne pc ix fv)) by done.
  destruct (argv_at _ _); run; try done. unfold set_optind; cbn. do 3 f_equal; lia.
Qed.
End OneCall.

Lemma exchange_blocks_perm {A} i n1 n2 (l : list A) :
  (i + n1 + n2 <= length l)%nat -> l ≡ₚ exchange_blocks i n1 n2 l.
Proof.
  intros Hl; unfold exchange_blocks.
  rewrite <- (take_drop i l) at 1. f_equiv.
  rewrite <- (take_drop n1 (drop i l)) at 1. rewrite drop_drop.
  rewrite <- (take_drop n2 (drop (i + n1) l)) at 1. rewrite drop_drop.
  change (take n1 (drop i l)) with (slice i n1 l).
  change (take n2 (drop (i + n1) l)) with (slice (i + n1) n2 l).
  by rewrite !(assoc_L (++)), (comm (++) (slice i n1 l)).
Qed.

(** ** Properties *)

(** C33: [permute_args] exchanges the block of non-options [start, mid) with the
    block of options [mid, opt_end) that follows it, both in their order, and
    moves nothing else: its cycles stay inside the array and end. *)
Theorem permute_args_correct {A} panonopt_start panonopt_end opt_end (nargv : list A) :
  0 <= panonopt_start < panonopt_end -> panonopt_end < opt_end ->
  opt_end <= Z.of_nat (length nargv) ->
  let i := Z.to_nat panonopt_start in
  let n1 := Z.to_nat (panonopt_end - panonopt_start) in
  let n2 := Z.to_nat (opt_end - panonopt_end) in
  permute_args panonopt_start panonopt_end opt_end nargv = Ok (exchange_blocks i n1 n2 nargv) /\
  nargv ≡ₚ exchange_blocks i n1 n2 nargv.
Proof.
  intros H1 H2 H3 i n1 n2. split; [|apply exchange_blocks_perm; lia].
  rewrite <- (permute_args_exchange i n1 n2) by lia. f_equal; lia.
Qed.

Example permute_args_correct_witness :
  permute_args 1 3 6 [0; 1; 2; 3; 4; 5; 6] = Ok [0; 3; 4; 5; 1; 2; 6] /\
  [0; 1; 2; 3; 4; 5; 6] ≡ₚ [0; 3; 4; 5; 1; 2; 6].
Proof. apply (permute_args_correct 1 3 6 [0; 1; 2; 3; 4; 5; 6]); simpl; lia. Defined.

(** [gcd] computes the greatest common divisor of non-negative ints, its
    loop ending, and divides by zero when [b] is zero. *)
Theorem gcd_correct a b :
  0 <= a -> 0 <= b ->
  gcd a b = if decide (b = 0) then UB DivByZero else Ok (Z.gcd a b).
Proof.
  intros Ha Hb. case_decide as Hz; [by subst|]. apply gcd_spec; lia.
Qed.

Example gcd_correct_witness : gcd 12 18 = Ok 6.
Proof. apply (gcd_correct 12 18); lia. Defined.
