(* ===== verification/Options.v ===== *)
(** * The server's command line (server.cpp, first part of [main])

    [main] asks [getopt] for the options of ["i:p:c:"] until it returns -1 and
    stores their arguments in the globals; anything else prints the usage and
    exits.  [main_options] is that loop over the model of getopt.cpp. *)
From Stdlib Require Import ZArith Ascii String Lia.
From stdpp Require Import base tactics list gmap.
From S2P Require Import Prelude CLib Getopt.

#[local] Open Scope Z_scope.

Record Options := MkOptions {
  g_serverIp : bytes;
  g_httpsPort : Z;
  g_certificate : bytes
}.

Definition CERTIFICATE_FILE : bytes := bs "server.pem".

Definition default_options : Options := MkOptions [] 4433 CERTIFICATE_FILE.

Definition set_serverIp v o := MkOptions v (g_httpsPort o) (g_certificate o).
Definition set_httpsPort v o := MkOptions (g_serverIp o) v (g_certificate o).
Definition set_certificate v o := MkOptions (g_serverIp o) (g_httpsPort o) v.

Definition optstring : bytes := bs "i:p:c:".

(** The C string at [optarg], which the cases of the switch read. *)
Definition optarg_text (strs : list bytes) (s : GState) : outcome bytes :=
  match optarg s with
  | Some p => string_at strs (Some p)
  | None => UB NullPointer
  end.

(** The [while] loop; [None] stands for [printUsage(); exit(1)]. *)
Fixpoint option_loop (fuel : nat) (strs : list bytes) (argc : Z) (env : bool)
    (s : GState) (o : Options) : outcome (option Options) :=
  match fuel with
  | O => NoFuel
  | S fuel =>
      '(opt, s) ← getopt strs argc env optstring s;
      if opt =? -1 then Ok (Some o)
      else if opt =? code "i"%char then
        a ← optarg_text strs s; option_loop fuel strs argc env s (set_serverIp a o)
      else if opt =? code "p"%char then
        a ← optarg_text strs s; option_loop fuel strs argc env s (set_httpsPort (u16 (atoi a)) o)
      else if opt =? code "c"%char then
        a ← optarg_text strs s; option_loop fuel strs argc env s (set_certificate a o)
      else Ok None
  end.

(** [main] up to the end of the loop, for the strings of [argv]; every
    iteration but the last consumes an argument. *)
Definition main_options (argv : list bytes) (env : bool) : outcome (option Options) :=
  if Z.of_nat (length argv) <? 3 then Ok None
  else option_loop (S (length argv)) argv (Z.of_nat (length argv)) env
         (initial_GState (length argv)) default_options.

(** ** Specification

    What the arguments behind the program name mean. *)

Definition set_option (c : ascii) (v : bytes) (o : Options) : option Options :=
  if decide (c = "i"%char) then Some (set_serverIp v o)
  else if decide (c = "p"%char) then Some (set_httpsPort (u16 (atoi v)) o)
  else if decide (c = "c"%char) then Some (set_certificate v o)
  else None.

Fixpoint options_spec (args : list bytes) (o : Options) : option Options :=
  match args with
  | ("-" :: c :: v)%char :: rest =>
      match v, rest with
      | [], value :: rest' =>
          if decide (c = "-"%char) then Some o
          else o' ← set_option c value o; options_spec rest' o'
      | [], [] => if decide (c = "-"%char) then Some o else None
      | _, _ => o' ← set_option c v o; options_spec rest o'
      end
  | _ => Some o
  end.
