(* ===== verification/OptionsProofs.v ===== *)
(** * The option loop computes what the command line says *)
From Stdlib Require Import ZArith Ascii String Lia.
From stdpp Require Import base tactics list gmap.
From S2P Require Import Prelude CLib Getopt GetoptProofs Options.

#[local] Open Scope Z_scope.

Lemma optstring_plain : plain_options optstring.
Proof. by split. Qed.

Lemma optstring_takes c : c ∈ bs "ipc" -> takes_argument optstring c.
Proof.
  intros Hc.
  assert (c = "i" \/ c = "p" \/ c = "c")%char as [ -> | [ -> | -> ]]
    by (unfold bs in Hc; simpl in Hc; set_solver).
  - split_and!; [done..|]. by exists 0%nat, "p"%char.
  - split_and!; [done..|]. by exists 2%nat, "c"%char.
  - split_and!; [done..|]. by exists 4%nat, NUL.
Qed.

Lemma optstring_other c : c ∉ bs "ipc" -> c <> ":"%char -> c <> NUL -> strchr optstring c = None.
Proof.
  intros Hc Hc' Hn. unfold bs in Hc; simpl in Hc.
  unfold strchr, optstring, bs; simpl.
  rewrite !decide_False by set_solver. done.
Qed.

(** The argument at [optind] is not an option. *)
Definition not_option (a : bytes) : Prop := forall c v, a <> "-"%char :: c :: v.

Lemma argument_cases a : not_option a \/ exists c v, a = "-"%char :: c :: v.
Proof.
  destruct a as [|c0 [|c v]]; [left; congruence..|].
  destruct (decide (c0 = "-"%char)) as [->|]; [right; eauto|left; congruence].
Qed.

Definition nul_free (a : bytes) : Prop := NUL ∉ a.

Section Calls.
Context (strs : list bytes) (env : bool).
Abbreviation nargc s := (Z.of_nat (length (nargv s))).

(** Scanning stops at the first argument that is not an option and at [--]. *)
Lemma getopt_stops s a p :
  at_argument s -> optind s < nargc s -> argument strs s a p -> nul_free a ->
  not_option a \/ a = bs "--" ->
  exists s', getopt strs (nargc s) env optstring s = Ok (-1, s').
Proof.
  intros Hs Hlt (Hv & Ho & Ha) Hnf Hno. unfold getopt, getopt_internal.
  rewrite getopt_setup_ready by (done || apply optstring_plain).
  destruct (ready_fields env s Hs) as (Hs' & Hv' & Hi & _).
  rewrite scan_start_unfold by done. rewrite Hi.
  destruct (Z.leb_spec (nargc s) (optind s)); [lia|].
  rewrite (argv_at_Some _ _ p) by (rewrite ?Hv'; done || (unfold at_argument in Hs; lia)); run.
  assert (forall k c, c_str a !! k = Some c -> peek strs (Some p) k = Ok c) as Hpk
    by (intros k c Hk; apply (peek_Some strs p a k c Ha); by rewrite Ho).
  destruct Hno as [Hno| ->].
  - destruct a as [|c0 [|c1 v]].
    + rewrite (Hpk 0%nat NUL) by done; run. eauto.
    + rewrite (Hpk 0%nat c0) by done; run. destruct (decide (c0 = "-"%char)); run; [|eauto].
      rewrite (Hpk 1%nat NUL) by done; run. eauto.
    + rewrite (Hpk 0%nat c0) by done; run.
      rewrite decide_False by (intros ->; by destruct (Hno c1 v)); run. eauto.
  - rewrite (Hpk 0%nat "-"%char) by done; run.
    rewrite (decide_True (P := "-"%char = "-"%char)) by done.
    rewrite !(Hpk 1%nat "-"%char) by done; run. cbn [place set_place advance].
    rewrite (peek_Some strs (Ptr (p_str p) (p_off p + 1)) _ 1 NUL Ha) by (by rewrite Ho); run.
    eauto.
Qed.

(** An unknown letter, [:] or a long option is answered with [?]. *)
Lemma getopt_bad s p c v :
  at_argument s -> optind s < nargc s -> argument strs s ("-"%char :: c :: v) p ->
  nul_free (c :: v) -> c ∉ bs "ipc" -> (c = "-"%char -> v <> []) ->
  exists s', getopt strs (nargc s) env optstring s = Ok (BADCH, s').
Proof.
  intros Hs Hlt Ha Hnf Hc Hd. unfold nul_free in Hnf.
  rewrite (getopt_to_short strs env optstring optstring_plain s p c v)
    by (done || set_solver || (intros He; split; [auto|set_solver])).
  destruct Ha as (Hv & Ho & Ha). unfold short_option. cbn [place set_place].
  rewrite (peek_Some strs (Ptr (p_str p) 1) _ 0 c Ha) by done; run.
  cbn [advance p_str p_off Nat.add].
  set (d := match v with [] => NUL | d :: _ => d end).
  rewrite (peek_Some strs (Ptr (p_str p) 2) _ 0 d Ha) by (by destruct v); run.
  assert (Hdn : c = "-"%char -> d <> NUL).
  { intros He. specialize (Hd He). destruct v as [|d' v]; [done|]. subst d; set_solver. }
  destruct (decide (c = ":"%char)) as [->|Hc'].
  - rewrite decide_False by (by intros []). eauto.
  - destruct (decide (c = "-"%char)) as [->|Hm].
    + rewrite decide_True by auto. rewrite decide_False by (intros []; by apply Hdn). eauto.
    + rewrite decide_False by (by intros []). rewrite optstring_other by (done || set_solver).
      rewrite decide_False by (by intros []). eauto.
Qed.
End Calls.

(** ** The specification on each kind of argument *)

Lemma options_spec_not_option a rest o : not_option a -> options_spec (a :: rest) o = Some o.
Proof.
  intros H. destruct a as [|[[] [] [] [] [] [] [] []] [|c v]]; try done.
  by destruct (H c v).
Qed.

Lemma set_option_bad c v o : c ∉ bs "ipc" -> set_option c v o = None.
Proof. unfold bs; simpl; intros H. unfold set_option. by rewrite !decide_False by set_solver. Qed.

Lemma options_spec_bad c v rest o :
  c ∉ bs "ipc" -> (c = "-"%char -> v <> []) -> options_spec (("-"%char :: c :: v) :: rest) o = None.
Proof.
  intros Hc Hd. cbn. destruct v as [|d v].
  - destruct rest as [|x rest]; rewrite decide_False by (intros He; by apply (Hd He)); [done|].
    by rewrite set_option_bad.
  - by rewrite set_option_bad.
Qed.

Section Loop.
Context (strs : list bytes) (env : bool) (Hnf : Forall nul_free strs).

Abbreviation argc := (Z.of_nat (length strs)).

(** Between two arguments, [argv] being as it was passed. *)
Definition between (s : GState) : Prop :=
  at_argument s /\ nargv s = (fun i => Ptr i 0) <$> seq 0 (length strs) /\ optind s <= argc.

Lemma between_length s : between s -> Z.of_nat (length (nargv s)) = argc.
Proof. intros (_ & -> & _). by rewrite length_fmap, length_seq. Qed.

Lemma between_after s k q :
  between s -> 0 <= k -> optind s + k <= argc -> between (after_option env s k q).
Proof.
  intros (Ha & Hv & Hi) Hk Hle. destruct (ready_fields env s Ha) as (Ha' & Hv' & Hi' & _).
  unfold between, after_option, at_argument in *.
  cbn [nargv optind place optreset nonopt_start nonopt_end set_optind set_place set_optarg].
  rewrite Hv'.
  split_and!; try tauto; lia.
Qed.

(** The [j]-th argument is the [j]-th string. *)
Lemma between_argument s j a :
  between s -> 0 <= j -> strs !! Z.to_nat j = Some a ->
  nargv s !! Z.to_nat j = Some (Ptr (Z.to_nat j) 0).
Proof.
  intros (_ & -> & _) Hj Ha. rewrite list_lookup_fmap, (proj2 (lookup_seq 0 _ _ (Z.to_nat j))); [done|].
  apply lookup_lt_Some in Ha. lia.
Qed.

Lemma optarg_text_after s k i off a :
  strs !! i = Some a -> (off <= length a)%nat ->
  optarg_text strs (after_option env s k (Some (Ptr i off))) = Ok (drop off a).
Proof.
  intros Ha Hoff. unfold optarg_text, string_at, after_option. cbn. rewrite Ha.
  destruct (Nat.leb_spec off (length a)); [|lia]. f_equal. apply cstr_id.
  rewrite Forall_forall in Hnf. intros Hin. apply (Hnf a); [by eapply list_elem_of_lookup_2|].
  rewrite <- (take_drop off a). apply elem_of_app; by right.
Qed.

(** One iteration that stores an argument. *)
Lemma option_loop_store fuel s s' o c i off a :
  c ∈ bs "ipc" -> strs !! i = Some a -> (off <= length a)%nat ->
  getopt strs argc env optstring s = Ok (schar c, s') ->
  (exists k, s' = after_option env s k (Some (Ptr i off))) ->
  option_loop (S fuel) strs argc env s o
  = match set_option c (drop off a) o with
    | Some o' => option_loop fuel strs argc env s' o'
    | None => Ok None
    end.
Proof.
  intros Hc Ha Hoff Hg [k ->]. cbn [option_loop]. rewrite Hg; run.
  assert (c = "i" \/ c = "p" \/ c = "c")%char as [ -> | [ -> | -> ]]
    by (unfold bs in Hc; simpl in Hc; set_solver);
  cbn [Z.eqb]; by rewrite (optarg_text_after _ _ _ _ a).
Qed.

Lemma set_option_good c v o : c ∈ bs "ipc" -> exists o', set_option c v o = Some o'.
Proof.
  unfold bs; simpl; intros Hc. unfold set_option. repeat case_decide; eauto. exfalso; set_solver.
Qed.

Lemma options_spec_attached c d v rest o :
  options_spec (("-" :: c :: d :: v)%char :: rest) o
  = match set_option c (d :: v) o with Some o' => options_spec rest o' | None => None end.
Proof. reflexivity. Qed.

Lemma option_loop_ends fuel s s' o r :
  getopt strs argc env optstring s = Ok (r, s') -> r = -1 \/ r = BADCH ->
  option_loop (S fuel) strs argc env s o = Ok (if r =? -1 then Some o else None).
Proof. intros Hg Hr. cbn [option_loop]. rewrite Hg; run. by destruct Hr as [->| ->]. Qed.

(** How the loop treats the argument at [optind]. *)
(** An option letter alone: its argument is the next string, if there is one. *)
Lemma option_loop_separate fuel s o c rest :
  between s -> drop (Z.to_nat (optind s)) strs = ["-"%char; c] :: rest -> c ∈ bs "ipc" ->
  (forall s' o', between s' -> (optind s < optind s') ->
     option_loop fuel strs argc env s' o'
     = Ok (options_spec (drop (Z.to_nat (optind s')) strs) o')) ->
  option_loop (S fuel) strs argc env s o = Ok (options_spec (["-"%char; c] :: rest) o).
Proof.
  intros Hb Hdrop Hc IH. pose proof Hb as (Hat & Hv & Hle). pose proof Hat as (_ & _ & _ & _ & Hi1).
  assert (Ha : strs !! Z.to_nat (optind s) = Some ["-"%char; c])
    by (rewrite <- (Nat.add_0_r (Z.to_nat (optind s))), <- lookup_drop; by rewrite Hdrop).
  assert (Hrest : rest = drop (Z.to_nat (optind s + 1)) strs).
  { replace (Z.to_nat (optind s + 1)) with (Z.to_nat (optind s) + 1)%nat by lia.
    by rewrite <- drop_drop, Hdrop. }
  assert (Hlt : optind s < argc) by (apply lookup_lt_Some in Ha; lia).
  assert (Harg : argument strs s ["-"%char; c] (Ptr (Z.to_nat (optind s)) 0))
    by (split_and!; [apply (between_argument s _ ["-"%char; c]); (done || lia)|done|done]).
  rewrite <- (between_length s Hb) in Hlt. pose proof (between_length s Hb) as Hlen.
  assert (Hg := getopt_separate strs env optstring optstring_plain s _ c Hat Hlt Harg (optstring_takes c Hc)).
  rewrite Hlen in Hg.
  assert (c <> "-"%char) by (intros ->; unfold bs in Hc; simpl in Hc; set_solver).
  destruct (Z.leb_spec argc (optind s + 1)).
  - rewrite drop_ge in Hrest by lia. subst rest.
    rewrite (option_loop_ends _ _ _ _ _ Hg) by auto. cbn. by rewrite decide_False.
  - destruct (lookup_lt_is_Some_2 strs (Z.to_nat (optind s + 1))) as [x Hx]; [lia|].
    rewrite (argv_at_Some _ _ (Ptr (Z.to_nat (optind s + 1)) 0)) in Hg
      by (lia || apply (between_argument s _ x Hb); (done || lia)).
    rewrite (option_loop_store _ _ _ _ c _ 0 x Hc Hx ltac:(lia) Hg) by eauto.
    rewrite (drop_S _ _ _ Hx) in Hrest. subst rest. cbn [options_spec]. rewrite decide_False by done.
    destruct (set_option_good c x o Hc) as [o' Ho']. rewrite drop_0, Ho'. simpl.
    rewrite IH by ((apply between_after; (done || lia)) || (cbn; lia)).
    do 2 f_equal. cbn.
    replace (Z.to_nat (optind s + 2)) with (S (Z.to_nat (optind s + 1))) by lia. done.
Qed.

Lemma option_loop_argument fuel s o a rest :
  between s -> drop (Z.to_nat (optind s)) strs = a :: rest ->
  (forall s' o', between s' -> (optind s < optind s') ->
     option_loop fuel strs argc env s' o'
     = Ok (options_spec (drop (Z.to_nat (optind s')) strs) o')) ->
  option_loop (S fuel) strs argc env s o = Ok (options_spec (a :: rest) o).
Proof.
  intros Hb Hdrop IH. pose proof Hb as (Hat & Hv & Hle). pose proof Hat as (_ & _ & _ & _ & Hi1).
  assert (Ha : strs !! Z.to_nat (optind s) = Some a)
    by (rewrite <- (Nat.add_0_r (Z.to_nat (optind s))), <- lookup_drop; by rewrite Hdrop).
  assert (Hrest : rest = drop (Z.to_nat (optind s + 1)) strs).
  { replace (Z.to_nat (optind s + 1)) with (Z.to_nat (optind s) + 1)%nat by lia.
    by rewrite <- drop_drop, Hdrop. }
  assert (Hlt : optind s < argc) by (apply lookup_lt_Some in Ha; lia).
  assert (Ha' : nul_free a) by (eapply Forall_lookup_1; eauto).
  assert (Harg : argument strs s a (Ptr (Z.to_nat (optind s)) 0))
    by (split_and!; [apply (between_argument s _ a); (done || lia)|done|done]).
  rewrite <- (between_length s Hb) in Hlt.
  pose proof (between_length s Hb) as Hlen.
  destruct (decide (a = bs "--")) as [->|Hdd].
  { destruct (getopt_stops strs env s _ _ Hat Hlt Harg Ha') as [s' Hs']; [by right|].
    rewrite Hlen in Hs'. rewrite (option_loop_ends _ _ _ _ _ Hs') by auto.
    by destruct rest. }
  destruct (argument_cases a) as [Hno|(c & v & ->)].
  { destruct (getopt_stops strs env s _ _ Hat Hlt Harg Ha' (or_introl Hno)) as [s' Hs'].
    rewrite Hlen in Hs'. rewrite (option_loop_ends _ _ _ _ _ Hs') by auto.
    by rewrite options_spec_not_option. }
  destruct (decide (c ∈ bs "ipc")) as [Hc|Hc].
  - destruct v as [|d v]; [by apply option_loop_separate|].
    assert (Hg := getopt_attached strs env optstring optstring_plain s _ c d v Hat Hlt Harg
                    ltac:(unfold nul_free in Ha'; set_solver) (optstring_takes c Hc)).
    rewrite Hlen in Hg.
    rewrite (option_loop_store _ _ _ _ c _ 2 _ Hc Ha ltac:(simpl; lia) Hg) by eauto.
    rewrite options_spec_attached. cbn [drop].
    destruct (set_option_good c (d :: v) o Hc) as [o' ->].
    rewrite IH by ((apply between_after; (done || lia)) || (cbn; lia)).
    by rewrite Hrest.
  - assert (c = "-"%char -> v <> []) as Hd by (intros -> ->; by apply Hdd).
    destruct (getopt_bad strs env s _ c v Hat Hlt Harg) as [s' Hs'];
      [unfold nul_free in *; set_solver|done..|].
    rewrite Hlen in Hs'. rewrite (option_loop_ends _ _ _ _ _ Hs') by auto.
    by rewrite options_spec_bad.
Qed.

Lemma option_loop_spec fuel s o :
  between s -> argc - optind s < Z.of_nat fuel ->
  option_loop fuel strs argc env s o = Ok (options_spec (drop (Z.to_nat (optind s)) strs) o).
Proof.
  revert s o; induction fuel as [|fuel IH]; intros s o Hb Hf; [destruct Hb as (_ & _ & ?); lia|].
  destruct (drop (Z.to_nat (optind s)) strs) as [|a rest] eqn:Hd.
  - pose proof (between_length s Hb) as Hlen. destruct Hb as (Hat & _ & Hle).
    pose proof Hat as (_ & _ & _ & _ & Hi1).
    apply (f_equal length) in Hd. rewrite length_drop in Hd; simpl in Hd.
    cbn [option_loop]. rewrite <- Hlen.
    rewrite (getopt_end strs env optstring optstring_plain s Hat) by lia. done.
  - apply option_loop_argument; [done..|]. intros s' o' Hb' Hlt. apply IH; [done|lia].
Qed.
End Loop.

(** ** Properties *)

(** C32: the option loop of [main] reads the command line as specified, for
    every list of C strings: attached and separate arguments, [--], the first
    non-option, unknown letters and missing arguments; it never dereferences a
    null [optarg] and its loop ends. *)
Theorem main_options_correct prog args env :
  Forall nul_free (prog :: args) ->
  main_options (prog :: args) env
  = Ok (if (length args <? 2)%nat then None else options_spec args default_options).
Proof.
  intros Hnf. unfold main_options.
  destruct (Nat.ltb_spec (length args) 2), (Z.ltb_spec (Z.of_nat (length (prog :: args))) 3);
    try (cbn [length] in *; lia); [done|].
  rewrite (option_loop_spec (prog :: args)); [done|done| |cbn; lia].
  unfold between, at_argument; simpl. split_and!; try done; lia.
Qed.

Example main_options_correct_witness :
  main_options [bs "server.exe"; bs "-i10.0.0.1"; bs "-p"; bs "70000"] false
  = Ok (Some (MkOptions (bs "10.0.0.1") 4464 (bs "server.pem"))).
Proof.
  rewrite (main_options_correct (bs "server.exe") [bs "-i10.0.0.1"; bs "-p"; bs "70000"] false).
  - vm_compute; reflexivity.
  - repeat constructor; unfold nul_free, bs; simpl; set_solver.
Defined.
