(* ===== verification/JsonValue.v ===== *)
(** * Json::Value (jsoncpp.cpp, json_value part)

    A value is its payload here; its comments and source offsets, which no
    operation of this file reads, are in JsonNotes.v.  [std::map] is a list of pairs in key
    order.  References returned by [operator[]] are modelled by the value found
    together with the container as it is afterwards, and assignment through
    them by [map_insert]. *)
From Stdlib Require Import ZArith Ascii String Lia SpecFloat.
From stdpp Require Import base tactics list.
From S2P Require Import Prelude CLib CDouble.

#[local] Open Scope Z_scope.

(** ** [std::map] *)

Section OrderedMap.
Context {K V : Type} (lt : K -> K -> bool).

(** [m.find(k)] *)
Fixpoint map_find (k : K) (m : list (K * V)) : option V :=
  match m with
  | [] => None
  | (k', v) :: m => if lt k' k then map_find k m else if lt k k' then None else Some v
  end.

(** [m[k] = v] *)
Fixpoint map_insert (k : K) (v : V) (m : list (K * V)) : list (K * V) :=
  match m with
  | [] => [(k, v)]
  | (k', v') :: m' =>
      if lt k' k then (k', v') :: map_insert k v m'
      else if lt k k' then (k, v) :: m else (k', v) :: m'
  end.

(** [m.erase(k)] *)
Fixpoint map_erase (k : K) (m : list (K * V)) : list (K * V) :=
  match m with
  | [] => []
  | (k', v') :: m' =>
      if lt k' k then (k', v') :: map_erase k m' else if lt k k' then m else m'
  end.

(** Keys in strictly increasing order. *)
Fixpoint map_sorted (m : list (K * V)) : Prop :=
  match m with
  | [] => True
  | (k, _) :: m => Forall (fun kv => lt k kv.1 = true) m /\ map_sorted m
  end.
End OrderedMap.

(** ** Keys *)

(** [memcmp(a, b, n)] on two blocks of at least [n] bytes. *)
Fixpoint memcmp (a b : bytes) (n : nat) : Z :=
  match n, a, b with
  | S n, c :: a, d :: b =>
      if code c <? code d then -1 else if code d <? code c then 1 else memcmp a b n
  | _, _, _ => 0
  end.

(** A [CZString] keeps 30 bits of the length. *)
Definition czstring (k : bytes) : bytes := take (Z.to_nat (Z.land (size k) 1073741823)) k.

Definition czstring_lt (a b : bytes) : bool :=
  let min_len := Nat.min (length a) (length b) in
  let comp := memcmp a b min_len in
  if comp <? 0 then true else if 0 <? comp then false else (length a <? length b)%nat.

Definition czstring_eq (a b : bytes) : bool :=
  if negb (length a =? length b)%nat then false else memcmp a b (length a) =? 0.

(** ** Values *)

Inductive Value :=
  | VNull
  | VInt (z : Z)
  | VUInt (z : Z)
  | VReal (d : double)
  | VString (s : bytes)
  | VBool (b : bool)
  | VArray (m : list (Z * Value))
  | VObject (m : list (bytes * Value)).

(** [ValueType], with the order of the enumeration. *)
Inductive ValueType :=
  | nullValue | intValue | uintValue | realValue | stringValue | booleanValue
  | arrayValue | objectValue.

#[export] Instance ValueType_eq_dec : EqDecision ValueType.
Proof. solve_decision. Defined.

Definition ValueType_int (t : ValueType) : Z :=
  match t with
  | nullValue => 0 | intValue => 1 | uintValue => 2 | realValue => 3
  | stringValue => 4 | booleanValue => 5 | arrayValue => 6 | objectValue => 7
  end.

Definition type (v : Value) : ValueType :=
  match v with
  | VNull => nullValue | VInt _ => intValue | VUInt _ => uintValue | VReal _ => realValue
  | VString _ => stringValue | VBool _ => booleanValue
  | VArray _ => arrayValue | VObject _ => objectValue
  end.

(** [Value(ValueType)] *)
Definition Value_of_type (t : ValueType) : Value :=
  match t with
  | nullValue => VNull
  | intValue => VInt 0
  | uintValue => VUInt 0
  | realValue => VReal (S754_zero false)
  | stringValue => VString []
  | booleanValue => VBool false
  | arrayValue => VArray []
  | objectValue => VObject []
  end.

Definition maxInt : Z := 2 ^ 31 - 1.
Definition minInt : Z := - 2 ^ 31.
Definition maxUInt : Z := 2 ^ 32 - 1.
Definition minInt64 : Z := - 2 ^ 63.
Definition maxInt64 : Z := 2 ^ 63 - 1.
Definition maxUInt64 : Z := 2 ^ 64 - 1.

(** [throwLogicError], as the assertions do. *)
Definition json_assert (b : bool) : outcome () := if b then Ok () else Throw ExLogic.

(** [Value(const String&)]: the length prefix bounds the length. *)
Definition Value_of_string (s : bytes) : outcome Value :=
  _ ← json_assert (size s <=? maxInt - 4 - 1); Ok (VString s).

(** [Value(const char* )] for a C string. *)
Definition Value_of_cstring (s : bytes) : outcome Value := Value_of_string (cstr s).

(** ** Type tests *)

Definition isNull (v : Value) : bool := match v with VNull => true | _ => false end.
Definition isBool (v : Value) : bool := match v with VBool _ => true | _ => false end.
Definition isString (v : Value) : bool := match v with VString _ => true | _ => false end.
Definition isArray (v : Value) : bool := match v with VArray _ => true | _ => false end.
Definition isObject (v : Value) : bool := match v with VObject _ => true | _ => false end.

Definition isDouble (v : Value) : bool :=
  match v with VInt _ | VUInt _ | VReal _ => true | _ => false end.
Definition isNumeric (v : Value) : bool := isDouble v.

Definition isInt (v : Value) : bool :=
  match v with
  | VInt z => (minInt <=? z) && (z <=? maxInt)
  | VUInt z => z <=? maxInt
  | VReal d => InRange d minInt maxInt && IsIntegral d
  | _ => false
  end.

Definition isUInt (v : Value) : bool :=
  match v with
  | VInt z => (0 <=? z) && (z <=? maxUInt)
  | VUInt z => z <=? maxUInt
  | VReal d => InRange d 0 maxUInt && IsIntegral d
  | _ => false
  end.

Definition isInt64 (v : Value) : bool :=
  match v with
  | VInt _ => true
  | VUInt z => z <=? maxInt64
  | VReal d => dle (double_of_Z minInt64) d && dlt d (double_of_Z maxInt64) && IsIntegral d
  | _ => false
  end.

Definition isUInt64 (v : Value) : bool :=
  match v with
  | VInt z => 0 <=? z
  | VUInt _ => true
  | VReal d => dle (double_of_Z 0) d && dlt d (double_of_Z (2 ^ 64)) && IsIntegral d
  | _ => false
  end.

Definition isIntegral (v : Value) : bool :=
  match v with
  | VInt _ | VUInt _ => true
  | VReal d => dle (double_of_Z minInt64) d && dlt d (double_of_Z (2 ^ 64)) && IsIntegral d
  | _ => false
  end.

(** ** Conversions *)

(** [valueToString] for the integer types; [uintToString] writes the digits
    into a buffer from its end. *)
Definition uintToString (value : Z) : bytes := dec_unsigned value.

Definition valueToString_int (value : Z) : bytes :=
  if value =? minInt64 then "-"%char :: uintToString (maxInt64 + 1)
  else if value <? 0 then "-"%char :: uintToString (- value)
  else uintToString value.

Definition valueToString_uint (value : Z) : bytes := uintToString value.

Definition valueToString_bool (b : bool) : bytes := if b then bs "true" else bs "false".

Inductive PrecisionType := significantDigits | decimalPlaces.

(** [fixNumericLocale] *)
Definition fixNumericLocale (s : bytes) : bytes :=
  (fun c => if decide (c = ","%char) then "."%char else c) <$> s.

(** [fixZerosInTheEnd], on the reversed text: drops zeros at the end, keeping
    one behind the point. *)
Fixpoint fixZerosInTheEnd_rev (r : bytes) : bytes :=
  match r with
  | c :: r' =>
      if decide (c <> "0"%char) then r
      else match r' with
           | "."%char :: _ => r
           | _ => fixZerosInTheEnd_rev r'
           end
  | [] => []
  end.

Definition fixZerosInTheEnd (s : bytes) : bytes := rev (fixZerosInTheEnd_rev (rev s)).

(** [valueToString(double, useSpecialFloats, precision, precisionType)] *)
Definition valueToString_double (value : double) (useSpecialFloats : bool) (precision : Z)
    (precisionType : PrecisionType) : bytes :=
  if negb (is_finite value) then
    if useSpecialFloats then
      if is_nan value then bs "NaN"
      else if dlt value (double_of_Z 0) then bs "-Infinity" else bs "Infinity"
    else
      if is_nan value then bs "null"
      else if dlt value (double_of_Z 0) then bs "-1e+9999" else bs "1e+9999"
  else
    let general := match precisionType with significantDigits => true | decimalPlaces => false end in
    let buffer := fixNumericLocale (format_double general precision value) in
    let buffer := match precisionType with
                  | decimalPlaces => fixZerosInTheEnd buffer
                  | significantDigits => buffer
                  end in
    if bool_decide ("."%char ∉ buffer) && bool_decide ("e"%char ∉ buffer)
    then buffer ++ bs ".0" else buffer.

Definition defaultRealPrecision : Z := 17.

Definition asString (v : Value) : outcome bytes :=
  match v with
  | VNull => Ok []
  | VString s => Ok s
  | VBool b => Ok (if b then bs "true" else bs "false")
  | VInt z => Ok (valueToString_int z)
  | VUInt z => Ok (valueToString_uint z)
  | VReal d => Ok (valueToString_double d false defaultRealPrecision significantDigits)
  | VArray _ | VObject _ => Throw ExLogic
  end.

(** [asCString]: the bytes up to the first NUL of [value_.string_]. *)
Definition asCString (v : Value) : outcome bytes :=
  match v with VString s => Ok (cstr s) | _ => Throw ExLogic end.

(** [getString]: [false] and nothing, or the bytes. *)
Definition getString (v : Value) : option bytes :=
  match v with VString s => Some s | _ => None end.

Definition asInt (v : Value) : outcome Z :=
  match v with
  | VInt z | VUInt z => _ ← json_assert (isInt v); Ok z
  | VReal d => _ ← json_assert (InRange d minInt maxInt); double_to_int minInt maxInt d
  | VNull => Ok 0
  | VBool b => Ok (if b then 1 else 0)
  | _ => Throw ExLogic
  end.

Definition asUInt (v : Value) : outcome Z :=
  match v with
  | VInt z | VUInt z => _ ← json_assert (isUInt v); Ok z
  | VReal d => _ ← json_assert (InRange d 0 maxUInt); double_to_int 0 maxUInt d
  | VNull => Ok 0
  | VBool b => Ok (if b then 1 else 0)
  | _ => Throw ExLogic
  end.

Definition asInt64 (v : Value) : outcome Z :=
  match v with
  | VInt z => Ok z
  | VUInt z => _ ← json_assert (isInt64 v); Ok z
  | VReal d => _ ← json_assert (InRange d minInt64 maxInt64); double_to_int minInt64 maxInt64 d
  | VNull => Ok 0
  | VBool b => Ok (if b then 1 else 0)
  | _ => Throw ExLogic
  end.

Definition asUInt64 (v : Value) : outcome Z :=
  match v with
  | VInt z => _ ← json_assert (isUInt64 v); Ok z
  | VUInt z => Ok z
  | VReal d => _ ← json_assert (InRange d 0 maxUInt64); double_to_int 0 maxUInt64 d
  | VNull => Ok 0
  | VBool b => Ok (if b then 1 else 0)
  | _ => Throw ExLogic
  end.

Definition asLargestInt (v : Value) : outcome Z := asInt64 v.
Definition asLargestUInt (v : Value) : outcome Z := asUInt64 v.

Definition asDouble (v : Value) : outcome double :=
  match v with
  | VInt z | VUInt z => Ok (double_of_Z z)
  | VReal d => Ok d
  | VNull => Ok (double_of_Z 0)
  | VBool b => Ok (double_of_Z (if b then 1 else 0))
  | _ => Throw ExLogic
  end.

Definition asFloat (v : Value) : outcome spec_float :=
  match v with
  | VInt z | VUInt z => Ok (binary_normalize 24 128 z 0 false)
  | VReal d => Ok (float_of_double d)
  | VNull => Ok (double_of_Z 0)
  | VBool b => Ok (binary_normalize 24 128 (if b then 1 else 0) 0 false)
  | _ => Throw ExLogic
  end.

Definition asBool (v : Value) : outcome bool :=
  match v with
  | VBool b => Ok b
  | VNull => Ok false
  | VInt z | VUInt z => Ok (negb (z =? 0))
  | VReal d => Ok (negb (is_zero d) && negb (is_nan d))
  | _ => Throw ExLogic
  end.

Definition isConvertibleTo (v : Value) (other : ValueType) : bool :=
  let t := type v in
  let has t' := bool_decide (t = t') in
  let real_in min max := match v with VReal d => InRange d min max | _ => false end in
  match other with
  | nullValue =>
      (isNumeric v && match asDouble v with Ok d => deq d (double_of_Z 0) | _ => false end)
      || match v with
         | VBool b => negb b
         | VString s => bool_decide (s = [])
         | VArray m => bool_decide (length m = 0%nat)
         | VObject m => bool_decide (length m = 0%nat)
         | VNull => true
         | _ => false
         end
  | intValue => isInt v || real_in minInt maxInt || has booleanValue || has nullValue
  | uintValue => isUInt v || real_in 0 maxUInt || has booleanValue || has nullValue
  | realValue => isNumeric v || has booleanValue || has nullValue
  | booleanValue => isNumeric v || has booleanValue || has nullValue
  | stringValue => isNumeric v || has booleanValue || has stringValue || has nullValue
  | arrayValue => has arrayValue || has nullValue
  | objectValue => has objectValue || has nullValue
  end.

(** ** Comparison *)

Fixpoint value_lt (x y : Value) {struct x} : bool :=
  let dt := ValueType_int (type x) - ValueType_int (type y) in
  if negb (dt =? 0) then dt <? 0
  else
    match x, y with
    | VInt a, VInt b | VUInt a, VUInt b => a <? b
    | VReal a, VReal b => dlt a b
    | VBool a, VBool b => negb a && b
    | VString a, VString b => czstring_lt a b
    | VArray a, VArray b =>
        let delta := i32 (Z.of_nat (length a) - Z.of_nat (length b)) in
        if negb (delta =? 0) then delta <? 0
        else
          (fix pairs_lt (a b : list (Z * Value)) {struct a} : bool :=
             match a, b with
             | (i, v) :: a, (j, w) :: b =>
                 if (i <? j) || (negb (j <? i) && value_lt v w) then true
                 else if (j <? i) || (negb (i <? j) && value_gt v w) then false
                 else pairs_lt a b
             | [], _ :: _ => true
             | _, [] => false
             end) a b
    | VObject a, VObject b =>
        let delta := i32 (Z.of_nat (length a) - Z.of_nat (length b)) in
        if negb (delta =? 0) then delta <? 0
        else
          (fix pairs_lt (a b : list (bytes * Value)) {struct a} : bool :=
             match a, b with
             | (i, v) :: a, (j, w) :: b =>
                 if czstring_lt i j || (negb (czstring_lt j i) && value_lt v w) then true
                 else if czstring_lt j i || (negb (czstring_lt i j) && value_gt v w) then false
                 else pairs_lt a b
             | [], _ :: _ => true
             | _, [] => false
             end) a b
    | _, _ => false
    end
(** [y < x], by recursion on [x]. *)
with value_gt (x y : Value) {struct x} : bool :=
  let dt := ValueType_int (type y) - ValueType_int (type x) in
  if negb (dt =? 0) then dt <? 0
  else
    match x, y with
    | VInt a, VInt b | VUInt a, VUInt b => b <? a
    | VReal a, VReal b => dlt b a
    | VBool a, VBool b => negb b && a
    | VString a, VString b => czstring_lt b a
    | VArray a, VArray b =>
        let delta := i32 (Z.of_nat (length b) - Z.of_nat (length a)) in
        if negb (delta =? 0) then delta <? 0
        else
          (fix pairs_gt (a b : list (Z * Value)) {struct a} : bool :=
             match a, b with
             | (i, v) :: a, (j, w) :: b =>
                 if (j <? i) || (negb (i <? j) && value_gt v w) then true
                 else if (i <? j) || (negb (j <? i) && value_lt v w) then false
                 else pairs_gt a b
             | _ :: _, [] => true
             | [], _ => false
             end) a b
    | VObject a, VObject b =>
        let delta := i32 (Z.of_nat (length b) - Z.of_nat (length a)) in
        if negb (delta =? 0) then delta <? 0
        else
          (fix pairs_gt (a b : list (bytes * Value)) {struct a} : bool :=
             match a, b with
             | (i, v) :: a, (j, w) :: b =>
                 if czstring_lt j i || (negb (czstring_lt i j) && value_gt v w) then true
                 else if czstring_lt i j || (negb (czstring_lt j i) && value_lt v w) then false
                 else pairs_gt a b
             | _ :: _, [] => true
             | [], _ => false
             end) a b
    | _, _ => false
    end.

Definition value_le (x y : Value) : bool := negb (value_lt y x).
Definition value_ge (x y : Value) : bool := negb (value_lt x y).
Definition compare (x y : Value) : Z :=
  if value_lt x y then -1 else if value_lt y x then 1 else 0.

Fixpoint value_eq (x y : Value) {struct x} : bool :=
  match x, y with
  | VNull, VNull => true
  | VInt a, VInt b | VUInt a, VUInt b => a =? b
  | VReal a, VReal b => deq a b
  | VBool a, VBool b => Bool.eqb a b
  | VString a, VString b => czstring_eq a b
  | VArray a, VArray b =>
      (length a =? length b)%nat &&
      (fix pairs_eq (a b : list (Z * Value)) {struct a} : bool :=
         match a, b with
         | (i, v) :: a, (j, w) :: b => (i =? j) && value_eq v w && pairs_eq a b
         | _, _ => true
         end) a b
  | VObject a, VObject b =>
      (length a =? length b)%nat &&
      (fix pairs_eq (a b : list (bytes * Value)) {struct a} : bool :=
         match a, b with
         | (i, v) :: a, (j, w) :: b => czstring_eq i j && value_eq v w && pairs_eq a b
         | _, _ => true
         end) a b
  | _, _ => false
  end.

(** ** Arrays and objects *)

Abbreviation array_find := (map_find Z.ltb).
Abbreviation array_insert := (map_insert Z.ltb).
Abbreviation array_erase := (map_erase Z.ltb).
Abbreviation object_find := (map_find czstring_lt).
Abbreviation object_insert := (map_insert czstring_lt).
Abbreviation object_erase := (map_erase czstring_lt).

(** [size()]; of an array, the highest index plus one. *)
Definition value_size (v : Value) : Z :=
  match v with
  | VArray m => match last m with Some (i, _) => u32 (i + 1) | None => 0 end
  | VObject m => u32 (Z.of_nat (length m))
  | _ => 0
  end.

Definition value_empty (v : Value) : bool :=
  if isNull v || isArray v || isObject v then value_size v =? 0 else false.

Definition clear (v : Value) : outcome Value :=
  match v with
  | VNull => Ok VNull
  | VArray _ => Ok (VArray [])
  | VObject _ => Ok (VObject [])
  | _ => Throw ExLogic
  end.

(** [value[index]]: the element and the array with it. *)
Definition index_ref (v : Value) (index : Z) : outcome (Value * Value) :=
  _ ← json_assert (isNull v || isArray v);
  let m := match v with VArray m => m | _ => [] end in
  match array_find index m with
  | Some w => Ok (w, VArray m)
  | None => Ok (VNull, VArray (array_insert index VNull m))
  end.

(** [value[int]] *)
Definition index_ref_int (v : Value) (index : Z) : outcome (Value * Value) :=
  _ ← json_assert (0 <=? index); index_ref v index.

(** [value[index]] on a [const] value: the null singleton when it is missing. *)
Definition index_const (v : Value) (index : Z) : outcome Value :=
  _ ← json_assert (isNull v || isArray v);
  match v with
  | VArray m => Ok (default VNull (array_find index m))
  | _ => Ok VNull
  end.

Definition index_const_int (v : Value) (index : Z) : outcome Value :=
  _ ← json_assert (0 <=? index); index_const v index.

(** [value[index] = w] *)
Definition index_set (v : Value) (index : Z) (w : Value) : outcome Value :=
  '(_, v) ← index_ref v index;
  match v with VArray m => Ok (VArray (array_insert index w m)) | v => Ok v end.

(** [get(index, defaultValue)] *)
Definition get_index (v : Value) (index : Z) (defaultValue : Value) : outcome Value :=
  _ ← json_assert (isNull v || isArray v);
  match v with
  | VArray m => Ok (default defaultValue (array_find index m))
  | _ => Ok defaultValue
  end.

Definition isValidIndex (v : Value) (index : Z) : bool := index <? value_size v.

Definition append (v w : Value) : outcome Value := index_set v (value_size v) w.

(** The erasing loop of [resize], from [index]. *)
Fixpoint resize_loop (n : nat) (index : Z) (m : list (Z * Value)) : list (Z * Value) :=
  match n with
  | O => m
  | S n => resize_loop n (index + 1) (array_erase index m)
  end.

Definition resize (v : Value) (newSize : Z) : outcome Value :=
  _ ← json_assert (isNull v || isArray v);
  let v := match v with VNull => VArray [] | v => v end in
  let oldSize := value_size v in
  if newSize =? 0 then clear v
  else if oldSize <? newSize then '(_, v) ← index_ref v (newSize - 1); Ok v
  else
    match v with
    | VArray m =>
        let v := VArray (resize_loop (Z.to_nat (oldSize - newSize)) newSize m) in
        _ ← json_assert (value_size v =? newSize); Ok v
    | v => Ok v
    end.

(** The shifting loop of [removeIndex]: [value[i] = value[i + 1]]. *)
Fixpoint shift_loop (n : nat) (i : Z) (m : list (Z * Value)) : list (Z * Value) :=
  match n with
  | O => m
  | S n =>
      let '(w, m) := match array_find (i + 1) m with
                     | Some w => (w, m)
                     | None => (VNull, array_insert (i + 1) VNull m)
                     end in
      shift_loop n (i + 1) (array_insert i w m)
  end.

(** [removeIndex]: the removed element, if any, and the value left. *)
Definition removeIndex (v : Value) (index : Z) : option Value * Value :=
  match v with
  | VArray m =>
      match array_find index m with
      | None => (None, v)
      | Some removed =>
          let oldSize := value_size v in
          let m := shift_loop (Z.to_nat (oldSize - 1 - index)) index m in
          (Some removed, VArray (array_erase (oldSize - 1) m))
      end
  | _ => (None, v)
  end.

(** [resolveReference(key, end)]: the member and the object with it. *)
Definition resolveReference (v : Value) (key : bytes) : outcome (Value * Value) :=
  _ ← json_assert (isNull v || isObject v);
  let m := match v with VObject m => m | _ => [] end in
  let key := czstring key in
  match object_find key m with
  | Some w => Ok (w, VObject m)
  | None => Ok (VNull, VObject (object_insert key VNull m))
  end.

(** [demand] *)
Definition demand (v : Value) (key : bytes) : outcome (Value * Value) :=
  _ ← json_assert (isNull v || isObject v); resolveReference v key.

(** [value[key] = w] for a [String] key. *)
Definition member_set (v : Value) (key : bytes) (w : Value) : outcome Value :=
  '(_, v) ← resolveReference v key;
  match v with
  | VObject m => Ok (VObject (object_insert (czstring key) w m))
  | v => Ok v
  end.

(** [find(begin, end)] *)
Definition find (v : Value) (key : bytes) : outcome (option Value) :=
  _ ← json_assert (isNull v || isObject v);
  match v with VObject m => Ok (object_find (czstring key) m) | _ => Ok None end.

(** [value[key]] on a [const] value. *)
Definition member_const (v : Value) (key : bytes) : outcome Value :=
  r ← find v key; Ok (default VNull r).

(** [value[key]] where the reference is only read: the value found, and the
    object in which a missing member has become null. *)
Definition member_ref (v : Value) (key : bytes) : outcome (Value * Value) :=
  resolveReference v key.

Definition get_member (v : Value) (key : bytes) (defaultValue : Value) : outcome Value :=
  r ← find v key; Ok (default defaultValue r).

Definition isMember (v : Value) (key : bytes) : outcome bool :=
  r ← find v key; Ok (bool_decide (is_Some r)).

(** [removeMember(key, removed)] *)
Definition removeMember (v : Value) (key : bytes) : option Value * Value :=
  match v with
  | VObject m =>
      match object_find (czstring key) m with
      | None => (None, v)
      | Some removed => (Some removed, VObject (object_erase (czstring key) m))
      end
  | _ => (None, v)
  end.

(** [removeMember(const char* )] *)
Definition removeMember_cstring (v : Value) (key : bytes) : outcome Value :=
  _ ← json_assert (isNull v || isObject v);
  match v with
  | VObject m => Ok (VObject (object_erase (czstring (cstr key)) m))
  | v => Ok v
  end.

Definition getMemberNames (v : Value) : outcome (list bytes) :=
  _ ← json_assert (isNull v || isObject v);
  match v with VObject m => Ok m.*1 | _ => Ok [] end.

(** ** Well-formed values

    Integers in their range, strings that fit their length prefix, maps sorted
    by key, indices for which [size()] does not wrap and keys that keep their
    whole length. *)
Fixpoint wf_value (v : Value) : Prop :=
  match v with
  | VInt z => minInt64 <= z <= maxInt64
  | VUInt z => 0 <= z <= maxUInt64
  | VString s => size s <= maxInt - 5
  | VArray m =>
      map_sorted Z.ltb m /\ foldr (fun kv P => (0 <= kv.1 < 2 ^ 32 - 1 /\ wf_value kv.2) /\ P) True m
  | VObject m =>
      map_sorted czstring_lt m /\
      foldr (fun kv P => (size kv.1 < 2 ^ 30 /\ wf_value kv.2) /\ P) True m
  | _ => True
  end.

(** The array whose elements are those of a list. *)
Definition array_pairs (i : Z) (l : list Value) : list (Z * Value) :=
  imap (fun n v => (i + Z.of_nat n, v)) l.
Definition array_of (l : list Value) : Value := VArray (array_pairs 0 l).
