(* ===== verification/JsonNotes.v ===== *)
(** * Comments and offsets of a Json::Value (jsoncpp.cpp, json_value part)

    Beside its payload a [Json::Value] has its comments and the offsets of the
    text it was read from.  The values inside a value are nodes of maps, which do
    not move; the address of one is the steps that lead to it, the innermost
    first.  The notes of a tree of values are a map from these places; a value
    the map does not know has what [initBasic] gives it. *)
From Stdlib Require Import ZArith Ascii String Lia.
From stdpp Require Import base tactics list gmap strings.
From S2P Require Import Prelude CLib JsonValue.

#[local] Open Scope Z_scope.

(** ** Comments *)

Inductive CommentPlacement := commentBefore | commentAfterOnSameLine | commentAfter.

#[export] Instance CommentPlacement_eq_dec : EqDecision CommentPlacement.
Proof. solve_decision. Defined.

(** [Comments::Array]; the strings of a new one are empty. *)
Record CommentArray := MkCommentArray { slot_before : bytes; slot_same_line : bytes; slot_after : bytes }.

Definition comment_slot (slot : CommentPlacement) (a : CommentArray) : bytes :=
  match slot with
  | commentBefore => slot_before a
  | commentAfterOnSameLine => slot_same_line a
  | commentAfter => slot_after a
  end.

Definition set_comment_slot (slot : CommentPlacement) (c : bytes) (a : CommentArray) : CommentArray :=
  match slot with
  | commentBefore => MkCommentArray c (slot_same_line a) (slot_after a)
  | commentAfterOnSameLine => MkCommentArray (slot_before a) c (slot_after a)
  | commentAfter => MkCommentArray (slot_before a) (slot_same_line a) c
  end.

(** [ptr_], null until the first comment is set. *)
Definition Comments : Type := option CommentArray.

Definition comments_has (slot : CommentPlacement) (c : Comments) : bool :=
  match c with Some a => negb (bool_decide (comment_slot slot a = [])) | None => false end.

Definition comments_get (slot : CommentPlacement) (c : Comments) : bytes :=
  match c with Some a => comment_slot slot a | None => [] end.

Definition comments_set (slot : CommentPlacement) (comment : bytes) (c : Comments) : Comments :=
  Some (set_comment_slot slot comment (default (MkCommentArray [] [] []) c)).

(** What [setComment] stores: the comment without a newline at its end, if it
    is one. *)
Definition comment_text (comment : bytes) : outcome bytes :=
  let comment := match last comment with
                 | Some c => if decide (c = LF) then removelast comment else comment
                 | None => comment
                 end in
  _ ← json_assert (negb (bool_decide (comment = [])));
  _ ← json_assert (match comment with
                   | c :: _ => bool_decide (c = NUL) || bool_decide (c = "/"%char)
                   | [] => true
                   end);
  Ok comment.

(** ** Notes *)

(** [comments_], [start_] and [limit_]. *)
Record Meta := MkMeta { comments_ : Comments; meta_start : Z; meta_limit : Z }.

Definition new_Meta : Meta := MkMeta None 0 0.

(** A step into a value. *)
Inductive Step := Member (name : bytes) | Element (index : Z).

#[export] Instance Step_eq_dec : EqDecision Step.
Proof. solve_decision. Defined.

#[export] Instance Step_countable : Countable Step.
Proof.
  refine (inj_countable' (fun k => match k with Member name => inl name | Element index => inr index end)
            (fun x => match x with inl name => Member name | inr index => Element index end) _).
  by intros [].
Defined.

Abbreviation Place := (list Step).
Abbreviation Notes := (gmap Place Meta).

(** Whether [q] is a place inside the value at [p]. *)
Definition below (p q : Place) : bool :=
  (length p <? length q)%nat && bool_decide (drop (length q - length p) q = p).

Definition meta_at (p : Place) (n : Notes) : Meta := default new_Meta (n !! p).

Definition set_meta (p : Place) (m : Meta) (n : Notes) : Notes := <[p := m]> n.

(** [setComment] on the value at [p]. *)
Definition setComment (p : Place) (comment : bytes) (placement : CommentPlacement) (n : Notes)
  : outcome Notes :=
  comment ← comment_text comment;
  let m := meta_at p n in
  Ok (set_meta p (MkMeta (comments_set placement comment (comments_ m)) (meta_start m) (meta_limit m)) n).

Definition hasComment (p : Place) (placement : CommentPlacement) (n : Notes) : bool :=
  comments_has placement (comments_ (meta_at p n)).

Definition getComment (p : Place) (placement : CommentPlacement) (n : Notes) : bytes :=
  comments_get placement (comments_ (meta_at p n)).

Definition setOffsetStart (p : Place) (start : Z) (n : Notes) : Notes :=
  let m := meta_at p n in set_meta p (MkMeta (comments_ m) start (meta_limit m)) n.

Definition setOffsetLimit (p : Place) (limit : Z) (n : Notes) : Notes :=
  let m := meta_at p n in set_meta p (MkMeta (comments_ m) (meta_start m) limit) n.

Definition getOffsetStart (p : Place) (n : Notes) : Z := meta_start (meta_at p n).
Definition getOffsetLimit (p : Place) (n : Notes) : Z := meta_limit (meta_at p n).

(** What [swapPayload] with a new value leaves: the value at [p] keeps its
    notes, the values it had inside are gone. *)
Definition drop_below (p : Place) (n : Notes) : Notes := filter (fun '(q, _) => below p q = false) n.

(** ** Whole values *)

Module Noted.

Record NotedValue := MkNoted { payload : Value; notes : Notes }.

(** [initBasic] and a payload of one's own. *)
Definition new_Noted (v : Value) : NotedValue := MkNoted v ∅.

(** [swap] and [swapPayload]: both values afterwards. *)
Definition swap (a b : NotedValue) : NotedValue * NotedValue := (b, a).

(** The notes of the value itself with the notes of what is inside another. *)
Definition own_and_inner (own inner : Notes) : Notes :=
  partial_alter (fun _ => own !! []) [] inner.

Definition swapPayload (a b : NotedValue) : NotedValue * NotedValue :=
  (MkNoted (payload b) (own_and_inner (notes a) (notes b)),
   MkNoted (payload a) (own_and_inner (notes b) (notes a))).

(** [copyPayload] and [copy] from [other], of which a copy is made. *)
Definition copyPayload (a other : NotedValue) : NotedValue :=
  MkNoted (payload other) (own_and_inner (notes a) (notes other)).

Definition dupMeta (a other : NotedValue) : NotedValue :=
  MkNoted (payload a) (own_and_inner (notes other) (notes a)).

Definition copy (a other : NotedValue) : NotedValue := dupMeta (copyPayload a other) other.

(** [clear] on the value itself. *)
Definition clear (a : NotedValue) : outcome NotedValue :=
  v ← JsonValue.clear (payload a);
  Ok (MkNoted v (drop_below [] (setOffsetLimit [] 0 (setOffsetStart [] 0 (notes a))))).

(** A copy has everything the original has. *)
Lemma copy_is_equal a other : copy a other = other.
Proof.
  unfold copy, dupMeta, copyPayload, own_and_inner. destruct other as [v n]; cbn. f_equal.
  apply map_eq. intros [|k p]; [by rewrite lookup_partial_alter_eq|].
  by rewrite !lookup_partial_alter_ne.
Qed.
End Noted.
