(* ===== verification/JsonNoted.v ===== *)
(** * Values with their comments and offsets (jsoncpp.cpp, json_value part)

    The operations of JsonValue.v that put values into a value or take them out,
    with the notes of all of them: a value that moves takes its notes along. *)
From Stdlib Require Import ZArith Ascii String Lia.
From stdpp Require Import base tactics list gmap.
From S2P Require Import Prelude CLib JsonValue JsonNotes.

#[local] Open Scope Z_scope.

(** ** The notes of a value inside another *)

(** The place of the value at [k], and of what is inside it, seen from that
    value. *)
Definition from_child (k : Step) (q : Place) : option Place :=
  match last q with Some k' => if decide (k' = k) then Some (removelast q) else None | None => None end.

Definition inner (k : Step) (n : Notes) : Notes :=
  list_to_map (omap (fun '(q, m) => (fun r => (r, m)) <$> from_child k q) (map_to_list n)).

(** The notes without those of the value at [k]. *)
Definition without (k : Step) (n : Notes) : Notes := filter (fun '(q, _) => last q <> Some k) n.

(** The notes with those of another value at [k]. *)
Definition graft (k : Step) (child n : Notes) : Notes := kmap (fun r => r ++ [k]) child ∪ without k n.

#[export] Instance snoc_inj (k : Step) : Inj eq eq (fun r : Place => r ++ [k]).
Proof. intros r1 r2 E. by apply app_inj_tail in E as [? _]. Qed.

Lemma from_child_snoc k q r : from_child k q = Some r <-> q = r ++ [k].
Proof.
  unfold from_child. split.
  - destruct q as [|x q _] using rev_ind; [done|]. rewrite last_snoc. case_decide; [|done].
    subst. rewrite removelast_last. by intros [= ->].
  - intros ->. by rewrite last_snoc, decide_True, removelast_last.
Qed.

Lemma inner_lookup k n r : inner k n !! r = n !! (r ++ [k]).
Proof.
  apply option_eq. intros m. unfold inner. rewrite <- elem_of_list_to_map.
  - rewrite list_elem_of_omap. split.
    + intros ([q m'] & Hin & E). apply elem_of_map_to_list in Hin.
      destruct (from_child k q) as [r'|] eqn:Eq; [|done]. cbn in E. injection E as -> ->.
      apply from_child_snoc in Eq as ->. done.
    + intros E. exists (r ++ [k], m). split; [by apply elem_of_map_to_list|].
      by rewrite (proj2 (from_child_snoc k (r ++ [k]) r) eq_refl).
  - pose proof (NoDup_fst_map_to_list n) as Hn. revert Hn. generalize (map_to_list n). intros l.
    induction l as [|[q m'] l IH]; [constructor|]. cbn [fmap list_fmap fst]. intros [Hq Hl]%NoDup_cons.
    cbn [omap list_omap]. destruct (from_child k q) as [r'|] eqn:Eq; cbn; [|by apply IH].
    apply NoDup_cons. split; [|by apply IH]. intros Hin. apply Hq. apply list_elem_of_fmap in Hin as ([r2 m2] & -> & Hin).
    apply list_elem_of_omap in Hin as ([q2 m3] & Hin & E2). destruct (from_child k q2) as [r3|] eqn:Eq2; [|done].
    cbn in E2. injection E2 as -> ->. apply from_child_snoc in Eq as ->. apply from_child_snoc in Eq2 as ->.
    apply list_elem_of_fmap. by exists (r2 ++ [k], m2).
Qed.

Lemma without_lookup k n q : without k n !! q = if decide (last q = Some k) then None else n !! q.
Proof.
  unfold without. rewrite map_lookup_filter. destruct (n !! q) as [m|]; cbn; case_decide; try done.
  - by rewrite option_guard_False by tauto.
  - by rewrite option_guard_True.
Qed.

Lemma graft_lookup k child n q :
  graft k child n !! q = match from_child k q with Some r => child !! r | None => n !! q end.
Proof.
  unfold graft. destruct (from_child k q) as [r|] eqn:E.
  - apply from_child_snoc in E as ->. pose proof (lookup_kmap (fun r : Place => r ++ [k]) child r) as Ek.
    cbn beta in Ek. rewrite lookup_union, Ek.
    rewrite without_lookup, last_snoc, decide_True by done. by destruct (child !! r).
  - assert (last q <> Some k) as Hq.
    { intros Hq. unfold from_child in E. by rewrite Hq, decide_True in E. }
    rewrite lookup_union_r; [by rewrite without_lookup, decide_False|].
    apply lookup_kmap_None; [apply _|]. intros r ->. by rewrite last_snoc in Hq.
Qed.

(** ** The operations *)

(** A null value is replaced by an empty array or object, with new notes. *)
Definition notes_of_container (a : Noted.NotedValue) : Notes :=
  if isNull (Noted.payload a) then ∅ else Noted.notes a.

Definition noted_child (k : Step) (w : Value) (n : Notes) : Noted.NotedValue := Noted.MkNoted w (inner k n).

(** [value[index]] and [value[index] = w]; the notes know nothing of an element
    that is missing. *)
Definition noted_index_ref (a : Noted.NotedValue) (index : Z)
  : outcome (Noted.NotedValue * Noted.NotedValue) :=
  '(w, v) ← index_ref (Noted.payload a) index;
  let n := notes_of_container a in
  Ok (noted_child (Element index) w n, Noted.MkNoted v n).

Definition noted_index_set (a : Noted.NotedValue) (index : Z) (w : Noted.NotedValue)
  : outcome Noted.NotedValue :=
  v ← index_set (Noted.payload a) index (Noted.payload w);
  Ok (Noted.MkNoted v (graft (Element index) (Noted.notes w) (notes_of_container a))).

Definition noted_append (a w : Noted.NotedValue) : outcome Noted.NotedValue :=
  noted_index_set a (value_size (Noted.payload a)) w.

(** [resize] erases the last elements. *)
Fixpoint erase_notes (n : nat) (index : Z) (notes : Notes) : Notes :=
  match n with
  | O => notes
  | S n => erase_notes n (index + 1) (without (Element index) notes)
  end.

Definition noted_resize (a : Noted.NotedValue) (newSize : Z) : outcome Noted.NotedValue :=
  v ← resize (Noted.payload a) newSize;
  let n := notes_of_container a in
  let oldSize := value_size (Noted.payload a) in
  if newSize =? 0 then
    Ok (Noted.MkNoted v (drop_below [] (setOffsetLimit [] 0 (setOffsetStart [] 0 n))))
  else if oldSize <? newSize then Ok (Noted.MkNoted v n)
  else Ok (Noted.MkNoted v (erase_notes (Z.to_nat (oldSize - newSize)) newSize n)).

(** [removeIndex] copies every element behind over the one in front of it. *)
Fixpoint shift_notes (n : nat) (i : Z) (notes : Notes) : Notes :=
  match n with
  | O => notes
  | S n => shift_notes n (i + 1) (graft (Element i) (inner (Element (i + 1)) notes) notes)
  end.

Definition noted_removeIndex (a : Noted.NotedValue) (index : Z)
  : option Noted.NotedValue * Noted.NotedValue :=
  match removeIndex (Noted.payload a) index with
  | (None, _) => (None, a)
  | (Some w, v) =>
      let oldSize := value_size (Noted.payload a) in
      let n := shift_notes (Z.to_nat (oldSize - 1 - index)) index (Noted.notes a) in
      (Some (noted_child (Element index) w (Noted.notes a)),
       Noted.MkNoted v (without (Element (oldSize - 1)) n))
  end.

(** [value[key]] and [value[key] = w] *)
Definition noted_resolveReference (a : Noted.NotedValue) (key : bytes)
  : outcome (Noted.NotedValue * Noted.NotedValue) :=
  '(w, v) ← resolveReference (Noted.payload a) key;
  let n := notes_of_container a in
  Ok (noted_child (Member (czstring key)) w n, Noted.MkNoted v n).

Definition noted_member_set (a : Noted.NotedValue) (key : bytes) (w : Noted.NotedValue)
  : outcome Noted.NotedValue :=
  v ← member_set (Noted.payload a) key (Noted.payload w);
  Ok (Noted.MkNoted v (graft (Member (czstring key)) (Noted.notes w) (notes_of_container a))).

Definition noted_removeMember (a : Noted.NotedValue) (key : bytes)
  : option Noted.NotedValue * Noted.NotedValue :=
  match removeMember (Noted.payload a) key with
  | (None, _) => (None, a)
  | (Some w, v) =>
      let k := Member (czstring key) in
      (Some (noted_child k w (Noted.notes a)), Noted.MkNoted v (without k (Noted.notes a)))
  end.

(** ** What becomes of the notes *)

Lemma inner_graft k k' child n :
  inner k (graft k' child n) = if decide (k = k') then child else inner k n.
Proof.
  apply map_eq. intros r. rewrite inner_lookup, graft_lookup. case_decide as E.
  - subst k'. by rewrite (proj2 (from_child_snoc k _ r) eq_refl).
  - rewrite inner_lookup. unfold from_child. by rewrite last_snoc, decide_False.
Qed.

Lemma inner_without k k' n : inner k (without k' n) = if decide (k = k') then ∅ else inner k n.
Proof.
  apply map_eq. intros r. rewrite inner_lookup, without_lookup, last_snoc. do 2 case_decide; try congruence.
  - by rewrite lookup_empty.
  - by rewrite inner_lookup.
Qed.

Lemma graft_own k child n : graft k child n !! [] = n !! [].
Proof. by rewrite graft_lookup. Qed.

Lemma without_own k n : without k n !! [] = n !! [].
Proof. by rewrite without_lookup, decide_False. Qed.

(** An assigned value is read back with its notes; the others keep theirs. *)
Lemma noted_index_set_get a i w a' :
  noted_index_set a i w = Ok a' ->
  inner (Element i) (Noted.notes a') = Noted.notes w /\
  forall k, k <> Element i -> inner k (Noted.notes a') = inner k (notes_of_container a).
Proof.
  unfold noted_index_set. destruct (index_set _ _ _); run; [|done..]. intros [= <-]. cbn [Noted.notes].
  split; [by rewrite inner_graft, decide_True|]. intros k Hk. by rewrite inner_graft, decide_False.
Qed.

Lemma shift_notes_inner n i notes j :
  inner (Element j) (shift_notes n i notes)
  = if (i <=? j) && (j <? i + Z.of_nat n) then inner (Element (j + 1)) notes else inner (Element j) notes.
Proof.
  revert i notes; induction n as [|n IH]; intros i notes; cbn [shift_notes].
  - destruct (Z.leb_spec i j), (Z.ltb_spec j (i + Z.of_nat 0)); try done. lia.
  - rewrite IH, !inner_graft.
    destruct (Z.leb_spec i j), (Z.leb_spec (i + 1) j), (Z.ltb_spec j (i + 1 + Z.of_nat n)),
      (Z.ltb_spec j (i + Z.of_nat (S n))); cbn [andb]; repeat (case_decide; simplify_eq); try done; try lia.
    all: by assert (j = i) as -> by lia.
Qed.

Lemma shift_notes_own n i notes : shift_notes n i notes !! [] = notes !! [].
Proof. revert i notes; induction n as [|n IH]; intros i notes; cbn [shift_notes]; [done|]. by rewrite IH, graft_own. Qed.

(** [removeIndex] hands out the element with its notes, moves the notes of each
    later element along with it, and leaves the array's own. *)
Lemma noted_removeIndex_moves a i w a' :
  noted_removeIndex a i = (Some w, a') -> 0 <= i < value_size (Noted.payload a) ->
  Noted.notes w = inner (Element i) (Noted.notes a) /\ Noted.notes a' !! [] = Noted.notes a !! [] /\
  forall j, 0 <= j < value_size (Noted.payload a) - 1 ->
    inner (Element j) (Noted.notes a') = inner (Element (if j <? i then j else j + 1)) (Noted.notes a).
Proof.
  unfold noted_removeIndex. destruct (removeIndex _ _) as [[x|] v]; [|done]. intros [= <- <-] Hi. cbn [Noted.notes noted_child].
  split_and!; [done|by rewrite without_own, shift_notes_own|]. intros j Hj.
  rewrite inner_without, decide_False by (intros [= ?]; lia). rewrite shift_notes_inner.
  destruct (Z.ltb_spec j i), (Z.leb_spec i j), (Z.ltb_spec j (i + Z.of_nat (Z.to_nat (value_size (Noted.payload a) - 1 - i))));
    cbn [andb]; done || lia.
Qed.
