(* ===== verification/JsonValueProofs.v ===== *)
(** * Objects and arrays are ordered maps, and their operations keep them so *)
From Stdlib Require Import ZArith Ascii String Lia SpecFloat.
From stdpp Require Import base tactics list.
From S2P Require Import Prelude CLib CDouble JsonValue.

#[local] Open Scope Z_scope.

(** ** Strict total orders as boolean functions *)

Class KeyOrder {K} (lt : K -> K -> bool) := {
  key_irrefl : forall a, lt a a = false;
  key_trans : forall a b c, lt a b = true -> lt b c = true -> lt a c = true;
  key_total : forall a b, lt a b = false -> lt b a = false -> a = b
}.

#[export] Instance index_order : KeyOrder Z.ltb.
Proof.
  split; intros; repeat match goal with
  | H : (_ <? _) = true |- _ => apply Z.ltb_lt in H
  | H : (_ <? _) = false |- _ => apply Z.ltb_ge in H
  end; [apply Z.ltb_irrefl|apply Z.ltb_lt; lia|lia].
Qed.

Lemma code_inj c d : code c = code d -> c = d.
Proof.
  unfold code; intros H. apply N2Z.inj in H.
  rewrite <- (ascii_N_embedding c), <- (ascii_N_embedding d). by rewrite H.
Qed.

Lemma code_range c : 0 <= code c < 256.
Proof. unfold code. pose proof (N_ascii_bounded c). lia. Qed.

(** The lexicographic order the [CZString] comparison computes. *)
Fixpoint lex_lt (a b : bytes) : bool :=
  match a, b with
  | [], [] => false
  | [], _ :: _ => true
  | _ :: _, [] => false
  | c :: a, d :: b => (code c <? code d) || ((code c =? code d) && lex_lt a b)
  end.

Lemma czstring_lt_lex a b : czstring_lt a b = lex_lt a b.
Proof.
  unfold czstring_lt; revert b; induction a as [|c a IH]; intros [|d b]; [done..|].
  cbn [length Nat.min memcmp lex_lt].
  destruct (Z.ltb_spec (code c) (code d)); [done|].
  destruct (Z.ltb_spec (code d) (code c)).
  - destruct (Z.eqb_spec (code c) (code d)); [lia|done].
  - destruct (Z.eqb_spec (code c) (code d)); [|lia]. cbn [orb andb]. rewrite <- IH. done.
Qed.

#[export] Instance czstring_order : KeyOrder czstring_lt.
Proof.
  split.
  - intros a; rewrite czstring_lt_lex. induction a as [|c a IH]; [done|]; simpl.
    by rewrite Z.ltb_irrefl, Z.eqb_refl, IH.
  - intros a b c; rewrite !czstring_lt_lex. revert b c.
    induction a as [|x a IH]; intros [|y b] [|z c]; simpl; try done.
    intros H1 H2. specialize (IH b c).
    destruct (Z.ltb_spec (code x) (code y)), (Z.ltb_spec (code y) (code z)),
      (Z.eqb_spec (code x) (code y)), (Z.eqb_spec (code y) (code z)),
      (Z.ltb_spec (code x) (code z)), (Z.eqb_spec (code x) (code z)); simpl in *; try lia; auto.
  - intros a b; rewrite !czstring_lt_lex. revert b.
    induction a as [|x a IH]; intros [|y b]; simpl; try done.
    destruct (Z.ltb_spec (code x) (code y)), (Z.eqb_spec (code x) (code y)),
      (Z.ltb_spec (code y) (code x)), (Z.eqb_spec (code y) (code x)); simpl; try lia; try done.
    intros H1 H2. f_equal; [by apply code_inj|by apply IH].
Qed.

(** ** Ordered maps *)

Section Maps.
Context {K V : Type} (lt : K -> K -> bool) `{!KeyOrder lt}.

Abbreviation find := (map_find lt).
Abbreviation insert := (map_insert lt).
Abbreviation erase := (map_erase lt).
Abbreviation sorted := (map_sorted lt).

Lemma lt_asym a b : lt a b = true -> lt b a = false.
Proof.
  intros H; destruct (lt b a) eqn:E; [|done].
  pose proof (key_trans _ _ _ H E) as X; by rewrite key_irrefl in X.
Qed.

Lemma lt_neq a b : lt a b = true -> a <> b.
Proof. intros H ->. by rewrite key_irrefl in H. Qed.

Lemma key_cases a b : lt a b = true \/ (a = b /\ lt a b = false) \/ (lt b a = true /\ lt a b = false).
Proof.
  destruct (lt a b) eqn:E; [by left|]. destruct (lt b a) eqn:E'; [by auto|].
  right; left; split; [by apply key_total|done].
Qed.

(** Finds nothing below the first key. *)
Lemma find_below k (m : list (K * V)) : Forall (fun kv => lt k kv.1 = true) m -> find k m = None.
Proof.
  destruct m as [|[k' v'] m]; [done|]. intros H. apply Forall_cons in H as [H _]; simpl in *.
  by rewrite (lt_asym _ _ H), H.
Qed.

Lemma Forall_lt_trans k k' (m : list (K * V)) :
  lt k k' = true -> Forall (fun kv => lt k' kv.1 = true) m -> Forall (fun kv => lt k kv.1 = true) m.
Proof. intros H Hf. eapply Forall_impl; [exact Hf|]. intros kv Hkv. by eapply key_trans. Qed.

Lemma insert_keys k v (m : list (K * V)) k0 :
  lt k0 k = true -> Forall (fun kv => lt k0 kv.1 = true) m ->
  Forall (fun kv => lt k0 kv.1 = true) (insert k v m).
Proof.
  intros Hk. induction m as [|[k' v'] m IH]; simpl; intros Hm; [by constructor|].
  apply Forall_cons in Hm as [H1 H2]; simpl in H1.
  destruct (lt k' k); [constructor; [done|by apply IH]|].
  destruct (lt k k'); repeat (constructor; [done|]); done.
Qed.

Lemma insert_sorted k v (m : list (K * V)) : sorted m -> sorted (insert k v m).
Proof.
  induction m as [|[k' v'] m IH]; simpl; [by repeat constructor|]. intros [Hf Hs].
  destruct (key_cases k' k) as [H|[[-> H]|[H H']]].
  - rewrite H. simpl. split; [by apply insert_keys|by apply IH].
  - by rewrite H.
  - rewrite H', H. simpl. split; [|done]. constructor; [done|]. by eapply Forall_lt_trans.
Qed.

Lemma find_insert_eq k v (m : list (K * V)) : sorted m -> find k (insert k v m) = Some v.
Proof.
  induction m as [|[k' v'] m IH]; simpl; [by rewrite key_irrefl|]. intros [Hf Hs].
  destruct (key_cases k' k) as [H|[[-> H]|[H H']]].
  - rewrite H. simpl. rewrite H. by apply IH.
  - rewrite H. simpl. by rewrite H.
  - rewrite H', H. simpl. by rewrite key_irrefl.
Qed.

Lemma find_insert_ne k k0 v (m : list (K * V)) :
  k <> k0 -> sorted m -> find k0 (insert k v m) = find k0 m.
Proof.
  intros Hne. induction m as [|[k' v'] m IH]; simpl.
  - intros _. destruct (key_cases k k0) as [->|[[? _]|[H ->]]]; [done|done|by rewrite H].
  - intros [Hf Hs]. destruct (key_cases k' k) as [H|[[-> H]|[H H']]].
    + rewrite H. simpl. destruct (lt k' k0); [by apply IH|done].
    + rewrite H. simpl. destruct (key_cases k k0) as [->|[[? _]|[-> ->]]]; [done|done|done].
    + rewrite H', H. simpl.
      destruct (key_cases k k0) as [H1|[[? _]|[H1 H2]]]; [by rewrite H1|done|].
      rewrite H2, H1. destruct (lt k' k0) eqn:E; [|by rewrite (key_trans _ _ _ H1 H)].
      by rewrite (key_trans _ _ _ H E) in H2.
Qed.

Lemma erase_keys k (m : list (K * V)) k0 :
  Forall (fun kv => lt k0 kv.1 = true) m -> Forall (fun kv => lt k0 kv.1 = true) (erase k m).
Proof.
  induction m as [|[k' v'] m IH]; simpl; intros Hm; [done|].
  apply Forall_cons in Hm as [H1 H2].
  destruct (lt k' k); [constructor; [done|by apply IH]|]. destruct (lt k k'); [by constructor|done].
Qed.

Lemma erase_sorted k (m : list (K * V)) : sorted m -> sorted (erase k m).
Proof.
  induction m as [|[k' v'] m IH]; simpl; [done|]. intros [Hf Hs].
  destruct (lt k' k); [simpl; split; [by apply erase_keys|by apply IH]|].
  by destruct (lt k k').
Qed.

Lemma find_erase_eq k (m : list (K * V)) : sorted m -> find k (erase k m) = None.
Proof.
  induction m as [|[k' v'] m IH]; simpl; [done|]. intros [Hf Hs].
  destruct (key_cases k' k) as [H|[[-> H]|[H H']]].
  - rewrite H. simpl. rewrite H. by apply IH.
  - rewrite H. by apply find_below.
  - rewrite H', H. simpl. by rewrite H', H.
Qed.

Lemma find_erase_ne k k0 (m : list (K * V)) :
  k <> k0 -> sorted m -> find k0 (erase k m) = find k0 m.
Proof.
  intros Hne. induction m as [|[k' v'] m IH]; simpl; [done|]. intros [Hf Hs].
  destruct (key_cases k' k) as [H|[[-> H]|[H H']]].
  - rewrite H. simpl. destruct (lt k' k0); [by apply IH|done].
  - rewrite H. destruct (key_cases k k0) as [H1|[[? _]|[H1 H2]]]; [by rewrite H1|done|].
    rewrite H2, H1. apply find_below; try done. by eapply Forall_lt_trans.
  - by rewrite H', H.
Qed.

(** Inserting behind all keys appends. *)
Lemma insert_last k v (m : list (K * V)) :
  Forall (fun kv => lt kv.1 k = true) m -> insert k v m = m ++ [(k, v)].
Proof.
  induction m as [|[k' v'] m IH]; simpl; intros Hm; [done|].
  apply Forall_cons in Hm as [H1 H2]; simpl in H1. by rewrite H1, IH.
Qed.

Lemma insert_values (P : V -> Prop) k v (m : list (K * V)) :
  P v -> Forall (fun kv => P kv.2) m -> Forall (fun kv => P kv.2) (insert k v m).
Proof.
  intros Hv. induction m as [|[k' v'] m IH]; simpl; intros Hm; [by constructor|].
  apply Forall_cons in Hm as [H1 H2].
  destruct (lt k' k); [constructor; [done|by apply IH]|].
  destruct (lt k k'); repeat (constructor; [done|]); done.
Qed.

Lemma insert_all (P : K -> Prop) k v (m : list (K * V)) :
  P k -> Forall (fun kv => P kv.1) m -> Forall (fun kv => P kv.1) (insert k v m).
Proof.
  intros Hv. induction m as [|[k' v'] m IH]; simpl; intros Hm; [by constructor|].
  apply Forall_cons in Hm as [H1 H2].
  destruct (lt k' k); [constructor; [done|by apply IH]|].
  destruct (lt k k'); repeat (constructor; [done|]); done.
Qed.

Lemma erase_Forall (P : K * V -> Prop) k (m : list (K * V)) : Forall P m -> Forall P (erase k m).
Proof.
  induction m as [|[k' v'] m IH]; simpl; intros Hm; [done|].
  apply Forall_cons in Hm as [H1 H2].
  destruct (lt k' k); [constructor; [done|by apply IH]|]. destruct (lt k k'); [by constructor|done].
Qed.

Lemma find_Forall (P : K * V -> Prop) k v (m : list (K * V)) :
  Forall P m -> find k m = Some v -> P (k, v).
Proof.
  induction m as [|[k' v'] m IH]; simpl; intros Hm; [done|].
  apply Forall_cons in Hm as [H1 H2].
  destruct (key_cases k' k) as [H|[[-> H]|[H H']]].
  - rewrite H; by apply IH.
  - by rewrite H; intros [= <-].
  - by rewrite H', H.
Qed.

Lemma find_In k v (m : list (K * V)) : sorted m -> (k, v) ∈ m -> find k m = Some v.
Proof.
  induction m as [|[k' v'] m IH]; simpl; [by intros _ ?%not_elem_of_nil|]. intros [Hf Hs] Hin.
  apply elem_of_cons in Hin as [[= -> ->]|Hin]; [by rewrite key_irrefl|].
  rewrite Forall_forall in Hf. specialize (Hf _ Hin); simpl in Hf. rewrite Hf. by apply IH.
Qed.
End Maps.

(** ** Members of objects *)

Lemma foldr_Forall {A} (P : A -> Prop) l : foldr (fun a Q => P a /\ Q) True l <-> Forall P l.
Proof.
  induction l as [|a l IH]; simpl; [by split; [constructor|]|]. by rewrite IH, Forall_cons.
Qed.

Lemma wf_object m :
  wf_value (VObject m) <->
  map_sorted czstring_lt m /\ Forall (fun kv => size kv.1 < 2 ^ 30 /\ wf_value kv.2) m.
Proof. cbn [wf_value]. by rewrite foldr_Forall. Qed.

Lemma wf_array m :
  wf_value (VArray m) <->
  map_sorted Z.ltb m /\ Forall (fun kv => 0 <= kv.1 < 2 ^ 32 - 1 /\ wf_value kv.2) m.
Proof. cbn [wf_value]. by rewrite foldr_Forall. Qed.

Lemma czstring_id k : size k < 2 ^ 30 -> czstring k = k.
Proof.
  intros H; unfold czstring. apply take_ge.
  change 1073741823 with (Z.ones 30). rewrite Z.land_ones by lia.
  unfold size in *. rewrite Z.mod_small by lia. lia.
Qed.

Lemma insert_Forall_pairs {K V} (lt : K -> K -> bool) (P : K * V -> Prop) k v m :
  P (k, v) -> Forall P m -> (forall k' v', P (k', v') -> P (k', v) \/ True) ->
  (forall k', (exists v', P (k', v')) -> lt k' k = false -> lt k k' = false -> P (k', v)) ->
  Forall P (map_insert lt k v m).
Proof.
  intros Hkv Hm _ Heq. induction m as [|[k' v'] m IH]; simpl; [by constructor|].
  apply Forall_cons in Hm as [H1 H2].
  destruct (lt k' k) eqn:E1; [constructor; [done|by apply IH]|].
  destruct (lt k k') eqn:E2; constructor; try done; [by constructor|]. apply Heq; eauto.
Qed.

Lemma wf_object_insert m k w :
  wf_value (VObject m) -> size k < 2 ^ 30 -> wf_value w ->
  wf_value (VObject (map_insert czstring_lt k w m)).
Proof.
  rewrite !wf_object; intros [Hs Hf] Hk Hw. split; [by apply (insert_sorted czstring_lt)|].
  apply insert_Forall_pairs; [done|done|auto|].
  intros k' [v' [H _]] _ _. done.
Qed.

(** An object or null, as members may be read and set on. *)
Definition members_of (v : Value) : option (list (bytes * Value)) :=
  match v with VNull => Some [] | VObject m => Some m | _ => None end.

Lemma member_const_members v m k :
  members_of v = Some m -> size k < 2 ^ 30 ->
  member_const v k = Ok (default VNull (map_find czstring_lt k m)).
Proof.
  intros Hm Hk. unfold member_const, find.
  destruct v; simplify_eq/=; run; [done|]. by rewrite czstring_id.
Qed.

Lemma member_set_members v m k w :
  members_of v = Some m -> size k < 2 ^ 30 -> map_sorted czstring_lt m ->
  member_set v k w = Ok (VObject (map_insert czstring_lt k w m)).
Proof.
  intros Hm Hk Hs. unfold member_set, resolveReference.
  assert (match v with VObject m => m | _ => [] end = m /\ (isNull v || isObject v) = true) as [E1 E2].
  { by destruct v; simplify_eq/=. }
  rewrite E1, E2, czstring_id by done. unfold json_assert; run.
  destruct (map_find czstring_lt k m) as [u|] eqn:Ef; run; [done|]. do 2 f_equal.
  (* setting twice is setting once *)
  clear E1 E2 Hm. revert Ef. induction m as [|[k' v'] m IH]; simpl.
  - intros _. by rewrite key_irrefl.
  - destruct Hs as [Hf Hs].
    destruct (key_cases czstring_lt k' k) as [H|[[-> H]|[H H']]].
    + rewrite H. simpl. rewrite H. intros Ef. f_equal. by apply IH.
    + by rewrite H.
    + rewrite H', H. simpl. by rewrite key_irrefl.
Qed.

Lemma wf_members v m : wf_value v -> members_of v = Some m -> wf_value (VObject m).
Proof. destruct v; intros Hwf Hm; simplify_eq/=; [done|done]. Qed.

(** ** Arrays *)

Section Arrays.
Implicit Types (l : list Value) (i : Z).

Lemma array_pairs_cons i v l : array_pairs i (v :: l) = (i, v) :: array_pairs (i + 1) l.
Proof.
  unfold array_pairs. rewrite imap_cons. f_equal; [f_equal; lia|].
  apply imap_ext. intros; simpl. f_equal; lia.
Qed.

Lemma array_pairs_app i l l' :
  array_pairs i (l ++ l') = array_pairs i l ++ array_pairs (i + Z.of_nat (length l)) l'.
Proof.
  unfold array_pairs. rewrite imap_app. f_equal.
  apply imap_ext. intros; simpl. f_equal; lia.
Qed.

Lemma array_pairs_length i l : length (array_pairs i l) = length l.
Proof. apply length_imap. Qed.

Lemma array_pairs_above i j l :
  j < i -> Forall (fun kv => (j <? kv.1) = true) (array_pairs i l).
Proof.
  revert i; induction l as [|v l IH]; intros i Hj; [constructor|]. rewrite array_pairs_cons.
  constructor; [apply Z.ltb_lt; simpl; lia|apply IH; lia].
Qed.

Lemma array_pairs_below i j l :
  i + Z.of_nat (length l) <= j -> Forall (fun kv => (kv.1 <? j) = true) (array_pairs i l).
Proof.
  revert i; induction l as [|v l IH]; intros i Hj; [constructor|]. rewrite array_pairs_cons.
  cbn [length] in Hj. constructor; [apply Z.ltb_lt; simpl; lia|apply IH; lia].
Qed.

Lemma array_pairs_sorted i l : map_sorted Z.ltb (array_pairs i l).
Proof.
  revert i; induction l as [|v l IH]; intros i; [done|]. rewrite array_pairs_cons.
  split; [apply array_pairs_above; lia|apply IH].
Qed.

Lemma array_find_pairs i j l :
  i <= j -> map_find Z.ltb j (array_pairs i l) = l !! Z.to_nat (j - i).
Proof.
  revert i; induction l as [|v l IH]; intros i Hj; [done|]. rewrite array_pairs_cons. simpl.
  destruct (Z.ltb_spec i j).
  - rewrite IH by lia. by replace (Z.to_nat (j - i)) with (S (Z.to_nat (j - (i + 1)))) by lia.
  - destruct (Z.ltb_spec j i); [lia|]. by replace (Z.to_nat (j - i)) with 0%nat by lia.
Qed.

Lemma array_insert_pairs i j w l :
  i <= j < i + Z.of_nat (length l) ->
  map_insert Z.ltb j w (array_pairs i l) = array_pairs i (<[Z.to_nat (j - i) := w]> l).
Proof.
  revert i; induction l as [|v l IH]; intros i Hj; cbn [length] in Hj; [lia|].
  rewrite array_pairs_cons. simpl. destruct (Z.ltb_spec i j).
  - replace (Z.to_nat (j - i)) with (S (Z.to_nat (j - (i + 1)))) by lia.
    rewrite IH by lia. simpl. by rewrite array_pairs_cons.
  - destruct (Z.ltb_spec j i); [lia|]. replace (Z.to_nat (j - i)) with 0%nat by lia.
    simpl. by rewrite array_pairs_cons.
Qed.

Lemma array_insert_end i w l :
  map_insert Z.ltb (i + Z.of_nat (length l)) w (array_pairs i l) = array_pairs i (l ++ [w]).
Proof.
  rewrite (insert_last Z.ltb), array_pairs_app by (apply array_pairs_below; lia).
  rewrite array_pairs_cons. done.
Qed.

Lemma erase_middle i (m1 m2 : list (Z * Value)) (v : Value) :
  Forall (fun kv => (kv.1 <? i) = true) m1 ->
  map_erase Z.ltb i (m1 ++ (i, v) :: m2) = m1 ++ m2.
Proof.
  induction m1 as [|[k w] m1 IH]; intros Hf; simpl; [by rewrite Z.ltb_irrefl|].
  apply Forall_cons in Hf as [H1 H2]; simpl in H1. by rewrite H1, IH.
Qed.

Lemma array_erase_end i l w :
  map_erase Z.ltb (i + Z.of_nat (length l)) (array_pairs i (l ++ [w])) = array_pairs i l.
Proof.
  rewrite array_pairs_app, array_pairs_cons.
  change (array_pairs (i + Z.of_nat (length l) + 1) []) with (@nil (Z * Value)).
  rewrite erase_middle by (apply array_pairs_below; lia). apply app_nil_r.
Qed.

Lemma array_size l : Z.of_nat (length l) < 2 ^ 32 -> value_size (array_of l) = Z.of_nat (length l).
Proof.
  intros Hl. unfold array_of, value_size.
  destruct (decide (l = [])) as [->|Hne]; [done|].
  destruct (exists_last Hne) as (l' & v & ->).
  rewrite array_pairs_app, array_pairs_cons. rewrite length_app in *; simpl in *.
  change (array_pairs (0 + Z.of_nat (length l') + 1) []) with (@nil (Z * Value)).
  rewrite last_snoc, u32_small; lia.
Qed.

Lemma wf_array_of l :
  Z.of_nat (length l) < 2 ^ 32 -> Forall wf_value l -> wf_value (array_of l).
Proof.
  intros Hl Hf. apply wf_array. split; [apply array_pairs_sorted|].
  assert (forall i, 0 <= i -> i + Z.of_nat (length l) < 2 ^ 32 ->
    Forall (fun kv => 0 <= kv.1 < 2 ^ 32 - 1 /\ wf_value kv.2) (array_pairs i l)) as G;
    [|apply G; lia].
  clear Hl. induction Hf as [|v l Hv Hf IH]; intros i H1 H2; [constructor|].
  rewrite array_pairs_cons. cbn [length] in H2. constructor; [simpl; split; [lia|done]|apply IH; lia].
Qed.

(** The shifting loop deletes the element at [i] and leaves the last one twice. *)
Lemma shift_loop_delete n i l :
  Z.of_nat (length l) = i + Z.of_nat n + 1 -> 0 <= i ->
  exists l', shift_loop n i (array_pairs 0 l) = array_pairs 0 l' /\ length l' = length l /\
    take (length l - 1) l' = delete (Z.to_nat i) l.
Proof.
  revert i l; induction n as [|n IH]; intros i l Hl Hi.
  - exists l; split_and!; [done..|]. rewrite delete_take_drop.
    rewrite (drop_ge l) by lia. rewrite app_nil_r. f_equal; lia.
  - cbn [shift_loop]. rewrite array_find_pairs by lia.
    destruct (lookup_lt_is_Some_2 l (Z.to_nat (i + 1 - 0))) as [w Hw]; [lia|]. rewrite Hw.
    rewrite array_insert_pairs by lia.
    destruct (IH (i + 1) (<[Z.to_nat (i - 0):=w]> l)) as (l' & -> & Hl' & Ht);
      rewrite ?length_insert in *; [lia..|].
    exists l'; split_and!; [done..|]. rewrite Ht.
    replace (Z.to_nat (i + 1)) with (S (Z.to_nat i)) by lia.
    replace (Z.to_nat (i - 0)) with (Z.to_nat i) by lia.
    replace (Z.to_nat (i + 1 - 0)) with (S (Z.to_nat i)) in Hw by lia.
    rewrite !delete_take_drop, drop_insert_lt, (drop_S _ _ _ Hw) by lia.
    rewrite (take_S_r _ _ w) by (apply list_lookup_insert_eq; lia).
    rewrite take_insert_ge by lia. by rewrite <- app_assoc.
Qed.

(** The erasing loop of [resize] keeps what is below the new size. *)
Lemma resize_loop_take i m1 l :
  Forall (fun kv => (kv.1 <? i) = true) m1 ->
  resize_loop (length l) i (m1 ++ array_pairs i l) = m1.
Proof.
  revert i; induction l as [|v l IH]; intros i Hf; [apply app_nil_r|].
  cbn [length resize_loop]. rewrite array_pairs_cons, erase_middle by done.
  apply IH. eapply Forall_impl; [exact Hf|]. intros kv H; apply Z.ltb_lt in H. apply Z.ltb_lt; lia.
Qed.
End Arrays.

(** ** Properties *)

(** C37: an object is a finite map from keys to values.  Setting a member of an
    object or null always succeeds, the member then reads as the value set, all
    others as before, and names, order and ranges stay well formed; so does
    removing one, which reports exactly the members there are.  On any other
    type setting throws. *)
Theorem object_is_a_map v k w :
  wf_value v -> wf_value w -> size k < 2 ^ 30 ->
  match members_of v with
  | None => member_set v k w = Throw ExLogic
  | Some _ =>
      (exists v', member_set v k w = Ok v' /\ wf_value v' /\ isObject v' = true /\
         member_const v' k = Ok w /\
         forall k', size k' < 2 ^ 30 -> k' <> k -> member_const v' k' = member_const v k') /\
      (let '(removed, v') := removeMember v k in
       wf_value v' /\ member_const v' k = Ok VNull /\ isMember v k = Ok (bool_decide (is_Some removed)) /\
       (forall x, removed = Some x -> member_const v k = Ok x) /\
       forall k', size k' < 2 ^ 30 -> k' <> k -> member_const v' k' = member_const v k')
  end.
Proof.
  intros Hv Hw Hk. destruct (members_of v) as [m|] eqn:Hm; [|by destruct v].
  pose proof (wf_members v m Hv Hm) as Hwf. pose proof (proj1 (wf_object m) Hwf) as [Hs Hf].
  split.
  - eexists; split; [by apply member_set_members|]. split; [by apply wf_object_insert|].
    split; [done|]. split.
    + erewrite member_const_members by done. by rewrite (find_insert_eq czstring_lt).
    + intros k' Hk' Hne. erewrite !member_const_members by done.
      by rewrite (find_insert_ne czstring_lt).
  - unfold removeMember, isMember, find.
    destruct v as [| | | | | | |m']; simplify_eq/=; run; try done.
    rewrite czstring_id by done. destruct (map_find czstring_lt k m) as [x|] eqn:Ef; run.
    + split_and!.
      * apply wf_object. split; [by apply (erase_sorted czstring_lt)|by apply erase_Forall].
      * erewrite member_const_members by done. by rewrite (find_erase_eq czstring_lt).
      * done.
      * intros y [= <-]. erewrite member_const_members by done. by rewrite Ef.
      * intros k' Hk' Hne. erewrite !member_const_members by done.
        by rewrite (find_erase_ne czstring_lt).
    + split_and!; try done. erewrite member_const_members by done. by rewrite Ef.
Qed.

Example object_is_a_map_witness :
  exists v', member_set (VObject [(bs "sdp", VInt 1)]) (bs "a") (VBool true) = Ok v' /\
    member_const v' (bs "a") = Ok (VBool true) /\ member_const v' (bs "sdp") = Ok (VInt 1).
Proof.
  destruct (object_is_a_map (VObject [(bs "sdp", VInt 1)]) (bs "a") (VBool true))
    as [(v' & E & _ & _ & E1 & E2) _].
  - vm_compute. repeat split; try constructor; congruence.
  - exact I.
  - vm_compute; reflexivity.
  - exists v'. split; [exact E|]. split; [exact E1|].
    rewrite E2; [reflexivity|vm_compute; reflexivity|discriminate].
Defined.

(** C39: on an array without gaps the operations are those of lists: reading an
    element, [append], writing in place, [removeIndex] (which deletes and
    shifts) and shrinking with [resize]; each result is again without gaps. *)
Theorem array_is_a_list (l : list Value) w i n :
  Z.of_nat (length l) < 2 ^ 32 - 1 -> (i < length l)%nat -> (0 < n <= length l)%nat ->
  value_size (array_of l) = Z.of_nat (length l) /\
  index_const (array_of l) (Z.of_nat i) = Ok (default VNull (l !! i)) /\
  append (array_of l) w = Ok (array_of (l ++ [w])) /\
  index_set (array_of l) (Z.of_nat i) w = Ok (array_of (<[i := w]> l)) /\
  removeIndex (array_of l) (Z.of_nat i) = (l !! i, array_of (delete i l)) /\
  resize (array_of l) (Z.of_nat n) = Ok (array_of (take n l)).
Proof.
  intros Hl Hi Hn. pose proof (array_size l ltac:(lia)) as Hsz. split; [done|].
  destruct (lookup_lt_is_Some_2 l i Hi) as [x Hx].
  assert (Ef : map_find Z.ltb (Z.of_nat i) (array_pairs 0 l) = Some x).
  { rewrite array_find_pairs by lia. by replace (Z.to_nat (Z.of_nat i - 0)) with i by lia. }
  split; [unfold index_const, array_of; run; by rewrite Ef, Hx|].
  split.
  { unfold append, index_set, index_ref. rewrite Hsz. unfold array_of; run.
    rewrite array_find_pairs, lookup_ge_None_2 by lia. run.
    rewrite <- (Z.add_0_l (Z.of_nat (length l))), array_insert_end.
    cbn [isNull isArray orb]; unfold json_assert; run.
    rewrite array_insert_pairs by (rewrite length_app; simpl; lia). do 3 f_equal.
    replace (Z.to_nat _) with (length l + 0)%nat by lia. by rewrite insert_app_r. }
  split.
  { unfold index_set, index_ref, array_of; run. rewrite Ef.
    cbn [isNull isArray orb]; unfold json_assert; run.
    rewrite array_insert_pairs by lia. do 4 f_equal; lia. }
  split.
  - unfold removeIndex. rewrite Hsz. unfold array_of. rewrite Ef, Hx. f_equal.
    destruct (shift_loop_delete (Z.to_nat (Z.of_nat (length l) - 1 - Z.of_nat i)) (Z.of_nat i) l)
      as (l' & -> & Hl' & Ht); [lia..|]. rewrite Nat2Z.id in Ht. f_equal.
    assert (l' <> []) as Hne by (intros ->; simpl in *; lia).
    destruct (exists_last Hne) as (l2 & y & ->). rewrite length_app in Hl'; simpl in Hl'.
    rewrite <- Ht, take_app_le, take_ge by lia.
    rewrite <- (array_erase_end 0 l2 y). f_equal; lia.
  - unfold resize, array_of in *. cbn [isNull isArray orb]; unfold json_assert; run. rewrite Hsz.
    destruct (Z.eqb_spec (Z.of_nat n) 0); [lia|]. destruct (Z.ltb_spec (Z.of_nat (length l)) (Z.of_nat n)); [lia|].
    assert (resize_loop (Z.to_nat (Z.of_nat (length l) - Z.of_nat n)) (Z.of_nat n) (array_pairs 0 l)
            = array_pairs 0 (take n l)) as ->.
    { rewrite <- (take_drop n l) at 2. rewrite array_pairs_app, length_take, Nat.min_l by lia.
      replace (Z.to_nat (Z.of_nat (length l) - Z.of_nat n)) with (length (drop n l))
        by (rewrite length_drop; lia).
      apply resize_loop_take, array_pairs_below. rewrite length_take; lia. }
    pose proof (array_size (take n l)) as Hs. rewrite length_take, Nat.min_l in Hs by lia.
    unfold array_of in Hs. rewrite Hs by lia. by rewrite Z.eqb_refl; run.
Qed.

Example array_is_a_list_witness :
  removeIndex (array_of [VInt 1; VInt 2; VInt 3]) 1 = (Some (VInt 2), array_of [VInt 1; VInt 3]) /\
  append (array_of [VInt 1; VInt 2; VInt 3]) VNull = Ok (array_of [VInt 1; VInt 2; VInt 3; VNull]).
Proof.
  destruct (array_is_a_list [VInt 1; VInt 2; VInt 3] VNull 1 2) as (_ & _ & E1 & _ & E2 & _);
    [vm_compute; reflexivity|simpl; lia|simpl; lia|].
  split; [exact E2|exact E1].
Defined.
