(* ===== verification/JsonReader.v ===== *)
(** * OurReader, the JSON parser (jsoncpp.cpp, json_reader part)

    The document is the bytes [mem] from offset 0 to [end_]; [Location]s are
    offsets.  Every read goes through [char_at], so one outside [mem] is
    [UB OutOfBounds].  The stack of nodes is the recursion: the functions that
    change [currentValue()] take it as an argument and return it as it is
    left, and the stack itself is the place of the top node, which tells where comments and
    offsets go in the notes of the root. *)
From Stdlib Require Import ZArith Ascii String Lia SpecFloat.
From stdpp Require Import base tactics list gmap.
From S2P Require Import Prelude CLib CDouble JsonValue JsonNotes.

#[local] Open Scope Z_scope.

(** ** Code points *)

Definition byte (z : Z) : ascii := ascii_of_N (Z.to_N (u8 z)).

(** [codePointToUTF8] *)
Definition codePointToUTF8 (cp : Z) : bytes :=
  if cp <=? 127 then [byte cp]
  else if cp <=? 2047 then
    [byte (Z.lor 192 (Z.land 31 (Z.shiftr cp 6))); byte (Z.lor 128 (Z.land 63 cp))]
  else if cp <=? 65535 then
    [byte (Z.lor 224 (Z.land 15 (Z.shiftr cp 12)));
     byte (Z.lor 128 (Z.land 63 (Z.shiftr cp 6))); byte (Z.lor 128 (Z.land 63 cp))]
  else if cp <=? 1114111 then
    [byte (Z.lor 240 (Z.land 7 (Z.shiftr cp 18)));
     byte (Z.lor 128 (Z.land 63 (Z.shiftr cp 12)));
     byte (Z.lor 128 (Z.land 63 (Z.shiftr cp 6))); byte (Z.lor 128 (Z.land 63 cp))]
  else [].

(** ** Features, tokens, state *)

Record OurFeatures := MkFeatures {
  allowComments_ : bool;
  strictRoot_ : bool;
  allowDroppedNullPlaceholders_ : bool;
  allowNumericKeys_ : bool;
  allowSingleQuotes_ : bool;
  failIfExtra_ : bool;
  rejectDupKeys_ : bool;
  allowSpecialFloats_ : bool;
  stackLimit_ : Z
}.

Inductive TokenType :=
  | tokenEndOfStream | tokenObjectBegin | tokenObjectEnd | tokenArrayBegin | tokenArrayEnd
  | tokenString | tokenNumber | tokenTrue | tokenFalse | tokenNull | tokenNaN | tokenPosInf
  | tokenNegInf | tokenArraySeparator | tokenMemberSeparator | tokenComment | tokenError.

#[export] Instance TokenType_eq_dec : EqDecision TokenType.
Proof. solve_decision. Defined.

Record Token := MkToken { type_ : TokenType; start_ : nat; end_of : nat }.

Record ErrorInfo := MkErrorInfo { token_ : Token; message_ : bytes; extra_ : option nat }.

(** [nodes_] is not part of it; [notes_] are the notes of the root. *)
Record RState := MkRState {
  current_ : nat;
  errors_ : list ErrorInfo;
  lastValueEnd_ : option nat;
  lastValue_ : option Place;
  commentsBefore_ : bytes;
  notes_ : Notes
}.

Definition set_current v s :=
  MkRState v (errors_ s) (lastValueEnd_ s) (lastValue_ s) (commentsBefore_ s) (notes_ s).
Definition set_errors v s :=
  MkRState (current_ s) v (lastValueEnd_ s) (lastValue_ s) (commentsBefore_ s) (notes_ s).
Definition set_lastValueEnd v s :=
  MkRState (current_ s) (errors_ s) v (lastValue_ s) (commentsBefore_ s) (notes_ s).
Definition set_lastValue v s :=
  MkRState (current_ s) (errors_ s) (lastValueEnd_ s) v (commentsBefore_ s) (notes_ s).
Definition set_commentsBefore v s :=
  MkRState (current_ s) (errors_ s) (lastValueEnd_ s) (lastValue_ s) v (notes_ s).
Definition set_notes v s :=
  MkRState (current_ s) (errors_ s) (lastValueEnd_ s) (lastValue_ s) (commentsBefore_ s) v.

Definition initial_RState (root_notes : Notes) : RState := MkRState 0 [] None None [] root_notes.

(** [nodes_.size()] when the top of the stack is at [p]. *)
Fixpoint node_count (p : Place) : Z :=
  match p with [] => 1 | _ :: p => node_count p + 1 end.

Section Reader.
Context (mem : bytes) (end_ : nat) (features_ : OurFeatures) (collectComments_ : bool).

(** ** Characters *)

Definition getNextChar (s : RState) : outcome (ascii * RState) :=
  if (current_ s =? end_)%nat then Ok (NUL, s)
  else c ← char_at mem (current_ s); Ok (c, set_current (current_ s + 1) s).

Definition is_json_space (c : ascii) : bool :=
  bool_decide (c = " "%char) || bool_decide (c = "009"%char)
  || bool_decide (c = CR) || bool_decide (c = LF).

(** Loops over the document run at most once per character that is left. *)
Definition left_ (s : RState) : nat := S (end_ - current_ s).

Fixpoint skipSpaces_loop (fuel : nat) (s : RState) : outcome RState :=
  if (current_ s =? end_)%nat then Ok s
  else
    c ← char_at mem (current_ s);
    if is_json_space c then
      match fuel with
      | O => NoFuel
      | S fuel => skipSpaces_loop fuel (set_current (current_ s + 1) s)
      end
    else Ok s.

Definition skipSpaces (s : RState) : outcome RState := skipSpaces_loop (left_ s) s.

(** [match]: compares from the last character to the first. *)
Fixpoint match_loop (index : nat) (cur : nat) (pattern : bytes) : outcome bool :=
  match index with
  | O => Ok true
  | S index =>
      c ← char_at mem (cur + index);
      p ← char_at pattern index;
      if decide (c <> p) then Ok false else match_loop index cur pattern
  end.

Definition match_ (pattern : bytes) (s : RState) : outcome (bool * RState) :=
  if (end_ - current_ s <? length pattern)%nat then Ok (false, s)
  else
    ok ← match_loop (length pattern) (current_ s) pattern;
    Ok (ok, if (ok : bool) then set_current (current_ s + length pattern) s else s).

(** ** Comments *)

Fixpoint containsNewLine_loop (n : nat) (begin : nat) : outcome bool :=
  match n with
  | O => Ok false
  | S n =>
      c ← char_at mem begin;
      if decide (c = LF \/ c = CR) then Ok true else containsNewLine_loop n (begin + 1)
  end.

Definition containsNewLine (begin end_loc : nat) : outcome bool :=
  containsNewLine_loop (end_loc - begin) begin.

Fixpoint normalizeEOL_loop (fuel : nat) (current end_loc : nat) : outcome bytes :=
  if (current =? end_loc)%nat then Ok []
  else
    match fuel with
    | O => NoFuel
    | S fuel =>
        c ← char_at mem current;
        let current := (current + 1)%nat in
        if decide (c = CR) then
          lf ← (if negb (current =? end_loc)%nat then
                  c' ← char_at mem current; Ok (bool_decide (c' = LF))
                else Ok false);
          r ← normalizeEOL_loop fuel (if (lf : bool) then current + 1 else current)%nat end_loc;
          Ok (LF :: r)
        else r ← normalizeEOL_loop fuel current end_loc; Ok (c :: r)
    end.

Definition normalizeEOL (begin end_loc : nat) : outcome bytes :=
  normalizeEOL_loop (S (end_loc - begin)) begin end_loc.

Definition addComment (begin end_loc : nat) (afterOnSameLine : bool) (s : RState)
  : outcome RState :=
  if negb collectComments_ then UB AssertFailed
  else
    normalized ← normalizeEOL begin end_loc;
    if afterOnSameLine then
      match lastValue_ s with
      | Some q =>
          n ← setComment q normalized commentAfterOnSameLine (notes_ s); Ok (set_notes n s)
      | None => UB AssertFailed
      end
    else Ok (set_commentsBefore (commentsBefore_ s ++ normalized) s).

Fixpoint readCStyleComment_loop (fuel : nat) (s : RState) : outcome RState :=
  if (current_ s + 1 <? end_)%nat then
    match fuel with
    | O => NoFuel
    | S fuel =>
        '(c, s) ← getNextChar s;
        stop ← (if decide (c = "*"%char) then
                  d ← char_at mem (current_ s); Ok (bool_decide (d = "/"%char))
                else Ok false);
        if (stop : bool) then Ok s else readCStyleComment_loop fuel s
    end
  else Ok s.

Definition readCStyleComment (s : RState) : outcome (bool * RState) :=
  s ← readCStyleComment_loop (left_ s) s;
  '(c, s) ← getNextChar s;
  Ok (bool_decide (c = "/"%char), s).

Fixpoint readCppStyleComment_loop (fuel : nat) (s : RState) : outcome RState :=
  if (current_ s =? end_)%nat then Ok s
  else
    match fuel with
    | O => NoFuel
    | S fuel =>
        '(c, s) ← getNextChar s;
        if decide (c = LF) then Ok s
        else if decide (c = CR) then
          lf ← (if negb (current_ s =? end_)%nat then
                  d ← char_at mem (current_ s); Ok (bool_decide (d = LF))
                else Ok false);
          if (lf : bool) then '(_, s) ← getNextChar s; Ok s else Ok s
        else readCppStyleComment_loop fuel s
    end.

Definition readCppStyleComment (s : RState) : outcome (bool * RState) :=
  s ← readCppStyleComment_loop (left_ s) s; Ok (true, s).

Definition readComment (s : RState) : outcome (bool * RState) :=
  let commentBegin := (current_ s - 1)%nat in
  '(c, s) ← getNextChar s;
  '(successful, s) ← (if decide (c = "*"%char) then readCStyleComment s
                      else if decide (c = "/"%char) then readCppStyleComment s
                      else Ok (false, s));
  if negb successful then Ok (false, s)
  else if collectComments_ then
    after ← match lastValueEnd_ s with
            | Some e =>
                nl ← containsNewLine e commentBegin;
                if (nl : bool) then Ok false
                else if decide (c <> "*"%char) then Ok true
                else nl ← containsNewLine commentBegin (current_ s); Ok (negb nl)
            | None => Ok false
            end;
    s ← addComment commentBegin (current_ s) after s;
    Ok (true, s)
  else Ok (true, s).

(** ** Numbers and strings *)

(** [c = (current_ = p) < end_ ? *p++ : '\0']: the character, [current_] and [p]. *)
Definition next_number_char (p : nat) : outcome (ascii * nat * nat) :=
  if (p <? end_)%nat then c ← char_at mem p; Ok (c, p, (p + 1)%nat) else Ok (NUL, p, p).

Fixpoint skip_digits (fuel : nat) (x : ascii * nat * nat) : outcome (ascii * nat * nat) :=
  let '(c, cur, p) := x in
  if is_digit c then
    match fuel with
    | O => NoFuel
    | S fuel => x ← next_number_char p; skip_digits fuel x
    end
  else Ok x.

Definition readNumber (checkInf : bool) (s : RState) : outcome (bool * RState) :=
  let p := current_ s in
  let fuel := S (left_ s) in
  inf ← (if checkInf && negb (p =? end_)%nat then
           c ← char_at mem p; Ok (bool_decide (c = "I"%char))
         else Ok false);
  if (inf : bool) then Ok (false, set_current (p + 1) s)
  else
    x ← skip_digits fuel ("0"%char, p, p);
    x ← (let '(c, cur, p) := x in
         if decide (c = "."%char) then x ← next_number_char p; skip_digits fuel x else Ok x);
    x ← (let '(c, cur, p) := x in
         if decide (c = "e"%char \/ c = "E"%char) then
           x ← next_number_char p;
           x ← (let '(c, cur, p) := x in
                if decide (c = "+"%char \/ c = "-"%char) then next_number_char p else Ok x);
           skip_digits fuel x
         else Ok x);
    let '(_, cur, _) := x in
    Ok (true, set_current cur s).

(** The loop of [readString] and [readStringSingleQuote]; [c] is the last
    character read. *)
Fixpoint readString_loop (fuel : nat) (quote c : ascii) (s : RState) : outcome (ascii * RState) :=
  if (current_ s =? end_)%nat then Ok (c, s)
  else
    match fuel with
    | O => NoFuel
    | S fuel =>
        '(c, s) ← getNextChar s;
        if decide (c = "\"%char) then
          '(_, s) ← getNextChar s; readString_loop fuel quote c s
        else if decide (c = quote) then Ok (c, s)
        else readString_loop fuel quote c s
    end.

Definition DQUOTE : ascii := "034"%char.
Definition SQUOTE : ascii := "039"%char.

Definition readString (s : RState) : outcome (bool * RState) :=
  '(c, s) ← readString_loop (left_ s) DQUOTE NUL s; Ok (bool_decide (c = DQUOTE), s).

Definition readStringSingleQuote (s : RState) : outcome (bool * RState) :=
  '(c, s) ← readString_loop (left_ s) SQUOTE NUL s; Ok (bool_decide (c = SQUOTE), s).

(** ** Tokens *)

(** The switch of [readToken] on the character [c] just read: the type, whether
    the rest of the token is as it should be, and the state. *)
Definition scanToken (c : ascii) (s : RState) : outcome (TokenType * bool * RState) :=
  let simple t := Ok (t, true, s) in
  let scan t r := '(ok, s) ← r; Ok (t, ok, s) in
  if decide (c = "{"%char) then simple tokenObjectBegin
  else if decide (c = "}"%char) then simple tokenObjectEnd
  else if decide (c = "["%char) then simple tokenArrayBegin
  else if decide (c = "]"%char) then simple tokenArrayEnd
  else if decide (c = DQUOTE) then scan tokenString (readString s)
  else if decide (c = SQUOTE) then
    if allowSingleQuotes_ features_ then scan tokenString (readStringSingleQuote s)
    else scan tokenComment (readComment s)
  else if decide (c = "/"%char) then scan tokenComment (readComment s)
  else if is_digit c then '(_, s) ← readNumber false s; Ok (tokenNumber, true, s)
  else if decide (c = "-"%char) then
    '(number, s) ← readNumber true s;
    if (number : bool) then Ok (tokenNumber, true, s)
    else if allowSpecialFloats_ features_ then scan tokenNegInf (match_ (bs "nfinity") s)
    else Ok (tokenNegInf, false, s)
  else if decide (c = "t"%char) then scan tokenTrue (match_ (bs "rue") s)
  else if decide (c = "f"%char) then scan tokenFalse (match_ (bs "alse") s)
  else if decide (c = "n"%char) then scan tokenNull (match_ (bs "ull") s)
  else if decide (c = "N"%char) then
    if allowSpecialFloats_ features_ then scan tokenNaN (match_ (bs "aN") s)
    else Ok (tokenError, false, s)
  else if decide (c = "I"%char) then
    if allowSpecialFloats_ features_ then scan tokenPosInf (match_ (bs "nfinity") s)
    else Ok (tokenError, false, s)
  else if decide (c = ","%char) then simple tokenArraySeparator
  else if decide (c = ":"%char) then simple tokenMemberSeparator
  else if decide (c = NUL) then simple tokenEndOfStream
  else Ok (tokenError, false, s).

Definition readToken (s : RState) : outcome (Token * RState) :=
  s ← skipSpaces s;
  let start := current_ s in
  '(c, s) ← getNextChar s;
  '(t, ok, s) ← scanToken c s;
  Ok (MkToken (if (ok : bool) then t else tokenError) start (current_ s), s).

(** Reads tokens while they are comments, from a first one. *)
Fixpoint skip_comments (fuel : nat) (tok : Token) (s : RState) : outcome (Token * RState) :=
  if decide (type_ tok = tokenComment) then
    match fuel with
    | O => NoFuel
    | S fuel => '(tok, s) ← readToken s; skip_comments fuel tok s
    end
  else Ok (tok, s).

Definition skipCommentTokens (s : RState) : outcome (Token * RState) :=
  '(tok, s) ← readToken s;
  if allowComments_ features_ then skip_comments (left_ s) tok s else Ok (tok, s).

(** ** Errors *)

Definition addError (message : bytes) (tok : Token) (extra : option nat) (s : RState) : RState :=
  set_errors (errors_ s ++ [MkErrorInfo tok message extra]) s.

Fixpoint recover_loop (fuel : nat) (skipUntilToken : TokenType) (s : RState) : outcome RState :=
  match fuel with
  | O => NoFuel
  | S fuel =>
      '(skip, s) ← readToken s;
      if decide (type_ skip = skipUntilToken \/ type_ skip = tokenEndOfStream) then Ok s
      else recover_loop fuel skipUntilToken s
  end.

(** [recoverFromError]; its result is always [false]. *)
Definition recoverFromError (skipUntilToken : TokenType) (s : RState) : outcome RState :=
  let errorCount := length (errors_ s) in
  s ← recover_loop (left_ s) skipUntilToken s;
  Ok (set_errors (take errorCount (errors_ s)) s).

Definition addErrorAndRecover (message : bytes) (tok : Token) (skipUntilToken : TokenType)
    (s : RState) : outcome RState :=
  recoverFromError skipUntilToken (addError message tok None s).

(** ** Decoding *)

(** The characters of a token. *)
Definition token_text (tok : Token) : outcome bytes :=
  mem_range mem (start_ tok) (end_of tok - start_ tok).

Definition decodeDouble (tok : Token) (s : RState) : outcome (option Value * RState) :=
  text ← token_text tok;
  match sscanf_lf (c_str text) with
  | Some value => Ok (Some (VReal value), s)
  | None => Ok (None, addError (bs "'" ++ text ++ bs "' is not a number.") tok None s)
  end.

Definition maxLargestUInt : Z := 2 ^ 64 - 1.

(** The digit loop of [decodeNumber]: [None] when the number is left to
    [decodeDouble]. *)
Fixpoint decodeNumber_loop (n : nat) (threshold last_digit : Z) (current : nat) (value : Z)
  : outcome (option Z) :=
  match n with
  | O => Ok (Some value)
  | S n =>
      c ← char_at mem current;
      if negb (is_digit c) then Ok None
      else
        let digit := code c - 48 in
        if (threshold <=? value)
           && ((threshold <? value) || negb (n =? 0)%nat || (last_digit <? digit)) then Ok None
        else decodeNumber_loop n threshold last_digit (current + 1) (u64 (value * 10 + digit))
  end.

(** A signed 64-bit integer with the given low 64 bits. *)
Definition i64 (z : Z) : Z := (z + 2 ^ 63) mod 2 ^ 64 - 2 ^ 63.

(** [decodeNumber]: the decoded value, unless an error was added.  For
    -9223372036854775808 the code negates the smallest integer, which C++ leaves
    undefined; it wraps around here as it does on x86. *)
Definition decodeNumber (tok : Token) (s : RState) : outcome (option Value * RState) :=
  c ← char_at mem (start_ tok);
  let isNegative := bool_decide (c = "-"%char) in
  let current := if isNegative then (start_ tok + 1)%nat else start_ tok in
  let limit := if isNegative then 2 ^ 63 else maxLargestUInt in
  r ← decodeNumber_loop (end_of tok - current) (limit / 10) (limit mod 10) current 0;
  match r with
  | None => decodeDouble tok s
  | Some value =>
      Ok (Some (if isNegative then VInt (i64 (- i64 value))
                else if value <=? maxInt64 then VInt value else VUInt value), s)
  end.

Definition hex_digit (c : ascii) : option Z :=
  if is_digit c then Some (code c - 48)
  else if (97 <=? code c) && (code c <=? 102) then Some (code c - 97 + 10)
  else if (65 <=? code c) && (code c <=? 70) then Some (code c - 65 + 10)
  else None.

(** The four digits behind [\u]; [current] is where the loop stops, [None] a
    character that is not a digit. *)
Fixpoint hex_loop (n : nat) (current : nat) (unicode : Z) : outcome (option Z * nat) :=
  match n with
  | O => Ok (Some unicode, current)
  | S n =>
      c ← char_at mem current;
      match hex_digit c with
      | Some d => hex_loop n (current + 1) (unicode * 16 + d)
      | None => Ok (None, (current + 1)%nat)
      end
  end.

(** Results: the code unit, unless an error was added, and [current]. *)
Definition decodeUnicodeEscapeSequence (tok : Token) (current end_loc : nat) (s : RState)
  : outcome (option Z * nat * RState) :=
  if (end_loc - current <? 4)%nat then
    Ok (None, current,
        addError (bs "Bad unicode escape sequence in string: four digits expected.")
          tok (Some current) s)
  else
    '(r, current) ← hex_loop 4 current 0;
    match r with
    | Some unicode => Ok (Some unicode, current, s)
    | None =>
        Ok (None, current,
            addError (bs "Bad unicode escape sequence in string: hexadecimal digit expected.")
              tok (Some current) s)
    end.

Definition decodeUnicodeCodePoint (tok : Token) (current end_loc : nat) (s : RState)
  : outcome (option Z * nat * RState) :=
  '(r, current, s) ← decodeUnicodeEscapeSequence tok current end_loc s;
  match r with
  | None => Ok (None, current, s)
  | Some unicode =>
      if (55296 <=? unicode) && (unicode <=? 56319) then
        if (end_loc - current <? 6)%nat then
          Ok (None, current,
              addError (bs "additional six characters expected to parse unicode surrogate pair.")
                tok (Some current) s)
        else
          c ← char_at mem current;
          let current := (current + 1)%nat in
          '(is_u, current) ← (if decide (c = "\"%char) then
                                d ← char_at mem current;
                                Ok (bool_decide (d = "u"%char), (current + 1)%nat)
                              else Ok (false, current));
          if (is_u : bool) then
            '(r, current, s) ← decodeUnicodeEscapeSequence tok current end_loc s;
            match r with
            | Some surrogatePair =>
                Ok (Some (65536 + Z.shiftl (Z.land unicode 1023) 10 + Z.land surrogatePair 1023),
                    current, s)
            | None => Ok (None, current, s)
            end
          else
            Ok (None, current,
                addError (bs "expecting another \u token to begin the second half of a unicode surrogate pair")
                  tok (Some current) s)
      else Ok (Some unicode, current, s)
  end.

(** The single characters an escape stands for. *)
Definition simple_escape (c : ascii) : option ascii :=
  if decide (c = DQUOTE) then Some DQUOTE
  else if decide (c = "/"%char) then Some "/"%char
  else if decide (c = "\"%char) then Some "\"%char
  else if decide (c = "b"%char) then Some "008"%char
  else if decide (c = "f"%char) then Some "012"%char
  else if decide (c = "n"%char) then Some LF
  else if decide (c = "r"%char) then Some CR
  else if decide (c = "t"%char) then Some "009"%char
  else None.

Fixpoint decodeString_loop (fuel : nat) (tok : Token) (current end_loc : nat) (decoded : bytes)
    (s : RState) : outcome (option bytes * RState) :=
  if (current =? end_loc)%nat then Ok (Some decoded, s)
  else
    match fuel with
    | O => NoFuel
    | S fuel =>
        c ← char_at mem current;
        let current := (current + 1)%nat in
        if decide (c = DQUOTE) then Ok (Some decoded, s)
        else if decide (c = "\"%char) then
          if (current =? end_loc)%nat then
            Ok (None, addError (bs "Empty escape sequence in string") tok (Some current) s)
          else
            escape ← char_at mem current;
            let current := (current + 1)%nat in
            match simple_escape escape with
            | Some d => decodeString_loop fuel tok current end_loc (decoded ++ [d]) s
            | None =>
                if decide (escape = "u"%char) then
                  '(r, current, s) ← decodeUnicodeCodePoint tok current end_loc s;
                  match r with
                  | Some unicode =>
                      decodeString_loop fuel tok current end_loc
                        (decoded ++ codePointToUTF8 unicode) s
                  | None => Ok (None, s)
                  end
                else
                  Ok (None, addError (bs "Bad escape sequence in string") tok (Some current) s)
            end
        else decodeString_loop fuel tok current end_loc (decoded ++ [c]) s
    end.

(** [decodeString]: the text, unless an error was added. *)
Definition decodeString (tok : Token) (s : RState) : outcome (option bytes * RState) :=
  decodeString_loop (end_of tok - start_ tok) tok (start_ tok + 1) (end_of tok - 1) [] s.

(** ** Values *)

(** Where [readValue] attaches the comments in front of a value, the one at [p]. *)
Definition attachCommentsBefore (p : Place) (s : RState) : outcome RState :=
  if collectComments_ && negb (bool_decide (commentsBefore_ s = [])) then
    n ← setComment p (commentsBefore_ s) commentBefore (notes_ s);
    Ok (set_commentsBefore [] (set_notes n s))
  else Ok s.

(** [currentValue().swapPayload(v)] for a new value [v]. *)
Definition new_payload (p : Place) (s : RState) : RState := set_notes (drop_below p (notes_ s)) s.

Definition offset_start (p : Place) (start : nat) (s : RState) : RState :=
  set_notes (setOffsetStart p (Z.of_nat start) (notes_ s)) s.

Definition offset_limit (p : Place) (limit : nat) (s : RState) : RState :=
  set_notes (setOffsetLimit p (Z.of_nat limit) (notes_ s)) s.

(** A payload read from a token. *)
Definition token_offsets (p : Place) (tok : Token) (s : RState) : RState :=
  offset_limit p (end_of tok) (offset_start p (start_ tok) s).

Definition token_payload (p : Place) (tok : Token) (s : RState) : RState :=
  token_offsets p tok (new_payload p s).

(** The null value in front of a token that is read again. *)
Definition dropped_payload (p : Place) (s : RState) : RState :=
  let s := set_current (current_ s - 1) s in
  let s := new_payload p s in
  offset_limit p (current_ s)
    (set_notes (setOffsetStart p (Z.of_nat (current_ s) - 1) (notes_ s)) s).

(** The end of [readValue]. *)
Definition mark_value (p : Place) (s : RState) : RState :=
  if collectComments_ then set_lastValue (Some p) (set_lastValueEnd (Some (current_ s)) s) else s.

(** The same when an array or object was read. *)
Definition end_value (p : Place) (s : RState) : RState := mark_value p (offset_limit p (current_ s) s).

(** The name of a member: [None] when the token is not one. *)
Definition readName (tok : Token) (s : RState) : outcome (option (option bytes) * RState) :=
  if decide (type_ tok = tokenString) then
    '(r, s) ← decodeString tok s; Ok (Some r, s)
  else if bool_decide (type_ tok = tokenNumber) && allowNumericKeys_ features_ then
    '(r, s) ← decodeNumber tok s;
    match r with
    | Some v => name ← asString v; Ok (Some (Some name), s)
    | None => Ok (Some None, s)
    end
  else Ok (None, s).

(** [readValue], the loop of [readObject] (whose [name] is empty when
    [name_empty]) and the loop of [readArray].  [v] is [currentValue()] and [p]
    its place; the result is whether the value was read, [currentValue()] and
    the state. *)
Fixpoint readValue (fuel : nat) (p : Place) (v : Value) (s : RState)
  : outcome (bool * Value * RState) :=
  match fuel with
  | O => NoFuel
  | S fuel =>
      if stackLimit_ features_ <? node_count p then Throw ExRuntime
      else
        '(tok, s) ← skipCommentTokens s;
        s ← attachCommentsBefore p s;
        let scalar w := Ok (true, w, mark_value p (token_payload p tok s)) in
        let fails :=
          Ok (false, v, addError (bs "Syntax error: value, object or array expected.") tok None
                          (token_offsets p tok s)) in
        match type_ tok with
        | tokenObjectBegin =>
            let s := offset_start p (start_ tok) (new_payload p s) in
            '(ok, v, s) ← object_loop fuel p true (VObject []) s; Ok (ok, v, end_value p s)
        | tokenArrayBegin =>
            s ← skipSpaces (offset_start p (start_ tok) (new_payload p s));
            empty ← (if negb (current_ s =? end_)%nat then
                       c ← char_at mem (current_ s); Ok (bool_decide (c = "]"%char))
                     else Ok false);
            if (empty : bool) then '(_, s) ← readToken s; Ok (true, VArray [], end_value p s)
            else
              '(ok, v, s) ← array_loop fuel p 0 (VArray []) s; Ok (ok, v, end_value p s)
        | tokenNumber =>
            '(r, s) ← decodeNumber tok s;
            match r with
            | Some w => Ok (true, w, mark_value p (token_payload p tok s))
            | None => Ok (false, v, mark_value p s)
            end
        | tokenString =>
            '(r, s) ← decodeString tok s;
            match r with
            | Some text => w ← Value_of_string text; Ok (true, w, mark_value p (token_payload p tok s))
            | None => Ok (false, v, mark_value p s)
            end
        | tokenTrue => scalar (VBool true)
        | tokenFalse => scalar (VBool false)
        | tokenNull => scalar VNull
        | tokenNaN => scalar (VReal S754_nan)
        | tokenPosInf => scalar (VReal (S754_infinity false))
        | tokenNegInf => scalar (VReal (S754_infinity true))
        | tokenArraySeparator | tokenObjectEnd | tokenArrayEnd =>
            if allowDroppedNullPlaceholders_ features_ then
              Ok (true, VNull, mark_value p (dropped_payload p s))
            else fails
        | _ => fails
        end
  end
with object_loop (fuel : nat) (p : Place) (name_empty : bool) (v : Value) (s : RState)
  : outcome (bool * Value * RState) :=
  match fuel with
  | O => NoFuel
  | S fuel =>
      '(tokenName, s) ← readToken s;
      '(tokenName, s) ← skip_comments (left_ s) tokenName s;
      if bool_decide (type_ tokenName = tokenObjectEnd) && name_empty then Ok (true, v, s)
      else
        '(r, s) ← readName tokenName s;
        match r with
        | None =>
            s ← addErrorAndRecover (bs "Missing '}' or object member name") tokenName
                  tokenObjectEnd s;
            Ok (false, v, s)
        | Some None => s ← recoverFromError tokenObjectEnd s; Ok (false, v, s)
        | Some (Some name) =>
            if 2 ^ 30 <=? size name then Throw ExRuntime
            else
              dup ← (if rejectDupKeys_ features_ then isMember v name else Ok false);
              if (dup : bool) then
                s ← addErrorAndRecover (bs "Duplicate key: '" ++ name ++ bs "'") tokenName
                      tokenObjectEnd s;
                Ok (false, v, s)
              else
                '(colon, s) ← readToken s;
                if decide (type_ colon <> tokenMemberSeparator) then
                  s ← addErrorAndRecover (bs "Missing ':' after object member name") colon
                        tokenObjectEnd s;
                  Ok (false, v, s)
                else
                  '(w, v) ← resolveReference v name;
                  '(ok, w, s) ← readValue fuel (Member name :: p) w s;
                  v ← member_set v name w;
                  if negb ok then s ← recoverFromError tokenObjectEnd s; Ok (false, v, s)
                  else
                    '(comma, s) ← readToken s;
                    if decide (type_ comma <> tokenObjectEnd /\
                               type_ comma <> tokenArraySeparator /\
                               type_ comma <> tokenComment) then
                      s ← addErrorAndRecover (bs "Missing ',' or '}' in object declaration")
                            comma tokenObjectEnd s;
                      Ok (false, v, s)
                    else
                      '(comma, s) ← skip_comments (left_ s) comma s;
                      if decide (type_ comma = tokenObjectEnd) then Ok (true, v, s)
                      else object_loop fuel p (bool_decide (name = [])) v s
        end
  end
with array_loop (fuel : nat) (p : Place) (index : Z) (v : Value) (s : RState)
  : outcome (bool * Value * RState) :=
  match fuel with
  | O => NoFuel
  | S fuel =>
      '(w, v) ← index_ref_int v index;
      '(ok, w, s) ← readValue fuel (Element index :: p) w s;
      v ← index_set v index w;
      if negb ok then s ← recoverFromError tokenArrayEnd s; Ok (false, v, s)
      else
        '(currentToken, s) ← readToken s;
        '(currentToken, s) ← skip_comments (left_ s) currentToken s;
        if decide (type_ currentToken <> tokenArraySeparator /\
                   type_ currentToken <> tokenArrayEnd) then
          s ← addErrorAndRecover (bs "Missing ',' or ']' in array declaration") currentToken
                tokenArrayEnd s;
          Ok (false, v, s)
        else if decide (type_ currentToken = tokenArrayEnd) then Ok (true, v, s)
        else array_loop fuel p (i32 (index + 1)) v s
  end.

(** Each value, member, element and token costs at most one unit of fuel and
    at least one character, with two to spare per level. *)
Definition parse_fuel : nat := 4 * end_ + 8.

(** [parse]: the result, the root and the reader's state, with the notes of the
    root in it.  The section's [collectComments_] is the caller's
    [collectComments] if the features allow comments. *)
Definition parse_root (root : Value) (root_notes : Notes) : outcome (bool * Value * RState) :=
  '(successful, root, s) ← readValue parse_fuel [] root (initial_RState root_notes);
  '(tok, s) ← skipCommentTokens s;
  if failIfExtra_ features_
     && (strictRoot_ features_ || bool_decide (type_ tok <> tokenError))
     && bool_decide (type_ tok <> tokenEndOfStream) then
    Ok (false, root, addError (bs "Extra non-whitespace after JSON value.") tok None s)
  else
    n ← (if collectComments_ && negb (bool_decide (commentsBefore_ s = []))
         then setComment [] (commentsBefore_ s) commentAfter (notes_ s) else Ok (notes_ s));
    let s := set_notes n s in
    if strictRoot_ features_ && negb (isArray root || isObject root) then
      Ok (false, root,
          addError (bs "A valid JSON document must be either an array or an object value.")
            (MkToken tokenError 0 end_) None s)
    else Ok (successful, root, s).

(** ** Error messages *)

(** The loop of [getLocationLineAndColumn]: the line and the start of it. *)
Fixpoint location_loop (fuel : nat) (location current lastLineStart : nat) (line : Z)
  : outcome (Z * nat) :=
  if (current <? location)%nat && negb (current =? end_)%nat then
    match fuel with
    | O => NoFuel
    | S fuel =>
        c ← char_at mem current;
        let current := (current + 1)%nat in
        if decide (c = CR) then
          d ← char_at mem current;
          let current := if decide (d = LF) then (current + 1)%nat else current in
          location_loop fuel location current current (line + 1)
        else if decide (c = LF) then location_loop fuel location current current (line + 1)
        else location_loop fuel location current lastLineStart line
    end
  else Ok (line, lastLineStart).

Definition getLocationLineAndColumn (location : nat) : outcome (Z * Z) :=
  '(line, lastLineStart) ← location_loop location location 0 0 0;
  Ok (line + 1, Z.of_nat location - Z.of_nat lastLineStart + 1).

Definition location_text (location : nat) : outcome bytes :=
  '(line, column) ← getLocationLineAndColumn location;
  snprintf 51 (bs "Line %d, Column %d") [AInt line; AInt column].

Definition formatError (formattedMessage : bytes) (error : ErrorInfo) : outcome bytes :=
  l ← location_text (start_ (token_ error));
  let formattedMessage :=
    formattedMessage ++ bs "* " ++ l ++ [LF] ++ bs "  " ++ message_ error ++ [LF] in
  match extra_ error with
  | Some e => l ← location_text e;
              Ok (formattedMessage ++ bs "See " ++ l ++ bs " for detail." ++ [LF])
  | None => Ok formattedMessage
  end.

Definition getFormattedErrorMessages (s : RState) : outcome bytes :=
  foldM formatError [] (errors_ s).

(** [getStructuredErrors]: offsets of the start and the limit, and the message. *)
Definition getStructuredErrors (s : RState) : list (Z * Z * bytes) :=
  (fun e => (Z.of_nat (start_ (token_ e)), Z.of_nat (end_of (token_ e)), message_ e))
    <$> errors_ s.

(** [pushError] for a value with the given source offsets, and for one with
    those of a second value. *)
Definition pushError (offsetStart offsetLimit : nat) (message : bytes) (s : RState)
  : bool * RState :=
  if (end_ <? offsetStart)%nat || (end_ <? offsetLimit)%nat then (false, s)
  else (true, addError message (MkToken tokenError offsetStart offsetLimit) None s).

Definition pushError_extra (offsetStart offsetLimit : nat) (message : bytes)
    (extraStart extraLimit : nat) (s : RState) : bool * RState :=
  if (end_ <? offsetStart)%nat || (end_ <? offsetLimit)%nat || (end_ <? extraLimit)%nat
  then (false, s)
  else (true, addError message (MkToken tokenError offsetStart offsetLimit) (Some extraStart) s).

Definition good (s : RState) : bool := bool_decide (errors_ s = []).
End Reader.

(** ** CharReader *)

(** [OurReader::parse]: without [allowComments_] none are collected. *)
Definition OurReader_parse (mem : bytes) (end_ : nat) (features_ : OurFeatures)
    (collectComments : bool) (root : Value) (root_notes : Notes) : outcome (bool * Value * RState) :=
  parse_root mem end_ features_ (collectComments && allowComments_ features_) root root_notes.

(** [OurCharReader::parse(beginDoc, endDoc, root, errs)] for a root without
    notes; those it gets are in the state of [OurReader_parse]. *)
Definition OurCharReader_parse (mem : bytes) (end_ : nat) (features_ : OurFeatures)
    (collectComments : bool) (root : Value) : outcome (bool * Value * bytes) :=
  '(ok, root, s) ← OurReader_parse mem end_ features_ collectComments root ∅;
  errs ← getFormattedErrorMessages mem end_ s;
  Ok (ok, root, errs).

(** *** CharReaderBuilder *)

Definition put (kv : bytes * Value) (settings : Value) : outcome Value :=
  member_set settings kv.1 kv.2.

Definition put_all (kvs : list (bytes * Value)) (settings : Value) : outcome Value :=
  foldM (fun s kv => put kv s) settings kvs.

Definition CharReaderBuilder_setDefaults (settings : Value) : outcome Value :=
  put_all
    [(bs "collectComments", VBool true); (bs "allowComments", VBool true);
     (bs "strictRoot", VBool false); (bs "allowDroppedNullPlaceholders", VBool false);
     (bs "allowNumericKeys", VBool false); (bs "allowSingleQuotes", VBool false);
     (bs "stackLimit", VInt 1000); (bs "failIfExtra", VBool false);
     (bs "rejectDupKeys", VBool false); (bs "allowSpecialFloats", VBool false)] settings.

Definition CharReaderBuilder_strictMode (settings : Value) : outcome Value :=
  put_all
    [(bs "allowComments", VBool false); (bs "strictRoot", VBool true);
     (bs "allowDroppedNullPlaceholders", VBool false); (bs "allowNumericKeys", VBool false);
     (bs "allowSingleQuotes", VBool false); (bs "stackLimit", VInt 1000);
     (bs "failIfExtra", VBool true); (bs "rejectDupKeys", VBool true);
     (bs "allowSpecialFloats", VBool false)] settings.

Definition setting_bool (settings : Value) (key : bytes) : outcome bool :=
  v ← member_const settings key; asBool v.

(** The features [newCharReader] reads from the settings, and whether comments
    are collected. *)
Definition newCharReader (settings : Value) : outcome (bool * OurFeatures) :=
  collectComments ← setting_bool settings (bs "collectComments");
  allowComments ← setting_bool settings (bs "allowComments");
  strictRoot ← setting_bool settings (bs "strictRoot");
  dropped ← setting_bool settings (bs "allowDroppedNullPlaceholders");
  numericKeys ← setting_bool settings (bs "allowNumericKeys");
  singleQuotes ← setting_bool settings (bs "allowSingleQuotes");
  v ← member_const settings (bs "stackLimit");
  stackLimit ← asUInt v;
  failIfExtra ← setting_bool settings (bs "failIfExtra");
  rejectDupKeys ← setting_bool settings (bs "rejectDupKeys");
  specialFloats ← setting_bool settings (bs "allowSpecialFloats");
  Ok (collectComments,
      MkFeatures allowComments strictRoot dropped numericKeys singleQuotes failIfExtra
        rejectDupKeys specialFloats (size_t stackLimit)).

Definition valid_reader_keys : list bytes :=
  [bs "collectComments"; bs "allowComments"; bs "strictRoot"; bs "allowDroppedNullPlaceholders";
   bs "allowNumericKeys"; bs "allowSingleQuotes"; bs "stackLimit"; bs "failIfExtra";
   bs "rejectDupKeys"; bs "allowSpecialFloats"].

(** [validate]: the settings with unknown keys, added to [invalid]. *)
Definition validate (valid_keys : list bytes) (settings invalid : Value)
  : outcome (bool * Value) :=
  keys ← getMemberNames settings;
  inv ← foldM (fun inv k =>
                 if decide (k ∈ valid_keys) then Ok inv
                 else v ← member_const settings k; member_set inv k v) invalid keys;
  Ok (value_empty inv, inv).

(** What the program does with every JSON text: a reader with the default
    settings parses the [size()] bytes of a string into a null value. *)
Definition parse_json (text : bytes) : outcome (bool * Value * bytes) :=
  settings ← CharReaderBuilder_setDefaults VNull;
  '(collectComments, features) ← newCharReader settings;
  OurCharReader_parse (c_str text) (length text) features collectComments VNull.
