(* ===== verification/JsonReaderProofs.v ===== *)
(** * The JSON reader is safe: bounds, termination, exceptions *)
From Stdlib Require Import ZArith Ascii String Lia SpecFloat.
From stdpp Require Import base tactics list gmap.
From S2P Require Import Prelude CLib CDouble JsonValue JsonNotes JsonValueProofs JsonReader.

#[local] Open Scope Z_scope.

(** ** Outcomes that are neither undefined nor out of fuel *)

(** [m] returns something with [P] or throws an exception with [X]. *)
Definition safe {A} (X : exn -> Prop) (m : outcome A) (P : A -> Prop) : Prop :=
  match m with
  | Ok a => P a
  | Throw e => X e
  | UB _ | NoFuel => False
  end.

Lemma safe_bind {A B} X (m : outcome A) (f : A -> outcome B) P Q :
  safe X m P -> (forall a, P a -> safe X (f a) Q) -> safe X (m ≫= f) Q.
Proof. destruct m; simpl; auto. Qed.

Lemma safe_mono {A} X (m : outcome A) (P Q : A -> Prop) :
  safe X m P -> (forall a, P a -> Q a) -> safe X m Q.
Proof. destruct m; simpl; auto. Qed.

Lemma safe_ret {A} X (a : A) (P : A -> Prop) : P a -> safe X (Ok a) P.
Proof. done. Qed.

Lemma safe_Ok {A} X (m : outcome A) P :
  safe X m P -> (forall e, ~ X e) -> exists a, m = Ok a /\ P a.
Proof. destruct m; simpl; intros H HX; eauto; try done. by destruct (HX _ H). Qed.

(** Runs the first part of a bind by the lemma [H], and names its result. *)
Tactic Notation "step" uconstr(H) "as" simple_intropattern_list(p) :=
  eapply safe_bind; [eapply H|intros p].

(** ** One turn of the recursive functions *)

Section Unfold.
Context (mem : bytes) (end_ : nat) (features_ : OurFeatures) (cc : bool).

Lemma array_loop_S fuel p index v s :
  array_loop mem end_ features_ cc (S fuel) p index v s =
  ('(w, v) ← index_ref_int v index;
  '(ok, w, s) ← readValue mem end_ features_ cc fuel (Element index :: p) w s;
  v ← index_set v index w;
  if negb ok then s ← recoverFromError mem end_ features_ cc tokenArrayEnd s; Ok (false, v, s)
  else
    '(currentToken, s) ← readToken mem end_ features_ cc s;
    '(currentToken, s) ← skip_comments mem end_ features_ cc (left_ end_ s) currentToken s;
    if decide (type_ currentToken <> tokenArraySeparator /\
               type_ currentToken <> tokenArrayEnd) then
      s ← addErrorAndRecover mem end_ features_ cc (bs "Missing ',' or ']' in array declaration") currentToken
            tokenArrayEnd s;
      Ok (false, v, s)
    else if decide (type_ currentToken = tokenArrayEnd) then Ok (true, v, s)
    else array_loop mem end_ features_ cc fuel p (i32 (index + 1)) v s).
Proof. reflexivity. Qed.

Lemma object_loop_S fuel p name_empty v s :
  object_loop mem end_ features_ cc (S fuel) p name_empty v s =
  ('(tokenName, s) ← readToken mem end_ features_ cc s;
  '(tokenName, s) ← skip_comments mem end_ features_ cc (left_ end_ s) tokenName s;
  if bool_decide (type_ tokenName = tokenObjectEnd) && name_empty then Ok (true, v, s)
  else
    '(r, s) ← readName mem features_ tokenName s;
    match r with
    | None =>
        s ← addErrorAndRecover mem end_ features_ cc (bs "Missing '}' or object member name") tokenName
              tokenObjectEnd s;
        Ok (false, v, s)
    | Some None => s ← recoverFromError mem end_ features_ cc tokenObjectEnd s; Ok (false, v, s)
    | Some (Some name) =>
        if 2 ^ 30 <=? size name then Throw ExRuntime
        else
          dup ← (if rejectDupKeys_ features_ then isMember v name else Ok false);
          if (dup : bool) then
            s ← addErrorAndRecover mem end_ features_ cc (bs "Duplicate key: '" ++ name ++ bs "'") tokenName
                  tokenObjectEnd s;
            Ok (false, v, s)
          else
            '(colon, s) ← readToken mem end_ features_ cc s;
            if decide (type_ colon <> tokenMemberSeparator) then
              s ← addErrorAndRecover mem end_ features_ cc (bs "Missing ':' after object member name") colon
                    tokenObjectEnd s;
              Ok (false, v, s)
            else
              '(w, v) ← resolveReference v name;
              '(ok, w, s) ← readValue mem end_ features_ cc fuel (Member name :: p) w s;
              v ← member_set v name w;
              if negb ok then s ← recoverFromError mem end_ features_ cc tokenObjectEnd s; Ok (false, v, s)
              else
                '(comma, s) ← readToken mem end_ features_ cc s;
                if decide (type_ comma <> tokenObjectEnd /\
                           type_ comma <> tokenArraySeparator /\
                           type_ comma <> tokenComment) then
                  s ← addErrorAndRecover mem end_ features_ cc (bs "Missing ',' or '}' in object declaration")
                        comma tokenObjectEnd s;
                  Ok (false, v, s)
                else
                  '(comma, s) ← skip_comments mem end_ features_ cc (left_ end_ s) comma s;
                  if decide (type_ comma = tokenObjectEnd) then Ok (true, v, s)
                  else object_loop mem end_ features_ cc fuel p (bool_decide (name = [])) v s
    end).
Proof. reflexivity. Qed.

Lemma readValue_S fuel p v s :
  readValue mem end_ features_ cc (S fuel) p v s =
  (if stackLimit_ features_ <? node_count p then Throw ExRuntime
  else
    '(tok, s) ← skipCommentTokens mem end_ features_ cc s;
    s ← attachCommentsBefore cc p s;
    let scalar w := Ok (true, w, mark_value cc p (token_payload p tok s)) in
    let fails :=
      Ok (false, v, addError (bs "Syntax error: value, object or array expected.") tok None
                        (token_offsets p tok s)) in
    match type_ tok with
    | tokenObjectBegin =>
        let s := offset_start p (start_ tok) (new_payload p s) in
        '(ok, v, s) ← object_loop mem end_ features_ cc fuel p true (VObject []) s; Ok (ok, v, end_value cc p s)
    | tokenArrayBegin =>
        s ← skipSpaces mem end_ (offset_start p (start_ tok) (new_payload p s));
        empty ← (if negb (current_ s =? end_)%nat then
                   c ← char_at mem (current_ s); Ok (bool_decide (c = "]"%char))
                 else Ok false);
        if (empty : bool) then '(_, s) ← readToken mem end_ features_ cc s; Ok (true, VArray [], end_value cc p s)
        else
          '(ok, v, s) ← array_loop mem end_ features_ cc fuel p 0 (VArray []) s; Ok (ok, v, end_value cc p s)
    | tokenNumber =>
        '(r, s) ← decodeNumber mem tok s;
        match r with
        | Some w => Ok (true, w, mark_value cc p (token_payload p tok s))
        | None => Ok (false, v, mark_value cc p s)
        end
    | tokenString =>
        '(r, s) ← decodeString mem tok s;
        match r with
        | Some text => w ← Value_of_string text; Ok (true, w, mark_value cc p (token_payload p tok s))
        | None => Ok (false, v, mark_value cc p s)
        end
    | tokenTrue => scalar (VBool true)
    | tokenFalse => scalar (VBool false)
    | tokenNull => scalar VNull
    | tokenNaN => scalar (VReal S754_nan)
    | tokenPosInf => scalar (VReal (S754_infinity false))
    | tokenNegInf => scalar (VReal (S754_infinity true))
    | tokenArraySeparator | tokenObjectEnd | tokenArrayEnd =>
        if allowDroppedNullPlaceholders_ features_ then
          Ok (true, VNull, mark_value cc p (dropped_payload p s))
        else fails
    | _ => fails
    end).
Proof. reflexivity. Qed.
End Unfold.

Section Safety.
Context (mem : bytes) (end_ : nat) (features_ : OurFeatures) (cc : bool).
Context (Hmem : (end_ < length mem)%nat).

Abbreviation doc := (take end_ mem).

(** Opening brackets in the first [n] characters. *)
Definition opens (n : nat) : nat :=
  length (filter (fun c => c = "["%char \/ c = "{"%char) (take n mem)).

(** Where exceptions can come from: brackets nested beyond the limit, comments
    that start with an apostrophe, and texts of a gigabyte. *)
Definition too_long : Prop := 2 ^ 30 <= Z.of_nat end_.
Definition may_throw (e : exn) : Prop :=
  (e = ExRuntime /\ (stackLimit_ features_ < 1 + Z.of_nat (opens end_) \/ too_long \/
                     allowNumericKeys_ features_ = true)) \/
  (e = ExLogic /\ (SQUOTE ∈ doc \/ too_long)).

Abbreviation safely m P := (safe may_throw m P).

(** ** Characters *)

Lemma char_safe i (X : exn -> Prop) :
  (i < length mem)%nat -> safe X (char_at mem i) (fun c => mem !! i = Some c).
Proof.
  intros Hi. destruct (lookup_lt_is_Some_2 mem i Hi) as [c Hc].
  rewrite (char_at_Ok _ _ _ Hc). exact Hc.
Qed.

(** Comments kept for the next value start with a slash, unless an apostrophe
    could have started them. *)
Definition comment_ok (t : bytes) : Prop :=
  (exists c r, t = "/"%char :: c :: r) \/ SQUOTE ∈ doc.

Record state_ok (s : RState) : Prop := {
  ok_current : (current_ s <= end_)%nat;
  ok_errors : Forall (fun e => (start_ (token_ e) <= end_)%nat /\
                               forall x, extra_ e = Some x -> (x <= end_)%nat) (errors_ s);
  ok_comments : commentsBefore_ s = [] \/ comment_ok (commentsBefore_ s);
  ok_last : is_Some (lastValueEnd_ s) -> is_Some (lastValue_ s)
}.

(** [s'] is later than [s]. *)
Definition later (s s' : RState) : Prop := state_ok s' /\ (current_ s <= current_ s')%nat.

Lemma state_ok_current s n : state_ok s -> (n <= end_)%nat -> state_ok (set_current n s).
Proof. intros [? ? ? ?] ?; by constructor. Qed.

(** Notes do not matter for any of this. *)
Lemma later_notes s s' n : later s s' -> later s (set_notes n s').
Proof. intros [[? ? ? ?] ?]; split; [by constructor|done]. Qed.

Lemma later_refl s : state_ok s -> later s s.
Proof. by split. Qed.

Lemma later_trans s1 s2 s3 : later s1 s2 -> later s2 s3 -> later s1 s3.
Proof. intros [? ?] [? ?]; split; [done|lia]. Qed.

Lemma next_safe s (X : exn -> Prop) :
  state_ok s ->
  safe X (getNextChar mem end_ s) (fun '(c, s') =>
    later s s' /\ ((current_ s = end_ /\ c = NUL /\ s' = s) \/
                   (mem !! current_ s = Some c /\ s' = set_current (current_ s + 1) s
                    /\ (current_ s < end_)%nat))).
Proof.
  intros Hs; pose proof (ok_current s Hs). unfold getNextChar.
  destruct (Nat.eqb_spec (current_ s) end_); [by split; [apply later_refl|left]|].
  eapply safe_bind; [apply (char_safe _ X); lia|]. intros c Hc; simpl.
  split; [split; [apply state_ok_current; [done|lia]|simpl; lia]|]. right; split_and!; [done..|lia].
Qed.

Lemma skipSpaces_safe s : state_ok s -> safely (skipSpaces mem end_ s) (later s).
Proof.
  unfold skipSpaces. assert (left_ end_ s > end_ - current_ s)%nat as Hf by (unfold left_; lia).
  generalize dependent (left_ end_ s); intros n; revert s.
  induction n as [|n IH]; intros s Hf Hs; [lia|].
  pose proof (ok_current s Hs). cbn [skipSpaces_loop].
  destruct (Nat.eqb_spec (current_ s) end_); [by apply later_refl|].
  step char_safe as c Hc; [lia|]. destruct (is_json_space c); [|by apply later_refl].
  eapply safe_mono; [apply IH; simpl; [lia|apply state_ok_current; [done|lia]]|].
  intros s' [H1 H2]; split; [done|simpl in *; lia].
Qed.

Lemma match_safe pattern s :
  state_ok s -> safely (match_ mem end_ pattern s) (fun '(_, s') => later s s').
Proof.
  intros Hs; pose proof (ok_current s Hs). unfold match_.
  destruct (Nat.ltb_spec (end_ - current_ s) (length pattern)); [by apply later_refl|].
  assert (G : forall n, (n <= length pattern)%nat ->
    safely (match_loop mem n (current_ s) pattern) (fun _ => True)).
  { induction n as [|n IH]; intros Hn; [done|]. cbn [match_loop].
    step char_safe as c _; [lia|].
    destruct (lookup_lt_is_Some_2 pattern n) as [p Hp]; [lia|]. rewrite (char_at_Ok _ _ _ Hp); run.
    case_decide; [done|]. apply IH; lia. }
  step (G (length pattern)) as ok _; [done|]. simpl. destruct ok; [|by apply later_refl].
  split; [apply state_ok_current; [done|lia]|simpl; lia].
Qed.

(** ** Comments *)

Lemma containsNewLine_safe (X : exn -> Prop) a b :
  (b <= end_)%nat -> safe X (containsNewLine mem a b) (fun _ => True).
Proof.
  intros Hb. unfold containsNewLine.
  assert (G : forall n i, (i + n <= end_)%nat \/ n = 0%nat ->
    safe X (containsNewLine_loop mem n i) (fun _ => True)); [|apply G; lia].
  induction n as [|n IH]; intros i Hi; [done|]. cbn [containsNewLine_loop].
  step char_safe as c _; [lia|]. case_decide; [done|]. apply IH; lia.
Qed.

(** The text of a comment of at least two characters. *)
Lemma normalizeEOL_safe (X : exn -> Prop) a b :
  (a <= b <= end_)%nat ->
  safe X (normalizeEOL mem a b) (fun t =>
    forall c, mem !! a = Some c -> c <> CR -> (a + 1 < b)%nat -> exists d r, t = c :: d :: r).
Proof.
  intros Hab. unfold normalizeEOL.
  assert (G : forall n i, (b - i < n)%nat -> (i <= b)%nat ->
    safe X (normalizeEOL_loop mem n i b) (fun t => (i < b)%nat -> exists d r, t = d :: r)).
  { induction n as [|n IH]; intros i Hn Hi; [lia|]. cbn [normalizeEOL_loop].
    destruct (Nat.eqb_spec i b); [simpl; lia|]. step char_safe as c _; [lia|].
    case_decide.
    - eapply safe_bind with (P := fun lf : bool => lf = true -> (i + 2 <= b)%nat).
      { destruct (Nat.eqb_spec (i + 1) b); [done|]. cbn [negb].
        step char_safe as d _; [lia|]. simpl; lia. }
      intros lf Hlf. eapply safe_bind; [apply IH; destruct lf; try specialize (Hlf eq_refl); lia|].
      intros r _; simpl; eauto.
    - eapply safe_bind; [apply IH; lia|]. intros r _; simpl; eauto. }
  cbn [normalizeEOL_loop]. destruct (Nat.eqb_spec a b); [simpl; lia|].
  step char_safe as c Hc; [lia|]. case_decide.
  - eapply safe_bind with (P := fun lf : bool => lf = true -> (a + 2 <= b)%nat).
    { destruct (Nat.eqb_spec (a + 1) b); [done|]. cbn [negb].
      step char_safe as d _; [lia|]. simpl; lia. }
    intros lf Hlf. eapply safe_bind; [apply G; destruct lf; try specialize (Hlf eq_refl); lia|].
    intros r _; simpl. intros; congruence.
  - eapply safe_bind; [apply G; lia|]. intros r Hr; simpl.
    intros c' Hc' _ Hlt. destruct (Hr ltac:(lia)) as (d & r' & ->). exists d, r'. congruence.
Qed.

Lemma comment_text_safe t :
  comment_ok t -> safely (comment_text t) (fun _ => True).
Proof.
  intros [(c & r & ->)|Hq].
  - unfold comment_text, json_assert.
    match goal with |- context [match last ?t with _ => _ end] =>
      set (u := match last t with Some _ => _ | None => _ end) end.
    assert (exists r', u = "/"%char :: r') as [r' ->]; [|by rewrite bool_decide_false].
    subst u. destruct (last _); [case_decide|]; eauto.
  - unfold comment_text, json_assert.
    assert (may_throw ExLogic) by (right; auto).
    repeat case_match; simpl; try done.
Qed.

Lemma setComment_safe p t slot n :
  comment_ok t -> safely (setComment p t slot n) (fun _ => True).
Proof. intros Ht. unfold setComment. by step comment_text_safe as c _. Qed.

Lemma readCStyle_safe s :
  state_ok s -> safely (readCStyleComment mem end_ s) (fun '(_, s') => later s s').
Proof.
  intros Hs. unfold readCStyleComment.
  eapply safe_bind with (P := fun s' => later s s').
  - assert (left_ end_ s > end_ - current_ s)%nat as Hf by (unfold left_; lia).
    generalize dependent (left_ end_ s); intros n; revert s Hs.
    induction n as [|n IH]; intros s Hs Hf; [lia|]. cbn [readCStyleComment_loop].
    destruct (Nat.ltb_spec (current_ s + 1) end_); [|by apply later_refl].
    step next_safe as [c s1] [H1 H2]; [done|].
    destruct H2 as [(? & _)|(Hc & -> & _)]; [lia|].
    eapply safe_bind with (P := fun _ => True).
    { case_decide; [|done]. step char_safe as d _; [simpl; lia|done]. }
    intros stop _. destruct stop; [done|].
    eapply safe_mono; [apply IH; [apply H1|simpl; lia]|]. intros s' H'. by eapply later_trans.
  - intros s1 H1. step next_safe as [c s2] [H2 _]; [apply H1|]. simpl. by eapply later_trans.
Qed.

Lemma readCppStyle_safe s :
  state_ok s -> safely (readCppStyleComment mem end_ s) (fun '(_, s') => later s s').
Proof.
  intros Hs. unfold readCppStyleComment.
  eapply safe_bind with (P := fun s' => later s s'); [|done].
  assert (left_ end_ s > end_ - current_ s)%nat as Hf by (unfold left_; lia).
  generalize dependent (left_ end_ s); intros n; revert s Hs.
  induction n as [|n IH]; intros s Hs Hf; [lia|]. pose proof (ok_current s Hs).
  cbn [readCppStyleComment_loop].
  destruct (Nat.eqb_spec (current_ s) end_); [by apply later_refl|].
  step next_safe as [c s1] [H1 H2]; [done|].
  destruct H2 as [(? & _)|(Hc & -> & _)]; [lia|].
  case_decide; [done|]. case_decide.
  - eapply safe_bind with (P := fun _ => True).
    { destruct (Nat.eqb_spec (current_ (set_current (current_ s + 1) s)) end_); [done|].
      pose proof (ok_current _ (proj1 H1)). step char_safe as d _; [lia|done]. }
    intros lf _. destruct lf; [|done].
    step next_safe as [c2 s2] [K _]; [apply H1|]. simpl. by eapply later_trans.
  - eapply safe_mono; [apply IH; [apply H1|simpl; lia]|]. intros s' H'. by eapply later_trans.
Qed.

(** The character in front of [current_] started a comment. *)
Lemma readComment_safe s c0 :
  state_ok s -> (0 < current_ s)%nat -> mem !! (current_ s - 1)%nat = Some c0 ->
  c0 = "/"%char \/ c0 = SQUOTE ->
  safely (readComment mem end_ cc s) (fun '(_, s') => later s s').
Proof.
  intros Hs Hpos Hc0 Hq. pose proof (ok_current s Hs) as Hcur. unfold readComment.
  step next_safe as [c s1] [H1 H1']; [done|].
  eapply safe_bind with (P := fun '(ok, s') => later s1 s' /\ (ok = true -> c <> NUL)).
  { case_decide as Hd; [eapply safe_mono; [apply readCStyle_safe, H1|]|
      case_decide as Hd'; [eapply safe_mono; [apply readCppStyle_safe, H1|]|]].
    - intros [ok s'] H; split; [done|]. by intros _ ->.
    - intros [ok s'] H; split; [done|]. by intros _ ->.
    - split; [apply later_refl, H1|done]. }
  intros [ok s2] [H2 Hok]. pose proof (later_trans _ _ _ H1 H2) as H12.
  destruct ok; cbn [negb]; [|done]. destruct cc eqn:Ecc; [|done].
  destruct H1' as [(_ & -> & _)|(_ & -> & Hlt)]; [by destruct (Hok eq_refl)|].
  pose proof (ok_current s2 (proj1 H2)). destruct H2 as [Hok2 Hle]; simpl in Hle.
  assert (Ht : safely (normalizeEOL mem (current_ s - 1) (current_ s2)) comment_ok).
  { eapply safe_mono; [apply (normalizeEOL_safe may_throw); lia|]. intros t Ht.
    destruct Hq as [->| ->].
    - left. destruct (Ht "/"%char) as (d & r & ->); [done|done|lia|eauto].
    - right. apply list_elem_of_lookup. exists (current_ s - 1)%nat.
      rewrite lookup_take_lt; [done|lia]. }
  eapply safe_bind with (P := fun after : bool => after = true -> is_Some (lastValueEnd_ s2)).
  { destruct (lastValueEnd_ s2) as [e|]; [|done].
    step containsNewLine_safe as nl _; [lia|]. destruct nl; [done|].
    case_decide; [by intros _; eexists|].
    step containsNewLine_safe as nl _; [lia|]. by intros _; eexists. }
  intros after Hafter. unfold addComment. cbn [negb].
  eapply safe_bind with (P := fun s' => later s s'); [|done].
  eapply safe_bind; [exact Ht|]. intros t Hct.
  destruct after.
  - destruct (ok_last s2 Hok2 (Hafter eq_refl)) as [q ->]. step setComment_safe as u _; [done|].
    by apply later_notes.
  - simpl. split; [|simpl; lia]. destruct Hok2 as [K1 K2 K3 K4]; constructor; [done|done| |done].
    right. simpl. destruct K3 as [->|[(d & r & ->)|Hd]]; [done|left; eauto|by right].
Qed.

(** ** Numbers and strings *)

(** [current_] and [p] of [readNumber]. *)
Definition number_ok (lo : nat) (x : ascii * nat * nat) : Prop :=
  let '(c, cur, p) := x in
  (lo <= cur <= end_)%nat /\ (cur <= p <= end_)%nat /\ (is_digit c = true -> (cur < p \/ p = lo)%nat).

Lemma next_number_safe (X : exn -> Prop) lo p :
  (lo <= p <= end_)%nat ->
  safe X (next_number_char mem end_ p) (fun '(c, cur, p') =>
    (lo <= cur <= end_)%nat /\ (cur <= p' <= end_)%nat /\ (p <= p')%nat /\
    (is_digit c = true -> p < p')%nat).
Proof.
  intros Hp. unfold next_number_char. destruct (Nat.ltb_spec p end_).
  - step (char_safe p X) as c _; [lia|]. simpl. lia.
  - simpl. split_and!; try lia. done.
Qed.

Lemma skip_digits_safe (X : exn -> Prop) lo n c cur p :
  (lo <= cur <= end_)%nat -> (cur <= p <= end_)%nat -> (end_ - p + 1 < n)%nat ->
  safe X (skip_digits mem end_ n (c, cur, p)) (fun '(_, cur, p) =>
    (lo <= cur <= end_)%nat /\ (cur <= p <= end_)%nat).
Proof.
  revert c cur p; induction n as [|n IH]; intros c cur p H1 H2 Hn; [lia|]. cbn [skip_digits].
  destruct (is_digit c); [|done].
  step (next_number_safe X lo p) as [[c' cur'] p'] (K1 & K2 & K3 & K4); [lia|].
  destruct (is_digit c') eqn:Ed.
  - apply IH; [done|done|specialize (K4 eq_refl); lia].
  - destruct n; cbn [skip_digits]; rewrite Ed; done.
Qed.

Lemma readNumber_safe b s :
  state_ok s -> safely (readNumber mem end_ b s) (fun '(_, s') => later s s').
Proof.
  intros Hs; pose proof (ok_current s Hs). unfold readNumber.
  eapply safe_bind with (P := fun inf : bool => inf = true -> (current_ s < end_)%nat).
  { destruct b; [|done]. destruct (Nat.eqb_spec (current_ s) end_); [done|]. cbn [andb negb].
    step char_safe as c _; [lia|]. simpl; lia. }
  intros inf Hinf. destruct inf.
  { specialize (Hinf eq_refl). split; [apply state_ok_current; [done|lia]|simpl; lia]. }
  set (ok := fun x : ascii * nat * nat => let '(_, cur, p) := x in
    (current_ s <= cur <= end_)%nat /\ (cur <= p <= end_)%nat).
  assert (Hskip : forall x, ok x -> safely (skip_digits mem end_ (S (left_ end_ s)) x) ok).
  { intros [[c cur] p] [K1 K2]. apply skip_digits_safe; [done|done|unfold left_; lia]. }
  assert (Hnext : forall p, (current_ s <= p <= end_)%nat -> safely (next_number_char mem end_ p) ok).
  { intros p Hp. eapply safe_mono; [by apply (next_number_safe may_throw (current_ s))|].
    intros [[c cur] p'] (K1 & K2 & _); done. }
  step Hskip as x Hx; [simpl; lia|].
  eapply safe_bind with (P := ok).
  { destruct x as [[c cur] p]. case_decide; [|done]. destruct Hx.
    step Hnext as y Hy; [lia|]. by apply Hskip. }
  clear x Hx. intros x Hx. eapply safe_bind with (P := ok).
  { destruct x as [[c cur] p]. case_decide; [|done]. destruct Hx.
    step Hnext as y Hy; [lia|]. eapply safe_bind with (P := ok); [|apply Hskip].
    destruct y as [[c' cur'] p']. case_decide; [|done]. destruct Hy. apply Hnext; lia. }
  clear x Hx. intros [[c cur] p] [K1 K2]. simpl.
  split; [apply state_ok_current; [done|lia]|simpl; lia].
Qed.

(** The loop of the strings: a quote at the end has been consumed. *)
Lemma readString_loop_safe q n c s :
  state_ok s -> (end_ - current_ s < n)%nat ->
  safely (readString_loop mem end_ n q c s) (fun '(c', s') =>
    later s s' /\ (c' = c /\ current_ s = end_ \/ (current_ s < current_ s')%nat)).
Proof.
  revert c s; induction n as [|n IH]; intros c s Hs Hn; [lia|]. cbn [readString_loop].
  pose proof (ok_current s Hs).
  destruct (Nat.eqb_spec (current_ s) end_); [by split; [apply later_refl|left]|].
  step next_safe as [c1 s1] [H1 H2]; [done|].
  destruct H2 as [(? & _)|(Hc & -> & _)]; [lia|].
  case_decide; [|case_decide].
  - step next_safe as [c2 s2] [H2 _]; [apply H1|]. pose proof (later_trans _ _ _ H1 H2).
    destruct H1 as [K1 K2], H2 as [K3 K4]; simpl in *.
    eapply safe_mono; [apply IH; [done|lia]|].
    intros [c' s'] [K5 _]. split; [by eapply later_trans|]. destruct K5; lia.
  - split; [done|]. simpl; lia.
  - eapply safe_mono; [apply IH; [apply H1|simpl; lia]|].
    intros [c' s'] [K5 _]. split; [by eapply later_trans|]. destruct K5; simpl in *; lia.
Qed.

(** ** Tokens *)

(** What [readToken] guarantees of a token read from [s] to [s']. *)
Definition token_ok (s : RState) (tok : Token) (s' : RState) : Prop :=
  later s s' /\ (current_ s <= start_ tok)%nat /\ end_of tok = current_ s' /\
  (start_ tok <= end_of tok)%nat /\
  (type_ tok <> tokenEndOfStream -> (start_ tok < end_of tok)%nat) /\
  (type_ tok = tokenString -> (start_ tok + 2 <= end_of tok)%nat) /\
  (type_ tok = tokenObjectBegin \/ type_ tok = tokenArrayBegin ->
   exists c, mem !! start_ tok = Some c /\ (c = "["%char \/ c = "{"%char)).

(** The part of [readToken] behind the first character. *)
Definition scanned_ok (start : nat) (s1 : RState) (x : TokenType * bool * RState) : Prop :=
  let '(t, ok, s') := x in
  later s1 s' /\
  (t = tokenString -> ok = true -> (start + 2 <= current_ s')%nat) /\
  (t = tokenObjectBegin \/ t = tokenArrayBegin ->
   exists c, mem !! start = Some c /\ (c = "["%char \/ c = "{"%char)) /\
  ((t = tokenEndOfStream /\ ok = true) \/ (start < current_ s')%nat).

Lemma scan_safe start s1 t (m : outcome (bool * RState)) :
  (start < current_ s1)%nat -> t <> tokenObjectBegin -> t <> tokenArrayBegin ->
  safely m (fun '(ok, s') => later s1 s' /\
     (t = tokenString -> ok = true -> (start + 2 <= current_ s')%nat)) ->
  safely ('(ok, s') ← m; Ok (t, ok, s')) (scanned_ok start s1).
Proof.
  intros Hlt H1 H2 Hm. eapply safe_bind; [exact Hm|]. intros [ok s'] [H3 H4]. simpl.
  split_and!; [done|done|by intros [?|?]|right; destruct H3; lia].
Qed.

Lemma readQuoted_safe q s :
  q <> NUL -> state_ok s ->
  safely ('(c, s') ← readString_loop mem end_ (left_ end_ s) q NUL s; Ok (bool_decide (c = q), s'))
    (fun '(ok, s') => later s s' /\ (ok = true -> (current_ s < current_ s')%nat)).
Proof.
  intros Hq Hs. step readString_loop_safe as [c s'] [H1 H2]; [done|unfold left_; lia|].
  simpl. split; [done|]. intros Hb. apply bool_decide_eq_true in Hb as ->.
  destruct H2 as [[? _]|?]; [by destruct Hq|done].
Qed.

(** Every case of the switch, for a first character that is not at the end. *)
Section Scan.
Context (s0 : RState) (c : ascii).
Context (Hs0 : state_ok s0) (Hlt : (current_ s0 < end_)%nat) (Hc : mem !! current_ s0 = Some c).

Let s1 := set_current (current_ s0 + 1) s0.

Lemma s1_ok : state_ok s1.
Proof. apply state_ok_current; [done|lia]. Qed.

Lemma s1_gt : (current_ s0 < current_ s1)%nat.
Proof. simpl; lia. Qed.

Lemma scanned_later t ok s' :
  later s1 s' -> t <> tokenObjectBegin -> t <> tokenArrayBegin -> t <> tokenString ->
  scanned_ok (current_ s0) s1 (t, ok, s').
Proof.
  intros H T1 T2 T3. pose proof s1_gt.
  split_and!; [done|done|by intros [?|?]|right; destruct H; lia].
Qed.

Lemma scanned_simple t :
  t <> tokenString ->
  (t = tokenObjectBegin \/ t = tokenArrayBegin -> c = "["%char \/ c = "{"%char) ->
  scanned_ok (current_ s0) s1 (t, true, s1).
Proof.
  intros Ht Hb. pose proof s1_gt. split_and!; [apply later_refl, s1_ok|done|eauto|by right].
Qed.

Lemma scanned_error t :
  t <> tokenObjectBegin -> t <> tokenArrayBegin -> t <> tokenString ->
  scanned_ok (current_ s0) s1 (t, false, s1).
Proof. intros; apply scanned_later; [apply later_refl, s1_ok|done..]. Qed.

Lemma scanned_match p t :
  t <> tokenObjectBegin -> t <> tokenArrayBegin -> t <> tokenString ->
  safely ('(ok, s') ← match_ mem end_ p s1; Ok (t, ok, s')) (scanned_ok (current_ s0) s1).
Proof.
  intros T1 T2 T3. apply scan_safe; [apply s1_gt|done..|].
  eapply safe_mono; [apply match_safe, s1_ok|]. by intros [ok s'] H.
Qed.

Lemma scanned_string q :
  q <> NUL ->
  safely ('(ok, s') ← ('(c, s') ← readString_loop mem end_ (left_ end_ s1) q NUL s1;
                       Ok (bool_decide (c = q), s'));
          Ok (tokenString, ok, s')) (scanned_ok (current_ s0) s1).
Proof.
  intros Hq. apply scan_safe; [apply s1_gt|done..|].
  eapply safe_mono; [apply readQuoted_safe; [done|apply s1_ok]|]. intros [ok s'] [H2 H3].
  split; [done|]. intros _ ->. specialize (H3 eq_refl). simpl in *; lia.
Qed.

Lemma scanned_comment :
  c = "/"%char \/ c = SQUOTE ->
  safely ('(ok, s') ← readComment mem end_ cc s1; Ok (tokenComment, ok, s'))
    (scanned_ok (current_ s0) s1).
Proof.
  intros Hcq. apply scan_safe; [apply s1_gt|done..|].
  eapply safe_mono; [apply (readComment_safe s1 c); [apply s1_ok|simpl; lia| |done]|].
  - simpl. by replace (current_ s0 + 1 - 1)%nat with (current_ s0) by lia.
  - by intros [ok s'] H.
Qed.

Lemma scanToken_safe :
  safely (scanToken mem end_ features_ cc c s1) (scanned_ok (current_ s0) s1).
Proof.
  unfold scanToken.
  case_decide; [apply scanned_simple; auto; done|].
  case_decide; [apply scanned_simple; [done|by intros [?|?]]|].
  case_decide; [apply scanned_simple; auto; done|].
  case_decide; [apply scanned_simple; [done|by intros [?|?]]|].
  case_decide; [by apply scanned_string|].
  case_decide; [destruct (allowSingleQuotes_ features_);
    [by apply scanned_string|apply scanned_comment; auto]|].
  case_decide; [apply scanned_comment; auto|].
  destruct (is_digit c).
  { step readNumber_safe as [b s2] K; [apply s1_ok|]. by apply scanned_later. }
  case_decide.
  { step readNumber_safe as [b s2] K; [apply s1_ok|]. destruct b; [by apply scanned_later|].
    destruct (allowSpecialFloats_ features_); [|by apply scanned_later].
    step match_safe as [ok s3] K3; [apply K|].
    apply scanned_later; [by eapply later_trans|done..]. }
  repeat (case_decide; [first [by apply scanned_match
    | apply scanned_simple; [done|by intros [?|?]]
    | destruct (allowSpecialFloats_ features_); [by apply scanned_match|by apply scanned_error]]|]).
  by apply scanned_error.
Qed.
End Scan.

Lemma readToken_safe s :
  state_ok s -> safely (readToken mem end_ features_ cc s) (fun '(tok, s') => token_ok s tok s').
Proof.
  intros Hs. unfold readToken. step skipSpaces_safe as s0 [Hs0 Hle0]; [done|].
  step next_safe as [c s1] [H1 Hc]; [done|].
  eapply safe_bind with (P := scanned_ok (current_ s0) s1).
  - destruct Hc as [(He & -> & ->)|(Hc & -> & Hlt)]; [|by apply scanToken_safe].
    split_and!; [by apply later_refl|done|by intros [?|?]|by left].
  - intros [[t ok] s'] (K1 & K2 & K3 & K4). pose proof (later_trans _ _ _ H1 K1) as [K5 K6].
    unfold token_ok; simpl. split_and!; try done; try lia.
    + split; [done|lia].
    + intros Hne. by destruct K4 as [[-> ->]|].
    + destruct ok; [|done]. intros Ht. by apply K2.
    + destruct ok; [done|]. by intros [?|?].
Qed.

(** ** Comments between tokens, errors *)

Lemma token_ok_later s0 s tok s' : later s0 s -> token_ok s tok s' -> token_ok s0 tok s'.
Proof.
  intros H1 (H2 & H3 & H4). split; [by eapply later_trans|]. destruct H1. split; [lia|done].
Qed.

Lemma skip_comments_safe n s0 tok s :
  token_ok s0 tok s -> (end_ - current_ s < n)%nat ->
  safely (skip_comments mem end_ features_ cc n tok s) (fun '(tok', s') =>
    token_ok s0 tok' s' /\ (current_ s <= current_ s')%nat).
Proof.
  revert tok s; induction n as [|n IH]; intros tok s Htok Hn; [lia|]. cbn [skip_comments].
  case_decide; [|done]. pose proof Htok as ([Hs Hle] & H1 & H2 & H3 & H4 & _).
  step readToken_safe as [tok' s'] Htok'; [done|].
  pose proof Htok' as (K1 & K2 & K3 & K4 & K5 & _). destruct K1 as [K1 K1'].
  destruct (decide (type_ tok' = tokenComment)) as [Hc|Hc].
  - specialize (K5 ltac:(congruence)). pose proof (ok_current _ K1).
    eapply safe_mono; [apply IH; [eapply token_ok_later; [|exact Htok']; by split|lia]|].
    intros [tok2 s2] [L1 L2]. split; [done|lia].
  - destruct n; cbn [skip_comments]; rewrite decide_False by done;
      (split; [eapply token_ok_later; [|exact Htok']; by split|done]).
Qed.

Lemma readToken_skip_safe s :
  state_ok s ->
  safely ('(tok, s) ← readToken mem end_ features_ cc s;
          skip_comments mem end_ features_ cc (left_ end_ s) tok s)
    (fun '(tok, s') => token_ok s tok s').
Proof.
  intros Hs. step readToken_safe as [tok s'] Htok; [done|].
  eapply safe_mono; [apply skip_comments_safe; [done|unfold left_; lia]|]. by intros [? ?] [? _].
Qed.

Lemma skipCommentTokens_safe s :
  state_ok s -> safely (skipCommentTokens mem end_ features_ cc s) (fun '(tok, s') => token_ok s tok s').
Proof.
  intros Hs. unfold skipCommentTokens. destruct (allowComments_ features_).
  - by apply readToken_skip_safe.
  - step readToken_safe as [tok s'] H; [done|]. exact H.
Qed.

Lemma addError_later m tok extra s :
  state_ok s -> (start_ tok <= end_)%nat -> (forall x, extra = Some x -> (x <= end_)%nat) ->
  later s (addError m tok extra s).
Proof.
  intros [? ? ? ?] H1 H2. split; [|done]. constructor; [done| |done|done]. simpl.
  apply Forall_app; split; [done|]. by repeat constructor.
Qed.

Lemma recover_safe t s :
  state_ok s -> safely (recoverFromError mem end_ features_ cc t s) (later s).
Proof.
  intros Hs. unfold recoverFromError. eapply safe_bind with (P := later s).
  - assert (left_ end_ s > end_ - current_ s)%nat as Hf by (unfold left_; lia).
    generalize dependent (left_ end_ s); intros n; revert s Hs.
    induction n as [|n IH]; intros s Hs Hf; [lia|]. cbn [recover_loop].
    step readToken_safe as [tok s'] (K1 & K2 & K3 & K4 & K5 & _); [done|].
    case_decide as Hd; [done|]. specialize (K5 ltac:(tauto)).
    pose proof (ok_current _ (proj1 K1)).
    eapply safe_mono; [apply IH; [apply K1|lia]|]. intros s2 H2. by eapply later_trans.
  - intros s' [Hs' Hle]. split; [|done]. destruct Hs' as [? ? ? ?]; constructor; [done| |done|done].
    simpl. by apply Forall_take.
Qed.

Lemma addErrorAndRecover_safe m tok t s :
  state_ok s -> (start_ tok <= end_)%nat ->
  safely (addErrorAndRecover mem end_ features_ cc m tok t s) (later s).
Proof.
  intros Hs Ht. unfold addErrorAndRecover.
  pose proof (addError_later m tok None s Hs Ht ltac:(done)) as H1.
  eapply safe_mono; [apply recover_safe, H1|]. intros s' H2. exact (later_trans _ _ _ H1 H2).
Qed.

(** ** Decoding *)

Definition token_in (tok : Token) : Prop :=
  (start_ tok <= end_of tok)%nat /\ (end_of tok <= end_)%nat.

Lemma token_ok_in s tok s' : token_ok s tok s' -> token_in tok.
Proof.
  intros ([H1 _] & H2 & H3 & H4 & _). pose proof (ok_current _ H1). split; lia.
Qed.

Lemma decodeDouble_safe tok s :
  state_ok s -> token_in tok ->
  safely (decodeDouble mem tok s) (fun '(r, s') =>
    later s s' /\ forall v, r = Some v -> isNumeric v = true).
Proof.
  intros Hs [H1 H2]. unfold decodeDouble, token_text. rewrite mem_range_Ok by lia; run.
  destruct (sscanf_lf _); simpl; [split; [by apply later_refl|by intros v [= <-]]|].
  split; [apply addError_later; [done|lia|done]|done].
Qed.

Lemma decodeNumber_safe tok s :
  state_ok s -> token_in tok -> (start_ tok < end_of tok)%nat ->
  safely (decodeNumber mem tok s) (fun '(r, s') =>
    later s s' /\ forall v, r = Some v -> isNumeric v = true).
Proof.
  intros Hs [H1 H2] Hlt. unfold decodeNumber. step char_safe as c _; [lia|].
  set (current := if bool_decide (c = "-"%char) then _ else _).
  assert (Hcur : (start_ tok <= current <= end_of tok)%nat) by (unfold current; case_match; lia).
  eapply safe_bind with (P := fun _ => True).
  - assert (G : forall n th ld i value, (i + n <= end_)%nat ->
      safely (decodeNumber_loop mem n th ld i value) (fun _ => True)); [|apply G; lia].
    induction n as [|n IH]; intros th ld i value Hi; [done|]. cbn [decodeNumber_loop].
    step char_safe as d _; [lia|]. repeat case_match; try done. apply IH; lia.
  - intros [value|] _; [|by apply decodeDouble_safe].
    simpl. split; [by apply later_refl|]. intros v [= <-]. by repeat case_match.
Qed.

Lemma hex_loop_safe (X : exn -> Prop) n i u :
  (i + n <= end_)%nat ->
  safe X (hex_loop mem n i u) (fun '(r, j) => (i <= j <= i + n)%nat /\ (r <> None -> j = i + n)%nat).
Proof.
  revert i u; induction n as [|n IH]; intros i u Hi; [simpl; lia|]. cbn [hex_loop].
  step char_safe as c _; [lia|]. destruct (hex_digit c); [|split; [simpl; lia|done]].
  eapply safe_mono; [apply IH; lia|]. intros [r j] [H1 H2]. split; [lia|]. intros Hr.
  specialize (H2 Hr); lia.
Qed.

Lemma escape_safe tok i e s :
  state_ok s -> (start_ tok <= end_)%nat -> (i <= e <= end_)%nat ->
  safely (decodeUnicodeEscapeSequence mem tok i e s) (fun '(r, j, s') =>
    later s s' /\ (i <= j <= e)%nat /\ (r <> None -> i + 4 <= j)%nat).
Proof.
  intros Hs Ht Hi. unfold decodeUnicodeEscapeSequence.
  destruct (Nat.ltb_spec (e - i) 4).
  { split; [apply addError_later; [done|done|]|split; [lia|done]]. by intros x [= <-]; lia. }
  step hex_loop_safe as [r j] [Hj Hr]; [lia|]. destruct r; simpl.
  - split; [by apply later_refl|]. specialize (Hr ltac:(done)); lia.
  - split; [apply addError_later; [done|done|]|split; [lia|done]]. intros x [= <-]; lia.
Qed.

Lemma codepoint_safe tok i e s :
  state_ok s -> (start_ tok <= end_)%nat -> (i <= e <= end_)%nat ->
  safely (decodeUnicodeCodePoint mem tok i e s) (fun '(r, j, s') =>
    later s s' /\ (i <= j <= e)%nat /\ (r <> None -> i + 4 <= j)%nat).
Proof.
  intros Hs Ht Hi. unfold decodeUnicodeCodePoint.
  step escape_safe as [[r j] s1] (H1 & Hj & Hr); [done..|]. destruct r as [u|]; [|done].
  specialize (Hr ltac:(done)). case_match; [|split; [done|simpl; lia]].
  assert (Herr : forall m k, (j <= k <= e)%nat ->
    later s (addError m tok (Some k) s1) /\ (i <= k <= e)%nat /\
    (@None Z <> None -> i + 4 <= k)%nat).
  { intros m k Hk. split; [|split; [lia|done]]. eapply later_trans; [done|].
    apply addError_later; [apply H1|done|]. intros x [= <-]; lia. }
  destruct (Nat.ltb_spec (e - j) 6); [apply Herr; lia|].
  step char_safe as c _; [lia|].
  eapply safe_bind with (P := fun '(b, k) => (j <= k <= j + 2)%nat).
  { case_decide; [|simpl; lia]. step char_safe as d _; [lia|]. simpl; lia. }
  intros [b k] Hk. destruct b; [|apply Herr; lia].
  step escape_safe as [[r2 j2] s2] (K & Hj2 & _); [apply H1|done|lia|].
  pose proof (later_trans _ _ _ H1 K). destruct r2; (split; [done|simpl; lia]).
Qed.

Lemma codePointToUTF8_length u : (length (codePointToUTF8 u) <= 4)%nat.
Proof. unfold codePointToUTF8. repeat case_match; simpl; lia. Qed.

Lemma decodeString_safe tok s :
  state_ok s -> token_in tok -> (start_ tok + 2 <= end_of tok)%nat ->
  safely (decodeString mem tok s) (fun '(r, s') =>
    later s s' /\ forall t, r = Some t -> (length t <= end_)%nat).
Proof.
  intros Hs [H1 H2] Hlt. unfold decodeString.
  assert (G : forall n i d s, state_ok s -> (i <= end_of tok - 1)%nat ->
    (end_of tok - 1 - i < n)%nat -> (length d <= i)%nat ->
    safely (decodeString_loop mem n tok i (end_of tok - 1) d s) (fun '(r, s') =>
      later s s' /\ forall t, r = Some t -> (length t <= end_)%nat));
    [|apply G; [done|lia|lia|simpl; lia]].
  clear s Hs. induction n as [|n IH]; intros i d s Hs Hi Hn Hd; [lia|]. cbn [decodeString_loop].
  assert (Hdone : later s s /\ forall t, Some d = Some t -> (length t <= end_)%nat).
  { split; [by apply later_refl|]. intros t [= <-]. lia. }
  destruct (Nat.eqb_spec i (end_of tok - 1)); [exact Hdone|].
  assert (Herr : forall m k, (k <= end_)%nat -> later s (addError m tok (Some k) s) /\
    forall t, @None bytes = Some t -> (length t <= end_)%nat).
  { intros m k Hk. split; [|done]. apply addError_later; [done|lia|]. by intros x [= <-]. }
  step char_safe as c _; [lia|]. case_decide; [exact Hdone|]. case_decide.
  - destruct (Nat.eqb_spec (i + 1) (end_of tok - 1)); [apply Herr; lia|].
    step char_safe as esc _; [lia|].
    destruct (simple_escape esc); [apply IH; rewrite ?length_app; simpl; (done || lia)|].
    case_decide; [|apply Herr; lia].
    step codepoint_safe as [[r j] s1] (K & Hj & Hr); [done|lia|lia|]. destruct r as [u|]; [|done].
    specialize (Hr ltac:(done)). pose proof (codePointToUTF8_length u).
    eapply safe_mono; [apply IH; rewrite ?length_app; try lia; apply K|].
    intros [r s2] [K2 Ht]. split; [by eapply later_trans|done].
  - apply IH; rewrite ?length_app; simpl; (done || lia).
Qed.

(** ** Containers *)

Lemma resolve_object v k : isObject v = true -> exists w m, resolveReference v k = Ok (w, VObject m).
Proof.
  destruct v; try done; intros _. unfold resolveReference. cbn [isNull isObject orb].
  unfold json_assert; run. destruct (map_find _ _ _); eauto.
Qed.

Lemma member_set_object v k w : isObject v = true -> exists m, member_set v k w = Ok (VObject m).
Proof.
  intros Hv. unfold member_set. destruct (resolve_object v k Hv) as (x & m & ->). run. eauto.
Qed.

Lemma index_ref_array v i : isArray v = true -> exists w m, index_ref v i = Ok (w, VArray m).
Proof.
  destruct v; try done; intros _. unfold index_ref. cbn [isNull isArray orb].
  unfold json_assert; run. destruct (map_find _ _ _); eauto.
Qed.

Lemma index_set_array v i w : isArray v = true -> exists m, index_set v i w = Ok (VArray m).
Proof.
  intros Hv. unfold index_set. destruct (index_ref_array v i Hv) as (x & m & ->). run. eauto.
Qed.

(** ** Nesting *)

Lemma opens_mono a b : (a <= b)%nat -> (opens a <= opens b)%nat.
Proof.
  intros H. unfold opens. rewrite <- (take_drop a (take b mem)), take_take, Nat.min_l by lia.
  rewrite filter_app, length_app. lia.
Qed.

Lemma opens_bracket p c :
  mem !! p = Some c -> c = "["%char \/ c = "{"%char -> opens (S p) = S (opens p).
Proof.
  intros Hp Hc. unfold opens. rewrite (take_S_r _ _ _ Hp), filter_app, length_app.
  rewrite filter_cons_True by done. simpl. lia.
Qed.

Lemma opens_token s tok s' :
  token_ok s tok s' -> type_ tok = tokenObjectBegin \/ type_ tok = tokenArrayBegin ->
  (S (opens (current_ s)) <= opens (current_ s'))%nat.
Proof.
  intros (H1 & H2 & H3 & H4 & H5 & _ & H6) Ht. destruct (H6 Ht) as (c & Hc & Hb).
  assert (start_ tok < end_of tok)%nat by (apply H5; destruct Ht; congruence).
  pose proof (opens_mono (current_ s) (start_ tok) H2).
  pose proof (opens_mono (S (start_ tok)) (current_ s') ltac:(lia)).
  rewrite (opens_bracket _ _ Hc Hb) in *. lia.
Qed.

(** ** Values *)

Lemma attach_safe p s :
  state_ok s ->
  safely (attachCommentsBefore cc p s) (fun s' => later s s' /\ current_ s' = current_ s).
Proof.
  intros Hs. unfold attachCommentsBefore. pose proof (later_refl s Hs).
  destruct cc; [|done]. cbn [andb]. case_bool_decide as Hc; [done|]. cbn [negb].
  destruct Hs as [K1 K2 [K3|K3] K4]; [done|].
  step setComment_safe as n _; [done|]. simpl. split; [|done].
  split; [|done]. constructor; [done|done|by left|done].
Qed.

Lemma mark_later p s s' : later s s' -> later s (mark_value cc p s').
Proof.
  intros [[? ? ? ?] ?]. unfold mark_value. destruct cc; [|by split]. split; [|done].
  constructor; [done..|]. intros _. by eexists.
Qed.

Lemma offset_later p n s s' : later s s' -> later s (offset_start p n s') /\ later s (offset_limit p n s').
Proof. intros H. split; by apply later_notes. Qed.

Lemma payload_later p tok s s' : later s s' -> later s (token_payload p tok s').
Proof. intros H. by do 3 apply later_notes. Qed.

Lemma end_later p s s' : later s s' -> later s (end_value cc p s').
Proof. intros H. by apply mark_later, later_notes. Qed.

Lemma readName_safe tok s0 s :
  token_ok s0 tok s ->
  safely (readName mem features_ tok s) (fun '(r, s') =>
    later s s' /\ (r <> None -> type_ tok <> tokenEndOfStream) /\
    forall name, r = Some (Some name) ->
      (Z.of_nat (length name) <= Z.of_nat end_ \/ allowNumericKeys_ features_ = true)).
Proof.
  intros Htok. pose proof (token_ok_in _ _ _ Htok) as Hin.
  destruct Htok as ([Hs _] & H2 & H3 & H4 & H5 & H6 & _). unfold readName. case_decide as Ht.
  { step decodeString_safe as [r s'] [K Hl]; [done|done|auto|]. simpl. split_and!; [done|congruence|].
    intros name [= ->]. left. specialize (Hl _ eq_refl). lia. }
  destruct (bool_decide _ && _) eqn:E; [|by split_and!; [apply later_refl| |]].
  apply andb_prop in E as [E1 E2]. apply bool_decide_eq_true in E1.
  step decodeNumber_safe as [r s'] [K Hn]; [done|done|apply H5; congruence|].
  destruct r as [v|]; [|by split_and!; [|congruence|]]. specialize (Hn v eq_refl).
  assert (exists name, asString v = Ok name) as [name ->] by (destruct v; try done; by eexists).
  simpl. split_and!; [done|congruence|]. intros; by right.
Qed.

(** What one call of the three functions guarantees with [n] units of fuel. *)
Definition value_safe (n : nat) : Prop := forall p v s,
  state_ok s -> node_count p <= 1 + Z.of_nat (opens (current_ s)) ->
  (2 * (end_ - current_ s) + 2 <= n)%nat ->
  safely (readValue mem end_ features_ cc n p v s) (fun '(_, _, s') => later s s').

Definition object_safe (n : nat) : Prop := forall p ne v s,
  state_ok s -> isObject v = true -> node_count p <= Z.of_nat (opens (current_ s)) ->
  (2 * (end_ - current_ s) + 1 <= n)%nat ->
  safely (object_loop mem end_ features_ cc n p ne v s) (fun '(_, _, s') => later s s').

Definition index_ok (index : Z) (s : RState) : Prop :=
  0 <= index <= Z.of_nat (current_ s) \/ too_long.

Definition array_safe (n : nat) : Prop := forall p index v s,
  state_ok s -> isArray v = true -> node_count p <= Z.of_nat (opens (current_ s)) ->
  index_ok index s -> (2 * (end_ - current_ s) + 3 <= n)%nat ->
  safely (array_loop mem end_ features_ cc n p index v s) (fun '(_, _, s') => later s s').

Lemma recover_later s0 s t (v : Value) :
  later s0 s ->
  safely (s ← recoverFromError mem end_ features_ cc t s; Ok (false, v, s)) (fun '(_, _, s') => later s0 s').
Proof.
  intros H. step recover_safe as s' H'; [apply H|]. simpl. exact (later_trans _ _ _ H H').
Qed.

Lemma error_later s0 s m tok t (v : Value) :
  later s0 s -> (start_ tok <= end_)%nat ->
  safely (s ← addErrorAndRecover mem end_ features_ cc m tok t s; Ok (false, v, s))
    (fun '(_, _, s') => later s0 s').
Proof.
  intros H Ht. step addErrorAndRecover_safe as s' H'; [apply H|done|]. simpl.
  exact (later_trans _ _ _ H H').
Qed.

Lemma token_start_le s0 tok s : token_ok s0 tok s -> (start_ tok <= end_)%nat.
Proof. intros [H1 H2]%token_ok_in; lia. Qed.

(** [readArray] behind the bracket. *)
Lemma readArray_safe n p s0 s :
  array_safe n -> later s0 s -> node_count p <= Z.of_nat (opens (current_ s)) ->
  (2 * (end_ - current_ s) + 3 <= n)%nat ->
  safely (s ← skipSpaces mem end_ s;
          empty ← (if negb (current_ s =? end_)%nat then
                     c ← char_at mem (current_ s); Ok (bool_decide (c = "]"%char))
                   else Ok false);
          if (empty : bool) then
            '(_, s) ← readToken mem end_ features_ cc s; Ok (true, VArray [], end_value cc p s)
          else
            '(ok, v, s) ← array_loop mem end_ features_ cc n p 0 (VArray []) s;
            Ok (ok, v, end_value cc p s)) (fun '(_, _, s') => later s0 s').
Proof.
  intros IH Hs Hn Hf. step skipSpaces_safe as s1 H1; [apply Hs|].
  pose proof (later_trans _ _ _ Hs H1) as Hs1. pose proof (ok_current _ (proj1 Hs1)).
  eapply safe_bind with (P := fun _ => True).
  { destruct (Nat.eqb_spec (current_ s1) end_); [done|]. cbn [negb].
    step char_safe as c _; [lia|done]. }
  intros empty _. destruct empty.
  - step readToken_safe as [tok s2] K; [apply H1|]. simpl.
    apply end_later. exact (later_trans _ _ _ Hs1 (proj1 K)).
  - destruct H1 as [K1 K2]. pose proof (opens_mono _ _ K2).
    eapply safe_bind; [apply IH; [done|done|lia|left; lia|lia]|].
    intros [[ok v] s2] K. simpl. apply end_later. exact (later_trans _ _ _ Hs1 K).
Qed.

Lemma readValue_safe n : object_safe n -> array_safe n -> value_safe (S n).
Proof.
  intros IHo IHa p v s Hs Hn Hf. cbn [readValue].
  pose proof (opens_mono _ _ (ok_current s Hs)).
  destruct (Z.ltb_spec (stackLimit_ features_) (node_count p)); [left; split; [done|left; lia]|].
  step skipCommentTokens_safe as [tok s1] Htok; [done|].
  step attach_safe as s2 [H2 Hcur]; [apply Htok|].
  pose proof (later_trans _ _ _ (proj1 Htok) H2) as Hs2.
  pose proof (token_ok_in _ _ _ Htok) as Hin.
  assert (Hfail : later s (addError (bs "Syntax error: value, object or array expected.") tok None
                             (token_offsets p tok s2))).
  { assert (later s (token_offsets p tok s2)) as Hto by (by do 2 apply later_notes).
    eapply later_trans; [exact Hto|]. apply addError_later; [apply Hto|destruct Hin; lia|done]. }
  pose proof Htok as (K1 & K2 & K3 & K4 & K5 & K6 & _).
  assert (Hdrop : safely (if allowDroppedNullPlaceholders_ features_
    then Ok (true, VNull, mark_value cc p (dropped_payload p s2))
    else Ok (false, v, addError (bs "Syntax error: value, object or array expected.") tok None
                         (token_offsets p tok s2)))
    (fun '(_, _, s') => type_ tok <> tokenEndOfStream -> later s s')).
  { destruct (allowDroppedNullPlaceholders_ features_); [|by intros _]. simpl. intros Hne.
    specialize (K5 Hne). apply mark_later. unfold dropped_payload. do 3 apply later_notes. pose proof (ok_current _ (proj1 Hs2)).
    split; [apply state_ok_current; [apply Hs2|lia]|simpl; lia]. }
  destruct (type_ tok) eqn:Et; try exact Hfail; try (by apply mark_later, payload_later);
    try (eapply safe_mono; [exact Hdrop|intros [[? ?] ?] HX; by apply HX]).
  - pose proof (opens_token _ _ _ Htok ltac:(auto)) as Ho. rewrite <- Hcur in Ho.
    specialize (K5 ltac:(done)).
    pose proof (ok_current _ (proj1 Hs2)).
    assert (later s (offset_start p (start_ tok) (new_payload p s2))) as Hs3 by (by do 2 apply later_notes).
    eapply safe_bind; [apply IHo; [apply Hs3|done|simpl; lia|simpl; lia]|].
    intros [[ok w] s3] K. simpl. apply end_later. exact (later_trans _ _ _ Hs3 K).
  - pose proof (opens_token _ _ _ Htok ltac:(auto)) as Ho. rewrite <- Hcur in Ho.
    specialize (K5 ltac:(done)).
    pose proof (ok_current _ (proj1 Hs2)).
    apply readArray_safe; [done|by do 2 apply later_notes|simpl; lia|simpl; lia].
  - step decodeString_safe as [r s3] [K Hl]; [apply Hs2|done|auto|].
    pose proof (later_trans _ _ _ Hs2 K) as Hs3.
    destruct r as [t|]; [|by apply mark_later]. unfold Value_of_string, json_assert.
    destruct (Z.leb_spec (size t) (maxInt - 4 - 1)); simpl; [by apply mark_later, payload_later|].
    right. split; [done|]. right. specialize (Hl t eq_refl). unfold too_long, size, maxInt in *; lia.
  - step decodeNumber_safe as [r s3] [K _]; [apply Hs2|done|apply K5; done|].
    pose proof (later_trans _ _ _ Hs2 K) as Hs3.
    destruct r; [by apply mark_later, payload_later|by apply mark_later].
Qed.

(** The part of [readObject]'s loop behind a member's value. *)
Lemma object_next_safe n p (name : bytes) s0 s v :
  object_safe n -> isObject v = true -> later s0 s -> node_count p <= Z.of_nat (opens (current_ s)) ->
  (2 * (end_ - current_ s) <= n)%nat ->
  safely ('(comma, s) ← readToken mem end_ features_ cc s;
          if decide (type_ comma <> tokenObjectEnd /\ type_ comma <> tokenArraySeparator /\
                     type_ comma <> tokenComment) then
            s ← addErrorAndRecover mem end_ features_ cc
                  (bs "Missing ',' or '}' in object declaration") comma tokenObjectEnd s;
            Ok (false, v, s)
          else
            '(comma, s) ← skip_comments mem end_ features_ cc (left_ end_ s) comma s;
            if decide (type_ comma = tokenObjectEnd) then Ok (true, v, s)
            else object_loop mem end_ features_ cc n p (bool_decide (name = [])) v s)
    (fun '(_, _, s') => later s0 s').
Proof.
  intros IH Hv Hs Hn Hf. step readToken_safe as [comma s1] H1; [apply Hs|].
  pose proof (later_trans _ _ _ Hs (proj1 H1)).
  case_decide as Hd; [apply error_later; [done|by eapply token_start_le]|].
  assert (type_ comma <> tokenEndOfStream) as Hne by (intros E; apply Hd; rewrite E; done).
  assert (current_ s < current_ s1)%nat by (destruct H1 as (? & ? & ? & ? & K & _); specialize (K Hne); lia).
  step skip_comments_safe as [comma2 s2] [H2 Hle]; [exact H1|unfold left_; lia|].
  pose proof (later_trans _ _ _ Hs (proj1 H2)) as Hs2.
  case_decide; [done|]. pose proof (opens_mono _ _ (proj2 (proj1 H2))).
  pose proof (ok_current _ (proj1 Hs2)).
  eapply safe_mono; [apply IH; [apply H2|done|lia|lia]|].
  intros [[ok w] s3] K. exact (later_trans _ _ _ Hs2 K).
Qed.

Lemma isMember_object v k : isObject v = true -> exists b, isMember v k = Ok b.
Proof. destruct v; try done. intros _. unfold isMember, find. cbn [isNull isObject orb]. run. eauto. Qed.

(** The part of [readObject]'s loop behind a member's name. *)
Lemma object_member_safe n p name s0 s v :
  value_safe n -> object_safe n -> isObject v = true -> later s0 s ->
  node_count p <= Z.of_nat (opens (current_ s)) -> (2 * (end_ - current_ s) + 1 <= n)%nat ->
  safely ('(colon, s) ← readToken mem end_ features_ cc s;
          if decide (type_ colon <> tokenMemberSeparator) then
            s ← addErrorAndRecover mem end_ features_ cc
                  (bs "Missing ':' after object member name") colon tokenObjectEnd s;
            Ok (false, v, s)
          else
            '(w, v) ← resolveReference v name;
            '(ok, w, s) ← readValue mem end_ features_ cc n (Member name :: p) w s;
            v ← member_set v name w;
            if negb ok then
              s ← recoverFromError mem end_ features_ cc tokenObjectEnd s; Ok (false, v, s)
            else
              '(comma, s) ← readToken mem end_ features_ cc s;
              if decide (type_ comma <> tokenObjectEnd /\ type_ comma <> tokenArraySeparator /\
                         type_ comma <> tokenComment) then
                s ← addErrorAndRecover mem end_ features_ cc
                      (bs "Missing ',' or '}' in object declaration") comma tokenObjectEnd s;
                Ok (false, v, s)
              else
                '(comma, s) ← skip_comments mem end_ features_ cc (left_ end_ s) comma s;
                if decide (type_ comma = tokenObjectEnd) then Ok (true, v, s)
                else object_loop mem end_ features_ cc n p (bool_decide (name = [])) v s)
    (fun '(_, _, s') => later s0 s').
Proof.
  intros IHv IHo Hv Hs Hn Hf. step readToken_safe as [colon s1] H1; [apply Hs|].
  pose proof (later_trans _ _ _ Hs (proj1 H1)) as Hs1.
  case_decide as Hd; [apply error_later; [done|by eapply token_start_le]|].
  assert (current_ s < current_ s1)%nat as Hlt.
  { destruct H1 as (_ & ? & ? & _ & K & _). specialize (K ltac:(congruence)). lia. }
  destruct (resolve_object v name Hv) as (w & m & ->). run.
  pose proof (opens_mono _ _ (proj2 (proj1 H1))). pose proof (ok_current _ (proj1 Hs1)).
  eapply safe_bind; [apply IHv; [apply Hs1|cbn [node_count]; lia|lia]|]. intros [[ok w'] s2] H2.
  pose proof (later_trans _ _ _ Hs1 H2) as Hs2.
  destruct (member_set_object (VObject m) name w' eq_refl) as [m' ->]. run.
  destruct ok; cbn [negb]; [|by apply recover_later].
  pose proof (opens_mono _ _ (proj2 H2)). pose proof (ok_current _ (proj1 Hs2)).
  pose proof (proj2 H2).
  apply object_next_safe; [done|done|done|lia|lia].
Qed.

Lemma object_step_safe n : value_safe n -> object_safe n -> object_safe (S n).
Proof.
  intros IHv IHo p ne v s Hs Hv Hn Hf. cbn [object_loop].
  step readToken_safe as [tok0 s0] H0; [done|].
  step skip_comments_safe as [tok s1] [H1 Hle]; [exact H0|unfold left_; lia|].
  destruct (bool_decide _ && ne); [apply H1|].
  step readName_safe as [r s2] (H2 & Htype & Hname); [exact H1|].
  pose proof (later_trans _ _ _ (proj1 H1) H2) as Hs2.
  destruct r as [[name|]|]; [|by apply recover_later|
    apply error_later; [done|by eapply token_start_le]].
  destruct (Z.leb_spec (2 ^ 30) (size name)) as [Hbig|Hsmall].
  { left. split; [done|]. right. destruct (Hname name eq_refl); [left|by right].
    unfold too_long, size in *. lia. }
  destruct (isMember_object v name Hv) as [b Hb].
  eapply safe_bind with (P := fun _ => True).
  { destruct (rejectDupKeys_ features_); [by rewrite Hb|done]. }
  intros dup _. destruct dup; [apply error_later; [done|by eapply token_start_le]|].
  pose proof (opens_mono _ _ (proj2 Hs2)). pose proof (ok_current _ (proj1 Hs2)).
  destruct Hs2 as [Hs2 Hcur].
  assert (current_ s < current_ s2)%nat.
  { destruct H1 as (_ & ? & ? & _ & K & _). destruct H2. specialize (K (Htype ltac:(done))). lia. }
  apply object_member_safe; [done|done|done|by split|lia|lia].
Qed.

Lemma array_step_safe n : value_safe n -> array_safe n -> array_safe (S n).
Proof.
  intros IHv IHa p index v s Hs Hv Hn Hi Hf. cbn [array_loop].
  pose proof (ok_current _ Hs).
  unfold index_ref_int, json_assert. destruct (Z.leb_spec 0 index) as [Hpos|Hneg].
  2:{ right. split; [done|]. right. destruct Hi; [lia|done]. }
  run. destruct (index_ref_array v index Hv) as (w & m & ->). run.
  eapply safe_bind; [apply IHv; [done|cbn [node_count]; lia|lia]|]. intros [[ok w'] s1] H1.
  destruct (index_set_array (VArray m) index w' eq_refl) as [m' ->]. run.
  destruct ok; cbn [negb]; [|by apply recover_later].
  step readToken_safe as [tok0 s2] H2; [apply H1|].
  pose proof (proj2 (proj1 H2)). pose proof (proj2 H1).
  step skip_comments_safe as [tok s3] [K3 Hle]; [exact H2|unfold left_; lia|].
  pose proof (later_trans _ _ _ H1 (proj1 K3)) as Hs3.
  case_decide as Hd; [apply error_later; [done|by eapply token_start_le]|].
  case_decide as Hd'; [done|].
  assert (current_ s1 < current_ s3)%nat as Hlt.
  { destruct K3 as (_ & ? & ? & _ & K & _).
    specialize (K ltac:(intros E; apply Hd; rewrite E; done)). lia. }
  pose proof (opens_mono _ _ (proj2 Hs3)). pose proof (ok_current _ (proj1 Hs3)).
  eapply safe_mono; [apply IHa; [apply Hs3|done|lia| |lia]|].
  - destruct Hi as [Hi|Hi]; [|by right]. destruct (decide (too_long)); [by right|left].
    unfold too_long in *. rewrite i32_small; unfold INT_MIN, INT_MAX; lia.
  - intros [[ok' w''] s4] K. exact (later_trans _ _ _ Hs3 K).
Qed.

Lemma loops_safe n : value_safe n /\ object_safe n /\ array_safe n.
Proof.
  induction n as [|n (IHv & IHo & IHa)].
  - split_and!; repeat intro; lia.
  - split_and!; [by apply readValue_safe|by apply object_step_safe|by apply array_step_safe].
Qed.

(** ** The whole document *)

Lemma parse_root_safe root n :
  safely (parse_root mem end_ features_ cc root n) (fun '(_, _, s) => state_ok s).
Proof.
  assert (H0 : state_ok (initial_RState n)) by (constructor; [simpl; lia|done|by left|by intros []]).
  unfold parse_root. eapply safe_bind.
  { apply (proj1 (loops_safe (parse_fuel end_))); [exact H0|cbn [node_count]; lia|unfold parse_fuel; simpl; lia]. }
  intros [[ok v] s] Hs. step skipCommentTokens_safe as [tok s1] H1; [apply Hs|].
  pose proof (proj1 H1) as Hs1. destruct (_ && _ && _).
  { apply (addError_later _ _ _ _ (proj1 Hs1)); [by eapply token_start_le|done]. }
  eapply safe_bind with (P := fun _ => True).
  { destruct (_ && _) eqn:E; [|done]. apply andb_prop in E as [_ E].
    rewrite negb_true_iff, bool_decide_eq_false in E.
    destruct (ok_comments _ (proj1 Hs1)); [done|by apply setComment_safe]. }
  intros n' _. pose proof (proj1 (later_notes _ _ n' Hs1)) as Hs2. destruct (_ && _); [|exact Hs2].
  apply (addError_later _ _ _ _ Hs2); [simpl; lia|done].
Qed.
End Safety.

Section Messages.
Context (mem : bytes) (end_ : nat) (X : exn -> Prop).
Context (Hmem : (end_ < length mem)%nat).

Lemma location_loop_safe n loc cur start line :
  (loc - cur <= n)%nat -> (loc <= end_)%nat ->
  safe X (location_loop mem end_ n loc cur start line) (fun _ => True).
Proof using Hmem.
  revert cur start line; induction n as [|n IH]; intros cur start line Hn Hl; cbn [location_loop].
  - destruct (Nat.ltb_spec cur loc); [lia|done].
  - destruct (Nat.ltb_spec cur loc); [|done]. cbn [andb].
    destruct (Nat.eqb_spec cur end_); [lia|]. cbn [negb].
    step char_safe as c _; [lia|]. repeat case_decide; try (apply IH; lia).
    step char_safe as d _; [lia|]. apply IH; [case_decide; lia|done].
Qed.

Lemma location_text_safe loc :
  (loc <= end_)%nat -> safe X (location_text mem end_ loc) (fun _ => True).
Proof using Hmem.
  intros Hl. unfold location_text, getLocationLineAndColumn.
  eapply safe_bind with (P := fun _ => True).
  - eapply safe_bind; [by apply location_loop_safe; [lia|]|]. by intros [line start] _.
  - by intros [line column] _.
Qed.

Lemma messages_safe s :
  state_ok mem end_ s -> safe X (getFormattedErrorMessages mem end_ s) (fun _ => True).
Proof using Hmem.
  intros [_ H _ _]. unfold getFormattedErrorMessages.
  generalize (@nil ascii). induction H as [|e es [H1 H2] _ IH]; intros m; [done|]. cbn [foldM].
  eapply safe_bind with (P := fun _ => True); [|intros; apply IH].
  unfold formatError. step location_text_safe as l _; [done|].
  destruct (extra_ e) as [x|] eqn:Ex; [|done].
  step location_text_safe as l' _; [by apply H2|done].
Qed.
End Messages.

Lemma char_reader_safe mem end_ f cc root :
  (end_ < length mem)%nat ->
  safe (may_throw mem end_ f) (OurCharReader_parse mem end_ f cc root) (fun _ => True).
Proof.
  intros Hmem. unfold OurCharReader_parse, OurReader_parse.
  step (parse_root_safe mem end_ f (cc && allowComments_ f) Hmem root ∅) as [[ok v] s] Hs.
  step messages_safe as errs _; [done|exact Hs|done].
Qed.

(** What a call that throws or faults says of the text. *)
Definition throws_only (mem : bytes) (end_ : nat) (f : OurFeatures) {A} (m : outcome A) : Prop :=
  match m with
  | Ok _ => True
  | Throw ExRuntime => stackLimit_ f <= Z.of_nat (opens mem end_) \/ 2 ^ 30 <= Z.of_nat end_
                       \/ allowNumericKeys_ f = true
  | Throw ExLogic => SQUOTE ∈ take end_ mem \/ 2 ^ 30 <= Z.of_nat end_
  | Throw ExOutOfRange | UB _ | NoFuel => False
  end.

Lemma throws_only_safe {A} mem end_ f (m : outcome A) P :
  safe (may_throw mem end_ f) m P -> throws_only mem end_ f m.
Proof.
  destruct m as [a|e|w|]; simpl; try done.
  intros [[-> H]|[-> H]]; [|exact H]. destruct H as [H|[H|H]]; [left; lia|right; by left|auto].
Qed.

(** C27: with any settings, parsing a terminated text reads no byte outside it,
    ends within the fuel, converts no number out of range (but that the smallest
    64-bit integer is negated, which wraps around), and throws only on three kinds
    of text: more open brackets than the stack limit or keys that can be numbers
    (runtime_error), a gigabyte (either), an apostrophe (logic_error). *)
Theorem char_reader_parse_safe mem end_ f collect root
    (Hend : (end_ < length mem)%nat) :
  throws_only mem end_ f (OurCharReader_parse mem end_ f collect root).
Proof. eapply throws_only_safe. by apply char_reader_safe. Qed.

Lemma char_reader_parse_safe_witness :
  (3 < length (c_str (bs "[1]")))%nat /\
  throws_only (c_str (bs "[1]")) 3 (MkFeatures true true false false false true true false 10)
    (OurCharReader_parse (c_str (bs "[1]")) 3
       (MkFeatures true true false false false true true false 10) true VNull).
Proof.
  split; [vm_compute; lia|]. apply char_reader_parse_safe. vm_compute; lia.
Defined.

(** The features of a reader with the default settings. *)
Definition default_features : OurFeatures :=
  MkFeatures true false false false false false false false 1000.

Lemma reader_defaults :
  CharReaderBuilder_setDefaults VNull ≫= newCharReader = Ok (true, default_features).
Proof. vm_compute. reflexivity. Qed.

Lemma parse_json_defaults text :
  parse_json text = OurCharReader_parse (c_str text) (length text) default_features true VNull.
Proof.
  unfold parse_json. rewrite <- bind_assoc, reader_defaults. reflexivity.
Qed.

(** With the stack limit of the default settings, and names that are texts, a
    text without apostrophes, with few brackets and below a gigabyte has a result. *)
Lemma char_reader_returns text f collect root :
  stackLimit_ f = 1000 -> allowNumericKeys_ f = false -> SQUOTE ∉ text ->
  (opens text (length text) < 1000)%nat -> size text < 2 ^ 30 ->
  exists ok v errs, OurCharReader_parse (c_str text) (length text) f collect root = Ok (ok, v, errs).
Proof.
  intros Hlimit Hkeys Hquote Hdeep Hlen.
  assert (length text < length (c_str text))%nat as Hmem
    by (unfold c_str; rewrite length_app; simpl; lia).
  pose proof (throws_only_safe _ _ _ _ _ (char_reader_safe _ _ f collect root Hmem)) as H.
  assert (take (length text) (c_str text) = text) as Ht
    by (unfold c_str; rewrite take_app_le, take_ge; done || lia).
  assert (opens (c_str text) (length text) = opens text (length text)) as Ho
    by (unfold opens; by rewrite Ht, take_ge by lia).
  destruct (OurCharReader_parse _ _ _ _ _) as [[[ok v] errs]|[]| |]; cbn [throws_only] in H;
    [eauto|done| | |done|done]; exfalso; unfold size in *.
  - rewrite Ho, Hlimit, Hkeys in H. destruct H as [H|[H|H]]; [lia|lia|done].
  - rewrite Ht in H. destruct H; [done|lia].
Qed.

(** C28: a signaling text without apostrophes, with fewer than 1000 opening
    brackets and shorter than a gigabyte is always parsed to a result: no
    exception leaves the parser, whatever the text. *)
Theorem parse_json_returns text
    (Hquote : SQUOTE ∉ text) (Hdeep : (opens text (length text) < 1000)%nat)
    (Hlen : size text < 2 ^ 30) :
  exists ok root errs, parse_json text = Ok (ok, root, errs).
Proof. rewrite parse_json_defaults. by apply char_reader_returns. Qed.

Lemma parse_json_returns_witness :
  exists ok root errs, parse_json (bs "[1,{]//") = Ok (ok, root, errs).
Proof.
  apply parse_json_returns.
  - vm_compute. intros H. repeat (apply elem_of_cons in H as [H|H]; [discriminate H|]).
    by apply not_elem_of_nil in H.
  - vm_compute. lia.
  - vm_compute. reflexivity.
Defined.
