(* ===== verification/JsonTypeProofs.v ===== *)
(** * What values the JSON reader can build

    Whatever the text and the settings, and also when parsing fails half-way,
    the root is a value of the reader's own type: integers in the representation
    that fits them, arrays without holes, objects with distinct keys in order. *)
From Stdlib Require Import ZArith Ascii String Lia SpecFloat.
From stdpp Require Import base tactics list gmap.
From S2P Require Import Prelude CLib CDouble JsonValue JsonNotes JsonValueProofs JsonReader JsonReaderProofs.

#[local] Open Scope Z_scope.

(** ** Types *)

(** A signed integer fits 64 bits, an unsigned one does not fit the signed
    type; strings have a length prefix; the elements of an array are numbered
    without holes; the keys of an object are distinct, in order and below the
    limit of [CZString]. *)
Fixpoint canonical (v : Value) : Prop :=
  match v with
  | VNull | VBool _ | VReal _ => True
  | VInt z => minInt64 <= z <= maxInt64
  | VUInt z => maxInt64 < z <= maxUInt64
  | VString s => size s <= maxInt - 5
  | VArray m =>
      m = array_pairs 0 m.*2 /\ foldr (fun kv P => canonical kv.2 /\ P) True m
  | VObject m =>
      map_sorted czstring_lt m /\ foldr (fun kv P => (size kv.1 < 2 ^ 30 /\ canonical kv.2) /\ P) True m
  end.

Lemma canonical_object m :
  canonical (VObject m) <->
  map_sorted czstring_lt m /\ Forall (fun kv => size kv.1 < 2 ^ 30 /\ canonical kv.2) m.
Proof. cbn [canonical]. by rewrite foldr_Forall. Qed.

Lemma canonical_array l : canonical (array_of l) <-> Forall canonical l.
Proof.
  unfold array_of. cbn [canonical]. rewrite foldr_Forall.
  assert (E : forall i l, (array_pairs i l).*2 = l).
  { intros i l'; revert i; induction l' as [|v l' IH]; intros i; [done|].
    rewrite array_pairs_cons. cbn [fmap list_fmap snd]. by rewrite IH. }
  rewrite E. rewrite <- (E 0 l) at 4. rewrite Forall_fmap. naive_solver.
Qed.

Lemma canonical_array_inv m : canonical (VArray m) -> exists l, VArray m = array_of l /\ Forall canonical l.
Proof.
  intros Hm. exists m.*2. pose proof Hm as [E _]. split; [unfold array_of; by rewrite <- E|].
  apply canonical_array. unfold array_of. by rewrite <- E.
Qed.

(** ** Operations *)

(** Everything [m] returns satisfies [P]. *)
Definition gives {A} (m : outcome A) (P : A -> Prop) : Prop := forall a, m = Ok a -> P a.

Lemma gives_ret {A} (a : A) (P : A -> Prop) : P a -> gives (Ok a) P.
Proof. by intros ? ? [= <-]. Qed.

Lemma gives_bind {A B} (m : outcome A) (f : A -> outcome B) P Q :
  gives m P -> (forall a, P a -> gives (f a) Q) -> gives (m ≫= f) Q.
Proof. intros Hm Hf b E. apply bind_Ok_inv in E as (a & Ea & Eb). exact (Hf a (Hm a Ea) b Eb). Qed.

Lemma gives_any {A B} (m : outcome A) (f : A -> outcome B) Q :
  (forall a, gives (f a) Q) -> gives (m ≫= f) Q.
Proof. intros Hf. by apply (gives_bind _ _ (fun _ => True)). Qed.

Lemma gives_throw {A} e (P : A -> Prop) : gives (Throw e) P.
Proof. by intros ? ?. Qed.

Lemma gives_fault {A} e (P : A -> Prop) : gives (UB e) P.
Proof. by intros ? ?. Qed.

Lemma resolveReference_canonical v key :
  canonical v -> size key < 2 ^ 30 ->
  gives (resolveReference v key) (fun '(w, v') => canonical w /\ canonical v' /\ isObject v' = true).
Proof.
  intros Hv Hk. unfold resolveReference. apply gives_any. intros [].
  assert (Hm : canonical (VObject match v with VObject m => m | _ => [] end))
    by (destruct v; try done; by repeat split).
  set (m := match v with VObject m => m | _ => [] end) in *. clearbody m. rewrite czstring_id by done.
  pose proof Hm as [Hs Hf]%canonical_object. destruct (map_find czstring_lt key m) as [w|] eqn:E.
  - apply gives_ret. split_and!; [|done|done].
    apply (find_Forall czstring_lt (fun kv => size kv.1 < 2 ^ 30 /\ canonical kv.2)) in E; [|done]. apply E.
  - apply gives_ret. split_and!; [done| |done]. apply canonical_object.
    split; [by apply (insert_sorted czstring_lt)|].
    apply insert_Forall_pairs; [done|done|auto|]. intros k' [v' [Hk' _]] _ _. done.
Qed.

Lemma member_set_canonical v key w :
  canonical v -> canonical w -> size key < 2 ^ 30 -> isObject v = true ->
  gives (member_set v key w) (fun v' => canonical v' /\ isObject v' = true).
Proof.
  intros Hv Hw Hk Ho. unfold member_set.
  eapply gives_bind; [by apply resolveReference_canonical|]. intros [u [| | | | | | |m]] (_ & Hm & E); try done.
  apply gives_ret. split; [|done]. rewrite czstring_id by done.
  apply canonical_object in Hm as [Hs Hf]. apply canonical_object.
  split; [by apply (insert_sorted czstring_lt)|].
  apply insert_Forall_pairs; [done|done|auto|]. intros k' [v' [Hk' _]] _ _. done.
Qed.

(** The element behind the last one, and storing it. *)
Lemma index_ref_end l :
  gives (index_ref_int (array_of l) (Z.of_nat (length l)))
    (fun '(w, v) => w = VNull /\ v = array_of (l ++ [VNull])).
Proof.
  unfold index_ref_int, index_ref, array_of. apply gives_any. intros []. apply gives_any. intros [].
  rewrite array_find_pairs by lia. rewrite Z.sub_0_r, Nat2Z.id.
  rewrite lookup_ge_None_2 by lia. apply gives_ret. split; [done|].
  rewrite <- (Z.add_0_l (Z.of_nat (length l))). by rewrite array_insert_end.
Qed.

Lemma index_set_end l w :
  gives (index_set (array_of (l ++ [VNull])) (Z.of_nat (length l)) w) (fun v => v = array_of (l ++ [w])).
Proof.
  unfold index_set, index_ref, array_of. apply gives_bind with (P := fun '(_, v) => v = array_of (l ++ [VNull])).
  - apply gives_any. intros []. rewrite array_find_pairs by lia. rewrite Z.sub_0_r, Nat2Z.id.
    rewrite lookup_app_r, Nat.sub_diag by lia. by apply gives_ret.
  - intros [u v] ->. unfold array_of. apply gives_ret.
    rewrite array_insert_pairs by (rewrite length_app; simpl; lia).
    rewrite Z.sub_0_r, Nat2Z.id. do 2 f_equal.
    rewrite <- (Nat.add_0_r (length l)), insert_app_r. done.
Qed.

(** ** The reader *)

Section Reader.
Context (mem : bytes) (end_ : nat) (features_ : OurFeatures) (cc : bool).

Lemma decodeNumber_loop_range n threshold last_digit current value :
  0 <= value < 2 ^ 64 ->
  gives (decodeNumber_loop mem n threshold last_digit current value)
    (fun r => forall z, r = Some z -> 0 <= z < 2 ^ 64).
Proof.
  revert current value; induction n as [|n IH]; intros current value Hv; cbn [decodeNumber_loop].
  - apply gives_ret. by intros z [= <-].
  - apply gives_any. intros c. destruct (negb (is_digit c)); [by apply gives_ret|].
    destruct (_ && _); [by apply gives_ret|]. apply IH. unfold u64. apply Z.mod_pos_bound. lia.
Qed.

Lemma decodeDouble_canonical tok s :
  gives (decodeDouble mem tok s) (fun '(r, _) => forall v, r = Some v -> canonical v).
Proof.
  unfold decodeDouble. apply gives_any. intros t. destruct (sscanf_lf _); apply gives_ret; by intros v [= <-].
Qed.

Lemma decodeNumber_canonical tok s :
  gives (decodeNumber mem tok s) (fun '(r, _) => forall v, r = Some v -> canonical v).
Proof.
  unfold decodeNumber. apply gives_any. intros c.
  eapply gives_bind; [apply decodeNumber_loop_range; lia|]. intros [z|] Hz; [|apply decodeDouble_canonical].
  specialize (Hz z eq_refl). apply gives_ret. intros v [= <-].
  unfold maxInt64. destruct (bool_decide _).
  - cbn [canonical]. unfold i64, minInt64, maxInt64.
    pose proof (Z.mod_pos_bound (- ((z + 2 ^ 63) mod 2 ^ 64 - 2 ^ 63) + 2 ^ 63) (2 ^ 64)). lia.
  - destruct (Z.leb_spec z (2 ^ 63 - 1)); cbn [canonical]; unfold minInt64, maxInt64, maxUInt64; lia.
Qed.

Lemma Value_of_string_canonical t : gives (Value_of_string t) canonical.
Proof.
  unfold Value_of_string, json_assert. destruct (Z.leb_spec (size t) (maxInt - 4 - 1)); [|apply gives_throw].
  apply gives_ret. cbn [canonical]. lia.
Qed.

(** Each of the three functions returns canonical values when given one. *)
Definition value_canonical (n : nat) : Prop := forall p v s,
  canonical v -> gives (readValue mem end_ features_ cc n p v s) (fun '(_, v, _) => canonical v).
Definition object_canonical (n : nat) : Prop := forall p ne v s,
  canonical v -> isObject v = true ->
  gives (object_loop mem end_ features_ cc n p ne v s) (fun '(_, v, _) => canonical v).
Definition array_canonical (n : nat) : Prop := forall p index l s,
  Forall canonical l -> index = Z.of_nat (length l) /\ index <= INT_MAX \/ index < 0 ->
  gives (array_loop mem end_ features_ cc n p index (array_of l) s) (fun '(_, v, _) => canonical v).

(** The ends of the loops: an error leaves the value as it is. *)
Lemma fails_with (v : Value) (m : outcome RState) (b : bool) :
  canonical v -> gives (s ← m; Ok (b, v, s)) (fun '(_, v, _) => canonical v).
Proof. intros Hv. apply gives_any. intros s. by apply gives_ret. Qed.

Lemma value_step n : object_canonical n -> array_canonical n -> value_canonical (S n).
Proof.
  intros IHo IHa p v s Hv. rewrite readValue_S.
  destruct (stackLimit_ features_ <? node_count p); [apply gives_throw|].
  apply gives_any. intros [tok s1]. apply gives_any. intros s2. cbv zeta.
  destruct (type_ tok); try (by apply gives_ret); try (by destruct (allowDroppedNullPlaceholders_ _); apply gives_ret).
  - eapply gives_bind; [by apply IHo; [repeat split|]|]. intros [[ok w] s3] Hw. by apply gives_ret.
  - apply gives_any. intros s3. apply gives_any. intros [].
    + apply gives_any. intros [? ?]. by apply gives_ret.
    + eapply gives_bind; [apply (IHa _ 0 []); [constructor|by left]|]. intros [[ok w] s4] Hw. by apply gives_ret.
  - apply gives_any. intros [[t|] s3]; [|by apply gives_ret].
    eapply gives_bind; [apply Value_of_string_canonical|]. intros w Hw. by apply gives_ret.
  - eapply gives_bind; [apply decodeNumber_canonical|]. intros [[w|] s3] Hw; apply gives_ret; [by apply Hw|done].
Qed.

Lemma object_step n : value_canonical n -> object_canonical n -> object_canonical (S n).
Proof.
  intros IHv IHo p ne v s Hv Ho. rewrite object_loop_S.
  apply gives_any. intros [tok0 s0]. apply gives_any. intros [tok s1].
  destruct (bool_decide _ && ne); [by apply gives_ret|]. apply gives_any. intros [[[name|]|] s2];
    try by apply fails_with.
  destruct (Z.leb_spec (2 ^ 30) (size name)) as [_|Hk]; [apply gives_throw|].
  apply gives_any. intros []; [by apply fails_with|]. apply gives_any. intros [colon s3].
  case_decide; [by apply fails_with|].
  eapply gives_bind; [by apply resolveReference_canonical|]. intros [w v1] (Hw & Hv1 & Ho1).
  eapply gives_bind; [by apply IHv|]. intros [[ok w1] s4] Hw1.
  eapply gives_bind; [by apply member_set_canonical|]. intros v2 [Hv2 Ho2].
  destruct (negb ok); [by apply fails_with|]. apply gives_any. intros [comma0 s5].
  case_decide; [by apply fails_with|]. apply gives_any. intros [comma s6].
  case_decide; [by apply gives_ret|]. by apply IHo.
Qed.

Lemma array_step n : value_canonical n -> array_canonical n -> array_canonical (S n).
Proof.
  intros IHv IHa p index l s Hl Hi. rewrite array_loop_S.
  destruct Hi as [[-> Hle]|Hneg].
  2: { unfold index_ref_int, json_assert. rewrite (proj2 (Z.leb_gt 0 index)) by lia. apply gives_throw. }
  eapply gives_bind; [apply index_ref_end|]. intros [w v] [-> ->].
  eapply gives_bind; [by apply IHv|]. intros [[ok w1] s1] Hw1.
  eapply gives_bind; [apply index_set_end|]. intros v ->.
  assert (Hc : Forall canonical (l ++ [w1])) by (apply Forall_app; split; [done|by constructor]).
  assert (Hc' := proj2 (canonical_array _) Hc).
  destruct (negb ok); [by apply fails_with|]. apply gives_any. intros [tok0 s2]. apply gives_any. intros [tok s3].
  case_decide; [by apply fails_with|]. case_decide; [by apply gives_ret|]. apply IHa; [done|].
  rewrite length_app. cbn [length].
  destruct (decide (Z.of_nat (length l) + 1 <= INT_MAX)) as [Hlt|Hgt].
  - left. rewrite i32_small by (unfold INT_MIN in *; lia). lia.
  - right. replace (Z.of_nat (length l) + 1) with (2 ^ 31) by (unfold INT_MAX in *; lia). by vm_compute.
Qed.

Lemma all_canonical n : value_canonical n /\ object_canonical n /\ array_canonical n.
Proof.
  induction n as [|n (IHv & IHo & IHa)]; [split_and!; repeat intro; discriminate|].
  split_and!; [by apply value_step|by apply object_step|by apply array_step].
Qed.

Lemma parse_root_canonical root n :
  canonical root -> gives (parse_root mem end_ features_ cc root n) (fun '(_, v, _) => canonical v).
Proof.
  intros Hr. unfold parse_root. eapply gives_bind; [by apply all_canonical|]. intros [[ok v] s] Hv.
  apply gives_any. intros [tok s1]. destruct (_ && _ && _); [by apply gives_ret|].
  apply gives_any. intros n1. destruct (_ && _); by apply gives_ret.
Qed.
End Reader.

(** C7: with any settings and for any text, well-formed or not, the root that
    a parse into a canonical value leaves is canonical: integers have the
    smaller representation that holds them, arrays have no holes, objects have
    distinct keys in order and no key or string is longer than its length
    field. *)
Theorem parse_gives_canonical (mem : bytes) (end_ : nat) (f : OurFeatures) (collect : bool)
    (root : Value) (Hroot : canonical root) :
  match OurCharReader_parse mem end_ f collect root with
  | Ok (_, v, _) => canonical v
  | _ => True
  end.
Proof.
  destruct (OurCharReader_parse mem end_ f collect root) as [[[ok v] errs]| | |] eqn:E; try done.
  revert E. unfold OurCharReader_parse, OurReader_parse.
  intros E. apply bind_Ok_inv in E as ([[ok' v'] s] & Ep & E). apply bind_Ok_inv in E as (m & _ & [= <- <- <-]).
  exact (parse_root_canonical _ _ _ _ _ _ Hroot _ Ep).
Qed.

Lemma parse_gives_canonical_witness :
  canonical VNull /\
  match OurCharReader_parse (c_str (bs "[1, {x 2")) 8 default_features true VNull with
  | Ok (ok, v, _) => ok = false /\ v = array_of [VInt 1; VObject []]
  | _ => False
  end /\
  canonical (array_of [VInt 1; VObject []]).
Proof.
  split; [exact I|]. split; [by vm_compute|].
  exact (parse_gives_canonical (c_str (bs "[1, {x 2")) 8 default_features true VNull I).
Defined.
