(* ===== verification/JsonLegacyReader.v ===== *)
(** * Reader, the older JSON parser (jsoncpp.cpp, json_reader part)

    [OurReader] is a copy of this class with more features.  The functions the
    copy left as they were are those of JsonReader.v, under their names in this
    class; those it changed, and the functions that call them, are written out.
    The document, its locations, the stack of nodes and the fuel are as there. *)
From Stdlib Require Import ZArith Ascii String Lia SpecFloat.
From stdpp Require Import base tactics list gmap.
From S2P Require Import Prelude CLib CDouble JsonValue JsonNotes JsonReader.

#[local] Open Scope Z_scope.

(** [is >> value] for a stream of just the text of a number: it fails where
    [sscanf] does and, with the largest [double], where the number overflows. *)
Definition istream_double (text : bytes) : option double :=
  match sscanf_lf (c_str text) with
  | Some (S754_infinity _) => None
  | r => r
  end.

Module Legacy.

(** ** Features *)

Record Features := MkFeatures {
  allowComments_ : bool;
  strictRoot_ : bool;
  allowDroppedNullPlaceholders_ : bool;
  allowNumericKeys_ : bool
}.

Definition all : Features := MkFeatures true false false false.
Definition strictMode : Features := MkFeatures false true false false.

Definition stackLimit_g : Z := 1000.

Section Reader.
Context (mem : bytes) (end_ : nat) (features_ : Features) (collectComments_ : bool).

(** ** Functions with the text of [OurReader]'s *)

Definition containsNewLine := JsonReader.containsNewLine mem.
Definition getNextChar := JsonReader.getNextChar mem end_.
Definition skipSpaces := JsonReader.skipSpaces mem end_.
Definition match_ := JsonReader.match_ mem end_.
Definition normalizeEOL := JsonReader.normalizeEOL mem.
Definition addComment := JsonReader.addComment mem collectComments_.
Definition readCStyleComment := JsonReader.readCStyleComment mem end_.
Definition readCppStyleComment := JsonReader.readCppStyleComment mem end_.
Definition readComment := JsonReader.readComment mem end_ collectComments_.
Definition readString := JsonReader.readString mem end_.
Definition decodeUnicodeEscapeSequence := JsonReader.decodeUnicodeEscapeSequence mem.
Definition decodeUnicodeCodePoint := JsonReader.decodeUnicodeCodePoint mem.
Definition decodeString := JsonReader.decodeString mem.
Definition addError := JsonReader.addError.
Definition getLocationLineAndColumn := JsonReader.getLocationLineAndColumn mem end_.
Definition location_text := JsonReader.location_text mem end_.
Definition getFormattedErrorMessages := JsonReader.getFormattedErrorMessages mem end_.
Definition getStructuredErrors := JsonReader.getStructuredErrors.
Definition pushError := JsonReader.pushError end_.
Definition pushError_extra := JsonReader.pushError_extra end_.
Definition good := JsonReader.good.

(** ** Numbers *)

Definition readNumber (s : RState) : outcome RState :=
  let p := current_ s in
  let fuel := S (left_ end_ s) in
  x ← skip_digits mem end_ fuel ("0"%char, p, p);
  x ← (let '(c, cur, p) := x in
       if decide (c = "."%char) then x ← next_number_char mem end_ p; skip_digits mem end_ fuel x
       else Ok x);
  x ← (let '(c, cur, p) := x in
       if decide (c = "e"%char \/ c = "E"%char) then
         x ← next_number_char mem end_ p;
         x ← (let '(c, cur, p) := x in
              if decide (c = "+"%char \/ c = "-"%char) then next_number_char mem end_ p else Ok x);
         skip_digits mem end_ fuel x
       else Ok x);
  let '(_, cur, _) := x in
  Ok (set_current cur s).

Definition decodeDouble (tok : Token) (s : RState) : outcome (option Value * RState) :=
  text ← token_text mem tok;
  match istream_double text with
  | Some value => Ok (Some (VReal value), s)
  | None => Ok (None, addError (bs "'" ++ text ++ bs "' is not a number.") tok None s)
  end.

(** [decodeNumber]: a value above [maxInt] becomes unsigned. *)
Definition decodeNumber (tok : Token) (s : RState) : outcome (option Value * RState) :=
  c ← char_at mem (start_ tok);
  let isNegative := bool_decide (c = "-"%char) in
  let current := if isNegative then (start_ tok + 1)%nat else start_ tok in
  let maxIntegerValue := if isNegative then 2 ^ 63 else maxLargestUInt in
  let threshold := maxIntegerValue / 10 in
  r ← decodeNumber_loop mem (end_of tok - current) threshold (maxIntegerValue mod 10) current 0;
  match r with
  | None => decodeDouble tok s
  | Some value =>
      Ok (Some (if isNegative && (value =? maxIntegerValue) then VInt minInt64
                else if isNegative then VInt (- i64 value)
                else if value <=? maxInt then VInt value
                else VUInt value), s)
  end.

(** ** Tokens *)

(** The switch of [readToken], as [JsonReader.scanToken]. *)
Definition scanToken (c : ascii) (s : RState) : outcome (TokenType * bool * RState) :=
  let simple t := Ok (t, true, s) in
  let scan t r := '(ok, s) ← r; Ok (t, ok, s) in
  if decide (c = "{"%char) then simple tokenObjectBegin
  else if decide (c = "}"%char) then simple tokenObjectEnd
  else if decide (c = "["%char) then simple tokenArrayBegin
  else if decide (c = "]"%char) then simple tokenArrayEnd
  else if decide (c = DQUOTE) then scan tokenString (readString s)
  else if decide (c = "/"%char) then scan tokenComment (readComment s)
  else if is_digit c || bool_decide (c = "-"%char) then
    s ← readNumber s; Ok (tokenNumber, true, s)
  else if decide (c = "t"%char) then scan tokenTrue (match_ (bs "rue") s)
  else if decide (c = "f"%char) then scan tokenFalse (match_ (bs "alse") s)
  else if decide (c = "n"%char) then scan tokenNull (match_ (bs "ull") s)
  else if decide (c = ","%char) then simple tokenArraySeparator
  else if decide (c = ":"%char) then simple tokenMemberSeparator
  else if decide (c = NUL) then simple tokenEndOfStream
  else Ok (tokenError, false, s).

Definition readToken (s : RState) : outcome (Token * RState) :=
  s ← skipSpaces s;
  let start := current_ s in
  '(c, s) ← getNextChar s;
  '(t, ok, s) ← scanToken c s;
  Ok (MkToken (if (ok : bool) then t else tokenError) start (current_ s), s).

(** Reads tokens while they are comments, from a first one. *)
Fixpoint skip_comments (fuel : nat) (tok : Token) (s : RState) : outcome (Token * RState) :=
  if decide (type_ tok = tokenComment) then
    match fuel with
    | O => NoFuel
    | S fuel => '(tok, s) ← readToken s; skip_comments fuel tok s
    end
  else Ok (tok, s).

Definition skipCommentTokens (s : RState) : outcome (Token * RState) :=
  '(tok, s) ← readToken s;
  if allowComments_ features_ then skip_comments (left_ end_ s) tok s else Ok (tok, s).

Fixpoint recover_loop (fuel : nat) (skipUntilToken : TokenType) (s : RState) : outcome RState :=
  match fuel with
  | O => NoFuel
  | S fuel =>
      '(skip, s) ← readToken s;
      if decide (type_ skip = skipUntilToken \/ type_ skip = tokenEndOfStream) then Ok s
      else recover_loop fuel skipUntilToken s
  end.

Definition recoverFromError (skipUntilToken : TokenType) (s : RState) : outcome RState :=
  let errorCount := length (errors_ s) in
  s ← recover_loop (left_ end_ s) skipUntilToken s;
  Ok (set_errors (take errorCount (errors_ s)) s).

Definition addErrorAndRecover (message : bytes) (tok : Token) (skipUntilToken : TokenType)
    (s : RState) : outcome RState :=
  recoverFromError skipUntilToken (addError message tok None s).

(** ** Values *)

(** The name of a member; the name of a numeric key is taken with
    [asCString], which throws for every number. *)
Definition readName (tok : Token) (s : RState) : outcome (option (option bytes) * RState) :=
  if decide (type_ tok = tokenString) then
    '(r, s) ← decodeString tok s; Ok (Some r, s)
  else if bool_decide (type_ tok = tokenNumber) && allowNumericKeys_ features_ then
    '(r, s) ← decodeNumber tok s;
    match r with
    | Some v => name ← asCString v; Ok (Some (Some name), s)
    | None => Ok (Some None, s)
    end
  else Ok (None, s).

(** [readValue], and the loops of [readObject] and [readArray]. *)
Fixpoint readValue (fuel : nat) (p : Place) (v : Value) (s : RState)
  : outcome (bool * Value * RState) :=
  match fuel with
  | O => NoFuel
  | S fuel =>
      if stackLimit_g <? node_count p then Throw ExRuntime
      else
        '(tok, s) ← skipCommentTokens s;
        s ← attachCommentsBefore collectComments_ p s;
        let mark := mark_value collectComments_ p in
        let end_mark := end_value collectComments_ p in
        let scalar w := Ok (true, w, mark (token_payload p tok s)) in
        let fails :=
          Ok (false, v, addError (bs "Syntax error: value, object or array expected.") tok None
                          (token_offsets p tok s)) in
        match type_ tok with
        | tokenObjectBegin =>
            let s := offset_start p (start_ tok) (new_payload p s) in
            '(ok, v, s) ← object_loop fuel p true (VObject []) s; Ok (ok, v, end_mark s)
        | tokenArrayBegin =>
            s ← skipSpaces (offset_start p (start_ tok) (new_payload p s));
            empty ← (if negb (current_ s =? end_)%nat then
                       c ← char_at mem (current_ s); Ok (bool_decide (c = "]"%char))
                     else Ok false);
            if (empty : bool) then '(_, s) ← readToken s; Ok (true, VArray [], end_mark s)
            else
              '(ok, v, s) ← array_loop fuel p 0 (VArray []) s; Ok (ok, v, end_mark s)
        | tokenNumber =>
            '(r, s) ← decodeNumber tok s;
            match r with
            | Some w => Ok (true, w, mark (token_payload p tok s))
            | None => Ok (false, v, mark s)
            end
        | tokenString =>
            '(r, s) ← decodeString tok s;
            match r with
            | Some text => w ← Value_of_string text; Ok (true, w, mark (token_payload p tok s))
            | None => Ok (false, v, mark s)
            end
        | tokenTrue => scalar (VBool true)
        | tokenFalse => scalar (VBool false)
        | tokenNull => scalar VNull
        | tokenArraySeparator | tokenObjectEnd | tokenArrayEnd =>
            if allowDroppedNullPlaceholders_ features_ then
              Ok (true, VNull, mark (dropped_payload p s))
            else fails
        | _ => fails
        end
  end
with object_loop (fuel : nat) (p : Place) (name_empty : bool) (v : Value) (s : RState)
  : outcome (bool * Value * RState) :=
  match fuel with
  | O => NoFuel
  | S fuel =>
      '(tokenName, s) ← readToken s;
      '(tokenName, s) ← skip_comments (left_ end_ s) tokenName s;
      if bool_decide (type_ tokenName = tokenObjectEnd) && name_empty then Ok (true, v, s)
      else
        '(r, s) ← readName tokenName s;
        match r with
        | None =>
            s ← addErrorAndRecover (bs "Missing '}' or object member name") tokenName
                  tokenObjectEnd s;
            Ok (false, v, s)
        | Some None => s ← recoverFromError tokenObjectEnd s; Ok (false, v, s)
        | Some (Some name) =>
            '(colon, s) ← readToken s;
            if decide (type_ colon <> tokenMemberSeparator) then
              s ← addErrorAndRecover (bs "Missing ':' after object member name") colon
                    tokenObjectEnd s;
              Ok (false, v, s)
            else
              '(w, v) ← resolveReference v name;
              '(ok, w, s) ← readValue fuel (Member name :: p) w s;
              v ← member_set v name w;
              if negb ok then s ← recoverFromError tokenObjectEnd s; Ok (false, v, s)
              else
                '(comma, s) ← readToken s;
                if decide (type_ comma <> tokenObjectEnd /\
                           type_ comma <> tokenArraySeparator /\
                           type_ comma <> tokenComment) then
                  s ← addErrorAndRecover (bs "Missing ',' or '}' in object declaration")
                        comma tokenObjectEnd s;
                  Ok (false, v, s)
                else
                  '(comma, s) ← skip_comments (left_ end_ s) comma s;
                  if decide (type_ comma = tokenObjectEnd) then Ok (true, v, s)
                  else object_loop fuel p (bool_decide (name = [])) v s
        end
  end
with array_loop (fuel : nat) (p : Place) (index : Z) (v : Value) (s : RState)
  : outcome (bool * Value * RState) :=
  match fuel with
  | O => NoFuel
  | S fuel =>
      '(w, v) ← index_ref_int v index;
      '(ok, w, s) ← readValue fuel (Element index :: p) w s;
      v ← index_set v index w;
      if negb ok then s ← recoverFromError tokenArrayEnd s; Ok (false, v, s)
      else
        '(currentToken, s) ← readToken s;
        '(currentToken, s) ← skip_comments (left_ end_ s) currentToken s;
        if decide (type_ currentToken <> tokenArraySeparator /\
                   type_ currentToken <> tokenArrayEnd) then
          s ← addErrorAndRecover (bs "Missing ',' or ']' in array declaration") currentToken
                tokenArrayEnd s;
          Ok (false, v, s)
        else if decide (type_ currentToken = tokenArrayEnd) then Ok (true, v, s)
        else array_loop fuel p (i32 (index + 1)) v s
  end.

(** The body of [parse]; [collectComments_] is already set. *)
Definition parse_root (root : Value) (root_notes : Notes) : outcome (bool * Value * RState) :=
  '(successful, root, s) ← readValue (parse_fuel end_) [] root (initial_RState root_notes);
  '(tok, s) ← skipCommentTokens s;
  n ← (if collectComments_ && negb (bool_decide (commentsBefore_ s = []))
       then setComment [] (commentsBefore_ s) commentAfter (notes_ s) else Ok (notes_ s));
  let s := set_notes n s in
  if strictRoot_ features_ && negb (isArray root || isObject root) then
    Ok (false, root,
        addError (bs "A valid JSON document must be either an array or an object value.")
          (MkToken tokenError 0 end_) None s)
  else Ok (successful, root, s).
End Reader.

(** ** Documents *)

(** [parse(beginDoc, endDoc, root, collectComments)] *)
Definition parse (mem : bytes) (end_ : nat) (features_ : Features) (collectComments : bool)
    (root : Value) (root_notes : Notes) : outcome (bool * Value * RState) :=
  parse_root mem end_ features_ (if negb (allowComments_ features_) then false else collectComments) root
    root_notes.

(** [parse(document, root, collectComments)]: a copy of the string. *)
Definition parse_document (document : bytes) (features_ : Features) (collectComments : bool)
    (root : Value) (root_notes : Notes) : outcome (bool * Value * RState) :=
  parse (c_str document) (length document) features_ collectComments root root_notes.

(** [std::getline(is, doc, (char)EOF)]: the stream up to a byte 255. *)
Fixpoint getline_EOF (stream : bytes) : bytes :=
  match stream with
  | [] => []
  | c :: stream => if decide (c = "255"%char) then [] else c :: getline_EOF stream
  end.

(** [parse(is, root, collectComments)] *)
Definition parse_istream (stream : bytes) (features_ : Features) (collectComments : bool) (root : Value)
    (root_notes : Notes) : outcome (bool * Value * RState) :=
  let doc := getline_EOF stream in parse (c_str doc) (length doc) features_ collectComments root root_notes.

(** What a caller has of a document read into a root without notes: the result,
    the root and the messages. *)
Definition read_document (document : bytes) (features_ : Features) (collectComments : bool) (root : Value)
  : outcome (bool * Value * bytes) :=
  '(ok, root, s) ← parse_document document features_ collectComments root ∅;
  errs ← getFormattedErrorMessages (c_str document) (length document) s;
  Ok (ok, root, errs).
End Legacy.

(** Numbers above [maxInt] are unsigned, numeric keys throw and a number beyond
    [double] is an error; the features named "all" leave out two of the four. *)
Example legacy_unsigned :
  Legacy.read_document (bs "[3000000000, 7, -5]") Legacy.all true VNull
  = Ok (true, array_of [VUInt 3000000000; VInt 7; VInt (-5)], []).
Proof. vm_compute. reflexivity. Qed.

Example legacy_numeric_key :
  Legacy.read_document (bs "{1:2}") (Legacy.MkFeatures true false false true) true VNull = Throw ExLogic.
Proof. vm_compute. reflexivity. Qed.

Example legacy_overflow :
  Legacy.read_document (bs "1e999") Legacy.all true VNull
  = Ok (false, VNull, bs "* Line 1, Column 1" ++ [LF] ++ bs "  '1e999' is not a number." ++ [LF]).
Proof. vm_compute. reflexivity. Qed.

(** A stream is read up to a byte 255, and the rest is dropped. *)
Example legacy_stream_stops :
  (fun '(ok, root, _) => (ok, root)) <$> Legacy.parse_istream (bs "[1]" ++ "255"%char :: bs ",,") Legacy.all true VNull ∅
  = Ok (true, array_of [VInt 1]).
Proof. vm_compute. reflexivity. Qed.
