(* ===== verification/JsonLegacyProofs.v ===== *)
(** * The two readers agree

    On a text both take for JSON in the same way, [Reader] does what
    [OurReader] does with its default settings, errors and comments included;
    only integers above [maxInt] are unsigned in the values it builds. *)
From Stdlib Require Import ZArith Ascii String Lia SpecFloat.
From stdpp Require Import base tactics list gmap.
From S2P Require Import Prelude CLib CDouble JsonValue JsonNotes JsonValueProofs JsonReader JsonReaderProofs.
From S2P Require Import JsonLegacyReader.

#[local] Open Scope Z_scope.

(** ** The same value *)

(** The value [Reader] builds for the one of [OurReader]. *)
Fixpoint as_legacy (v : Value) : Value :=
  match v with
  | VInt z => if maxInt <? z then VUInt z else VInt z
  | VArray m => VArray (map (fun kv => (kv.1, as_legacy kv.2)) m)
  | VObject m => VObject (map (fun kv => (kv.1, as_legacy kv.2)) m)
  | v => v
  end.

Section Maps.
Context {K V W : Type} (lt : K -> K -> bool) (f : V -> W).

Lemma find_map k m : map_find lt k (map (fun kv => (kv.1, f kv.2)) m) = f <$> map_find lt k m.
Proof. induction m as [|[k' v] m IH]; [done|]. cbn. rewrite IH. by repeat case_match. Qed.

Lemma insert_map k v m :
  map_insert lt k (f v) (map (fun kv => (kv.1, f kv.2)) m)
  = map (fun kv => (kv.1, f kv.2)) (map_insert lt k v m).
Proof. induction m as [|[k' v'] m IH]; [done|]. cbn. rewrite IH. by repeat case_match. Qed.
End Maps.

(** ** The same outcome *)

(** What [m] returns, [m'] returns through [f]. *)
Definition follows {A B} (f : A -> B) (m : outcome A) (m' : outcome B) : Prop :=
  forall a, m = Ok a -> m' = Ok (f a).

Lemma follows_ret {A B} (f : A -> B) a : follows f (Ok a) (Ok (f a)).
Proof. by intros ? [= ->]. Qed.

Lemma follows_refl {A} (m : outcome A) : follows (fun a => a) m m.
Proof. by intros ?. Qed.

Lemma follows_throw {A B} (f : A -> B) e m : follows f (Throw e) m.
Proof. by intros ?. Qed.

Lemma follows_fault {A B} (f : A -> B) m : follows f NoFuel m.
Proof. by intros ?. Qed.

Lemma follows_bind {A B C D} (f : A -> B) (g : C -> D) m m' k k' :
  follows f m m' -> (forall a, m = Ok a -> follows g (k a) (k' (f a))) -> follows g (m ≫= k) (m' ≫= k').
Proof. intros Hm Hk c E. apply bind_Ok_inv in E as (a & Ea & Ec). rewrite (Hm a Ea). by apply Hk. Qed.

Lemma follows_bind_same {A C D} (g : C -> D) (m m' : outcome A) k k' :
  follows (fun a => a) m m' -> (forall a, m = Ok a -> follows g (k a) (k' a)) ->
  follows g (m ≫= k) (m' ≫= k').
Proof. apply follows_bind. Qed.

(** Runs the first parts of two binds, by [H] or because they are the same. *)
Tactic Notation "both" "as" simple_intropattern_list(p) :=
  eapply follows_bind_same; [apply follows_refl|intros p].
Tactic Notation "both" uconstr(H) "as" simple_intropattern_list(p) :=
  eapply follows_bind_same; [eapply H|intros p].
Tactic Notation "both" uconstr(H) "through" uconstr(f) "as" simple_intropattern_list(p) :=
  eapply (follows_bind f); [eapply H|intros p].

(** ** Operations on values *)

Definition both_values (wv : Value * Value) : Value * Value := (as_legacy wv.1, as_legacy wv.2).

Lemma resolveReference_legacy v key :
  follows both_values (resolveReference v key) (resolveReference (as_legacy v) key).
Proof.
  unfold resolveReference, json_assert.
  destruct v as [|z|z|r|t|b|m|m]; cbn [as_legacy isNull isObject orb]; try apply follows_throw.
  - run. by intros ? [= <-].
  - run. rewrite find_map. destruct (map_find czstring_lt _ m) as [w|]; cbn [fmap option_fmap option_map].
    + apply (follows_ret both_values (w, VObject m)).
    + rewrite (insert_map czstring_lt as_legacy _ VNull m).
      apply (follows_ret both_values (VNull, VObject (map_insert czstring_lt _ VNull m))).
Qed.

Lemma member_set_legacy v key w :
  follows as_legacy (member_set v key w) (member_set (as_legacy v) key (as_legacy w)).
Proof.
  unfold member_set. both resolveReference_legacy through both_values as [u v'] _.
  cbn [both_values fst snd]. destruct v' as [|z|z|r|t|b|m|m]; cbn [as_legacy]; try (by intros ? [= <-]).
  - destruct (Z.ltb_spec maxInt z) as [Hz|Hz]; intros ? [= <-]; cbn [as_legacy];
      by destruct (Z.ltb_spec maxInt z); try lia.
  - rewrite insert_map. apply (follows_ret as_legacy (VObject _)).
Qed.

Lemma index_ref_legacy v i :
  follows both_values (index_ref v i) (index_ref (as_legacy v) i).
Proof.
  unfold index_ref, json_assert.
  destruct v as [|z|z|r|t|b|m|m]; cbn [as_legacy isNull isArray orb]; try apply follows_throw.
  - run. by intros ? [= <-].
  - run. rewrite find_map. destruct (map_find Z.ltb i m) as [w|]; cbn [fmap option_fmap option_map].
    + apply (follows_ret both_values (w, VArray m)).
    + rewrite (insert_map Z.ltb as_legacy _ VNull m).
      apply (follows_ret both_values (VNull, VArray (map_insert Z.ltb i VNull m))).
Qed.

Lemma index_ref_int_legacy v i :
  follows both_values (index_ref_int v i) (index_ref_int (as_legacy v) i).
Proof. unfold index_ref_int. both as n _. cbv zeta. apply index_ref_legacy. Qed.

Lemma index_set_legacy v i w :
  follows as_legacy (index_set v i w) (index_set (as_legacy v) i (as_legacy w)).
Proof.
  unfold index_set. both index_ref_legacy through both_values as [u v'] _.
  cbn [both_values fst snd]. destruct v' as [|z|z|r|t|b|m|m]; cbn [as_legacy]; try (by intros ? [= <-]).
  - destruct (Z.ltb_spec maxInt z) as [Hz|Hz]; intros ? [= <-]; cbn [as_legacy];
      by destruct (Z.ltb_spec maxInt z); try lia.
  - rewrite insert_map. apply (follows_ret as_legacy (VArray _)).
Qed.

(** ** The readers on one text *)

Section Readers.
Context (mem : bytes) (end_ : nat) (lf : Legacy.Features) (cc : bool).

(** The features of [OurReader] that [Reader] has. *)
Definition our_features : OurFeatures :=
  MkFeatures (Legacy.allowComments_ lf) (Legacy.strictRoot_ lf) (Legacy.allowDroppedNullPlaceholders_ lf)
    false false false false false Legacy.stackLimit_g.

Context (Hkeys : Legacy.allowNumericKeys_ lf = false).

(** No apostrophe, which [OurReader] takes for a slash, no "-I", which it takes
    for the beginning of "-Infinity", and no number beyond [double]. *)
Context (Hquote : SQUOTE ∉ mem)
  (Hinf : forall i, mem !! i = Some "-"%char -> mem !! S i <> Some "I"%char)
  (Hfinite : forall i n b, sscanf_lf (c_str (take n (drop i mem))) <> Some (S754_infinity b)).

Lemma readNumber_follows check s b s' :
  (check = true -> mem !! current_ s <> Some "I"%char) ->
  readNumber mem end_ check s = Ok (b, s') -> b = true /\ Legacy.readNumber mem end_ s = Ok s'.
Proof.
  intros HI. unfold readNumber, Legacy.readNumber. cbv zeta.
  assert (H : forall b, (if check && negb (current_ s =? end_)%nat
                         then c ← char_at mem (current_ s); Ok (bool_decide (c = "I"%char)) else Ok false)
                        = Ok b -> b = false).
  { intros x. destruct check; cbn [andb]; [|by intros [= <-]]. destruct (negb _); [|by intros [= <-]].
    unfold char_at. destruct (mem !! current_ s) as [c|] eqn:E; [|done]. run. intros [= <-].
    apply bool_decide_false. intros ->. by apply HI. }
  intros E. apply bind_Ok_inv in E as (x & Ex & E). rewrite (H x Ex) in E.
  apply bind_Ok_inv in E as (x1 & -> & E). run. apply bind_Ok_inv in E as (x2 & -> & E). run.
  apply bind_Ok_inv in E as (x3 & -> & E). run. destruct x3 as [[c cur] p]. by injection E as <- <-.
Qed.

Definition same_number (r : option Value * RState) : option Value * RState := (as_legacy <$> r.1, r.2).

Lemma decodeDouble_follows tok s :
  follows same_number (decodeDouble mem tok s) (Legacy.decodeDouble mem tok s).
Proof.
  unfold decodeDouble, Legacy.decodeDouble. both as text Et. unfold istream_double.
  assert (forall b, sscanf_lf (c_str text) <> Some (S754_infinity b)) as Hn.
  { unfold token_text, mem_range in Et. destruct (_ <=? _)%nat; [|done]. injection Et as <-. apply Hfinite. }
  destruct (sscanf_lf (c_str text)) as [[b|b| |b m e]|]; try (by intros ? [= <-]).
  by destruct (Hn b).
Qed.

(** What the loop of [decodeNumber] returns is no more than the limit. *)
Lemma decodeNumber_loop_limit n limit current value r :
  0 <= value <= limit -> limit < 2 ^ 64 ->
  decodeNumber_loop mem n (limit / 10) (limit mod 10) current value = Ok (Some r) -> 0 <= r <= limit.
Proof.
  revert current value; induction n as [|n IH]; intros current value Hv Hl; cbn [decodeNumber_loop].
  - by intros [= <-].
  - unfold char_at. destruct (mem !! current) as [c|]; [|done]. run.
    destruct (is_digit c) eqn:Ec; cbn [negb]; [|done].
    destruct (_ && _) eqn:E; [done|]. apply IH; [|done].
    unfold is_digit in Ec. apply andb_true_iff in Ec as [E1 E2].
    apply Z.leb_le in E1, E2.
    pose proof (Z.div_mod limit 10 ltac:(lia)). pose proof (Z.mod_pos_bound limit 10 ltac:(lia)).
    assert (value * 10 + (code c - 48) <= limit) as Hle.
    { apply andb_false_iff in E as [E|E]; [apply Z.leb_gt in E; lia|].
      apply orb_false_iff in E as [E E4]. apply orb_false_iff in E as [E3 _].
      apply Z.ltb_ge in E3, E4. lia. }
    unfold u64. rewrite Z.mod_small by lia. lia.
Qed.

Lemma i64_small z : - 2 ^ 63 <= z < 2 ^ 63 -> i64 z = z.
Proof. intros Hz. unfold i64. rewrite Z.mod_small; lia. Qed.

Lemma decodeNumber_follows tok s :
  follows same_number (decodeNumber mem tok s) (Legacy.decodeNumber mem tok s).
Proof.
  unfold decodeNumber, Legacy.decodeNumber. both as c _. cbv zeta. both as [z|] Ez; [|apply decodeDouble_follows].
  destruct (bool_decide (c = "-"%char)); cbn [andb].
  - apply decodeNumber_loop_limit in Ez; [|lia..]. intros ? [= <-]. unfold same_number.
    cbn [fst snd fmap option_fmap option_map as_legacy]. destruct (Z.eqb_spec z (2 ^ 63)) as [->|Hz]; [done|].
    rewrite (i64_small z), i64_small by lia. by rewrite (proj2 (Z.ltb_ge _ _)) by (unfold maxInt; lia).
  - apply decodeNumber_loop_limit in Ez; [|unfold maxLargestUInt; lia..]. intros ? [= <-].
    unfold same_number. cbn [fst snd fmap option_fmap option_map]. unfold maxLargestUInt in Ez.
    destruct (Z.leb_spec z maxInt) as [H|H].
    + rewrite (proj2 (Z.leb_le z maxInt64)) by (unfold maxInt, maxInt64 in *; lia). cbn [as_legacy].
      by rewrite (proj2 (Z.ltb_ge _ _)).
    + destruct (z <=? maxInt64); [|done]. cbn [as_legacy]. by rewrite (proj2 (Z.ltb_lt _ _)).
Qed.

(** ** Tokens *)

Lemma scanToken_follows c s :
  c <> SQUOTE -> (c = "-"%char -> mem !! current_ s <> Some "I"%char) ->
  follows (fun r => r) (scanToken mem end_ our_features cc c s) (Legacy.scanToken mem end_ cc c s).
Proof.
  intros Hq HI. unfold scanToken, Legacy.scanToken. cbv zeta.
  do 5 (case_decide; [apply follows_refl|]). rewrite decide_False by done.
  case_decide; [apply follows_refl|]. destruct (is_digit c); cbn [orb].
  { intros a E. apply bind_Ok_inv in E as ([b s'] & En & E).
    apply readNumber_follows in En as [_ ->]; [|done]. run. by injection E as <-. }
  destruct (decide (c = "-"%char)) as [->|Hm].
  { rewrite bool_decide_true by done. intros a E. apply bind_Ok_inv in E as ([b s'] & En & E).
    apply readNumber_follows in En as [-> ->]; [|by auto]. run. by injection E as <-. }
  rewrite bool_decide_false by done. do 3 (case_decide; [apply follows_refl|]).
  change (allowSpecialFloats_ our_features) with false. cbv iota.
  destruct (decide (c = "N"%char)) as [->|]; [apply follows_refl|].
  destruct (decide (c = "I"%char)) as [->|]; [apply follows_refl|]. apply follows_refl.
Qed.

Lemma getNextChar_cases s c s' :
  getNextChar mem end_ s = Ok (c, s') ->
  c = NUL \/ mem !! current_ s = Some c /\ current_ s' = S (current_ s).
Proof.
  unfold getNextChar. destruct (_ =? _)%nat; [intros [= <- <-]; by left|].
  unfold char_at. destruct (mem !! current_ s) as [d|] eqn:E; [|done]. run. intros [= <- <-]. right.
  split; [done|]. cbn [current_ set_current]. lia.
Qed.

Lemma readToken_follows s :
  follows (fun r => r) (readToken mem end_ our_features cc s) (Legacy.readToken mem end_ cc s).
Proof.
  unfold readToken, Legacy.readToken. both as s1 _. cbv zeta. both as [c s2] E.
  apply getNextChar_cases in E.
  both scanToken_follows as [[t ok] s3] _; [| |apply follows_refl].
  - intros ->. destruct E as [E|[E _]]; [done|]. apply Hquote. by eapply list_elem_of_lookup_2.
  - intros ->. destruct E as [E|[E ->]]; [done|]. by apply Hinf.
Qed.

Lemma skip_comments_follows fuel tok s :
  follows (fun r => r) (skip_comments mem end_ our_features cc fuel tok s)
    (Legacy.skip_comments mem end_ cc fuel tok s).
Proof.
  revert tok s; induction fuel as [|fuel IH]; intros tok s; cbn; (case_decide; [|apply follows_refl]);
    [apply follows_fault|]. both readToken_follows as [tok' s'] _. apply IH.
Qed.

Lemma skipCommentTokens_follows s :
  follows (fun r => r) (skipCommentTokens mem end_ our_features cc s)
    (Legacy.skipCommentTokens mem end_ lf cc s).
Proof.
  unfold skipCommentTokens, Legacy.skipCommentTokens. both readToken_follows as [tok s'] _.
  cbn [allowComments_ our_features]. destruct (Legacy.allowComments_ lf); [|apply follows_refl].
  apply skip_comments_follows.
Qed.

Lemma recover_loop_follows fuel t s :
  follows (fun r => r) (recover_loop mem end_ our_features cc fuel t s)
    (Legacy.recover_loop mem end_ cc fuel t s).
Proof.
  revert s; induction fuel as [|fuel IH]; intros s; cbn; [apply follows_fault|].
  both readToken_follows as [tok s'] _. case_decide; [apply follows_refl|apply IH].
Qed.

(** After an error: whatever happens, the value is left as it is. *)
Definition same_result (r : bool * Value * RState) : bool * Value * RState :=
  (r.1.1, as_legacy r.1.2, r.2).

Lemma recoverFromError_follows t s v :
  follows same_result
    (s ← recoverFromError mem end_ our_features cc t s; Ok (false, v, s))
    (s ← Legacy.recoverFromError mem end_ cc t s; Ok (false, as_legacy v, s)).
Proof.
  unfold recoverFromError, Legacy.recoverFromError. cbv zeta. rewrite !bind_assoc.
  both recover_loop_follows as s' _. run. apply (follows_ret same_result (false, v, _)).
Qed.

Lemma addErrorAndRecover_follows m tok t s v :
  follows same_result
    (s ← addErrorAndRecover mem end_ our_features cc m tok t s; Ok (false, v, s))
    (s ← Legacy.addErrorAndRecover mem end_ cc m tok t s; Ok (false, as_legacy v, s)).
Proof. apply recoverFromError_follows. Qed.

Lemma readName_follows tok s :
  follows (fun r => r) (readName mem our_features tok s) (Legacy.readName mem lf tok s).
Proof using Hkeys.
  unfold readName, Legacy.readName. rewrite Hkeys. cbn [allowNumericKeys_ our_features].
  rewrite andb_false_r. apply follows_refl.
Qed.

(** The words for numbers are no tokens of [Reader]. *)
Definition number_word (t : TokenType) : bool :=
  match t with tokenNaN | tokenPosInf | tokenNegInf => true | _ => false end.

Lemma scanToken_type c s t ok s' :
  Legacy.scanToken mem end_ cc c s = Ok (t, ok, s') -> number_word t = false.
Proof.
  unfold Legacy.scanToken. intros E.
  repeat (case_decide || destruct (is_digit c || _)); inv_bind;
    repeat match goal with H : _ * _ |- _ => destruct H end; by simplify_eq.
Qed.

Lemma readToken_type s tok s' :
  Legacy.readToken mem end_ cc s = Ok (tok, s') -> number_word (type_ tok) = false.
Proof.
  unfold Legacy.readToken. intros E. apply bind_Ok_inv in E as (s1 & _ & E).
  apply bind_Ok_inv in E as ([c s2] & _ & E). apply bind_Ok_inv in E as ([[t ok] s3] & Es & E).
  injection E as <- _. cbn [type_]. destruct ok; [|done]. by eapply scanToken_type.
Qed.

Lemma skip_comments_type fuel tok s tok' s' :
  number_word (type_ tok) = false ->
  Legacy.skip_comments mem end_ cc fuel tok s = Ok (tok', s') -> number_word (type_ tok') = false.
Proof.
  revert tok s; induction fuel as [|fuel IH]; intros tok s Ht; cbn [Legacy.skip_comments];
    (case_decide; [|by intros [= <- _]]); [done|].
  intros E. apply bind_Ok_inv in E as ([tok1 s1] & E1 & E). eapply IH; [|exact E]. by eapply readToken_type.
Qed.

Lemma skipCommentTokens_type s tok s' :
  skipCommentTokens mem end_ our_features cc s = Ok (tok, s') -> number_word (type_ tok) = false.
Proof.
  intros E. apply skipCommentTokens_follows in E. unfold Legacy.skipCommentTokens in E.
  apply bind_Ok_inv in E as ([tok1 s1] & E1 & E). apply readToken_type in E1.
  destruct (Legacy.allowComments_ lf); [by apply skip_comments_type in E|by injection E as <- _].
Qed.

(** ** Values *)

(** The readers agree on what is read with [n] units of fuel. *)
Definition agree (n : nat) : Prop :=
  (forall p v s,
     follows same_result (readValue mem end_ our_features cc n p v s)
       (Legacy.readValue mem end_ lf cc n p (as_legacy v) s)) /\
  (forall p e v s,
     follows same_result (object_loop mem end_ our_features cc n p e v s)
       (Legacy.object_loop mem end_ lf cc n p e (as_legacy v) s)) /\
  (forall p i v s,
     follows same_result (array_loop mem end_ our_features cc n p i v s)
       (Legacy.array_loop mem end_ lf cc n p i (as_legacy v) s)).

(** The end of a loop, and of a value. *)
Lemma result_follows b v s : follows same_result (Ok (b, v, s)) (Ok (b, as_legacy v, s)).
Proof. apply (follows_ret same_result (b, v, s)). Qed.

Lemma array_step_follows n p i v s :
  agree n ->
  follows same_result (array_loop mem end_ our_features cc (S n) p i v s)
    (Legacy.array_loop mem end_ lf cc (S n) p i (as_legacy v) s).
Proof using Hfinite Hinf Hkeys Hquote.
  intros (IHv & _ & IHa). rewrite array_loop_S. cbn [Legacy.array_loop].
  both index_ref_int_legacy through both_values as [w v1] _. cbn [both_values fst snd].
  both IHv through same_result as [[ok w1] s1] _. unfold same_result at 2. cbn [fst snd].
  both index_set_legacy through as_legacy as v2 _.
  destruct ok; cbn [negb]; [|apply recoverFromError_follows].
  both readToken_follows as [tok s2] _. both skip_comments_follows as [tok' s3] _.
  case_decide; [apply addErrorAndRecover_follows|].
  case_decide; [apply result_follows|]. apply IHa.
Qed.

Lemma object_step_follows n p e v s :
  agree n ->
  follows same_result (object_loop mem end_ our_features cc (S n) p e v s)
    (Legacy.object_loop mem end_ lf cc (S n) p e (as_legacy v) s).
Proof using Hfinite Hinf Hkeys Hquote.
  intros (IHv & IHo & _). rewrite object_loop_S. cbn [Legacy.object_loop].
  both readToken_follows as [tok s1] _. both skip_comments_follows as [tok' s2] _.
  destruct (_ && _); [apply result_follows|].
  both readName_follows as [r s3] _. destruct r as [[name|]|];
    [|apply recoverFromError_follows|apply addErrorAndRecover_follows].
  destruct (2 ^ 30 <=? size name); [apply follows_throw|].
  cbn [rejectDupKeys_ our_features]. run.
  both readToken_follows as [colon s4] _. case_decide; [apply addErrorAndRecover_follows|].
  both resolveReference_legacy through both_values as [w v1] _. cbn [both_values fst snd].
  both IHv through same_result as [[ok w1] s5] _. unfold same_result at 2. cbn [fst snd].
  both member_set_legacy through as_legacy as v2 _.
  destruct ok; cbn [negb]; [|apply recoverFromError_follows].
  both readToken_follows as [comma s6] _. case_decide; [apply addErrorAndRecover_follows|].
  both skip_comments_follows as [comma' s7] _. case_decide; [apply result_follows|]. apply IHo.
Qed.

Lemma readValue_step_follows n p v s :
  agree n ->
  follows same_result (readValue mem end_ our_features cc (S n) p v s)
    (Legacy.readValue mem end_ lf cc (S n) p (as_legacy v) s).
Proof using Hfinite Hinf Hkeys Hquote.
  intros (_ & IHo & IHa). rewrite readValue_S. cbn [Legacy.readValue].
  change (stackLimit_ our_features) with Legacy.stackLimit_g.
  destruct (_ <? node_count p); [apply follows_throw|]. both skipCommentTokens_follows as [tok s1] Et.
  apply skipCommentTokens_type in Et. both as s2 _. cbv zeta.
  cbn [allowDroppedNullPlaceholders_ our_features].
  destruct (type_ tok); try discriminate Et; try apply result_follows;
    try (destruct (Legacy.allowDroppedNullPlaceholders_ lf); apply result_follows).
  - both IHo through same_result as [[ok v1] s3] _. apply result_follows.
  - both as s3 _. both as b _. destruct b.
    + both readToken_follows as [tok' s4] _. apply result_follows.
    + both IHa through same_result as [[ok v1] s4] _. apply result_follows.
  - both as [r s3] _. destruct r as [text|]; [|apply result_follows].
    both as w Ew. unfold Value_of_string in Ew. apply bind_Ok_inv in Ew as ([] & _ & [= <-]). apply result_follows.
  - both decodeNumber_follows through same_number as [r s3] _. unfold same_number. cbn [fst snd].
    destruct r as [w|]; apply result_follows.
Qed.

Lemma all_agree n : agree n.
Proof using Hfinite Hinf Hkeys Hquote.
  induction n as [|n IH]; [split_and!; intros; apply follows_fault|].
  split_and!; intros; [by apply readValue_step_follows|by apply object_step_follows|by apply array_step_follows].
Qed.

Lemma parse_root_follows :
  follows same_result (parse_root mem end_ our_features cc VNull ∅)
    (Legacy.parse_root mem end_ lf cc VNull ∅).
Proof using Hfinite Hinf Hkeys Hquote.
  unfold parse_root, Legacy.parse_root.
  both (proj1 (all_agree (parse_fuel end_)) [] VNull) through same_result as [[ok v] s] _.
  unfold same_result at 2. cbn [fst snd]. both skipCommentTokens_follows as [tok s1] _.
  cbn [failIfExtra_ strictRoot_ our_features andb]. both as n _. cbv zeta.
  assert (isArray (as_legacy v) || isObject (as_legacy v) = isArray v || isObject v) as ->
    by (destruct v; try done; cbn [as_legacy]; by destruct (_ <? _)).
  destruct (_ && _); apply result_follows.
Qed.
End Readers.

(** ** Documents *)

(** A minus with an [I] behind it. *)
Fixpoint minus_I (s : bytes) : bool :=
  match s with
  | c :: (d :: _) as s' => bool_decide (c = "-"%char) && bool_decide (d = "I"%char) || minus_I s'
  | _ => false
  end.

Lemma minus_I_at s i :
  minus_I s = false -> s !! i = Some "-"%char -> s !! S i <> Some "I"%char.
Proof.
  revert i; induction s as [|c [|d s] IH]; intros i Hs H1 H2; [done|by destruct i|].
  cbn [minus_I] in Hs. apply orb_false_iff in Hs as [Hcd Hs]. destruct i as [|i].
  - injection H1 as ->. injection H2 as ->. by rewrite !bool_decide_true in Hcd.
  - by apply (IH i).
Qed.

(** No part of the text is a number beyond [double]. *)
Definition in_double_range (text : bytes) : bool :=
  forallb (fun i =>
    forallb (fun n =>
      match sscanf_lf (take n (drop i text)) with Some (S754_infinity _) => false | _ => true end)
      (seq 0 (S (length text)))) (seq 0 (S (length text))).

Lemma in_double_range_part text i n b :
  in_double_range text = true -> sscanf_lf (take n (drop i text)) <> Some (S754_infinity b).
Proof.
  intros H E. unfold in_double_range in H. rewrite forallb_forall in H.
  set (i' := Nat.min i (length text)). set (n' := Nat.min n (length text)).
  specialize (H i'). rewrite forallb_forall in H. specialize (H ltac:(apply in_seq; lia) n' ltac:(apply in_seq; lia)).
  assert (take n' (drop i' text) = take n (drop i text)) as Ht; [|by rewrite Ht, E in H].
  unfold i', n'. destruct (Nat.le_gt_cases i (length text)).
  - rewrite (Nat.min_l i) by done. destruct (Nat.le_gt_cases n (length text)); [by rewrite Nat.min_l|].
    rewrite Nat.min_r by lia. by rewrite !take_ge by (rewrite length_drop; lia).
  - rewrite (Nat.min_r i) by lia. rewrite (drop_ge text i), (drop_ge text (length text)) by lia. by rewrite !take_nil.
Qed.

(** The byte behind the text does not matter. *)
Lemma sscanf_part text i n :
  sscanf_lf (c_str (take n (drop i (c_str text)))) = sscanf_lf (take n (drop i text)).
Proof.
  unfold sscanf_lf. rewrite cstr_c_str. unfold c_str. rewrite drop_app, take_app.
  assert (Hshort : forall k l : nat, take k (drop l [NUL]) = [] \/ take k (drop l [NUL]) = [NUL])
    by (intros [|k] [|l]; cbn; rewrite ?drop_nil, ?take_nil; auto).
  destruct (Hshort (n - length (drop i text))%nat (i - length text)%nat) as [-> | ->];
    [by rewrite app_nil_r|]. fold (c_str (take n (drop i text))).
  by rewrite cstr_c_str.
Qed.

Lemma c_str_lookup text i c : c <> NUL -> c_str text !! i = Some c -> text !! i = Some c.
Proof.
  intros Hc H. unfold c_str in H. apply lookup_app_Some in H as [H|[_ H]]; [done|].
  by apply list_lookup_singleton_Some in H as [_ <-].
Qed.

Lemma documents_agree text lf collect :
  Legacy.allowNumericKeys_ lf = false -> SQUOTE ∉ text -> minus_I text = false ->
  in_double_range text = true ->
  follows (fun r => (r.1.1, as_legacy r.1.2, r.2))
    (OurCharReader_parse (c_str text) (length text) (our_features lf) collect VNull)
    (Legacy.read_document text lf collect VNull).
Proof.
  intros Hkeys Hquote HI Hfin. unfold OurCharReader_parse, OurReader_parse, Legacy.read_document,
    Legacy.parse_document, Legacy.parse. cbn [allowComments_ our_features].
  replace (if negb (Legacy.allowComments_ lf) then false else collect) with (collect && Legacy.allowComments_ lf)
    by (by destruct collect, (Legacy.allowComments_ lf)).
  both parse_root_follows through same_result as [[ok v] s] _.
  - done.
  - unfold c_str. intros [H|H]%elem_of_app; [done|]. by apply list_elem_of_singleton in H.
  - intros i H1 H2. apply c_str_lookup in H1; [|done]. apply c_str_lookup in H2; [|done].
    by apply (minus_I_at text i).
  - intros i n b. rewrite sscanf_part. by apply in_double_range_part.
  - unfold same_result. cbn [fst snd]. both as errs _. by intros ? [= <-].
Qed.

(** C29: [OurReader] and the older [Reader] agree.  With any features of the
    latter but numeric keys, on a text without apostrophes, without "-I" and
    without a number beyond [double], with fewer than 1000 opening brackets and
    shorter than a gigabyte, both return a result: the same answer, the same
    error messages, and the same value, in which [Reader] has made the integers
    above [maxInt] unsigned. *)
Theorem readers_agree (text : bytes) (lf : Legacy.Features) (collect : bool)
    (Hkeys : Legacy.allowNumericKeys_ lf = false) (Hquote : SQUOTE ∉ text)
    (HI : minus_I text = false) (Hrange : in_double_range text = true)
    (Hdeep : (opens text (length text) < 1000)%nat) (Hlen : size text < 2 ^ 30) :
  exists ok v errs,
    OurCharReader_parse (c_str text) (length text) (our_features lf) collect VNull = Ok (ok, v, errs) /\
    Legacy.read_document text lf collect VNull = Ok (ok, as_legacy v, errs).
Proof.
  destruct (char_reader_returns text (our_features lf) collect VNull) as (ok & v & errs & E); [done..|].
  exists ok, v, errs. split; [exact E|].
  exact (documents_agree text lf collect Hkeys Hquote HI Hrange _ E).
Qed.

(** A text with a large integer, a comment and an error. *)
Definition sample_legacy : bytes := bs "[3000000000, -2.5e3 /* c */, {a}]".

Lemma readers_agree_witness :
  exists ok v errs,
    OurCharReader_parse (c_str sample_legacy) (length sample_legacy) (our_features Legacy.all) true VNull
      = Ok (ok, v, errs) /\
    Legacy.read_document sample_legacy Legacy.all true VNull = Ok (ok, as_legacy v, errs).
Proof.
  apply (readers_agree sample_legacy Legacy.all true); [reflexivity| |vm_compute; reflexivity|
    vm_compute; reflexivity|vm_compute; lia|vm_compute; reflexivity].
  vm_compute. intros H. repeat (apply elem_of_cons in H as [H|H]; [discriminate H|]).
  by apply not_elem_of_nil in H.
Defined.
