(* ===== verification/JsonPath.v ===== *)
(** * Path (jsoncpp.cpp, json_value part)

    A path names a place inside a value by indices and keys.  The characters of
    the path are read through [char_at], the terminating NUL included.  The
    place [make] returns a reference to is modelled as elsewhere: [make] gives
    the value found and the root with the place in it, [make_set] what
    assigning through the reference leaves. *)
From Stdlib Require Import ZArith Ascii String Lia.
From stdpp Require Import base tactics list.
From S2P Require Import Prelude CLib CDouble JsonValue.

#[local] Open Scope Z_scope.

(** ** Arguments *)

Inductive Kind := kindNone | kindIndex | kindKey.

#[export] Instance Kind_eq_dec : EqDecision Kind.
Proof. solve_decision. Defined.

Record PathArgument := MkPathArgument { key_ : bytes; index_ : Z; kind_ : Kind }.

#[export] Instance PathArgument_eq_dec : EqDecision PathArgument.
Proof. solve_decision. Defined.

Definition no_argument : PathArgument := MkPathArgument [] 0 kindNone.
Definition index_argument (index : Z) : PathArgument := MkPathArgument [] index kindIndex.
Definition key_argument (key : bytes) : PathArgument := MkPathArgument (cstr key) 0 kindKey.

(** ** Reading a path *)

(** [addPathInArg]: the arguments, and those passed in that are left. *)
Definition addPathInArg (args_ in_ : list PathArgument) (kind : Kind)
  : list PathArgument * list PathArgument :=
  match in_ with
  | [] => (args_, in_)
  | a :: rest => if decide (kind_ a <> kind) then (args_, in_) else (args_ ++ [a], rest)
  end.

Section MakePath.
Context (path : bytes).

(** [path.c_str()] and its end. *)
Definition path_chars : bytes := c_str path.
Definition path_end : nat := length path.

(** The digits of an index. *)
Fixpoint index_loop (fuel current : nat) (index : Z) : outcome (Z * nat) :=
  if (current =? path_end)%nat then Ok (index, current)
  else
    c ← char_at path_chars current;
    if is_digit c then
      match fuel with
      | O => NoFuel
      | S fuel => index_loop fuel (current + 1) (u32 (u32 (index * 10) + (code c - 48)))
      end
    else Ok (index, current).

(** [strchr("[.", c)] also finds the NUL that ends its string. *)
Definition ends_name (c : ascii) : bool :=
  bool_decide (c = "["%char) || bool_decide (c = "."%char) || bool_decide (c = NUL).

(** The characters of a name. *)
Fixpoint name_loop (fuel current : nat) : outcome nat :=
  if (current =? path_end)%nat then Ok current
  else
    c ← char_at path_chars current;
    if ends_name c then Ok current
    else
      match fuel with
      | O => NoFuel
      | S fuel => name_loop fuel (current + 1)
      end.

(** The check at the end of an index, which steps over one character;
    [invalidPath] does nothing. *)
Definition close_index (current : nat) : outcome nat :=
  if (current =? path_end)%nat then Ok current
  else _ ← char_at path_chars (current + 1); Ok (current + 1)%nat.

Fixpoint makePath_loop (fuel current : nat) (args_ in_ : list PathArgument)
  : outcome (list PathArgument) :=
  if (current =? path_end)%nat then Ok args_
  else
    match fuel with
    | O => NoFuel
    | S fuel =>
        c ← char_at path_chars current;
        if decide (c = "["%char) then
          let current := (current + 1)%nat in
          d ← char_at path_chars current;
          '(args_, in_, current) ←
            (if decide (d = "%"%char) then
               Ok (addPathInArg args_ in_ kindIndex, current)
             else
               '(index, current) ← index_loop (length path) current 0;
               Ok (args_ ++ [index_argument index], in_, current));
          current ← close_index current;
          makePath_loop fuel current args_ in_
        else if decide (c = "%"%char) then
          let '(args_, in_) := addPathInArg args_ in_ kindKey in
          makePath_loop fuel (current + 1) args_ in_
        else if decide (c = "."%char \/ c = "]"%char) then makePath_loop fuel (current + 1) args_ in_
        else
          let beginName := current in
          current ← name_loop (length path) current;
          makePath_loop fuel current
            (args_ ++ [key_argument (slice beginName (current - beginName) path)]) in_
    end.

(** [Path(path, a1, a2, a3, a4, a5)] with the arguments given; the others are
    [no_argument]. *)
Definition makePath (fuel : nat) (in_ : list PathArgument) : outcome (list PathArgument) :=
  makePath_loop fuel 0 [] (take 5 (in_ ++ replicate 5 no_argument)).

Definition Path (in_ : list PathArgument) : outcome (list PathArgument) := makePath (length path) in_.
End MakePath.

(** ** Following a path *)

(** [resolve(root)]; [Value::null] and the null singleton are the same value. *)
Fixpoint resolve (args_ : list PathArgument) (root : Value) : outcome Value :=
  match args_ with
  | [] => Ok root
  | arg :: args_ =>
      match kind_ arg with
      | kindIndex =>
          if negb (isArray root) || negb (isValidIndex root (index_ arg)) then Ok VNull
          else node ← index_const root (index_ arg); resolve args_ node
      | kindKey =>
          if negb (isObject root) then Ok VNull
          else
            r ← find root (key_ arg);
            match r with None => Ok VNull | Some node => resolve args_ node end
      | kindNone => resolve args_ root
      end
  end.

(** [resolve(root, defaultValue)] *)
Fixpoint resolve_default (args_ : list PathArgument) (root defaultValue : Value) : outcome Value :=
  match args_ with
  | [] => Ok root
  | arg :: args_ =>
      match kind_ arg with
      | kindIndex =>
          if negb (isArray root) || negb (isValidIndex root (index_ arg)) then Ok defaultValue
          else node ← index_const root (index_ arg); resolve_default args_ node defaultValue
      | kindKey =>
          if negb (isObject root) then Ok defaultValue
          else
            r ← find root (key_ arg);
            match r with
            | None => Ok defaultValue
            | Some node => resolve_default args_ node defaultValue
            end
      | kindNone => resolve_default args_ root defaultValue
      end
  end.

(** One step of [make]: the node, and the value it is in. *)
Definition make_step (arg : PathArgument) (node : Value) : outcome (Value * Value) :=
  match kind_ arg with
  | kindIndex => index_ref node (index_ arg)
  | kindKey => resolveReference node (key_ arg)
  | kindNone => Ok (node, node)
  end.

(** The node is changed to [child] inside [node]. *)
Definition make_store (arg : PathArgument) (node child : Value) : outcome Value :=
  match kind_ arg with
  | kindIndex => index_set node (index_ arg) child
  | kindKey => member_set node (key_ arg) child
  | kindNone => Ok child
  end.

(** [make(root)] *)
Fixpoint make (args_ : list PathArgument) (root : Value) : outcome (Value * Value) :=
  match args_ with
  | [] => Ok (root, root)
  | arg :: args_ =>
      '(node, root) ← make_step arg root;
      '(w, node) ← make args_ node;
      root ← make_store arg root node;
      Ok (w, root)
  end.

(** [make(root) = w] *)
Fixpoint make_set (args_ : list PathArgument) (root w : Value) : outcome Value :=
  match args_ with
  | [] => Ok w
  | arg :: args_ =>
      '(node, root) ← make_step arg root;
      node ← make_set args_ node w;
      make_store arg root node
  end.

(** A path with an argument, and one whose index is followed by a letter. *)
Example path_arguments :
  Path (bs ".list[%].%[3]") [index_argument 7; key_argument (bs "x")]
  = Ok [key_argument (bs "list"); index_argument 7; key_argument (bs "x"); index_argument 3].
Proof. vm_compute. reflexivity. Qed.

Example path_skips_a_letter :
  Path (bs "[1x]a") [] = Ok [index_argument 1; key_argument (bs "a")].
Proof. vm_compute. reflexivity. Qed.
