(* ===== verification/JsonPathProofs.v ===== *)
(** * Paths: reading them, and what [make] and [resolve] do

    A printed path is read back, [make] stores a value where [resolve] finds
    it and changes no other place, and the loop of [makePath] can go on forever. *)
From Stdlib Require Import ZArith Ascii String Lia.
From stdpp Require Import base tactics list.
From S2P Require Import Prelude CLib CDouble JsonValue JsonValueProofs JsonPath.

#[local] Open Scope Z_scope.

(** ** The text of a path *)

(** A name that a path can have as it is. *)
Definition path_name (k : bytes) : bool :=
  match k with
  | [] => false
  | c :: _ => negb (bool_decide (c = "%"%char) || bool_decide (c = "]"%char))
              && forallb (fun c => negb (ends_name c)) k
  end.

(** Indices that an array can have, and names that have a text. *)
Definition printable_argument (a : PathArgument) : Prop :=
  match kind_ a with
  | kindNone => False
  | kindIndex => a = index_argument (index_ a) /\ 0 <= index_ a < 2 ^ 32 - 1
  | kindKey => a = MkPathArgument (key_ a) 0 kindKey /\ path_name (key_ a) = true /\ size (key_ a) < 2 ^ 30
  end.

Definition print_argument (a : PathArgument) : bytes :=
  match kind_ a with
  | kindIndex => "["%char :: dec_unsigned (index_ a) ++ bs "]"
  | _ => "."%char :: key_ a
  end.

Definition print_path (args : list PathArgument) : bytes := args ≫= print_argument.

Lemma path_name_no_nul k : path_name k = true -> NUL ∉ k.
Proof.
  unfold path_name. destruct k as [|c k]; [done|]. intros H%andb_prop. destruct H as [_ H].
  intros Hin. rewrite forallb_forall in H. apply list_elem_of_In, H in Hin. done.
Qed.

Section Reading.
Context (path : bytes).

(** The character behind a part of the path. *)
Lemma path_char pre c rest :
  path = pre ++ c :: rest ->
  (length pre =? path_end path)%nat = false /\ char_at (path_chars path) (length pre) = Ok c.
Proof.
  intros ->. unfold path_end, path_chars, c_str, char_at. split.
  - apply Nat.eqb_neq. rewrite length_app. simpl. lia.
  - rewrite <- app_assoc. cbn [app]. by rewrite list_lookup_middle.
Qed.

Lemma after_part (pre t : bytes) : length (pre ++ t) = (length pre + length t)%nat.
Proof. apply length_app. Qed.

(** The digits up to the bracket. *)
Lemma index_loop_reads ds pre rest fuel v :
  all_digits ds -> path = pre ++ ds ++ "]"%char :: rest -> (length ds <= fuel)%nat ->
  0 <= v -> digits_value ds v < 2 ^ 32 ->
  index_loop path fuel (length pre) v = Ok (digits_value ds v, (length pre + length ds)%nat).
Proof.
  intros Hds. revert pre fuel v. induction Hds as [|c ds Hc Hds IH]; intros pre fuel v Hp Hf Hv Hb.
  - destruct (path_char pre "]"%char rest Hp) as [E1 E2]. rewrite Nat.add_0_r.
    destruct fuel; cbn [index_loop]; rewrite E1, E2; by run.
  - destruct fuel as [|fuel]; [simpl in Hf; lia|]. destruct (path_char pre c (ds ++ "]"%char :: rest) Hp) as [E1 E2].
    cbn [index_loop digits_value length] in *. rewrite E1, E2. run. rewrite Hc in *.
    assert (0 <= code c - 48 < 10) as Hd by (unfold is_digit in Hc; lia).
    pose proof (digits_value_ge ds (10 * v + (code c - 48)) Hds ltac:(lia)) as Hm.
    pose proof (Z.pow_pos_nonneg 10 (Z.of_nat (length ds)) ltac:(lia) ltac:(lia)).
    assert (10 * v + (code c - 48) <= digits_value ds (10 * v + (code c - 48))) by nia.
    replace (u32 (u32 (v * 10) + (code c - 48))) with (10 * v + (code c - 48))
      by (unfold u32; rewrite (Z.mod_small (v * 10)), Z.mod_small by lia; lia).
    specialize (IH (pre ++ [c]) fuel (10 * v + (code c - 48))). rewrite length_app in IH. cbn [length] in IH.
    rewrite Nat.add_1_r in *. rewrite IH; [do 2 f_equal; lia|by rewrite <- app_assoc|lia..].
Qed.

(** The characters of a name. *)
Lemma name_loop_reads k pre rest fuel :
  Forall (fun c => ends_name c = false) k -> path = pre ++ k ++ rest -> (length k <= fuel)%nat ->
  match rest with [] => True | c :: _ => ends_name c = true end ->
  name_loop path fuel (length pre) = Ok (length pre + length k)%nat.
Proof.
  intros Hk. revert pre fuel. induction Hk as [|c k Hc Hk IH]; intros pre fuel Hp Hf Hr.
  - rewrite Nat.add_0_r. destruct rest as [|c rest].
    + assert ((length pre =? path_end path)%nat = true) as E
        by (apply Nat.eqb_eq; unfold path_end; by rewrite Hp, !app_nil_r).
      by destruct fuel; cbn [name_loop]; rewrite E.
    + destruct (path_char pre c rest Hp) as [E1 E2].
      by destruct fuel; cbn [name_loop]; rewrite E1, E2; run; rewrite Hr.
  - destruct fuel as [|fuel]; [simpl in Hf; lia|]. destruct (path_char pre c (k ++ rest) Hp) as [E1 E2].
    cbn [name_loop length]. rewrite E1, E2. run. rewrite Hc.
    specialize (IH (pre ++ [c]) fuel). rewrite length_app in IH. cbn [length] in *. rewrite Nat.add_1_r in *.
    rewrite IH; [f_equal; lia|by rewrite <- app_assoc|lia|done].
Qed.

(** What follows a part of a printed path. *)
Lemma print_path_head args :
  Forall printable_argument args ->
  match print_path args with [] => True | c :: _ => ends_name c = true end.
Proof. intros [|a l Ha _]; [done|]. unfold print_path. cbn. unfold print_argument. by destruct (kind_ a). Qed.

Lemma slice_middle (pre k rest : bytes) : slice (length pre) (length k) (pre ++ k ++ rest) = k.
Proof. unfold slice. by rewrite drop_app_length, take_app_length. Qed.

(** A printed index, and a printed name. *)
Lemma index_reads i pre rest fuel args in_ :
  0 <= i < 2 ^ 32 - 1 -> path = pre ++ (("["%char :: dec_unsigned i ++ bs "]") ++ rest) ->
  makePath_loop path (S fuel) (length pre) args in_
  = makePath_loop path fuel (length pre + length ("["%char :: dec_unsigned i ++ bs "]"))
      (args ++ [index_argument i]) in_.
Proof.
  intros Hi Hp.
  pose proof (dec_unsigned_digits i (proj1 Hi)) as Hds. pose proof (dec_unsigned_value i ltac:(lia)) as Hv.
  destruct (dec_unsigned_cons i) as (d & ds & Ed). set (n := dec_unsigned i) in *.
  assert (path = (pre ++ ["["%char]) ++ n ++ "]"%char :: rest) as Hp2
    by (rewrite Hp; cbn [app]; by rewrite <- !app_assoc).
  destruct (path_char pre "["%char (n ++ "]"%char :: rest)) as [E1 E2]; [by rewrite Hp2, <- app_assoc|].
  destruct (path_char (pre ++ ["["%char]) d (ds ++ "]"%char :: rest)) as [_ E3]; [by rewrite Hp2, Ed|].
  destruct (path_char ((pre ++ ["["%char]) ++ n) "]"%char rest) as [E4 _]; [by rewrite Hp2, <- !app_assoc|].
  assert (length n <= length path)%nat as Hn by (rewrite Hp2, !length_app; lia).
  pose proof (index_loop_reads n (pre ++ ["["%char]) rest (length path) 0 Hds Hp2 Hn ltac:(lia) ltac:(lia)) as E5.
  rewrite Hv in E5. rewrite !length_app in E5. rewrite !length_app in E4. rewrite length_app in E3.
  cbn [length] in E3, E4, E5.
  cbn [makePath_loop]. rewrite E1, E2. run. rewrite E3. run.
  assert (d <> "%"%char) as Hd by (intros ->; rewrite Ed in Hds; by apply Forall_cons in Hds as [? _]).
  rewrite decide_True by done. rewrite decide_False by done. rewrite E5. run. unfold close_index. rewrite E4.
  assert (exists c, char_at (path_chars path) (length pre + 1 + length n + 1) = Ok c) as [c ->].
  { unfold char_at, path_chars. destruct (lookup_lt_is_Some_2 (c_str path) (length pre + 1 + length n + 1)) as [c Hc];
      [|by exists c; rewrite Hc]. unfold c_str. rewrite Hp2, !length_app. cbn [length]. lia. }
  run. f_equal. cbn [length]. rewrite length_app. cbn [length bs]. simpl. lia.
Qed.

Lemma name_reads k pre rest fuel args in_ :
  path_name k = true -> path = pre ++ (("."%char :: k) ++ rest) ->
  match rest with [] => True | c :: _ => ends_name c = true end ->
  makePath_loop path (S (S fuel)) (length pre) args in_
  = makePath_loop path fuel (length pre + length ("."%char :: k)) (args ++ [MkPathArgument k 0 kindKey]) in_.
Proof.
  intros Hk Hp Hr. pose proof (path_name_no_nul k Hk) as Hn.
  assert (path = (pre ++ ["."%char]) ++ k ++ rest) as Hp2 by (rewrite Hp, <- app_assoc; done).
  assert (Forall (fun c => ends_name c = false) k) as Hf.
  { unfold path_name in Hk. destruct k as [|c k]; [done|]. apply andb_prop in Hk as [_ Hk].
    rewrite forallb_forall in Hk. apply Forall_forall. intros x Hx. apply negb_true_iff, Hk.
    by apply list_elem_of_In. }
  destruct k as [|c k]; [done|]. apply andb_prop in Hk as [Hk _]. apply negb_true_iff, orb_false_iff in Hk as [H1 H2].
  apply bool_decide_eq_false in H1, H2.
  assert (c <> "["%char /\ c <> "."%char) as [H3 H4].
  { apply Forall_cons in Hf as [Hc _]. unfold ends_name in Hc. apply orb_false_iff in Hc as [Hc _].
    apply orb_false_iff in Hc as [Ha Hb]. by apply bool_decide_eq_false in Ha, Hb. }
  destruct (path_char pre "."%char ((c :: k) ++ rest)) as [E1 E2]; [by rewrite Hp|].
  destruct (path_char (pre ++ ["."%char]) c (k ++ rest)) as [E3 E4]; [by rewrite Hp2|].
  assert (length (c :: k) <= length path)%nat as Hl by (rewrite Hp2, !length_app; lia).
  pose proof (name_loop_reads (c :: k) _ rest (length path) Hf Hp2 Hl Hr) as E5.
  assert (slice (length (pre ++ ["."%char])) (length (c :: k)) path = c :: k) as Es
    by (rewrite Hp2; apply slice_middle).
  rewrite length_app in E3, E4, E5, Es. cbn [length] in *.
  cbn [makePath_loop]. rewrite E1, E2. run.
  do 2 rewrite decide_False by done. rewrite decide_True by (by left). rewrite E3, E4. run.
  do 3 rewrite decide_False by naive_solver. rewrite E5. run.
  replace (length pre + 1 + S (length k) - (length pre + 1))%nat with (S (length k)) by lia. rewrite Es.
  unfold key_argument. rewrite (cstr_id (c :: k)) by done. f_equal. lia.
Qed.

(** A printed path is read to the end. *)
Lemma makePath_loop_reads args pre done_ in_ fuel :
  Forall printable_argument args -> path = pre ++ print_path args ->
  (length (print_path args) <= fuel)%nat ->
  makePath_loop path fuel (length pre) done_ in_ = Ok (done_ ++ args).
Proof.
  intros Hargs. revert pre done_ fuel. induction Hargs as [|a args Ha Hargs IH]; intros pre done_ fuel Hp Hf.
  - cbn in Hp. rewrite app_nil_r in *.
    assert ((length pre =? path_end path)%nat = true) as E by (apply Nat.eqb_eq; unfold path_end; by rewrite Hp).
    by destruct fuel; cbn [makePath_loop]; rewrite E.
  - change (print_path (a :: args)) with (print_argument a ++ print_path args) in *.
    pose proof (print_path_head args Hargs) as Hr.
    assert (Hrest : forall n, (length (print_path args) <= n)%nat ->
      makePath_loop path n (length pre + length (print_argument a)) (done_ ++ [a]) in_ = Ok (done_ ++ a :: args)).
    { intros n Hn. rewrite <- length_app, IH; [by rewrite <- app_assoc|by rewrite <- app_assoc|done]. }
    rewrite length_app in Hf. unfold printable_argument, print_argument in *. destruct (kind_ a); [done| |].
    + destruct Ha as [Ea Hi]. cbn [length] in Hf.
      destruct fuel as [|fuel]; [lia|]. rewrite (index_reads (index_ a) _ (print_path args)) by done.
      rewrite <- Ea. apply Hrest. lia.
    + destruct Ha as (Ea & Hk & _). cbn [length] in Hf.
      assert (length (key_ a) <> 0)%nat by (by destruct (key_ a)).
      destruct fuel as [|[|fuel]]; [lia..|]. rewrite (name_reads (key_ a) _ (print_path args)) by done.
      rewrite <- Ea. apply Hrest. lia.
Qed.
End Reading.

Lemma Path_reads args : Forall printable_argument args -> Path (print_path args) [] = Ok args.
Proof. intros Ha. by apply (makePath_loop_reads (print_path args) args []). Qed.

(** A NUL in a path stops the search for the end of a name without moving on:
    the loop of [makePath] adds an empty argument again and again. *)
Lemma path_with_nul_never_ends rest in_ fuel : makePath (NUL :: rest) fuel in_ = NoFuel.
Proof.
  unfold makePath. generalize (take 5 (in_ ++ replicate 5 no_argument)) as l.
  generalize (@nil PathArgument) as args. induction fuel as [|fuel IH]; intros args l; [done|].
  destruct (path_char (NUL :: rest) [] NUL rest eq_refl) as [E1 E2]. cbn [makePath_loop].
  cbn [length] in E1, E2. rewrite E1, E2. run. do 2 rewrite decide_False by done.
  rewrite decide_False by (by intros [?|?]).
  assert (name_loop (NUL :: rest) (length (NUL :: rest)) 0 = Ok 0%nat) as ->
    by (cbn [name_loop length]; by rewrite E1, E2). run. apply IH.
Qed.

(** ** Places in a value *)

(** An argument that a place can have. *)
Definition place (a : PathArgument) : Prop :=
  match kind_ a with
  | kindNone => False
  | kindIndex => a = index_argument (index_ a) /\ 0 <= index_ a < 2 ^ 32 - 1
  | kindKey => a = MkPathArgument (key_ a) 0 kindKey /\ size (key_ a) < 2 ^ 30
  end.

Lemma printable_place a : printable_argument a -> place a.
Proof. unfold printable_argument, place. destruct (kind_ a); naive_solver. Qed.

(** What is in the place [a] of a value. *)
Definition child (a : PathArgument) (v : Value) : option Value :=
  match kind_ a, v with
  | kindIndex, VArray m => map_find Z.ltb (index_ a) m
  | kindKey, VObject m => map_find czstring_lt (key_ a) m
  | _, _ => None
  end.

(** [make] can go along the path: it turns nulls into what they have to be and
    passes through arrays and objects of the right kind. *)
Fixpoint open_path (args : list PathArgument) (v : Value) : bool :=
  match args with
  | [] => true
  | a :: args =>
      match kind_ a, v with
      | _, VNull => true
      | kindIndex, VArray _ | kindKey, VObject _ =>
          match child a v with Some w => open_path args w | None => true end
      | _, _ => false
      end
  end.

Lemma open_null args : open_path args VNull = true.
Proof. destruct args as [|a args]; [done|]. cbn. by destruct (kind_ a). Qed.

(** The elements of an array are below its size. *)
Lemma find_size i m w :
  wf_value (VArray m) -> map_find Z.ltb i m = Some w -> i < value_size (VArray m).
Proof.
  intros [Hs Hf]%wf_array. cbn [value_size]. unfold u32.
  induction m as [|[j u] m IH]; [done|]. destruct Hs as [Hj Hs]. apply Forall_cons in Hf as [Hk Hf].
  cbn [map_find fst] in *. rewrite last_cons. destruct (last m) as [[k x]|] eqn:E.
  - assert ((k, x) ∈ m) as Hin by (by apply last_Some_elem_of).
    pose proof (proj1 (Forall_forall _ _) Hf _ Hin) as [Hkx _].
    pose proof (proj1 (Forall_forall _ _) Hj _ Hin) as Hjk. cbn [fst] in *. apply Z.ltb_lt in Hjk.
    destruct (Z.ltb_spec j i); [by apply IH|]. destruct (Z.ltb_spec i j); [done|]. intros _.
    rewrite Z.mod_small; lia.
  - apply last_None in E as ->. destruct (Z.ltb_spec j i); [done|]. destruct (Z.ltb_spec i j); [done|]. intros _.
    rewrite Z.mod_small; lia.
Qed.

Lemma resolve_null args : Forall place args -> resolve args VNull = Ok VNull.
Proof.
  destruct 1 as [|a args Ha _]; [done|]. unfold place in Ha. cbn [resolve]. by destruct (kind_ a).
Qed.

(** [resolve] follows the children; where there is none it ends with null. *)
Lemma resolve_child a args v :
  Forall place (a :: args) -> wf_value v -> resolve (a :: args) v = resolve args (default VNull (child a v)).
Proof.
  intros [Ha Hargs]%Forall_cons Hv. pose proof (resolve_null args Hargs) as Hnull.
  unfold place in Ha. unfold child. cbn [resolve]. destruct (kind_ a); [done| |].
  - destruct v as [|z|z|r|t|b|m|m]; cbn [isArray negb orb default]; try done.
    unfold isValidIndex. destruct (Z.ltb_spec (index_ a) (value_size (VArray m))) as [H|H]; cbn [negb].
    + unfold index_const, json_assert. cbn [isNull isArray orb]. by run.
    + destruct (map_find Z.ltb (index_ a) m) as [w|] eqn:E; [|done].
      apply find_size in E; [lia|done].
  - destruct v as [|z|z|r|t|b|m|m]; cbn [isObject negb default]; try done.
    unfold find, json_assert. cbn [isNull isObject orb]. run. rewrite czstring_id by tauto.
    by destruct (map_find czstring_lt (key_ a) m).
Qed.

(** The same with another default, where there is a child. *)
Lemma resolve_default_child a args v w d :
  place a -> wf_value v -> child a v = Some w ->
  resolve_default (a :: args) v d = resolve_default args w d.
Proof.
  unfold place, child. cbn [resolve_default]. intros Ha Hv E. destruct (kind_ a); [done| |].
  - destruct v as [|z|z|r|t|b|m|m]; try done. cbn [isArray negb orb]. unfold isValidIndex.
    rewrite (proj2 (Z.ltb_lt _ _)) by (by eapply find_size).
    unfold index_const, json_assert. cbn [isNull isArray orb negb]. run. by rewrite E.
  - destruct v as [|z|z|r|t|b|m|m]; try done. cbn [isObject negb].
    unfold find, json_assert. cbn [isNull isObject orb]. run. rewrite czstring_id by tauto. by rewrite E.
Qed.

(** An index that has been referred to. *)
Lemma wf_array_insert m i w :
  wf_value (VArray m) -> 0 <= i < 2 ^ 32 - 1 -> wf_value w -> wf_value (VArray (map_insert Z.ltb i w m)).
Proof.
  rewrite !wf_array. intros [Hs Hf] Hi Hw. split; [by apply (insert_sorted Z.ltb)|].
  apply insert_Forall_pairs; [done|done|auto|]. intros k' [v' [H _]] _ _. done.
Qed.

Lemma index_ref_place v i :
  wf_value v -> v = VNull \/ isArray v = true -> 0 <= i < 2 ^ 32 - 1 ->
  exists m, index_ref v i = Ok (default VNull (child (index_argument i) v), VArray m) /\
    wf_value (VArray m) /\ is_Some (map_find Z.ltb i m) /\
    forall b, place b -> b <> index_argument i -> child b (VArray m) = child b v.
Proof.
  intros Hv Hk Hi.
  assert (exists m, match v with VArray m => m | _ => [] end = m /\ wf_value (VArray m) /\
            child (index_argument i) v = map_find Z.ltb i m /\ isNull v || isArray v = true /\
            forall b, place b -> child b (VArray m) = child b v) as (m & E1 & Hm & E2 & E3 & Hb).
  { destruct Hk as [-> |Hk]; [|destruct v as [| | | | | |m|]; try done; by exists m].
    exists []. split_and!; done. }
  unfold index_ref, json_assert. rewrite E1, E2, E3. run.
  destruct (map_find Z.ltb i m) as [w|] eqn:E; cbn [default].
  - exists m. split_and!; [done|done|by rewrite E|auto].
  - exists (map_insert Z.ltb i VNull m). pose proof Hm as [Hs _]%wf_array.
    split_and!; [done|by apply wf_array_insert|by rewrite (find_insert_eq Z.ltb)|].
    intros b Hpb Hne. rewrite <- Hb by done. unfold child, place in *. destruct (kind_ b); [done| |done].
    apply (find_insert_ne Z.ltb); [|done]. intros Eb. apply Hne. rewrite (proj1 Hpb). by f_equal.
Qed.

Lemma resolveReference_place v k :
  wf_value v -> v = VNull \/ isObject v = true -> size k < 2 ^ 30 ->
  exists m, resolveReference v k = Ok (default VNull (child (MkPathArgument k 0 kindKey) v), VObject m) /\
    wf_value (VObject m) /\ is_Some (map_find czstring_lt k m) /\
    forall b, place b -> b <> MkPathArgument k 0 kindKey -> child b (VObject m) = child b v.
Proof.
  intros Hv Hk Hs.
  assert (exists m, match v with VObject m => m | _ => [] end = m /\ wf_value (VObject m) /\
            child (MkPathArgument k 0 kindKey) v = map_find czstring_lt k m /\ isNull v || isObject v = true /\
            forall b, place b -> child b (VObject m) = child b v) as (m & E1 & Hm & E2 & E3 & Hb).
  { destruct Hk as [-> |Hk]; [|destruct v as [| | | | | | |m]; try done; by exists m].
    exists []. split_and!; done. }
  unfold resolveReference, json_assert. rewrite E1, E2, E3, czstring_id by done. run.
  destruct (map_find czstring_lt k m) as [w|] eqn:E; cbn [default].
  - exists m. split_and!; [done|done|by rewrite E|auto].
  - exists (map_insert czstring_lt k VNull m). pose proof Hm as [Hso _]%wf_object.
    split_and!; [done|by apply wf_object_insert|by rewrite (find_insert_eq czstring_lt)|].
    intros b Hpb Hne. rewrite <- Hb by done. unfold child, place in *. destruct (kind_ b); [done|done|].
    apply (find_insert_ne czstring_lt); [|done]. intros Eb. apply Hne. rewrite (proj1 Hpb). by f_equal.
Qed.

(** One step of [make]: the node is the child or null, and storing another one
    changes that child alone. *)
Lemma make_step_child a v :
  place a -> wf_value v -> open_path [a] v = true ->
  exists u v1, make_step a v = Ok (u, v1) /\ u = default VNull (child a v) /\
    forall w, wf_value w ->
    exists v2, make_store a v1 w = Ok v2 /\ wf_value v2 /\ child a v2 = Some w /\
      forall b, place b -> b <> a -> child b v2 = child b v.
Proof.
  intros Ha Hv Ho. unfold place in Ha. unfold make_step, make_store. cbn [open_path] in Ho.
  destruct (kind_ a) eqn:Ek; [done| |]; destruct Ha as [Ea Hi]; rewrite Ea; cbn [index_ index_argument key_].
  - destruct (index_ref_place v (index_ a)) as (m & E & Hm & [x Hx] & Hb); [done|destruct v; auto|done|].
    eexists _, _. split_and!; [exact E|done|]. intros w Hw. exists (VArray (map_insert Z.ltb (index_ a) w m)).
    pose proof Hm as [Hs _]%wf_array. split_and!.
    + unfold index_set, index_ref, json_assert. cbn [isNull isArray orb]. run. by rewrite Hx.
    + by apply wf_array_insert.
    + cbn. by apply (find_insert_eq Z.ltb).
    + intros b Hpb Hne. rewrite <- Hb by done. unfold child, place in *. destruct (kind_ b); [done| |done].
      apply (find_insert_ne Z.ltb); [|done]. intros Eb. apply Hne. rewrite (proj1 Hpb). by f_equal.
  - destruct (resolveReference_place v (key_ a)) as (m & E & Hm & [x Hx] & Hb); [done|destruct v; auto|done|].
    eexists _, _. split_and!; [exact E|done|]. intros w Hw. exists (VObject (map_insert czstring_lt (key_ a) w m)).
    pose proof Hm as [Hs _]%wf_object. split_and!.
    + unfold member_set, resolveReference, json_assert. cbn [isNull isObject orb]. run.
      by rewrite czstring_id, Hx by done.
    + by apply wf_object_insert.
    + cbn. by apply (find_insert_eq czstring_lt).
    + intros b Hpb Hne. rewrite <- Hb by done. unfold child, place in *. destruct (kind_ b); [done|done|].
      apply (find_insert_ne czstring_lt); [|done]. intros Eb. apply Hne. rewrite (proj1 Hpb). by f_equal.
Qed.

Lemma wf_child a v : wf_value v -> wf_value (default VNull (child a v)).
Proof.
  intros Hv. unfold child. destruct (kind_ a), v as [|z|z|r|t|b|m|m]; try done.
  - destruct (map_find Z.ltb (index_ a) m) as [w|] eqn:E; [|done]. apply wf_array in Hv as [_ Hf].
    by apply (find_Forall Z.ltb _ _ _ _ Hf) in E as [_ E].
  - destruct (map_find czstring_lt (key_ a) m) as [w|] eqn:E; [|done]. apply wf_object in Hv as [_ Hf].
    by apply (find_Forall czstring_lt _ _ _ _ Hf) in E as [_ E].
Qed.

(** ** [make] *)

(** The path is open exactly when its first step is and the rest is from there. *)
Lemma open_cons a args v :
  place a -> open_path (a :: args) v = open_path [a] v && open_path args (default VNull (child a v)).
Proof.
  intros Ha. pose proof (open_null args) as Hn. cbn [open_path]. unfold place in Ha. unfold child.
  destruct (kind_ a) eqn:Ek; [done| |]; destruct v as [|z|z|r|t|b|m|m]; cbn [default andb]; try done.
  - by destruct (map_find Z.ltb (index_ a) m).
  - by destruct (map_find czstring_lt (key_ a) m).
Qed.

Lemma make_step_closed a v : place a -> open_path [a] v = false -> make_step a v = Throw ExLogic.
Proof.
  unfold place, make_step. cbn [open_path]. unfold child. destruct (kind_ a); [done| |];
    intros _ Ho; destruct v as [|z|z|r|t|b|m|m]; try done; by destruct (map_find _ _ m).
Qed.

(** Two paths that part somewhere. *)
Definition apart (p q : list PathArgument) : Prop := ~ p `prefix_of` q /\ ~ q `prefix_of` p.

Lemma make_set_spec args v w :
  Forall place args -> wf_value v -> wf_value w ->
  if open_path args v then
    exists v', make_set args v w = Ok v' /\ wf_value v' /\ resolve args v' = Ok w /\
      (forall d, resolve_default args v' d = Ok w) /\
      forall q, Forall place q -> apart args q -> resolve q v' = resolve q v
  else make_set args v w = Throw ExLogic.
Proof.
  intros Hargs. revert v. induction Hargs as [|a args Ha Hargs IH]; intros v Hv Hw.
  { cbn. exists w. split_and!; [done..|]. intros q _ [Hq _]. destruct Hq. apply prefix_nil. }
  rewrite open_cons by done. destruct (open_path [a] v) eqn:Eo; cbn [andb].
  2:{ cbn [make_set]. by rewrite make_step_closed. }
  destruct (make_step_child a v Ha Hv Eo) as (u & v1 & E & Eu & Hstore). cbn [make_set]. rewrite E. run. subst u.
  set (c := default VNull (child a v)) in *. assert (wf_value c) as Hc by (by apply wf_child).
  specialize (IH c Hc Hw). destruct (open_path args c).
  2:{ by rewrite IH. }
  destruct IH as (c' & -> & Hc' & Hr & Hd & Hq). run.
  destruct (Hstore c' Hc') as (v2 & E2 & Hv2 & Hch & Hother). exists v2.
  split_and!; [done|done| | |].
  - rewrite resolve_child by (try done; by constructor). by rewrite Hch.
  - intros d. by rewrite (resolve_default_child a args v2 c').
  - intros [|b q] Hpq [H1 H2]; [by destruct H2; apply prefix_nil|]. pose proof Hpq as [Hb Hpq']%Forall_cons.
    rewrite !resolve_child by done. destruct (decide (b = a)) as [->|Hne].
    + rewrite Hch. cbn [default]. apply Hq; [done|]. split; intros H; [apply H1|apply H2]; by apply prefix_cons.
    + by rewrite Hother.
Qed.

(** [make] refers to what [resolve] finds, in the root that assigning it leaves. *)
Lemma make_spec args v :
  Forall place args -> wf_value v -> open_path args v = true ->
  exists u, resolve args v = Ok u /\ make args v = (root ← make_set args v u; Ok (u, root)).
Proof.
  intros Hargs. revert v. induction Hargs as [|a args Ha Hargs IH]; intros v Hv Ho; [by exists v|].
  rewrite open_cons in Ho by done. apply andb_true_iff in Ho as [Ho1 Ho2].
  destruct (make_step_child a v Ha Hv Ho1) as (c & v1 & E & -> & _).
  destruct (IH _ (wf_child a v Hv) Ho2) as (u & Hu & Hm). exists u.
  split; [by rewrite resolve_child by (try done; by constructor)|].
  cbn [make make_set]. rewrite E. run. by rewrite Hm, !bind_assoc.
Qed.

(** C40: a path of indices and of names without special characters is read from
    its text as it was written; assigning a value through [make] of it succeeds
    exactly when the path leads through nulls, arrays and objects of the right
    kind, and throws otherwise; then both [resolve]s find the value there, and
    at every path that parts from it what was there before.  Without an
    assignment [make] refers to what [resolve] found. *)
Theorem path_make_resolve (args : list PathArgument) (root w : Value)
    (Hargs : Forall printable_argument args) (Hroot : wf_value root) (Hw : wf_value w) :
  Path (print_path args) [] = Ok args /\
  if open_path args root then
    (exists root', make_set args root w = Ok root' /\ wf_value root' /\ resolve args root' = Ok w /\
      (forall d, resolve_default args root' d = Ok w) /\
      forall q, Forall place q -> apart args q -> resolve q root' = resolve q root) /\
    exists u, resolve args root = Ok u /\ make args root = (root' ← make_set args root u; Ok (u, root'))
  else make_set args root w = Throw ExLogic.
Proof.
  assert (Forall place args) as Hp.
  { apply Forall_forall. intros a Ha. rewrite Forall_forall in Hargs. by apply printable_place, Hargs. }
  split; [by apply Path_reads|]. pose proof (make_set_spec args root w Hp Hroot Hw) as Hset.
  destruct (open_path args root) eqn:E; [split; [done|by apply make_spec]|done].
Qed.

(** The second element of a member that is a list. *)
Definition sample_path : list PathArgument := [MkPathArgument (bs "list") 0 kindKey; index_argument 1].

Definition sample_root : Value := VObject [(bs "list", array_of [VBool true]); (bs "name", VString (bs "x"))].

Lemma path_make_resolve_witness :
  Path (bs ".list[1]") [] = Ok sample_path /\
  exists root', make_set sample_path sample_root VNull = Ok root' /\ resolve sample_path root' = Ok VNull /\
    resolve [MkPathArgument (bs "name") 0 kindKey] root' = Ok (VString (bs "x")).
Proof.
  destruct (path_make_resolve sample_path sample_root VNull) as [H1 H2].
  - constructor; [|constructor; [|constructor]]; vm_compute; repeat split; discriminate.
  - vm_compute. repeat split; repeat constructor; discriminate.
  - exact I.
  - split; [exact H1|]. destruct H2 as [(root' & E & _ & Hr & _ & Hq) _]. exists root'. split; [exact E|].
    split; [exact Hr|]. rewrite Hq; [vm_compute; reflexivity| |].
    + constructor; [|constructor]. vm_compute. repeat split.
    + split; intros [r E']; vm_compute in E'; discriminate E'.
Defined.
