(* ===== verification/JsonIterator.v ===== *)
(** * ValueIteratorBase (json_valueiterator.inl in jsoncpp.cpp)

    An iterator of a value is its place among the entries of the map, in key
    order, or the iterator that [begin] and [end] return for a value without a
    map.  [ValueIterator] and [ValueConstIterator] add only types. *)
From Stdlib Require Import ZArith Ascii String Lia.
From stdpp Require Import base tactics list.
From S2P Require Import Prelude CLib CDouble JsonValue JsonValueProofs.

#[local] Open Scope Z_scope.

(** [CZString]: an index, whose [data()] is null, or a name. *)
Inductive CZString := KIndex (index : Z) | KName (name : bytes).

(** The entries of [value_.map_]. *)
Definition entries (v : Value) : list (CZString * Value) :=
  match v with
  | VArray m => (fun kv => (KIndex kv.1, kv.2)) <$> m
  | VObject m => (fun kv => (KName kv.1, kv.2)) <$> m
  | _ => []
  end.

Record ValueIterator := MkIterator { current_ : nat; isNull_ : bool }.

(** [begin()] and [end()] *)
Definition begin (v : Value) : ValueIterator :=
  match v with VArray _ | VObject _ => MkIterator 0 false | _ => MkIterator 0 true end.

Definition end_ (v : Value) : ValueIterator :=
  match v with
  | VArray _ | VObject _ => MkIterator (length (entries v)) false
  | _ => MkIterator 0 true
  end.

Section Iterator.
Context (v : Value).

Definition entry (it : ValueIterator) : outcome (CZString * Value) :=
  match entries v !! current_ it with
  | Some kv => Ok kv
  | None => UB OutOfBounds
  end.

Definition deref (it : ValueIterator) : outcome Value := kv ← entry it; Ok kv.2.

(** [++current_] and [--current_] inside the map. *)
Definition increment (it : ValueIterator) : outcome ValueIterator :=
  if (current_ it <? length (entries v))%nat then Ok (MkIterator (current_ it + 1) (isNull_ it))
  else UB OutOfBounds.

Definition decrement (it : ValueIterator) : outcome ValueIterator :=
  if (current_ it =? 0)%nat then UB OutOfBounds else Ok (MkIterator (current_ it - 1) (isNull_ it)).

(** The loop of [computeDistance]. *)
Fixpoint distance_loop (fuel : nat) (it other : ValueIterator) (myDistance : Z) : outcome Z :=
  if (current_ it =? current_ other)%nat then Ok myDistance
  else
    match fuel with
    | O => NoFuel
    | S fuel => it ← increment it; distance_loop fuel it other (myDistance + 1)
    end.

Definition computeDistance (it other : ValueIterator) : outcome Z :=
  if isNull_ it && isNull_ other then Ok 0
  else distance_loop (S (length (entries v))) it other 0.

Definition isEqual (it other : ValueIterator) : bool :=
  if isNull_ it then isNull_ other else (current_ it =? current_ other)%nat.

Definition copy (other : ValueIterator) : ValueIterator := MkIterator (current_ other) (isNull_ other).

(** [key()]: a string value or an unsigned one. *)
Definition key (it : ValueIterator) : outcome Value :=
  kv ← entry it;
  match kv.1 with KName name => Value_of_string name | KIndex index => Ok (VUInt index) end.

(** [index()]; [UInt(-1)] for a member. *)
Definition index (it : ValueIterator) : outcome Z :=
  kv ← entry it; match kv.1 with KIndex index => Ok index | KName _ => Ok (u32 (-1)) end.

(** [memberName(&end)]: null for an element. *)
Definition memberName_end (it : ValueIterator) : outcome (option bytes) :=
  kv ← entry it; match kv.1 with KName name => Ok (Some name) | KIndex _ => Ok None end.

(** [name()] *)
Definition name (it : ValueIterator) : outcome bytes :=
  keey ← memberName_end it; Ok (default [] keey).

(** [memberName()], a C string. *)
Definition memberName (it : ValueIterator) : outcome bytes :=
  kv ← entry it; match kv.1 with KName name => Ok (cstr name) | KIndex _ => Ok [] end.

(** ** The loop of a client: [for (it = begin; it != end; ++it)] with a body that
    reads the key and the value. *)
Fixpoint iterate (fuel : nat) (it last : ValueIterator) : outcome (list (Value * Value)) :=
  if isEqual it last then Ok []
  else
    match fuel with
    | O => NoFuel
    | S fuel =>
        k ← key it; w ← deref it; it ← increment it;
        r ← iterate fuel it last; Ok ((k, w) :: r)
    end.
End Iterator.

(** ** What the loop sees *)

(** The value of a key. *)
Definition key_value (k : CZString) : Value :=
  match k with KIndex i => VUInt i | KName k => VString k end.

Lemma key_of_entry v i k w :
  wf_value v -> entries v !! i = Some (k, w) -> key v (MkIterator i false) = Ok (key_value k).
Proof.
  intros Hv E. unfold key, entry. cbn [current_]. rewrite E. run. destruct k as [j|k]; [done|]. cbn [fst].
  unfold Value_of_string, json_assert. destruct v as [| | | | | |m|m]; try done; cbn [entries] in E.
  - rewrite list_lookup_fmap in E. by destruct (m !! i).
  - rewrite list_lookup_fmap in E. destruct (m !! i) as [[k' w']|] eqn:Em; [|done]. injection E as -> ->.
    apply wf_object in Hv as [_ Hf]. rewrite Forall_lookup in Hf. destruct (Hf _ _ Em) as [Hk _]. cbn [fst] in Hk.
    rewrite (proj2 (Z.leb_le _ _)) by (unfold maxInt; lia). by run.
Qed.

Section Loop.
Context (v : Value) (Hv : wf_value v).
Implicit Types rest : list (CZString * Value).

(** Inside the map, an increment is the next entry. *)
Lemma at_entry seen k w rest :
  entries v = seen ++ (k, w) :: rest ->
  let it := MkIterator (length seen) false in
  (length seen =? length (entries v))%nat = false /\ deref v it = Ok w /\ key v it = Ok (key_value k) /\
  increment v it = Ok (MkIterator (length (seen ++ [(k, w)])) false).
Proof using Hv.
  intros E it. assert (entries v !! length seen = Some (k, w)) as El by (rewrite E; by apply list_lookup_middle).
  apply lookup_lt_Some in El as Hlt. split_and!.
  - apply Nat.eqb_neq. lia.
  - unfold deref, entry. cbn [current_ it]. rewrite El. by run.
  - by apply (key_of_entry v _ k w).
  - unfold increment. cbn [current_ isNull_ it]. rewrite (proj2 (Nat.ltb_lt _ _)) by done.
    by rewrite length_app.
Qed.

Lemma iterate_rest rest seen fuel :
  entries v = seen ++ rest -> (length rest <= fuel)%nat ->
  iterate v fuel (MkIterator (length seen) false) (MkIterator (length (entries v)) false)
  = Ok (prod_map key_value id <$> rest).
Proof using Hv.
  revert seen fuel. induction rest as [|[k w] rest IH]; intros seen fuel E Hf.
  - assert ((length seen =? length (entries v))%nat = true) as El
      by (apply Nat.eqb_eq; by rewrite E, app_nil_r).
    by destruct fuel; cbn [iterate isEqual isNull_ current_]; rewrite El.
  - destruct fuel as [|fuel]; [simpl in Hf; lia|]. destruct (at_entry seen k w rest E) as (E1 & E2 & E3 & E4).
    cbn [iterate isEqual isNull_ current_]. rewrite E1, E2, E3. run. rewrite E4. run.
    rewrite (IH (seen ++ [(k, w)])); [done|by rewrite <- app_assoc|simpl in Hf; lia].
Qed.

Lemma distance_rest rest seen fuel d :
  entries v = seen ++ rest -> (length rest <= fuel)%nat ->
  distance_loop v fuel (MkIterator (length seen) false) (MkIterator (length (entries v)) false) d
  = Ok (d + Z.of_nat (length rest)).
Proof using Hv.
  revert seen fuel d. induction rest as [|[k w] rest IH]; intros seen fuel d E Hf.
  - assert ((length seen =? length (entries v))%nat = true) as El
      by (apply Nat.eqb_eq; by rewrite E, app_nil_r).
    destruct fuel; cbn [distance_loop current_]; rewrite El; f_equal; simpl; lia.
  - destruct fuel as [|fuel]; [simpl in Hf; lia|]. destruct (at_entry seen k w rest E) as (E1 & _ & _ & E4).
    cbn [distance_loop current_]. rewrite E1, E4. run.
    rewrite (IH (seen ++ [(k, w)])); [f_equal; simpl; lia|by rewrite <- app_assoc|simpl in Hf; lia].
Qed.
End Loop.

(** From [begin] to [end] a loop sees every entry once, in key order; the
    distance is the number of entries, and a value without entries is not
    entered. *)
Lemma iterate_entries v :
  wf_value v ->
  iterate v (length (entries v)) (begin v) (end_ v) = Ok (prod_map key_value id <$> entries v) /\
  computeDistance v (begin v) (end_ v) = Ok (Z.of_nat (length (entries v))).
Proof.
  intros Hv. destruct v as [| | | | | |m|m]; try done.
  all: split; [by apply (iterate_rest _ Hv (entries _) [])|].
  all: rewrite <- (Z.add_0_l (Z.of_nat _)); apply (distance_rest _ Hv (entries _) []); [done|lia].
Qed.

(** Keys, values, and the distance of an array with a hole. *)
Example iterate_array :
  let v := VArray [(0, VBool true); (2, VNull)] in
  iterate v 2 (begin v) (end_ v) = Ok [(VUInt 0, VBool true); (VUInt 2, VNull)] /\
  computeDistance v (begin v) (end_ v) = Ok 2 /\ value_size v = 3.
Proof. vm_compute. auto. Qed.
