(* ===== verification/JsonWriter.v ===== *)
(** * The JSON writers (jsoncpp.cpp, json_writer part)

    [BuiltStyledStreamWriter], the one [writeString] builds, and [FastWriter].
    The stream is the text written so far.  The comments of a value come from
    the notes of the root (JsonNotes.v), which know nothing of the elements an
    array does not have.  [FastWriter] writes no comments. *)
From Stdlib Require Import ZArith Ascii String Lia SpecFloat.
From stdpp Require Import base tactics list gmap.
From S2P Require Import Prelude CLib CDouble JsonValue JsonNotes JsonReader.

#[local] Open Scope Z_scope.

(** ** Quoted strings *)

(** [isAnyCharRequiredQuoting]; [char] is signed. *)
Definition needs_quoting (c : ascii) : bool :=
  bool_decide (c = "\"%char) || bool_decide (c = DQUOTE)
  || ((if code c <? 128 then code c else code c - 256) <? 32) || (code c <? 128).

Definition isAnyCharRequiredQuoting (s : bytes) : bool := existsb needs_quoting s.

Definition REPLACEMENT_CHARACTER : Z := 65533.

(** The low six bits of the character at [i]. *)
Definition cont (s : bytes) (i : nat) : Z :=
  match s !! i with Some c => Z.land (code c) 63 | None => 0 end.

(** [utf8ToCodepoint] on the non-empty rest [s] of the text: the code point and
    the characters used besides the first. *)
Definition utf8ToCodepoint (s : bytes) : Z * nat :=
  match s with
  | [] => (0, 0%nat)
  | c :: _ =>
      let firstByte := code c in
      if firstByte <? 128 then (firstByte, 0%nat)
      else if firstByte <? 224 then
        if (length s <? 2)%nat then (REPLACEMENT_CHARACTER, 0%nat)
        else
          let calculated := Z.lor (Z.shiftl (Z.land firstByte 31) 6) (cont s 1) in
          (if calculated <? 128 then REPLACEMENT_CHARACTER else calculated, 1%nat)
      else if firstByte <? 240 then
        if (length s <? 3)%nat then (REPLACEMENT_CHARACTER, 0%nat)
        else
          let calculated := Z.lor (Z.lor (Z.shiftl (Z.land firstByte 15) 12)
                                     (Z.shiftl (cont s 1) 6)) (cont s 2) in
          (if (55296 <=? calculated) && (calculated <=? 57343) then REPLACEMENT_CHARACTER
           else if calculated <? 2048 then REPLACEMENT_CHARACTER else calculated, 2%nat)
      else if firstByte <? 248 then
        if (length s <? 4)%nat then (REPLACEMENT_CHARACTER, 0%nat)
        else
          let calculated :=
            Z.lor (Z.lor (Z.lor (Z.shiftl (Z.land firstByte 7) 18) (Z.shiftl (cont s 1) 12))
                     (Z.shiftl (cont s 2) 6)) (cont s 3) in
          (if calculated <? 65536 then REPLACEMENT_CHARACTER else calculated, 3%nat)
      else (REPLACEMENT_CHARACTER, 0%nat)
  end.

(** Two characters of the table [hex2]. *)
Definition hex_char (d : Z) : ascii :=
  ascii_of_N (Z.to_N (if d <? 10 then 48 + d else 87 + d)).
Definition hex2 (b : Z) : bytes := [hex_char (b / 16); hex_char (b mod 16)].

Definition toHex16Bit (x : Z) : bytes :=
  let hi := Z.land (Z.shiftr x 8) 255 in
  let lo := Z.land x 255 in
  hex2 hi ++ hex2 lo.

(** The text [valueToQuotedStringN] writes for a code point without a short
    escape. *)
Definition quote_codepoint (cp : Z) : bytes :=
  if (cp <? 128) && (32 <=? cp) then [byte cp]
  else if cp <? 65536 then bs "\u" ++ toHex16Bit cp
  else
    let cp := cp - 65536 in
    bs "\u" ++ toHex16Bit (Z.shiftr cp 10 + 55296)
    ++ bs "\u" ++ toHex16Bit (Z.land cp 1023 + 56320).

(** The short escapes. *)
Definition short_escape (c : ascii) : option bytes :=
  if decide (c = DQUOTE) then Some ["\"%char; DQUOTE]
  else if decide (c = "\"%char) then Some (bs "\\")
  else if decide (c = "008"%char) then Some (bs "\b")
  else if decide (c = "012"%char) then Some (bs "\f")
  else if decide (c = LF) then Some (bs "\n")
  else if decide (c = CR) then Some (bs "\r")
  else if decide (c = "009"%char) then Some (bs "\t")
  else None.

(** The loop over the characters; [skip] of them belong to the code point
    written before. *)
Fixpoint quote_loop (s : bytes) (skip : nat) : bytes :=
  match s with
  | [] => []
  | c :: s' =>
      match skip with
      | S skip => quote_loop s' skip
      | O =>
          match short_escape c with
          | Some e => e ++ quote_loop s' 0
          | None => let '(cp, n) := utf8ToCodepoint s in quote_codepoint cp ++ quote_loop s' n
          end
      end
  end.

Definition valueToQuotedStringN (value : bytes) : bytes :=
  if negb (isAnyCharRequiredQuoting value) then DQUOTE :: cstr value ++ [DQUOTE]
  else DQUOTE :: quote_loop value 0 ++ [DQUOTE].

Definition valueToQuotedString (value : bytes) : bytes := valueToQuotedStringN (cstr value).

(** ** BuiltStyledStreamWriter *)

Inductive CommentStyle := CommentNone | CommentAll.

Record WriterConfig := MkWriterConfig {
  indentation_ : bytes;
  cs_ : CommentStyle;
  colonSymbol_ : bytes;
  nullSymbol_ : bytes;
  endingLineFeedSymbol_ : bytes;
  useSpecialFloats_ : bool;
  precision_ : Z;
  precisionType_ : PrecisionType
}.

Definition rightMargin_ : Z := 74.

Record WState := MkWState {
  sout_ : bytes;
  childValues_ : list bytes;
  indentString_ : bytes;
  addChildValues_ : bool;
  indented_ : bool
}.

Definition put_out t s := MkWState (sout_ s ++ t) (childValues_ s) (indentString_ s)
  (addChildValues_ s) (indented_ s).
Definition set_childValues v s := MkWState (sout_ s) v (indentString_ s) (addChildValues_ s)
  (indented_ s).
Definition set_indentString v s := MkWState (sout_ s) (childValues_ s) v (addChildValues_ s)
  (indented_ s).
Definition set_addChildValues v s := MkWState (sout_ s) (childValues_ s) (indentString_ s) v
  (indented_ s).
Definition set_indented v s := MkWState (sout_ s) (childValues_ s) (indentString_ s)
  (addChildValues_ s) v.

(** The loop that writes a comment; lines that start with another are indented. *)
Fixpoint comment_loop (indented : WState -> WState) (comment : bytes) (s : WState) : WState :=
  match comment with
  | [] => s
  | c :: comment =>
      let s := put_out [c] s in
      let s := match comment with
               | d :: _ => if decide (c = LF /\ d = "/"%char) then indented s else s
               | [] => s
               end in
      comment_loop indented comment s
  end.

Definition hasCommentForValue (p : Place) (notes : Notes) : bool :=
  hasComment p commentBefore notes || hasComment p commentAfterOnSameLine notes
  || hasComment p commentAfter notes.

(** A value is written with its place among the values of the root, for which
    [notes] has the comments. *)
Section Built.
Context (cfg : WriterConfig) (notes : Notes).

Definition pushValue (value : bytes) (s : WState) : WState :=
  if addChildValues_ s then set_childValues (childValues_ s ++ [value]) s else put_out value s.

Definition writeIndent (s : WState) : WState :=
  if bool_decide (indentation_ cfg = []) then s else put_out (LF :: indentString_ s) s.

Definition writeWithIndent (value : bytes) (s : WState) : WState :=
  let s := if indented_ s then s else writeIndent s in
  set_indented false (put_out value s).

Definition indent (s : WState) : WState :=
  set_indentString (indentString_ s ++ indentation_ cfg) s.

Definition unindent (s : WState) : outcome WState :=
  if (length (indentString_ s) <? length (indentation_ cfg))%nat then UB AssertFailed
  else Ok (set_indentString
             (take (length (indentString_ s) - length (indentation_ cfg)) (indentString_ s)) s).

Definition writeCommentBeforeValue (p : Place) (s : WState) : WState :=
  match cs_ cfg with
  | CommentNone => s
  | CommentAll =>
      if negb (hasComment p commentBefore notes) then s
      else
        let s := if indented_ s then s else writeIndent s in
        set_indented false
          (comment_loop (fun s => put_out (indentString_ s) s) (getComment p commentBefore notes) s)
  end.

Definition writeCommentAfterValueOnSameLine (p : Place) (s : WState) : WState :=
  match cs_ cfg with
  | CommentNone => s
  | CommentAll =>
      let s := if hasComment p commentAfterOnSameLine notes
               then put_out (bs " " ++ getComment p commentAfterOnSameLine notes) s else s in
      if hasComment p commentAfter notes
      then put_out (getComment p commentAfter notes) (writeIndent s) else s
  end.

Definition child_at (s : WState) (i : nat) : outcome bytes :=
  match childValues_ s !! i with Some t => Ok t | None => UB OutOfBounds end.

(** The first loop of [isMultilineArray]; [n] elements are left, from [index]. *)
Fixpoint multiline_children (n : nat) (index : Z) (value : Value) : outcome bool :=
  match n with
  | O => Ok false
  | S n =>
      childValue ← index_const value index;
      if (isArray childValue || isObject childValue) && negb (value_empty childValue)
      then Ok true else multiline_children n (index + 1) value
  end.

(** The loop that writes an array on one line. *)
Fixpoint single_line (n index : nat) (s : WState) : outcome WState :=
  match n with
  | O => Ok s
  | S n =>
      let s := if (index =? 0)%nat then s
               else put_out (if bool_decide (indentation_ cfg = []) then bs "," else bs ", ") s in
      t ← child_at s index;
      single_line n (S index) (put_out t s)
  end.

(** The loops of the recursive functions, over the indices or the members;
    [write] is [writeValue], [p] the place of [value]. *)
Section Loops.
Context (write : Place -> Value -> WState -> outcome WState) (p : Place) (value : Value).

(** The second loop of [isMultilineArray], with what it found and the line
    length. *)
Fixpoint measure_children (n index : nat) (isMultiLine : bool) (lineLength : Z) (s : WState)
  : outcome (bool * Z * WState) :=
  match n with
  | O => Ok (isMultiLine, lineLength, s)
  | S n =>
      let q := Element (Z.of_nat index) :: p in
      childValue ← index_const value (Z.of_nat index);
      let isMultiLine := if hasCommentForValue q notes then true else isMultiLine in
      s ← write q childValue s;
      t ← child_at s index;
      measure_children n (S index) isMultiLine (u32 (lineLength + size t)) s
  end.

(** The loop over a multi-line array; [n] elements follow the one at [index]. *)
Fixpoint elements_loop (n index : nat) (hasChildValue : bool) (s : WState) : outcome WState :=
  let q := Element (Z.of_nat index) :: p in
  childValue ← index_const value (Z.of_nat index);
  let s := writeCommentBeforeValue q s in
  s ← (if hasChildValue then t ← child_at s index; Ok (writeWithIndent t s)
       else
         let s := if indented_ s then s else writeIndent s in
         s ← write q childValue (set_indented true s);
         Ok (set_indented false s));
  match n with
  | O => Ok (writeCommentAfterValueOnSameLine q s)
  | S n => elements_loop n (S index) hasChildValue
             (writeCommentAfterValueOnSameLine q (put_out (bs ",") s))
  end.

(** The loop over the members of an object. *)
Fixpoint members_loop (members : list bytes) (s : WState) : outcome WState :=
  match members with
  | [] => Ok s
  | name :: members =>
      let q := Member name :: p in
      childValue ← member_const value name;
      let s := writeCommentBeforeValue q s in
      let s := writeWithIndent (valueToQuotedStringN name) s in
      let s := put_out (colonSymbol_ cfg) s in
      s ← write q childValue s;
      match members with
      | [] => Ok (writeCommentAfterValueOnSameLine q s)
      | _ => members_loop members (writeCommentAfterValueOnSameLine q (put_out (bs ",") s))
      end
  end.
End Loops.

Definition isMultilineArray (write : Place -> Value -> WState -> outcome WState) (p : Place)
    (value : Value) (s : WState) : outcome (bool * WState) :=
  let size := value_size value in
  let isMultiLine := rightMargin_ <=? u32 (size * 3) in
  let s := set_childValues [] s in
  isMultiLine ← (if (isMultiLine : bool) then Ok true
                 else multiline_children (Z.to_nat size) 0 value);
  if (isMultiLine : bool) then Ok (true, s)
  else
    '(isMultiLine, lineLength, s) ← measure_children write p value (Z.to_nat size) 0 false
                         (u32 (4 + (size - 1) * 2)) (set_addChildValues true s);
    Ok (isMultiLine || (rightMargin_ <=? lineLength), set_addChildValues false s).

Definition writeArrayValue (write : Place -> Value -> WState -> outcome WState) (p : Place)
    (value : Value) (s : WState) : outcome WState :=
  let size := value_size value in
  if size =? 0 then Ok (pushValue (bs "[]") s)
  else
    '(isMultiLine, s) ← match cs_ cfg with
                        | CommentAll => Ok (true, s)
                        | CommentNone => isMultilineArray write p value s
                        end;
    if (isMultiLine : bool) then
      let s := indent (writeWithIndent (bs "[") s) in
      let hasChildValue := negb (bool_decide (childValues_ s = [])) in
      s ← elements_loop write p value (Z.to_nat size - 1) 0 hasChildValue s;
      s ← unindent s;
      Ok (writeWithIndent (bs "]") s)
    else if negb (Z.of_nat (length (childValues_ s)) =? size) then UB AssertFailed
    else
      let blank s := if bool_decide (indentation_ cfg = []) then s else put_out (bs " ") s in
      s ← single_line (Z.to_nat size) 0 (blank (put_out (bs "[") s));
      Ok (put_out (bs "]") (blank s)).

(** [writeValue]; a value nested less deeply than [fuel] is written. *)
Fixpoint writeValue (fuel : nat) (p : Place) (value : Value) (s : WState) : outcome WState :=
  match fuel with
  | O => NoFuel
  | S fuel =>
      match value with
      | VNull => Ok (pushValue (nullSymbol_ cfg) s)
      | VInt _ => z ← asLargestInt value; Ok (pushValue (valueToString_int z) s)
      | VUInt _ => z ← asLargestUInt value; Ok (pushValue (valueToString_uint z) s)
      | VReal _ =>
          d ← asDouble value;
          Ok (pushValue (valueToString_double d (useSpecialFloats_ cfg) (precision_ cfg)
                           (precisionType_ cfg)) s)
      | VString _ =>
          Ok (pushValue match getString value with
                        | Some t => valueToQuotedStringN t
                        | None => []
                        end s)
      | VBool _ => b ← asBool value; Ok (pushValue (valueToString_bool b) s)
      | VArray _ => writeArrayValue (writeValue fuel) p value s
      | VObject _ =>
          members ← getMemberNames value;
          match members with
          | [] => Ok (pushValue (bs "{}") s)
          | _ =>
              let s := indent (writeWithIndent (bs "{") s) in
              s ← members_loop (writeValue fuel) p value members s;
              s ← unindent s;
              Ok (writeWithIndent (bs "}") s)
          end
      end
  end.

(** How deeply a value is nested. *)
Fixpoint value_depth (v : Value) : nat :=
  match v with
  | VArray m => S (foldr (fun kv n => Nat.max (value_depth kv.2) n) 0%nat m)
  | VObject m => S (foldr (fun kv n => Nat.max (value_depth kv.2) n) 0%nat m)
  | _ => 0%nat
  end.

(** [write(root, sout)]: the text written to the stream. *)
Definition write (root : Value) : outcome bytes :=
  let s := writeCommentBeforeValue [] (MkWState [] [] [] false true) in
  let s := if indented_ s then s else writeIndent s in
  s ← writeValue (value_depth root + 1) [] root (set_indented true s);
  let s := writeCommentAfterValueOnSameLine [] s in
  Ok (sout_ (put_out (endingLineFeedSymbol_ cfg) s)).
End Built.

(** ** StreamWriterBuilder *)

Definition StreamWriterBuilder_setDefaults (settings : Value) : outcome Value :=
  put_all
    [(bs "commentStyle", VString (bs "All")); (bs "indentation", VString ["009"%char]);
     (bs "enableYAMLCompatibility", VBool false); (bs "dropNullPlaceholders", VBool false);
     (bs "useSpecialFloats", VBool false); (bs "precision", VInt 17);
     (bs "precisionType", VString (bs "significant"))] settings.

Definition setting_string (settings : Value) (key : bytes) : outcome bytes :=
  v ← member_const settings key; asString v.

Definition newStreamWriter (settings : Value) : outcome WriterConfig :=
  indentation ← setting_string settings (bs "indentation");
  cs_str ← setting_string settings (bs "commentStyle");
  pt_str ← setting_string settings (bs "precisionType");
  eyc ← setting_bool settings (bs "enableYAMLCompatibility");
  dnp ← setting_bool settings (bs "dropNullPlaceholders");
  usf ← setting_bool settings (bs "useSpecialFloats");
  v ← member_const settings (bs "precision");
  pre ← asUInt v;
  cs ← (if decide (cs_str = bs "All") then Ok CommentAll
        else if decide (cs_str = bs "None") then Ok CommentNone else Throw ExRuntime);
  precisionType ← (if decide (pt_str = bs "significant") then Ok significantDigits
                   else if decide (pt_str = bs "decimal") then Ok decimalPlaces
                   else Throw ExRuntime);
  let colonSymbol := if (eyc : bool) then bs ": "
                     else if bool_decide (indentation = []) then bs ":" else bs " : " in
  let nullSymbol := if (dnp : bool) then [] else bs "null" in
  let pre := if 17 <? pre then 17 else pre in
  Ok (MkWriterConfig indentation cs colonSymbol nullSymbol [] usf pre precisionType).

Definition valid_writer_keys : list bytes :=
  [bs "indentation"; bs "commentStyle"; bs "enableYAMLCompatibility"; bs "dropNullPlaceholders";
   bs "useSpecialFloats"; bs "precision"; bs "precisionType"].

(** [Json::writeString(builder, root)] for a builder with the default settings,
    and for a value without comments. *)
Definition writeString_noted (notes : Notes) (root : Value) : outcome bytes :=
  settings ← StreamWriterBuilder_setDefaults VNull;
  cfg ← newStreamWriter settings;
  write cfg notes root.

Definition writeString (root : Value) : outcome bytes := writeString_noted ∅ root.

(** ** FastWriter *)

Section Fast.
Context (yamlCompatibilityEnabled_ dropNullPlaceholders_ omitEndingLineFeed_ : bool).

Section FastLoops.
Context (write : Value -> outcome bytes) (value : Value).

(** [n] elements from [index]. *)
Fixpoint fast_elements (n index : nat) : outcome bytes :=
  match n with
  | O => Ok []
  | S n =>
      childValue ← index_const value (Z.of_nat index);
      t ← write childValue;
      r ← fast_elements n (S index);
      Ok ((if (index =? 0)%nat then [] else bs ",") ++ t ++ r)
  end.

Fixpoint fast_members (first : bool) (members : list bytes) : outcome bytes :=
  match members with
  | [] => Ok []
  | name :: members =>
      childValue ← member_const value name;
      t ← write childValue;
      r ← fast_members false members;
      Ok ((if first then [] else bs ",") ++ valueToQuotedStringN name
          ++ (if yamlCompatibilityEnabled_ then bs ": " else bs ":") ++ t ++ r)
  end.
End FastLoops.

(** [FastWriter::writeValue]: the text it appends to the document. *)
Fixpoint fast_writeValue (fuel : nat) (value : Value) : outcome bytes :=
  match fuel with
  | O => NoFuel
  | S fuel =>
      match value with
      | VNull => Ok (if dropNullPlaceholders_ then [] else bs "null")
      | VInt _ => z ← asLargestInt value; Ok (valueToString_int z)
      | VUInt _ => z ← asLargestUInt value; Ok (valueToString_uint z)
      | VReal _ => d ← asDouble value;
                   Ok (valueToString_double d false defaultRealPrecision significantDigits)
      | VString _ => Ok match getString value with
                        | Some t => valueToQuotedStringN t | None => [] end
      | VBool _ => b ← asBool value; Ok (valueToString_bool b)
      | VArray _ =>
          t ← fast_elements (fast_writeValue fuel) value (Z.to_nat (value_size value)) 0;
          Ok (bs "[" ++ t ++ bs "]")
      | VObject _ =>
          members ← getMemberNames value;
          t ← fast_members (fast_writeValue fuel) value true members;
          Ok (bs "{" ++ t ++ bs "}")
      end
  end.

Definition fast_write (root : Value) : outcome bytes :=
  t ← fast_writeValue (value_depth root + 1) root;
  Ok (t ++ if omitEndingLineFeed_ then [] else [LF]).
End Fast.
