(* ===== verification/JsonStyledWriter.v ===== *)
(** * StyledWriter and StyledStreamWriter (jsoncpp.cpp, json_writer part)

    The two older writers have the same functions over different ways to begin
    a line: [StyledWriter] looks at the end of the text it has written,
    [StyledStreamWriter] keeps a flag.  [Layout] is what differs, and with it
    the literals that are not the same in [BuiltStyledStreamWriter]; the
    functions that go through a value are written once over it.  Both pass the
    name of a member on as a C string.  Comments come from the notes of the
    root, as in JsonWriter.v.  A [StyledWriter] has no [indented_]. *)
From Stdlib Require Import ZArith Ascii String Lia.
From stdpp Require Import base tactics list gmap.
From S2P Require Import Prelude CLib CDouble JsonValue JsonNotes JsonReader JsonWriter.

#[local] Open Scope Z_scope.

(** ** What the writers do differently *)

Class Layout := {
  layout_writeWithIndent : bytes -> WState -> WState;
  layout_indent : WState -> WState;
  layout_unindent : WState -> outcome WState;
  (** before and after an element that is written on a line of its own *)
  begin_element : WState -> WState;
  end_element : WState -> WState;
  (** [writeCommentBeforeValue] and [writeCommentAfterValueOnSameLine] *)
  before_value : Place -> WState -> WState;
  after_value : Place -> WState -> WState;
  (** what is written for the name of a member, and between it and its value *)
  member_name : bytes -> bytes;
  member_colon : bytes;
  (** what an array on a single line has around and between its elements *)
  line_open : bytes;
  line_comma : bytes;
  line_close : bytes
}.

(** ** The functions they share *)

Section Shared.
Context `{Layout} (notes : Notes).

(** The loop of a single line; [n] elements are left, from [index]. *)
Fixpoint styled_single_line (n index : nat) (s : WState) : outcome WState :=
  match n with
  | O => Ok s
  | S n =>
      let s := if (index =? 0)%nat then s else put_out line_comma s in
      t ← child_at s index;
      styled_single_line n (S index) (put_out t s)
  end.

Section Loops.
Context (write : Place -> Value -> WState -> outcome WState) (p : Place) (value : Value).

(** The loop over a multi-line array; [n] elements follow the one at [index]. *)
Fixpoint styled_elements (n index : nat) (hasChildValue : bool) (s : WState) : outcome WState :=
  let q := Element (Z.of_nat index) :: p in
  childValue ← index_const value (Z.of_nat index);
  let s := before_value q s in
  s ← (if hasChildValue then t ← child_at s index; Ok (layout_writeWithIndent t s)
       else s ← write q childValue (begin_element s); Ok (end_element s));
  match n with
  | O => Ok (after_value q s)
  | S n => styled_elements n (S index) hasChildValue (after_value q (put_out (bs ",") s))
  end.

(** The loop over the members of an object. *)
Fixpoint styled_members (members : list bytes) (s : WState) : outcome WState :=
  match members with
  | [] => Ok s
  | name :: members =>
      let q := Member name :: p in
      childValue ← member_const value name;
      let s := layout_writeWithIndent (member_name name) (before_value q s) in
      s ← write q childValue (put_out member_colon s);
      match members with
      | [] => Ok (after_value q s)
      | _ => styled_members members (after_value q (put_out (bs ",") s))
      end
  end.
End Loops.

Definition styled_isMultilineArray (write : Place -> Value -> WState -> outcome WState) (p : Place)
    (value : Value) (s : WState) : outcome (bool * WState) :=
  let size := value_size value in
  let isMultiLine := rightMargin_ <=? u32 (size * 3) in
  let s := set_childValues [] s in
  isMultiLine ← (if (isMultiLine : bool) then Ok true
                 else multiline_children (Z.to_nat size) 0 value);
  if (isMultiLine : bool) then Ok (true, s)
  else
    '(isMultiLine, lineLength, s) ← measure_children notes write p value (Z.to_nat size) 0 false
                         (u32 (4 + (size - 1) * 2)) (set_addChildValues true s);
    Ok (isMultiLine || (rightMargin_ <=? lineLength), set_addChildValues false s).

Definition styled_writeArrayValue (write : Place -> Value -> WState -> outcome WState) (p : Place)
    (value : Value) (s : WState) : outcome WState :=
  let size := value_size value in
  if size =? 0 then Ok (pushValue (bs "[]") s)
  else
    '(isArrayMultiLine, s) ← styled_isMultilineArray write p value s;
    if (isArrayMultiLine : bool) then
      let s := layout_indent (layout_writeWithIndent (bs "[") s) in
      let hasChildValue := negb (bool_decide (childValues_ s = [])) in
      s ← styled_elements write p value (Z.to_nat size - 1) 0 hasChildValue s;
      s ← layout_unindent s;
      Ok (layout_writeWithIndent (bs "]") s)
    else if negb (Z.of_nat (length (childValues_ s)) =? size) then UB AssertFailed
    else
      s ← styled_single_line (Z.to_nat size) 0 (put_out line_open s);
      Ok (put_out line_close s).

(** [writeValue]; a value nested less deeply than [fuel] is written. *)
Fixpoint styled_writeValue (fuel : nat) (p : Place) (value : Value) (s : WState) : outcome WState :=
  match fuel with
  | O => NoFuel
  | S fuel =>
      match value with
      | VNull => Ok (pushValue (bs "null") s)
      | VInt _ => z ← asLargestInt value; Ok (pushValue (valueToString_int z) s)
      | VUInt _ => z ← asLargestUInt value; Ok (pushValue (valueToString_uint z) s)
      | VReal _ =>
          d ← asDouble value;
          Ok (pushValue (valueToString_double d false defaultRealPrecision significantDigits) s)
      | VString _ =>
          Ok (pushValue match getString value with
                        | Some t => valueToQuotedStringN t
                        | None => []
                        end s)
      | VBool _ => b ← asBool value; Ok (pushValue (valueToString_bool b) s)
      | VArray _ => styled_writeArrayValue (styled_writeValue fuel) p value s
      | VObject _ =>
          members ← getMemberNames value;
          match members with
          | [] => Ok (pushValue (bs "{}") s)
          | _ =>
              let s := layout_indent (layout_writeWithIndent (bs "{") s) in
              s ← styled_members (styled_writeValue fuel) p value members s;
              s ← layout_unindent s;
              Ok (layout_writeWithIndent (bs "}") s)
          end
      end
  end.
End Shared.

(** Cuts [n] characters off the indentation. *)
Definition cut_indent (n : nat) (s : WState) : outcome WState :=
  if (length (indentString_ s) <? n)%nat then UB AssertFailed
  else Ok (set_indentString (take (length (indentString_ s) - n) (indentString_ s)) s).

(** ** StyledWriter *)

Module Styled.
Definition indentSize_ : nat := 3.

Definition writeIndent (s : WState) : WState :=
  match last (sout_ s) with
  | Some last =>
      if decide (last = " "%char) then s
      else put_out (indentString_ s) (if decide (last <> LF) then put_out [LF] s else s)
  | None => put_out (indentString_ s) s
  end.

Definition writeWithIndent (value : bytes) (s : WState) : WState := put_out value (writeIndent s).

Definition indent (s : WState) : WState :=
  set_indentString (indentString_ s ++ replicate indentSize_ " "%char) s.

Definition unindent (s : WState) : outcome WState := cut_indent indentSize_ s.

Section Notes.
Context (notes : Notes).

Definition writeCommentBeforeValue (p : Place) (s : WState) : WState :=
  if negb (hasComment p commentBefore notes) then s
  else
    let s := writeIndent (put_out [LF] s) in
    put_out [LF] (comment_loop writeIndent (getComment p commentBefore notes) s).

Definition writeCommentAfterValueOnSameLine (p : Place) (s : WState) : WState :=
  let s := if hasComment p commentAfterOnSameLine notes
           then put_out (bs " " ++ getComment p commentAfterOnSameLine notes) s else s in
  if hasComment p commentAfter notes
  then put_out [LF] (put_out (getComment p commentAfter notes) (put_out [LF] s)) else s.

#[export] Instance layout : Layout := {|
  layout_writeWithIndent := writeWithIndent;
  layout_indent := indent;
  layout_unindent := unindent;
  begin_element := writeIndent;
  end_element s := s;
  before_value := writeCommentBeforeValue;
  after_value := writeCommentAfterValueOnSameLine;
  member_name := valueToQuotedString;
  member_colon := bs " : ";
  line_open := bs "[ ";
  line_comma := bs ", ";
  line_close := bs " ]"
|}.

Definition isMultilineArray := styled_isMultilineArray notes.
Definition writeArrayValue := @styled_writeArrayValue layout notes.
Definition writeValue := @styled_writeValue layout notes.

(** [write]: the document. *)
Definition write (root : Value) : outcome bytes :=
  let s := writeCommentBeforeValue [] (MkWState [] [] [] false false) in
  s ← writeValue (value_depth root + 1) [] root s;
  let s := writeCommentAfterValueOnSameLine [] s in
  Ok (sout_ s ++ [LF]).
End Notes.
End Styled.

(** ** StyledStreamWriter *)

Module Stream.
Section Indentation.
Context (indentation_ : bytes) (notes : Notes).

Definition writeIndent (s : WState) : WState := put_out (LF :: indentString_ s) s.

Definition writeWithIndent (value : bytes) (s : WState) : WState :=
  set_indented false (put_out value (if indented_ s then s else writeIndent s)).

Definition indent (s : WState) : WState := set_indentString (indentString_ s ++ indentation_) s.

Definition unindent (s : WState) : outcome WState := cut_indent (length indentation_) s.

Definition writeCommentBeforeValue (p : Place) (s : WState) : WState :=
  if negb (hasComment p commentBefore notes) then s
  else
    let s := if indented_ s then s else writeIndent s in
    set_indented false
      (comment_loop (fun s => put_out (indentString_ s) s) (getComment p commentBefore notes) s).

Definition writeCommentAfterValueOnSameLine (p : Place) (s : WState) : WState :=
  let s := if hasComment p commentAfterOnSameLine notes
           then put_out (bs " " ++ getComment p commentAfterOnSameLine notes) s else s in
  let s := if hasComment p commentAfter notes
           then put_out (getComment p commentAfter notes) (writeIndent s) else s in
  set_indented false s.

Definition layout : Layout := {|
  layout_writeWithIndent := writeWithIndent;
  layout_indent := indent;
  layout_unindent := unindent;
  begin_element s := set_indented true (if indented_ s then s else writeIndent s);
  end_element := set_indented false;
  before_value := writeCommentBeforeValue;
  after_value := writeCommentAfterValueOnSameLine;
  member_name := valueToQuotedString;
  member_colon := bs " : ";
  line_open := bs "[ ";
  line_comma := bs ", ";
  line_close := bs " ]"
|}.

Definition isMultilineArray := styled_isMultilineArray notes.
Definition writeArrayValue := @styled_writeArrayValue layout notes.
Definition writeValue := @styled_writeValue layout notes.

(** [write]: what is written to the stream. *)
Definition write (root : Value) : outcome bytes :=
  let s := writeCommentBeforeValue [] (MkWState [] [] [] false true) in
  let s := if indented_ s then s else writeIndent s in
  s ← writeValue (value_depth root + 1) [] root (set_indented true s);
  let s := writeCommentAfterValueOnSameLine [] s in
  Ok (sout_ s ++ [LF]).
End Indentation.
End Stream.

(** A small array on one line, although one element is an object, and an array
    over several lines. *)
Example styled_line :
  Styled.write ∅ (array_of [VInt 1; VString (bs "a"); array_of []; VObject []])
  = Ok (bs "[ 1, " ++ DQUOTE :: bs "a" ++ DQUOTE :: bs ", [], {} ]" ++ [LF]).
Proof. vm_compute. reflexivity. Qed.

Example stream_lines :
  Stream.write (bs " ") ∅ (array_of [VObject [(bs "k", VBool true)]])
  = Ok (bs "[" ++ LF :: bs " {" ++ LF :: bs "  " ++ DQUOTE :: bs "k" ++ DQUOTE :: bs " : true" ++ LF :: bs " }"
        ++ LF :: bs "]" ++ [LF]).
Proof. vm_compute. reflexivity. Qed.

(** A name is written up to its first NUL. *)
Example styled_name_is_cut :
  Styled.write ∅ (VObject [(bs "a" ++ NUL :: bs "b", VNull)])
  = Ok (bs "{" ++ LF :: bs "   " ++ DQUOTE :: bs "a" ++ DQUOTE :: bs " : null" ++ LF :: bs "}" ++ [LF]).
Proof. vm_compute. reflexivity. Qed.
