(* ===== verification/JsonGrammar.v ===== *)
(** * The texts of JSON values

    What a JSON text denotes, as relations between values and texts: blanks,
    comments, quoted strings with every escape, integers, arrays and objects.  They say
    nothing of how the reader finds it out or the writers print it; UTF-8, the
    escapes and the hexadecimal digits are given by arithmetic and tables. *)
From Stdlib Require Import ZArith Ascii String Lia.
From stdpp Require Import base tactics list.
From S2P Require Import Prelude CLib JsonValue JsonReader.

#[local] Open Scope Z_scope.

(** ** Unicode texts *)

(** A code point that a text can contain: no surrogate. *)
Definition scalar (cp : Z) : Prop := 0 <= cp <= 1114111 /\ ~ (55296 <= cp <= 57343).

(** Its bytes: the leading byte has the high bits, each other one six bits. *)
Definition utf8_char (cp : Z) : bytes :=
  if cp <=? 127 then [byte cp]
  else if cp <=? 2047 then [byte (192 + cp / 64); byte (128 + cp mod 64)]
  else if cp <=? 65535 then
    [byte (224 + cp / 4096); byte (128 + cp / 64 mod 64); byte (128 + cp mod 64)]
  else [byte (240 + cp / 262144); byte (128 + cp / 4096 mod 64); byte (128 + cp / 64 mod 64);
        byte (128 + cp mod 64)].

Definition utf8 (cps : list Z) : bytes := cps ≫= utf8_char.

(** The bytes of a Unicode text. *)
Definition is_utf8 (s : bytes) : Prop := exists cps, Forall scalar cps /\ s = utf8 cps.

(** ** Strings *)

(** The escapes of one character. *)
Definition json_escapes : list (ascii * ascii) :=
  [(DQUOTE, DQUOTE); ("\"%char, "\"%char); ("/"%char, "/"%char); ("b"%char, "008"%char);
   ("f"%char, "012"%char); ("n"%char, "010"%char); ("r"%char, "013"%char); ("t"%char, "009"%char)].

(** A hexadecimal digit is its place in the table. *)
Definition nibble (c : ascii) : option Z :=
  (fun p => Z.of_nat p.1 mod 16) <$> list_find (eq c) (bs "0123456789abcdef0123456789ABCDEF").

Fixpoint hex_value (q : bytes) (acc : Z) : option Z :=
  match q with
  | [] => Some acc
  | c :: q => match nibble c with Some d => hex_value q (acc * 16 + d) | None => None end
  end.

(** Four digits and what they stand for. *)
Definition hex4 (q : bytes) (u : Z) : Prop := length q = 4%nat /\ hex_value q 0 = Some u.

(** [encodes s t]: between quotes, [t] denotes [s]. *)
Inductive encodes : bytes -> bytes -> Prop :=
  | enc_end : encodes [] []
  | enc_char c s t : c <> DQUOTE -> c <> "\"%char -> encodes s t -> encodes (c :: s) (c :: t)
  | enc_short e c s t :
      (e, c) ∈ json_escapes -> encodes s t -> encodes (c :: s) ("\"%char :: e :: t)
  | enc_unit q u s t :
      hex4 q u -> ~ (55296 <= u <= 56319) -> encodes s t ->
      encodes (utf8_char u ++ s) (bs "\u" ++ q ++ t)
  | enc_pair q r hi lo s t :
      hex4 q hi -> 55296 <= hi <= 56319 -> hex4 r lo -> 56320 <= lo <= 57343 -> encodes s t ->
      encodes (utf8_char (65536 + (hi - 55296) * 1024 + (lo - 56320)) ++ s)
        (bs "\u" ++ q ++ bs "\u" ++ r ++ t).

Definition quoted (s t : bytes) : Prop := exists e, encodes s e /\ t = DQUOTE :: e ++ [DQUOTE].

(** ** Values *)

Definition blank (w : bytes) : Prop := Forall (fun c => is_json_space c = true) w.

(** The end of a C comment. *)
Definition close_mark : bytes := ["*"%char; "/"%char].

Definition unclosed (b : bytes) : Prop := forall x y, b <> x ++ close_mark ++ y.

(** A comment that goes to its mark, or to the end of its line. *)
Inductive comment : bytes -> Prop :=
  | comment_c b : unclosed b -> comment ("/"%char :: "*"%char :: b ++ close_mark)
  | comment_line b e :
      LF ∉ b -> CR ∉ b -> e = [LF] \/ e = CRLF -> comment ("/"%char :: "/"%char :: b ++ e).

(** What may stand between two tokens: blanks and comments. *)
Inductive gap : bytes -> Prop :=
  | gap_blank w : blank w -> gap w
  | gap_comment w c g : blank w -> comment c -> gap g -> gap (w ++ c ++ g).

(** What may stand behind the last token: the line of a comment may end with the
    text. *)
Inductive gap_end : bytes -> Prop :=
  | gap_end_blank w : blank w -> gap_end w
  | gap_end_line w b : blank w -> LF ∉ b -> CR ∉ b -> gap_end (w ++ "/"%char :: "/"%char :: b)
  | gap_end_comment w c g : blank w -> comment c -> gap_end g -> gap_end (w ++ c ++ g).

(** Decimal digits; leading zeros are allowed. *)
Definition number (ds : bytes) : Prop := all_digits ds /\ ds <> [].

(** The object a list of members denotes: the last one of a name counts. *)
Definition object_of (ms : list (bytes * Value)) : Value :=
  VObject (foldl (fun m kv => map_insert czstring_lt kv.1 kv.2 m) [] ms).

(** [spells d v t]: the text [t] denotes [v], with brackets nested at most [d] deep. *)
Inductive spells : nat -> Value -> bytes -> Prop :=
  | sp_null d : spells d VNull (bs "null")
  | sp_true d : spells d (VBool true) (bs "true")
  | sp_false d : spells d (VBool false) (bs "false")
  | sp_int d ds :
      number ds -> digits_value ds 0 <= maxInt64 -> spells d (VInt (digits_value ds 0)) ds
  | sp_negative d ds :
      number ds -> minInt64 <= - digits_value ds 0 ->
      spells d (VInt (- digits_value ds 0)) ("-"%char :: ds)
  | sp_uint d ds :
      number ds -> maxInt64 < digits_value ds 0 <= maxUInt64 -> spells d (VUInt (digits_value ds 0)) ds
  | sp_string d s t : quoted s t -> spells d (VString s) t
  | sp_no_elements d w : blank w -> spells (S d) (array_of []) (bs "[" ++ w ++ bs "]")
  | sp_array d l t : elements d l t -> spells (S d) (array_of l) (bs "[" ++ t ++ bs "]")
  | sp_no_members d w : gap w -> spells (S d) (object_of []) (bs "{" ++ w ++ bs "}")
  | sp_object d ms t : members d ms t -> spells (S d) (object_of ms) (bs "{" ++ t ++ bs "}")
with elements : nat -> list Value -> bytes -> Prop :=
  | el_last d v w1 t w2 :
      gap w1 -> spells d v t -> gap w2 -> elements d [v] (w1 ++ t ++ w2)
  | el_next d v w1 t w2 l ts :
      gap w1 -> spells d v t -> gap w2 -> elements d l ts ->
      elements d (v :: l) (w1 ++ t ++ w2 ++ bs "," ++ ts)
with members : nat -> list (bytes * Value) -> bytes -> Prop :=
  | me_last d k v w1 q w2 w3 t w4 :
      gap w1 -> quoted k q -> blank w2 -> gap w3 -> spells d v t -> gap w4 ->
      members d [(k, v)] (w1 ++ q ++ w2 ++ bs ":" ++ w3 ++ t ++ w4)
  | me_next d k v w1 q w2 w3 t w4 ms ts :
      gap w1 -> quoted k q -> blank w2 -> gap w3 -> spells d v t -> gap w4 ->
      members d ms ts ->
      members d ((k, v) :: ms) (w1 ++ q ++ w2 ++ bs ":" ++ w3 ++ t ++ w4 ++ bs "," ++ ts).

Scheme spells_mind := Induction for spells Sort Prop
  with elements_mind := Induction for elements Sort Prop
  with members_mind := Induction for members Sort Prop.
Combined Scheme spells_ind3 from spells_mind, elements_mind, members_mind.

(** A whole document: one value with blanks and comments around it. *)
Definition document (d : nat) (v : Value) (text : bytes) : Prop :=
  exists w1 t w2, gap w1 /\ spells d v t /\ gap_end w2 /\ text = w1 ++ t ++ w2.

Lemma blank_nil : blank [].
Proof. constructor. Qed.

Lemma gap_ends g : gap g -> gap_end g.
Proof. induction 1; [by apply gap_end_blank|by apply gap_end_comment]. Qed.

#[export] Hint Resolve gap_blank blank_nil gap_ends : reflector.
