(* ===== verification/JsonGap.v ===== *)
(** * Blanks and comments

    What may stand between tokens is closed under adding more of it, under
    taking blanks off its front, and under the blanks a writer adds at the start
    of a line within a comment. *)
From Stdlib Require Import ZArith Ascii String Lia.
From stdpp Require Import base tactics list gmap.
From S2P Require Import Prelude CLib JsonValue JsonNotes JsonReader JsonGrammar.

#[local] Open Scope Z_scope.

(** ** Adding and taking off *)

Lemma blank_gap w g : blank w -> gap g -> gap (w ++ g).
Proof.
  intros Hw [w1 Hw1|w1 c g' Hw1 Hc Hg]; [by apply gap_blank, Forall_app|].
  rewrite app_assoc. apply gap_comment; [by apply Forall_app|done..].
Qed.

Lemma gap_app g1 g2 : gap g1 -> gap g2 -> gap (g1 ++ g2).
Proof.
  induction 1 as [w Hw|w c g Hw Hc _ IH]; intros Hg; [by apply blank_gap|].
  rewrite <- !app_assoc. apply gap_comment; [done..|by apply IH].
Qed.

Lemma blank_gap_end w g : blank w -> gap_end g -> gap_end (w ++ g).
Proof.
  intros Hw [w1 Hw1|w1 b Hw1 Hl Hc|w1 c g' Hw1 Hc Hg]; [by apply gap_end_blank, Forall_app|..]; rewrite app_assoc.
  - apply gap_end_line; [by apply Forall_app|done..].
  - apply gap_end_comment; [by apply Forall_app|done..].
Qed.

Lemma gap_app_end g1 g2 : gap g1 -> gap_end g2 -> gap_end (g1 ++ g2).
Proof.
  induction 1 as [w Hw|w c g Hw Hc _ IH]; intros Hg; [by apply blank_gap_end|].
  rewrite <- !app_assoc. apply gap_end_comment; [done..|by apply IH].
Qed.

(** A newline ends the line of a comment. *)
Lemma gap_end_newline g w : gap_end g -> blank w -> gap (g ++ LF :: w).
Proof.
  intros Hg Hw. assert (blank (LF :: w)) as Hn by (by constructor).
  induction Hg as [w1 Hw1|w1 b Hw1 Hl Hc|w1 c g Hw1 Hc _ IH].
  - by apply gap_blank, Forall_app.
  - replace ((w1 ++ "/"%char :: "/"%char :: b) ++ LF :: w) with (w1 ++ ("/"%char :: "/"%char :: b ++ [LF]) ++ w)
      by (rewrite <- !app_assoc; cbn [app]; by rewrite <- app_assoc).
    apply gap_comment; [done|apply comment_line; auto|by apply gap_blank].
  - rewrite <- !app_assoc. by apply gap_comment.
Qed.

(** Blanks in front of a text that starts with blanks and something else. *)
Lemma blank_prefix w x w1 c y :
  blank w -> is_json_space c = false -> w1 ++ c :: y = w ++ x ->
  exists w2, w1 = w ++ w2 /\ x = w2 ++ c :: y.
Proof.
  intros Hw Hc. revert w1. induction Hw as [|a w Ha Hw IH]; intros w1 E; [eauto|].
  destruct w1 as [|b w1]; simpl in E; injection E as -> E; [congruence|].
  destruct (IH w1 E) as (w2 & -> & ->). by exists w2.
Qed.

Lemma blank_suffix w1 w2 : blank (w1 ++ w2) -> blank w2.
Proof. intros H. by apply Forall_app in H as [_ H]. Qed.

(** What remains of a gap without the first blanks. *)
Lemma gap_prefix g w x c y :
  gap g -> blank w -> is_json_space c = false -> g ++ c :: y = w ++ x ->
  exists g2, gap g2 /\ x = g2 ++ c :: y.
Proof.
  intros [w1 Hw1|w1 d g' Hw1 Hd Hg'] Hw Hc E.
  - destruct (blank_prefix _ _ _ _ _ Hw Hc E) as (w2 & -> & ->).
    exists w2. split; [|done]. by eapply gap_blank, blank_suffix.
  - assert (exists r, d = "/"%char :: r) as [r ->] by (destruct Hd; eauto).
    rewrite <- !app_assoc in E. cbn [app] in E.
    destruct (blank_prefix w x w1 "/"%char (r ++ g' ++ c :: y) Hw eq_refl E) as (w2 & -> & ->).
    exists (w2 ++ ("/"%char :: r) ++ g'). split; [|by rewrite <- !app_assoc].
    apply gap_comment; [|done..]. by eapply blank_suffix.
Qed.

(** ** Blanks added behind newlines *)

(** [u'] is [u] with blanks added at the start of some lines. *)
Inductive indented_lines : bytes -> bytes -> Prop :=
  | il_end : indented_lines [] []
  | il_char c u u' : indented_lines u u' -> indented_lines (c :: u) (c :: u')
  | il_line w u u' : blank w -> indented_lines u u' -> indented_lines (LF :: u) (LF :: w ++ u').

Lemma il_split x y z :
  indented_lines (x ++ y) z -> exists x' y', z = x' ++ y' /\ indented_lines x x' /\ indented_lines y y'.
Proof.
  revert z; induction x as [|c x IH]; intros z H; [exists [], z; by split_and!; [|constructor|]|].
  cbn [app] in H. remember (c :: x ++ y) as u eqn:E. destruct H as [|d u u' H|w u u' Hw H]; [done|..];
    injection E as E ->; subst; destruct (IH _ H) as (x' & y' & -> & H1 & H2).
  - exists (c :: x'), y'. by split_and!; [|constructor|].
  - exists (LF :: w ++ x'), y'. split_and!; [cbn [app]; by rewrite <- app_assoc|by constructor|done].
Qed.

Lemma il_blank u u' : indented_lines u u' -> blank u -> blank u'.
Proof.
  induction 1 as [|c u u' _ IH|w u u' Hw _ IH]; intros Hu; [done|..]; apply Forall_cons in Hu as [Hc Hu].
  - constructor; [done|by apply IH].
  - constructor; [done|]. apply Forall_app. split; [done|by apply IH].
Qed.

Lemma il_same u u' : indented_lines u u' -> LF ∉ u -> u' = u.
Proof.
  induction 1 as [|c u u' _ IH|w u u' Hw _ IH]; intros Hu; [done|..]; apply not_elem_of_cons in Hu as [Hc Hu].
  - by rewrite IH.
  - done.
Qed.

(** A short text that has no newline. *)
Ltac no_newline :=
  unfold bs, close_mark; simpl; repeat (apply not_elem_of_cons; split; [done|]); apply not_elem_of_nil.

(** No end of a comment comes from adding blanks. *)
Lemma il_mark u x' y' :
  indented_lines u (x' ++ close_mark ++ y') -> exists x y, u = x ++ close_mark ++ y.
Proof.
  intros H. remember (x' ++ close_mark ++ y') as z eqn:E. revert x' E.
  induction H as [|c u u' H IH|w u u' Hw H IH]; intros x' E.
  - by destruct x'.
  - destruct x' as [|d x']; cbn [app] in E; injection E as -> E.
    + subst u'. remember ("/"%char :: y') as z eqn:E. destruct H as [|d u u' H|w u u' Hw H]; [done| |done]. injection E as -> ->.
      exists [], u. done.
    + destruct (IH x' E) as (x & y & ->). by exists (d :: x), y.
  - destruct x' as [|d x']; cbn [app] in E; [done|]. injection E as <- E.
    destruct (blank_prefix w u' x' "*"%char ("/"%char :: y')) as (w2 & -> & E2); [done..|].
    destruct (IH w2 E2) as (x & y & ->). by exists (LF :: x), y.
Qed.

Lemma il_comment c c' :
  indented_lines c c' -> comment c -> exists d w, c' = d ++ w /\ comment d /\ blank w.
Proof.
  intros H Hcom. revert H. destruct Hcom as [b Hb|b e Hl Hc He]; intros H.
  - change ("/"%char :: "*"%char :: b ++ close_mark) with (bs "/*" ++ b ++ close_mark) in H.
    apply il_split in H as (h & z & -> & H1 & H). apply il_split in H as (b' & m & -> & H2 & H3).
    rewrite (il_same _ _ H1), (il_same _ _ H3) by no_newline.
    exists (bs "/*" ++ b' ++ close_mark), []. split_and!; [by rewrite app_nil_r| |constructor].
    apply comment_c. intros x y ->. destruct (il_mark _ _ _ H2) as (x1 & y1 & ->). by apply (Hb x1 y1).
  - change ("/"%char :: "/"%char :: b ++ e) with (bs "//" ++ b ++ e) in H.
    apply il_split in H as (h & z & -> & H1 & H). apply il_split in H as (b' & m & -> & H2 & H3).
    rewrite (il_same _ _ H1), (il_same _ _ H2) by (done || no_newline).
    assert (exists w, m = e ++ w /\ blank w) as (w & -> & Hw).
    { assert (forall m', indented_lines [LF] m' -> exists w, m' = LF :: w /\ blank w) as Hm.
      { intros m' Hm. remember [LF] as l eqn:E. destruct Hm as [|d u u' Hm|w u u' Hw Hm]; [done|..].
        - injection E as E' ->. rewrite (il_same _ _ Hm) by no_newline. subst d. exists []. by split; [|constructor].
        - injection E as ->. rewrite (il_same _ _ Hm) by no_newline. exists w. by rewrite app_nil_r. }
      destruct He as [->| ->]; [by apply Hm|]. unfold CRLF in H3.
      change [CR; LF] with ([CR] ++ [LF]) in *. apply il_split in H3 as (r & m' & -> & H4 & H5).
      rewrite (il_same _ _ H4) by no_newline. destruct (Hm _ H5) as (w & -> & Hw). by exists w. }
    exists (bs "//" ++ b ++ e), w. split_and!; [by rewrite <- !app_assoc| |done]. exact (comment_line b e Hl Hc He).
Qed.

Lemma il_gap_end g g' : indented_lines g g' -> gap_end g -> gap_end g'.
Proof.
  intros H Hg. revert g' H. induction Hg as [w Hw|w b Hw Hl Hc|w c g Hw Hc _ IH]; intros g' H.
  - apply gap_end_blank. by eapply il_blank.
  - apply il_split in H as (w' & c' & -> & H1 & H2).
    rewrite (il_same _ _ H2) by (do 2 (apply not_elem_of_cons; split; [done|]); done).
    apply gap_end_line; [by eapply il_blank|done..].
  - apply il_split in H as (w' & z & -> & H1 & H). apply il_split in H as (c' & g1 & -> & H2 & H3).
    destruct (il_comment _ _ H2 Hc) as (d & w2 & -> & Hd & Hw2). rewrite <- app_assoc.
    apply gap_end_comment; [by eapply il_blank|done|]. by apply blank_gap_end; [|apply IH].
Qed.

Lemma il_gap g g' : indented_lines g g' -> gap g -> gap g'.
Proof.
  intros H Hg. revert g' H. induction Hg as [w Hw|w c g Hw Hc _ IH]; intros g' H.
  - apply gap_blank. by eapply il_blank.
  - apply il_split in H as (w' & z & -> & H1 & H). apply il_split in H as (c' & g1 & -> & H2 & H3).
    destruct (il_comment _ _ H2 Hc) as (d & w2 & -> & Hd & Hw2). rewrite <- app_assoc.
    apply gap_comment; [by eapply il_blank|done|]. by apply blank_gap; [|apply IH].
Qed.

(** ** Newlines made alike *)

(** What [normalizeEOL] makes of a text. *)
Fixpoint normal_lines (c : bytes) : bytes :=
  match c with
  | [] => []
  | x :: r =>
      if decide (x = CR) then
        LF :: match r with
              | y :: r' => if decide (y = LF) then normal_lines r' else normal_lines r
              | [] => []
              end
      else x :: normal_lines r
  end.

(** A text is empty, begins with a newline, or with some other character. *)
Lemma normal_ind (P : bytes -> Prop) :
  P [] -> (forall r, P r -> P (CR :: r)) -> (forall r, P r -> P (CR :: LF :: r)) ->
  (forall x r, x <> CR -> P r -> P (x :: r)) -> forall c, P c.
Proof.
  intros H0 H1 H2 H3 c. assert (P c /\ P (CR :: c)) as [? _]; [|done].
  induction c as [|x c [IH1 IH2]]; [auto|]. destruct (decide (x = CR)) as [->|Hx]; [auto|].
  assert (P (x :: c)) by auto. split; [done|]. destruct (decide (x = LF)) as [->|]; auto.
Qed.

Lemma normal_cr r :
  normal_lines (CR :: r) = LF :: normal_lines match r with y :: r' => if decide (y = LF) then r' else r | [] => [] end.
Proof. cbn [normal_lines]. rewrite decide_True by done. destruct r as [|y r]; [done|]. by case_decide. Qed.

Lemma normal_char x r : x <> CR -> normal_lines (x :: r) = x :: normal_lines r.
Proof. intros Hx. cbn [normal_lines]. by rewrite decide_False. Qed.

Lemma normal_no_cr c : CR ∉ normal_lines c.
Proof.
  induction c as [|r IH|r IH|x r Hx IH] using normal_ind; [apply not_elem_of_nil|..].
  - rewrite normal_cr. apply not_elem_of_cons. split; [done|]. destruct r as [|y r]; [done|].
    case_decide; [|done]. subst y. rewrite normal_char in IH by done. by apply not_elem_of_cons in IH as [_ IH].
  - rewrite normal_cr, decide_True by done. by apply not_elem_of_cons.
  - rewrite normal_char by done. by apply not_elem_of_cons.
Qed.

Lemma normal_app x y : CR ∉ x -> normal_lines (x ++ y) = x ++ normal_lines y.
Proof.
  induction x as [|c x IH]; intros Hx; [done|]. apply not_elem_of_cons in Hx as [Hc Hx]. cbn [app].
  rewrite normal_char by done. by rewrite IH.
Qed.

Lemma normal_app_char x c y : c <> LF -> normal_lines (x ++ c :: y) = normal_lines x ++ normal_lines (c :: y).
Proof.
  intros Hc. induction x as [|r IH|r IH|d r Hd IH] using normal_ind; [done|..].
  - destruct r as [|e r].
    + cbn [app]. rewrite !normal_cr, decide_False by done. done.
    + cbn [app] in *. rewrite !normal_cr. destruct (decide (e = LF)) as [->|]; [|by rewrite IH].
      rewrite !normal_char in IH by done. injection IH as ->. done.
  - cbn [app]. rewrite !normal_cr, !decide_True by done. by rewrite IH.
  - cbn [app]. rewrite !normal_char by done. by rewrite IH.
Qed.

Lemma normal_mark b x' y' : normal_lines b = x' ++ close_mark ++ y' -> exists x y, b = x ++ close_mark ++ y.
Proof.
  revert x'; induction b as [|r IH|r IH|c r Hc IH] using normal_ind; intros x' E.
  - by destruct x'.
  - rewrite normal_cr in E. destruct x' as [|d x']; [done|]. injection E as <- E.
    assert (exists x'', normal_lines r = x'' ++ close_mark ++ y') as [x'' E'].
    { destruct r as [|e r]; [by exists x'|]. destruct (decide (e = LF)) as [->|]; [|by exists x'].
      exists (LF :: x'). rewrite normal_char by done. by rewrite E. }
    destruct (IH x'' E') as (x & y & ->). by exists (CR :: x), y.
  - rewrite normal_cr, decide_True in E by done. destruct x' as [|d x']; [done|]. injection E as <- E.
    destruct (IH x' E) as (x & y & ->). by exists (CR :: LF :: x), y.
  - rewrite normal_char in E by done. destruct x' as [|d x']; cbn [app] in E; injection E as -> E.
    + destruct r as [|e r]; [done|]. destruct (decide (e = CR)) as [->|He]; [by rewrite normal_cr in E|].
      rewrite normal_char in E by done. injection E as -> _. by exists [], r.
    + destruct (IH x' E) as (x & y & ->). by exists (d :: x), y.
Qed.

Lemma normal_comment c : comment c -> comment (normal_lines c).
Proof.
  intros [b Hb|b e Hl Hc He].
  - change ("/"%char :: "*"%char :: b ++ close_mark) with (bs "/*" ++ b ++ "*"%char :: ["/"%char]).
    rewrite normal_app by no_newline. rewrite normal_app_char by done.
    apply (comment_c (normal_lines b)). intros x y E. destruct (normal_mark _ _ _ E) as (x1 & y1 & ->).
    by apply (Hb x1 y1).
  - change ("/"%char :: "/"%char :: b ++ e) with ((bs "//" ++ b) ++ e).
    rewrite normal_app by (apply not_elem_of_app; split; [no_newline|done]).
    assert (normal_lines e = [LF]) as -> by (destruct He; subst; reflexivity).
    apply (comment_line b [LF]); auto.
Qed.

(** ** Comments that values keep *)

(** Comments collected by the reader. *)
Definition clean (c : bytes) : Prop := gap c /\ CR ∉ c.

(** What [setComment] makes of a comment: a newline at its end goes away. *)
Definition chomp (c : bytes) : bytes :=
  match last c with Some x => if decide (x = LF) then removelast c else c | None => c end.

Definition storable (c : bytes) : Prop := gap_end (chomp c).

Lemma chomp_newline x : chomp (x ++ [LF]) = x.
Proof. unfold chomp. by rewrite last_snoc, decide_True, removelast_last. Qed.

Lemma chomp_other c : last c <> Some LF -> chomp c = c.
Proof. unfold chomp. destruct (last c) as [x|]; [|done]. intros H. rewrite decide_False; [done|congruence]. Qed.

Lemma gap_unline x : gap (x ++ [LF]) -> CR ∉ x -> gap_end x.
Proof.
  intros H. remember (x ++ [LF]) as t eqn:E. revert x E.
  induction H as [w Hw|w c g Hw Hc Hg IH]; intros x E Hx.
  - subst w. apply Forall_app in Hw as [Hw _]. by apply gap_end_blank.
  - destruct g as [|y g' _] using rev_ind.
    + rewrite app_nil_r in E. destruct Hc as [b Hb|b e Hl Hc He].
      * change ("/"%char :: "*"%char :: b ++ close_mark) with (bs "/*" ++ b ++ ["*"%char] ++ ["/"%char]) in E.
        rewrite !app_assoc in E. by apply app_inj_tail in E as [_ ?].
      * change ("/"%char :: "/"%char :: b ++ e) with ((bs "//" ++ b) ++ e) in E. destruct He as [->| ->].
        -- rewrite app_assoc in E. apply app_inj_tail in E as [<- _]. by apply (gap_end_line w b).
        -- change CRLF with ([CR] ++ [LF]) in E. rewrite !app_assoc in E. apply app_inj_tail in E as [<- _].
           exfalso. apply Hx. apply elem_of_app. right. by left.
    + rewrite !app_assoc in E. apply app_inj_tail in E as [<- ->]. rewrite <- app_assoc in *.
      apply gap_end_comment; [done..|]. apply IH; [done|]. intros H. apply Hx. rewrite !elem_of_app. auto.
Qed.

Lemma clean_storable c : clean c -> storable c.
Proof.
  intros [Hg Hc]. unfold storable. destruct c as [|x c' _] using rev_ind; [auto with reflector|].
  destruct (decide (x = LF)) as [->|Hx].
  - rewrite chomp_newline. apply gap_unline; [done|]. intros H. apply Hc. apply elem_of_app. auto.
  - rewrite chomp_other by (rewrite last_snoc; congruence). by apply gap_ends.
Qed.

Lemma clean_nil : clean [].
Proof. split; [auto with reflector|apply not_elem_of_nil]. Qed.

(** A comment behind others. *)
Lemma clean_comment g c : clean g -> comment c -> clean (g ++ normal_lines c).
Proof.
  intros [Hg Hn] Hc. split.
  - apply gap_app; [done|]. rewrite <- (app_nil_r (normal_lines c)).
    apply (gap_comment []); [constructor|by apply normal_comment|auto with reflector].
  - apply not_elem_of_app. split; [done|apply normal_no_cr].
Qed.

(** The same for one whose line ends with the text. *)
Lemma storable_line g b :
  clean g -> LF ∉ b -> CR ∉ b -> storable (g ++ normal_lines ("/"%char :: "/"%char :: b)).
Proof.
  intros [Hg Hn] Hl Hc. assert (CR ∉ "/"%char :: "/"%char :: b /\ LF ∉ "/"%char :: "/"%char :: b) as [H1 H2]
    by (rewrite !not_elem_of_cons; by split_and!).
  pose proof (normal_app _ [] H1) as E. rewrite !app_nil_r in E. rewrite E. unfold storable. rewrite chomp_other.
  - apply gap_app_end; [done|]. by apply (gap_end_line []); [constructor|..].
  - rewrite last_app. destruct (last ("/"%char :: "/"%char :: b)) as [x|] eqn:Ex; [|by apply last_None in Ex].
    intros [= ->]. by apply last_Some_elem_of in Ex.
Qed.

(** Every comment of the notes is blanks and comments; the line of the last one
    may be left open. *)
Definition line_comments (n : Notes) : Prop := forall p slot, gap_end (getComment p slot n).

Lemma line_comments_empty : line_comments ∅.
Proof. intros p slot. apply gap_ends, gap_blank, blank_nil. Qed.

Lemma getComment_set p q slot m n :
  getComment q slot (set_meta p m n) = if decide (p = q) then comments_get slot (comments_ m) else getComment q slot n.
Proof.
  unfold getComment, meta_at, set_meta. case_decide as E; [subst q; by rewrite lookup_insert_eq|].
  by rewrite lookup_insert_ne.
Qed.

Lemma line_comments_set p m n :
  line_comments n -> (forall slot, gap_end (comments_get slot (comments_ m))) -> line_comments (set_meta p m n).
Proof. intros Hn Hm q slot. rewrite getComment_set. by case_decide. Qed.

Lemma line_comments_drop p n : line_comments n -> line_comments (drop_below p n).
Proof.
  intros Hn q slot. specialize (Hn q slot). revert Hn. unfold getComment, meta_at, drop_below.
  rewrite map_lookup_filter. destruct (n !! q) as [m|]; [|done]. cbn. case_guard; [done|].
  intros _. apply gap_ends, gap_blank, blank_nil.
Qed.

Lemma setComment_chomp p c slot n n' :
  setComment p c slot n = Ok n' ->
  n' = set_meta p (MkMeta (comments_set slot (chomp c) (comments_ (meta_at p n)))
                     (meta_start (meta_at p n)) (meta_limit (meta_at p n))) n.
Proof.
  unfold setComment, comment_text. fold (chomp c). unfold json_assert.
  destruct (negb _); run; [|done]. destruct (match chomp c with [] => _ | _ => _ end); run; [|done]. by intros [= <-].
Qed.

Lemma line_comments_setComment p c slot n n' :
  setComment p c slot n = Ok n' -> storable c -> line_comments n -> line_comments n'.
Proof.
  intros E Hc Hn. rewrite (setComment_chomp _ _ _ _ _ E). apply line_comments_set; [done|]. intros slot'.
  specialize (Hn p slot'). unfold getComment in Hn. unfold storable in Hc.
  destruct (comments_ (meta_at p n)) as [a|]; cbn [comments_set comments_get default comments_] in *.
  - by destruct slot, slot'.
  - destruct slot, slot'; cbn; (done || apply gap_ends, gap_blank, blank_nil).
Qed.

Lemma line_comments_offset p x y n :
  line_comments n -> line_comments (set_meta p (MkMeta (comments_ (meta_at p n)) x y) n).
Proof. intros Hn. apply line_comments_set; [done|]. intros slot. apply Hn. Qed.
