(* ===== verification/JsonParseProofs.v ===== *)
(** * The JSON reader reads every text of a value

    [document d v text], nested less deeply than the reader's limit, is parsed
    to [v] without an error: the recursive descent accepts the grammar of
    JsonGrammar.v and computes what it denotes. *)
From Stdlib Require Import ZArith Ascii String Lia SpecFloat.
From stdpp Require Import base tactics list gmap.
From S2P Require Import Prelude CLib CDouble JsonValue JsonNotes JsonValueProofs JsonReader JsonReaderProofs.
From S2P Require Import JsonGrammar JsonGap.

#[local] Open Scope Z_scope.

(** ** The tables of the grammar and the reader's tests *)

Lemma nibble_hex_digit c : nibble c = hex_digit c.
Proof. by destruct c as [[] [] [] [] [] [] [] []]. Qed.

Lemma json_escape_simple e c : (e, c) ∈ json_escapes -> simple_escape e = Some c.
Proof.
  unfold json_escapes. intros H.
  repeat (apply elem_of_cons in H as [[= -> ->]|H]; [done|]). by apply not_elem_of_nil in H.
Qed.

Lemma hex_value_range q acc u :
  hex_value q acc = Some u -> 0 <= acc -> 0 <= u < (acc + 1) * 16 ^ Z.of_nat (length q).
Proof.
  revert acc; induction q as [|c q IH]; intros acc Hq Ha; [injection Hq as <-; simpl; lia|].
  cbn [hex_value] in Hq. destruct (nibble c) as [d|] eqn:E; [|done].
  assert (0 <= d < 16) as Hd.
  { unfold nibble in E. destruct (list_find _ _) as [[n x]|]; [|done]. injection E as <-.
    apply Z.mod_pos_bound. lia. }
  specialize (IH _ Hq ltac:(lia)). cbn [length]. rewrite Nat2Z.inj_succ, Z.pow_succ_r by lia. nia.
Qed.

Lemma hex4_range q u : hex4 q u -> 0 <= u < 65536.
Proof. intros [Hl Hq]. apply hex_value_range in Hq; [|lia]. rewrite Hl in Hq. lia. Qed.

(** Bits above [n] and bits below it. *)
Lemma land_high k n x : 0 <= n -> 0 <= x < 2 ^ n -> Z.land (Z.shiftl k n) x = 0.
Proof.
  intros Hn Hx. apply Z.bits_inj'. intros i Hi. rewrite Z.land_spec, Z.bits_0.
  destruct (Z.ltb_spec i n); [by rewrite Z.shiftl_spec_low|].
  rewrite <- (Z.mod_small x (2 ^ n)), Z.mod_pow2_bits_high, andb_false_r by lia. done.
Qed.

Lemma lor_high k n x : 0 <= n -> 0 <= x < 2 ^ n -> Z.lor (Z.shiftl k n) x = k * 2 ^ n + x.
Proof.
  intros Hn Hx. rewrite <- Z.shiftl_mul_pow2 by done.
  rewrite <- Z.lxor_lor, <- Z.add_nocarry_lxor by (by apply land_high). done.
Qed.

Lemma land_low x n : 0 <= n -> Z.land x (Z.ones n) = x mod 2 ^ n.
Proof. intros. by apply Z.land_ones. Qed.

(** [codePointToUTF8] writes UTF-8. *)
Lemma utf8_bytes cp : 0 <= cp <= 1114111 -> codePointToUTF8 cp = utf8_char cp.
Proof.
  intros Hcp. unfold codePointToUTF8, utf8_char.
  assert (H6 : forall x, Z.lor 128 (Z.land 63 x) = 128 + x mod 64).
  { intros x. rewrite Z.land_comm. change 63 with (Z.ones 6). rewrite land_low by lia.
    change 128 with (Z.shiftl 2 6). rewrite lor_high; [reflexivity|lia|]. apply Z.mod_pos_bound. lia. }
  rewrite !H6, !Z.shiftr_div_pow2 by lia.
  change (2 ^ 6) with 64. change (2 ^ 12) with 4096. change (2 ^ 18) with 262144.
  destruct (Z.leb_spec cp 127); [done|]. destruct (Z.leb_spec cp 2047).
  { rewrite (Z.land_comm 31). change 31 with (Z.ones 5). rewrite land_low by lia.
    assert (cp / 64 < 32) by (apply Z.div_lt_upper_bound; lia).
    assert (0 <= cp / 64) by (apply Z.div_pos; lia).
    rewrite Z.mod_small by (change (2 ^ 5) with 32; lia).
    change 192 with (Z.shiftl 6 5). rewrite lor_high by (change (2 ^ 5) with 32; lia). done. }
  destruct (Z.leb_spec cp 65535).
  { rewrite (Z.land_comm 15). change 15 with (Z.ones 4). rewrite land_low by lia.
    assert (cp / 4096 < 16) by (apply Z.div_lt_upper_bound; lia).
    assert (0 <= cp / 4096) by (apply Z.div_pos; lia).
    rewrite Z.mod_small by (change (2 ^ 4) with 16; lia).
    change 224 with (Z.shiftl 14 4). rewrite lor_high by (change (2 ^ 4) with 16; lia). done. }
  rewrite (proj2 (Z.leb_le cp 1114111)) by lia.
  rewrite (Z.land_comm 7). change 7 with (Z.ones 3). rewrite land_low by lia.
  assert (cp / 262144 < 8) by (apply Z.div_lt_upper_bound; lia).
  assert (0 <= cp / 262144) by (apply Z.div_pos; lia).
  rewrite Z.mod_small by (change (2 ^ 3) with 8; lia).
  change 240 with (Z.shiftl 30 3). rewrite lor_high by (change (2 ^ 3) with 8; lia). done.
Qed.

Lemma utf8_char_length cp : (length (utf8_char cp) <= 4)%nat.
Proof. unfold utf8_char. repeat case_match; simpl; lia. Qed.

(** What may follow a value. *)
Lemma slash_behind : "/"%char ∈ bs ",]}/".
Proof. unfold bs; simpl. set_solver. Qed.

Lemma closing_behind c : c ∈ bs ",]}" -> c ∈ bs ",]}/".
Proof. unfold bs; simpl. set_solver. Qed.

(** The first character of what stands behind the last token. *)
Lemma gap_end_head c u : gap_end (c :: u) -> is_json_space c = true \/ c = "/"%char.
Proof.
  intros H. remember (c :: u) as t eqn:E.
  assert (forall w x, blank w -> w ++ x = c :: u -> is_json_space c = true \/ x = c :: u) as Hw.
  { intros [|d w] x Hw E'; [by right|]. injection E' as -> _. apply Forall_cons in Hw as [Hd _]. by left. }
  destruct H as [w Hb|w b Hb _ _|w d g Hb Hd _].
  - subst w. apply Forall_cons in Hb as [Hd _]. by left.
  - destruct (Hw _ _ Hb E) as [?|E']; [by left|right; by injection E'].
  - destruct (Hw _ _ Hb E) as [?|E']; [by left|]. right. destruct Hd; by injection E'.
Qed.

Section Reading.
Context (mem : bytes) (end_ : nat) (features_ : OurFeatures) (cc : bool).
Context (Hmem : (end_ < length mem)%nat) (Hdup : rejectDupKeys_ features_ = false)
  (Hcomments : allowComments_ features_ = true).

(** The text [t] is in the document, from [i] on. *)
Fixpoint has (i : nat) (t : bytes) : Prop :=
  match t with
  | [] => True
  | c :: t => mem !! i = Some c /\ (i < end_)%nat /\ has (S i) t
  end.

Lemma has_app i t u : has i (t ++ u) <-> has i t /\ has (i + length t) u.
Proof.
  revert i; induction t as [|c t IH]; intros i; simpl; [rewrite Nat.add_0_r; tauto|].
  rewrite IH. rewrite Nat.add_succ_r. tauto.
Qed.

Lemma has_le i t : has i t -> t <> [] -> (i + length t <= end_)%nat.
Proof.
  revert i; induction t as [|c t IH]; intros i; [done|]. simpl. intros (_ & Hi & Ht) _.
  destruct t as [|d t]; [simpl; lia|]. specialize (IH (S i) Ht ltac:(done)). simpl in *. lia.
Qed.

(** Comments in front of the next value are such that [P] holds, and start with a
    slash and more; those of the values read can be stored; and the value a
    comment behind goes to is known. *)
Record quietly (P : bytes -> Prop) (s : RState) : Prop := {
  quiet_slash : commentsBefore_ s = [] \/ exists c r, commentsBefore_ s = "/"%char :: c :: r;
  quiet_comments : P (commentsBefore_ s);
  quiet_notes : line_comments (notes_ s);
  quiet_last : is_Some (lastValueEnd_ s) -> is_Some (lastValue_ s)
}.

Abbreviation quiet := (quietly clean).

(** What [s] is after reading up to [i]: nothing was reported. *)
Record moves (P : bytes -> Prop) (s : RState) (i : nat) (s' : RState) : Prop := {
  moved_current : current_ s' = i;
  moved_errors : errors_ s' = errors_ s;
  moved_quiet : quiet s -> quietly P s'
}.

Abbreviation moved := (moves clean).

#[local] Arguments moved_current {P} s i s' _.

Lemma moved_set s i : moved s i (set_current i s).
Proof. constructor; [done|done|]. intros [? ? ? ?]; by constructor. Qed.

Lemma moves_set P s i s' j : moves P s i s' -> moves P s j (set_current j s').
Proof. intros [? E K]; constructor; [done|done|]. intros [? ? ? ?]%K; by constructor. Qed.

Lemma moved_weaken s i s' : moved s i s' -> moves storable s i s'.
Proof.
  intros [? ? K]; constructor; [done|done|]. intros [? ? ? ?]%K; constructor; [done|by apply clean_storable|done..].
Qed.

Lemma moved_notes s i s' n :
  (line_comments (notes_ s') -> line_comments n) -> moved s i s' -> moved s i (set_notes n s').
Proof. intros Hn [? ? K]; constructor; [done|done|]. intros [? ? ? ?]%K; constructor; auto. Qed.

Lemma moved_trans {P} s1 s2 s3 i j : moved s1 i s2 -> moves P s2 j s3 -> moves P s1 j s3.
Proof. intros [? E1 K1] [? E2 K2]. constructor; [done|congruence|auto]. Qed.

Lemma moved_mark p s i s' : moved s i s' -> moved s i (mark_value cc p s').
Proof.
  intros [K1 K2 K3]. unfold mark_value. destruct cc; [|done]. constructor; [done..|].
  intros [Hs Hc Hn _]%K3. constructor; [done..|]. intros _. by eexists.
Qed.

Lemma moved_new p s i s' : moved s i s' -> moved s i (new_payload p s').
Proof. apply moved_notes, line_comments_drop. Qed.

Lemma moved_start p x s i s' : moved s i s' -> moved s i (offset_start p x s').
Proof. apply moved_notes, line_comments_offset. Qed.

Lemma moved_payload p tok s i s' : moved s i s' -> moved s i (token_payload p tok s').
Proof. intros H. by apply moved_notes, moved_start, moved_new; [apply line_comments_offset|]. Qed.

Lemma moved_end p s i s' : moved s i s' -> moved s i (end_value cc p s').
Proof. intros H. by apply moved_mark, moved_notes; [apply line_comments_offset|]. Qed.

(** ** Blanks and tokens *)

(** No blank at [i]. *)
Definition stop (i : nat) : Prop :=
  i = end_ \/ exists c, mem !! i = Some c /\ (i < end_)%nat /\ is_json_space c = false.

Lemma char_at_has i c t : has i (c :: t) -> char_at mem i = Ok c.
Proof. intros [H _]. by apply char_at_Ok. Qed.

Lemma set_current_id s : set_current (current_ s) s = s.
Proof. by destruct s. Qed.

Lemma set_current_twice i j s : set_current i (set_current j s) = set_current i s.
Proof. done. Qed.

Lemma skipSpaces_blank w s :
  blank w -> has (current_ s) w -> stop (current_ s + length w) -> (current_ s <= end_)%nat ->
  skipSpaces mem end_ s = Ok (set_current (current_ s + length w) s).
Proof.
  intros Hw Hh Hs Hc. unfold skipSpaces.
  assert (length w < left_ end_ s)%nat as Hf.
  { unfold left_. destruct w as [|c w]; [simpl; lia|]. pose proof (has_le _ _ Hh ltac:(done)). lia. }
  revert s Hh Hs Hc Hf. generalize (left_ end_). intros f. intros s. generalize (f s). clear f. revert s.
  induction Hw as [|c w Hc Hw IH]; intros s n Hh Hs Hle Hf.
  - simpl. rewrite Nat.add_0_r in *. rewrite set_current_id. destruct n as [|n]; [simpl in Hf; lia|].
    cbn [skipSpaces_loop]. destruct Hs as [->|(c & Hc & Hlt & Hsp)].
    + by rewrite Nat.eqb_refl.
    + destruct (Nat.eqb_spec (current_ s) end_); [lia|].
      rewrite (char_at_Ok _ _ _ Hc). run. by rewrite Hsp.
  - destruct n as [|n]; [simpl in Hf; lia|]. simpl in Hh. destruct Hh as (Hm & Hlt & Hh).
    cbn [skipSpaces_loop]. destruct (Nat.eqb_spec (current_ s) end_); [lia|].
    rewrite (char_at_Ok _ _ _ Hm). run. rewrite Hc.
    assert (current_ s + length (c :: w) = current_ s + 1 + length w)%nat as E by (simpl; lia).
    rewrite E in *. apply (IH (set_current (current_ s + 1) s) n); cbn [current_ set_current];
      [by rewrite Nat.add_1_r|done|lia|simpl in Hf; lia].
Qed.

Lemma getNextChar_has c t s :
  has (current_ s) (c :: t) -> getNextChar mem end_ s = Ok (c, set_current (current_ s + 1) s).
Proof.
  intros Hh. unfold getNextChar. destruct Hh as (Hm & Hlt & _).
  destruct (Nat.eqb_spec (current_ s) end_); [lia|]. by rewrite (char_at_Ok _ _ _ Hm).
Qed.

(** A token behind blanks; [ok] is what the switch finds. *)
Lemma readToken_at w c t ty j s :
  blank w -> has (current_ s) (w ++ c :: t) -> is_json_space c = false ->
  (forall s1, current_ s1 = (current_ s + length w + 1)%nat ->
     scanToken mem end_ features_ cc c s1 = Ok (ty, true, set_current j s1)) ->
  readToken mem end_ features_ cc s
  = Ok (MkToken ty (current_ s + length w) j, set_current j s).
Proof.
  intros Hw Hh Hc Hscan. unfold readToken. apply has_app in Hh as [Hh1 Hh2].
  rewrite (skipSpaces_blank w); [|done|done| |].
  - run. rewrite (getNextChar_has c t) by done. run. rewrite Hscan by (simpl; lia). by run.
  - right. exists c. destruct Hh2 as (? & ? & _). done.
  - destruct Hh2 as (_ & ? & _). lia.
Qed.

(** What [scanToken] makes of a scanner's result. *)
Definition scan_result (ty : TokenType) (r : outcome (bool * RState)) : outcome (TokenType * bool * RState) :=
  '(ok, s) ← r; Ok (ty, ok, s).

(** The single-character tokens. *)
Definition punctuation (c : ascii) : option TokenType :=
  if decide (c = "{"%char) then Some tokenObjectBegin
  else if decide (c = "}"%char) then Some tokenObjectEnd
  else if decide (c = "["%char) then Some tokenArrayBegin
  else if decide (c = "]"%char) then Some tokenArrayEnd
  else if decide (c = ","%char) then Some tokenArraySeparator
  else if decide (c = ":"%char) then Some tokenMemberSeparator
  else None.

Lemma readToken_punctuation w c t ty s :
  punctuation c = Some ty -> blank w -> has (current_ s) (w ++ c :: t) ->
  readToken mem end_ features_ cc s
  = Ok (MkToken ty (current_ s + length w) (current_ s + length w + 1),
        set_current (current_ s + length w + 1) s).
Proof.
  intros Hp Hw Hh. apply (readToken_at w c t); [done..| |].
  - unfold punctuation in Hp. repeat case_decide; simplify_eq; done.
  - intros s1 Hs1. rewrite <- Hs1, set_current_id.
    unfold punctuation in Hp. repeat case_decide; simplify_eq; reflexivity.
Qed.

(** At the end of the document. *)
Lemma readToken_end w s :
  blank w -> has (current_ s) w -> (current_ s + length w)%nat = end_ ->
  readToken mem end_ features_ cc s = Ok (MkToken tokenEndOfStream end_ end_, set_current end_ s).
Proof.
  intros Hw Hh He. unfold readToken. rewrite (skipSpaces_blank w); [|done|done|by left|lia].
  rewrite He. run. unfold getNextChar. simpl. rewrite Nat.eqb_refl. by run.
Qed.

Lemma skip_comments_none n tok s :
  type_ tok <> tokenComment -> skip_comments mem end_ features_ cc n tok s = Ok (tok, s).
Proof. intros Ht. destruct n; simpl; by rewrite decide_False. Qed.

Lemma skipCommentTokens_none s tok s' :
  readToken mem end_ features_ cc s = Ok (tok, s') -> type_ tok <> tokenComment ->
  skipCommentTokens mem end_ features_ cc s = Ok (tok, s').
Proof.
  intros E Ht. unfold skipCommentTokens. rewrite E. run.
  destruct (allowComments_ features_); [by apply skip_comments_none|done].
Qed.

Lemma comment_text_slash c r : exists t, comment_text ("/"%char :: c :: r) = Ok t.
Proof.
  unfold comment_text, json_assert.
  match goal with |- context [match last ?t with _ => _ end] =>
    set (u := match last t with Some _ => _ | None => _ end) end.
  assert (exists r', u = "/"%char :: r') as [r' ->] by (subst u; destruct (last _); [case_decide|]; eauto).
  rewrite bool_decide_false by done. by eexists.
Qed.

Lemma setComment_slash p c r slot n : exists n', setComment p ("/"%char :: c :: r) slot n = Ok n'.
Proof. unfold setComment. destruct (comment_text_slash c r) as [t ->]. by eexists. Qed.

Lemma attach_quiet p s :
  quiet s -> exists s', attachCommentsBefore cc p s = Ok s' /\ moved s (current_ s) s' /\ quiet s'.
Proof.
  intros Hs. unfold attachCommentsBefore. destruct (_ && _) eqn:E; [|by exists s; split_and!; [|constructor|]].
  apply andb_prop in E as [_ E]. rewrite negb_true_iff, bool_decide_eq_false in E.
  destruct Hs as [[?|(c & r & Ec)] Hc Hn Hl]; [done|].
  destruct (setComment_slash p c r commentBefore (notes_ s)) as [n En]. rewrite <- Ec in En. rewrite En. run.
  eexists. split; [reflexivity|].
  assert (quiet (set_commentsBefore [] (set_notes n s))).
  { constructor; [by left|apply clean_nil| |done].
    by apply (line_comments_setComment _ _ _ _ _ En (clean_storable _ Hc)). }
  split; [by constructor|done].
Qed.

(** ** Comments *)

Lemma unclosed_tail c b : unclosed (c :: b) -> unclosed b.
Proof. intros H x y ->. by apply (H (c :: x) y). Qed.

Lemma unclosed_head d b : unclosed ("*"%char :: d :: b) -> d <> "/"%char.
Proof. intros H ->. by apply (H [] b). Qed.

Lemma readCStyle_loop_has b n s :
  unclosed b -> has (current_ s) (b ++ close_mark) -> (length b < n)%nat ->
  readCStyleComment_loop mem end_ n s = Ok (set_current (current_ s + length b + 1) s).
Proof.
  revert n s; induction b as [|c b IH]; intros n s Hb Hh Hn; (destruct n as [|n]; [lia|]);
    cbn [readCStyleComment_loop].
  - pose proof (has_le _ _ Hh ltac:(done)) as Hle. cbn in Hle. destruct (Nat.ltb_spec (current_ s + 1) end_); [|lia].
    rewrite (getNextChar_has "*"%char ["/"%char]) by done. run.
    rewrite decide_True by done. destruct Hh as (_ & _ & Hh). rewrite <- Nat.add_1_r in Hh.
    cbn [current_ set_current]. rewrite (char_at_has _ _ _ Hh). run. rewrite bool_decide_true by done.
    cbn [length]. by rewrite Nat.add_0_r.
  - pose proof (has_le _ _ Hh ltac:(done)) as Hle. cbn in Hle. rewrite length_app in Hle. cbn in Hle.
    destruct (Nat.ltb_spec (current_ s + 1) end_); [|lia].
    rewrite (getNextChar_has c (b ++ close_mark)) by done. run.
    assert ((if decide (c = "*"%char)
             then d ← char_at mem (current_ s + 1); Ok (bool_decide (d = "/"%char)) else Ok false) = Ok false) as E.
    { case_decide as Hc; [|done]. destruct Hh as (_ & _ & Hh). rewrite <- Nat.add_1_r in Hh. subst c.
      destruct b as [|d b]; cbn [app] in Hh.
      - rewrite (char_at_has _ _ _ Hh). by run.
      - rewrite (char_at_has _ _ _ Hh). run. rewrite bool_decide_false; [done|]. by eapply unclosed_head. }
    cbn [current_ set_current]. rewrite E. run. destruct Hh as (_ & _ & Hh). rewrite <- Nat.add_1_r in Hh.
    rewrite (IH n (set_current (current_ s + 1) s)); [|by eapply unclosed_tail|done|cbn in Hn; lia].
    cbn [current_ length] in *. rewrite set_current_twice. do 2 f_equal. cbn [current_ set_current]. lia.
Qed.

Lemma readCStyle_has b s :
  unclosed b -> has (current_ s) (b ++ close_mark) ->
  readCStyleComment mem end_ s = Ok (true, set_current (current_ s + length b + 2) s).
Proof.
  intros Hb Hh. unfold readCStyleComment. rewrite (readCStyle_loop_has b); [|done|done|].
  - run. assert (has (current_ s + length b + 1) ["/"%char]) as Hs.
    { apply has_app in Hh as [_ (_ & _ & Hh)]. by rewrite Nat.add_1_r. }
    rewrite (getNextChar_has "/"%char []) by done. run. rewrite bool_decide_true by done.
    rewrite set_current_twice. do 3 f_equal. cbn [current_ set_current]. lia.
  - unfold left_. pose proof (has_le _ _ Hh) as Hle. rewrite length_app in Hle. cbn in Hle.
    assert (b ++ close_mark <> []) as Hne by (by destruct b). specialize (Hle Hne). lia.
Qed.

Lemma readCppStyle_has b e s :
  LF ∉ b -> CR ∉ b -> e = [LF] \/ e = CRLF -> has (current_ s) (b ++ e) ->
  readCppStyleComment mem end_ s = Ok (true, set_current (current_ s + length (b ++ e)) s).
Proof.
  intros Hl Hc He Hh. unfold readCppStyleComment.
  assert (length b < left_ end_ s)%nat as Hn.
  { unfold left_. pose proof (has_le _ _ Hh) as Hle. rewrite length_app in Hle.
    assert (b ++ e <> []) as Hne by (destruct He; subst; by destruct b). specialize (Hle Hne). lia. }
  revert s Hh Hn. generalize (left_ end_). intros f s. generalize (f s). clear f. revert s.
  induction b as [|c b IH]; intros s n Hh Hn; (destruct n as [|n]; [lia|]); cbn [readCppStyleComment_loop].
  - assert (current_ s < end_)%nat as Hlt by (destruct He as [->| ->]; destruct Hh as (_ & ? & _); done).
    destruct (Nat.eqb_spec (current_ s) end_); [lia|]. destruct He as [->| ->]; cbn [app] in *.
    + rewrite (getNextChar_has LF []) by done. run. by rewrite decide_True.
    + rewrite (getNextChar_has CR [LF]) by done. run. rewrite decide_False by done. rewrite decide_True by done.
      destruct Hh as (_ & _ & Hh). rewrite <- Nat.add_1_r in Hh. assert (Hlf := Hh). destruct Hlf as (_ & Hlt' & _).
      cbn [current_ set_current]. destruct (Nat.eqb_spec (current_ s + 1) end_); [lia|]. cbn [negb].
      rewrite (char_at_has _ _ _ Hh). run. rewrite bool_decide_true by done.
      rewrite (getNextChar_has LF []) by done. run. rewrite !set_current_twice. do 3 f_equal. cbn [current_ set_current length CRLF]. lia.
  - apply not_elem_of_cons in Hl as [Hl1 Hl2]. apply not_elem_of_cons in Hc as [Hc1 Hc2].
    assert (Hlt := Hh). destruct Hlt as (_ & Hlt & Hh'). rewrite <- Nat.add_1_r in Hh'.
    destruct (Nat.eqb_spec (current_ s) end_); [lia|]. cbn [app] in Hh.
    rewrite (getNextChar_has c (b ++ e)) by done. run. do 2 rewrite decide_False by done.
    specialize (IH Hl2 Hc2 (set_current (current_ s + 1) s) n Hh' ltac:(cbn in *; lia)).
    cbn [current_ set_current] in IH. destruct (readCppStyleComment_loop mem end_ n _) as [s1| | |]; try done.
    revert IH. run. intros [= ->]. rewrite set_current_twice. do 3 f_equal. cbn [length app]. lia.
Qed.

(** The line of the last comment may end with the text. *)
Lemma readCppStyle_end b s :
  LF ∉ b -> CR ∉ b -> has (current_ s) b -> (current_ s + length b)%nat = end_ ->
  readCppStyleComment mem end_ s = Ok (true, set_current end_ s).
Proof.
  intros Hl Hc Hh He. unfold readCppStyleComment.
  assert (length b <= left_ end_ s)%nat as Hn by (unfold left_; lia). revert Hn.
  generalize (left_ end_ s). intros n. revert s n Hh He. induction b as [|c b IH]; intros s n Hh He Hn.
  - cbn [length] in He. rewrite Nat.add_0_r in He.
    destruct n; cbn [readCppStyleComment_loop]; rewrite (proj2 (Nat.eqb_eq _ _) He); run; by rewrite <- He, set_current_id.
  - apply not_elem_of_cons in Hl as [Hl1 Hl2]. apply not_elem_of_cons in Hc as [Hc1 Hc2].
    destruct n as [|n]; [cbn in Hn; lia|]. cbn [readCppStyleComment_loop].
    assert (Hh' := Hh). destruct Hh' as (_ & Hlt & Hh'). rewrite <- Nat.add_1_r in Hh'.
    destruct (Nat.eqb_spec (current_ s) end_); [lia|]. rewrite (getNextChar_has c b) by done. run.
    do 2 rewrite decide_False by done. cbn [length] in *.
    apply (IH Hl2 Hc2 (set_current (current_ s + 1) s) n Hh'); cbn [current_ set_current]; lia.
Qed.

(** A comment at [i], which may be the last, and what can be said of the comments
    behind it. *)
Inductive comment_at : (bytes -> Prop) -> nat -> bytes -> Prop :=
  | at_comment i c : comment c -> comment_at clean i c
  | at_line i b :
      LF ∉ b -> CR ∉ b -> (i + length ("/"%char :: "/"%char :: b))%nat = end_ ->
      comment_at storable i ("/"%char :: "/"%char :: b).

Lemma comment_at_added P i c g : comment_at P i c -> clean g -> P g /\ P (g ++ normal_lines c).
Proof.
  intros [? c' Hc|? b Hl Hc _] Hg; (split; [by try apply clean_storable|]);
    [by apply clean_comment|by apply storable_line].
Qed.

Lemma comment_at_storable P i c : comment_at P i c -> storable (normal_lines c).
Proof.
  intros [? c' Hc|? b Hl Hc _].
  - by apply clean_storable, (clean_comment []); [apply clean_nil|].
  - by apply (storable_line []); [apply clean_nil|..].
Qed.

Lemma comment_at_slash P i c : comment_at P i c -> exists d r, c = "/"%char :: d :: r.
Proof. intros [? c' []|]; eauto. Qed.

Lemma comment_at_cases P i c :
  comment_at P i c ->
  comment c \/ exists b, c = "/"%char :: "/"%char :: b /\ LF ∉ b /\ CR ∉ b /\ (i + length c)%nat = end_.
Proof. intros [? c' Hc|? b Hl Hc He]; [by left|right; by exists b]. Qed.

Lemma normalizeEOL_has c i n :
  has i c -> (length c < n)%nat -> normalizeEOL_loop mem n i (i + length c) = Ok (normal_lines c).
Proof.
  revert i n; induction c as [|r IH|r IH|x r Hx IH] using normal_ind; intros i n Hh Hn;
    (destruct n as [|n]; [lia|]); cbn [normalizeEOL_loop length] in *.
  - by rewrite Nat.add_0_r, Nat.eqb_refl.
  - destruct (Nat.eqb_spec i (i + S (length r))); [lia|]. rewrite (char_at_has _ _ _ Hh). run.
    rewrite decide_True by done. destruct Hh as (_ & _ & Hh). rewrite normal_cr.
    assert (i + S (length r) = S i + length r)%nat as -> by lia. rewrite !Nat.add_1_r.
    destruct r as [|y r].
    + cbn [length]. rewrite Nat.add_0_r, Nat.eqb_refl. cbn [negb]. run.
      specialize (IH (S i) n Hh ltac:(lia)). cbn [length] in IH. rewrite Nat.add_0_r in IH. rewrite IH. by run.
    + destruct (Nat.eqb_spec (S i) (S i + length (y :: r))); [cbn in *; lia|]. cbn [negb].
      rewrite (char_at_has _ _ _ Hh). run. case_bool_decide as Ey; case_decide; try done.
      * subst y. specialize (IH (S i) (S n) Hh ltac:(lia)). cbn [normalizeEOL_loop] in IH.
        destruct (Nat.eqb_spec (S i) (S i + length (LF :: r))); [cbn in *; lia|].
        rewrite (char_at_has _ _ _ Hh) in IH. revert IH. run. rewrite decide_False by done.
        rewrite normal_char, Nat.add_1_r by done. destruct (normalizeEOL_loop mem n _ _); by run.
      * rewrite (IH (S i) n Hh ltac:(lia)). by run.
  - destruct (Nat.eqb_spec i (i + S (S (length r)))); [lia|]. rewrite (char_at_has _ _ _ Hh). run.
    rewrite decide_True by done. destruct Hh as (_ & _ & Hh). rewrite !Nat.add_1_r.
    destruct (Nat.eqb_spec (S i) (i + S (S (length r)))); [lia|]. cbn [negb].
    rewrite (char_at_has _ _ _ Hh). run. rewrite bool_decide_true by done. destruct Hh as (_ & _ & Hh).
    assert (i + S (S (length r)) = S (S i) + length r)%nat as -> by lia.
    rewrite (IH (S (S i)) n Hh ltac:(lia)). run. by rewrite normal_cr, decide_True by done.
  - destruct (Nat.eqb_spec i (i + S (length r))); [lia|]. rewrite (char_at_has _ _ _ Hh). run.
    rewrite decide_False by done. destruct Hh as (_ & _ & Hh).
    assert (i + S (length r) = S i + length r)%nat as -> by lia. rewrite !Nat.add_1_r.
    rewrite (IH (S i) n Hh ltac:(lia)). run. by rewrite normal_char.
Qed.

(** What is done with a comment that was read. *)
Lemma add_comment_quiet P i t c s :
  quiet s -> comment_at P i t -> has i t -> current_ s = (i + length t)%nat ->
  exists s', (if cc then
                after ← match lastValueEnd_ s with
                        | Some e =>
                            nl ← containsNewLine mem e i;
                            if (nl : bool) then Ok false
                            else if decide (c <> "*"%char) then Ok true
                            else nl ← containsNewLine mem i (current_ s); Ok (negb nl)
                        | None => Ok false
                        end;
                s ← addComment mem cc i (current_ s) after s;
                Ok (true, s)
              else Ok (true, s)) = Ok (true, s') /\ moves P s (current_ s) s'.
Proof.
  intros Hs Ht Hh Ec. destruct (comment_at_slash _ _ _ Ht) as (d & r & Etext).
  assert (i + 1 < current_ s <= end_)%nat as Hc.
  { rewrite Ec. pose proof (has_le _ _ Hh) as Hle. rewrite Etext in *. specialize (Hle ltac:(done)). cbn [length] in *. lia. }
  destruct cc; cycle 1.
  { exists s; split; [done|]. constructor; [done..|]. intros [Hq1 Hq2 Hq3 Hq4]. constructor; [done| |done..].
    by apply (comment_at_added _ _ _ _ Ht). }
  assert (forall a b, (b <= end_)%nat -> exists nl, containsNewLine mem a b = Ok nl) as Hnl.
  { intros a b Hb. destruct (safe_Ok (fun _ => False) _ _ (containsNewLine_safe mem end_ Hmem _ a b Hb)) as [nl [E _]];
      [tauto|]. by exists nl. }
  assert (exists after, match lastValueEnd_ s with
     | Some e => nl ← containsNewLine mem e i;
         if (nl : bool) then Ok false
         else if decide (c <> "*"%char) then Ok true
         else nl ← containsNewLine mem i (current_ s); Ok (negb nl)
     | None => Ok false end = Ok after /\ (after = true -> is_Some (lastValueEnd_ s))) as (after & -> & Ha).
  { destruct (lastValueEnd_ s) as [e|]; [|by eexists].
    destruct (Hnl e i ltac:(lia)) as [nl ->]. run. destruct nl; [by eexists|].
    case_decide; [eexists; split; [done|by intros _; eexists]|].
    destruct (Hnl i (current_ s) ltac:(lia)) as [nl ->]. run. eexists; split; [done|by intros _; eexists]. }
  run. unfold addComment, normalizeEOL. cbn [negb].
  assert (S (current_ s - i) = S (length t))%nat as -> by lia. rewrite Ec, (normalizeEOL_has t) by (done || lia). run.
  assert (exists d' r', normal_lines t = "/"%char :: d' :: r') as (d' & r' & En).
  { destruct Ht as [? t Hcom|? b _ Hcr _]; [apply normal_comment in Hcom; destruct Hcom; eauto|].
    rewrite <- (app_nil_r (_ :: _ :: b)), normal_app by (by do 2 (apply not_elem_of_cons; split; [done|])). eauto. }
  destruct Hs as [Hq1 Hq2 Hq3 Hl]. destruct (comment_at_added _ _ _ _ Ht Hq2) as [HP1 HP2]. destruct after.
  - destruct (Hl (Ha eq_refl)) as [q ->].
    destruct (setComment_slash q d' r' commentAfterOnSameLine (notes_ s)) as [n E]. rewrite <- En in E. rewrite E. run.
    eexists; split; [done|]. constructor; [done|done|]. intros _. constructor; [done|done| |done].
    by apply (line_comments_setComment _ _ _ _ _ E (comment_at_storable _ _ _ Ht)).
  - run. eexists; split; [done|]. constructor; [done|done|]. intros _. constructor; [|done..]. right.
    cbn [commentsBefore_ set_commentsBefore]. rewrite En. destruct Hq1 as [->|(c' & r'' & ->)]; cbn [app]; eauto.
Qed.

Lemma readComment_has P c s :
  comment_at P (current_ s - 1) ("/"%char :: c) -> (0 < current_ s)%nat -> has (current_ s - 1) ("/"%char :: c) ->
  quiet s -> exists s', readComment mem end_ cc s = Ok (true, s') /\ moves P s (current_ s + length c) s'.
Proof.
  intros Hc Hpos Hh Hs. unfold readComment. assert (Hhead := Hh). destruct Hhead as (Hm & _ & Hh').
  replace (S (current_ s - 1)) with (current_ s) in Hh' by lia.
  assert (forall d b s1, c = d :: b -> current_ s1 = (current_ s + length c)%nat ->
    moved s (current_ s + length c) s1 ->
    exists s', (if cc then
      after ← match lastValueEnd_ s1 with
              | Some e =>
                  nl ← containsNewLine mem e (current_ s - 1);
                  if (nl : bool) then Ok false
                  else if decide (d <> "*"%char) then Ok true
                  else nl ← containsNewLine mem (current_ s - 1) (current_ s1); Ok (negb nl)
              | None => Ok false
              end;
      s ← addComment mem cc (current_ s - 1) (current_ s1) after s1;
      Ok (true, s)
    else Ok (true, s1)) = Ok (true, s') /\ moves P s (current_ s + length c) s') as Hadd.
  { intros d b s1 Ec E1 M1.
    destruct (add_comment_quiet P (current_ s - 1) ("/"%char :: c) d s1) as (s' & E & M);
      [by apply M1|done|done|cbn [length]; lia|].
    exists s'. split; [done|]. rewrite E1 in M. by eapply moved_trans. }
  assert (forall b, c = "/"%char :: b ->
    readCppStyleComment mem end_ (set_current (current_ s + 1) s) = Ok (true, set_current (current_ s + length c) s) ->
    exists s', readComment mem end_ cc s = Ok (true, s') /\ moves P s (current_ s + length c) s') as Hline.
  { intros b Ec E. unfold readComment. rewrite (getNextChar_has "/"%char b) by (by rewrite Ec in Hh'). run.
    rewrite decide_False, decide_True by done. rewrite E. run. cbn [negb].
    eapply Hadd; [exact Ec|done|apply moved_set]. }
  assert (forall b, c = "/"%char :: b -> has (current_ (set_current (current_ s + 1) s)) b) as Hbody.
  { intros b ->. destruct Hh' as (_ & _ & Hh'). by rewrite <- Nat.add_1_r in Hh'. }
  destruct (comment_at_cases _ _ _ Hc) as [Hcom|(b & [= ->] & Hl & Hcr & He)];
    [inversion Hcom as [b Hb Ec|b e Hl Hcr He Ec]; subst c|].
  - rewrite (getNextChar_has "*"%char (b ++ close_mark)) by done. run. rewrite decide_True by done.
    assert (has (current_ (set_current (current_ s + 1) s)) (b ++ close_mark)) as Hb'
      by (destruct Hh' as (_ & _ & Hh'); by rewrite <- Nat.add_1_r in Hh').
    rewrite (readCStyle_has b) by done. run. cbn [negb].
    rewrite set_current_twice. eapply Hadd; [done| |];
      [|replace (current_ s + length _)%nat with (current_ s + 1 + length b + 2)%nat; [apply moved_set|]];
      cbn [current_ set_current length]; rewrite length_app; cbn; lia.
  - apply (Hline (b ++ e)); [done|].
    rewrite (readCppStyle_has b e) by (done || by apply Hbody).
    rewrite set_current_twice. do 3 f_equal. cbn [current_ set_current length]. lia.
  - apply (Hline b); [done|]. cbn [length] in He.
    rewrite (readCppStyle_end b); [|done|done|by apply Hbody|cbn [current_ set_current]; lia].
    rewrite set_current_twice. do 3 f_equal. cbn [length]. lia.
Qed.

(** A comment behind blanks is a token. *)
Lemma readToken_comment P w c t s :
  blank w -> comment_at P (current_ s + length w) c -> has (current_ s) (w ++ c ++ t) -> quiet s ->
  exists tok s', readToken mem end_ features_ cc s = Ok (tok, s') /\ type_ tok = tokenComment /\
    moves P s (current_ s + length w + length c) s'.
Proof.
  intros Hw Hc Hh Hs.
  assert (exists c', c = "/"%char :: c') as [c' ->] by (destruct (comment_at_slash _ _ _ Hc) as (? & ? & ->); eauto).
  apply has_app in Hh as [Hh1 Hh2]. assert (Hlt := Hh2). destruct Hlt as (Hm & Hlt & _). unfold readToken.
  rewrite (skipSpaces_blank w); [|done|done|right; by eexists|lia]. run.
  rewrite (getNextChar_has "/"%char (c' ++ t)) by done. run.
  rewrite set_current_twice. cbn [current_ set_current].
  set (s1 := set_current (current_ s + length w + 1) s). assert (moved s (current_ s + length w + 1) s1) as M1 by apply moved_set.
  assert (current_ s1 - 1 = current_ s + length w)%nat as Ei by (cbn; lia).
  destruct (readComment_has P c' s1) as (s2 & E & M2); [by rewrite Ei|cbn; lia| |by apply M1|].
  { rewrite Ei. by apply has_app in Hh2 as [Hh2 _]. }
  unfold scanToken. repeat (rewrite decide_False by done). rewrite decide_True by done. rewrite E. run.
  eexists _, s2. split_and!; [done|done|]. cbn [current_ set_current s1] in M2.
  replace (current_ s + length w + length ("/"%char :: c'))%nat with (current_ s + length w + 1 + length c')%nat
    by (cbn; lia).
  by eapply moved_trans.
Qed.

(** Blanks and comments in front of a token: the state in front of the last
    blanks, and how the reader comes to the token behind them. *)
Definition token_behind (s : RState) (tok : Token) (s2 : RState) : Prop :=
  exists t0 s0, readToken mem end_ features_ cc s = Ok (t0, s0) /\
    (type_ t0 = tokenComment \/ t0 = tok) /\
    skip_comments mem end_ features_ cc (left_ end_ s0) t0 s0 = Ok (tok, s2).

Lemma skip_gap g s x :
  gap g -> has (current_ s) (g ++ x) -> quiet s ->
  exists w s1, blank w /\ moved s (current_ s1) s1 /\
    (current_ s1 + length w = current_ s + length g)%nat /\ has (current_ s1) (w ++ x) /\
    forall tok s2, readToken mem end_ features_ cc s1 = Ok (tok, s2) -> type_ tok <> tokenComment ->
      token_behind s tok s2.
Proof.
  intros Hg; revert s x.
  assert (forall s x, has (current_ s) (g ++ x) -> quiet s ->
    exists w s1, blank w /\ moved s (current_ s1) s1 /\
    (current_ s1 + length w = current_ s + length g)%nat /\ has (current_ s1) (w ++ x) /\
    forall tok s2, readToken mem end_ features_ cc s1 = Ok (tok, s2) -> type_ tok <> tokenComment ->
      exists t0 s0, readToken mem end_ features_ cc s = Ok (t0, s0) /\
        (type_ t0 = tokenComment /\ (current_ s < current_ s0 <= end_)%nat \/ t0 = tok /\ s0 = s2) /\
        forall n, (end_ - current_ s0 < n)%nat ->
          skip_comments mem end_ features_ cc n t0 s0 = Ok (tok, s2)) as G.
  { induction Hg as [w Hw|w c g Hw Hc Hg IH]; intros s x Hh Hs.
    - exists w, s. split_and!; [done|by constructor|done|done|]. intros tok s2 E Ht.
      exists tok, s2. split_and!; [done|by right|]. intros n _. by apply skip_comments_none.
    - rewrite <- !app_assoc in Hh.
      destruct (readToken_comment clean w c (g ++ x) s) as (t0 & s0 & E0 & Ht0 & M0); [done|by constructor|done..|].
      assert (Hh' := Hh). rewrite app_assoc in Hh'. apply has_app in Hh' as [Hh1 Hh2]. rewrite length_app, Nat.add_assoc in Hh2.
      pose proof (moved_current _ _ _ M0) as Ec.
      destruct (IH s0 x) as (w1 & s1 & K1 & K2 & K3 & K4 & K5); [by rewrite Ec|by apply M0|].
      exists w1, s1. split_and!; [done|by eapply moved_trans|rewrite !length_app; lia|done|].
      intros tok s2 E Ht. destruct (K5 tok s2 E Ht) as (t1 & s3 & E1 & Hor & Hskip).
      assert (1 <= length c)%nat as Hlc by (destruct Hc; cbn; lia).
      assert (w ++ c <> []) as Hne by (intros [_ ->]%app_nil; cbn in Hlc; lia).
      pose proof (has_le _ _ Hh1 Hne) as Hle. rewrite length_app in Hle.
      exists t0, s0. split_and!; [done|left; split; [done|lia]|].
      intros [|n] Hn; [lia|]. cbn [skip_comments]. rewrite decide_True by done. rewrite E1. run.
      destruct Hor as [[_ Hlt]|[-> ->]]; [apply Hskip; lia|by apply skip_comments_none]. }
  intros s x Hh Hs. destruct (G s x Hh Hs) as (w & s1 & K1 & K2 & K3 & K4 & K5).
  exists w, s1. split_and!; [done..|]. intros tok s2 E Ht. destruct (K5 tok s2 E Ht) as (t0 & s0 & E0 & Hor & Hskip).
  exists t0, s0. split_and!; [done|by destruct Hor as [[? _]|[? _]]; [left|right]|]. apply Hskip. unfold left_. lia.
Qed.

Lemma token_behind_skipped s tok s2 :
  token_behind s tok s2 -> skipCommentTokens mem end_ features_ cc s = Ok (tok, s2).
Proof using Hcomments.
  intros (t0 & s0 & E & _ & Hskip). unfold skipCommentTokens. rewrite E. run. by rewrite Hcomments.
Qed.

(** The end of the document behind blanks and comments. *)
Lemma skip_gap_end g s :
  gap_end g -> has (current_ s) g -> (current_ s + length g)%nat = end_ -> quiet s ->
  exists s2, token_behind s (MkToken tokenEndOfStream end_ end_) s2 /\ moves storable s end_ s2.
Proof.
  intros Hg. set (eos := MkToken tokenEndOfStream end_ end_).
  assert (forall s w, blank w -> has (current_ s) w -> (current_ s + length w)%nat = end_ ->
    readToken mem end_ features_ cc s = Ok (eos, set_current end_ s)) as Hend by (intros; by eapply readToken_end).
  assert (forall s, has (current_ s) g -> (current_ s + length g)%nat = end_ -> quiet s ->
    exists s2 t0 s0, readToken mem end_ features_ cc s = Ok (t0, s0) /\ moves storable s end_ s2 /\
      (type_ t0 = tokenComment /\ (current_ s < current_ s0 <= end_)%nat \/ t0 = eos /\ s0 = s2) /\
      forall n, (end_ - current_ s0 < n)%nat -> skip_comments mem end_ features_ cc n t0 s0 = Ok (eos, s2)) as G.
  { induction Hg as [w Hw|w b Hw Hl Hcr|w c g Hw Hc Hg IH]; intros s1 Hh He Hq.
    - exists (set_current end_ s1), eos, (set_current end_ s1). split_and!; [by eapply Hend|apply moved_weaken, moved_set|by right|].
      intros n _. by apply skip_comments_none.
    - rewrite length_app in He.
      destruct (readToken_comment storable w ("/"%char :: "/"%char :: b) [] s1) as (t0 & s0 & E0 & Ht0 & M0);
        [done|constructor; [done|done|lia]|by rewrite app_nil_r|done|].
      replace (current_ s1 + length w + length _)%nat with end_ in M0 by lia.
      pose proof (moved_current _ _ _ M0) as Ec. cbn [length] in He.
      exists (set_current end_ s0), t0, s0.
      split_and!; [done|by eapply moves_set|left; split; [done|lia]|].
      intros [|n] Hn; [lia|]. cbn [skip_comments]. rewrite decide_True by done.
      rewrite (Hend s0 []); [|constructor|done|cbn; lia]. run. by apply skip_comments_none.
    - assert (Hh' := Hh). rewrite app_assoc in Hh'. apply has_app in Hh' as [Hh1 Hh2].
      rewrite length_app, Nat.add_assoc in Hh2. rewrite !length_app in He.
      destruct (readToken_comment clean w c g s1) as (t0 & s0 & E0 & Ht0 & M0); [done|by constructor|done..|].
      pose proof (moved_current _ _ _ M0) as Ec. rewrite <- Ec in Hh2.
      destruct (IH s0 Hh2 ltac:(lia)) as (s2 & t1 & s3 & E1 & M2 & Hor & Hskip); [by apply M0|].
      assert (1 <= length c)%nat as Hlc by (destruct Hc; cbn; lia).
      exists s2, t0, s0. split_and!; [done|by eapply moved_trans|left; split; [done|lia]|].
      intros [|n] Hn; [lia|]. cbn [skip_comments]. rewrite decide_True by done. rewrite E1. run.
      destruct Hor as [[_ Hlt]|[-> ->]]; [apply Hskip; lia|by apply skip_comments_none]. }
  intros Hh He Hq. destruct (G s Hh He Hq) as (s2 & t0 & s0 & E0 & M & Hor & Hskip).
  exists s2. split; [|done]. exists t0, s0.
  split_and!; [done|by destruct Hor as [[? _]|[? _]]; [left|right]|]. apply Hskip. unfold left_. lia.
Qed.

(** Punctuation behind a gap. *)
Lemma gap_punctuation g c t ty s :
  punctuation c = Some ty -> gap g -> has (current_ s) (g ++ c :: t) -> quiet s ->
  exists tok s2, token_behind s tok s2 /\ type_ tok = ty /\ moved s (current_ s + length g + 1) s2.
Proof.
  intros Hp Hg Hh Hs. destruct (skip_gap g s _ Hg Hh Hs) as (w & s1 & K1 & K2 & K3 & K4 & K5).
  pose proof (readToken_punctuation w c t ty s1 Hp K1 K4) as E.
  eexists _, _. split_and!; [apply K5; [exact E|]|done|].
  - cbn. intros ->. unfold punctuation in Hp. repeat case_decide; simplify_eq.
  - replace (current_ s + length g + 1)%nat with (current_ s1 + length w + 1)%nat by lia.
    eapply moved_trans; [exact K2|apply moved_set].
Qed.

(** ** Literals *)

Lemma match_loop_has n pattern i :
  (n <= length pattern)%nat -> has i pattern -> match_loop mem n i pattern = Ok true.
Proof.
  induction n as [|n IH]; intros Hn Hh; [done|]. cbn [match_loop].
  destruct (lookup_lt_is_Some_2 pattern n ltac:(lia)) as [p Hp].
  assert (mem !! (i + n)%nat = Some p) as Hm.
  { rewrite <- (take_drop_middle pattern n p Hp) in Hh. apply has_app in Hh as [_ Hh].
    rewrite length_take_le in Hh by lia. by destruct Hh. }
  rewrite (char_at_Ok _ _ _ Hm), (char_at_Ok _ _ _ Hp). run.
  rewrite decide_False by auto. apply IH; [lia|done].
Qed.

Lemma match_has pattern s :
  has (current_ s) pattern -> pattern <> [] ->
  match_ mem end_ pattern s = Ok (true, set_current (current_ s + length pattern) s).
Proof.
  intros Hh Hn. pose proof (has_le _ _ Hh Hn). unfold match_.
  destruct (Nat.ltb_spec (end_ - current_ s) (length pattern)); [lia|].
  by rewrite match_loop_has.
Qed.

Lemma readToken_literal w c t ty s :
  (c, t, ty) ∈ [("t"%char, bs "rue", tokenTrue); ("f"%char, bs "alse", tokenFalse);
                ("n"%char, bs "ull", tokenNull)] ->
  blank w -> has (current_ s) (w ++ c :: t) ->
  readToken mem end_ features_ cc s
  = Ok (MkToken ty (current_ s + length w) (current_ s + length w + length (c :: t)),
        set_current (current_ s + length w + length (c :: t)) s).
Proof.
  intros Hin Hw Hh. apply (readToken_at w c t); [done|done| |].
  - repeat (apply elem_of_cons in Hin as [[= -> -> ->]|Hin]; [done|]). by apply not_elem_of_nil in Hin.
  - intros s1 Hs1. apply has_app in Hh as [_ (_ & _ & Hh)].
    rewrite <- Nat.add_1_r, <- Hs1 in Hh.
    replace (current_ s + length w + length (c :: t))%nat with (current_ s1 + length t)%nat
      by (simpl; lia).
    assert (forall ty, scan_result ty (match_ mem end_ t s1) = Ok (ty, true, set_current (current_ s1 + length t) s1)) as Hm.
    { intros ty'. unfold scan_result. rewrite match_has; [done|done|].
      repeat (apply elem_of_cons in Hin as [[= -> -> ->]|Hin]; [done|]). by apply not_elem_of_nil in Hin. }
    repeat (apply elem_of_cons in Hin as [[= -> -> ->]|Hin]; [exact (Hm _)|]).
    by apply not_elem_of_nil in Hin.
Qed.

(** ** Strings *)

(** No quote in [t] but behind a backslash. *)
Inductive closed : bytes -> Prop :=
  | closed_end : closed []
  | closed_char c t : c <> DQUOTE -> c <> "\"%char -> closed t -> closed (c :: t)
  | closed_escape e t : closed t -> closed ("\"%char :: e :: t).

Lemma hex_value_closed q u acc t : hex_value q acc = Some u -> closed t -> closed (q ++ t).
Proof.
  revert acc; induction q as [|c q IH]; intros acc Hq Ht; [done|]. cbn [hex_value] in Hq.
  rewrite nibble_hex_digit in Hq. destruct (hex_digit c) as [d|] eqn:E; [|done].
  cbn [app]. apply closed_char; [by intros ->|by intros ->|]. by eapply IH.
Qed.

Lemma encodes_closed s t : encodes s t -> closed t.
Proof.
  induction 1 as [|c s t H1 H2 _ IH|e c s t _ _ IH|q u s t [_ Hq] _ _ IH|q r hi lo s t [_ Hq] _ [_ Hr] _ _ IH];
    [constructor|by constructor|by constructor|..].
  - apply closed_escape. by eapply hex_value_closed.
  - apply closed_escape. eapply hex_value_closed; [done|]. apply closed_escape. by eapply hex_value_closed.
Qed.

Lemma readString_loop_closed t n c s :
  closed t -> has (current_ s) (t ++ [DQUOTE]) -> (length t < n)%nat ->
  readString_loop mem end_ n DQUOTE c s = Ok (DQUOTE, set_current (current_ s + length t + 1) s).
Proof.
  intros Ht. revert n c s.
  induction Ht as [|d t H1 H2 Ht IH|e t Ht IH]; intros n c s Hh Hn; (destruct n as [|n]; [simpl in Hn; lia|]);
    cbn [readString_loop]; (destruct (Nat.eqb_spec (current_ s) end_); [destruct Hh; lia|]).
  - rewrite (getNextChar_has _ _ _ Hh). run. rewrite decide_False by done. rewrite decide_True by done.
    by rewrite Nat.add_0_r.
  - rewrite (getNextChar_has _ _ _ Hh). run. rewrite !decide_False by done.
    destruct Hh as (_ & _ & Hh). rewrite IH; cbn [current_ set_current length] in *;
      [|by rewrite Nat.add_1_r|lia]. rewrite set_current_twice. do 3 f_equal. lia.
  - rewrite (getNextChar_has _ _ _ Hh). run. rewrite decide_True by done.
    destruct Hh as (_ & _ & Hh). rewrite <- Nat.add_1_r in Hh.
    rewrite (getNextChar_has _ _ (set_current (current_ s + 1) s) Hh). run.
    destruct Hh as (_ & _ & Hh). rewrite IH; cbn [current_ set_current length] in *;
      [|by rewrite Nat.add_1_r|lia]. rewrite !set_current_twice. do 3 f_equal. lia.
Qed.

Lemma readToken_string w t u s :
  closed t -> blank w -> has (current_ s) (w ++ DQUOTE :: t ++ DQUOTE :: u) ->
  readToken mem end_ features_ cc s
  = Ok (MkToken tokenString (current_ s + length w) (current_ s + length w + length t + 2),
        set_current (current_ s + length w + length t + 2) s).
Proof.
  intros Ht Hw Hh. apply (readToken_at w DQUOTE (t ++ DQUOTE :: u)); [done|done|done|].
  intros s1 Hs1. apply has_app in Hh as [_ (_ & _ & Hh)]. rewrite <- Nat.add_1_r, <- Hs1 in Hh.
  change (DQUOTE :: u) with ([DQUOTE] ++ u) in Hh. rewrite app_assoc in Hh. apply has_app in Hh as [Hh _].
  change (scan_result tokenString (readString mem end_ s1)
          = Ok (tokenString, true, set_current (current_ s + length w + length t + 2) s1)).
  unfold scan_result, readString. rewrite (readString_loop_closed t); [|done|done|].
  - run. rewrite bool_decide_true by done. do 2 f_equal. f_equal. lia.
  - pose proof (has_le _ _ Hh) as Hl. rewrite length_app in Hl. simpl in Hl.
    destruct t; simpl in *; unfold left_; lia || (specialize (Hl ltac:(done)); lia).
Qed.

Lemma hex_loop_value q i acc u :
  has i q -> hex_value q acc = Some u -> hex_loop mem (length q) i acc = Ok (Some u, (i + length q)%nat).
Proof.
  revert i acc; induction q as [|c q IH]; intros i acc Hh Hq; cbn [hex_value length hex_loop] in *.
  - rewrite Nat.add_0_r. by injection Hq as ->.
  - rewrite (char_at_has _ _ _ Hh). run. rewrite nibble_hex_digit in Hq. destruct (hex_digit c) as [d|]; [|done].
    destruct Hh as (_ & _ & Hh). rewrite Nat.add_1_r, (IH _ _ Hh Hq). do 2 f_equal. lia.
Qed.

Lemma decode_escape q u tok i e s :
  hex4 q u -> has i q -> (i + 4 <= e)%nat ->
  decodeUnicodeEscapeSequence mem tok i e s = Ok (Some u, (i + 4)%nat, s).
Proof.
  intros [Hl Hq] Hh He. unfold decodeUnicodeEscapeSequence.
  destruct (Nat.ltb_spec (e - i) 4); [lia|]. rewrite <- Hl.
  rewrite (hex_loop_value q i 0 u) by done. by run.
Qed.

Lemma has_tail i c t : has i (c :: t) -> has (i + 1) t.
Proof. rewrite Nat.add_1_r. by intros (_ & _ & H). Qed.

(** The reader's way to combine two units. *)
Lemma combine_units hi lo :
  55296 <= hi <= 56319 -> 56320 <= lo <= 57343 ->
  65536 + Z.shiftl (Z.land hi 1023) 10 + Z.land lo 1023 = 65536 + (hi - 55296) * 1024 + (lo - 56320).
Proof.
  intros Hhi Hlo. change 1023 with (Z.ones 10). rewrite !land_low, Z.shiftl_mul_pow2 by lia.
  change (2 ^ 10) with 1024.
  replace hi with (hi - 55296 + 54 * 1024) at 1 by lia. replace lo with (lo - 56320 + 55 * 1024) at 1 by lia.
  rewrite !Z.mod_add, !Z.mod_small by lia. done.
Qed.

(** What follows [\u] in a string. *)
Definition decode_unicode n tok i e dec s : outcome (option bytes * RState) :=
  '(r, j, s) ← decodeUnicodeCodePoint mem tok i e s;
  match r with
  | Some u => decodeString_loop mem n tok j e (dec ++ codePointToUTF8 u) s
  | None => Ok (None, s)
  end.

Lemma decode_backslash n tok i e dec esc t s :
  has i ("\"%char :: esc :: t) -> i <> e -> (i + 1)%nat <> e ->
  match simple_escape esc with
  | Some d => decodeString_loop mem (S n) tok i e dec s
              = decodeString_loop mem n tok (i + 2) e (dec ++ [d]) s
  | None => esc = "u"%char ->
            decodeString_loop mem (S n) tok i e dec s = decode_unicode n tok (i + 2) e dec s
  end.
Proof.
  intros Hh H1 H2. replace (i + 2)%nat with (i + 1 + 1)%nat by lia.
  pose proof (char_at_has _ _ _ Hh) as E1. pose proof (char_at_has _ _ _ (has_tail _ _ _ Hh)) as E2.
  cbn [decodeString_loop]. rewrite (proj2 (Nat.eqb_neq _ _) H1), E1. run.
  rewrite decide_False, decide_True by done. rewrite (proj2 (Nat.eqb_neq _ _) H2), E2. run.
  destruct (simple_escape esc); [done|]. intros ->. by rewrite decide_True.
Qed.

(** Shows the characters of [\u]. *)
Ltac open_escape :=
  repeat match goal with
  | H : context [bs "\u" ++ ?l] |- _ => change (bs "\u" ++ l) with ("\"%char :: "u"%char :: l) in H
  end; cbn [length] in *.

Lemma decode_unit q u n tok i e dec s :
  hex4 q u -> ~ (55296 <= u <= 56319) -> has i q -> (i + 4 <= e)%nat ->
  decode_unicode n tok i e dec s = decodeString_loop mem n tok (i + 4) e (dec ++ utf8_char u) s.
Proof.
  intros Hq Hu Hh He. rewrite <- utf8_bytes by (apply hex4_range in Hq; lia). unfold decode_unicode, decodeUnicodeCodePoint.
  rewrite (decode_escape q u) by done. run.
  by assert ((55296 <=? u) && (u <=? 56319) = false) as -> by lia.
Qed.

Lemma decode_pair q r hi lo n tok i e dec s :
  hex4 q hi -> 55296 <= hi <= 56319 -> hex4 r lo -> 56320 <= lo <= 57343 -> has i (q ++ bs "\u" ++ r) -> (i + 10 <= e)%nat ->
  decode_unicode n tok i e dec s
  = decodeString_loop mem n tok (i + 10) e
      (dec ++ utf8_char (65536 + (hi - 55296) * 1024 + (lo - 56320))) s.
Proof.
  intros Hq Hhi Hr Hlo Hh He. rewrite <- (combine_units hi lo), <- utf8_bytes
    by (rewrite ?combine_units by done; lia). apply has_app in Hh as [Hh1 Hh2]. rewrite (proj1 Hq) in Hh2.
  unfold decode_unicode, decodeUnicodeCodePoint. rewrite (decode_escape q hi) by (done || lia). run.
  assert ((55296 <=? hi) && (hi <=? 56319) = true) as -> by lia.
  destruct (Nat.ltb_spec (e - (i + 4)) 6); [lia|]. open_escape.
  rewrite (char_at_has _ _ _ Hh2). run. rewrite decide_True by done. apply has_tail in Hh2.
  rewrite (char_at_has _ _ _ Hh2). run. rewrite bool_decide_true by done. apply has_tail in Hh2.
  rewrite (decode_escape r lo) by (done || lia). run.
  by replace (i + 4 + 1 + 1 + 4)%nat with (i + 10)%nat by lia.
Qed.

Lemma decodeString_loop_encodes t x n tok i e dec s :
  encodes x t -> has i t -> e = (i + length t)%nat -> (length t <= n)%nat ->
  decodeString_loop mem n tok i e dec s = Ok (Some (dec ++ x), s).
Proof.
  intros Hx. revert n i dec.
  induction Hx as [|c x t H1 H2 _ IH|esc c x t He _ IH|q u x t Hq Hu _ IH|q r hi lo x t Hq Hhi Hr Hlo _ IH];
    intros n i dec Hh Hend Hn.
  - rewrite app_nil_r. simpl in Hend. rewrite Nat.add_0_r in Hend.
    destruct n; simpl; by rewrite Hend, Nat.eqb_refl.
  - destruct n as [|n]; [simpl in Hn; lia|]. cbn [decodeString_loop length] in *.
    destruct (Nat.eqb_spec i e); [lia|]. rewrite (char_at_has _ _ _ Hh). run.
    rewrite !decide_False by done.
    rewrite IH; [by rewrite <- app_assoc|by eapply has_tail|lia|lia].
  - destruct n as [|n]; [simpl in Hn; lia|]. cbn [length] in *.
    pose proof (decode_backslash n tok i e dec _ _ s Hh ltac:(lia) ltac:(lia)) as E. rewrite (json_escape_simple _ _ He) in E.
    rewrite E, IH; [by rewrite <- app_assoc| |lia|lia].
    do 2 apply has_tail in Hh. by rewrite <- Nat.add_assoc in Hh.
  - destruct n as [|n]; [simpl in Hn; lia|]. open_escape.
    pose proof (decode_backslash n tok i e dec _ _ s Hh ltac:(lia) ltac:(lia) eq_refl) as E.
    do 2 apply has_tail in Hh. rewrite <- Nat.add_assoc in Hh. apply has_app in Hh as [Hh1 Hh2].
    rewrite length_app, (proj1 Hq) in *. rewrite E, (decode_unit q u) by (done || (simpl; lia)).
    rewrite IH; [by rewrite <- app_assoc|done|simpl; lia|lia].
  - destruct n as [|n]; [simpl in Hn; lia|]. open_escape.
    pose proof (decode_backslash n tok i e dec _ _ s Hh ltac:(lia) ltac:(lia) eq_refl) as E.
    do 2 apply has_tail in Hh. rewrite <- Nat.add_assoc in Hh.
    change ("\"%char :: "u"%char :: r ++ t) with ((bs "\u" ++ r) ++ t) in *.
    rewrite app_assoc in *. apply has_app in Hh as [Hh1 Hh2].
    rewrite !length_app, (proj1 Hq), (proj1 Hr) in *. change (length (bs "\u")) with 2%nat in *.
    rewrite E, (decode_pair q r hi lo) by (done || (simpl; lia)).
    rewrite IH; [by rewrite <- app_assoc|done|simpl; lia|lia].
Qed.

Lemma decodeString_quoted x t ty i j s :
  encodes x t -> has i (DQUOTE :: t ++ [DQUOTE]) -> j = (i + length t + 2)%nat ->
  decodeString mem (MkToken ty i j) s = Ok (Some x, s).
Proof.
  intros Hx (_ & _ & Hh) ->. apply has_app in Hh as [Hh _]. unfold decodeString. cbn [start_ end_of].
  rewrite (decodeString_loop_encodes t x); [done|done|by rewrite Nat.add_1_r|lia|lia].
Qed.

(** ** Numbers *)

(** A number that ends at [i] does not go on there. *)
Definition number_end (i : nat) : Prop :=
  i = end_ \/ exists c, mem !! i = Some c /\ (i < end_)%nat /\
    is_digit c = false /\ c <> "."%char /\ c <> "e"%char /\ c <> "E"%char.

Lemma skip_digits_has ds n c cur p :
  all_digits ds -> has p ds -> number_end (p + length ds) -> is_digit c = true -> (length ds < n)%nat ->
  (p <= end_)%nat ->
  exists c' p', skip_digits mem end_ n (c, cur, p) = Ok (c', (p + length ds)%nat, p') /\
    c' <> "."%char /\ c' <> "e"%char /\ c' <> "E"%char.
Proof.
  intros Hds. revert n c cur p. induction Hds as [|d ds Hd Hds IH]; intros n c cur p Hh He Hc Hn Hp;
    (destruct n as [|n]; [simpl in Hn; lia|]); cbn [skip_digits]; rewrite Hc; unfold next_number_char.
  - simpl in *. rewrite Nat.add_0_r in *. destruct He as [->|(c' & Hm & Hlt & Hd & H1 & H2 & H3)].
    + rewrite Nat.ltb_irrefl. run. exists NUL, end_. split; [by destruct n|done].
    + rewrite (proj2 (Nat.ltb_lt _ _) Hlt), (char_at_Ok _ _ _ Hm). run.
      exists c', (p + 1)%nat. split; [|done]. destruct n; simpl; by rewrite Hd.
  - pose proof (char_at_has _ _ _ Hh) as E. destruct Hh as (_ & Hlt & Hh).
    rewrite (proj2 (Nat.ltb_lt _ _) Hlt), E. run.
    replace (p + length (d :: ds))%nat with (p + 1 + length ds)%nat in * by (simpl; lia).
    apply IH; [by rewrite Nat.add_1_r|done|done|simpl in Hn; lia|lia].
Qed.

Lemma readNumber_has ds b s :
  all_digits ds -> has (current_ s) ds -> number_end (current_ s + length ds) ->
  (current_ s <= end_)%nat -> (b = true -> ds <> []) ->
  readNumber mem end_ b s = Ok (true, set_current (current_ s + length ds) s).
Proof.
  intros Hds Hh He Hp Hb. unfold readNumber.
  assert ((if b && negb (current_ s =? end_)%nat
           then c ← char_at mem (current_ s); Ok (bool_decide (c = "I"%char)) else Ok false) = Ok false) as ->.
  { destruct b; [|done]. destruct ds as [|d ds]; [by destruct Hb|].
    rewrite (char_at_has _ _ _ Hh). run. apply Forall_cons in Hds as [Hd _].
    rewrite bool_decide_false by (by intros ->). by destruct (negb _). }
  run. assert (length ds < S (left_ end_ s))%nat as Hn.
  { unfold left_. destruct ds; [simpl; lia|]. pose proof (has_le _ _ Hh ltac:(done)). lia. }
  destruct (skip_digits_has ds _ "0"%char (current_ s) (current_ s) Hds Hh He eq_refl Hn Hp)
    as (c & p & -> & H1 & H2 & H3). run.
  rewrite decide_False by done. run. rewrite decide_False by (intros [?|?]; done). by run.
Qed.

Lemma scan_digits w d ds t s :
  all_digits (d :: ds) -> blank w -> has (current_ s) (w ++ d :: ds ++ t) ->
  number_end (current_ s + length w + length (d :: ds)) ->
  readToken mem end_ features_ cc s
  = Ok (MkToken tokenNumber (current_ s + length w) (current_ s + length w + length (d :: ds)),
        set_current (current_ s + length w + length (d :: ds)) s).
Proof.
  intros Hds Hw Hh He. apply Forall_cons in Hds as [Hd Hds].
  apply (readToken_at w d (ds ++ t)); [done|done| |].
  - unfold is_digit, is_json_space in *. repeat case_bool_decide; subst; done.
  - intros s1 Hs1. apply has_app in Hh as [_ (_ & Hlt & Hh)]. rewrite <- Nat.add_1_r, <- Hs1 in Hh.
    apply has_app in Hh as [Hh _]. unfold scanToken.
    repeat (rewrite decide_False by (by intros ->)). rewrite Hd.
    replace (current_ s + length w + length (d :: ds))%nat with (current_ s1 + length ds)%nat in *
      by (simpl; lia).
    rewrite (readNumber_has ds); [by run|done|done|done|lia|done].
Qed.

Lemma scan_negative w ds t s :
  all_digits ds -> ds <> [] -> blank w -> has (current_ s) (w ++ "-"%char :: ds ++ t) ->
  number_end (current_ s + length w + length ("-"%char :: ds)) ->
  readToken mem end_ features_ cc s
  = Ok (MkToken tokenNumber (current_ s + length w) (current_ s + length w + length ("-"%char :: ds)),
        set_current (current_ s + length w + length ("-"%char :: ds)) s).
Proof.
  intros Hds Hne Hw Hh He. apply (readToken_at w "-"%char (ds ++ t)); [done|done|done|].
  intros s1 Hs1. apply has_app in Hh as [_ (_ & Hlt & Hh)]. rewrite <- Nat.add_1_r, <- Hs1 in Hh.
  apply has_app in Hh as [Hh _].
  replace (current_ s + length w + length ("-"%char :: ds))%nat with (current_ s1 + length ds)%nat in *
    by (simpl; lia).
  change (scanToken mem end_ features_ cc "-"%char s1) with
    ('(number, s) ← readNumber mem end_ true s1;
     if (number : bool) then Ok (tokenNumber, true, s)
     else if allowSpecialFloats_ features_ then
       scan_result tokenNegInf (match_ mem end_ (bs "nfinity") s)
     else Ok (tokenNegInf, false, s)).
  rewrite (readNumber_has ds); [by run|done|done|done|lia|done].
Qed.

Lemma decodeNumber_loop_digits ds limit i v :
  all_digits ds -> has i ds -> 0 <= v -> digits_value ds v <= limit -> 10 <= limit < 2 ^ 64 ->
  decodeNumber_loop mem (length ds) (limit / 10) (limit mod 10) i v = Ok (Some (digits_value ds v)).
Proof.
  intros Hds. revert i v. induction Hds as [|d ds Hd Hds IH]; intros i v Hh Hv Hle Hl; [done|].
  cbn [length decodeNumber_loop digits_value] in *. rewrite (char_at_has _ _ _ Hh). run.
  rewrite Hd in *. cbn [negb]. assert (0 <= code d - 48 < 10) as Hc by (unfold is_digit in Hd; lia).
  set (w := 10 * v + (code d - 48)) in *.
  pose proof (digits_value_ge ds w Hds ltac:(lia)) as Hge.
  pose proof (Z.div_mod limit 10 ltac:(lia)) as Hdm.
  pose proof (Z.mod_pos_bound limit 10 ltac:(lia)) as Hm.
  assert (w <= limit) as Hw.
  { pose proof (Z.pow_pos_nonneg 10 (Z.of_nat (length ds)) ltac:(lia) ltac:(lia)). nia. }
  assert ((limit / 10 <=? v) && ((limit / 10 <? v) || negb (length ds =? 0)%nat || (limit mod 10 <? code d - 48))
          = false) as ->.
  { destruct (Z.leb_spec (limit / 10) v); [|done]. cbn [andb].
    destruct ds as [|d' ds]; cbn [length Nat.eqb negb orb] in *.
    - destruct (Z.ltb_spec (limit / 10) v); [lia|]. destruct (Z.ltb_spec (limit mod 10) (code d - 48)); [lia|done].
    - exfalso. rewrite Nat2Z.inj_succ, Z.pow_succ_r in Hge by lia.
      pose proof (Z.pow_pos_nonneg 10 (Z.of_nat (length ds)) ltac:(lia) ltac:(lia)). nia. }
  replace (v * 10 + (code d - 48)) with w by lia.
  assert (u64 w = w) as -> by (unfold u64; apply Z.mod_small; lia).
  rewrite IH; [done|by eapply has_tail|lia|done|done].
Qed.

Lemma i64_negate z : 0 <= z <= 2 ^ 63 -> i64 (- i64 z) = - z.
Proof.
  intros Hz. destruct (decide (z = 2 ^ 63)) as [->|]; [reflexivity|].
  unfold i64. rewrite (Z.mod_small (z + 2 ^ 63)), Z.mod_small by lia. lia.
Qed.

Lemma decodeNumber_negative ds i j ty s :
  number ds -> minInt64 <= - digits_value ds 0 -> has i ("-"%char :: ds) ->
  j = (i + length ("-"%char :: ds))%nat ->
  decodeNumber mem (MkToken ty i j) s = Ok (Some (VInt (- digits_value ds 0)), s).
Proof.
  unfold minInt64. intros [Hds Hne] Hz Hh ->. unfold decodeNumber. cbn [start_ end_of].
  rewrite (char_at_has _ _ _ Hh). run. rewrite bool_decide_true by done. cbv iota.
  replace (i + length ("-"%char :: ds) - (i + 1))%nat with (length ds) by (simpl; lia).
  pose proof (digits_value_ge ds 0 Hds ltac:(lia)).
  rewrite (decodeNumber_loop_digits _ (2 ^ 63)); [|done|by eapply has_tail|lia..]. run.
  by rewrite i64_negate by lia.
Qed.

Lemma decodeNumber_digits ds i j ty s :
  number ds -> digits_value ds 0 <= maxUInt64 -> has i ds -> j = (i + length ds)%nat ->
  decodeNumber mem (MkToken ty i j) s
  = Ok (Some (if digits_value ds 0 <=? maxInt64 then VInt (digits_value ds 0) else VUInt (digits_value ds 0)), s).
Proof.
  unfold maxUInt64. intros [Hds Hne] Hz Hh ->. unfold decodeNumber. cbn [start_ end_of].
  destruct ds as [|c ds]; [done|]. rewrite (char_at_has _ _ _ Hh). run.
  rewrite bool_decide_false by (intros ->; by apply Forall_cons in Hds as [Hd _]). cbv iota.
  replace (i + length (c :: ds) - i)%nat with (length (c :: ds)) by lia.
  unfold maxLargestUInt. rewrite (decodeNumber_loop_digits _ (2 ^ 64 - 1)); [by run|done|done|lia..].
Qed.

(** ** Values *)

Lemma map_insert_twice {K V} (lt : K -> K -> bool) `{!KeyOrder lt} k (v v' : V) m :
  map_insert lt k v (map_insert lt k v' m) = map_insert lt k v m.
Proof.
  induction m as [|[k' x] m IH]; simpl; [by rewrite key_irrefl|].
  destruct (lt k' k) eqn:E1; simpl; [by rewrite E1, IH|].
  destruct (lt k k') eqn:E2; simpl; [by rewrite key_irrefl|by rewrite E1, E2].
Qed.

Lemma resolve_then_set m k w :
  size k < 2 ^ 30 ->
  exists w0 v1, resolveReference (VObject m) k = Ok (w0, v1) /\
    member_set v1 k w = Ok (VObject (map_insert czstring_lt k w m)).
Proof.
  intros Hk. unfold member_set, resolveReference, json_assert. cbn [isNull isObject orb]. run.
  rewrite czstring_id by done.
  assert (H : forall m', map_insert czstring_lt k w m' = map_insert czstring_lt k w m ->
    ('(_, v) ← match map_find czstring_lt k m' with
               | Some w => Ok (w, VObject m')
               | None => Ok (VNull, VObject (map_insert czstring_lt k VNull m'))
               end;
     match v with VObject m => Ok (VObject (map_insert czstring_lt k w m)) | v => Ok v end)
    = Ok (VObject (map_insert czstring_lt k w m))).
  { intros m' Hm. destruct (map_find czstring_lt k m'); run; [|rewrite (map_insert_twice czstring_lt)]; by rewrite Hm. }
  destruct (map_find czstring_lt k m) eqn:E; eexists _, _; (split; [reflexivity|]); cbn [isNull isObject orb]; run;
    apply H; [done|apply map_insert_twice, _].
Qed.

Lemma index_then_set l w :
  exists w0 v1, index_ref_int (array_of l) (Z.of_nat (length l)) = Ok (w0, v1) /\
    index_set v1 (Z.of_nat (length l)) w = Ok (array_of (l ++ [w])).
Proof.
  unfold index_ref_int, index_set, index_ref, json_assert, array_of. cbn [isNull isArray orb].
  rewrite (proj2 (Z.leb_le 0 _)) by lia. run.
  rewrite (array_find_pairs 0 (Z.of_nat (length l))) by lia.
  rewrite (proj2 (lookup_ge_None l (Z.to_nat (Z.of_nat (length l) - 0)))) by lia.
  eexists _, _. split; [reflexivity|]. cbn [isNull isArray orb]. run.
  assert (E : forall w, map_insert Z.ltb (Z.of_nat (length l)) w (array_pairs 0 l) = array_pairs 0 (l ++ [w]))
    by (intros w'; exact (array_insert_end 0 w' l)).
  destruct (map_find _ _ _); run; by rewrite !(map_insert_twice Z.ltb), E.
Qed.

Lemma encodes_length x t : encodes x t -> (length x <= length t)%nat.
Proof.
  induction 1 as [|c s t _ _ _ IH|e c s t _ _ IH|q u s t [Hq _] _ _ IH|q r hi lo s t [Hq _] _ [Hr _] _ _ IH];
    rewrite ?length_app; change (length (bs "\u")) with 2%nat; cbn [length]; try lia.
  - pose proof (utf8_char_length u). lia.
  - match goal with |- context [utf8_char ?u] => pose proof (utf8_char_length u) end.
    change (length (bs "\u")) with 2%nat. lia.
Qed.

(** What follows a value. *)
Lemma number_end_char i c : mem !! i = Some c -> (i < end_)%nat ->
  is_json_space c = true \/ c ∈ bs ",]}/" -> number_end i.
Proof.
  intros Hm Hlt Hc. right. exists c. split_and!; [done|done|..]; destruct Hc as [Hc|Hc];
    try (unfold is_json_space in Hc; repeat case_bool_decide; subst; done);
    unfold bs in Hc; simpl in Hc; repeat (apply elem_of_cons in Hc as [->|Hc]; [done|]); by apply not_elem_of_nil in Hc.
Qed.

Lemma number_end_has t i :
  has i t -> (t = [] -> i = end_) ->
  (forall c u, t = c :: u -> is_json_space c = true \/ c ∈ bs ",]}/") -> number_end i.
Proof.
  intros Hh He Hc. destruct t as [|c t]; [left; by apply He|].
  destruct Hh as (Hm & Hlt & _). eapply number_end_char; [done|done|by eapply Hc].
Qed.

(** The first character of a gap and something else. *)
Lemma gap_head g x c u : gap g -> g ++ x = c :: u ->
  is_json_space c = true \/ c = "/"%char \/ (g = [] /\ x = c :: u).
Proof.
  intros Hg. assert (forall w y, blank w -> w ++ y = c :: u -> is_json_space c = true \/ (w = [] /\ y = c :: u)) as Hw.
  { intros [|d w] y Hb E; [by right|]. injection E as -> _. apply Forall_cons in Hb as [Hd _]. by left. }
  destruct Hg as [w Hb|w d g Hb Hd Hg]; intros E.
  - destruct (Hw _ _ Hb E); [by left|auto].
  - rewrite <- !app_assoc in E. destruct (Hw _ _ Hb E) as [?|[-> E']]; [by left|].
    destruct Hd; injection E' as -> _; auto.
Qed.

Lemma number_end_gap g c t i :
  gap g -> c ∈ bs ",]}" -> has i (g ++ c :: t) -> number_end i.
Proof.
  intros Hg Hc Hh. apply (number_end_has (g ++ c :: t)); [done|by destruct g|].
  intros d u E. destruct (gap_head _ _ _ _ Hg E) as [?|[->|[-> [= -> ->]]]]; [by left|right; apply slash_behind|right].
  by apply closing_behind.
Qed.

Lemma number_end_done g i : gap_end g -> has i g -> (i + length g)%nat = end_ -> number_end i.
Proof.
  intros Hg Hh He. apply (number_end_has g); [done|intros ->; simpl in He; lia|].
  intros c u ->. destruct (gap_end_head _ _ Hg) as [?| ->]; [by left|right; apply slash_behind].
Qed.

(** A value that is one token. *)
Definition token_value (ty : TokenType) (i j : nat) (v : Value) : Prop :=
  ty = tokenNull /\ v = VNull \/ ty = tokenTrue /\ v = VBool true \/ ty = tokenFalse /\ v = VBool false \/
  (ty = tokenNumber /\ forall s', decodeNumber mem (MkToken ty i j) s' = Ok (Some v, s')) \/
  (ty = tokenString /\ exists x, v = VString x /\ size x <= maxInt - 5 /\
     forall s', decodeString mem (MkToken ty i j) s' = Ok (Some x, s')).

Lemma readValue_token fuel p v0 s i j s1 s2 ty v :
  skipCommentTokens mem end_ features_ cc s = Ok (MkToken ty i j, s1) ->
  attachCommentsBefore cc p s1 = Ok s2 -> node_count p <= stackLimit_ features_ -> token_value ty i j v ->
  readValue mem end_ features_ cc (S fuel) p v0 s
  = Ok (true, v, mark_value cc p (token_payload p (MkToken ty i j) s2)).
Proof.
  intros Ht Ea Hn Hv. cbn [readValue]. rewrite (proj2 (Z.ltb_ge _ _) Hn), Ht. run. rewrite Ea. run. cbn [type_].
  destruct Hv as [[-> ->]|[[-> ->]|[[-> ->]|[[-> Hd]|(-> & x & -> & Hx & Hd)]]]]; try done.
  - rewrite Hd. by run.
  - rewrite Hd. run. unfold Value_of_string, json_assert.
    rewrite (proj2 (Z.leb_le _ _)) by (unfold maxInt in *; lia). by run.
Qed.

Lemma readValue_scalar fuel p v0 s i j s1 ty v :
  skipCommentTokens mem end_ features_ cc s = Ok (MkToken ty i j, s1) -> moved s j s1 ->
  quiet s -> node_count p <= stackLimit_ features_ -> token_value ty i j v ->
  exists s', readValue mem end_ features_ cc (S fuel) p v0 s = Ok (true, v, s') /\ moved s j s'.
Proof.
  intros Ht M1 Hq Hn Hv. destruct (attach_quiet p s1) as (s2 & Ea & M2 & _); [by apply M1|].
  assert (moved s j s2) as M by (pose proof (moved_current _ _ _ M1) as E; rewrite E in M2; by eapply moved_trans).
  eexists. split; [by eapply readValue_token|by apply moved_mark, moved_payload].
Qed.

(** *** The induction over the grammar *)

Context (Hsize : Z.of_nat end_ < 2 ^ 29).

Definition reads_value (d : nat) (v : Value) (t : bytes) : Prop :=
  forall fuel p v0 s g,
    gap g -> has (current_ s) (g ++ t) -> number_end (current_ s + length g + length t) ->
    quiet s -> (2 * length t <= fuel)%nat ->
    node_count p + Z.of_nat d <= stackLimit_ features_ ->
    exists s', readValue mem end_ features_ cc fuel p v0 s = Ok (true, v, s') /\
      moved s (current_ s + length g + length t) s'.

(** From any point within the blanks in front. *)
Definition reads_elements (d : nat) (l : list Value) (text : bytes) : Prop :=
  forall w ts fuel p l0 s,
    text = w ++ ts -> blank w -> has (current_ s) (ts ++ bs "]") -> quiet s ->
    (2 * length ts + 1 <= fuel)%nat -> (length l0 <= current_ s)%nat ->
    node_count p + 1 + Z.of_nat d <= stackLimit_ features_ ->
    exists s', array_loop mem end_ features_ cc fuel p (Z.of_nat (length l0)) (array_of l0) s
                 = Ok (true, array_of (l0 ++ l), s') /\
      moved s (current_ s + length ts + 1) s'.

Definition reads_members (d : nat) (ms : list (bytes * Value)) (ts : bytes) : Prop :=
  forall fuel p ne m0 s,
    has (current_ s) (ts ++ bs "}") -> quiet s ->
    (2 * length ts + 1 <= fuel)%nat ->
    node_count p + 1 + Z.of_nat d <= stackLimit_ features_ ->
    exists s', object_loop mem end_ features_ cc fuel p ne (VObject m0) s
                 = Ok (true, VObject (foldl (fun m kv => map_insert czstring_lt kv.1 kv.2 m) m0 ms), s') /\
      moved s (current_ s + length ts + 1) s'.

(** A text that is one token wherever it stands, and denotes [v]. *)
Record one_token (v : Value) (t : bytes) (ty : TokenType) : Prop := {
  ot_text : t <> [];
  ot_type : ty <> tokenComment;
  ot_scan w s :
    blank w -> has (current_ s) (w ++ t) -> number_end (current_ s + length w + length t) ->
    readToken mem end_ features_ cc s
    = Ok (MkToken ty (current_ s + length w) (current_ s + length w + length t),
          set_current (current_ s + length w + length t) s);
  ot_value i : has i t -> token_value ty i (i + length t) v
}.

Lemma reads_token d v t ty : one_token v t ty -> reads_value d v t.
Proof.
  intros [Hne Hty Hscan Hv] fuel p v0 s g Hg Hh He Hq Hf Hn.
  destruct fuel as [|fuel]; [destruct t; [done|simpl in Hf; lia]|].
  destruct (skip_gap g s t Hg Hh Hq) as (w & s1 & K1 & K2 & K3 & K4 & K5). rewrite <- K3 in He |- *.
  pose proof (K5 _ _ (Hscan w s1 K1 K4 He) Hty) as Ht.
  apply (readValue_scalar _ _ _ _ (current_ s1 + length w) _
           (set_current (current_ s1 + length w + length t) s1) ty); [by apply token_behind_skipped| |done|lia|].
  - eapply moved_trans; [exact K2|apply moved_set].
  - apply Hv. by apply has_app in K4 as [_ K4].
Qed.

Lemma spells_length d v t : spells d v t -> (1 <= length t)%nat.
Proof.
  destruct 1 as [| | |d [|c ds] [_ Hne] _|d ds _ _|d [|c ds] [_ Hne] _|d s t (e & _ & ->)| | | |];
    rewrite ?length_app; by (simpl; lia) || destruct Hne.
Qed.

Lemma negative_token ds :
  number ds -> minInt64 <= - digits_value ds 0 ->
  one_token (VInt (- digits_value ds 0)) ("-"%char :: ds) tokenNumber.
Proof.
  intros Hds Hz. constructor; [done|done|..].
  - intros w s Hw Hh He. destruct Hds. by apply (scan_negative w _ []); rewrite ?app_nil_r.
  - intros i Hi. do 3 right. left. split; [done|]. intros s'. by apply decodeNumber_negative.
Qed.

Lemma number_token ds v :
  number ds -> digits_value ds 0 <= maxUInt64 ->
  v = (if digits_value ds 0 <=? maxInt64 then VInt (digits_value ds 0) else VUInt (digits_value ds 0)) ->
  one_token v ds tokenNumber.
Proof.
  intros Hds Hz ->. constructor; [by destruct Hds|done|..].
  - intros w s Hw Hh He. destruct Hds as [Hd Hne]. destruct ds as [|c ds]; [done|].
    by apply (scan_digits w c ds []); rewrite ?app_nil_r.
  - intros i Hi. do 3 right. left. split; [done|]. intros s'. by apply decodeNumber_digits.
Qed.

Lemma literal_token c t ty v :
  (c, t, ty) ∈ [("t"%char, bs "rue", tokenTrue); ("f"%char, bs "alse", tokenFalse);
                ("n"%char, bs "ull", tokenNull)] ->
  ty = tokenNull /\ v = VNull \/ ty = tokenTrue /\ v = VBool true \/ ty = tokenFalse /\ v = VBool false ->
  one_token v (c :: t) ty.
Proof.
  intros Hin Hv. constructor; [done| | |unfold token_value; tauto].
  - destruct Hv as [[-> _]|[[-> _]|[-> _]]]; done.
  - intros w s Hw Hh _. by apply (readToken_literal w c t ty).
Qed.

Lemma string_token x t : quoted x t -> one_token (VString x) t tokenString.
Proof.
  intros (e & Hx & ->).
  assert (length (DQUOTE :: e ++ [DQUOTE]) = length e + 2)%nat as El by (simpl; rewrite length_app; simpl; lia).
  constructor; [done|done|..].
  - intros w s Hw Hh _. rewrite El, Nat.add_assoc. apply (readToken_string w e []); [by eapply encodes_closed|done|done].
  - intros i Hi. pose proof (has_le _ _ Hi ltac:(done)) as Hle. rewrite El in *.
    do 4 right. split; [done|]. exists x. split_and!; [done| |].
    + pose proof (encodes_length _ _ Hx). unfold size, maxInt. lia.
    + intros s'. apply (decodeString_quoted x e); [done|done|lia].
Qed.

(** The values that are not built of others. *)
Lemma scalar_token d v t :
  spells d v t -> match v with VArray _ | VObject _ => False | _ => True end -> exists ty, one_token v t ty.
Proof.
  destruct 1 as [| | |d ds Hds Hz|d ds Hds Hz|d ds Hds Hz|d s t Hq| | | |]; intros Hv; try done.
  - exists tokenNull. by apply (literal_token "n"%char (bs "ull")); [set_solver|tauto].
  - exists tokenTrue. by apply (literal_token "t"%char (bs "rue")); [set_solver|tauto].
  - exists tokenFalse. by apply (literal_token "f"%char (bs "alse")); [set_solver|tauto].
  - exists tokenNumber. apply number_token; [done|unfold maxInt64, maxUInt64 in *; lia|].
    destruct (Z.leb_spec (digits_value ds 0) maxInt64); [done|lia].
  - exists tokenNumber. by apply negative_token.
  - exists tokenNumber. apply number_token; [done|lia|]. destruct (Z.leb_spec (digits_value ds 0) maxInt64); [lia|done].
  - exists tokenString. by apply string_token.
Qed.

Lemma reads_scalar d v t :
  spells d v t -> match v with VArray _ | VObject _ => False | _ => True end -> reads_value d v t.
Proof. intros Ht Hv. destruct (scalar_token d v t Ht Hv) as [ty Hty]. by eapply reads_token. Qed.

(** A value starts with neither a blank nor a closing bracket. *)
Definition opener (c : ascii) : Prop := is_json_space c = false /\ c <> "]"%char.

Lemma digit_opener c : is_digit c = true -> opener c.
Proof.
  intros Hd. split; [|by intros ->]. unfold is_json_space. repeat case_bool_decide; subst; done.
Qed.

Lemma number_head ds : number ds -> exists c u, ds = c :: u /\ opener c.
Proof.
  intros [Hd Hne]. destruct ds as [|c u]; [done|]. apply Forall_cons in Hd as [Hd _].
  exists c, u. split; [done|by apply digit_opener].
Qed.

Lemma spells_head d v t : spells d v t -> exists c u, t = c :: u /\ opener c.
Proof.
  destruct 1 as [| | |d ds Hds _|d ds _ _|d ds Hds _|d s t (e & _ & ->)| | | |];
    first [by apply number_head|eexists _, _; split; [reflexivity|by split]].
Qed.

(** A gap in front of a value, and the blanks it starts with. *)
Lemma gap_value_head g c u :
  gap g -> opener c -> exists w c' u', g ++ c :: u = w ++ c' :: u' /\ blank w /\ opener c'.
Proof.
  intros [w Hw|w d g' Hw Hd Hg'] Hc; [by exists w, c, u|].
  destruct Hd as [b _|b e _ _ _]; exists w; rewrite <- !app_assoc; by eexists _, _.
Qed.

Lemma elements_head d l ts :
  elements d l ts -> exists w c u, ts = w ++ c :: u /\ blank w /\ opener c.
Proof.
  destruct 1 as [d v w1 t w2 Hw1 Hv _|d v w1 t w2 l ts Hw1 Hv _ _];
    destruct (spells_head _ _ _ Hv) as (c & u & -> & Hc); by apply gap_value_head.
Qed.

Lemma value_within w1 t r w ts d v :
  gap w1 -> blank w -> spells d v t -> w1 ++ t ++ r = w ++ ts ->
  exists w2, gap w2 /\ ts = w2 ++ t ++ r.
Proof.
  intros Hw1 Hw Hv E. destruct (spells_head _ _ _ Hv) as (c & u & -> & Hc & _).
  exact (gap_prefix _ _ _ _ _ Hw1 Hw Hc E).
Qed.

(** One element: the value and the token behind it. *)
Lemma element_step d v t w2 c r fuel p l0 s w ty :
  reads_value d v t -> gap w -> gap w2 -> c ∈ bs ",]}" -> punctuation c = Some ty ->
  has (current_ s) (w ++ t ++ w2 ++ c :: r) -> quiet s ->
  (2 * length t <= fuel)%nat -> node_count p + 1 + Z.of_nat d <= stackLimit_ features_ ->
  exists w0 v1 s1,
    index_ref_int (array_of l0) (Z.of_nat (length l0)) = Ok (w0, v1) /\
    readValue mem end_ features_ cc fuel (Element (Z.of_nat (length l0)) :: p) w0 s = Ok (true, v, s1) /\
    index_set v1 (Z.of_nat (length l0)) v = Ok (array_of (l0 ++ [v])) /\
    exists tok s2, token_behind s1 tok s2 /\ type_ tok = ty /\
      moved s (current_ s + length (w ++ t ++ w2) + 1) s2.
Proof.
  intros Hv Hw Hw2 Hc Hty Hh Hq Hf Hn. destruct (index_then_set l0 v) as (w0 & v1 & E1 & E2).
  rewrite app_assoc in Hh. assert (Hh' := Hh). apply has_app in Hh' as [Ha Hb].
  rewrite length_app, Nat.add_assoc in Hb.
  destruct (Hv fuel (Element (Z.of_nat (length l0)) :: p) w0 s w) as (s1 & E3 & Hm); try done.
  { by eapply number_end_gap. }
  exists w0, v1, s1. split_and!; [done..|]. pose proof (moved_current _ _ _ Hm) as M1. rewrite <- M1 in Hb.
  destruct (gap_punctuation w2 c r ty s1) as (tok & s2 & K1 & K2 & K3); [done..|by apply Hm|].
  exists tok, s2. split_and!; [done..|]. rewrite M1 in K3.
  rewrite !length_app, !Nat.add_assoc. by eapply moved_trans.
Qed.

Lemma reads_el_last d v w1 t w2 :
  gap w1 -> spells d v t -> reads_value d v t -> gap w2 -> reads_elements d [v] (w1 ++ t ++ w2).
Proof.
  intros Hw1 Hsp Hv Hw2 w ts fuel p l0 s E Hw Hh Hq Hf Hl Hn.
  destruct (value_within _ _ _ _ _ _ _ Hw1 Hw Hsp E) as (w3 & Hw3 & ->).
  destruct fuel as [|fuel]; [lia|]. rewrite <- !app_assoc in Hh. rewrite !length_app in Hf.
  destruct (element_step d v t w2 "]"%char [] fuel p l0 s w3 tokenArrayEnd)
    as (w0 & v1 & s1 & E1 & E2 & E3 & tok & s2 & (t0 & s0 & E4 & _ & E5) & Hty & Hm);
    try done; [by repeat constructor|lia|].
  exists s2. split; [|done]. rewrite array_loop_S. rewrite E1. run. rewrite E2. run. rewrite E3. run.
  rewrite E4. run. rewrite E5. run. rewrite Hty. by rewrite decide_False by (intros []; done).
Qed.

Lemma reads_el_next d v w1 t w2 l ts0 :
  gap w1 -> spells d v t -> reads_value d v t -> gap w2 -> reads_elements d l ts0 ->
  reads_elements d (v :: l) (w1 ++ t ++ w2 ++ bs "," ++ ts0).
Proof.
  intros Hw1 Hsp Hv Hw2 Hts w ts fuel p l0 s E Hw Hh Hq Hf Hl Hn.
  destruct (value_within _ _ _ _ _ _ _ Hw1 Hw Hsp E) as (w3 & Hw3 & ->).
  destruct fuel as [|fuel]; [lia|]. rewrite <- !app_assoc in Hh. rewrite !length_app in Hf.
  change (length (bs ",")) with 1%nat in Hf.
  destruct (element_step d v t w2 ","%char (ts0 ++ bs "]") fuel p l0 s w3 tokenArraySeparator)
    as (w0 & v1 & s1 & E1 & E2 & E3 & tok & s2 & (t0 & s0 & E4 & _ & E5) & Hty & Hm);
    try done; [by repeat constructor|lia|].
  assert (has (current_ s + length (w3 ++ t ++ w2) + 1) (ts0 ++ bs "]")) as Hnext.
  { replace (w3 ++ t ++ w2 ++ bs "," ++ ts0 ++ bs "]")
      with (((w3 ++ t ++ w2) ++ bs ",") ++ ts0 ++ bs "]") in Hh by (by rewrite <- !app_assoc).
    apply has_app in Hh as [_ Hh]. rewrite length_app in Hh. by rewrite Nat.add_assoc in Hh. }
  pose proof (spells_length _ _ _ Hsp) as Ht. assert (quiet s2) as Hq2 by (by apply Hm).
  pose proof (moved_current _ _ _ Hm) as M1.
  destruct (Hts [] ts0 fuel p (l0 ++ [v]) s2) as (s3 & E6 & Hm2); try done.
  - constructor.
  - by rewrite M1.
  - lia.
  - rewrite M1, !length_app. simpl. lia.
  - exists s3. split.
    + rewrite array_loop_S. rewrite E1. run. rewrite E2. run. rewrite E3. run.
      rewrite E4. run. rewrite E5. run. rewrite Hty.
      rewrite decide_False by (intros []; done). rewrite decide_False by done.
      assert (i32 (Z.of_nat (length l0) + 1) = Z.of_nat (length (l0 ++ [v]))) as ->.
      { pose proof (has_le _ _ Hh) as Hle. rewrite !length_app in *. cbn [length].
        rewrite i32_small; [lia|]. unfold INT_MIN, INT_MAX.
        assert (length l0 < end_)%nat; [|lia].
        destruct w3, t; simpl in *; try (specialize (Hle ltac:(done))); lia. }
      rewrite E6. by rewrite <- app_assoc.
    + rewrite M1 in Hm2. pose proof (moved_trans _ _ _ _ _ Hm Hm2) as Hm3.
      replace (current_ s + length (w3 ++ t ++ w2 ++ bs "," ++ ts0) + 1)%nat
        with (current_ s + length (w3 ++ t ++ w2) + 1 + length ts0 + 1)%nat; [done|].
      rewrite !length_app. change (length (bs ",")) with 1%nat. lia.
Qed.

(** A bracket that opens a value. *)
Lemma opens_value fuel p v0 s g c t ty :
  punctuation c = Some ty -> ty = tokenObjectBegin \/ ty = tokenArrayBegin ->
  gap g -> has (current_ s) (g ++ c :: t) -> quiet s -> node_count p <= stackLimit_ features_ ->
  exists s1, moved s (current_ s + length g + 1) s1 /\
  readValue mem end_ features_ cc (S fuel) p v0 s =
  if decide (ty = tokenObjectBegin) then
    '(ok, v, s) ← object_loop mem end_ features_ cc fuel p true (VObject []) s1;
    Ok (ok, v, end_value cc p s)
  else
    s ← skipSpaces mem end_ s1;
    empty ← (if negb (current_ s =? end_)%nat then
               c ← char_at mem (current_ s); Ok (bool_decide (c = "]"%char))
             else Ok false);
    if (empty : bool) then
      '(_, s) ← readToken mem end_ features_ cc s; Ok (true, VArray [], end_value cc p s)
    else
      '(ok, v, s) ← array_loop mem end_ features_ cc fuel p 0 (VArray []) s;
      Ok (ok, v, end_value cc p s).
Proof.
  intros Hp Hty Hg Hh Hq Hn.
  destruct (gap_punctuation g c t ty s) as (tok & s1 & K1 & K2 & K3); [done..|].
  destruct (attach_quiet p s1) as (s2 & Ea & M2 & _); [by apply K3|].
  rewrite (moved_current _ _ _ K3) in M2.
  exists (offset_start p (start_ tok) (new_payload p s2)). split.
  - apply moved_start, moved_new. by eapply moved_trans.
  - rewrite readValue_S, (proj2 (Z.ltb_ge _ _) Hn), (token_behind_skipped _ _ _ K1). run. rewrite Ea. run.
    rewrite K2. by destruct Hty as [->| ->].
Qed.

Lemma reads_no_elements d w0 : blank w0 -> reads_value (S d) (array_of []) (bs "[" ++ w0 ++ bs "]").
Proof.
  intros Hw0 fuel p v0 s g Hg Hh He Hq Hf Hn. rewrite !length_app in *.
  change (length (bs "[")) with 1%nat in *. change (length (bs "]")) with 1%nat in *.
  destruct fuel as [|fuel]; [lia|].
  destruct (opens_value fuel p v0 s g "["%char (w0 ++ bs "]") tokenArrayBegin) as (s1 & M1 & ->);
    [done|auto|done..|lia|].
  rewrite decide_False by done. apply has_app in Hh as [_ Hh]. apply has_tail in Hh.
  pose proof (moved_current _ _ _ M1) as Ec. rewrite <- Ec in Hh.
  assert (Hh2 := Hh). apply has_app in Hh2 as [Hh1 Hh2].
  pose proof (has_le _ _ Hh2 ltac:(done)) as Hle. change (length (bs "]")) with 1%nat in Hle.
  rewrite (skipSpaces_blank w0 s1); [|done|done| |lia].
  - run. set (s2 := set_current _ s1).
    assert (has (current_ s2) ([] ++ bs "]")) as Hh3 by done.
    rewrite (proj2 (Nat.eqb_neq _ _)) by (simpl; lia). cbn [negb].
    rewrite (char_at_has _ _ _ Hh3). run. rewrite bool_decide_true by done.
    rewrite (readToken_punctuation [] "]"%char [] tokenArrayEnd s2) by (done || constructor). run.
    eexists. split; [reflexivity|]. apply moved_end. eapply moved_trans; [exact M1|].
    replace (current_ s + length g + (1 + (length w0 + 1)))%nat with (current_ s2 + length (@nil ascii) + 1)%nat
      by (unfold s2; cbn; lia).
    unfold s2. rewrite set_current_twice. apply moved_set.
  - right. destruct Hh2 as (? & ? & _). exists "]"%char. done.
Qed.

Lemma reads_array d l t :
  elements d l t -> reads_elements d l t -> reads_value (S d) (array_of l) (bs "[" ++ t ++ bs "]").
Proof.
  intros Hl Hr fuel p v0 s g Hg Hh He Hq Hf Hn. rewrite !length_app in *.
  change (length (bs "[")) with 1%nat in *. change (length (bs "]")) with 1%nat in *.
  destruct fuel as [|fuel]; [lia|].
  destruct (opens_value fuel p v0 s g "["%char (t ++ bs "]") tokenArrayBegin) as (s1 & M1 & ->);
    [done|auto|done..|lia|].
  rewrite decide_False by done. apply has_app in Hh as [_ Hh]. apply has_tail in Hh.
  pose proof (moved_current _ _ _ M1) as Ec. rewrite <- Ec in Hh.
  destruct (elements_head _ _ _ Hl) as (w1 & c & u & -> & Hw1 & Hc1 & Hc2).
  rewrite <- app_assoc in Hh. assert (Hh2 := Hh). apply has_app in Hh2 as [Hh1 Hh2].
  cbn [app] in Hh2. rewrite length_app in *.
  pose proof (has_le _ _ Hh2 ltac:(done)) as Hle. cbn [length] in *.
  rewrite (skipSpaces_blank w1 s1); [|done|done| |simpl; lia].
  - run. set (s2 := set_current _ s1).
    rewrite (proj2 (Nat.eqb_neq _ _)) by (simpl; lia). cbn [negb].
    rewrite (char_at_has (current_ s2) _ _ Hh2). run. rewrite bool_decide_false by done.
    assert (moved s (current_ s2) s2) as M2 by (eapply moved_trans; [exact M1|apply moved_set]).
    destruct (Hr w1 (c :: u) fuel p [] s2) as (s3 & E & M3); [done..|by apply M2| |simpl; lia|lia|].
    { simpl. lia. }
    change (VArray []) with (array_of []). change 0 with (Z.of_nat (length (@nil Value))).
    rewrite E. run. eexists. split; [reflexivity|]. apply moved_end.
    pose proof (moved_trans _ _ _ _ _ M2 M3) as M4.
    replace (current_ s + length g + (1 + (length w1 + S (length u) + 1)))%nat
      with (current_ s2 + length (c :: u) + 1)%nat; [done|].
    unfold s2. cbn [current_ set_current length]. lia.
  - right. destruct Hh2 as (? & ? & _). exists c. done.
Qed.

(** A string behind a gap, and where it stands. *)
Lemma gap_string g e u s :
  closed e -> gap g -> has (current_ s) (g ++ (DQUOTE :: e ++ [DQUOTE]) ++ u) -> quiet s ->
  let i := (current_ s + length g)%nat in
  exists s', token_behind s (MkToken tokenString i (i + length e + 2)) s' /\ moved s (i + length e + 2) s' /\
    has i (DQUOTE :: e ++ [DQUOTE]) /\ has (i + length e + 2) u.
Proof.
  intros He Hg Hh Hq i. destruct (skip_gap g s _ Hg Hh Hq) as (w & s1 & K1 & K2 & K3 & K4 & K5).
  assert (has (current_ s1) (w ++ DQUOTE :: e ++ DQUOTE :: u)) as K4'
    by (cbn [app] in K4; by rewrite <- app_assoc in K4).
  pose proof (readToken_string w e u s1 He K1 K4') as E.
  unfold i. rewrite <- K3. eexists. split; [by apply K5|]. split.
  - eapply moved_trans; [exact K2|apply moved_set].
  - apply has_app in K4 as [_ K4]. apply has_app in K4 as [K4 K6]. split; [done|].
    replace (current_ s1 + length w + length e + 2)%nat
      with (current_ s1 + length w + length (DQUOTE :: e ++ [DQUOTE]))%nat; [done|].
    cbn [length]. rewrite length_app. cbn [length]. lia.
Qed.

(** The length of a member up to the token behind it. *)
Definition member_text (w1 q w2 w3 t w4 : bytes) : bytes := w1 ++ q ++ w2 ++ bs ":" ++ w3 ++ t ++ w4.

Lemma member_step d k v w1 q w2 w3 t w4 c r fuel p ne m0 s :
  gap w1 -> quoted k q -> blank w2 -> gap w3 -> reads_value d v t -> gap w4 ->
  c = ","%char \/ c = "}"%char ->
  has (current_ s) (member_text w1 q w2 w3 t w4 ++ c :: r) -> quiet s ->
  (2 * length t <= fuel)%nat -> node_count p + 1 + Z.of_nat d <= stackLimit_ features_ ->
  exists s2,
    object_loop mem end_ features_ cc (S fuel) p ne (VObject m0) s =
      (if decide (c = "}"%char) then Ok (true, VObject (map_insert czstring_lt k v m0), s2)
       else object_loop mem end_ features_ cc fuel p (bool_decide (k = []))
              (VObject (map_insert czstring_lt k v m0)) s2) /\
    moved s (current_ s + length (member_text w1 q w2 w3 t w4) + 1) s2.
Proof.
  intros Hw1 (e & He & ->) Hw2 Hw3 Hv Hw4 Hc Hh Hq Hf Hn. unfold member_text in *.
  rewrite <- !app_assoc in Hh.
  set (u2 := w2 ++ bs ":" ++ w3 ++ t ++ w4 ++ c :: r) in Hh.
  destruct (gap_string w1 e u2 s (encodes_closed _ _ He) Hw1 Hh Hq) as (s1 & (t0 & s0 & E0 & _ & E1) & M1 & Hk & Hu).
  set (j := (current_ s + length w1 + length e + 2)%nat) in *. pose proof (moved_current _ _ _ M1) as C1.
  assert (size k < 2 ^ 30) as Hks.
  { pose proof (encodes_length _ _ He). pose proof (has_le _ _ Hk ltac:(done)) as Hle.
    cbn [length] in Hle. rewrite length_app in Hle. unfold size. lia. }
  rewrite <- C1 in Hu.
  pose proof (readToken_punctuation w2 ":"%char (w3 ++ t ++ w4 ++ c :: r) tokenMemberSeparator s1 eq_refl Hw2 Hu) as E2.
  set (s2 := set_current (current_ s1 + length w2 + 1) s1) in *.
  assert (moved s (current_ s2) s2) as M2 by (eapply moved_trans; [exact M1|apply moved_set]).
  assert (has (current_ s2) (w3 ++ t ++ w4 ++ c :: r)) as Hu2.
  { apply has_app in Hu as [_ Hu]. by apply has_tail in Hu. }
  destruct (resolve_then_set m0 k v Hks) as (x & v1 & E3 & E4).
  rewrite app_assoc in Hu2. assert (Hu3 := Hu2). apply has_app in Hu3 as [Hu3 Hu4].
  rewrite length_app, Nat.add_assoc in Hu4.
  assert (c ∈ bs ",]}") as Hcin by (destruct Hc as [->| ->]; set_solver).
  destruct (Hv fuel (Member k :: p) x s2 w3) as (s3 & E5 & M3);
    [done|done|by eapply number_end_gap|by apply M2|done|done|].
  pose proof (moved_trans _ _ _ _ _ M2 M3) as M23. pose proof (moved_current _ _ _ M3) as C3. rewrite <- C3 in Hu4.
  set (ty := if decide (c = "}"%char) then tokenObjectEnd else tokenArraySeparator).
  assert (punctuation c = Some ty) as Hp by (unfold ty; by destruct Hc as [->| ->]).
  destruct (gap_punctuation w4 c r ty s3 Hp Hw4 Hu4) as (tok & s4 & (t1 & s5 & E6 & Ho & E7) & Hty & M4); [by apply M23|].
  exists s4. split.
  - rewrite object_loop_S, E0. run. rewrite E1. run.
    cbn [type_]. rewrite (bool_decide_false (tokenString = tokenObjectEnd)) by done. cbn [andb].
    unfold readName. rewrite decide_True by done.
    rewrite (decodeString_quoted k e) by (done || lia). run.
    rewrite (proj2 (Z.leb_gt _ _) Hks), Hdup. run. rewrite E2. run. cbn [type_].
    rewrite decide_False by (by intros []). rewrite E3. run. rewrite E5. run. rewrite E4. run. cbn [negb].
    rewrite E6. run.
    rewrite decide_False.
    2: { destruct Ho as [Ho|Ho]; [rewrite Ho; by intros (_ & _ & [])|]. rewrite Ho, Hty. unfold ty.
         intros (? & ? & ?); by destruct (decide _). }
    rewrite E7. run. rewrite Hty. unfold ty. by destruct (decide (c = "}"%char)).
  - rewrite C3 in M4. pose proof (moved_trans _ _ _ _ _ M23 M4) as M5.
    revert M5. unfold s2. cbn [current_ set_current]. rewrite C1. unfold j.
    match goal with |- moved _ ?a _ -> moved _ ?b _ => replace b with a; [done|] end.
    repeat (rewrite length_app || cbn [length]). change (length (bs ":")) with 1%nat. lia.
Qed.

Lemma reads_me_last d k v w1 q w2 w3 t w4 :
  gap w1 -> quoted k q -> blank w2 -> gap w3 -> reads_value d v t -> gap w4 ->
  reads_members d [(k, v)] (w1 ++ q ++ w2 ++ bs ":" ++ w3 ++ t ++ w4).
Proof.
  intros Hw1 Hq Hw2 Hw3 Hv Hw4 fuel p ne m0 s Hh Hs Hf Hn. destruct fuel as [|fuel]; [lia|].
  destruct (member_step d k v w1 q w2 w3 t w4 "}"%char [] fuel p ne m0 s)
    as (s2 & E & Hm); try done; [by right| |by exists s2; rewrite E, decide_True].
  rewrite !length_app in Hf. lia.
Qed.

Lemma reads_me_next d k v w1 q w2 w3 t w4 ms ts :
  gap w1 -> quoted k q -> blank w2 -> gap w3 -> reads_value d v t -> gap w4 ->
  reads_members d ms ts ->
  reads_members d ((k, v) :: ms) (w1 ++ q ++ w2 ++ bs ":" ++ w3 ++ t ++ w4 ++ bs "," ++ ts).
Proof.
  intros Hw1 Hq Hw2 Hw3 Hv Hw4 Hms fuel p ne m0 s Hh Hs Hf Hn. destruct fuel as [|fuel]; [lia|].
  set (u := member_text w1 q w2 w3 t w4).
  assert ((w1 ++ q ++ w2 ++ bs ":" ++ w3 ++ t ++ w4 ++ bs "," ++ ts) = u ++ ","%char :: ts) as E
    by (unfold u, member_text; by rewrite <- !app_assoc).
  rewrite E, <- app_assoc in Hh. rewrite E in Hf |- *.
  assert (length t <= length u)%nat by (unfold u, member_text; rewrite !length_app; lia).
  rewrite length_app in *. cbn [length] in *.
  destruct (member_step d k v w1 q w2 w3 t w4 ","%char (ts ++ bs "}") fuel p ne m0 s)
    as (s2 & E2 & M2); try done; [by left|lia|].
  rewrite decide_False in E2 by done. fold u in M2. pose proof (moved_current _ _ _ M2) as C2.
  destruct (Hms fuel p (bool_decide (k = [])) (map_insert czstring_lt k v m0) s2)
    as (s3 & E3 & M3); [|by apply M2|lia|done|].
  - rewrite C2. apply has_app in Hh as [_ Hh]. by apply has_tail in Hh.
  - exists s3. rewrite E2, E3. split; [done|]. rewrite C2 in M3. pose proof (moved_trans _ _ _ _ _ M2 M3) as M4.
    by replace (current_ s + (length u + S (length ts)) + 1)%nat
      with (current_ s + length u + 1 + length ts + 1)%nat by lia.
Qed.

Lemma reads_no_members d g0 : gap g0 -> reads_value (S d) (object_of []) (bs "{" ++ g0 ++ bs "}").
Proof.
  intros Hg0 fuel p v0 s g Hg Hh He Hq Hf Hn. rewrite !length_app in *.
  change (length (bs "{")) with 1%nat in *. change (length (bs "}")) with 1%nat in *.
  destruct fuel as [|[|fuel]]; [lia..|].
  destruct (opens_value (S fuel) p v0 s g "{"%char (g0 ++ bs "}") tokenObjectBegin) as (s1 & M1 & ->);
    [done|auto|done..|lia|].
  rewrite decide_True by done. apply has_app in Hh as [_ Hh]. apply has_tail in Hh.
  pose proof (moved_current _ _ _ M1) as Ec. rewrite <- Ec in Hh. rewrite object_loop_S.
  destruct (gap_punctuation g0 "}"%char [] tokenObjectEnd s1) as (tok & s2 & (t0 & s0 & E0 & _ & E1) & Hty & M2);
    [done..|by apply M1|].
  rewrite E0. run. rewrite E1. run. rewrite Hty, bool_decide_true by done. cbn [andb]. run.
  eexists. split; [reflexivity|]. apply moved_end. rewrite Ec in M2.
  pose proof (moved_trans _ _ _ _ _ M1 M2) as M3.
  by replace (current_ s + length g + (1 + (length g0 + 1)))%nat with (current_ s + length g + 1 + length g0 + 1)%nat by lia.
Qed.

Lemma reads_object d ms t :
  reads_members d ms t -> reads_value (S d) (object_of ms) (bs "{" ++ t ++ bs "}").
Proof.
  intros Hr fuel p v0 s g Hg Hh He Hq Hf Hn. rewrite !length_app in *.
  change (length (bs "{")) with 1%nat in *. change (length (bs "}")) with 1%nat in *.
  destruct fuel as [|fuel]; [lia|].
  destruct (opens_value fuel p v0 s g "{"%char (t ++ bs "}") tokenObjectBegin) as (s1 & M1 & ->);
    [done|auto|done..|lia|].
  rewrite decide_True by done. apply has_app in Hh as [_ Hh]. apply has_tail in Hh.
  pose proof (moved_current _ _ _ M1) as Ec. rewrite <- Ec in Hh.
  destruct (Hr fuel p true [] s1) as (s2 & E & M2); [done|by apply M1|lia|lia|].
  rewrite E. run. eexists. split; [reflexivity|]. apply moved_end. rewrite Ec in M2.
  pose proof (moved_trans _ _ _ _ _ M1 M2) as M3.
  by replace (current_ s + length g + (1 + (length t + 1)))%nat with (current_ s + length g + 1 + length t + 1)%nat by lia.
Qed.

Lemma reads_all :
  (forall d v t, spells d v t -> reads_value d v t) /\
  (forall d l ts, elements d l ts -> reads_elements d l ts) /\
  (forall d ms ts, members d ms ts -> reads_members d ms ts).
Proof.
  apply spells_ind3; intros.
  1-7: by apply reads_scalar; [constructor|].
  - by apply reads_no_elements.
  - by apply reads_array.
  - by apply reads_no_members.
  - by apply reads_object.
  - by apply reads_el_last.
  - by apply reads_el_next.
  - by apply reads_me_last.
  - by apply reads_me_next.
Qed.
End Reading.

(** ** Documents *)

Lemma has_take mem end_ n :
  (n <= end_)%nat -> (end_ <= length mem)%nat -> has mem end_ (end_ - n) (drop (end_ - n) (take end_ mem)).
Proof.
  induction n as [|n IH]; intros Hn Hm.
  - rewrite Nat.sub_0_r, drop_ge; [done|]. rewrite length_take. lia.
  - destruct (lookup_lt_is_Some_2 mem (end_ - S n) ltac:(lia)) as [c Hc].
    rewrite (drop_S _ c) by (rewrite lookup_take_lt by lia; done).
    split_and!; [done|lia|]. replace (S (end_ - S n)) with (end_ - n)%nat by lia. apply IH; lia.
Qed.

Lemma has_text text : has (c_str text) (length text) 0 text.
Proof.
  pose proof (has_take (c_str text) (length text) (length text) ltac:(lia)
    ltac:(unfold c_str; rewrite length_app; lia)) as H.
  rewrite Nat.sub_diag, drop_0 in H. unfold c_str in H at 2. by rewrite take_app_length in H.
Qed.

(** The reader's state at the end: nothing was reported, and what it gave to the
    values are comments. *)
Lemma document_read d v text :
  document d v text -> (d <= 999)%nat -> size text < 2 ^ 29 ->
  exists s, OurReader_parse (c_str text) (length text) default_features true VNull ∅ = Ok (true, v, s) /\
    errors_ s = [] /\ line_comments (notes_ s).
Proof.
  intros (w1 & t & w2 & Hw1 & Ht & Hw2 & Htext) Hdepth Hsize.
  set (mem := c_str text). set (end_ := length text).
  assert (end_ < length mem)%nat as Hmem by (unfold mem, c_str, end_; rewrite length_app; simpl; lia).
  pose proof (has_text text) as Hh. fold mem in Hh. fold end_ in Hh.
  assert (end_ = length w1 + length t + length w2)%nat as Hend
    by (unfold end_; rewrite Htext, !length_app; lia).
  rewrite Htext, app_assoc in Hh.
  assert (Hh' := Hh). apply has_app in Hh' as [Ha Hb]. rewrite length_app, Nat.add_assoc in Hb.
  assert (quietly clean (initial_RState ∅)) as Hq
    by (constructor; [by left|apply clean_nil|apply line_comments_empty|by intros [? [=]]]).
  destruct (proj1 (reads_all mem end_ default_features true Hmem eq_refl eq_refl Hsize) d v t Ht
              (parse_fuel end_) [] VNull (initial_RState ∅) w1) as (s & E & M);
    [done|done| |done|unfold parse_fuel; lia|simpl; lia|].
  { simpl. apply (number_end_done mem end_ Hmem w2); [done|done|lia]. }
  pose proof (moved_current _ _ _ _ M) as C. cbn [current_ initial_RState] in C. rewrite <- C in Hb.
  destruct (skip_gap_end mem end_ default_features true Hmem w2 s Hw2 Hb) as (s1 & K & M1); [lia|by apply M|].
  unfold OurReader_parse.
  change (true && allowComments_ default_features) with true. fold mem; fold end_.
  unfold parse_root. rewrite E. run. rewrite (token_behind_skipped mem end_ default_features true eq_refl _ _ _ K). run.
  change (failIfExtra_ default_features) with false. cbn [andb commentsBefore_ set_current].
  pose proof (moved_trans _ _ _ _ _ M M1) as [_ He Hq1]. destruct (Hq1 Hq) as [Hq2 Hc Hn _].
  change (strictRoot_ default_features) with false. cbn [andb].
  assert (exists n, (if negb (bool_decide (commentsBefore_ s1 = []))
     then setComment [] (commentsBefore_ s1) commentAfter (notes_ s1)
     else Ok (notes_ s1)) = Ok n /\ line_comments n) as (n & -> & Hn').
  { destruct Hq2 as [Ec|(c & r & Ec)]; rewrite Ec; [by eexists|]. cbn [bool_decide negb].
    destruct (setComment_slash [] c r commentAfter (notes_ s1)) as [n En]. exists n. split; [exact En|].
    rewrite <- Ec in En. by apply (line_comments_setComment _ _ _ _ _ En). }
  run. eexists. split; [reflexivity|]. by split.
Qed.

Lemma document_parses d v text :
  document d v text -> (d <= 999)%nat -> size text < 2 ^ 29 -> parse_json text = Ok (true, v, []).
Proof.
  intros Hdoc Hd Hs. destruct (document_read d v text Hdoc Hd Hs) as (s & E & He & _).
  rewrite parse_json_defaults. unfold OurCharReader_parse. rewrite E. run.
  unfold getFormattedErrorMessages. rewrite He. by run.
Qed.

(** A comment's text is short of its end. *)
Lemma short_unclosed c : unclosed [c].
Proof. intros x y E. apply (f_equal length) in E. rewrite !length_app in E. simpl in E. lia. Qed.

(** C5: the reader the program uses accepts every JSON text of the grammar,
    with comments of both kinds between the tokens, brackets nested at most 999
    deep and up to half a gigabyte, reports nothing, and returns the value the
    text denotes. *)
Theorem parse_json_reads_documents (d : nat) (v : Value) (text : bytes)
    (Hdoc : document d v text) (Hdepth : (d <= 999)%nat) (Hsize : size text < 2 ^ 29) :
  parse_json text = Ok (true, v, []).
Proof. by apply (document_parses d). Qed.

Lemma parse_json_reads_documents_witness :
  parse_json (bs " {" ++ [DQUOTE] ++ bs "a\n" ++ [DQUOTE] ++ bs ": /*x*/[-7 , true]} ")
  = Ok (true, object_of [(bs "a" ++ [LF], array_of [VInt (-7); VBool true])], []).
Proof.
  apply (parse_json_reads_documents 2).
  - exists (bs " "), (bs "{" ++ ([] ++ (DQUOTE :: bs "a\n" ++ [DQUOTE]) ++ [] ++ bs ":"
      ++ (bs " " ++ ("/"%char :: "*"%char :: bs "x" ++ close_mark) ++ [])
      ++ (bs "[" ++ ([] ++ bs "-7" ++ bs " " ++ bs "," ++ (bs " " ++ bs "true" ++ [])) ++ bs "]") ++ [])
      ++ bs "}"), (bs " ").
    split_and!; [by repeat constructor| |by repeat constructor|reflexivity].
    apply sp_object, me_last; try (by repeat constructor).
    + exists (bs "a\n"). split; [|reflexivity]. apply enc_char; [done..|].
      apply (enc_short "n"%char); [unfold json_escapes; set_solver|constructor].
    + apply gap_comment; [by repeat constructor|apply comment_c, short_unclosed|by repeat constructor].
    + apply sp_array, el_next; try (by repeat constructor).
      apply (sp_negative _ (bs "7")); [split; [by repeat constructor|done]|vm_compute; discriminate].
  - lia.
  - vm_compute. reflexivity.
Defined.
