(* ===== verification/JsonComments.v ===== *)
(** * Where comments go (jsoncpp.cpp, json_reader part)

    The reader collects the comments of a text and gives them to values: one on
    the line where a value ends goes to that value, all others go in front of the
    value that follows.  [gather] says so by the text alone; the reader's
    decisions, made character by character as the comments are read, agree with
    it. *)
From Stdlib Require Import ZArith Ascii String Lia.
From stdpp Require Import base tactics list gmap.
From S2P Require Import Prelude CLib JsonValue JsonNotes JsonReader JsonReaderProofs JsonGrammar JsonGap JsonParseProofs.

#[local] Open Scope Z_scope.

(** ** The comments between two tokens *)

Definition breaks_line (t : bytes) : bool := existsb (fun c => bool_decide (c = LF \/ c = CR)) t.

(** A C comment, not one that goes to the end of its line. *)
Definition is_block (c : bytes) : bool := match c with _ :: d :: _ => bool_decide (d = "*"%char) | _ => false end.

(** Comments, each behind blanks, and blanks behind them all. *)
Definition spelled (cs : list (bytes * bytes)) (w : bytes) : bytes :=
  concat ((fun '(b, c) => b ++ c) <$> cs) ++ w.

(** A comment stands behind the last value if nothing up to its end breaks the
    line, but the end of the line it may go to. *)
Definition stands_behind (line : bool) (c : bytes) : bool := line && (negb (is_block c) || negb (breaks_line c)).

(** The comments on the line of the last value, and the text of the others; on
    that line still if [line]. *)
Fixpoint gather (line : bool) (cs : list (bytes * bytes)) : list bytes * bytes :=
  match cs with
  | [] => ([], [])
  | (b, c) :: cs =>
      let line := line && negb (breaks_line b) in
      let '(behind, others) := gather (line && negb (breaks_line c)) cs in
      if stands_behind line c then (normal_lines c :: behind, others)
      else (behind, normal_lines c ++ others)
  end.

Lemma breaks_line_app t u : breaks_line (t ++ u) = breaks_line t || breaks_line u.
Proof. apply existsb_app. Qed.

(** ** Notes with one comment more *)

Definition with_comment (p : Place) (c : bytes) (slot : CommentPlacement) (n : Notes) : Notes :=
  set_meta p (MkMeta (comments_set slot (chomp c) (comments_ (meta_at p n)))
                (meta_start (meta_at p n)) (meta_limit (meta_at p n))) n.

Lemma getComment_with p c slot n q slot' :
  getComment q slot' (with_comment p c slot n)
  = if decide (q = p /\ slot' = slot) then chomp c else getComment q slot' n.
Proof.
  unfold with_comment. rewrite getComment_set. destruct (decide (p = q)) as [->|Hp].
  - unfold getComment. cbn [comments_]. destruct (comments_ (meta_at q n)) as [a|];
      destruct slot, slot'; case_decide as E; (done || (exfalso; by destruct E) || (exfalso; by apply E)).
  - rewrite decide_False by (intros [? _]; congruence). done.
Qed.

Definition slashed (c : bytes) : Prop := exists d r, c = "/"%char :: d :: r.

Lemma setComment_with p c slot n : slashed c -> setComment p c slot n = Ok (with_comment p c slot n).
Proof.
  intros (d & r & ->). destruct (setComment_slash p d r slot n) as [n' E]. rewrite E.
  by rewrite (setComment_chomp _ _ _ _ _ E).
Qed.

Lemma comment_slashed c : comment c -> slashed c.
Proof. intros [b _|b e _ _ _]; by eexists _, _. Qed.

Lemma normal_slashed c : comment c -> slashed (normal_lines c).
Proof. intros Hc. by apply comment_slashed, normal_comment. Qed.

(** ** The reader *)

(** What becomes of one comment, and of several. *)
Definition place_comment (line : bool) (c : bytes) (s : RState) : RState :=
  if stands_behind line c then
    match lastValue_ s with
    | Some q => set_notes (with_comment q (normal_lines c) commentAfterOnSameLine (notes_ s)) s
    | None => s
    end
  else set_commentsBefore (commentsBefore_ s ++ normal_lines c) s.

Fixpoint place_comments (line : bool) (cs : list (bytes * bytes)) (s : RState) : RState :=
  match cs with
  | [] => s
  | (b, c) :: cs =>
      let line := line && negb (breaks_line b) in
      place_comments (line && negb (breaks_line c)) cs
        (place_comment line c (set_current (current_ s + length b + length c) s))
  end.

Section Placing.
Context (mem : bytes) (end_ : nat) (features_ : OurFeatures).
Context (Hmem : (end_ < length mem)%nat) (Hcomments : allowComments_ features_ = true).

Abbreviation has := (has mem end_).

(** Whether [i] is on the line where the last value ends. *)
Definition on_line (s : RState) (i : nat) (line : bool) : Prop :=
  match lastValueEnd_ s with
  | None => line = false
  | Some e => exists u, has e u /\ (e + length u)%nat = i /\ line = negb (breaks_line u)
  end /\ (line = true -> is_Some (lastValue_ s)).

Lemma on_line_further s i line t :
  on_line s i line -> has i t -> on_line s (i + length t) (line && negb (breaks_line t)).
Proof.
  intros [Hl Hq] Ht. split; [|by destruct line; [intros _; apply Hq|]].
  destruct (lastValueEnd_ s) as [e|]; [|by subst line]. destruct Hl as (u & Hu & Ei & ->).
  exists (u ++ t). split_and!; [|rewrite length_app; lia|by rewrite breaks_line_app, negb_orb].
  apply has_app. split; [done|by rewrite Ei].
Qed.

Lemma containsNewLine_has t i : has i t -> containsNewLine mem i (i + length t) = Ok (breaks_line t).
Proof.
  unfold containsNewLine. replace (i + length t - i)%nat with (length t) by lia.
  revert i; induction t as [|c t IH]; intros i Hh; [done|]. cbn [length containsNewLine_loop].
  rewrite (char_at_has _ _ _ _ _ Hh). run. unfold breaks_line. cbn [existsb].
  destruct Hh as (_ & _ & Hh). rewrite <- Nat.add_1_r in Hh.
  case_decide; [by rewrite bool_decide_true|]. rewrite bool_decide_false by done. by apply IH.
Qed.

(** A comment that was read is placed by the line it stands on. *)
Lemma readComment_places c s line :
  comment ("/"%char :: c) -> (0 < current_ s)%nat -> has (current_ s - 1) ("/"%char :: c) ->
  on_line s (current_ s - 1) line ->
  readComment mem end_ true s
  = Ok (true, place_comment line ("/"%char :: c) (set_current (current_ s + length c) s)).
Proof.
  intros Hc Hpos Hh [Hl Hq]. assert (Hh' := Hh). destruct Hh' as (_ & _ & Hh').
  replace (S (current_ s - 1)) with (current_ s) in Hh' by lia.
  set (s1 := set_current (current_ s + length c) s). set (i := (current_ s - 1)%nat) in *.
  assert (current_ s1 = i + length ("/"%char :: c))%nat as E1 by (cbn; lia).
  assert (forall d b, c = d :: b -> (d = "*"%char <-> is_block ("/"%char :: c) = true) ->
    (after ← match lastValueEnd_ s1 with
             | Some e =>
                 nl ← containsNewLine mem e i;
                 if (nl : bool) then Ok false
                 else if decide (d <> "*"%char) then Ok true
                 else nl ← containsNewLine mem i (current_ s1); Ok (negb nl)
             | None => Ok false
             end;
     s ← addComment mem true i (current_ s1) after s1;
     Ok (true, s)) = Ok (true, place_comment line ("/"%char :: c) s1)) as Hadd.
  { intros d b _ Hd. rewrite E1, (containsNewLine_has _ _ Hh).
    assert (match lastValueEnd_ s1 with
      | Some e => nl ← containsNewLine mem e i; if (nl : bool) then Ok false
          else if decide (d <> "*"%char) then Ok true else nl ← Ok (breaks_line ("/"%char :: c)); Ok (negb nl)
      | None => Ok false end = Ok (stands_behind line ("/"%char :: c))) as ->.
    { change (lastValueEnd_ s1) with (lastValueEnd_ s). unfold stands_behind.
      destruct (lastValueEnd_ s) as [e|]; [|by subst line]. destruct Hl as (u & Hu & <- & ->).
      rewrite (containsNewLine_has _ _ Hu). run. destruct (breaks_line u); [done|]. cbn [negb andb].
      case_decide as Hd'.
      - destruct (is_block _); [by exfalso; apply Hd', Hd|done].
      - assert (is_block ("/"%char :: c) = true) as -> by (apply Hd; by destruct (decide (d = "*"%char))). by run. }
    run. unfold addComment, normalizeEOL. cbn [negb].
    replace (i + length ("/"%char :: c) - i)%nat with (length ("/"%char :: c)) by lia.
    rewrite (normalizeEOL_has mem end_ Hmem) by (done || lia). run. unfold place_comment.
    destruct (stands_behind line _) eqn:Eb; [|done]. unfold stands_behind in Eb. apply andb_prop in Eb as [El _].
    change (lastValue_ s1) with (lastValue_ s). destruct (Hq El) as [q ->].
    rewrite setComment_with by (by apply normal_slashed). by run. }
  unfold readComment. inversion Hc as [b Hb Ec|b e Hb Hcr He Ec]; subst c.
  - rewrite (getNextChar_has mem end_ Hmem "*"%char (b ++ close_mark)) by done. run. rewrite decide_True by done.
    assert (has (current_ (set_current (current_ s + 1) s)) (b ++ close_mark)) as Hb'
      by (destruct Hh' as (_ & _ & Hh'); by rewrite <- Nat.add_1_r in Hh').
    rewrite (readCStyle_has mem end_ Hmem b) by done. run. cbn [negb]. rewrite set_current_twice.
    replace (current_ (set_current (current_ s + 1) s) + length b + 2)%nat
      with (current_ s + length ("*"%char :: b ++ close_mark))%nat by (cbn; rewrite length_app; cbn; lia).
    fold s1. by eapply Hadd.
  - rewrite (getNextChar_has mem end_ Hmem "/"%char (b ++ e)) by done. run. rewrite decide_False, decide_True by done.
    assert (has (current_ (set_current (current_ s + 1) s)) (b ++ e)) as Hb'
      by (destruct Hh' as (_ & _ & Hh'); by rewrite <- Nat.add_1_r in Hh').
    rewrite (readCppStyle_has mem end_ Hmem b e) by done. run. cbn [negb]. rewrite set_current_twice.
    replace (current_ (set_current (current_ s + 1) s) + length (b ++ e))%nat
      with (current_ s + length ("/"%char :: b ++ e))%nat by (cbn; lia).
    fold s1. by eapply Hadd.
Qed.

Lemma place_current line c s : current_ (place_comment line c s) = current_ s.
Proof. unfold place_comment. destruct (stands_behind _ _); [|done]. by destruct (lastValue_ s). Qed.

Lemma place_on_line line c s i l : on_line s i l -> on_line (place_comment line c s) i l.
Proof.
  assert (lastValueEnd_ (place_comment line c s) = lastValueEnd_ s /\ lastValue_ (place_comment line c s) = lastValue_ s)
    as [E1 E2] by (unfold place_comment; destruct (stands_behind _ _), (lastValue_ s) eqn:Eq; done).
  unfold on_line. by rewrite E1, E2.
Qed.

(** A comment behind blanks is a token. *)
Lemma readToken_places b c t s line :
  blank b -> comment c -> has (current_ s) (b ++ c ++ t) -> on_line s (current_ s + length b) line ->
  exists tok, readToken mem end_ features_ true s
    = Ok (tok, place_comment line c (set_current (current_ s + length b + length c) s)) /\
    type_ tok = tokenComment.
Proof.
  intros Hb Hc Hh Hl. destruct (comment_slashed c Hc) as (d & r & Ec). subst c.
  apply has_app in Hh as [Hh1 Hh2]. assert (Hlt := Hh2). destruct Hlt as (Hm & Hlt & _). unfold readToken.
  rewrite (skipSpaces_blank mem end_ Hmem b); [|done|done|right; by eexists|lia]. run.
  rewrite (getNextChar_has mem end_ Hmem "/"%char ((d :: r) ++ t)) by done. run.
  rewrite set_current_twice. cbn [current_ set_current].
  set (s1 := set_current (current_ s + length b + 1) s).
  assert (current_ s1 - 1 = current_ s + length b)%nat as Ei by (cbn; lia).
  assert (readComment mem end_ true s1 = Ok (true, place_comment line ("/"%char :: d :: r)
            (set_current (current_ s + length b + length ("/"%char :: d :: r)) s))) as E.
  { rewrite (readComment_places (d :: r) s1 line); [|done|cbn; lia| |by rewrite Ei].
    - do 3 f_equal. unfold s1. rewrite set_current_twice. f_equal. cbn. lia.
    - rewrite Ei. apply has_app in Hh2 as [Hh2 _]. exact Hh2. }
  unfold scanToken. repeat (rewrite decide_False by done). rewrite decide_True by done. rewrite E. run. by eexists.
Qed.

Definition comments_between (cs : list (bytes * bytes)) : Prop := Forall (fun '(b, c) => blank b /\ comment c) cs.

(** The token behind comments is the one that is read when they are placed. *)
Lemma skip_places cs w t s line tok s2 :
  comments_between cs -> blank w -> has (current_ s) (spelled cs w ++ t) -> on_line s (current_ s) line ->
  readToken mem end_ features_ true (place_comments line cs s) = Ok (tok, s2) -> type_ tok <> tokenComment ->
  skipCommentTokens mem end_ features_ true s = Ok (tok, s2).
Proof.
  intros Hcs Hw Hh Hl E Ht.
  assert (exists t0 s0, readToken mem end_ features_ true s = Ok (t0, s0) /\
    (type_ t0 = tokenComment /\ (current_ s < current_ s0 <= end_)%nat \/ t0 = tok /\ s0 = s2) /\
    forall n, (end_ - current_ s0 < n)%nat -> skip_comments mem end_ features_ true n t0 s0 = Ok (tok, s2))
    as (t0 & s0 & E0 & _ & Hskip).
  { revert s line Hh Hl E. induction Hcs as [|[b c] cs [Hb Hc] Hcs IH]; intros s line Hh Hl E; cbn [place_comments] in E.
    - exists tok, s2. split_and!; [done|by right|]. intros n _. by apply skip_comments_none.
    - unfold spelled in Hh. cbn [fmap list_fmap concat] in Hh. rewrite <- !app_assoc in Hh.
      rewrite (app_assoc (concat _)) in Hh. fold (spelled cs w) in Hh.
      assert (Hh' := Hh). apply has_app in Hh' as [Hhb Hhc]. apply has_app in Hhc as [Hhc Hhr].
      pose proof (on_line_further _ _ _ _ Hl Hhb) as Hl1. pose proof (on_line_further _ _ _ _ Hl1 Hhc) as Hl2.
      destruct (readToken_places b c _ s _ Hb Hc Hh Hl1) as (t0 & E0 & Ht0).
      set (s0 := place_comment _ c _) in *.
      assert (current_ s0 = (current_ s + length b + length c)%nat) as Ec by (unfold s0; by rewrite place_current).
      edestruct (IH s0) with (3 := E) as (t1 & s3 & E1 & Hor & Hskip); [by rewrite Ec|rewrite Ec; by apply place_on_line|].
      assert (1 <= length c)%nat as Hlc by (destruct Hc; cbn; lia).
      assert (c <> []) as Hne by (intros ->; cbn in Hlc; lia). pose proof (has_le mem end_ Hmem _ _ Hhc Hne) as Hle.
      exists t0, s0. split_and!; [done|left; split; [done|lia]|].
      intros [|n] Hn; [lia|]. cbn [skip_comments]. rewrite decide_True by done. rewrite E1. run.
      destruct Hor as [[_ Hlt]|[-> ->]]; [apply Hskip; lia|by apply skip_comments_none]. }
  unfold skipCommentTokens. rewrite E0. run. rewrite Hcomments. apply Hskip. unfold left_. lia.
Qed.
End Placing.

(** What all of them have become. *)
Lemma place_comments_gather cs line s :
  (line = true -> is_Some (lastValue_ s)) ->
  let s' := place_comments line cs s in
  let '(behind, others) := gather line cs in
  current_ s' = (current_ s + length (spelled cs []))%nat /\ errors_ s' = errors_ s /\
  commentsBefore_ s' = commentsBefore_ s ++ others /\
  forall q slot, getComment q slot (notes_ s')
    = match last behind with
      | Some c => if decide (lastValue_ s = Some q /\ slot = commentAfterOnSameLine) then chomp c
                  else getComment q slot (notes_ s)
      | None => getComment q slot (notes_ s)
      end.
Proof.
  revert line s. induction cs as [|[b c] cs IH]; intros line s Hq; cbn [gather place_comments].
  - cbn. by rewrite Nat.add_0_r, app_nil_r.
  - set (line1 := line && negb (breaks_line b)). set (line2 := line1 && negb (breaks_line c)).
    set (s1 := place_comment line1 c _).
    assert (line1 = true -> is_Some (lastValue_ s)) as Hq1 by (intros [? _]%andb_prop; by apply Hq).
    assert (current_ s1 = current_ s + length b + length c /\ errors_ s1 = errors_ s /\ lastValue_ s1 = lastValue_ s)%nat
      as (C1 & C2 & C3).
    { unfold s1, place_comment. destruct (stands_behind _ _); cbn; [|done]. by destruct (lastValue_ s) eqn:Eq. }
    specialize (IH line2 s1). cbn zeta in IH. destruct (gather line2 cs) as [behind others].
    destruct IH as (K1 & K2 & K3 & K4); [rewrite C3; by intros [? _]%andb_prop; apply Hq1|].
    rewrite C1, C2, C3 in *.
    assert (current_ s + length b + length c + length (spelled cs []) = current_ s + length (spelled ((b, c) :: cs) []))%nat
      as El by (unfold spelled; cbn [fmap list_fmap concat]; rewrite !app_nil_r, !length_app; lia).
    destruct (stands_behind line1 c) eqn:Eb; (split_and!; [lia|done|..]).
    + rewrite K3. unfold s1, place_comment. rewrite Eb. by destruct (lastValue_ s) eqn:Eq; cbn; rewrite ?Eq.
    + intros q slot. rewrite K4. unfold stands_behind in Eb. apply andb_prop in Eb as Eb2. destruct Eb2 as [El1 _].
      destruct (Hq1 El1) as [x Ex].
      assert (getComment q slot (notes_ s1) = if decide (lastValue_ s = Some q /\ slot = commentAfterOnSameLine)
        then chomp (normal_lines c) else getComment q slot (notes_ s)) as ->.
      { unfold s1, place_comment, stands_behind. rewrite Eb. cbn [lastValue_ set_current]. rewrite Ex. cbn [notes_ set_notes].
        rewrite getComment_with. cbn [notes_ set_current]. repeat case_decide; try done; exfalso; naive_solver. }
      rewrite last_cons. destruct (last behind); by repeat case_decide.
    + rewrite K3. unfold s1, place_comment. rewrite Eb. cbn. by rewrite app_assoc.
    + intros q slot. rewrite K4. unfold s1, place_comment. by rewrite Eb.
Qed.

Lemma getComment_drop p q slot n : getComment q slot (drop_below p n) = if below p q then [] else getComment q slot n.
Proof.
  unfold getComment, meta_at, drop_below. rewrite map_lookup_filter. destruct (n !! q) as [m|]; cbn; [|by destruct (below p q)].
  by destruct (below p q).
Qed.

Lemma getComment_offsets p q slot x y n :
  getComment q slot (set_meta p (MkMeta (comments_ (meta_at p n)) x y) n) = getComment q slot n.
Proof. rewrite getComment_set. case_decide as E; [by subst q|done]. Qed.

Lemma getComment_payload p tok s q slot :
  getComment q slot (notes_ (mark_value true p (token_payload p tok s)))
  = if below p q then [] else getComment q slot (notes_ s).
Proof.
  unfold mark_value, token_payload, token_offsets, offset_limit, offset_start, new_payload.
  cbn [notes_ set_notes set_lastValue set_lastValueEnd].
  unfold setOffsetLimit. rewrite getComment_offsets. unfold setOffsetStart. by rewrite getComment_offsets, getComment_drop.
Qed.

(** Where a value may end: in front of a blank, a comment, or what can follow in
    an array or object. *)
Definition value_ends (post : bytes) : Prop :=
  match post with [] => True | c :: _ => is_json_space c = true \/ c ∈ bs ",]}/" end.

Lemma value_ends_has mem end_ post i :
  value_ends post -> has mem end_ i post -> (i + length post)%nat = end_ -> number_end mem end_ i.
Proof.
  intros Hp Hh He. apply (number_end_has _ _ post); [done|intros ->; cbn in He; lia|]. intros c u ->. exact Hp.
Qed.

(** The reader in front of a value: what it has of the one before. *)
Record in_front (pre : bytes) (s : RState) : Prop := {
  if_current : current_ s = length pre;
  if_last e : lastValueEnd_ s = Some e -> (e <= length pre)%nat /\ is_Some (lastValue_ s);
  if_before : commentsBefore_ s = [] \/ slashed (commentsBefore_ s)
}.

Definition still_on_line (pre : bytes) (s : RState) : bool :=
  match lastValueEnd_ s with Some e => negb (breaks_line (drop e pre)) | None => false end.

Lemma in_front_line pre rest s :
  in_front pre s ->
  on_line (c_str (pre ++ rest)) (length (pre ++ rest)) s (current_ s) (still_on_line pre s).
Proof.
  intros [Hc Hl _]. pose proof (has_text (pre ++ rest)) as Hh. apply has_app in Hh as [Hh _].
  unfold still_on_line, on_line. rewrite Hc. destruct (lastValueEnd_ s) as [e|]; [|by split].
  destruct (Hl e eq_refl) as [He Hq]. split; [|done]. exists (drop e pre).
  rewrite <- (take_drop e pre) in Hh. apply has_app in Hh as [_ Hh].
  rewrite take_drop, length_take, Nat.min_l in Hh by done. rewrite length_drop. split_and!; [exact Hh|lia|done].
Qed.

(** The comments in front of a value are given to it. *)
Lemma attach_with p s :
  commentsBefore_ s = [] \/ slashed (commentsBefore_ s) ->
  exists s', attachCommentsBefore true p s = Ok s' /\ current_ s' = current_ s /\ errors_ s' = errors_ s /\
    commentsBefore_ s' = [] /\
    forall q slot, getComment q slot (notes_ s')
      = if decide (q = p /\ slot = commentBefore /\ commentsBefore_ s <> []) then chomp (commentsBefore_ s)
        else getComment q slot (notes_ s).
Proof.
  intros Hs. unfold attachCommentsBefore. cbn [andb]. destruct Hs as [E|Hs].
  - rewrite E. cbn [bool_decide negb]. exists s. split_and!; try done. intros q slot.
    by rewrite decide_False by naive_solver.
  - assert (commentsBefore_ s <> []) as Hne by (destruct Hs as (d & r & ->); done).
    rewrite bool_decide_false by done. cbn [negb]. rewrite setComment_with by done. run.
    eexists. split_and!; [reflexivity|done..|]. intros q slot. cbn [notes_ set_commentsBefore set_notes].
    rewrite getComment_with. repeat case_decide; try done; naive_solver.
Qed.

Lemma gather_slashed cs line : comments_between cs -> (gather line cs).2 = [] \/ slashed (gather line cs).2.
Proof.
  intros Hcs. revert line. induction Hcs as [|[b c] cs [_ Hc] _ IH]; intros line; [by left|]. cbn [gather].
  specialize (IH (line && negb (breaks_line b) && negb (breaks_line c))).
  destruct (gather _ cs) as [behind others]. cbn [snd] in *. destruct (stands_behind _ c); [done|right].
  destruct (normal_slashed c Hc) as (d & r & ->). by eexists _, _.
Qed.

Lemma slashed_app x y : x = [] \/ slashed x -> y = [] \/ slashed y -> x ++ y = [] \/ slashed (x ++ y).
Proof. intros [->|(d & r & ->)] Hy; [done|]. right. by eexists _, _. Qed.


(** Behind the first element of a list and the comma, a comment on the same line,
    which replaces one already there, and another in front of the second
    element. *)
Definition list_front : bytes := bs "[1 /*x*/,".
Definition list_comments : list (bytes * bytes) := [(bs " ", bs "//y" ++ [LF]); ([], bs "/*z*/")].
Definition list_state : RState :=
  MkRState 9 [] (Some 2%nat) (Some [Element 0]) []
    (with_comment [Element 0] (bs "/*x*/") commentAfterOnSameLine ∅).


(** A comment is lost when another one stands behind the same value on its line;
    the one that replaces it may have been meant for the next value. *)
Example comment_is_replaced :
  exists s, OurReader_parse (c_str (bs "[1 /*x*/, /*y*/ 2]")) 18 default_features true VNull ∅
            = Ok (true, array_of [VInt 1; VInt 2], s) /\
    getComment [Element 0] commentAfterOnSameLine (notes_ s) = bs "/*y*/" /\
    getComment [Element 1] commentBefore (notes_ s) = [].
Proof. eexists. split; [vm_compute; reflexivity|]. split; vm_compute; reflexivity. Qed.
