(* ===== verification/JsonPrintProofs.v ===== *)
(** * Texts the JSON writers print

    UTF-8 and quoted strings, the values whose text denotes them, and lemmas on
    the texts of JsonGrammar.v that the proofs about the writers share. *)
From Stdlib Require Import ZArith Ascii String Lia.
From stdpp Require Import base tactics list.
From S2P Require Import Prelude CLib CDouble JsonValue JsonValueProofs JsonReader JsonWriter.
From S2P Require Import JsonGrammar JsonGap JsonParseProofs.

#[local] Open Scope Z_scope.

(** ** UTF-8 *)

Lemma code_byte z : code (byte z) = u8 z.
Proof.
  unfold code, byte. assert (0 <= u8 z < 256) by (unfold u8; apply Z.mod_pos_bound; lia).
  rewrite N_ascii_embedding by lia. lia.
Qed.

(** The low bits of a continuation byte. *)
Lemma cont_byte s i x : s !! i = Some (byte (128 + x mod 64)) -> cont s i = x mod 64.
Proof.
  intros E. unfold cont. rewrite E, code_byte. change 63 with (Z.ones 6). rewrite land_low by lia.
  pose proof (Z.mod_pos_bound x 64 ltac:(lia)). unfold u8. rewrite (Z.mod_small (128 + _)) by lia.
  change (2 ^ 6) with 64. replace (128 + x mod 64) with (x mod 64 + 2 * 64) by lia.
  rewrite Z.mod_add by lia. by rewrite Z.mod_mod.
Qed.

(** A number from its digits in base 64. *)
Lemma split_64 x : x / 4096 * 4096 + (x / 64 mod 64 * 64 + x mod 64) = x.
Proof.
  change 4096 with (64 * 64). rewrite <- Z.div_div by lia.
  pose proof (Z.div_mod x 64 ltac:(lia)). pose proof (Z.div_mod (x / 64) 64 ltac:(lia)). lia.
Qed.

Lemma split_64_top x :
  x / 262144 * 262144 + (x / 4096 mod 64 * 4096 + (x / 64 mod 64 * 64 + x mod 64)) = x.
Proof.
  change 262144 with (64 * 4096). rewrite (Z.mul_comm 64 4096), <- Z.div_div by lia.
  pose proof (split_64 x). pose proof (Z.div_mod (x / 4096) 64 ltac:(lia)). lia.
Qed.

Lemma mod_64 x : 0 <= x mod 64 < 64.
Proof. apply Z.mod_pos_bound; lia. Qed.

Lemma lead_byte k n x : 0 <= x < k -> k <= 256 - n -> 0 <= n -> code (byte (n + x)) = n + x.
Proof. intros Hx Hk Hn. rewrite code_byte. unfold u8. apply Z.mod_small. lia. Qed.

Lemma quotient_range cp a b : 0 <= cp < a * b -> 0 < a -> 0 <= cp / a < b.
Proof. intros. split; [apply Z.div_pos; lia|apply Z.div_lt_upper_bound; lia]. Qed.

(** Reading back the two, three and four bytes of a code point. *)
Lemma utf8_decode_2 cp rest :
  128 <= cp <= 2047 ->
  utf8ToCodepoint ([byte (192 + cp / 64); byte (128 + cp mod 64)] ++ rest) = (cp, 1%nat).
Proof.
  intros Hcp. pose proof (mod_64 cp). pose proof (quotient_range cp 64 32 ltac:(lia) ltac:(lia)).
  unfold utf8ToCodepoint. cbn [app]. rewrite (lead_byte 32 192) by lia.
  destruct (Z.ltb_spec (192 + cp / 64) 128); [lia|]. destruct (Z.ltb_spec (192 + cp / 64) 224); [|lia].
  cbn [length]. destruct (Nat.ltb_spec (S (S (length rest))) 2); [lia|].
  rewrite (cont_byte _ 1 cp) by done. change 31 with (Z.ones 5). rewrite land_low by lia.
  replace (192 + cp / 64) with (cp / 64 + 6 * 2 ^ 5) by lia. rewrite Z.mod_add, Z.mod_small by lia.
  rewrite lor_high by (change (2 ^ 6) with 64; auto with lia). change (2 ^ 6) with 64.
  pose proof (Z.div_mod cp 64 ltac:(lia)). replace (cp / 64 * 64 + cp mod 64) with cp by lia.
  destruct (Z.ltb_spec cp 128); [lia|done].
Qed.

Lemma utf8_decode_3 cp rest :
  2048 <= cp <= 65535 -> ~ (55296 <= cp <= 57343) ->
  utf8ToCodepoint ([byte (224 + cp / 4096); byte (128 + cp / 64 mod 64); byte (128 + cp mod 64)] ++ rest)
  = (cp, 2%nat).
Proof.
  intros Hcp Hs. pose proof (mod_64 cp). pose proof (mod_64 (cp / 64)).
  pose proof (quotient_range cp 4096 16 ltac:(lia) ltac:(lia)).
  unfold utf8ToCodepoint. cbn [app]. rewrite (lead_byte 16 224) by lia.
  destruct (Z.ltb_spec (224 + cp / 4096) 128); [lia|]. destruct (Z.ltb_spec (224 + cp / 4096) 224); [lia|].
  destruct (Z.ltb_spec (224 + cp / 4096) 240); [|lia].
  cbn [length]. destruct (Nat.ltb_spec (S (S (S (length rest)))) 3); [lia|].
  rewrite (cont_byte _ 1 (cp / 64)), (cont_byte _ 2 cp) by done.
  change 15 with (Z.ones 4). rewrite land_low by lia.
  replace (224 + cp / 4096) with (cp / 4096 + 14 * 2 ^ 4) by lia. rewrite Z.mod_add, Z.mod_small by lia.
  rewrite <- Z.lor_assoc, (lor_high (cp / 64 mod 64) 6) by (change (2 ^ 6) with 64; auto with lia).
  change (2 ^ 6) with 64. rewrite lor_high by (change (2 ^ 12) with 4096; lia). change (2 ^ 12) with 4096.
  rewrite (split_64 cp) by lia. rewrite (proj2 (Z.ltb_ge cp 2048)) by lia.
  assert ((55296 <=? cp) && (cp <=? 57343) = false) as -> by lia. done.
Qed.

Lemma utf8_decode_4 cp rest :
  65536 <= cp <= 1114111 ->
  utf8ToCodepoint ([byte (240 + cp / 262144); byte (128 + cp / 4096 mod 64); byte (128 + cp / 64 mod 64);
                    byte (128 + cp mod 64)] ++ rest) = (cp, 3%nat).
Proof.
  intros Hcp. pose proof (mod_64 cp). pose proof (mod_64 (cp / 64)). pose proof (mod_64 (cp / 4096)).
  pose proof (quotient_range cp 262144 8 ltac:(lia) ltac:(lia)).
  unfold utf8ToCodepoint. cbn [app]. rewrite (lead_byte 8 240) by lia.
  destruct (Z.ltb_spec (240 + cp / 262144) 128); [lia|]. destruct (Z.ltb_spec (240 + cp / 262144) 224); [lia|].
  destruct (Z.ltb_spec (240 + cp / 262144) 240); [lia|]. destruct (Z.ltb_spec (240 + cp / 262144) 248); [|lia].
  cbn [length]. destruct (Nat.ltb_spec (S (S (S (S (length rest))))) 4); [lia|].
  rewrite (cont_byte _ 1 (cp / 4096)), (cont_byte _ 2 (cp / 64)), (cont_byte _ 3 cp) by done.
  change 7 with (Z.ones 3). rewrite land_low by lia.
  replace (240 + cp / 262144) with (cp / 262144 + 30 * 2 ^ 3) by lia. rewrite Z.mod_add, Z.mod_small by lia.
  rewrite <- !Z.lor_assoc, (lor_high (cp / 64 mod 64) 6) by (change (2 ^ 6) with 64; auto with lia).
  change (2 ^ 6) with 64. rewrite (lor_high (cp / 4096 mod 64) 12) by (change (2 ^ 12) with 4096; lia).
  change (2 ^ 12) with 4096. rewrite lor_high by (change (2 ^ 18) with 262144; lia).
  change (2 ^ 18) with 262144. rewrite (split_64_top cp). rewrite (proj2 (Z.ltb_ge cp 65536)) by lia. done.
Qed.

(** [utf8ToCodepoint] reads UTF-8. *)
Lemma utf8_decode cp rest :
  scalar cp -> utf8ToCodepoint (utf8_char cp ++ rest) = (cp, (length (utf8_char cp) - 1)%nat).
Proof.
  intros [Hcp Hs]. unfold utf8_char.
  destruct (Z.leb_spec cp 127).
  { unfold utf8ToCodepoint. cbn [app]. rewrite code_byte. unfold u8. rewrite Z.mod_small by lia.
    by rewrite (proj2 (Z.ltb_lt _ _)) by lia. }
  destruct (Z.leb_spec cp 2047); [apply utf8_decode_2; lia|].
  destruct (Z.leb_spec cp 65535); [apply utf8_decode_3; lia|].
  apply utf8_decode_4; lia.
Qed.

(** ** Quoted strings *)

Lemma hex_digit_char d : 0 <= d < 16 -> hex_digit (hex_char d) = Some d.
Proof.
  intros Hd. assert (Forall (fun d => hex_digit (hex_char d) = Some d) (seqZ 0 16)) as Hf
    by (vm_compute; repeat constructor).
  rewrite Forall_forall in Hf. apply Hf, elem_of_seqZ. lia.
Qed.

Lemma toHex16Bit_value x : 0 <= x < 65536 -> hex4 (toHex16Bit x) x.
Proof.
  intros Hx. split; [done|]. unfold toHex16Bit, hex2. cbn [app hex_value].
  rewrite Z.shiftr_div_pow2 by lia. change (2 ^ 8) with 256. change 255 with (Z.ones 8).
  rewrite !land_low by lia. change (2 ^ 8) with 256.
  assert (0 <= x / 256 < 256) by (split; [apply Z.div_pos; lia|apply Z.div_lt_upper_bound; lia]).
  rewrite (Z.mod_small (x / 256)) by lia.
  assert (H16 : forall y, 0 <= y < 256 -> 0 <= y / 16 < 16 /\ 0 <= y mod 16 < 16).
  { intros y Hy. split; [split; [apply Z.div_pos; lia|apply Z.div_lt_upper_bound; lia]|].
    apply Z.mod_pos_bound. lia. }
  pose proof (Z.mod_pos_bound x 256 ltac:(lia)) as Hm.
  destruct (H16 (x / 256)), (H16 (x mod 256)); [lia..|].
  rewrite !nibble_hex_digit, !hex_digit_char by done. f_equal.
  pose proof (Z.div_mod x 256 ltac:(lia)). pose proof (Z.div_mod (x / 256) 16 ltac:(lia)).
  pose proof (Z.div_mod (x mod 256) 16 ltac:(lia)). lia.
Qed.

Lemma short_escape_simple c e :
  short_escape c = Some e -> exists x, e = ["\"%char; x] /\ (x, c) ∈ json_escapes /\ 0 <= code c <= 127.
Proof.
  unfold short_escape. intros H. repeat case_decide; simplify_eq;
    (eexists; split; [reflexivity|split; [unfold json_escapes; set_solver|vm_compute; split; discriminate]]).
Qed.

Lemma short_escape_none c : short_escape c = None -> c <> DQUOTE /\ c <> "\"%char.
Proof. unfold short_escape. repeat case_decide; done. Qed.

Lemma short_escape_high c : 128 <= code c -> short_escape c = None.
Proof.
  intros Hc. destruct (short_escape c) as [e|] eqn:E; [|done].
  destruct (short_escape_simple c e E) as (x & _ & _ & ?). lia.
Qed.

Lemma quote_loop_skip a b : quote_loop (a ++ b) (length a) = quote_loop b 0.
Proof. induction a as [|c a IH]; [done|]. exact IH. Qed.

(** The first byte of a code point tells whether it is an ASCII character. *)
Lemma codePoint_cons cp :
  0 <= cp <= 1114111 ->
  exists c l, utf8_char cp = c :: l /\ (cp <= 127 -> l = [] /\ code c = cp) /\ (127 < cp -> 128 <= code c).
Proof.
  intros Hcp. unfold utf8_char.
  assert (Hlow : 0 <= cp <= 127 -> code (byte cp) = cp)
    by (intros; rewrite code_byte; unfold u8; apply Z.mod_small; lia).
  assert (Hhigh : forall k n x, 0 <= x < k -> k <= 256 - n -> 128 <= n -> 128 <= code (byte (n + x))).
  { intros k n x Hx Hk Hn. rewrite code_byte. unfold u8. rewrite Z.mod_small by lia. lia. }
  destruct (Z.leb_spec cp 127); [eexists _, _; split; [reflexivity|]; split; [auto with lia|lia]|].
  assert (0 <= cp / 64) by (apply Z.div_pos; lia). assert (0 <= cp / 4096) by (apply Z.div_pos; lia).
  assert (0 <= cp / 262144) by (apply Z.div_pos; lia).
  destruct (Z.leb_spec cp 2047); [|destruct (Z.leb_spec cp 65535)];
    (eexists _, _; split; [reflexivity|]; split; [lia|]; intros _).
  - apply (Hhigh 32); [|lia..]. split; [done|apply Z.div_lt_upper_bound; lia].
  - apply (Hhigh 16); [|lia..]. split; [done|apply Z.div_lt_upper_bound; lia].
  - apply (Hhigh 8); [|lia..]. split; [done|apply Z.div_lt_upper_bound; lia].
Qed.

(** A code point without a short escape. *)
Lemma quote_codepoint_encodes cp c l s t :
  scalar cp -> utf8_char cp = c :: l -> short_escape c = None -> encodes s t ->
  encodes (utf8_char cp ++ s) (quote_codepoint cp ++ t).
Proof.
  intros [Hcp Hsc] Ec He Hs. apply short_escape_none in He as [H1 H2]. unfold quote_codepoint.
  destruct (Z.ltb_spec cp 128).
  - destruct (Z.leb_spec 32 cp); cbn [andb].
    + unfold utf8_char in *. rewrite (proj2 (Z.leb_le cp 127)) in * by lia.
      injection Ec as <- <-. by apply enc_char.
    + destruct (Z.ltb_spec cp 65536); [|lia]. rewrite <- app_assoc.
      apply enc_unit; [apply toHex16Bit_value; lia|lia|done].
  - cbn [andb]. destruct (Z.ltb_spec cp 65536); rewrite <- ?app_assoc.
    + apply enc_unit; [apply toHex16Bit_value; lia|lia|done].
    + rewrite Z.shiftr_div_pow2 by lia. set (x := cp - 65536).
      change 1023 with (Z.ones 10) at 1. rewrite land_low by lia. change (2 ^ 10) with 1024.
      assert (0 <= x / 1024 < 1024) by (split; [apply Z.div_pos; lia|apply Z.div_lt_upper_bound; lia]).
      pose proof (Z.mod_pos_bound x 1024 ltac:(lia)) as Hm. pose proof (Z.div_mod x 1024 ltac:(lia)).
      replace cp with (65536 + (x / 1024 + 55296 - 55296) * 1024 + (x mod 1024 + 56320 - 56320)) at 1
        by (unfold x in *; lia).
      apply enc_pair; [apply toHex16Bit_value; lia|lia|apply toHex16Bit_value; lia|lia|done].
Qed.

(** The writer's quoting denotes the text it was given. *)
Lemma quote_encodes cps : Forall scalar cps -> encodes (utf8 cps) (quote_loop (utf8 cps) 0).
Proof.
  induction 1 as [|cp cps Hcp Hcps IH]; [constructor|].
  change (utf8 (cp :: cps)) with (utf8_char cp ++ utf8 cps).
  pose proof (utf8_decode cp (utf8 cps) Hcp) as Hd.
  destruct (codePoint_cons cp (proj1 Hcp)) as (c & l & Ec & Hlow & Hhigh). rewrite Ec in *. cbn [app quote_loop].
  destruct (short_escape c) as [e|] eqn:Ee.
  - destruct (short_escape_simple c e Ee) as (x & -> & Hx & Hc).
    destruct (Z.leb_spec cp 127) as [Hle|Hgt]; [|specialize (Hhigh Hgt); lia].
    destruct (Hlow Hle) as [-> _]. by apply enc_short.
  - cbn [app] in Hd. rewrite Hd. cbn [length]. rewrite Nat.sub_succ, Nat.sub_0_r, quote_loop_skip.
    change (c :: l ++ utf8 cps) with ((c :: l) ++ utf8 cps). rewrite <- Ec.
    by apply (quote_codepoint_encodes cp c l).
Qed.

Lemma quoted_utf8 s : is_utf8 s -> quoted s (valueToQuotedStringN s).
Proof.
  intros (cps & Hcps & ->). exists (quote_loop (utf8 cps) 0). split; [by apply quote_encodes|].
  unfold valueToQuotedStringN. destruct (isAnyCharRequiredQuoting (utf8 cps)) eqn:E; [done|].
  destruct (utf8 cps) as [|c s]; [done|]. exfalso.
  unfold isAnyCharRequiredQuoting in E. cbn [existsb] in E. apply orb_false_iff in E as [E _].
  unfold needs_quoting in E. pose proof (code_range c).
  apply orb_false_iff in E as [E E4]. apply orb_false_iff in E as [_ E3].
  destruct (Z.ltb_spec (code c) 128); [done|]. lia.
Qed.

(** ** Values *)

(** Values whose text denotes them: integers of the type the reader chooses,
    Unicode texts, arrays without holes, and no floating-point numbers.  [d]
    bounds the nesting. *)
Fixpoint printable (d : nat) (v : Value) : Prop :=
  match v with
  | VNull | VBool _ => True
  | VInt z => minInt64 <= z <= maxInt64
  | VUInt z => maxInt64 < z <= maxUInt64
  | VReal _ => False
  | VString s => is_utf8 s
  | VArray _ =>
      match d with
      | O => False
      | S d => exists l, v = array_of l /\ Z.of_nat (length l) < 2 ^ 32 /\ Forall (printable d) l
      end
  | VObject m =>
      match d with
      | O => False
      | S d => map_sorted czstring_lt m /\
               Forall (fun kv => is_utf8 kv.1 /\ size kv.1 < 2 ^ 30 /\ printable d kv.2) m
      end
  end.

Definition default_writer : WriterConfig :=
  MkWriterConfig ["009"%char] CommentAll (bs " : ") (bs "null") [] false 17 significantDigits.

Lemma writer_defaults : StreamWriterBuilder_setDefaults VNull ≫= newStreamWriter = Ok default_writer.
Proof. vm_compute. reflexivity. Qed.

Lemma writeString_defaults notes v : writeString_noted notes v = write default_writer notes v.
Proof. unfold writeString_noted. rewrite <- bind_assoc, writer_defaults. reflexivity. Qed.

(** *** Texts with blanks added *)

Lemma elements_end d l ts g : elements d l ts -> gap g -> elements d l (ts ++ g).
Proof.
  induction 1 as [d v w1 t w2 H1 Hv H2|d v w1 t w2 l ts H1 Hv H2 _ IH]; intros Hw.
  - rewrite <- !app_assoc. apply el_last; [done..|]. by apply gap_app.
  - rewrite <- !app_assoc. apply el_next; [done..|]. by apply IH.
Qed.

Lemma members_end d ms ts g : members d ms ts -> gap g -> members d ms (ts ++ g).
Proof.
  induction 1 as [d k v w1 q w2 w3 t w4 H1 Hq H2 H3 Hv H4|d k v w1 q w2 w3 t w4 ms ts H1 Hq H2 H3 Hv H4 _ IH];
    intros Hw.
  - rewrite <- !app_assoc. apply me_last; [done..|]. by apply gap_app.
  - rewrite <- !app_assoc. apply me_next; [done..|]. by apply IH.
Qed.

Lemma elements_start d l ts g : elements d l ts -> gap g -> elements d l (g ++ ts).
Proof.
  intros Hts Hw. destruct Hts; rewrite app_assoc; constructor; try done; by apply gap_app.
Qed.

(** Inserting the members of a sorted object one by one gives it back. *)
Lemma insert_sorted_members (m m0 : list (bytes * Value)) :
  map_sorted czstring_lt (m0 ++ m) ->
  foldl (fun m kv => map_insert czstring_lt kv.1 kv.2 m) m0 m = m0 ++ m.
Proof.
  revert m0; induction m as [|[k v] m IH]; intros m0 Hs; [by rewrite app_nil_r|].
  cbn [foldl fst snd]. rewrite (insert_last czstring_lt).
  - rewrite IH; rewrite <- app_assoc; done.
  - clear IH. induction m0 as [|[k' v'] m0 IH]; [constructor|]. destruct Hs as [Hf Hs].
    apply Forall_app in Hf as [_ Hf]. apply Forall_cons in Hf as [Hf _].
    constructor; [done|by apply IH].
Qed.

Lemma object_of_sorted m : map_sorted czstring_lt m -> object_of m = VObject m.
Proof. intros Hs. unfold object_of. by rewrite insert_sorted_members. Qed.

(** *** Numbers, elements and members *)

Lemma number_dec n : 0 <= n -> number (dec_unsigned n).
Proof.
  intros Hn. split; [by apply dec_unsigned_digits|]. destruct (dec_unsigned_cons n) as (c & s & ->). done.
Qed.

Lemma spells_int d z : minInt64 <= z <= maxInt64 -> spells d (VInt z) (valueToString_int z).
Proof.
  unfold minInt64, maxInt64. intros Hz. unfold valueToString_int, uintToString.
  assert (Hn : forall n, 0 < n <= 2 ^ 63 -> spells d (VInt (- n)) ("-"%char :: dec_unsigned n)).
  { intros n Hn. rewrite <- (dec_unsigned_value n) at 1 by lia.
    apply sp_negative; [apply number_dec; lia|]. rewrite dec_unsigned_value; unfold minInt64; lia. }
  destruct (Z.eqb_spec z minInt64) as [->|]; [by apply (Hn (2 ^ 63))|].
  destruct (Z.ltb_spec z 0).
  - rewrite <- (Z.opp_involutive z) at 1. apply Hn. lia.
  - rewrite <- (dec_unsigned_value z) at 1 by lia.
    apply sp_int; [by apply number_dec|]. rewrite dec_unsigned_value; unfold maxInt64; lia.
Qed.

Lemma spells_uint d z : maxInt64 < z <= maxUInt64 -> spells d (VUInt z) (valueToString_uint z).
Proof.
  unfold maxInt64, maxUInt64. intros Hz. unfold valueToString_uint, uintToString.
  rewrite <- (dec_unsigned_value z) at 1 by lia.
  apply sp_uint; [apply number_dec; lia|]. rewrite dec_unsigned_value; unfold maxInt64, maxUInt64; lia.
Qed.

Lemma depth_member {K} (m : list (K * Value)) k v :
  (k, v) ∈ m -> (value_depth v <= foldr (fun kv n => Nat.max (value_depth kv.2) n) 0 m)%nat.
Proof.
  induction m as [|kv m IH]; [by intros ?%not_elem_of_nil|].
  intros [<-|Hin]%elem_of_cons; cbn [foldr snd]; [lia|]. specialize (IH Hin). lia.
Qed.

Lemma array_pairs_elem v l i : v ∈ l -> exists k, (k, v) ∈ array_pairs i l.
Proof.
  intros [n Hn]%list_elem_of_lookup. exists (i + Z.of_nat n). apply list_elem_of_lookup. exists n.
  unfold array_pairs. by rewrite list_lookup_imap, Hn.
Qed.

Lemma index_const_array l i : index_const (array_of l) (Z.of_nat i) = Ok (default VNull (l !! i)).
Proof.
  unfold index_const, json_assert, array_of. cbn [isNull isArray orb]. run.
  rewrite array_find_pairs by lia. by rewrite Z.sub_0_r, Nat2Z.id.
Qed.

Lemma index_middle done_ v rest :
  index_const (array_of (done_ ++ v :: rest)) (Z.of_nat (length done_)) = Ok v.
Proof. by rewrite index_const_array, list_lookup_middle. Qed.

Lemma depth_element v l : v ∈ l -> (value_depth v < value_depth (array_of l))%nat.
Proof.
  intros Hin. destruct (array_pairs_elem v l 0 Hin) as [k Hk]. apply depth_member in Hk.
  cbn [value_depth array_of]. lia.
Qed.
