(* ===== verification/JsonWriterProofs.v ===== *)
(** * What the writers print, and reading it back

    The functions of JsonStyledWriter.v, over any [Layout] that keeps the laws
    below, print a document of JsonGrammar.v for the value, whatever comments it
    has.  [StyledWriter], [StyledStreamWriter] and, for each of its
    configurations, [BuiltStyledStreamWriter] are such layouts; [FastWriter] is
    treated on its own.  The reader returns the value from the document. *)
From Stdlib Require Import ZArith Ascii String Lia.
From stdpp Require Import base tactics list gmap.
From S2P Require Import Prelude CLib CDouble JsonValue JsonNotes JsonValueProofs JsonReader JsonWriter.
From S2P Require Import JsonGrammar JsonGap JsonParseProofs JsonPrintProofs JsonStyledWriter.

#[local] Open Scope Z_scope.

(** ** Comments that can be written *)

(** As [line_comments] of JsonGap.v, but no line is left open. *)
Definition closed_comments (n : Notes) : Prop := forall p slot, gap (getComment p slot n).

(** None ends with a space. *)
Definition trimmed_comments (n : Notes) : Prop :=
  forall p slot, last (getComment p slot n) <> Some " "%char.

Section Layouts.
(** Whether the writer ever collects the values of a line, and whether it has
    [indented_]. *)
Context {collect flagged : bool}.

(** ** The state between two values *)

(** Values go to the document, the indentation is blank, and a writer that does
    not collect values has none. *)
Record ready (s : WState) : Prop := {
  ready_add : addChildValues_ s = false;
  ready_indent : blank (indentString_ s);
  ready_children : collect = false -> childValues_ s = [];
  ready_flag : flagged = false -> indented_ s = false
}.

(** [s'] has [t] more; the values collected for a line may have changed. *)
Record adds (s : WState) (t : bytes) (s' : WState) : Prop := {
  adds_out : sout_ s' = sout_ s ++ t;
  adds_indent : indentString_ s' = indentString_ s;
  adds_ready : ready s';
  adds_flag : indented_ s = false -> indented_ s' = false
}.

Lemma adds_trans s t s1 u s2 : adds s t s1 -> adds s1 u s2 -> adds s (t ++ u) s2.
Proof. intros [E1 I1 _ F1] [E2 I2 P2 F2]. constructor; [by rewrite E2, E1, app_assoc|congruence|done|auto]. Qed.

Lemma adds_refl s : ready s -> adds s [] s.
Proof. intros Hs. constructor; [by rewrite app_nil_r|done..]. Qed.

Lemma put_out_adds t s : ready s -> adds s t (put_out t s).
Proof. intros [P1 P2 P3 P4]. by constructor. Qed.

Lemma push_adds t s : ready s -> adds s t (pushValue t s).
Proof. intros [P1 P2 P3 P4]. unfold pushValue. rewrite P1. by constructor. Qed.

Lemma unset_adds s t s' : adds s t s' -> adds s t (set_indented false s').
Proof. intros [E I [P1 P2 P3 P4] F]. by constructor. Qed.

(** The loop over a comment indents some of its lines. *)
Lemma comment_loop_adds indented c s :
  ready s -> (forall s, ready s -> last (sout_ s) = Some LF -> exists w, blank w /\ adds s w (indented s) /\
                childValues_ (indented s) = childValues_ s) ->
  exists c', indented_lines c c' /\ adds s c' (comment_loop indented c s) /\
    childValues_ (comment_loop indented c s) = childValues_ s.
Proof.
  intros Hs Hi. revert s Hs. induction c as [|a c IH]; intros s Hs; cbn [comment_loop].
  { exists []. split_and!; [constructor|by apply adds_refl|done]. }
  pose proof (put_out_adds [a] s Hs) as H1. pose proof (adds_ready _ _ _ H1) as P1.
  assert (forall s2 w, blank w -> (w = [] \/ a = LF) -> adds (put_out [a] s) w s2 -> childValues_ s2 = childValues_ s ->
    exists c', indented_lines (a :: c) c' /\ adds s c' (comment_loop indented c s2) /\
      childValues_ (comment_loop indented c s2) = childValues_ s) as Hrest.
  { intros s2 w Hw Ha H2 Ec. destruct (IH s2 (adds_ready _ _ _ H2)) as (c' & K1 & K2 & K3).
    exists ([a] ++ w ++ c'). split_and!; [|by eapply adds_trans; [|eapply adds_trans]|by rewrite K3].
    destruct Ha as [->| ->]; cbn [app]; [by apply il_char|by apply il_line]. }
  assert (exists c', indented_lines (a :: c) c' /\ adds s c' (comment_loop indented c (put_out [a] s)) /\
      childValues_ (comment_loop indented c (put_out [a] s)) = childValues_ s) as Hplain.
  { apply (Hrest _ []); [constructor|by left|by apply adds_refl|done]. }
  destruct c as [|b c]; [done|]. case_decide as E; [|done]. destruct E as [-> ->].
  destruct (Hi (put_out [LF] s) P1) as (w & Hw & H2 & Ec); [cbn; by rewrite last_snoc|].
  apply (Hrest _ w); [done|by right|done|done].
Qed.

(** ** What a layout promises

    Besides the values and the comments it adds blanks only, and closing a
    bracket restores the indentation.  A comment whose line is left open is
    followed by a line of its own: [opened s c] says that [c] is the end of
    what was written, and that the next line can begin behind it. *)

Class LayoutLaws (L : Layout) (opened : WState -> bytes -> Prop) : Prop := {
  opened_gap s c : gap c -> opened s c;
  writeWithIndent_adds t c s :
    ready s -> opened s c ->
    exists w, gap (c ++ w) /\ blank w /\ adds s (w ++ t) (layout_writeWithIndent t s) /\
      childValues_ (layout_writeWithIndent t s) = childValues_ s /\
      indented_ (layout_writeWithIndent t s) = false;
  element_begins c s :
    ready s -> opened s c ->
    exists w, gap (c ++ w) /\ blank w /\ ready (begin_element s) /\
      forall t s', adds (begin_element s) t s' -> adds s (w ++ t) (end_element s');
  before_adds p c s :
    ready s -> opened s c ->
    exists c', adds s c' (before_value p s) /\ opened (before_value p s) (c ++ c') /\
      childValues_ (before_value p s) = childValues_ s;
  after_adds p s :
    ready s -> indented_ s = false ->
    exists c, adds s c (after_value p s) /\ opened (after_value p s) c /\
      childValues_ (after_value p s) = childValues_ s;
  indent_adds s t s' c :
    ready s -> adds (layout_indent s) t s' -> opened s' c ->
    exists s2, layout_unindent s' = Ok s2 /\ adds s t s2 /\ opened s2 c;
  indent_ready s :
    ready s -> ready (layout_indent s) /\ childValues_ (layout_indent s) = childValues_ s /\
      indented_ (layout_indent s) = indented_ s;
  colon_blank : exists w1 w2, blank w1 /\ blank w2 /\ member_colon = w1 ++ bs ":" ++ w2;
  open_blank : exists w, blank w /\ line_open = bs "[" ++ w;
  comma_blank : exists w, blank w /\ line_comma = bs "," ++ w;
  close_blank : exists w, blank w /\ line_close = w ++ bs "]"
}.

(** The writers indent by adding blanks that [unindent] cuts off. *)
Lemma cut_indent_adds i s t s' :
  ready s -> adds (set_indentString (indentString_ s ++ i) s) t s' ->
  exists s2, cut_indent (length i) s' = Ok s2 /\ adds s t s2 /\ sout_ s2 = sout_ s' /\ indented_ s2 = indented_ s'.
Proof.
  intros Hs [E I P F]. unfold cut_indent. rewrite I. cbn [indentString_ set_indentString]. rewrite length_app.
  destruct (Nat.ltb_spec (length (indentString_ s) + length i) (length i)); [lia|].
  rewrite Nat.add_sub, take_app_length. eexists. split; [reflexivity|]. split_and!; [|done..].
  constructor; [exact E|done| |exact F]. constructor; [apply P|apply Hs|apply P|apply P].
Qed.

Lemma add_indent_ready i s :
  blank i -> ready s ->
  ready (set_indentString (indentString_ s ++ i) s) /\
  childValues_ (set_indentString (indentString_ s ++ i) s) = childValues_ s /\
  indented_ (set_indentString (indentString_ s ++ i) s) = indented_ s.
Proof. intros Hi [P1 P2 P3 P4]. split_and!; [|done..]. constructor; [done| |done..]. by apply Forall_app. Qed.

Lemma spaces_blank n : blank (replicate n " "%char).
Proof. apply Forall_replicate. done. Qed.

(** ** Arrays *)

Abbreviation Writer := (Place -> Value -> WState -> outcome WState).

(** What writing a value of depth [d] comes to. *)
Definition is_written (d : nat) (write : Writer) (v : Value) : Prop :=
  forall p s, ready s ->
  exists s' w t, write p v s = Ok s' /\ blank w /\ spells d v t /\ adds s (w ++ t) s'.

(** A value that goes through [pushValue] as a whole. *)
Definition is_pushed (d : nat) (write : Writer) (v : Value) : Prop :=
  exists t, spells d v t /\ forall p s, write p v s = Ok (pushValue t s).

Lemma pushed_written d write v : is_pushed d write v -> is_written d write v.
Proof.
  intros (t & Ht & E) p s Hs. exists (pushValue t s), [], t.
  split_and!; [apply E|constructor|done|by apply push_adds].
Qed.

(** The elements that make an array one of several lines. *)
Definition nested (v : Value) : bool := (isArray v || isObject v) && negb (value_empty v).

Lemma multiline_children_nested rest done_ :
  multiline_children (length rest) (Z.of_nat (length done_)) (array_of (done_ ++ rest))
  = Ok (existsb nested rest).
Proof.
  revert done_; induction rest as [|v rest IH]; intros done_; [done|].
  cbn [length multiline_children existsb]. rewrite index_middle. run. fold (nested v).
  destruct (nested v); [done|]. specialize (IH (done_ ++ [v])).
  rewrite <- app_assoc, length_app, Nat2Z.inj_add in IH. exact IH.
Qed.

Section Measure.
Context (notes : Notes) (d : nat) (write : Writer) (p : Place).

(** Measuring the elements collects their texts. *)
Lemma measure_collects rest done_ b len s :
  Forall (is_pushed d write) rest -> addChildValues_ s = true ->
  length (childValues_ s) = length done_ ->
  exists b' len' texts,
    measure_children notes write p (array_of (done_ ++ rest)) (length rest) (length done_) b len s
    = Ok (b', len', set_childValues (childValues_ s ++ texts) s) /\ Forall2 (spells d) rest texts.
Proof.
  intros Hall. revert done_ b len s.
  induction Hall as [|v rest (t & Ht & E) _ IH]; intros done_ b len s Ha Hl.
  { exists b, len, []. split; [|constructor]. rewrite (app_nil_r (childValues_ s)). by destruct s. }
  cbn [length measure_children]. rewrite index_middle. run. rewrite E. run.
  unfold pushValue. rewrite Ha. unfold child_at. cbn [childValues_ set_childValues].
  rewrite list_lookup_middle by done. run.
  match goal with |- context [measure_children _ _ _ _ _ _ ?b _ _] =>
    destruct (IH (done_ ++ [v]) b (u32 (len + size t)) (set_childValues (childValues_ s ++ [t]) s))
      as (b' & len' & texts & E' & H'); [exact Ha|cbn; rewrite !length_app; simpl; lia|] end.
  rewrite <- app_assoc, length_app, Nat.add_1_r in E'. cbn [app] in E'. rewrite E'.
  exists b', len', (t :: texts). split; [|by constructor].
  cbn [childValues_ set_childValues]. by rewrite <- app_assoc.
Qed.

(** Either nothing is collected, and the array goes over several lines, or the
    texts of all elements are. *)
Lemma isMultilineArray_collects l s :
  collect = true -> Z.of_nat (length l) < 2 ^ 32 ->
  Forall (fun v => nested v = false -> is_pushed d write v) l -> ready s ->
  exists b s1, styled_isMultilineArray notes write p (array_of l) s = Ok (b, s1) /\ adds s [] s1 /\
    ((childValues_ s1 = [] /\ b = true) \/ Forall2 (spells d) l (childValues_ s1)).
Proof.
  intros Hcol Hl Hall Hs. unfold styled_isMultilineArray. rewrite array_size by done. rewrite Nat2Z.id.
  assert (adds s [] (set_childValues [] s)) as H1
    by (constructor; [by rewrite app_nil_r|done|by destruct Hs; constructor|done]).
  pose proof (multiline_children_nested l []) as Hn. cbn [app length] in Hn. change (Z.of_nat 0) with 0 in Hn.
  rewrite Hn. destruct (rightMargin_ <=? u32 _); run; [by eauto 10|].
  destruct (existsb nested l) eqn:Ex; run; [by eauto 10|].
  destruct (measure_collects l [] false (u32 (4 + (Z.of_nat (length l) - 1) * 2))
              (set_addChildValues true (set_childValues [] s))) as (b & len & texts & E & Ht).
  { rewrite Forall_forall in Hall. apply Forall_forall. intros v Hv. apply Hall; [done|].
    destruct (nested v) eqn:Env; [|done]. rewrite <- Ex. symmetry. apply existsb_exists.
    exists v. by rewrite <- list_elem_of_In. }
  { done. } { done. }
  cbn [app length] in E. rewrite E. run. eexists _, _. split; [reflexivity|]. split; [|by right].
  constructor; [symmetry; apply (app_nil_r (sout_ s))|done| |done].
  destruct Hs. constructor; [done|done|by rewrite Hcol|done].
Qed.
End Measure.

Section Values.
Context {L : Layout} {opened : WState -> bytes -> Prop} {laws : LayoutLaws L opened}.

(** A line of collected texts. *)
Lemma single_line_adds d rest done_ texts s :
  rest <> [] -> Forall2 (spells d) (done_ ++ rest) texts -> childValues_ s = texts -> ready s ->
  exists s' ts, styled_single_line (length rest) (length done_) s = Ok s' /\ elements d rest ts /\
    adds s ((if (length done_ =? 0)%nat then [] else bs ",") ++ ts) s'.
Proof using laws.
  intros Hne. revert done_ s. induction rest as [|v rest IH]; intros done_ s H2 Hc Hs; [done|].
  destruct (Forall2_lookup_l _ _ _ (length done_) v H2) as (t & Et & Ht); [by apply list_lookup_middle|].
  destruct comma_blank as (w0 & Hw0 & Ecomma).
  set (sep := if (length done_ =? 0)%nat then [] else bs ",").
  set (w := if (length done_ =? 0)%nat then [] else w0).
  assert (blank w) as Hw by (unfold w; destruct (_ =? _)%nat; [constructor|done]).
  set (s1 := if (length done_ =? 0)%nat then s else put_out line_comma s).
  assert (adds s (sep ++ w) s1 /\ childValues_ s1 = texts) as [H1 Hc1].
  { unfold sep, w, s1. destruct (_ =? _)%nat; split; [by apply adds_refl|done|rewrite <- Ecomma; by apply put_out_adds|done]. }
  assert (adds s (sep ++ w ++ t) (put_out t s1)) as Ha.
  { rewrite app_assoc. eapply adds_trans; [exact H1|]. apply put_out_adds, H1. }
  assert (Hstep : styled_single_line (length (v :: rest)) (length done_) s
    = styled_single_line (length rest) (S (length done_)) (put_out t s1)).
  { cbn [length styled_single_line]. fold s1. unfold child_at. by rewrite Hc1, Et. }
  rewrite Hstep. destruct rest as [|v' rest].
  - exists (put_out t s1), (w ++ t). split_and!; [done| |done].
    rewrite <- (app_nil_r t). apply el_last; auto with reflector.
  - destruct (IH ltac:(done) (done_ ++ [v]) (put_out t s1)) as (s2 & ts & E & Hts & H3).
    { by rewrite <- app_assoc. } { exact Hc1. } { apply Ha. }
    rewrite length_app, Nat.add_1_r in E, H3. cbn [Nat.eqb] in H3.
    exists s2, (w ++ t ++ [] ++ bs "," ++ ts). split_and!; [exact E|apply el_next; auto with reflector|].
    replace (sep ++ _) with ((sep ++ w ++ t) ++ bs "," ++ ts) by (by rewrite <- !app_assoc).
    by eapply adds_trans.
Qed.

(** A bracket, what is between and the closing bracket, over several lines. *)
Lemma bracket_adds (o c : bytes) s t x s1 :
  ready s -> opened s1 x ->
  adds (layout_indent (layout_writeWithIndent o s)) (t ++ x) s1 ->
  exists s2 w1 g, (s ← layout_unindent s1; Ok (layout_writeWithIndent c s)) = Ok s2 /\
    blank w1 /\ gap g /\ adds s (w1 ++ o ++ (t ++ g) ++ c) s2.
Proof using laws.
  intros Hs Hx H2. destruct (writeWithIndent_adds o [] s Hs) as (w1 & _ & Hw1 & H1 & _); [apply opened_gap; auto with reflector|].
  destruct (indent_adds _ _ s1 x (adds_ready _ _ _ H1) H2 Hx) as (s2 & -> & H3 & Hx2). run.
  destruct (writeWithIndent_adds c x s2 (adds_ready _ _ _ H3) Hx2) as (w2 & Hg & _ & H4 & _).
  eexists _, w1, (x ++ w2). split_and!; [reflexivity|done|done|].
  replace (w1 ++ o ++ (t ++ x ++ w2) ++ c) with ((w1 ++ o) ++ (t ++ x) ++ w2 ++ c) by (by rewrite <- !app_assoc).
  eapply adds_trans; [exact H1|]. by eapply adds_trans.
Qed.

(** The opening bracket. *)
Lemma open_adds (o : bytes) s :
  ready s -> let s2 := layout_indent (layout_writeWithIndent o s) in
  ready s2 /\ childValues_ s2 = childValues_ s /\ indented_ s2 = false.
Proof using laws.
  intros Hs s2. destruct (writeWithIndent_adds o [] s Hs) as (w0 & _ & _ & H1 & Hc & Hf); [apply opened_gap; auto with reflector|].
  destruct (indent_ready _ (adds_ready _ _ _ H1)) as (P & Hc2 & Hf2). by rewrite <- Hc, <- Hc2, <- Hf, <- Hf2.
Qed.

Section Children.
Context (d : nat) (write : Writer) (p : Place).

(** The collected texts, when there are any, are those of [l]. *)
Definition texts_of (l : list Value) (hc : bool) (s : WState) : Prop :=
  hc = true -> Forall2 (spells d) l (childValues_ s).

(** One element on a line of its own, behind [x]. *)
Lemma element_adds l i v q hc x s :
  is_written d write v -> l !! i = Some v -> texts_of l hc s -> ready s -> opened s x -> indented_ s = false ->
  exists s' g t,
    (let s := before_value q s in
     if hc then t ← child_at s i; Ok (layout_writeWithIndent t s)
     else s ← write q v (begin_element s); Ok (end_element s)) = Ok s' /\
    gap (x ++ g) /\ spells d v t /\ adds s (g ++ t) s' /\ texts_of l hc s' /\ indented_ s' = false.
Proof using laws.
  intros Hv Hi Hc Hs Hx Hf. destruct (before_adds q x s Hs Hx) as (c & H0 & Hx0 & Hc0).
  pose proof (adds_ready _ _ _ H0) as P0. cbv zeta. destruct hc.
  - destruct (Forall2_lookup_l _ _ _ i v (Hc eq_refl) Hi) as (t & Et & Ht).
    unfold child_at. rewrite Hc0, Et. run.
    destruct (writeWithIndent_adds t _ _ P0 Hx0) as (w & Hg & Hw & H1 & Hcv & Hf1).
    eexists _, (c ++ w), t. split_and!; [reflexivity|by rewrite app_assoc|done| | |done].
    + rewrite <- app_assoc. by eapply adds_trans.
    + intros _. rewrite Hcv, Hc0. by apply Hc.
  - destruct (element_begins _ _ P0 Hx0) as (w1 & Hg & Hw1 & P1 & Hend).
    destruct (Hv q _ P1) as (s2 & w & t & -> & Hw & Ht & H2). run. specialize (Hend _ _ H2).
    pose proof (adds_trans _ _ _ _ _ H0 Hend) as H3.
    eexists _, (c ++ w1 ++ w), t. split_and!; [reflexivity| |done| |done|exact (adds_flag _ _ _ H3 Hf)].
    + rewrite (app_assoc c), (app_assoc x), (app_assoc x) in *. apply gap_app; auto with reflector.
    + by rewrite <- !app_assoc.
Qed.

Lemma after_element l hc q s t s' :
  adds s t s' -> texts_of l hc s' -> indented_ s' = false ->
  exists c, adds s (t ++ c) (after_value q s') /\ opened (after_value q s') c /\
    texts_of l hc (after_value q s') /\ indented_ (after_value q s') = false.
Proof using laws.
  intros H1 Hc Hf. destruct (after_adds q s' (adds_ready _ _ _ H1) Hf) as (c & H2 & Hx & E).
  exists c. split_and!; [by eapply adds_trans|done|intros Hhc; rewrite E; by apply Hc|exact (adds_flag _ _ _ H2 Hf)].
Qed.

Lemma styled_elements_adds rest done_ hc x s :
  rest <> [] -> Forall (is_written d write) rest -> texts_of (done_ ++ rest) hc s -> ready s ->
  opened s x -> indented_ s = false ->
  exists s' ts c,
    styled_elements write p (array_of (done_ ++ rest)) (length rest - 1) (length done_) hc s = Ok s' /\
    elements d rest (x ++ ts) /\ opened s' c /\ adds s (ts ++ c) s'.
Proof using laws.
  intros Hne Hall. revert done_ x s. induction Hall as [|v rest Hv Hall IH]; intros done_ x s Hc Hs Hx Hf; [done|].
  set (q := Element (Z.of_nat (length done_)) :: p).
  destruct (element_adds (done_ ++ v :: rest) (length done_) v q hc x s Hv)
    as (s1 & g & t & E & Hg & Ht & H1 & Hc1 & Hf1); [by apply list_lookup_middle|done..|]. cbv zeta in E.
  destruct rest as [|v' rest].
  - destruct (after_element _ _ q _ _ _ H1 Hc1 Hf1) as (c & H2 & Hx2 & _).
    exists (after_value q s1), (g ++ t), c. cbn [length Nat.sub styled_elements]. rewrite index_middle. fold q. run.
    rewrite E. run. split_and!; [done| |done|done].
    rewrite <- (app_nil_r t), app_assoc. apply el_last; auto with reflector.
  - pose proof (adds_trans _ _ _ _ _ H1 (put_out_adds (bs ",") s1 (adds_ready _ _ _ H1))) as H2.
    destruct (after_element _ hc q _ _ _ H2 Hc1 Hf1) as (c & H3 & Hx3 & Hc3 & Hf3).
    destruct (IH ltac:(done) (done_ ++ [v]) c (after_value q (put_out (bs ",") s1)))
      as (s2 & ts & c2 & E2 & Hts & Hx4 & H4); [by rewrite <- app_assoc|apply H3|done..|].
    exists s2, (g ++ t ++ [] ++ bs "," ++ c ++ ts), c2. split_and!; [| |done|].
    + replace (length (v :: v' :: rest) - 1)%nat with (S (length (v' :: rest) - 1)) by (simpl; lia).
      cbn [styled_elements]. rewrite index_middle. fold q. run. rewrite E. run.
      by rewrite <- app_assoc, length_app, Nat.add_1_r in E2.
    + rewrite app_assoc. apply el_next; auto with reflector.
    + replace ((g ++ t ++ [] ++ bs "," ++ c ++ ts) ++ c2) with ((((g ++ t) ++ bs ",") ++ c) ++ ts ++ c2)
        by (by rewrite <- !app_assoc).
      by eapply adds_trans.
Qed.

(** An array over several lines, whose texts may have been collected. *)
Lemma lines_written l hc s :
  l <> [] -> Forall (is_written d write) l -> ready s -> hc = negb (bool_decide (childValues_ s = [])) ->
  texts_of l hc s ->
  exists s' w t,
    (s ← styled_elements write p (array_of l) (length l - 1) 0 hc (layout_indent (layout_writeWithIndent (bs "[") s));
     s ← layout_unindent s; Ok (layout_writeWithIndent (bs "]") s)) = Ok s' /\
    blank w /\ spells (S d) (array_of l) t /\ adds s (w ++ t) s'.
Proof using laws.
  intros Hne Hw Hs Ehc Hc. destruct (open_adds (bs "[") s Hs) as (P2 & Hcv & Hf).
  set (s2 := layout_indent (layout_writeWithIndent (bs "[") s)) in *.
  assert (texts_of l hc s2) as Ht by (intros Hhc; rewrite Hcv; by apply Hc).
  destruct (styled_elements_adds l [] hc [] s2 Hne Hw Ht P2) as (s3 & ts & c & E & Hts & Hx & H3);
    [apply opened_gap; auto with reflector|done|].
  cbn [app length] in E, Hts. rewrite E. run.
  destruct (bracket_adds (bs "[") (bs "]") s ts c s3 Hs Hx H3) as (s4 & w1 & g & E4 & Hw1 & Hg & H4).
  exists s4, w1, (bs "[" ++ (ts ++ g) ++ bs "]").
  split_and!; [done|done|apply sp_array; by apply elements_end|done].
Qed.

(** An array on one line. *)
Lemma line_written l s :
  l <> [] -> Forall2 (spells d) l (childValues_ s) -> ready s ->
  exists s' t,
    (s ← styled_single_line (length l) 0 (put_out line_open s); Ok (put_out line_close s)) = Ok s' /\
    spells (S d) (array_of l) t /\ adds s t s'.
Proof using laws.
  intros Hne Hc Hs. destruct open_blank as (wo & Hwo & Eo). destruct close_blank as (wc & Hwc & Ec).
  pose proof (put_out_adds line_open s Hs) as H2.
  destruct (single_line_adds d l [] _ (put_out line_open s) Hne Hc eq_refl (adds_ready _ _ _ H2))
    as (s2 & ts & E & Hts & H3).
  cbn [length Nat.eqb] in E. rewrite E. run.
  exists (put_out line_close s2), (bs "[" ++ ((wo ++ ts) ++ wc) ++ bs "]"). split_and!; [done| |].
  - apply sp_array, elements_end; auto using elements_start with reflector.
  - replace (bs "[" ++ _) with (line_open ++ ts ++ line_close) by (rewrite Eo, Ec; by rewrite <- !app_assoc).
    eapply adds_trans; [exact H2|]. eapply adds_trans; [exact H3|]. apply put_out_adds, H3.
Qed.

Lemma styled_array_written notes l :
  collect = true -> l <> [] -> Z.of_nat (length l) < 2 ^ 32 -> Forall (is_written d write) l ->
  Forall (fun v => nested v = false -> is_pushed d write v) l ->
  forall s, ready s ->
  exists s' w t, styled_writeArrayValue notes write p (array_of l) s = Ok s' /\
    blank w /\ spells (S d) (array_of l) t /\ adds s (w ++ t) s'.
Proof using laws.
  intros Hcol Hne Hl Hw Hp s Hs. unfold styled_writeArrayValue. rewrite array_size by done.
  destruct (Z.eqb_spec (Z.of_nat (length l)) 0) as [H0|_]; [destruct l; [done|simpl in H0; lia]|].
  destruct (isMultilineArray_collects notes d write p l s Hcol Hl Hp Hs) as (b & s1 & -> & H1 & Hc). run.
  pose proof (adds_ready _ _ _ H1) as P1. destruct b.
  - destruct (open_adds (bs "[") s1 P1) as (_ & Hcv & _). rewrite Hcv.
    replace (Z.to_nat (Z.of_nat (length l)) - 1)%nat with (length l - 1)%nat by lia.
    destruct (lines_written l (negb (bool_decide (childValues_ s1 = []))) s1 Hne Hw P1 eq_refl)
      as (s4 & w & t & E & Hb & Ht & H4).
    { intros Hhc. destruct Hc as [[E _]|Hc]; [|done]. by rewrite E in Hhc. }
    exists s4, w, t. split_and!; [done..|]. by apply (adds_trans s [] s1).
  - destruct Hc as [[_ ?]|Hc]; [done|]. rewrite <- (Forall2_length _ _ _ Hc), Z.eqb_refl. cbn [negb].
    rewrite Nat2Z.id. destruct (line_written l s1 Hne Hc P1) as (s2 & t & E & Ht & H2).
    exists s2, [], t. split_and!; [done|constructor|done|]. by apply (adds_trans s [] s1).
Qed.

(** One member behind [x]: its name, a colon and its value. *)
Lemma member_adds k v q x s :
  quoted k (member_name k) -> is_written d write v -> ready s -> opened s x ->
  exists s' g w2 w3 t,
    write q v (put_out member_colon (layout_writeWithIndent (member_name k) (before_value q s))) = Ok s' /\
    gap (x ++ g) /\ blank w2 /\ blank w3 /\ spells d v t /\
    adds s (g ++ member_name k ++ w2 ++ bs ":" ++ w3 ++ t) s' /\ indented_ s' = false.
Proof using laws.
  intros Hk Hv Hs Hx. destruct (before_adds q x s Hs Hx) as (c & H0 & Hx0 & _).
  destruct (writeWithIndent_adds (member_name k) _ _ (adds_ready _ _ _ H0) Hx0) as (w1 & Hg & _ & H1 & _ & Hf).
  destruct colon_blank as (w2 & w3 & Hw2 & Hw3 & Ec).
  pose proof (put_out_adds member_colon _ (adds_ready _ _ _ H1)) as H2.
  destruct (Hv q _ (adds_ready _ _ _ H2)) as (s3 & w & t & E3 & Hw & Ht & H3).
  exists s3, (c ++ w1), w2, (w3 ++ w), t. split_and!; try done; [by rewrite app_assoc|by apply Forall_app| |exact (adds_flag _ _ _ H3 Hf)].
  replace ((c ++ w1) ++ _) with (c ++ (w1 ++ member_name k) ++ member_colon ++ w ++ t)
    by (rewrite Ec; by rewrite <- !app_assoc).
  eapply adds_trans; [exact H0|]. eapply adds_trans; [exact H1|]. by eapply adds_trans.
Qed.

Lemma styled_members_adds m ms x s :
  map_sorted czstring_lt m -> ms `suffix_of` m -> ms <> [] ->
  Forall (fun kv => size kv.1 < 2 ^ 30 /\ quoted kv.1 (member_name kv.1) /\ is_written d write kv.2) ms ->
  ready s -> opened s x ->
  exists s' ts c, styled_members write p (VObject m) ms.*1 s = Ok s' /\ members d ms (x ++ ts) /\
    opened s' c /\ adds s (ts ++ c) s'.
Proof using laws.
  intros Hm Hsuf Hne Hall. revert x s Hsuf. induction Hall as [|[k v] ms (Hks & Hk & Hv) Hall IH];
    intros x s Hsuf Hs Hx; [done|]. cbn [fst snd] in *.
  assert (Hc : member_const (VObject m) k = Ok v).
  { rewrite (member_const_members _ m) by done. erewrite (find_In czstring_lt); [done|done|].
    destruct Hsuf as [pre ->]. set_solver. }
  destruct (member_adds k v (Member k :: p) x s Hk Hv Hs Hx) as (s1 & g & w2 & w3 & t & E & Hg & Hw2 & Hw3 & Ht & H1 & Hf1).
  set (q := member_name k) in *.
  destruct ms as [|kv ms].
  - destruct (after_element [] false (Member k :: p) _ _ _ H1 ltac:(done) Hf1) as (c & H2 & Hx2 & _).
    exists (after_value (Member k :: p) s1), (g ++ q ++ w2 ++ bs ":" ++ w3 ++ t ++ []), c.
    cbn [fmap list_fmap fst styled_members]. rewrite Hc. run. fold q. rewrite E. run.
    split_and!; [done|rewrite app_assoc; apply me_last; auto with reflector|done|by rewrite app_nil_r].
  - pose proof (adds_trans _ _ _ _ _ H1 (put_out_adds (bs ",") s1 (adds_ready _ _ _ H1))) as H2.
    destruct (after_element [] false (Member k :: p) _ _ _ H2) as (c & H3 & Hx3 & _); [done|done|].
    destruct (IH ltac:(done) c (after_value (Member k :: p) (put_out (bs ",") s1)))
      as (s4 & ts & c2 & E4 & Hts & Hx4 & H4); [|apply H3|done|].
    { destruct Hsuf as [pre ->]. exists (pre ++ [(k, v)]). by rewrite <- app_assoc. }
    exists s4, (g ++ q ++ w2 ++ bs ":" ++ w3 ++ t ++ [] ++ bs "," ++ c ++ ts), c2.
    split_and!; [|rewrite app_assoc; apply me_next; auto with reflector|done|].
    + cbn [fmap list_fmap fst] in *. cbn [styled_members]. rewrite Hc. run. fold q. rewrite E. run. exact E4.
    + replace ((g ++ _) ++ c2) with ((((g ++ q ++ w2 ++ bs ":" ++ w3 ++ t) ++ bs ",") ++ c) ++ ts ++ c2)
        by (rewrite <- !app_assoc; done).
      by eapply adds_trans.
Qed.

Lemma styled_object_written m :
  map_sorted czstring_lt m -> m <> [] ->
  Forall (fun kv => size kv.1 < 2 ^ 30 /\ quoted kv.1 (member_name kv.1) /\ is_written d write kv.2) m ->
  forall s, ready s ->
  exists s' w t,
    (s ← styled_members write p (VObject m) m.*1 (layout_indent (layout_writeWithIndent (bs "{") s));
     s ← layout_unindent s; Ok (layout_writeWithIndent (bs "}") s)) = Ok s' /\
    blank w /\ spells (S d) (VObject m) t /\ adds s (w ++ t) s'.
Proof using laws.
  intros Hm Hne Hall s Hs. destruct (open_adds (bs "{") s Hs) as (P1 & _ & _).
  destruct (styled_members_adds m m [] _ Hm ltac:(done) Hne Hall P1) as (s2 & ts & c & E & Hts & Hx & H2);
    [apply opened_gap; auto with reflector|].
  rewrite E. run. cbn [app] in Hts.
  destruct (bracket_adds (bs "{") (bs "}") s ts c s2 Hs Hx H2) as (s3 & w & g & E3 & Hw & Hg & H3).
  exists s3, w, (bs "{" ++ (ts ++ g) ++ bs "}"). split_and!; [done|done| |done].
  rewrite <- (object_of_sorted _ Hm). apply sp_object. by apply members_end.
Qed.
End Children.
End Values.
End Layouts.

(** ** The layouts of the writers *)

Lemma hasComment_get p slot n :
  hasComment p slot n = negb (bool_decide (getComment p slot n = [])).
Proof. unfold hasComment, getComment. by destruct (comments_ _) as [a|]. Qed.

(** What ends with a newline leaves no line open. *)
Lemma gap_end_closed g : gap_end g -> last g = Some LF -> gap g.
Proof.
  induction 1 as [w Hw|w b Hw Hl Hc|w c g Hw Hc Hg IH]; intros Hlast; [by apply gap_blank|..].
  - exfalso. rewrite last_app in Hlast. cbn [last] in Hlast. destruct b as [|x b]; [done|].
    change (last ("/"%char :: x :: b)) with (last (x :: b)) in Hlast.
    destruct (last (x :: b)) as [y|] eqn:E; [|by apply last_None in E]. injection Hlast as ->.
    by apply last_Some_elem_of in E.
  - apply gap_comment; [done..|]. destruct g as [|x g]; [auto with reflector|]. apply IH.
    rewrite app_assoc, last_app in Hlast. by destruct (last (x :: g)) eqn:E; [|apply last_None in E].
Qed.

(** A blank and a comment behind a value. *)
Lemma spaced_comment c : gap_end c -> gap_end (bs " " ++ c).
Proof. intros H. apply blank_gap_end; [by repeat constructor|done]. Qed.

Section Styled.
Context (notes : Notes) (Hlines : line_comments notes) (Htrim : trimmed_comments notes).

#[local] Abbreviation ready := (ready (collect := true) (flagged := false)).
#[local] Abbreviation adds := (adds (collect := true) (flagged := false)).

(** The last character shows that the next line begins with a newline. *)
Definition styled_opened (s : WState) (c : bytes) : Prop :=
  gap c \/ gap_end c /\ exists x, last (sout_ s) = Some x /\ x <> " "%char /\ x <> LF.

Lemma styled_opened_end s c : styled_opened s c -> gap_end c.
Proof. intros [H|[H _]]; auto with reflector. Qed.

Lemma styled_indent_adds c s :
  ready s -> styled_opened s c ->
  exists w, gap (c ++ w) /\ blank w /\ adds s w (Styled.writeIndent s) /\
    childValues_ (Styled.writeIndent s) = childValues_ s.
Proof.
  intros Hs Hc. pose proof (ready_indent s Hs) as Hb. unfold Styled.writeIndent.
  assert (forall t, last (sout_ s) = t -> t = None \/ t = Some " "%char \/ t = Some LF -> gap c) as Hclosed.
  { intros t <- Ht. destruct Hc as [Hc|[_ (x & E & H1 & H2)]]; [done|].
    rewrite E in Ht. destruct Ht as [?|[[= ?]|[= ?]]]; done. }
  destruct (last (sout_ s)) as [x|] eqn:E; [destruct (decide (x = " "%char)) as [->|Hx]; [|destruct (decide (x <> LF))]|].
  - exists []. split_and!; [apply gap_app; eauto with reflector|constructor|by apply adds_refl|done].
  - exists ([LF] ++ indentString_ s). split_and!; [|by constructor| |done].
    + apply gap_end_newline; [by eapply styled_opened_end|done].
    + apply (adds_trans _ [LF] (put_out [LF] s)); [by apply put_out_adds|].
      by apply (put_out_adds (indentString_ s)), put_out_adds.
  - assert (x = LF) as -> by (destruct (decide (x = LF)); tauto).
    exists (indentString_ s). split_and!; [apply gap_app; eauto with reflector|done|by apply put_out_adds|done].
  - exists (indentString_ s). split_and!; [apply gap_app; eauto with reflector|done|by apply put_out_adds|done].
Qed.

Lemma styled_before_adds p c s :
  ready s -> styled_opened s c ->
  let s' := Styled.writeCommentBeforeValue notes p s in
  exists c', adds s c' s' /\ styled_opened s' (c ++ c') /\ childValues_ s' = childValues_ s /\
    (gap c -> gap (c ++ c')).
Proof using Hlines.
  intros Hs Hc. cbv zeta. unfold Styled.writeCommentBeforeValue. destruct (negb _).
  { exists []. split_and!; [by apply adds_refl|by rewrite app_nil_r|done|by rewrite app_nil_r]. }
  assert (forall s, ready s -> last (sout_ s) = Some LF ->
    exists w, blank w /\ adds s w (Styled.writeIndent s) /\ childValues_ (Styled.writeIndent s) = childValues_ s) as Hi.
  { intros s1 P1 _. destruct (styled_indent_adds [] s1 P1) as (w & _ & H); [left; auto with reflector|by exists w]. }
  pose proof (put_out_adds [LF] s Hs) as H1. pose proof (adds_ready _ _ _ H1) as P1.
  destruct (Hi _ P1) as (w & Hw & H2 & E2); [cbn; by rewrite last_snoc|].
  destruct (comment_loop_adds Styled.writeIndent (getComment p commentBefore notes) _ (adds_ready _ _ _ H2) Hi)
    as (c' & Hil & H3 & E3).
  pose proof (put_out_adds [LF] _ (adds_ready _ _ _ H3)) as H4.
  assert (gap (c ++ [LF] ++ w ++ c' ++ [LF])) as Hgap.
  { rewrite (app_assoc [LF]), (app_assoc c). apply gap_app.
    - apply gap_end_newline; [by eapply styled_opened_end|done].
    - apply gap_end_newline; [|constructor]. eapply il_gap_end; [exact Hil|apply Hlines]. }
  exists ([LF] ++ w ++ c' ++ [LF]). split_and!; [|by left|by cbn; rewrite E3, E2|done].
  eapply adds_trans; [exact H1|]. eapply adds_trans; [exact H2|]. by eapply adds_trans.
Qed.

Lemma styled_after_adds p s :
  ready s -> let s' := Styled.writeCommentAfterValueOnSameLine notes p s in
  exists c, adds s c s' /\ styled_opened s' c /\ childValues_ s' = childValues_ s.
Proof using Hlines Htrim.
  intros Hs. cbv zeta. unfold Styled.writeCommentAfterValueOnSameLine. rewrite !hasComment_get.
  set (c1 := getComment p commentAfterOnSameLine notes). set (c2 := getComment p commentAfter notes).
  set (s1 := if negb (bool_decide (c1 = [])) then _ else s).
  assert (exists c, adds s c s1 /\ styled_opened s1 c /\ childValues_ s1 = childValues_ s) as (c & H1 & Hc & E1).
  { unfold s1. case_bool_decide as E; cbn [negb].
    { exists []. split_and!; [by apply adds_refl|left; auto with reflector|done]. }
    exists (bs " " ++ c1). split_and!; [by apply put_out_adds| |done].
    pose proof (spaced_comment c1 (Hlines _ _)) as Hg.
    assert (last (bs " " ++ c1) = last c1) as El
      by (rewrite last_app; by destruct (last c1) eqn:E'; [|apply last_None in E']).
    destruct (last c1) as [x|] eqn:Ex; [|by apply last_None in Ex].
    destruct (decide (x = LF)) as [->|Hx]; [left; by apply gap_end_closed|].
    right. split; [done|]. exists x. split_and!; [|intros ->; by apply (Htrim p commentAfterOnSameLine)|done].
    cbn [sout_ put_out]. by rewrite last_app, El. }
  case_bool_decide as E; cbn [negb]; [by exists c|].
  pose proof (put_out_adds [LF] _ (adds_ready _ _ _ H1)) as H2.
  pose proof (put_out_adds c2 _ (adds_ready _ _ _ H2)) as H3.
  pose proof (put_out_adds [LF] _ (adds_ready _ _ _ H3)) as H4.
  exists (c ++ [LF] ++ c2 ++ [LF]). split_and!.
  - eapply adds_trans; [exact H1|]. eapply adds_trans; [exact H2|]. by eapply adds_trans.
  - left. rewrite (app_assoc c). apply gap_app; apply gap_end_newline;
      [by eapply styled_opened_end|constructor|apply Hlines|constructor].
  - done.
Qed.

Lemma styled_laws : LayoutLaws (collect := true) (flagged := false) (Styled.layout notes) styled_opened.
Proof using Hlines Htrim.
  constructor; cbn.
  - intros s c Hc. by left.
  - intros t c s Hs Hc. destruct (styled_indent_adds c s Hs Hc) as (w & Hg & Hw & H1 & E).
    exists w. assert (adds s (w ++ t) (Styled.writeWithIndent t s)) as H2
      by (eapply adds_trans; [exact H1|]; apply put_out_adds, H1).
    split_and!; [done..|exact E|]. apply (ready_flag _ (adds_ready _ _ _ H2)). done.
  - intros c s Hs Hc. destruct (styled_indent_adds c s Hs Hc) as (w & Hg & Hw & H1 & E).
    exists w. split_and!; [done..|apply H1|]. intros t s' H. by eapply adds_trans.
  - intros p c s Hs Hc. destruct (styled_before_adds p c s Hs Hc) as (c' & H1 & H2 & H3 & _). by exists c'.
  - intros p s Hs _. by apply styled_after_adds.
  - intros s t s' c Hs H Hc.
    destruct (cut_indent_adds (replicate 3 " "%char) s t s' Hs H) as (s2 & E & H2 & Eo & _).
    exists s2. split_and!; [exact E|done|]. unfold styled_opened. by rewrite Eo.
  - intros s Hs. by apply add_indent_ready; [apply spaces_blank|].
  - exists (bs " "), (bs " "). by split_and!; repeat constructor.
  - exists (bs " "). by split; repeat constructor.
  - exists (bs " "). by split; repeat constructor.
  - exists (bs " "). by split; repeat constructor.
Qed.
End Styled.

(** The writers that have [indented_]; [newline] is their [writeIndent], which
    may do nothing. *)
Section Flagged.
Context {collect : bool} (notes : Notes) (breaks : Prop) (newline : WState -> WState).
Context (Hnewline : forall s, newline s = put_out (LF :: indentString_ s) s \/ newline s = s /\ ~ breaks).
Context (Hlines : line_comments notes) (Hclosed : breaks \/ closed_comments notes).

#[local] Abbreviation ready := (ready (collect := collect) (flagged := true)).
#[local] Abbreviation adds := (adds (collect := collect) (flagged := true)).

Lemma set_indented_ready b s : ready s -> ready (set_indented b s).
Proof. intros [P1 P2 P3 P4]. by constructor. Qed.

Definition flag_opened (s : WState) (c : bytes) : Prop :=
  gap c \/ gap_end c /\ indented_ s = false /\ breaks.

Lemma flag_opened_end s c : flag_opened s c -> gap_end c.
Proof. intros [H|[H _]]; auto with reflector. Qed.

Lemma flag_indent_adds c s :
  ready s -> flag_opened s c -> let s' := if indented_ s then s else newline s in
  exists w, gap (c ++ w) /\ blank w /\ adds s w s' /\ childValues_ s' = childValues_ s.
Proof using Hnewline.
  intros Hs Hc. cbv zeta.
  assert (gap c -> exists w, gap (c ++ w) /\ blank w /\ adds s w s /\ childValues_ s = childValues_ s) as Hsame.
  { intros Hg. exists []. split_and!; [by rewrite app_nil_r|constructor|by apply adds_refl|done]. }
  destruct (indented_ s) eqn:Ei; [apply Hsame; destruct Hc as [?|(_ & ? & _)]; congruence|].
  destruct (Hnewline s) as [->|[-> Hb]]; [|apply Hsame; by destruct Hc as [?|(_ & _ & ?)]].
  exists (LF :: indentString_ s). split_and!; [|constructor; [done|apply Hs]|by apply put_out_adds|done].
  apply gap_end_newline; [by eapply flag_opened_end|apply Hs].
Qed.

(** A comment without anything behind it. *)
Lemma comment_opened s p slot c x :
  gap c -> indented_ s = false -> indented_lines (getComment p slot notes) x -> flag_opened s (c ++ x).
Proof using Hlines Hclosed.
  intros Hg Hi Hx. destruct Hclosed as [Hb|Hcl].
  - right. split_and!; [apply gap_app_end; [done|]; eapply il_gap_end; [exact Hx|apply Hlines]|done|done].
  - left. apply gap_app; [done|]. eapply il_gap; [exact Hx|apply Hcl].
Qed.

Lemma il_refl u : indented_lines u u.
Proof. induction u; by constructor. Qed.

Definition flag_before (p : Place) (s : WState) : WState :=
  if negb (hasComment p commentBefore notes) then s
  else
    let s := if indented_ s then s else newline s in
    set_indented false
      (comment_loop (fun s => put_out (indentString_ s) s) (getComment p commentBefore notes) s).

Lemma flag_before_adds p c s :
  ready s -> flag_opened s c ->
  exists c', adds s c' (flag_before p s) /\ flag_opened (flag_before p s) (c ++ c') /\
    childValues_ (flag_before p s) = childValues_ s.
Proof using Hnewline Hlines Hclosed.
  intros Hs Hc. unfold flag_before. destruct (negb _).
  { exists []. split_and!; [by apply adds_refl|by rewrite app_nil_r|done]. }
  destruct (flag_indent_adds c s Hs Hc) as (w & Hg & Hw & H1 & E1). cbv zeta in *.
  destruct (comment_loop_adds (fun s => put_out (indentString_ s) s) (getComment p commentBefore notes) _
              (adds_ready _ _ _ H1)) as (c' & Hil & H2 & E2).
  { intros s1 P1 _. exists (indentString_ s1). split_and!; [apply P1|by apply put_out_adds|done]. }
  exists (w ++ c'). split_and!.
  - apply unset_adds. by eapply adds_trans.
  - rewrite app_assoc. by eapply comment_opened.
  - cbn. by rewrite E2.
Qed.

Definition flag_after (p : Place) (s : WState) : WState :=
  let s := if hasComment p commentAfterOnSameLine notes
           then put_out (bs " " ++ getComment p commentAfterOnSameLine notes) s else s in
  if hasComment p commentAfter notes then put_out (getComment p commentAfter notes) (newline s) else s.

Lemma flag_after_adds p s :
  ready s ->
  exists c, adds s c (flag_after p s) /\ gap_end c /\ (indented_ s = false -> flag_opened (flag_after p s) c) /\
    childValues_ (flag_after p s) = childValues_ s.
Proof using Hnewline Hlines Hclosed.
  intros Hs. unfold flag_after. rewrite !hasComment_get.
  set (c1 := getComment p commentAfterOnSameLine notes). set (c2 := getComment p commentAfter notes).
  set (s1 := if negb (bool_decide (c1 = [])) then _ else s).
  assert (exists c, adds s c s1 /\ gap_end c /\ (closed_comments notes -> gap c) /\ childValues_ s1 = childValues_ s /\
    indented_ s1 = indented_ s) as (c & H1 & Hc & Hcl & E1 & Ei).
  { unfold s1. case_bool_decide as E; cbn [negb].
    - exists []. split_and!; auto using adds_refl with reflector.
    - exists (bs " " ++ c1). split_and!; [by apply put_out_adds|apply spaced_comment, Hlines| |done..].
      intros Hg. apply blank_gap; [by repeat constructor|apply Hg]. }
  assert (forall s' u, adds s (c ++ u) s' -> (breaks -> gap_end (c ++ u)) -> (closed_comments notes -> gap (c ++ u)) ->
    childValues_ s' = childValues_ s1 ->
    exists c, adds s c s' /\ gap_end c /\ (indented_ s = false -> flag_opened s' c) /\ childValues_ s' = childValues_ s)
    as Hdone.
  { intros s' u Ha Hb Hg E. exists (c ++ u). pose proof (adds_flag _ _ _ Ha) as Hf. split_and!; [done| | |congruence].
    - destruct Hclosed; auto with reflector.
    - intros Hi. destruct Hclosed; [right; auto|left; auto]. }
  case_bool_decide as E; cbn [negb]; [apply (Hdone s1 []); rewrite ?app_nil_r; auto|].
  assert (exists w, adds s1 w (newline s1) /\ (breaks -> gap (c ++ w)) /\ blank w /\ childValues_ (newline s1) = childValues_ s1)
    as (w & H2 & Hg & Hw & E2).
  { pose proof (adds_ready _ _ _ H1) as P1. destruct (Hnewline s1) as [->|[-> Hb]].
    - exists (LF :: indentString_ s1). assert (blank (LF :: indentString_ s1)) by (constructor; [done|apply P1]).
      split_and!; [by apply put_out_adds| |done..]. intros _. apply gap_end_newline; [done|apply P1].
    - exists []. split_and!; [by apply adds_refl|done|constructor|done]. }
  pose proof (put_out_adds c2 _ (adds_ready _ _ _ H2)) as H3.
  apply (Hdone _ (w ++ c2)); [eapply adds_trans; [exact H1|]; by eapply adds_trans| | |done]; rewrite app_assoc.
  - intros Hb. apply gap_app_end; [by apply Hg|apply Hlines].
  - intros Hn. apply gap_app; [apply gap_app; [by apply Hcl|by apply gap_blank]|apply Hn].
Qed.

Lemma flag_element_begins c s :
  ready s -> flag_opened s c ->
  exists w, gap (c ++ w) /\ blank w /\ ready (set_indented true (if indented_ s then s else newline s)) /\
    forall t s', adds (set_indented true (if indented_ s then s else newline s)) t s' ->
      adds s (w ++ t) (set_indented false s').
Proof using Hnewline.
  intros Hs Hc. destruct (flag_indent_adds c s Hs Hc) as (w & Hg & Hw & H1 & _). cbv zeta in H1.
  exists w. split_and!; [done..|by apply set_indented_ready, H1|].
  intros t s' [E I P _]. constructor; [|by rewrite <- (adds_indent _ _ _ H1)|by apply set_indented_ready|done].
  cbn [sout_ set_indented] in *. by rewrite E, (adds_out _ _ _ H1), app_assoc.
Qed.
End Flagged.

Section StreamLaws.
Context (indentation : bytes) (notes : Notes).
Context (Hblank : blank indentation) (Hlines : line_comments notes).

Lemma stream_newline s : Stream.writeIndent s = put_out (LF :: indentString_ s) s \/ Stream.writeIndent s = s /\ ~ True.
Proof. by left. Qed.

Lemma stream_laws :
  LayoutLaws (collect := true) (flagged := true) (Stream.layout indentation notes) (flag_opened True).
Proof using Hblank Hlines.
  assert (True \/ closed_comments notes) as Hcl by (by left). constructor; cbn.
  - intros s c Hc. by left.
  - intros t c s Hs Hc. destruct (flag_indent_adds True _ stream_newline c s Hs Hc) as (w & Hg & Hw & H1 & E).
    exists w. split_and!; [done..| |exact E|done]. apply unset_adds.
    eapply adds_trans; [exact H1|]. apply put_out_adds, H1.
  - intros c s Hs Hc. by apply (flag_element_begins True _ stream_newline).
  - intros p c s Hs Hc. by apply (flag_before_adds notes True _ stream_newline Hlines Hcl).
  - intros p s Hs Hi. destruct (flag_after_adds notes True _ stream_newline Hlines Hcl p s Hs) as (c & H1 & H2 & _ & H3).
    exists c. split_and!; [by apply unset_adds|by right|exact H3].
  - intros s t s' c Hs H Hc. destruct (cut_indent_adds indentation s t s' Hs H) as (s2 & E & H2 & _ & Ei).
    exists s2. split_and!; [exact E|done|]. unfold flag_opened. by rewrite Ei.
  - intros s Hs. by apply add_indent_ready.
  - exists (bs " "), (bs " "). by split_and!; repeat constructor.
  - exists (bs " "). by split; repeat constructor.
  - exists (bs " "). by split; repeat constructor.
  - exists (bs " "). by split; repeat constructor.
Qed.
End StreamLaws.

(** [BuiltStyledStreamWriter]: blank indentation, a colon among blanks, null
    written as such, and nothing behind the root. *)
Record prints (cfg : WriterConfig) : Prop := {
  prints_indentation : blank (indentation_ cfg);
  prints_colon : exists w1 w2, blank w1 /\ blank w2 /\ colonSymbol_ cfg = w1 ++ bs ":" ++ w2;
  prints_null : nullSymbol_ cfg = bs "null";
  prints_end : endingLineFeedSymbol_ cfg = []
}.

Definition built_layout (cfg : WriterConfig) (notes : Notes) : Layout :=
  let one_line (t : bytes) := if bool_decide (indentation_ cfg = []) then [] else t in
  {| layout_writeWithIndent := writeWithIndent cfg;
     layout_indent := indent cfg;
     layout_unindent := unindent cfg;
     begin_element s := set_indented true (if indented_ s then s else writeIndent cfg s);
     end_element := set_indented false;
     before_value := writeCommentBeforeValue cfg notes;
     after_value := writeCommentAfterValueOnSameLine cfg notes;
     member_name := valueToQuotedStringN;
     member_colon := colonSymbol_ cfg;
     line_open := bs "[" ++ one_line (bs " ");
     line_comma := bs "," ++ one_line (bs " ");
     line_close := one_line (bs " ") ++ bs "]" |}.

(** The comments that a configuration writes so that they can be read. *)
Definition printable_comments (cfg : WriterConfig) (notes : Notes) : Prop :=
  cs_ cfg = CommentNone \/
  line_comments notes /\ (indentation_ cfg <> [] \/ closed_comments notes).

Section BuiltLaws.
Context {collect : bool} (cfg : WriterConfig) (notes : Notes).
Context (Hcfg : prints cfg) (Hnotes : printable_comments cfg notes).

#[local] Abbreviation ready := (ready (collect := collect) (flagged := true)).
#[local] Abbreviation adds := (adds (collect := collect) (flagged := true)).
#[local] Abbreviation breaks := (indentation_ cfg <> []).

Lemma built_newline s :
  writeIndent cfg s = put_out (LF :: indentString_ s) s \/ writeIndent cfg s = s /\ ~ breaks.
Proof. unfold writeIndent. case_bool_decide as E; [right; split; [done|tauto]|by left]. Qed.

Lemma built_before_adds p c s :
  ready s -> flag_opened breaks s c ->
  exists c', adds s c' (writeCommentBeforeValue cfg notes p s) /\
    flag_opened breaks (writeCommentBeforeValue cfg notes p s) (c ++ c') /\
    childValues_ (writeCommentBeforeValue cfg notes p s) = childValues_ s.
Proof using Hnotes.
  intros Hs Hc. unfold writeCommentBeforeValue. destruct (cs_ cfg) eqn:Ecs.
  - exists []. split_and!; [by apply adds_refl|by rewrite app_nil_r|done].
  - destruct Hnotes as [?|[Hl Hcl]]; [congruence|]. by apply (flag_before_adds notes breaks _ built_newline Hl Hcl).
Qed.

Lemma built_after_adds p s :
  ready s ->
  exists c, adds s c (writeCommentAfterValueOnSameLine cfg notes p s) /\ gap_end c /\
    (indented_ s = false -> flag_opened breaks (writeCommentAfterValueOnSameLine cfg notes p s) c) /\
    childValues_ (writeCommentAfterValueOnSameLine cfg notes p s) = childValues_ s.
Proof using Hnotes.
  intros Hs. unfold writeCommentAfterValueOnSameLine. destruct (cs_ cfg) eqn:Ecs.
  - exists []. split_and!; [by apply adds_refl|auto with reflector|left; auto with reflector|done].
  - destruct Hnotes as [?|[Hl Hcl]]; [congruence|]. by apply (flag_after_adds notes breaks _ built_newline Hl Hcl).
Qed.

Lemma one_line_blank : blank (if bool_decide (indentation_ cfg = []) then [] else bs " ").
Proof. destruct (bool_decide _); by repeat constructor. Qed.

Lemma built_laws : LayoutLaws (collect := collect) (flagged := true) (built_layout cfg notes) (flag_opened breaks).
Proof using Hcfg Hnotes.
  pose proof one_line_blank as Hline. constructor; cbn.
  - intros s c Hc. by left.
  - intros t c s Hs Hc. destruct (flag_indent_adds breaks _ built_newline c s Hs Hc) as (w & Hg & Hw & H1 & E).
    exists w. split_and!; [done..| |exact E|done]. apply unset_adds.
    eapply adds_trans; [exact H1|]. apply put_out_adds, H1.
  - intros c s Hs Hc. by apply (flag_element_begins breaks _ built_newline).
  - intros p c s Hs Hc. by apply built_before_adds.
  - intros p s Hs Hi. destruct (built_after_adds p s Hs) as (c & H1 & _ & H2 & H3). exists c. split_and!; auto.
  - intros s t s' c Hs H Hc. destruct (cut_indent_adds (indentation_ cfg) s t s' Hs H) as (s2 & E & H2 & _ & Ei).
    exists s2. split_and!; [exact E|done|]. unfold flag_opened. by rewrite Ei.
  - intros s Hs. by apply add_indent_ready, Hs; apply Hcfg.
  - by apply prints_colon.
  - by eexists.
  - by eexists.
  - by eexists.
Qed.
End BuiltLaws.
(** [BuiltStyledStreamWriter] has the functions of the older writers. *)
Lemma built_elements cfg notes write p v n i hc s :
  elements_loop cfg notes write p v n i hc s = @styled_elements (built_layout cfg notes) write p v n i hc s.
Proof. reflexivity. Qed.

Lemma built_members cfg notes write p v ms s :
  members_loop cfg notes write p v ms s = @styled_members (built_layout cfg notes) write p v ms s.
Proof. reflexivity. Qed.

Lemma built_single_line cfg notes n i s :
  single_line cfg n i s = @styled_single_line (built_layout cfg notes) n i s.
Proof.
  revert i s; induction n as [|n IH]; intros i s; [done|].
  cbn [single_line styled_single_line line_comma built_layout].
  replace (if bool_decide (indentation_ cfg = []) then bs "," else bs ", ")
    with (bs "," ++ if bool_decide (indentation_ cfg = []) then [] else bs " ") by (by case_bool_decide).
  destruct (child_at _ i); run; [apply IH|done..].
Qed.

Lemma put_out_app t u s : put_out u (put_out t s) = put_out (t ++ u) s.
Proof. unfold put_out. cbn. by rewrite app_assoc. Qed.

(** An array whose values are collected, and one that always goes over several
    lines. *)
Lemma built_array_collected cfg notes write p v s :
  cs_ cfg = CommentNone ->
  writeArrayValue cfg notes write p v s = @styled_writeArrayValue (built_layout cfg notes) notes write p v s.
Proof.
  intros Hcs. unfold writeArrayValue, styled_writeArrayValue. rewrite Hcs.
  destruct (value_size v =? 0); [done|].
  change (isMultilineArray notes write p v s) with (styled_isMultilineArray notes write p v s).
  destruct (styled_isMultilineArray notes write p v s) as [[b s1]| | |]; [|done..]. run. destruct b.
  - by rewrite built_elements.
  - destruct (negb _); [done|]. rewrite (built_single_line cfg notes). cbn [line_open line_close built_layout].
    destruct (bool_decide _); cbn [app]; [done|]. rewrite put_out_app.
    destruct (styled_single_line _ _ _); run; [by rewrite put_out_app|done..].
Qed.

Lemma built_array_lines cfg notes write p l s :
  cs_ cfg = CommentAll -> l <> [] -> Z.of_nat (length l) < 2 ^ 32 ->
  writeArrayValue cfg notes write p (array_of l) s
  = (let s := indent cfg (writeWithIndent cfg (bs "[") s) in
     s ← @styled_elements (built_layout cfg notes) write p (array_of l) (length l - 1) 0
           (negb (bool_decide (childValues_ s = []))) s;
     s ← unindent cfg s; Ok (writeWithIndent cfg (bs "]") s)).
Proof.
  intros Hcs Hne Hl. unfold writeArrayValue. rewrite Hcs, array_size by done.
  destruct (Z.eqb_spec (Z.of_nat (length l)) 0) as [H0|_]; [destruct l; [done|simpl in H0; lia]|]. run.
  rewrite built_elements. by replace (Z.to_nat (Z.of_nat (length l)) - 1)%nat with (length l - 1)%nat by lia.
Qed.

(** ** Values *)

(** Every object in a value has the property, whatever the arrays around it. *)
Fixpoint every_object (P : list (bytes * Value) -> bool) (v : Value) : bool :=
  match v with
  | VArray m => forallb (fun kv => every_object P kv.2) m
  | VObject m => P m && forallb (fun kv => every_object P kv.2) m
  | _ => true
  end.

(** The number of members fits [unsigned]. *)
Definition countable : Value -> bool := every_object (fun m => Z.of_nat (length m) <? 2 ^ 32).

(** The names are C strings, without a NUL. *)
Definition c_names : Value -> bool := every_object (forallb (fun kv => bool_decide (NUL ∉ kv.1))).

Lemma every_object_element P v l : every_object P (array_of l) = true -> v ∈ l -> every_object P v = true.
Proof.
  cbn [every_object array_of]. intros Hc Hin. destruct (array_pairs_elem v l 0 Hin) as [k Hk].
  rewrite forallb_forall in Hc. apply (Hc (k, v)). by apply list_elem_of_In.
Qed.

Lemma every_object_member P m k v :
  every_object P (VObject m) = true -> (k, v) ∈ m -> P m = true /\ every_object P v = true.
Proof.
  cbn [every_object]. intros [HP Hm]%andb_true_iff Hin. split; [done|].
  rewrite forallb_forall in Hm. apply (Hm (k, v)). by apply list_elem_of_In.
Qed.

(** What is not a filled array or object is the same text for all writers. *)
Lemma flat_text d v :
  printable d v -> countable v = true -> nested v = false ->
  exists t, spells d v t /\
    (forall L notes fuel p s, @styled_writeValue L notes (S fuel) p v s = Ok (pushValue t s)) /\
    (forall cfg notes fuel p s, nullSymbol_ cfg = bs "null" ->
       writeValue cfg notes (S fuel) p v s = Ok (pushValue t s)).
Proof.
  intros Hv Hc Hn.
  destruct v as [|z|z|r|t|b|m|m]; try (by destruct d); cbn [styled_writeValue writeValue];
    unfold asLargestInt, asLargestUInt; cbn [asInt64 asUInt64 asBool getString].
  - exists (bs "null"). split_and!; [constructor|done|by intros cfg notes _ p s ->].
  - exists (valueToString_int z). split_and!; [apply spells_int; by destruct d|done|done].
  - exists (valueToString_uint z). split_and!; [apply spells_uint; by destruct d|done|done].
  - exists (valueToQuotedStringN t). split_and!; [apply sp_string, quoted_utf8; by destruct d|done|done].
  - exists (valueToString_bool b). split_and!; [destruct b; constructor|done|done].
  - destruct d as [|d]; [done|]. destruct Hv as (l & E & Hl & _). destruct l as [|v l].
    + rewrite E. exists (bs "[]"). split_and!; [by apply (sp_no_elements d []); constructor|done|done].
    + unfold nested, value_empty in Hn. rewrite E, array_size in Hn by done. exfalso.
      cbn [isArray isNull isObject array_of orb andb] in Hn. revert Hn.
      destruct (Z.eqb_spec (Z.of_nat (length (v :: l))) 0) as [H0|_]; [simpl in H0; lia|done].
  - destruct d as [|d]; [done|]. destruct m as [|kv m].
    + exists (bs "{}"). split_and!; [apply (sp_no_members d []); auto with reflector|done|done].
    + apply andb_true_iff in Hc as [Hc _]. apply Z.ltb_lt in Hc. exfalso.
      unfold nested, value_empty, value_size in Hn. cbn [isArray isNull isObject orb andb] in Hn. revert Hn.
      unfold u32. rewrite Z.mod_small by lia.
      destruct (Z.eqb_spec (Z.of_nat (length (kv :: m))) 0) as [H0|_]; [simpl in H0; lia|done].
Qed.

(** *** The older writers *)

Section Older.
Context {flagged : bool} {L : Layout} {opened : WState -> bytes -> Prop}.
Context {laws : LayoutLaws (collect := true) (flagged := flagged) L opened}.
Context (Hname : @member_name L = valueToQuotedString) (notes : Notes).

Lemma styled_pushed d v fuel :
  printable d v -> countable v = true -> (0 < fuel)%nat -> nested v = false ->
  is_pushed d (styled_writeValue notes fuel) v.
Proof.
  intros Hv Hc Hf Hn. destruct fuel as [|fuel]; [lia|].
  destruct (flat_text d v Hv Hc Hn) as (t & Ht & E & _). by exists t.
Qed.

Lemma styled_value_written d v fuel :
  printable d v -> countable v = true -> c_names v = true -> (value_depth v < fuel)%nat ->
  is_written (collect := true) (flagged := flagged) d (styled_writeValue notes fuel) v.
Proof using laws Hname.
  revert v fuel; induction d as [|d IH]; intros v fuel Hv Hc Hk Hf;
    (destruct (nested v) eqn:Hn; [|apply pushed_written, styled_pushed; [done|done|lia|done]]);
    destruct v as [|z|z|r|t|b|m|m]; try done; (destruct fuel as [|fuel]; [lia|]); intros p s Hs;
    cbn [styled_writeValue].
  - destruct Hv as (l & E & Hl & Hall). rewrite E in *. rewrite Forall_forall in Hall.
    apply (styled_array_written (collect := true)); [done|by intros ->|done|apply Forall_forall..|done];
      intros v Hin; pose proof (depth_element v l Hin); pose proof (every_object_element _ v l Hc Hin).
    + apply IH; [by apply Hall|done|by apply (every_object_element _ v l)|lia].
    + intros Hnv. apply styled_pushed; [by apply Hall|done|lia|done].
  - destruct Hv as [Hm Hall]. unfold getMemberNames, json_assert. cbn [isNull isObject orb]. run.
    destruct m as [|[k v] m]; [done|]. cbn [fmap list_fmap fst].
    apply (styled_object_written d (styled_writeValue notes fuel) p ((k, v) :: m) Hm); [done| |done].
    rewrite Forall_forall in Hall. apply Forall_forall. intros [k' v'] Hin.
    destruct (Hall _ Hin) as (K1 & K2 & K3). destruct (every_object_member _ _ _ _ Hc Hin) as [_ Hc'].
    destruct (every_object_member _ _ _ _ Hk Hin) as [Hk1 Hk'].
    rewrite forallb_forall in Hk1. pose proof (Hk1 (k', v') (proj1 (list_elem_of_In _ _) Hin)) as Hkn.
    apply bool_decide_eq_true in Hkn. cbn [fst snd] in *. split_and!; [done| |].
    + rewrite Hname. unfold valueToQuotedString. rewrite cstr_id by done. by apply quoted_utf8.
    + apply IH; [done..|]. apply depth_member in Hin. cbn [value_depth] in *. lia.
Qed.
End Older.

(** The root, on a line of its own. *)
Lemma root_written {collect flagged : bool} {L : Layout} {opened : WState -> bytes -> Prop}
    {laws : LayoutLaws (collect := collect) (flagged := flagged) L opened} d write v s :
  is_written (collect := collect) (flagged := flagged) d write v ->
  ready (collect := collect) (flagged := flagged) s -> sout_ s = [] ->
  exists s2 g t, write [] v (begin_element (before_value [] s)) = Ok s2 /\ gap g /\ spells d v t /\
    ready (collect := collect) (flagged := flagged) s2 /\ sout_ (end_element s2) = g ++ t.
Proof.
  intros Hv Hs Ho. destruct (before_adds [] [] s Hs) as (c & H1 & Hx & _); [apply opened_gap; auto with reflector|].
  destruct (element_begins _ _ (adds_ready _ _ _ H1) Hx) as (w1 & Hg & _ & P1 & Hend).
  destruct (Hv [] _ P1) as (s2 & w & t & E & Hw & Ht & H2). specialize (Hend _ _ H2).
  exists s2, ((c ++ w1) ++ w), t. split_and!; [done| |done|apply H2|].
  - apply gap_app; [exact Hg|by apply gap_blank].
  - rewrite (adds_out _ _ _ (adds_trans _ _ _ _ _ H1 Hend)), Ho. by rewrite <- !app_assoc.
Qed.

(** Blanks and comments, a value, and a newline behind blanks and comments. *)
Lemma document_closed d g w t c v :
  gap (g ++ w) -> spells d v t -> gap_end c -> document d v (((g ++ w ++ t) ++ c) ++ [LF]).
Proof.
  intros Hg Ht Hc. exists (g ++ w), t, (c ++ [LF]).
  split_and!; [done|done|by apply gap_ends, gap_end_newline; [|constructor]|by rewrite <- !app_assoc].
Qed.

Section OlderDocuments.
Context (notes : Notes) (Hlines : line_comments notes) (d : nat) (v : Value).
Context (Hv : printable d v) (Hc : countable v = true) (Hk : c_names v = true).

Lemma styled_document :
  trimmed_comments notes -> exists text, Styled.write notes v = Ok text /\ document d v text.
Proof using All.
  intros Htrim. pose proof (styled_laws notes Hlines Htrim) as laws. unfold Styled.write.
  set (s0 := MkWState [] [] [] false false).
  assert (ready (collect := true) (flagged := false) s0) as P0 by (by constructor; [|constructor|..]).
  destruct (styled_before_adds notes Hlines [] [] s0 P0) as (g & H1 & _ & _ & Hg); [left; auto with reflector|].
  specialize (Hg ltac:(auto with reflector)). cbv zeta in *.
  destruct (styled_value_written (L := Styled.layout notes) eq_refl notes d v (value_depth v + 1) Hv Hc Hk ltac:(lia) [] _ (adds_ready _ _ _ H1))
    as (s2 & w & t & E & Hw & Ht & H2).
  change (Styled.writeValue notes) with (@styled_writeValue (Styled.layout notes) notes). rewrite E. run.
  destruct (styled_after_adds notes Hlines Htrim [] s2 (adds_ready _ _ _ H2)) as (c & H3 & Hx & _).
  eexists. split; [reflexivity|]. rewrite (adds_out _ _ _ H3), (adds_out _ _ _ H2), (adds_out _ _ _ H1).
  apply document_closed; [by apply gap_app; [|apply gap_blank]|done|by eapply styled_opened_end].
Qed.

Lemma stream_document indentation :
  blank indentation -> exists text, Stream.write indentation notes v = Ok text /\ document d v text.
Proof using All.
  intros Hi. pose proof (stream_laws indentation notes Hi Hlines) as laws. unfold Stream.write.
  pose proof (styled_value_written (L := Stream.layout indentation notes) eq_refl notes d v
    (value_depth v + 1) Hv Hc Hk ltac:(lia)) as Hw.
  destruct (root_written (L := Stream.layout indentation notes) d _ v (MkWState [] [] [] false true) Hw)
    as (s2 & g & t & E & Hg & Ht & P2 & Eo); [by constructor; [|constructor|..]|done|].
  cbn [begin_element before_value Stream.layout] in E.
  change (Stream.writeValue indentation notes) with (@styled_writeValue (Stream.layout indentation notes) notes).
  cbv zeta. rewrite E. run.
  destruct (flag_after_adds notes True _ stream_newline Hlines (or_introl I) [] s2 P2) as (c & H3 & Hx & _).
  eexists. split; [reflexivity|].
  change (sout_ (Stream.writeCommentAfterValueOnSameLine notes [] s2)) with (sout_ (flag_after notes Stream.writeIndent [] s2)).
  rewrite (adds_out _ _ _ H3). change (sout_ (end_element s2)) with (sout_ s2) in Eo. rewrite Eo.
  by apply (document_closed d g [] t c); rewrite ?app_nil_r.
Qed.
End OlderDocuments.
(** *** The writer of [StreamWriterBuilder] *)

Section Built.
Context (cfg : WriterConfig) (notes : Notes) (Hcfg : prints cfg) (Hnotes : printable_comments cfg notes).

(** Whether it collects the values of a line. *)
Definition collects : bool := match cs_ cfg with CommentNone => true | CommentAll => false end.

#[local] Abbreviation ready := (ready (collect := collects) (flagged := true)).
#[local] Abbreviation adds := (adds (collect := collects) (flagged := true)).
#[local] Abbreviation is_written := (is_written (collect := collects) (flagged := true)).

Lemma built_scalar d v fuel :
  printable d v -> countable v = true -> (0 < fuel)%nat -> nested v = false ->
  is_pushed d (writeValue cfg notes fuel) v.
Proof using Hcfg.
  intros Hv Hc Hf Hn. destruct fuel as [|fuel]; [lia|].
  destruct (flat_text d v Hv Hc Hn) as (t & Ht & _ & E). exists t. split; [done|].
  intros p s. apply E. by apply prints_null.
Qed.

Section Array.
Context (d fuel : nat) (l : list Value).
Context (Hne : l <> []) (Hl : Z.of_nat (length l) < 2 ^ 32) (Hfuel : (0 < fuel)%nat).
Context (Hprint : Forall (printable d) l).
Context (Hwrite : Forall (is_written d (writeValue cfg notes fuel)) l).

Lemma built_array_written p s :
  cs_ cfg = CommentAll \/ countable (array_of l) = true -> ready s ->
  exists s' w t, writeArrayValue cfg notes (writeValue cfg notes fuel) p (array_of l) s = Ok s' /\
    blank w /\ spells (S d) (array_of l) t /\ adds s (w ++ t) s'.
Proof using Hcfg Hnotes Hne Hl Hfuel Hprint Hwrite.
  intros Hc Hs. pose proof (built_laws (collect := collects) cfg notes Hcfg Hnotes) as laws.
  destruct (cs_ cfg) eqn:Hcs.
  - destruct Hc as [?|Hc]; [done|]. rewrite built_array_collected by done.
    assert (collects = true) as Hcol by (unfold collects; by rewrite Hcs).
    apply (styled_array_written (L := built_layout cfg notes)); try done.
    apply Forall_forall. intros v Hin Hn. rewrite Forall_forall in Hprint.
    apply built_scalar; [by apply Hprint|by apply (every_object_element _ v l)|done|done].
  - rewrite built_array_lines by done. cbv zeta.
    assert (collects = false) as Hcol by (unfold collects; by rewrite Hcs).
    destruct (open_adds (L := built_layout cfg notes) (bs "[") s Hs) as (P2 & _ & _).
    pose proof (ready_children _ P2 Hcol) as Hch. cbn [layout_indent layout_writeWithIndent built_layout] in Hch.
    rewrite Hch, bool_decide_true by done. cbn [negb].
    apply (lines_written (L := built_layout cfg notes)); [done|done|done| |done].
    by rewrite (ready_children _ Hs Hcol).
Qed.
End Array.

Lemma built_value_written d v fuel :
  printable d v -> cs_ cfg = CommentAll \/ countable v = true -> (value_depth v < fuel)%nat ->
  is_written d (writeValue cfg notes fuel) v.
Proof using Hcfg Hnotes.
  pose proof (built_laws (collect := collects) cfg notes Hcfg Hnotes) as laws.
  revert v fuel; induction d as [|d IH]; intros v fuel Hv Hc Hf;
    destruct v as [|z|z|r|t|b|m|m]; try done; try (apply pushed_written, built_scalar; [done|done|lia|done]);
    (destruct fuel as [|fuel]; [lia|]).
  - destruct Hv as (l & E & Hl & Hall). rewrite E in *. destruct (decide (l = [])) as [->|Hne].
    { apply pushed_written, built_scalar; [by exists []|done|lia|done]. }
    pose proof Hall as Hp. rewrite Forall_forall in Hall. intros p s Hs. cbn [writeValue].
    destruct l as [|v0 l]; [done|]. pose proof (depth_element v0 (v0 :: l) ltac:(left)) as Hd0.
    apply built_array_written; [done|done|lia|done| |done|done].
    apply Forall_forall. intros v Hin. pose proof (depth_element v (v0 :: l) Hin).
    apply IH; [by apply Hall| |lia]. destruct Hc as [Hc|Hc]; [by left|right].
    by apply (every_object_element _ v (v0 :: l)).
  - destruct m as [|[k v] m]; [apply pushed_written, built_scalar; [done|done|lia|done]|].
    destruct Hv as [Hm Hall]. intros p s Hs. cbn [writeValue]. unfold getMemberNames, json_assert.
    cbn [isNull isObject orb]. run. cbn [fmap list_fmap fst].
    apply (styled_object_written (L := built_layout cfg notes) d (writeValue cfg notes fuel) p ((k, v) :: m) Hm);
      [done| |done].
    rewrite Forall_forall in Hall. apply Forall_forall. intros [k' v'] Hin.
    destruct (Hall _ Hin) as (K1 & K2 & K3). split_and!; [done|by apply quoted_utf8|]. cbn [snd].
    apply IH; [done| |apply depth_member in Hin; cbn [value_depth] in *; lia].
    destruct Hc as [Hc|Hc]; [by left|right]. by apply (every_object_member _ ((k, v) :: m) k' v').
Qed.

Lemma built_document d v :
  printable d v -> cs_ cfg = CommentAll \/ countable v = true ->
  exists text, write cfg notes v = Ok text /\ document d v text.
Proof using Hcfg Hnotes.
  intros Hv Hc. pose proof (built_laws (collect := collects) cfg notes Hcfg Hnotes) as laws. unfold write.
  destruct (root_written (L := built_layout cfg notes) d _ v (MkWState [] [] [] false true)
    (built_value_written d v (value_depth v + 1) Hv Hc ltac:(lia)))
    as (s2 & g & t & E & Hg & Ht & P2 & Eo); [by constructor; [|constructor|..]|done|].
  cbn [begin_element before_value built_layout] in E. cbv zeta. rewrite E. run.
  destruct (built_after_adds cfg notes Hnotes [] s2 P2) as (c & H3 & Hx & _).
  change (sout_ (end_element s2)) with (sout_ s2) in Eo.
  eexists. split; [reflexivity|]. exists g, t, c. split_and!; [done..|].
  cbn [sout_ put_out]. rewrite (adds_out _ _ _ H3), Eo, (prints_end _ Hcfg), app_nil_r. by rewrite app_assoc.
Qed.
End Built.

(** *** The settings *)

(** What a builder with blank indentation makes prints texts of the grammar,
    unless it drops nulls. *)
Lemma builder_prints settings cfg :
  newStreamWriter settings = Ok cfg -> blank (indentation_ cfg) -> nullSymbol_ cfg <> [] -> prints cfg.
Proof.
  unfold newStreamWriter. intros E. repeat (apply bind_Ok_inv in E as (? & _ & E)). injection E as <-.
  cbn [indentation_ nullSymbol_]. intros Hi Hn. constructor; [done| | |done].
  - cbn [colonSymbol_]. match goal with |- context [if ?eyc then bs ": " else _] => destruct eyc end;
      [exists [], (bs " ")|destruct (bool_decide _); [exists [], []|exists (bs " "), (bs " ")]];
      by split_and!; repeat constructor.
  - cbn [nullSymbol_] in *. by match goal with |- (if ?dnp then _ else _) = _ => destruct dnp end.
Qed.

Lemma default_prints : prints default_writer.
Proof.
  constructor; [by repeat constructor| |done|done].
  exists (bs " "), (bs " "). by split_and!; repeat constructor.
Qed.

(** The text of a value with the default settings. *)
Lemma writeString_document d v :
  printable d v -> exists text, writeString v = Ok text /\ document d v text.
Proof.
  intros Hv. unfold writeString. rewrite writeString_defaults.
  apply (built_document _ _ default_prints); [|done|by left].
  right. split; [apply line_comments_empty|by left].
Qed.

(** ** FastWriter *)

Section Fast.
Context (yaml omit : bool).

Lemma fast_elements_spell d write rest done_ :
  rest <> [] -> Forall (fun v => exists t, write v = Ok t /\ spells d v t) rest ->
  exists ts, fast_elements write (array_of (done_ ++ rest)) (length rest) (length done_)
    = Ok ((if (length done_ =? 0)%nat then [] else bs ",") ++ ts) /\ elements d rest ts.
Proof.
  intros Hne Hall. revert done_. induction Hall as [|v rest (t & E & Ht) Hall IH]; intros done_; [done|].
  cbn [length fast_elements]. rewrite index_middle. run. rewrite E. run. destruct rest as [|v' rest].
  - exists ([] ++ t ++ []). cbn [length fast_elements]. run. split; [done|]. apply el_last; auto with reflector.
  - destruct (IH ltac:(done) (done_ ++ [v])) as (ts & E' & Hts).
    rewrite <- app_assoc, length_app, Nat.add_1_r in E'. cbn [app Nat.eqb] in E'. rewrite E'. run.
    exists ([] ++ t ++ [] ++ bs "," ++ ts). split; [done|]. apply el_next; auto with reflector.
Qed.

Lemma fast_members_spell d write m first ms :
  map_sorted czstring_lt m -> ms `suffix_of` m -> ms <> [] ->
  Forall (fun kv => is_utf8 kv.1 /\ size kv.1 < 2 ^ 30 /\ exists t, write kv.2 = Ok t /\ spells d kv.2 t) ms ->
  exists ts, fast_members yaml write (VObject m) first ms.*1
    = Ok ((if first : bool then [] else bs ",") ++ ts) /\ members d ms ts.
Proof.
  intros Hm Hsuf Hne Hall. revert first Hsuf.
  induction Hall as [|[k v] ms (Hk & Hks & t & E & Ht) Hall IH]; intros first Hsuf; [done|]. cbn [fst snd] in *.
  assert (Hc : member_const (VObject m) k = Ok v).
  { rewrite (member_const_members _ m) by done. erewrite (find_In czstring_lt); [done|done|].
    destruct Hsuf as [pre ->]. set_solver. }
  cbn [fmap list_fmap fst fast_members]. rewrite Hc. run. rewrite E. run.
  set (w := if yaml then bs " " else []).
  assert (blank w) as Hw by (unfold w; destruct yaml; by repeat constructor).
  replace (if yaml then bs ": " else bs ":") with (bs ":" ++ w) by (unfold w; by destruct yaml).
  set (q := valueToQuotedStringN k). assert (quoted k q) as Hq by (by apply quoted_utf8).
  destruct ms as [|kv ms].
  - exists ([] ++ q ++ [] ++ bs ":" ++ w ++ t ++ []). cbn [fmap list_fmap fast_members]. run.
    split; [by rewrite <- !app_assoc|]. apply me_last; auto with reflector.
  - destruct (IH ltac:(done) false) as (ts & E' & Hts).
    { destruct Hsuf as [pre ->]. exists (pre ++ [(k, v)]). by rewrite <- app_assoc. }
    rewrite E'. run.
    exists ([] ++ q ++ [] ++ bs ":" ++ w ++ t ++ [] ++ bs "," ++ ts).
    split; [by rewrite <- !app_assoc|]. apply me_next; auto with reflector.
Qed.

Lemma fast_value_spells d v fuel :
  printable d v -> (value_depth v < fuel)%nat ->
  exists t, fast_writeValue yaml false fuel v = Ok t /\ spells d v t.
Proof.
  revert v fuel; induction d as [|d IH]; intros v fuel Hv Hf; (destruct fuel as [|fuel]; [lia|]);
    destruct v as [|z|z|r|t|b|m|m]; cbn [printable] in Hv; try done; cbn [fast_writeValue]; unfold asLargestInt,
      asLargestUInt; cbn [asInt64 asUInt64 asBool getString]; run;
    try (eexists; split; [reflexivity|]; first [by constructor|by destruct b; constructor|by apply spells_int|
         by apply spells_uint|by apply sp_string, quoted_utf8]).
  - destruct Hv as (l & E & Hl & Hall). rewrite E in *. rewrite array_size, Nat2Z.id by done.
    destruct (decide (l = [])) as [->|Hne].
    { exists (bs "[]"). split; [done|]. by apply (sp_no_elements d []); constructor. }
    destruct (fast_elements_spell d (fast_writeValue yaml false fuel) l [] Hne) as (ts & Et & Hts).
    { rewrite Forall_forall in Hall. apply Forall_forall. intros v Hin. apply IH; [by apply Hall|].
      pose proof (depth_element v l Hin). lia. }
    cbn [app length Nat.eqb] in Et. rewrite Et. run. eexists. split; [reflexivity|]. by apply sp_array.
  - destruct Hv as [Hm Hall]. unfold getMemberNames, json_assert. cbn [isNull isObject orb]. run.
    destruct (decide (m = [])) as [->|Hne].
    { exists (bs "{}"). split; [done|]. apply (sp_no_members d []); auto with reflector. }
    destruct (fast_members_spell d (fast_writeValue yaml false fuel) m true m Hm) as (ts & Et & Hts);
      [done|done| |].
    { rewrite Forall_forall in Hall. apply Forall_forall. intros [k v] Hin.
      destruct (Hall _ Hin) as (K1 & K2 & K3). split_and!; [done|done|]. apply IH; [done|].
      apply depth_member in Hin. cbn [value_depth snd] in *. lia. }
    rewrite Et. run. cbn [app]. eexists. split; [reflexivity|].
    rewrite <- (object_of_sorted _ Hm). by apply sp_object.
Qed.

Lemma fast_document d v :
  printable d v -> exists text, fast_write yaml false omit v = Ok text /\ document d v text.
Proof.
  intros Hv. unfold fast_write.
  destruct (fast_value_spells d v (value_depth v + 1) Hv ltac:(lia)) as (t & -> & Ht). run.
  eexists. split; [reflexivity|]. exists [], t, (if omit then [] else [LF]).
  split_and!; [by repeat constructor|done|by destruct omit; repeat constructor|done].
Qed.
End Fast.

(** ** Round trips *)

(** C6: with any settings that indent with blanks and do not drop nulls, what a
    [StreamWriterBuilder]'s writer prints for a value of integers, booleans,
    null, Unicode texts, arrays and objects, nested at most 999 deep, with
    comments at any of its places, [parse_json] reads back as the same value,
    without an error, whenever the text is shorter than half a gigabyte.  The
    comments are blanks and comments; only if the writer breaks lines may the
    line of the last one be left open.  A writer without comments needs the
    members of an object to be counted by [unsigned].  [writeString] is the case
    of the default settings and no comments. *)
Theorem json_round_trip (d : nat) (v settings : Value) (cfg : WriterConfig) (notes : Notes)
    (Hv : printable d v) (Hdepth : (d <= 999)%nat) (Hcfg : newStreamWriter settings = Ok cfg)
    (Hblank : blank (indentation_ cfg)) (Hnull : nullSymbol_ cfg <> [])
    (Hcount : cs_ cfg = CommentAll \/ countable v = true) (Hnotes : printable_comments cfg notes) :
  exists text, write cfg notes v = Ok text /\
    (size text < 2 ^ 29 -> parse_json text = Ok (true, v, [])).
Proof.
  destruct (built_document cfg notes (builder_prints settings cfg Hcfg Hblank Hnull) Hnotes d v Hv Hcount)
    as (text & E & Hd).
  exists text. split; [done|]. intros Hs. by apply (document_parses d).
Qed.

(** An offer with a nested list and characters of one to four bytes. *)
Definition sample_value : Value :=
  VObject [ (bs "list", array_of [VInt (-7); VBool true; VNull; VObject []]);
            (bs "type", VString (utf8 [111; 233; 8364; 128512; 10])) ].

Lemma sample_printable : printable 3 sample_value.
Proof.
  split; [by repeat constructor|]. constructor; [|constructor; [|constructor]]; cbn [fst snd].
  - split_and!; [|vm_compute; reflexivity|].
    + exists [108; 105; 115; 116]. split; [repeat constructor; lia|reflexivity].
    + eexists. split; [reflexivity|]. split; [vm_compute; reflexivity|].
      repeat constructor; vm_compute; (discriminate || done).
  - split_and!; [|vm_compute; reflexivity|].
    + exists [116; 121; 112; 101]. split; [repeat constructor; lia|reflexivity].
    + eexists. split; [|reflexivity]. repeat constructor; lia.
Qed.

(** Comments for it: of both kinds in front of the root and of an element, and
    one on the line of a member. *)
Definition sample_comment : bytes := bs "//x" ++ LF :: bs "/*y*/".

Definition sample_notes : Notes :=
  list_to_map [ ([], MkMeta (Some (MkCommentArray sample_comment [] (bs "//z"))) 0 0);
                ([Member (bs "list")], MkMeta (Some (MkCommentArray [] (bs "//z") [])) 0 0);
                ([Element 1; Member (bs "list")], MkMeta (Some (MkCommentArray sample_comment [] [])) 0 0) ].

(** What holds of the comments of the notes and of no comment. *)
Lemma every_comment (P : bytes -> Prop) n :
  P [] -> map_Forall (fun _ m => forall slot, P (comments_get slot (comments_ m))) n ->
  forall p slot, P (getComment p slot n).
Proof.
  intros H0 Hn p slot. unfold getComment, meta_at. destruct (n !! p) as [m|] eqn:E; [by apply (Hn p m)|done].
Qed.

Lemma every_sample_comment (P : bytes -> Prop) :
  P [] -> P sample_comment -> P (bs "//z") -> forall p slot, P (getComment p slot sample_notes).
Proof.
  intros H0 H1 H2. apply every_comment; [done|]. unfold sample_notes. cbn [list_to_map foldr uncurry fst snd].
  repeat apply map_Forall_insert_2; [..|apply map_Forall_empty]; by intros [].
Qed.

Lemma sample_lines : line_comments sample_notes.
Proof.
  intros p slot. apply (every_sample_comment gap_end); [auto with reflector| |].
  - apply (gap_end_comment [] (bs "//x" ++ [LF]) (bs "/*y*/")); [constructor| |].
    + apply (comment_line (bs "x") [LF]); [no_newline|apply not_elem_of_cons; split; [done|apply not_elem_of_nil]|by left].
    + apply gap_ends, (gap_comment [] (bs "/*y*/") []); [constructor|apply (comment_c (bs "y")), short_unclosed|].
      auto with reflector.
  - apply (gap_end_line [] (bs "z")); [constructor|no_newline|apply not_elem_of_cons; split; [done|apply not_elem_of_nil]].
Qed.

Lemma sample_trimmed : trimmed_comments sample_notes.
Proof. intros p slot. by apply (every_sample_comment (fun c => last c <> Some " "%char)). Qed.

(** The writer of the default settings: comments on their lines, also behind
    the root. *)
Lemma json_round_trip_witness :
  exists settings text, StreamWriterBuilder_setDefaults VNull = Ok settings /\
    newStreamWriter settings = Ok default_writer /\
    write default_writer sample_notes sample_value = Ok text /\ parse_json text = Ok (true, sample_value, []).
Proof.
  assert (match write default_writer sample_notes sample_value with Ok t => size t <? 2 ^ 29 | _ => false end = true) as K
    by (vm_compute; reflexivity).
  destruct (StreamWriterBuilder_setDefaults VNull) as [settings| | |] eqn:E; [|discriminate E..].
  assert (newStreamWriter settings = Ok default_writer) as Ew.
  { injection E as <-. vm_compute. reflexivity. }
  destruct (json_round_trip 3 sample_value settings default_writer sample_notes sample_printable) as (text & Et & H);
    [lia|exact Ew|by repeat constructor|discriminate|by left| |].
  { right. split; [exact sample_lines|by left]. }
  rewrite Et in K. exists settings, text. split; [reflexivity|]. split; [exact Ew|]. split; [exact Et|].
  apply H, Z.ltb_lt, K.
Defined.

(** C8: what [StyledWriter], [StyledStreamWriter] (with any blank
    indentation) and [FastWriter] (with nulls written out, and the other
    options as one likes) print for a value of integers, booleans, null, Unicode
    texts, arrays and objects, nested at most 999 deep, [parse_json] reads back
    as the same value, without an error, whenever the text is shorter than half
    a gigabyte; for the first two the names of members must not have a NUL, and
    their number must fit [unsigned].  [FastWriter] leaves comments out; with
    the others every place of the value may have comments of both kinds, whose
    lines may be left open, but which do not end with a space. *)
Theorem every_writer_round_trips (d : nat) (v : Value) (indentation : bytes) (notes : Notes) (yaml omit : bool)
    (Hv : printable d v) (Hnames : c_names v = true) (Hcount : countable v = true)
    (Hdepth : (d <= 999)%nat) (Hblank : blank indentation)
    (Hlines : line_comments notes) (Htrim : trimmed_comments notes) :
  Forall (fun written => exists text, written = Ok text /\
            (size text < 2 ^ 29 -> parse_json text = Ok (true, v, [])))
    [Styled.write notes v; Stream.write indentation notes v; fast_write yaml false omit v].
Proof.
  assert (forall written, (exists text, written = Ok text /\ document d v text) ->
    exists text, written = Ok text /\ (size text < 2 ^ 29 -> parse_json text = Ok (true, v, []))) as Hread.
  { intros written (text & E & Hd). exists text. split; [done|]. intros. by apply (document_parses d). }
  repeat constructor; apply Hread.
  - by apply (styled_document notes Hlines d v).
  - by apply (stream_document notes Hlines d v).
  - by apply fast_document.
Qed.

(** An object with a list over several lines, from each of the writers. *)
Definition sample_texts : list (outcome bytes) :=
  [Styled.write sample_notes sample_value; Stream.write (bs "  ") sample_notes sample_value;
   fast_write true false false sample_value].

Lemma every_writer_round_trips_witness :
  Forall (fun written => exists text, written = Ok text /\
            (size text < 2 ^ 29 -> parse_json text = Ok (true, sample_value, []))) sample_texts.
Proof.
  apply (every_writer_round_trips 3 sample_value (bs "  ") sample_notes true false sample_printable);
    [vm_compute; reflexivity|vm_compute; reflexivity|lia|repeat constructor|exact sample_lines|exact sample_trimmed].
Defined.

(** ** Comments that are not read back *)

(** A line comment of the only element. *)
Definition line_comment_of_element (c : bytes) : Notes :=
  {[ [Element 0] := MkMeta (Some (MkCommentArray [] c [])) 0 0 ]}.

(** [StyledWriter] takes a space at the end of a comment for the indentation of
    the next line: the closing bracket gets into the comment. *)
Example styled_space_swallows :
  exists text v e, Styled.write (line_comment_of_element (bs "//x ")) (array_of [VInt 1]) = Ok text /\
    parse_json text = Ok (false, v, e) /\ e <> [].
Proof. do 3 eexists. split; [vm_compute; reflexivity|]. split; [vm_compute; reflexivity|discriminate]. Qed.

(** Without indentation the builder's writer breaks no lines, not even those of
    comments. *)
Example built_line_swallows :
  exists text v e,
    write (MkWriterConfig [] CommentAll (bs ":") (bs "null") [] false 17 significantDigits)
      (line_comment_of_element (bs "//x")) (array_of [VInt 1]) = Ok text /\
    parse_json text = Ok (false, v, e) /\ e <> [].
Proof. do 3 eexists. split; [vm_compute; reflexivity|]. split; [vm_compute; reflexivity|discriminate]. Qed.
