(* ===== verification/JsonStream.v ===== *)
(** * Json values in streams (the global functions of jsoncpp.cpp)

    A stream is the bytes to read, or those written.  What [operator<<] writes,
    [operator>>] reads back. *)
From Stdlib Require Import ZArith Ascii String Lia.
From stdpp Require Import base tactics list gmap.
From S2P Require Import Prelude CLib CDouble JsonValue JsonNotes JsonReader JsonReaderProofs JsonWriter.
From S2P Require Import JsonGrammar JsonGap JsonParseProofs JsonPrintProofs JsonWriterProofs.

#[local] Open Scope Z_scope.

(** [parseFromStream(fact, sin, root, errs)] with a builder's settings: all of
    the stream is read into a string, which is parsed. *)
Definition parseFromStream (fact : Value) (sin : bytes) (root : Value) : outcome (bool * Value * bytes) :=
  '(collectComments, features) ← newCharReader fact;
  OurCharReader_parse (c_str sin) (length sin) features collectComments root.

(** [sin >> root] *)
Definition operator_in (sin : bytes) (root : Value) : outcome Value :=
  b ← CharReaderBuilder_setDefaults VNull;
  '(ok, root, errs) ← parseFromStream b sin root;
  if negb ok then Throw ExRuntime else Ok root.

(** [sout << root]: what is appended. *)
Definition operator_out (notes : Notes) (root : Value) : outcome bytes :=
  builder ← StreamWriterBuilder_setDefaults VNull;
  writer ← newStreamWriter builder;
  write writer notes root.

(** [toStyledString()] *)
Definition toStyledString (notes : Notes) (root : Value) : outcome bytes :=
  let out := if hasComment [] commentBefore notes then [LF] else [] in
  text ← writeString_noted notes root;
  Ok ((out ++ text) ++ [LF]).

Lemma operator_in_null sin :
  operator_in sin VNull = ('(ok, root, _) ← parse_json sin; if negb ok then Throw ExRuntime else Ok root).
Proof.
  unfold operator_in, parse_json, parseFromStream.
  destruct (CharReaderBuilder_setDefaults VNull) as [b| | |]; [|done..]. run.
  by destruct (newCharReader b) as [[cc f]| | |].
Qed.

(** What is written to a stream, comments and all, is read back from it, also
    behind blanks and other comments; so is the styled string. *)
Lemma streams_round_trip d v notes :
  printable d v -> (d <= 999)%nat -> line_comments notes ->
  exists text styled, operator_out notes v = Ok text /\ toStyledString notes v = Ok styled /\
    (forall w, gap w -> size (w ++ text) < 2 ^ 29 -> operator_in (w ++ text) VNull = Ok v) /\
    (size styled < 2 ^ 29 -> operator_in styled VNull = Ok v).
Proof.
  intros Hv Hd Hn.
  assert (printable_comments default_writer notes) as Hp by (right; split; [done|by left]).
  destruct (built_document default_writer notes default_prints Hp d v Hv) as (text & E & u1 & t & u2 & H1 & Ht & H2 & ->);
    [by left|].
  rewrite <- writeString_defaults in E. set (out := if hasComment [] commentBefore notes then [LF] else []).
  exists (u1 ++ t ++ u2), ((out ++ u1 ++ t ++ u2) ++ [LF]).
  split_and!; [exact E|unfold toStyledString; rewrite E; by run|intros w Hw Hs|intros Hs];
    rewrite operator_in_null, (document_parses d v); try done.
  - exists (w ++ u1), t, u2. split_and!; [by apply gap_app|done..|]. by rewrite <- !app_assoc.
  - exists (out ++ u1), t, (u2 ++ [LF]).
    split_and!; [|done|by apply gap_ends, gap_end_newline; [|constructor]|by rewrite <- !app_assoc].
    apply blank_gap; [unfold out; destruct (hasComment _ _ _); by repeat constructor|done].
Qed.

(** A text with comments between its tokens can be read and written again: with
    the comments the reader has given to the values (JsonComments.v says which),
    what [operator<<] writes is read back as the same value. *)
Lemma commented_text_rewritten d v text :
  document d v text -> printable d v -> (d <= 999)%nat -> size text < 2 ^ 29 ->
  exists s written,
    OurReader_parse (c_str text) (length text) default_features true VNull ∅ = Ok (true, v, s) /\
    errors_ s = [] /\ operator_out (notes_ s) v = Ok written /\
    (size written < 2 ^ 29 -> parse_json written = Ok (true, v, [])).
Proof.
  intros Hdoc Hv Hdepth Hsize.
  destruct (document_read d v text Hdoc Hdepth Hsize) as (s & E & He & Hn).
  destruct (built_document default_writer (notes_ s) default_prints) with (d := d) (v := v)
    as (written & Ew & Hw); [right; by split; [|left]|done|by left|].
  rewrite <- writeString_defaults in Ew. exists s, written. split_and!; [done..|exact Ew|].
  intros Hs. by apply (document_parses d).
Qed.

(** A list with a comment in front of it, one behind its only element and one
    behind the list. *)
Definition commented_list : bytes :=
  bs "//x" ++ LF :: bs "[" ++ bs "1" ++ bs "/*y*/" ++ bs "]" ++ bs "//z".

Lemma commented_list_document : document 1 (array_of [VInt 1]) commented_list.
Proof.
  assert (forall c, c <> LF -> LF ∉ [c]) as Hl by (intros c Hc; apply not_elem_of_cons; split; [done|apply not_elem_of_nil]).
  assert (forall c, c <> CR -> CR ∉ [c]) as Hr by (intros c Hc; apply not_elem_of_cons; split; [done|apply not_elem_of_nil]).
  exists (bs "//x" ++ [LF]), (bs "[" ++ ([] ++ bs "1" ++ bs "/*y*/") ++ bs "]"), (bs "//z"). split_and!.
  - apply (gap_comment [] (bs "//x" ++ [LF]) []); [constructor| |auto with reflector].
    apply (comment_line (bs "x") [LF]); [by apply Hl|by apply Hr|by left].
  - apply sp_array, el_last; [auto with reflector| |].
    + apply (sp_int 0 (bs "1")); [split; [by repeat constructor|done]|vm_compute; discriminate].
    + apply (gap_comment [] (bs "/*y*/") []); [constructor|apply (comment_c (bs "y")), short_unclosed|auto with reflector].
  - apply (gap_end_line [] (bs "z")); [constructor|by apply Hl|by apply Hr].
  - reflexivity.
Qed.

(** The list as it is written again: all comments are there, each where it
    was. *)
Example commented_list_again :
  ('(_, v, s) ← OurReader_parse (c_str commented_list) (length commented_list) default_features true VNull ∅;
   operator_out (notes_ s) v)
  = Ok (bs "//x" ++ LF :: bs "[" ++ LF :: "009"%char :: bs "1 /*y*/" ++ LF :: bs "] //z").
Proof. vm_compute. reflexivity. Qed.

(** The comment in [parseFromStream] says that no null-terminator is needed.
    For the position of an error behind a last carriage return, the reader
    looks at the byte behind the text. *)
Example terminator_is_read :
  OurCharReader_parse (bs "[" ++ [CR]) 2 default_features true VNull = UB OutOfBounds /\
  operator_in (bs "[" ++ [CR]) VNull = Throw ExRuntime.
Proof. split; vm_compute; reflexivity. Qed.
