(* ===== verification/Log.v ===== *)
(** * Diagnostics (log.h, log.cpp)

    What [logWrite] prints.  The other files leave their calls of it out: they
    write to the standard output and change no state of the program. *)
From Stdlib Require Import ZArith Ascii String Lia.
From stdpp Require Import base tactics list.
From S2P Require Import Prelude CLib.

#[local] Open Scope Z_scope.

Definition HTTP_LOG_ERROR : Z := 1.
Definition HTTP_LOG_DEBUG : Z := 2.

(** [logWrite(level, fmt, ...)]: the characters printed. *)
Definition logWrite (g_log level : Z) (fmt : bytes) (args : list arg) : outcome bytes :=
  if (level =? HTTP_LOG_DEBUG) && (g_log =? 0) then Ok []
  else t ← vformat (cstr fmt) args; Ok (t ++ [LF]).

(** [g_log] as [main] sets it from the value of ENABLE_LOG. *)
Definition log_setting (atoi : bytes -> Z) (env : option bytes) : Z :=
  match env with
  | Some e => if 0 <? atoi e then atoi e else 0
  | None => 0
  end.
