(* ===== verification/MessageQueue.v ===== *)
(** * The message queue between threads (message_queue.h, message_queue.cpp)

    [enqueue] and [dequeue] as the steps their threads take: locking and
    unlocking the mutex, waiting on the condition variable (which releases the
    mutex), a wake-up by [notify_all], by the timeout of 100 ms or for no
    reason, and the accesses to the queue in between.  [step] runs one thread
    by one step; a schedule is any sequence of steps of any threads. *)
From Stdlib Require Import ZArith Lia.
From stdpp Require Import base tactics list gmap.
From S2P Require Import Prelude.

#[local] Open Scope Z_scope.

(** A message in front of the queue, and the queue behind it: [front] and
    [pop] of an empty queue are undefined. *)
Definition front {A} (q : list A) : outcome A :=
  match q with [] => UB OutOfBounds | m :: _ => Ok m end.
Definition pop {A} (q : list A) : outcome (list A) :=
  match q with [] => UB OutOfBounds | _ :: q => Ok q end.

(** [std::cv_status] *)
Inductive cv_status := no_timeout | timeout.

#[export] Instance cv_status_eq_dec : EqDecision cv_status.
Proof. solve_decision. Defined.

(** Where a thread is in a call. *)
Inductive pc :=
  | Idle
  | EnqueueLock (message : bytes)
  | EnqueuePush (message : bytes)
  | EnqueueNotify
  | EnqueueUnlock
  | DequeueLock
  | DequeueTest
  | DequeueWait
  | DequeueRelock (status : cv_status)
  | DequeueStatus (status : cv_status)
  | DequeueFront
  | DequeuePop (message : bytes)
  | DequeueUnlock (result : option bytes)
  | EnqueueReturn
  | DequeueReturn (result : option bytes).

#[export] Instance pc_eq_dec : EqDecision pc.
Proof. solve_decision. Defined.

Abbreviation tid := nat.

Record MessageQueue := MkMessageQueue {
  m_queue : list bytes;
  m_mutex : option tid;
  threads : gmap tid pc
}.

Definition new_MessageQueue : MessageQueue := MkMessageQueue [] None ∅.

Definition at_pc (s : MessageQueue) (t : tid) : pc := default Idle (threads s !! t).

Definition go (t : tid) (p : pc) (s : MessageQueue) : MessageQueue :=
  MkMessageQueue (m_queue s) (m_mutex s) (<[t := p]> (threads s)).
Definition set_queue (q : list bytes) (s : MessageQueue) : MessageQueue :=
  MkMessageQueue q (m_mutex s) (threads s).
Definition set_mutex (o : option tid) (s : MessageQueue) : MessageQueue :=
  MkMessageQueue (m_queue s) o (threads s).

(** What decides a step besides the state: the call an idle thread makes, and
    how a waiting thread wakes up. *)
Inductive choice :=
  | CallEnqueue (message : bytes)
  | CallDequeue
  | Wake (status : cv_status)
  | Proceed.

Definition woken (p : pc) : pc :=
  match p with DequeueWait => DequeueRelock no_timeout | _ => p end.

(** [m_condvar.notify_all()] *)
Definition notify_all (s : MessageQueue) : MessageQueue :=
  MkMessageQueue (m_queue s) (m_mutex s) (woken <$> threads s).

(** Takes the mutex and goes on at [p], when it is free. *)
Definition lock (t : tid) (p : pc) (s : MessageQueue) : option (outcome MessageQueue) :=
  match m_mutex s with
  | None => Some (Ok (go t p (set_mutex (Some t) s)))
  | Some _ => None
  end.

(** One step of thread [t]; [None] when it has none. *)
Definition step (t : tid) (c : choice) (s : MessageQueue) : option (outcome MessageQueue) :=
  match at_pc s t, c with
  | Idle, CallEnqueue message => Some (Ok (go t (EnqueueLock message) s))
  | EnqueueLock message, Proceed => lock t (EnqueuePush message) s
  | EnqueuePush message, Proceed =>
      Some (Ok (go t EnqueueNotify (set_queue (m_queue s ++ [message]) s)))
  | EnqueueNotify, Proceed => Some (Ok (go t EnqueueUnlock (notify_all s)))
  | EnqueueUnlock, Proceed => Some (Ok (go t EnqueueReturn (set_mutex None s)))
  | Idle, CallDequeue => Some (Ok (go t DequeueLock s))
  | DequeueLock, Proceed => lock t DequeueTest s
  | DequeueTest, Proceed =>
      Some (Ok (if (length (m_queue s) =? 0)%nat then go t DequeueWait (set_mutex None s)
                else go t DequeueFront s))
  | DequeueWait, Wake status => Some (Ok (go t (DequeueRelock status) s))
  | DequeueRelock status, Proceed => lock t (DequeueStatus status) s
  | DequeueStatus status, Proceed =>
      Some (Ok (if decide (status = timeout) then go t (DequeueUnlock None) s
                else go t DequeueTest s))
  | DequeueFront, Proceed => Some (m ← front (m_queue s); Ok (go t (DequeuePop m) s))
  | DequeuePop message, Proceed =>
      Some (q ← pop (m_queue s); Ok (go t (DequeueUnlock (Some message)) (set_queue q s)))
  | DequeueUnlock result, Proceed => Some (Ok (go t (DequeueReturn result) (set_mutex None s)))
  | EnqueueReturn, Proceed => Some (Ok (go t Idle s))
  | DequeueReturn _, Proceed => Some (Ok (go t Idle s))
  | _, _ => None
  end.

(** What [dequeue] returns, and the message it has stored. *)
Definition dequeue_result (r : option bytes) : Z := match r with Some _ => 0 | None => -1 end.

(** A schedule, run to its end; a thread without a step is left alone. *)
Fixpoint run_schedule (l : list (tid * choice)) (s : MessageQueue) : outcome MessageQueue :=
  match l with
  | [] => Ok s
  | (t, c) :: l =>
      match step t c s with
      | Some m => s ← m; run_schedule l s
      | None => run_schedule l s
      end
  end.

(** The messages a step adds to the queue and those it takes away. *)
Definition pushed_by (t : tid) (c : choice) (s : MessageQueue) : list bytes :=
  match at_pc s t, c with EnqueuePush m, Proceed => [m] | _, _ => [] end.
Definition popped_by (t : tid) (c : choice) (s : MessageQueue) : list bytes :=
  match at_pc s t, c with DequeuePop m, Proceed => [m] | _, _ => [] end.

(** [run_schedule], with the messages added and taken so far. *)
Fixpoint run_log (l : list (tid * choice)) (s : MessageQueue) (pushed popped : list bytes)
  : outcome (MessageQueue * list bytes * list bytes) :=
  match l with
  | [] => Ok (s, pushed, popped)
  | (t, c) :: l =>
      match step t c s with
      | Some m =>
          s' ← m;
          run_log l s' (pushed ++ pushed_by t c s) (popped ++ popped_by t c s)
      | None => run_log l s pushed popped
      end
  end.

(** ** What the callers see *)

(** Calls with the message handed in, and returns with the message handed out. *)
Inductive event :=
  | CallsEnqueue (t : tid) (message : bytes)
  | ReturnsEnqueue (t : tid)
  | CallsDequeue (t : tid)
  | ReturnsDequeue (t : tid) (result : option bytes).

Definition events_by (t : tid) (c : choice) (s : MessageQueue) : list event :=
  match at_pc s t, c with
  | Idle, CallEnqueue message => [CallsEnqueue t message]
  | Idle, CallDequeue => [CallsDequeue t]
  | EnqueueReturn, Proceed => [ReturnsEnqueue t]
  | DequeueReturn result, Proceed => [ReturnsDequeue t result]
  | _, _ => []
  end.

(** [run_schedule], with what the callers see of it. *)
Fixpoint run_trace (l : list (tid * choice)) (s : MessageQueue) : outcome (MessageQueue * list event) :=
  match l with
  | [] => Ok (s, [])
  | (t, c) :: l =>
      match step t c s with
      | Some m => s' ← m; '(s'', tr) ← run_trace l s'; Ok (s'', events_by t c s ++ tr)
      | None => run_trace l s
      end
  end.

(** ** The specification: an atomic queue

    Every call takes effect at one silent step between its call and its return.
    [dequeue] fails only after a moment at which the queue was empty. *)

Inductive phase :=
  | SIdle
  | SEnqueue (message : bytes)
  | SDequeue (saw_empty : bool)
  | SEnqueued
  | SDequeued (result : option bytes).

Record Spec := MkSpec { s_queue : list bytes; s_phase : tid -> phase }.

Definition new_Spec : Spec := MkSpec [] (fun _ => SIdle).

Definition spec_go (t : tid) (p : phase) (s : Spec) (s' : Spec) : Prop :=
  s_phase s' t = p /\ (forall u, u <> t -> s_phase s' u = s_phase s u).

Inductive spec_step : Spec -> option event -> Spec -> Prop :=
  | spec_stutter s s' :
      s_queue s' = s_queue s -> (forall t, s_phase s' t = s_phase s t) -> spec_step s None s'
  | spec_call_enqueue s s' t m :
      s_phase s t = SIdle -> s_queue s' = s_queue s -> spec_go t (SEnqueue m) s s' ->
      spec_step s (Some (CallsEnqueue t m)) s'
  | spec_call_dequeue s s' t :
      s_phase s t = SIdle -> s_queue s' = s_queue s -> spec_go t (SDequeue false) s s' ->
      spec_step s (Some (CallsDequeue t)) s'
  | spec_enqueue s s' t m :
      s_phase s t = SEnqueue m ->
      s_queue s' = s_queue s ++ [m] -> spec_go t SEnqueued s s' -> spec_step s None s'
  | spec_see s s' t b :
      s_phase s t = SDequeue b -> s_queue s = [] ->
      s_queue s' = [] -> spec_go t (SDequeue true) s s' -> spec_step s None s'
  | spec_retry s s' t b :
      s_phase s t = SDequeue b ->
      s_queue s' = s_queue s -> spec_go t (SDequeue false) s s' -> spec_step s None s'
  | spec_fail s s' t :
      s_phase s t = SDequeue true ->
      s_queue s' = s_queue s -> spec_go t (SDequeued None) s s' -> spec_step s None s'
  | spec_dequeue s s' t b m :
      s_phase s t = SDequeue b -> s_queue s = m :: s_queue s' ->
      spec_go t (SDequeued (Some m)) s s' -> spec_step s None s'
  | spec_return_enqueue s s' t :
      s_phase s t = SEnqueued -> s_queue s' = s_queue s -> spec_go t SIdle s s' ->
      spec_step s (Some (ReturnsEnqueue t)) s'
  | spec_return_dequeue s s' t r :
      s_phase s t = SDequeued r -> s_queue s' = s_queue s -> spec_go t SIdle s s' ->
      spec_step s (Some (ReturnsDequeue t r)) s'.

(** An execution of the atomic queue and what its callers see. *)
Inductive spec_run : Spec -> list event -> Spec -> Prop :=
  | run_done s : spec_run s [] s
  | run_step s1 e s2 tr s3 :
      spec_step s1 e s2 -> spec_run s2 tr s3 -> spec_run s1 (option_list e ++ tr) s3.

(** The specification's phase of a thread. *)
Definition phase_of (p : pc) : phase :=
  match p with
  | Idle => SIdle
  | EnqueueLock m | EnqueuePush m => SEnqueue m
  | EnqueueNotify | EnqueueUnlock | EnqueueReturn => SEnqueued
  | DequeueLock | DequeueTest | DequeueFront | DequeuePop _ => SDequeue false
  | DequeueWait | DequeueRelock _ | DequeueStatus _ => SDequeue true
  | DequeueUnlock r | DequeueReturn r => SDequeued r
  end.

Definition abstract (s : MessageQueue) : Spec :=
  MkSpec (m_queue s) (fun t => phase_of (at_pc s t)).

(** ** The queue as one thread at a time sees it *)

(** A call of [enqueue] and one of [dequeue] that nothing interrupts: the
    latter fails when the wait for a message times out. *)
Definition enqueue (message : bytes) (q : list bytes) : list bytes := q ++ [message].
Definition dequeue (q : list bytes) : option bytes * list bytes :=
  match q with [] => (None, []) | m :: q => (Some m, q) end.
