(* ===== verification/MessageQueueProofs.v ===== *)
(** * The message queue: mutual exclusion, order, refinement *)
From Stdlib Require Import ZArith Lia.
From stdpp Require Import base tactics list gmap relations.
From S2P Require Import Prelude MessageQueue.

(** ** Threads *)

Lemma at_go_eq t p s : at_pc (go t p s) t = p.
Proof. unfold at_pc, go; simpl. by rewrite lookup_insert_eq. Qed.

Lemma at_go_ne t u p s : u <> t -> at_pc (go t p s) u = at_pc s u.
Proof. intros; unfold at_pc, go; simpl. by rewrite lookup_insert_ne. Qed.

Lemma at_notify s t : at_pc (notify_all s) t = woken (at_pc s t).
Proof. unfold at_pc, notify_all; simpl. rewrite lookup_fmap. by destruct (threads s !! t). Qed.

Lemma at_new t : at_pc new_MessageQueue t = Idle.
Proof. unfold at_pc; simpl. by rewrite lookup_empty. Qed.

(** The mutex is held while a thread is here. *)
Definition holds (p : pc) : bool :=
  match p with
  | EnqueuePush _ | EnqueueNotify | EnqueueUnlock | DequeueTest | DequeueStatus _
  | DequeueFront | DequeuePop _ | DequeueUnlock _ => true
  | _ => false
  end.

(** What a thread relies on between a test of the queue and the access. *)
Definition sees (p : pc) (q : list bytes) : Prop :=
  match p with
  | DequeueFront => q <> []
  | DequeuePop m => exists q', q = m :: q'
  | _ => True
  end.

Record inv (s : MessageQueue) : Prop := {
  inv_holder : forall t, m_mutex s = Some t -> holds (at_pc s t) = true;
  inv_owner : forall t, holds (at_pc s t) = true -> m_mutex s = Some t;
  inv_sees : forall t, sees (at_pc s t) (m_queue s)
}.

Lemma inv_new : inv new_MessageQueue.
Proof.
  split; intros t; rewrite at_new; done.
Qed.

Lemma woken_holds p : holds (woken p) = holds p.
Proof. by destruct p. Qed.

Lemma woken_sees p q : sees (woken p) q <-> sees p q.
Proof. by destruct p. Qed.

Lemma inv_notify s : inv s -> inv (notify_all s).
Proof.
  intros [H1 H2 H3]. split; intros t; rewrite at_notify, ?woken_holds, ?woken_sees; simpl; auto.
Qed.

(** A thread that moves on with the mutex as it is. *)
Lemma inv_go t p s :
  inv s -> holds p = holds (at_pc s t) -> sees p (m_queue s) -> inv (go t p s).
Proof.
  intros [H1 H2 H3] Hp Hs. split; intros u; (destruct (decide (u = t)) as [->|];
    [rewrite ?at_go_eq, ?Hp|rewrite ?at_go_ne by done]); simpl; auto.
Qed.

(** A thread that takes the free mutex, and one that gives it back. *)
Lemma inv_acquire t p s :
  inv s -> m_mutex s = None -> holds p = true -> sees p (m_queue s) ->
  inv (go t p (set_mutex (Some t) s)).
Proof.
  intros [H1 H2 H3] Hm Hp Hs. split; intros u; (destruct (decide (u = t)) as [->|];
    [rewrite ?at_go_eq|rewrite ?at_go_ne by done]); simpl; auto; try congruence; try exact (H3 u).
  intros Hu. rewrite (H2 u Hu) in Hm. done.
Qed.

Lemma inv_release t p s :
  inv s -> holds (at_pc s t) = true -> holds p = false -> sees p (m_queue s) ->
  inv (go t p (set_mutex None s)).
Proof.
  intros [H1 H2 H3] Ht Hp Hs. pose proof (H2 t Ht) as Hm.
  split; intros u; (destruct (decide (u = t)) as [->|];
    [rewrite ?at_go_eq|rewrite ?at_go_ne by done]); simpl; auto; try congruence; try exact (H3 u).
  intros Hu. change (at_pc (set_mutex None s) u) with (at_pc s u) in Hu.
  rewrite (H2 u Hu) in Hm. congruence.
Qed.

(** While [t] holds the mutex nobody else relies on the queue. *)
Lemma inv_change t p q s :
  inv s -> holds (at_pc s t) = true -> holds p = true -> sees p q ->
  inv (go t p (set_queue q s)).
Proof.
  intros [H1 H2 H3] Ht Hp Hs. pose proof (H2 t Ht) as Hm.
  split; intros u; (destruct (decide (u = t)) as [->|];
    [rewrite ?at_go_eq|rewrite ?at_go_ne by done]); simpl; auto; try congruence.
  change (at_pc (set_queue q s) u) with (at_pc s u).
  assert (holds (at_pc s u) <> true) by (intros Hu; rewrite (H2 u Hu) in Hm; congruence).
  by destruct (at_pc s u).
Qed.

(** Splits a step by where the thread is. *)
Ltac step_cases Hs E :=
  unfold step in Hs;
  match type of Hs with context [at_pc ?s ?t] => destruct (at_pc s t) eqn:E end;
  try discriminate Hs;
  match type of Hs with context [match ?c with _ => _ end] => destruct c end;
  try discriminate Hs; unfold lock in Hs;
  try (match type of Hs with context [m_mutex ?s] => destruct (m_mutex s) eqn:?; try discriminate Hs end).

Lemma step_inv t c s m :
  inv s -> step t c s = Some m -> exists s', m = Ok s' /\ inv s'.
Proof.
  intros Hi Hs. pose proof (inv_sees s Hi t) as Hq. step_cases Hs E; injection Hs as <-.
  - eexists; split; [done|]. apply inv_go; by rewrite ?E.
  - eexists; split; [done|]. apply inv_go; by rewrite ?E.
  - eexists; split; [done|]. by apply inv_acquire.
  - eexists; split; [done|]. apply inv_change; by rewrite ?E.
  - eexists; split; [done|]. apply inv_go; [by apply inv_notify|by rewrite at_notify, E|done].
  - eexists; split; [done|]. apply inv_release; by rewrite ?E.
  - eexists; split; [done|]. by apply inv_acquire.
  - eexists; split; [done|]. destruct (Nat.eqb_spec (length (m_queue s)) 0) as [Hl|Hl].
    + apply inv_release; by rewrite ?E.
    + apply inv_go; rewrite ?E; [done..|]. simpl. by destruct (m_queue s).
  - eexists; split; [done|]. apply inv_go; by rewrite ?E.
  - eexists; split; [done|]. by apply inv_acquire.
  - eexists; split; [done|]. case_decide; apply inv_go; by rewrite ?E.
  - simpl in Hq. destruct (m_queue s) as [|x q] eqn:Eq; [done|]. simpl.
    eexists; split; [done|]. apply inv_go; rewrite ?E; [done..|]. simpl. eauto.
  - destruct Hq as [q Eq]. rewrite Eq; simpl.
    eexists; split; [done|]. apply inv_change; by rewrite ?E.
  - eexists; split; [done|]. apply inv_release; by rewrite ?E.
  - eexists; split; [done|]. apply inv_go; by rewrite ?E.
  - eexists; split; [done|]. apply inv_go; by rewrite ?E.
Qed.

(** ** Order *)

Lemma step_queue t c s s' :
  inv s -> step t c s = Some (Ok s') ->
  m_queue s ++ pushed_by t c s = popped_by t c s ++ m_queue s'.
Proof.
  intros Hi Hs. pose proof (inv_sees s Hi t) as Hq. unfold pushed_by, popped_by.
  step_cases Hs E; rewrite ?app_nil_r; try (injection Hs as <-; done).
  - injection Hs as <-. by case_match.
  - injection Hs as <-. by case_decide.
  - destruct (m_queue s) eqn:Eq; [done|]. injection Hs as <-. by rewrite <- Eq.
  - destruct Hq as [q Eq]. rewrite Eq in *. by injection Hs as <-.
Qed.

Lemma run_log_inv l s pu po :
  inv s -> pu = po ++ m_queue s ->
  exists s' pu' po', run_log l s pu po = Ok (s', pu', po') /\ inv s' /\ pu' = po' ++ m_queue s'.
Proof.
  revert s pu po; induction l as [|[t c] l IH]; intros s pu po Hi Hl; [eauto 10|]. cbn [run_log].
  destruct (step t c s) as [m|] eqn:Hs; [|by apply IH].
  destruct (step_inv _ _ _ _ Hi Hs) as (s' & -> & Hi'). run.
  apply IH; [done|]. pose proof (step_queue _ _ _ _ Hi Hs).
  rewrite Hl, <- !app_assoc. by f_equal.
Qed.

(** C12: whatever the threads that call [enqueue] and [dequeue] do, and however
    their steps interleave, [front] and [pop] are never called on an empty
    queue, at most one thread is inside the critical sections, and the messages
    taken so far are the first of the messages put in so far, in the same order:
    none is lost, duplicated or overtaken. *)
Theorem queue_is_fifo (l : list (tid * choice)) :
  exists s pushed popped,
    run_log l new_MessageQueue [] [] = Ok (s, pushed, popped) /\
    pushed = popped ++ m_queue s /\
    (forall t u, holds (at_pc s t) = true -> holds (at_pc s u) = true -> t = u).
Proof.
  destruct (run_log_inv l new_MessageQueue [] [] inv_new eq_refl) as (s & pu & po & H & Hi & Hq).
  exists s, pu, po. split; [done|]. split; [done|]. intros t u Ht Hu.
  pose proof (inv_owner s Hi t Ht). pose proof (inv_owner s Hi u Hu). congruence.
Qed.

(** ** Refinement *)

Lemma phase_go t p s (s1 : MessageQueue) :
  (forall u, u <> t -> phase_of (at_pc s1 u) = phase_of (at_pc s u)) ->
  spec_go t (phase_of p) (abstract s) (abstract (go t p s1)).
Proof.
  intros H. split; simpl; [by rewrite at_go_eq|]. intros u Hu. by rewrite at_go_ne, H.
Qed.

Lemma phase_stutter t p s (s1 : MessageQueue) :
  m_queue s1 = m_queue s -> phase_of p = phase_of (at_pc s t) ->
  (forall u, u <> t -> phase_of (at_pc s1 u) = phase_of (at_pc s u)) ->
  spec_step (abstract s) None (abstract (go t p s1)).
Proof.
  intros Hq Hp H. apply spec_stutter; [done|]. intros u; simpl.
  destruct (decide (u = t)) as [->|]; [by rewrite at_go_eq|]. by rewrite at_go_ne, H.
Qed.

(** A step of the code is one of the atomic queue, with the same event if the
    callers see it. *)
Lemma step_refines t c s s' :
  inv s -> step t c s = Some (Ok s') ->
  exists e, events_by t c s = option_list e /\ spec_step (abstract s) e (abstract s').
Proof.
  intros Hi Hs. pose proof (inv_sees s Hi t) as Hq.
  assert (Hph : forall p, at_pc s t = p -> s_phase (abstract s) t = phase_of p)
    by (intros p <-; done).
  unfold events_by. step_cases Hs E; specialize (Hph _ eq_refl).
  - injection Hs as <-. exists (Some (CallsEnqueue t message)). split; [done|].
    apply spec_call_enqueue; [exact Hph|done|by apply (phase_go t (EnqueueLock message))].
  - injection Hs as <-. exists (Some (CallsDequeue t)). split; [done|].
    apply spec_call_dequeue; [exact Hph|done|by apply (phase_go t DequeueLock)].
  - injection Hs as <-. exists None. split; [done|]. apply phase_stutter; by rewrite ?E.
  - injection Hs as <-. exists None. split; [done|].
    eapply spec_enqueue; [exact Hph|done|by apply (phase_go t EnqueueNotify)].
  - injection Hs as <-. exists None. split; [done|]. apply phase_stutter; [done|by rewrite E|].
    intros u _. rewrite at_notify. by destruct (at_pc s u).
  - injection Hs as <-. exists None. split; [done|]. apply phase_stutter; by rewrite ?E.
  - injection Hs as <-. exists None. split; [done|]. apply phase_stutter; by rewrite ?E.
  - injection Hs as <-. exists None. split; [done|].
    destruct (Nat.eqb_spec (length (m_queue s)) 0) as [Hl|Hl].
    + apply nil_length_inv in Hl. eapply spec_see; [exact Hph|done|done|].
      by apply (phase_go t DequeueWait).
    + apply phase_stutter; by rewrite ?E.
  - injection Hs as <-. exists None. split; [done|]. apply phase_stutter; by rewrite ?E.
  - injection Hs as <-. exists None. split; [done|]. apply phase_stutter; by rewrite ?E.
  - injection Hs as <-. exists None. split; [done|]. case_decide.
    + eapply spec_fail; [exact Hph|done|by apply (phase_go t (DequeueUnlock None))].
    + eapply spec_retry; [exact Hph|done|by apply (phase_go t DequeueTest)].
  - destruct (m_queue s) eqn:Eq; [done|]. injection Hs as <-. exists None. split; [done|].
    apply phase_stutter; by rewrite ?E.
  - destruct Hq as [q Eq]. rewrite Eq in Hs. injection Hs as <-. exists None. split; [done|].
    eapply spec_dequeue; [exact Hph|exact Eq|by apply (phase_go t (DequeueUnlock (Some message)))].
  - injection Hs as <-. exists None. split; [done|]. apply phase_stutter; by rewrite ?E.
  - injection Hs as <-. exists (Some (ReturnsEnqueue t)). split; [done|].
    apply spec_return_enqueue; [exact Hph|done|by apply (phase_go t Idle)].
  - injection Hs as <-. exists (Some (ReturnsDequeue t result)). split; [done|].
    apply spec_return_dequeue; [exact Hph|done|by apply (phase_go t Idle)].
Qed.

Lemma run_refines l s :
  inv s -> exists s' tr, run_trace l s = Ok (s', tr) /\ spec_run (abstract s) tr (abstract s').
Proof.
  revert s; induction l as [|[t c] l IH]; intros s Hi; [exists s, []; split; [done|constructor]|].
  cbn [run_trace]. destruct (step t c s) as [m|] eqn:Hs; [|by apply IH].
  destruct (step_inv _ _ _ _ Hi Hs) as (s' & -> & Hi'). run.
  destruct (IH s' Hi') as (s2 & tr & -> & Hr). run. exists s2, (events_by t c s ++ tr). split; [done|].
  destruct (step_refines _ _ _ _ Hi Hs) as (e & -> & He). by econstructor.
Qed.

(** C13: what callers see of the code's locking, waiting and notifying, in
    whatever way the threads' steps interleave, the callers of an atomic queue
    see too: the same calls with the same messages, and the same returns with the
    same results, in the same order.  In the atomic queue [enqueue] appends at
    one moment between its call and its return, [dequeue] takes the first message
    at one such moment, and [dequeue] fails only when the queue was empty at some
    moment of the call. *)
Theorem queue_refines_atomic (l : list (tid * choice)) :
  exists s tr, run_trace l new_MessageQueue = Ok (s, tr) /\ spec_run new_Spec tr (abstract s).
Proof.
  destruct (run_refines l new_MessageQueue inv_new) as (s & tr & E & Hr). exists s, tr. split; [done|].
  eapply (run_step _ None); [|exact Hr]. apply spec_stutter; [done|]. intros t.
  change (phase_of (at_pc new_MessageQueue t) = SIdle). by rewrite at_new.
Qed.

(** *** What the atomic queue rules out *)

(** A state in which every thread but [t] is idle. *)
Definition alone (t : tid) (q : list bytes) (p : phase) (s : Spec) : Prop :=
  s_queue s = q /\ spec_go t p new_Spec s.

Lemma alone_phase t q p s u : alone t q p s -> s_phase s u <> SIdle -> u = t /\ s_phase s u = p.
Proof.
  intros (_ & Hp & Ho) Hu. destruct (decide (u = t)) as [->|Hne]; [done|]. by rewrite (Ho u Hne) in Hu.
Qed.

Lemma alone_go t q q' p p' s s' : alone t q p s -> s_queue s' = q' -> spec_go t p' s s' -> alone t q' p' s'.
Proof. intros (_ & _ & Ho) Hq (Hp & Ho'). split; [done|split; [done|]]. intros u Hu. by rewrite Ho', Ho. Qed.

(** What [t] may do silently. *)
Inductive settles : list bytes -> phase -> list bytes -> phase -> Prop :=
  | settles_stay q p : settles q p q p
  | settles_push q m : settles q (SEnqueue m) (q ++ [m]) SEnqueued
  | settles_see b : settles [] (SDequeue b) [] (SDequeue true)
  | settles_retry q b : settles q (SDequeue b) q (SDequeue false)
  | settles_fail q : settles q (SDequeue true) q (SDequeued None)
  | settles_pop q b m : settles (m :: q) (SDequeue b) q (SDequeued (Some m)).

Lemma alone_silent t q p s s' :
  alone t q p s -> spec_step s None s' -> exists q' p', settles q p q' p' /\ alone t q' p' s'.
Proof.
  intros Ha Hs. assert (Hq := proj1 Ha).
  assert (forall u, s_phase s u <> SIdle -> u = t /\ s_phase s u = p) as Hp by (intros u; by apply (alone_phase t q)).
  inversion Hs as [? ? Eq Ep| | |? ? u m Ep Eq Eg|? ? u b Ep E0 Eq Eg|? ? u b Ep Eq Eg|? ? u Ep Eq Eg|? ? u b m Ep Eq Eg| |];
    subst; [|destruct (Hp u) as [-> E]; [by rewrite Ep|]; rewrite Ep in E; subst p..].
  - exists (s_queue s), p. split; [constructor|]. destruct Ha as (_ & K1 & K2).
    split; [done|split; [by rewrite Ep|]]. intros u Hu. by rewrite Ep, K2.
  - eexists _, _. split; [apply settles_push|]. by eapply alone_go.
  - rewrite E0. eexists _, _. split; [apply settles_see|]. by eapply alone_go.
  - eexists _, _. split; [apply settles_retry|]. by eapply alone_go.
  - eexists _, _. split; [apply settles_fail|]. by eapply alone_go.
  - rewrite Eq. eexists _, _. split; [apply settles_pop|]. by eapply alone_go.
Qed.

(** An event of [t], and the phases around it. *)
Definition visible (t : tid) (e : event) (p p' : phase) : Prop :=
  match e with
  | CallsEnqueue u m => u = t -> p = SIdle /\ p' = SEnqueue m
  | CallsDequeue u => u = t -> p = SIdle /\ p' = SDequeue false
  | ReturnsEnqueue u => u = t -> p = SEnqueued /\ p' = SIdle
  | ReturnsDequeue u r => u = t -> p = SDequeued r /\ p' = SIdle
  end.

Definition thread_of (e : event) : tid :=
  match e with CallsEnqueue t _ | ReturnsEnqueue t | CallsDequeue t | ReturnsDequeue t _ => t end.

Lemma alone_visible t q p s e s' :
  alone t q p s -> spec_step s (Some e) s' -> thread_of e = t ->
  exists p', visible t e p p' /\ alone t q p' s'.
Proof.
  intros Ha Hs Ht. assert (Hp := proj1 (proj2 Ha)).
  assert (Hg : forall p', s_queue s' = s_queue s -> spec_go t p' s s' -> alone t q p' s')
    by (intros p' Eq; eapply alone_go; [exact Ha|rewrite Eq; apply Ha]).
  inversion Hs; subst; cbn [thread_of] in *; (eexists; split; [|by apply Hg]); intros _; (split; [congruence|done]).
Qed.

(** An execution up to its first event, while [I] holds. *)
Lemma spec_run_event (I : list bytes -> phase -> Prop) t q p s e tr s' :
  spec_run s (e :: tr) s' -> alone t q p s -> I q p -> thread_of e = t ->
  (forall q p q' p', I q p -> settles q p q' p' -> I q' p') ->
  exists q1 p1 p2 s2, I q1 p1 /\ visible t e p1 p2 /\ alone t q1 p2 s2 /\ spec_run s2 tr s'.
Proof.
  intros Hr Ha Hi Ht HI. remember (e :: tr) as l eqn:El. revert q p Ha Hi.
  induction Hr as [s|s1 [e1|] s2 tr1 s3 He Hr IH]; intros q p Ha Hi; [done|..].
  - injection El as -> ->. destruct (alone_visible _ _ _ _ _ _ Ha He Ht) as (p2 & Hv & Ha2). by exists q, p, p2, s2.
  - destruct (alone_silent _ _ _ _ _ Ha He) as (q' & p' & Hs & Ha'). apply (IH El q' p'); [done|by eapply HI].
Qed.

(** The atomic queue loses nothing: a thread that has it to itself gets back the
    message it has put in; [dequeue] does not fail. *)
Lemma atomic_queue_keeps t m r s :
  spec_run new_Spec [CallsEnqueue t m; ReturnsEnqueue t; CallsDequeue t; ReturnsDequeue t r] s -> r = Some m.
Proof.
  intros R0. assert (alone t [] SIdle new_Spec) as A0 by done.
  destruct (spec_run_event (fun q p => q = [] /\ p = SIdle) _ _ _ _ _ _ _ R0 A0)
    as (q1 & p1 & p2 & s1 & [-> ->] & V1 & A1 & R1); [done..| |].
  { intros ? ? ? ? [-> ->] Hs. by inversion Hs. }
  destruct V1 as [_ ->]; [done|].
  destruct (spec_run_event (fun q p => q = [] /\ p = SEnqueue m \/ q = [m] /\ p = SEnqueued) _ _ _ _ _ _ _ R1 A1)
    as (q2 & p3 & p4 & s2 & I2 & V2 & A2 & R2); [by left|done| |].
  { intros ? ? ? ? [[-> ->]|[-> ->]] Hs; inversion Hs; auto. }
  destruct V2 as [-> ->]; [done|]. destruct I2 as [[_ ?]|[-> _]]; [done|].
  destruct (spec_run_event (fun q p => q = [m] /\ p = SIdle) _ _ _ _ _ _ _ R2 A2)
    as (q3 & p5 & p6 & s3 & [-> ->] & V3 & A3 & R3); [done..| |].
  { intros ? ? ? ? [-> ->] Hs. by inversion Hs. }
  destruct V3 as [_ ->]; [done|].
  destruct (spec_run_event (fun q p => q = [m] /\ p = SDequeue false \/ q = [] /\ p = SDequeued (Some m))
    _ _ _ _ _ _ _ R3 A3) as (q4 & p7 & p8 & s4 & I4 & V4 & _); [by left|done| |].
  { intros ? ? ? ? [[-> ->]|[-> ->]] Hs; inversion Hs; auto. }
  destruct V4 as [-> _]; [done|]. destruct I4 as [[_ ?]|[_ [= <-]]]; done.
Qed.

(** A thread that calls [dequeue] while it has the queue to itself gets the
    first message, and fails when there is none and its wait times out. *)
Lemma dequeue_alone (q : list bytes) (t : tid) :
  exists s, run_schedule ([(t, CallDequeue)] ++ replicate 2 (t, Proceed) ++
                          [(t, Wake timeout)] ++ replicate 3 (t, Proceed))
              (MkMessageQueue q None ∅) = Ok s /\
    at_pc s t = DequeueReturn (dequeue q).1 /\ m_queue s = (dequeue q).2 /\ m_mutex s = None.
Proof.
  assert (at_pc (MkMessageQueue q None ∅) t = Idle) as E
    by (unfold at_pc; simpl; by rewrite lookup_empty).
  destruct q as [|m q]; cbn [app replicate run_schedule]; unfold step at 1; rewrite E; run;
    repeat (unfold step at 1; rewrite at_go_eq; cbn; try rewrite decide_True by done; run);
    (eexists; split; [done|]; split_and!; [by rewrite at_go_eq|done|done]).
Qed.
