(* ===== verification/Socket.v ===== *)
(** * Sockets (platform_socket.h, platform_socket.cpp)

    The operating system and OpenSSL are the parameter [Winsock]: what each of
    their functions returns, and the state of the outside world after it.
    [Socket] and [TcpSocket] are modelled over it as they use it.  [sin_zero],
    which no system reads, is left out of addresses. *)
From Stdlib Require Import ZArith Ascii String Lia.
From stdpp Require Import base tactics list gmap.
From S2P Require Import Prelude CLib.

#[local] Open Scope Z_scope.

(** ** The system *)

Record sockaddr_in := MkAddr { sin_family : Z; sin_port : Z; s_addr : Z }.

Definition AF_INET : Z := 2.
Definition SOCK_STREAM : Z := 1.
Definition IPPROTO_IP : Z := 0.
Definition IPPROTO_TCP : Z := 6.
Definition SOL_SOCKET : Z := 65535.
Definition SO_REUSEADDR : Z := 4.
Definition IP_DONTFRAGMENT : Z := 14.
Definition INADDR_ANY : Z := 0.
Definition SOCKET_ERROR : Z := -1.
Definition INVALID_SOCKET : Z := 2 ^ 32 - 1.

(** [htons] and [htonl] on a little-endian machine; [ntohl] is [htonl]. *)
Definition htons (x : Z) : Z := Z.lor (Z.shiftl (Z.land x 255) 8) (Z.shiftr (u16 x) 8).
Definition htonl (x : Z) : Z :=
  Z.lor (Z.lor (Z.shiftl (Z.land x 255) 24) (Z.shiftl (Z.land (Z.shiftr x 8) 255) 16))
        (Z.lor (Z.shiftl (Z.land (Z.shiftr x 16) 255) 8) (Z.land (Z.shiftr x 24) 255)).

(** Functions of the system and of OpenSSL: the integer they return, what they
    store through their pointers, and the world after the call. *)
Class Winsock (W : Type) := {
  SSL_CTX : Type;
  SSL : Type;
  inet_addr : bytes -> Z;
  WSAStartup : W -> Z * W;
  sys_socket : Z -> Z -> Z -> W -> Z * W;
  sys_setsockopt : Z -> Z -> Z -> Z -> W -> Z * W;
  sys_bind : Z -> sockaddr_in -> W -> Z * W;
  sys_listen : Z -> Z -> W -> Z * W;
  sys_connect : Z -> sockaddr_in -> W -> Z * W;
  sys_accept : Z -> W -> Z * W;
  (** [select] for reading on one socket, with seconds and microseconds; the
      second result is [FD_ISSET] afterwards. *)
  sys_select : Z -> Z -> Z -> W -> Z * bool * W;
  sys_recv : Z -> Z -> W -> Z * bytes * W;
  sys_send : Z -> bytes -> W -> Z * W;
  sys_getsockname : Z -> W -> option sockaddr_in * W;
  sys_getpeername : Z -> W -> option sockaddr_in * W;
  sys_closesocket : Z -> W -> W;
  SSL_new : SSL_CTX -> W -> option SSL * W;
  SSL_set_fd : SSL -> Z -> W -> W;
  SSL_accept : SSL -> W -> Z * W;
  SSL_read : SSL -> Z -> W -> Z * bytes * W;
  SSL_write : SSL -> bytes -> W -> Z * W;
  SSL_free : SSL -> W -> W
}.

(** ** Socket *)

Section Sockets.
Context {W : Type} `{Winsock W}.

Definition SOCKET_READ_TIMEOUT : Z := 200 * 1000.
Definition SOCKET_CONNECTION_TIMEOUT : Z := 10.

(** [m_sslCtx], [m_ssl] are null or a pointer. *)
Record Socket := MkSocket {
  m_sslCtx : option SSL_CTX;
  m_ssl : option SSL;
  m_handle : Z;
  m_ip : bytes;
  m_port : Z
}.

(** [Socket::Socket], and [TcpSocket::TcpSocket], which adds nothing. *)
Definition new_Socket (ip : bytes) (port : Z) (ctx : option SSL_CTX) : Socket :=
  MkSocket ctx None 0 ip port.

(** [~Socket] *)
Definition delete_Socket (s : Socket) (w : W) : W :=
  let w := match m_ssl s with Some ssl => SSL_free ssl w | None => w end in
  if m_handle s =? 0 then w else sys_closesocket (m_handle s) w.

Definition createSocket (type protocol : Z) (w : W) : Z * W :=
  let '(iResult, w) := WSAStartup w in
  if negb (iResult =? 0) then (INVALID_SOCKET, w) else sys_socket AF_INET type protocol w.

Definition bind (s : Socket) (w : W) : Z * W :=
  let addr := MkAddr AF_INET (htons (m_port s))
                (if decide (m_ip s = bs "any") then htonl INADDR_ANY else inet_addr (m_ip s)) in
  let '(r, w) := sys_bind (m_handle s) addr w in
  if r =? SOCKET_ERROR then (-1, w) else (0, w).

(** [m_sslCtx != nullptr && m_ssl != nullptr] *)
Definition secure (s : Socket) : option SSL :=
  match m_sslCtx s with Some _ => m_ssl s | None => None end.

(** [read(buffer, size)]: the result and the characters stored at [buffer]. *)
Definition read (s : Socket) (size : Z) (w : W) : Z * bytes * W :=
  let '(ret, isset, w) := sys_select (m_handle s) 0 SOCKET_READ_TIMEOUT w in
  if ret =? SOCKET_ERROR then (-1, [], w)
  else if negb isset then (0, [], w)
  else
    let '(ret, data, w) := match secure s with
                           | Some ssl => SSL_read ssl size w
                           | None => sys_recv (m_handle s) size w
                           end in
    if ret =? -1 then (-1, data, w) else (ret, data, w).

(** [write(buffer, size)] of the [size] characters [data]. *)
Definition write (s : Socket) (data : bytes) (w : W) : Z * W :=
  let '(ret, w) := match secure s with
                   | Some ssl => SSL_write ssl data w
                   | None => sys_send (m_handle s) data w
                   end in
  if ret =? -1 then (-1, w) else (ret, w).

(** The dotted form of an address in network order. *)
Definition dotted (addr : sockaddr_in) : outcome bytes :=
  let ip := htonl (s_addr addr) in
  vformat (bs "%d.%d.%d.%d")
    [AInt (Z.land (Z.shiftr ip 24) 255); AInt (Z.land (Z.shiftr ip 16) 255);
     AInt (Z.land (Z.shiftr ip 8) 255); AInt (Z.land ip 255)].

(** [sprintf] into an array of [size] characters. *)
Definition sprintf_array (size : nat) (t : bytes) : outcome bytes :=
  if (length t + 1 <=? size)%nat then Ok t else UB OutOfBounds.

Definition getLocalIp (s : Socket) (w : W) : outcome (bytes * W) :=
  let '(addr, w) := sys_getsockname (m_handle s) w in
  match addr with
  | None => UB AssertFailed
  | Some addr => t ← dotted addr; t ← sprintf_array 16 t; Ok (t, w)
  end.

Definition getPeerIp (s : Socket) (w : W) : outcome (bytes * W) :=
  let '(addr, w) := sys_getpeername (m_handle s) w in
  match addr with
  | None => UB AssertFailed
  | Some addr => t ← dotted addr; t ← sprintf_array 16 t; Ok (t, w)
  end.

(** ** TcpSocket *)

Definition with_handle (fd : Z) (s : Socket) : Socket :=
  MkSocket (m_sslCtx s) (m_ssl s) fd (m_ip s) (m_port s).
Definition with_ssl (ssl : option SSL) (s : Socket) : Socket :=
  MkSocket (m_sslCtx s) ssl (m_handle s) (m_ip s) (m_port s).

Definition create (s : Socket) (w : W) : outcome (Z * Socket * W) :=
  if negb ((m_handle s =? 0) && negb (bool_decide (m_ip s = [])) && negb (m_port s =? 0))
  then UB AssertFailed
  else
    let '(fd, w) := createSocket SOCK_STREAM IPPROTO_TCP w in
    if fd =? INVALID_SOCKET then Ok (-1, s, w)
    else
      let '(r, w) := sys_setsockopt fd SOL_SOCKET SO_REUSEADDR 1 w in
      if r =? -1 then Ok (-1, s, w)
      else
        let '(_, w) := sys_setsockopt fd IPPROTO_IP IP_DONTFRAGMENT 1 w in
        Ok (0, with_handle fd s, w).

Definition listen (s : Socket) (backlog : Z) (w : W) : Z * W :=
  let '(r, w) := sys_listen (m_handle s) backlog w in
  if r =? SOCKET_ERROR then (-1, w) else (0, w).

(** [accept()]: the new socket, or null. *)
Definition accept (s : Socket) (w : W) : option Socket * W :=
  let '(ret, isset, w) := sys_select (m_handle s) SOCKET_CONNECTION_TIMEOUT 0 w in
  if ret =? SOCKET_ERROR then (None, w)
  else if negb isset then (None, w)
  else
    let '(clientFd, w) := sys_accept (m_handle s) w in
    if clientFd =? INVALID_SOCKET then (None, w)
    else
      let '(_, w) := sys_setsockopt clientFd IPPROTO_IP IP_DONTFRAGMENT 1 w in
      let t ssl := with_ssl ssl (with_handle clientFd (new_Socket [] 0 (m_sslCtx s))) in
      match m_sslCtx s with
      | Some ctx =>
          let '(ssl, w) := SSL_new ctx w in
          match ssl with
          | None => (None, w)
          | Some ssl =>
              let w := SSL_set_fd ssl clientFd w in
              let '(r, w) := SSL_accept ssl w in
              if r =? -1 then (None, w) else (Some (t (Some ssl)), w)
          end
      | None => (Some (t None), w)
      end.

Definition connect (s : Socket) (ip : bytes) (port : Z) (w : W) : Z * W :=
  let '(r, w) := sys_connect (m_handle s) (MkAddr AF_INET (htons port) (inet_addr ip)) w in
  if r =? SOCKET_ERROR then (-1, w) else (0, w).

Definition getFd (s : Socket) : Z := m_handle s.
End Sockets.

(** ** What the program relies on *)

(** Documented behaviour: a read stores what it returns and no more than the
    buffer holds; a send reports at most what it was given; only [accept] and
    [socket] open handles, only [closesocket] closes one. *)
Class WinsockLaws (W : Type) `{Winsock W} := {
  handles : W -> gset Z;
  recv_bounded fd n w r data w' :
    sys_recv fd n w = (r, data, w') -> r <= Z.max 0 n /\ length data = Z.to_nat r;
  SSL_read_bounded ssl n w r data w' :
    SSL_read ssl n w = (r, data, w') -> r <= Z.max 0 n /\ length data = Z.to_nat r;
  accept_opens fd w r w' :
    sys_accept fd w = (r, w') ->
    (r = INVALID_SOCKET /\ handles w' = handles w) \/
    (r <> INVALID_SOCKET /\ r <> 0 /\ r ∉ handles w /\ handles w' = {[r]} ∪ handles w);
  close_closes fd w : handles (sys_closesocket fd w) = handles w ∖ {[fd]};
  select_keeps fd a b w : handles (sys_select fd a b w).2 = handles w;
  setsockopt_keeps fd a b c w : handles (sys_setsockopt fd a b c w).2 = handles w;
  recv_keeps fd n w : handles (sys_recv fd n w).2 = handles w;
  send_keeps fd d w : handles (sys_send fd d w).2 = handles w;
  SSL_new_keeps c w : handles (SSL_new c w).2 = handles w;
  SSL_set_fd_keeps s fd w : handles (SSL_set_fd s fd w) = handles w;
  SSL_accept_keeps s w : handles (SSL_accept s w).2 = handles w;
  SSL_read_keeps s n w : handles (SSL_read s n w).2 = handles w;
  SSL_write_keeps s d w : handles (SSL_write s d w).2 = handles w;
  SSL_free_keeps s w : handles (SSL_free s w) = handles w
}.
