(* ===== verification/Observer.v ===== *)
(** * The peer connection observer (observer.h, observer.cpp)

    WebRTC is the parameter [WebRTC]: what its functions return, the callbacks
    of [PeerConnectionObserver] they make before they return, and the world
    afterwards.  [CreateAnswer] delivers its result later, through
    [CreateSessionDescriptionObserver].  JSON texts are read and written by the
    models of jsoncpp. *)
From Stdlib Require Import ZArith Ascii String Lia.
From stdpp Require Import base tactics list.
From S2P Require Import Prelude CLib JsonValue JsonReader JsonWriter.

#[local] Open Scope Z_scope.

(** ** WebRTC *)

Inductive SignalingState :=
  | kStable | kHaveLocalOffer | kHaveLocalPrAnswer | kHaveRemoteOffer | kHaveRemotePrAnswer
  | kClosed.

Inductive IceGatheringState :=
  | kIceGatheringNew | kIceGatheringGathering | kIceGatheringComplete.

Inductive IceConnectionState :=
  | kIceConnectionNew | kIceConnectionChecking | kIceConnectionConnected
  | kIceConnectionCompleted | kIceConnectionFailed | kIceConnectionDisconnected
  | kIceConnectionClosed | kIceConnectionMax.

#[export] Instance IceConnectionState_eq_dec : EqDecision IceConnectionState.
Proof. solve_decision. Defined.
#[export] Instance IceGatheringState_eq_dec : EqDecision IceGatheringState.
Proof. solve_decision. Defined.

Definition convertSignalingStateToString (new_state : SignalingState) : bytes :=
  match new_state with
  | kStable => bs "Stable"
  | kHaveLocalOffer => bs "HaveLocalOffer"
  | kHaveLocalPrAnswer => bs "HaveLocalPrAnswer"
  | kHaveRemoteOffer => bs "HaveRemoteOffer"
  | kHaveRemotePrAnswer => bs "HaveRemotePrAnswer"
  | kClosed => bs "Closed"
  end.

Definition convertIceGatheringStateToString (new_state : IceGatheringState) : bytes :=
  match new_state with
  | kIceGatheringNew => bs "IceGatheringNew"
  | kIceGatheringGathering => bs "IceGatheringGathering"
  | kIceGatheringComplete => bs "IceGatheringComplete"
  end.

Definition convertIceConnectionStateToString (new_state : IceConnectionState) : bytes :=
  match new_state with
  | kIceConnectionNew => bs "IceConnectionNew"
  | kIceConnectionChecking => bs "IceConnectionChecking"
  | kIceConnectionConnected => bs "IceConnectionConnected"
  | kIceConnectionCompleted => bs "IceConnectionCompleted"
  | kIceConnectionFailed => bs "IceConnectionFailed"
  | kIceConnectionDisconnected => bs "IceConnectionDisconnected"
  | kIceConnectionClosed => bs "IceConnectionClosed"
  | kIceConnectionMax => bs "Unknown"
  end.

(** Callbacks of [PeerConnectionObserver]. *)
Inductive PcEvent (MediaStream IceCandidate : Type) :=
  | OnSignalingChange (new_state : SignalingState)
  | OnDataChannel
  | OnRenegotiationNeeded
  | OnIceConnectionChange (new_state : IceConnectionState)
  | OnIceGatheringChange (new_state : IceGatheringState)
  | OnIceCandidate (candidate : IceCandidate)
  | OnAddStream (stream : MediaStream)
  | OnRemoveStream (stream : MediaStream).
Arguments OnSignalingChange {_ _} _.
Arguments OnDataChannel {_ _}.
Arguments OnRenegotiationNeeded {_ _}.
Arguments OnIceConnectionChange {_ _} _.
Arguments OnIceGatheringChange {_ _} _.
Arguments OnIceCandidate {_ _} _.
Arguments OnAddStream {_ _} _.
Arguments OnRemoveStream {_ _} _.

Record RTCOfferAnswerOptions := MkOptions {
  offer_to_receive_video : Z;
  offer_to_receive_audio : Z;
  voice_activity_detection : bool;
  ice_restart : bool;
  use_rtp_mux : bool
}.

(** [SetRemoteDescription] takes ownership of the description; its second
    result says whether the description still exists when it returns. *)
Class WebRTC (W : Type) := {
  Factory : Type;
  PeerConnection : Type;
  MediaStream : Type;
  VideoTrack : Type;
  AudioTrack : Type;
  SessionDescription : Type;
  IceCandidate : Type;
  kEnableDtlsSrtp : bytes;
  kOffer : bytes;
  CreatePeerConnectionFactory : W -> option Factory * W;
  CreatePeerConnection : Factory -> list (bytes * bytes) -> W -> option PeerConnection * W;
  SetRemoteDescription : PeerConnection -> SessionDescription -> W ->
                         list (PcEvent MediaStream IceCandidate) * bool * W;
  SetLocalDescription : PeerConnection -> SessionDescription -> W ->
                        list (PcEvent MediaStream IceCandidate) * W;
  CreateAnswer : PeerConnection -> RTCOfferAnswerOptions -> W -> W;
  AddIceCandidate : PeerConnection -> IceCandidate -> W ->
                    bool * list (PcEvent MediaStream IceCandidate) * W;
  AddStream : PeerConnection -> MediaStream -> W -> bool * W;
  Close : PeerConnection -> W -> list (PcEvent MediaStream IceCandidate) * W;
  CreateLocalMediaStream : Factory -> bytes -> W -> option MediaStream * W;
  GetVideoTracks : MediaStream -> W -> list VideoTrack;
  GetAudioTracks : MediaStream -> W -> list AudioTrack;
  AddVideoTrack : MediaStream -> VideoTrack -> W -> bool * W;
  AddAudioTrack : MediaStream -> AudioTrack -> W -> bool * W;
  CreateSessionDescription : bytes -> bytes -> option SessionDescription;
  sd_type : SessionDescription -> bytes;
  sd_ToString : SessionDescription -> bool * bytes;
  CreateIceCandidate : bytes -> Z -> bytes -> option IceCandidate;
  sdp_mid : IceCandidate -> bytes;
  sdp_mline_index : IceCandidate -> Z;
  ice_ToString : IceCandidate -> bool * bytes
}.

(** ** Observer *)

Section Observer.
Context {W : Type} `{WebRTC W}.

Abbreviation Event := (PcEvent MediaStream IceCandidate).

Record Observer := MkObserver {
  m_peerId : Z;
  m_peer_connection_ : option PeerConnection;
  m_peer_connection_factory_ : option Factory;
  m_iceCandidateMsg : bytes;
  m_remoteIceCandidateMsg : bytes;
  m_msgQueue : list bytes;
  m_localStream : option MediaStream;
  m_localIceState : IceConnectionState
}.

Definition set_peerId v o := MkObserver v (m_peer_connection_ o) (m_peer_connection_factory_ o)
  (m_iceCandidateMsg o) (m_remoteIceCandidateMsg o) (m_msgQueue o) (m_localStream o)
  (m_localIceState o).
Definition set_peer_connection v o := MkObserver (m_peerId o) v (m_peer_connection_factory_ o)
  (m_iceCandidateMsg o) (m_remoteIceCandidateMsg o) (m_msgQueue o) (m_localStream o)
  (m_localIceState o).
Definition set_factory v o := MkObserver (m_peerId o) (m_peer_connection_ o) v
  (m_iceCandidateMsg o) (m_remoteIceCandidateMsg o) (m_msgQueue o) (m_localStream o)
  (m_localIceState o).
Definition set_iceCandidateMsg v o := MkObserver (m_peerId o) (m_peer_connection_ o)
  (m_peer_connection_factory_ o) v (m_remoteIceCandidateMsg o) (m_msgQueue o) (m_localStream o)
  (m_localIceState o).
Definition set_remoteIceCandidateMsg v o := MkObserver (m_peerId o) (m_peer_connection_ o)
  (m_peer_connection_factory_ o) (m_iceCandidateMsg o) v (m_msgQueue o) (m_localStream o)
  (m_localIceState o).
Definition set_msgQueue v o := MkObserver (m_peerId o) (m_peer_connection_ o)
  (m_peer_connection_factory_ o) (m_iceCandidateMsg o) (m_remoteIceCandidateMsg o) v
  (m_localStream o) (m_localIceState o).
Definition set_localStream v o := MkObserver (m_peerId o) (m_peer_connection_ o)
  (m_peer_connection_factory_ o) (m_iceCandidateMsg o) (m_remoteIceCandidateMsg o) (m_msgQueue o)
  v (m_localIceState o).
Definition set_localIceState v o := MkObserver (m_peerId o) (m_peer_connection_ o)
  (m_peer_connection_factory_ o) (m_iceCandidateMsg o) (m_remoteIceCandidateMsg o) (m_msgQueue o)
  (m_localStream o) v.

(** [Observer::Observer]; [m_peerId] is an [int]. *)
Definition new_Observer (peerId : Z) : Observer :=
  MkObserver (i32 peerId) None None [] [] [] None kIceConnectionNew.

(** *** The queue of messages to the peer *)

Definition sendSignalingMessage (message : bytes) (o : Observer) : Observer :=
  set_msgQueue (m_msgQueue o ++ [message]) o.

Definition getSignalingMessageCount (o : Observer) : Z := Z.of_nat (length (m_msgQueue o)).

(** [getSignalingMessage]: the message, unless the result is -1. *)
Definition getSignalingMessage (o : Observer) : option bytes * Observer :=
  match m_msgQueue o with
  | [] => (None, o)
  | message :: q => (Some message, set_msgQueue q o)
  end.

Definition getPeerId (o : Observer) : Z := u32 (m_peerId o).
Definition getIceState (o : Observer) : IceConnectionState := m_localIceState o.

(** *** Callbacks of the peer connection *)

Definition kStreamLabel : bytes := bs "stream_label".
Definition kCandidateSdpMidName : bytes := bs "sdpMid".
Definition kCandidateSdpMlineIndexName : bytes := bs "sdpMLineIndex".
Definition kCandidateSdpName : bytes := bs "candidate".
Definition kSessionDescriptionTypeName : bytes := bs "type".
Definition kSessionDescriptionSdpName : bytes := bs "sdp".

Definition separator : bytes := bs "######".

(** The JSON text of a candidate, unless it cannot be printed. *)
Definition candidate_json (candidate : IceCandidate) : outcome (option bytes) :=
  mid ← Value_of_string (sdp_mid candidate);
  value ← member_set VNull kCandidateSdpMidName mid;
  value ← member_set value kCandidateSdpMlineIndexName (VInt (sdp_mline_index candidate));
  let '(ok, sdp) := ice_ToString candidate in
  if negb ok then Ok None
  else
    sdp ← Value_of_string sdp;
    value ← member_set value kCandidateSdpName sdp;
    json_str ← writeString value;
    Ok (Some json_str).

Definition on_IceCandidate (candidate : IceCandidate) (o : Observer) : outcome Observer :=
  r ← candidate_json candidate;
  match r with
  | None => Ok o
  | Some json_str =>
      Ok (set_iceCandidateMsg
            (if bool_decide (m_iceCandidateMsg o = []) then bs "ICE->" ++ json_str
             else m_iceCandidateMsg o ++ separator ++ json_str) o)
  end.

Definition on_IceGatheringChange (new_state : IceGatheringState) (o : Observer) : Observer :=
  if decide (new_state = kIceGatheringComplete) then sendSignalingMessage (m_iceCandidateMsg o) o
  else o.

Definition on_AddStream (stream : MediaStream) (o : Observer) (w : W) : outcome (Observer * W) :=
  let videoTracks := GetVideoTracks stream w in
  let audioTracks := GetAudioTracks stream w in
  match m_peer_connection_factory_ o with
  | None => UB NullPointer
  | Some factory =>
      let '(localStream, w) := CreateLocalMediaStream factory kStreamLabel w in
      let o := set_localStream localStream o in
      match localStream with
      | None => UB NullPointer
      | Some localStream =>
          let w := match videoTracks with
                   | video_track :: _ => (AddVideoTrack localStream video_track w).2
                   | [] => w
                   end in
          let w := match audioTracks with
                   | audio_track :: _ => (AddAudioTrack localStream audio_track w).2
                   | [] => w
                   end in
          match m_peer_connection_ o with
          | None => UB NullPointer
          | Some pc => Ok (o, (AddStream pc localStream w).2)
          end
      end
  end.

(** One callback; those that only write to the log change nothing. *)
Definition on_event (e : Event) (o : Observer) (w : W) : outcome (Observer * W) :=
  match e with
  | OnIceConnectionChange new_state => Ok (set_localIceState new_state o, w)
  | OnIceGatheringChange new_state => Ok (on_IceGatheringChange new_state o, w)
  | OnIceCandidate candidate => o ← on_IceCandidate candidate o; Ok (o, w)
  | OnAddStream stream => on_AddStream stream o w
  | OnSignalingChange _ | OnDataChannel | OnRenegotiationNeeded | OnRemoveStream _ => Ok (o, w)
  end.

Definition on_events (es : list Event) (o : Observer) (w : W) : outcome (Observer * W) :=
  foldM (fun '(o, w) e => on_event e o w) (o, w) es.

(** *** Messages from the peer *)

Definition addIceCandidate (iceStr : bytes) (o : Observer) (w : W) : outcome (Observer * W) :=
  match m_peer_connection_ o with
  | None => Ok (o, w)
  | Some pc =>
      '(ok, jmessage, _) ← parse_json iceStr;
      if negb ok then Ok (o, w)
      else
        '(v, jmessage) ← member_ref jmessage kCandidateSdpMidName;
        sdp_mid ← asString v;
        '(v, jmessage) ← member_ref jmessage kCandidateSdpMlineIndexName;
        sdp_mlineindex ← asInt v;
        '(v, jmessage) ← member_ref jmessage kCandidateSdpName;
        sdp ← asString v;
        match CreateIceCandidate sdp_mid sdp_mlineindex sdp with
        | None => Ok (o, w)
        | Some candidate =>
            let '(_, es, w) := AddIceCandidate pc candidate w in
            on_events es o w
        end
  end.

(** The loops of [onSignalingMessage] and [OnSuccess] over the candidates of a
    message; [size_t] arithmetic wraps. *)
Fixpoint candidates_loop (fuel : nat) (payload : bytes) (startPos : Z) (o : Observer) (w : W)
  : outcome (Observer * W) :=
  match fuel with
  | O => NoFuel
  | S fuel =>
      let pos := str_find separator payload startPos in
      if negb (pos =? npos) then
        iceStr ← substr payload startPos (size_t (pos - startPos));
        let startPos := size_t (startPos + (pos - startPos + 6)) in
        '(o, w) ← addIceCandidate iceStr o w;
        candidates_loop fuel payload startPos o w
      else
        iceStr ← substr payload startPos (size_t (pos - size payload));
        addIceCandidate iceStr o w
  end.

Definition add_candidates (payload : bytes) : Observer -> W -> outcome (Observer * W) :=
  candidates_loop (S (length payload)) payload 0.

Definition initPeerConnection (o : Observer) (w : W) : bool * Observer * W :=
  let '(factory, w) := CreatePeerConnectionFactory w in
  let o := set_factory factory o in
  match factory with
  | None => (false, o, w)
  | Some factory =>
      let '(pc, w) := CreatePeerConnection factory [(kEnableDtlsSrtp, bs "true")] w in
      let o := set_peer_connection pc o in
      match pc with None => (false, o, w) | Some _ => (true, o, w) end
  end.

Definition deletePeerConnection (o : Observer) (w : W) : outcome (Observer * W) :=
  '(o, w) ← match m_peer_connection_ o with
            | Some pc =>
                let '(es, w) := Close pc w in
                '(o, w) ← on_events es o w;
                Ok (set_peer_connection None o, w)
            | None => Ok (o, w)
            end;
  Ok (set_peerId (-1) o, w).

(** The command and the payload of a message. *)
Definition split_message (message : bytes) : outcome (bytes * bytes) :=
  let pos := str_find (bs "->") message 0 in
  cmd ← substr message 0 pos;
  payload ← substr_from message (size_t (pos + 2));
  Ok (cmd, payload).

(** What the SDP branch does with the description it has read. *)
Definition on_description (type sdp : bytes) (o : Observer) (w : W) : outcome (Observer * W) :=
  match CreateSessionDescription type sdp with
  | None => Ok (o, w)
  | Some session_description =>
      let '(ok, o, w) := initPeerConnection o w in
      if negb ok then Ok (o, w)
      else
        match m_peer_connection_ o with
        | None => UB NullPointer
        | Some pc =>
            let '(es, alive, w) := SetRemoteDescription pc session_description w in
            '(o, w) ← on_events es o w;
            if negb alive then UB MovedFrom
            else if decide (sd_type session_description = kOffer) then
              match m_peer_connection_ o with
              | None => UB NullPointer
              | Some pc => Ok (o, CreateAnswer pc (MkOptions 1 1 false false false) w)
              end
            else Ok (o, w)
        end
  end.

(** What the SDP branch does with the payload. *)
Definition on_sdp (payload : bytes) (o : Observer) (w : W) : outcome (Observer * W) :=
  '(ok, jmessage, _) ← parse_json payload;
  if negb ok then Ok (o, w)
  else
    '(v, jmessage) ← member_ref jmessage kSessionDescriptionTypeName;
    type ← asString v;
    '(v, jmessage) ← member_ref jmessage kSessionDescriptionSdpName;
    sdp ← asString v;
    on_description type sdp o w.

Definition on_ice (payload : bytes) (o : Observer) (w : W) : outcome (Observer * W) :=
  match m_peer_connection_ o with
  | None => Ok (set_remoteIceCandidateMsg payload o, w)
  | Some _ => add_candidates payload o w
  end.

Definition onSignalingMessage (message : bytes) (o : Observer) (w : W) : outcome (Observer * W) :=
  '(cmd, payload) ← split_message message;
  if decide (cmd = bs "SDP") then on_sdp payload o w
  else if decide (cmd = bs "ICE") then on_ice payload o w
  else Ok (o, w).

(** *** Callbacks of [CreateAnswer] *)

(** The JSON text of a session description. *)
Definition description_json (desc : SessionDescription) : outcome bytes :=
  type ← Value_of_string (sd_type desc);
  value ← member_set VNull kSessionDescriptionTypeName type;
  sdp ← Value_of_string (sd_ToString desc).2;
  value ← member_set value kSessionDescriptionSdpName sdp;
  writeString value.

Definition OnSuccess (desc : SessionDescription) (o : Observer) (w : W) : outcome (Observer * W) :=
  match m_peer_connection_ o with
  | None => UB AssertFailed
  | Some pc =>
      json_str ← description_json desc;
      let o := sendSignalingMessage (bs "SDP->" ++ json_str) o in
      let '(es, w) := SetLocalDescription pc desc w in
      '(o, w) ← on_events es o w;
      if bool_decide (m_remoteIceCandidateMsg o = []) then Ok (o, w)
      else add_candidates (m_remoteIceCandidateMsg o) o w
  end.

Definition OnFailure (error : bytes) (o : Observer) (w : W) : outcome (Observer * W) := Ok (o, w).
End Observer.
