(* ===== verification/Connection.v ===== *)
(** * A connection to a peer (webrtc_connection.h, webrtc_connection.cpp)

    A [WebrtcConnection] and its thread.  [run_step] is one step of [Run]: the
    main thread of the server can run between any two of them.  A step is a part
    of the loop that touches shared data once, or that holds the mutex.
    Sockets are objects on the heap, shared with the main thread by address;
    the message queue is used through its atomic specification. *)
From Stdlib Require Import ZArith Ascii String Lia.
From stdpp Require Import base tactics list gmap.
From S2P Require Import Prelude CLib Http MessageQueue Socket Observer.

#[local] Open Scope Z_scope.

(** ** Sockets on the heap *)

Section Heap.
Context {W : Type} `{Winsock W}.

(** The sockets that exist, by address, and the outside world. *)
Record Shared := MkShared { sockets : gmap nat Socket; outside : W }.

Definition set_outside (w : W) (sh : Shared) : Shared := MkShared (sockets sh) w.

(** [p->...] *)
Definition deref (p : nat) (sh : Shared) : outcome Socket :=
  match sockets sh !! p with Some s => Ok s | None => UB UseAfterFree end.

(** [delete p] *)
Definition delete_at (p : nat) (sh : Shared) : outcome Shared :=
  s ← deref p sh;
  Ok (MkShared (delete p (sockets sh)) (delete_Socket s (outside sh))).

(** [p->write(data, size)]; no caller looks at the result. *)
Definition write_to (p : nat) (data : bytes) (sh : Shared) : outcome Shared :=
  s ← deref p sh; Ok (set_outside (Socket.write s data (outside sh)).2 sh).
End Heap.
Arguments Shared W {_}.

(** ** Time and callbacks *)

(** A callback to the observer: of the peer connection, or of [CreateAnswer]. *)
Inductive Callback {W} `{WebRTC W} :=
  | PcCallback (e : PcEvent MediaStream IceCandidate)
  | SdpSuccess (desc : SessionDescription)
  | SdpFailure (error : bytes).
Arguments Callback W {_}.

(** [steady_clock] in nanoseconds, and the messages [ProcessMessages] delivers
    to the thread within some milliseconds. *)
Class Runtime (W : Type) `{WebRTC W} := {
  now : W -> Z;
  ProcessMessages : Z -> W -> list (Callback W) * W;
  thread_Start : W -> W;
  thread_Stop : W -> W
}.

(** ** WebrtcConnection *)

Inductive ConnectionState_t :=
  | CONNECTION_STATE_INIT | CONNECTION_STATE_CONNECTED | CONNECTION_STATE_ERROR
  | CONNECTION_STATE_END.

#[export] Instance ConnectionState_eq_dec : EqDecision ConnectionState_t.
Proof. solve_decision. Defined.

Definition MAX_CONNECTION_TIME_SEC : Z := 60.

Section Connection.
Context {W : Type} `{Winsock W} `{Runtime W}.

(** Where [Run] is in its loop. *)
Inductive run_pc :=
  | AtLoop
  | AtDequeue
  | AtSignal (message : bytes)
  | AtSend
  | AtIce
  | AtProcess
  | AtEnd.

(** The thread, with the local variables of [Run]. *)
Inductive Thread :=
  | NotStarted
  | Started
  | Running (pc : run_pc) (observer : Observer) (startTime : Z)
  | Finished.

Record WebrtcConnection := MkConnection {
  m_peerId : Z;
  m_clientSocket : option nat;
  m_queue : list bytes;
  m_state : ConnectionState_t;
  m_thread : Thread;
  m_alive : bool
}.

Definition set_clientSocket v c := MkConnection (m_peerId c) v (m_queue c) (m_state c)
  (m_thread c) (m_alive c).
Definition set_queue v c := MkConnection (m_peerId c) (m_clientSocket c) v (m_state c)
  (m_thread c) (m_alive c).
Definition set_state v c := MkConnection (m_peerId c) (m_clientSocket c) (m_queue c) v
  (m_thread c) (m_alive c).
Definition set_thread v c := MkConnection (m_peerId c) (m_clientSocket c) (m_queue c) (m_state c)
  v (m_alive c).
Definition set_alive v c := MkConnection (m_peerId c) (m_clientSocket c) (m_queue c) (m_state c)
  (m_thread c) v.

Definition new_WebrtcConnection (peerId : Z) : WebrtcConnection :=
  MkConnection peerId None [] CONNECTION_STATE_INIT NotStarted true.

Definition getState (c : WebrtcConnection) : ConnectionState_t := m_state c.
Definition getPeerId (c : WebrtcConnection) : Z := m_peerId c.

Definition pushMessage (message : bytes) (c : WebrtcConnection) : WebrtcConnection :=
  set_queue (enqueue message (m_queue c)) c.

Definition connect (c : WebrtcConnection) (w : W) : WebrtcConnection * W :=
  (set_thread Started c, thread_Start w).

Definition setOutboundSocket (clientSocket : nat) (c : WebrtcConnection) : WebrtcConnection :=
  set_clientSocket (Some clientSocket) c.

(** [disconnect]; [Stop] waits for the thread to finish.  The main thread calls it
    only for a thread that has reached the end of [Run], so the wait is no step of
    its own. *)
Definition disconnect (c : WebrtcConnection) (w : W) : WebrtcConnection * W :=
  (set_alive false c, thread_Stop w).

(** *** Messages to the peer *)

Definition message_header_format : bytes :=
  bs "HTTP/1.1 200 OK" ++ CRLF ++ bs "Connection: close" ++ CRLF ++ bs "Server: %s" ++ CRLF
  ++ bs "Content-Type: text/plain" ++ CRLF ++ bs "Accept-Ranges: none" ++ CRLF
  ++ bs "Pragma: %u" ++ CRLF ++ bs "Cache-Control: no-store" ++ CRLF
  ++ bs "Content-Length: %d" ++ CRLF ++ CRLF.

(** The header [sendMessage] prints into its array. *)
Definition message_header (peerId dataSize : Z) : outcome bytes :=
  snprintf (HTTP_HEADER_SIZE_MAX - 1) message_header_format
    [AStr HTTP_SERVER_NAME; AInt peerId; AInt dataSize].

(** [sendMessage] to the socket [p]. *)
Definition sendMessage (p : nat) (message : bytes) (c : WebrtcConnection) (sh : Shared W)
  : outcome (Shared W) :=
  let data := cstr message in
  httpHeader ← message_header (m_peerId c) (size data);
  sh ← write_to p httpHeader sh;
  if 0 <? size data then write_to p data sh else Ok sh.

(** *** Run *)

(** The part of the loop under the mutex: the message that was sent, if any. *)
Definition send_step (observer : Observer) (c : WebrtcConnection) (sh : Shared W)
  : outcome (option bytes * Observer * WebrtcConnection * Shared W) :=
  if 0 <? getSignalingMessageCount observer then
    match m_clientSocket c with
    | Some p =>
        match getSignalingMessage observer with
        | (Some message, observer) =>
            sh ← sendMessage p message c sh;
            sh ← delete_at p sh;
            Ok (Some message, observer, set_clientSocket None c, sh)
        | (None, observer) => Ok (None, observer, c, sh)
        end
    | None => Ok (None, observer, c, sh)
    end
  else Ok (None, observer, c, sh).

(** Whether the state of the connection ends the loop, [startTime] being given. *)
Definition ice_step (observer : Observer) (startTime : Z) (w : W) : bool :=
  let localIceState := getIceState observer in
  if decide (localIceState = kIceConnectionDisconnected) then true
  else if decide (localIceState <> kIceConnectionConnected) then
    let diff := Z.quot (now w - startTime) (10 ^ 9) in
    MAX_CONNECTION_TIME_SEC <=? diff
  else false.

Definition on_callback (e : Callback W) (o : Observer) (w : W) : outcome (Observer * W) :=
  match e with
  | PcCallback e => on_event e o w
  | SdpSuccess desc => OnSuccess desc o w
  | SdpFailure error => OnFailure error o w
  end.

Definition on_callbacks (es : list (Callback W)) (o : Observer) (w : W) : outcome (Observer * W) :=
  foldM (fun '(o, w) e => on_callback e o w) (o, w) es.

(** One step of the connection's thread; [timed_out] when a wait for a message
    ends by its timeout.  No step is left to a thread that has not started,
    waits or has finished. *)
Definition run_step (timed_out : bool) (c : WebrtcConnection) (sh : Shared W)
  : option (outcome (WebrtcConnection * Shared W)) :=
  match m_thread c with
  | NotStarted | Finished => None
  | Started =>
      Some (Ok (set_thread (Running AtLoop (new_Observer (m_peerId c)) (now (outside sh)))
                  (set_state CONNECTION_STATE_CONNECTED c), sh))
  | Running pc o t =>
      let go pc o c sh := Ok (set_thread (Running pc o t) c, sh) in
      match pc with
      | AtLoop => Some (go (if m_alive c then AtDequeue else AtEnd) o c sh)
      | AtDequeue =>
          if timed_out then Some (go AtSend o c sh)
          else
            match dequeue (m_queue c) with
            | (Some message, q) => Some (go (AtSignal message) o (set_queue q c) sh)
            | (None, _) => None
            end
      | AtSignal message =>
          Some ('(o, w) ← onSignalingMessage message o (outside sh);
                go AtSend o c (set_outside w sh))
      | AtSend => Some ('(_, o, c, sh) ← send_step o c sh; go AtIce o c sh)
      | AtIce =>
          Some (go AtProcess o (if ice_step o t (outside sh) then set_alive false c else c) sh)
      | AtProcess =>
          Some (let '(es, w) := ProcessMessages 100 (outside sh) in
                '(o, w) ← on_callbacks es o w;
                go AtLoop o c (set_outside w sh))
      | AtEnd => Some (Ok (set_thread Finished (set_state CONNECTION_STATE_END c), sh))
      end
  end.
End Connection.
Arguments WebrtcConnection W {_}.
Arguments Thread W {_}.
