(* ===== verification/SampleNet.v ===== *)
(** * A small world

    A concrete network, WebRTC and clock, for the witnesses of theorems about
    any: the open handles, the connections that wait to be accepted with the
    pieces of data they will send, everything that was sent, the time and the
    candidates added to peer connections. *)
From Stdlib Require Import ZArith Ascii String Lia.
From stdpp Require Import base tactics list gmap sets.
From S2P Require Import Prelude CLib Socket Observer Connection.

#[local] Open Scope Z_scope.

Record Net := MkNet {
  n_open : gset Z;
  n_incoming : list (list bytes);
  n_data : gmap Z (list bytes);
  n_sent : list (Z * bytes);
  n_clock : Z;
  n_added : list (bytes * Z * bytes)
}.

Definition net_fd (w : Net) : Z := 1 + set_fold Z.max 0 (n_open w).

Definition net_accept (w : Net) : Z * Net :=
  match n_incoming w with
  | c :: r =>
      if net_fd w =? INVALID_SOCKET then (INVALID_SOCKET, w)
      else (net_fd w, MkNet ({[net_fd w]} ∪ n_open w) r (<[net_fd w := c]> (n_data w)) (n_sent w) (n_clock w) (n_added w))
  | [] => (INVALID_SOCKET, w)
  end.

Definition net_recv (fd n : Z) (w : Net) : Z * bytes * Net :=
  match n_data w !! fd with
  | Some (c :: r) =>
      let d := take (Z.to_nat n) c in
      (Z.of_nat (length d), d, MkNet (n_open w) (n_incoming w) (<[fd := r]> (n_data w)) (n_sent w) (n_clock w) (n_added w))
  | _ => (0, [], w)
  end.

Definition net_send (fd : Z) (d : bytes) (w : Net) : Z * Net :=
  (Z.of_nat (length d), MkNet (n_open w) (n_incoming w) (n_data w) (n_sent w ++ [(fd, d)]) (n_clock w) (n_added w)).

Definition net_ready (fd : Z) (w : Net) : bool :=
  match n_data w !! fd with Some (_ :: _) => true | Some [] => false
  | None => negb (bool_decide (n_incoming w = [])) end.

(** A TLS session is the handle it serves; a new one is for the last handle.  The
    handshake fails with a client that sends nothing. *)
#[export] Instance Net_Winsock : Winsock Net := {|
  SSL_CTX := unit;
  SSL := Z;
  inet_addr _ := 0;
  WSAStartup w := (0, w);
  sys_socket _ _ _ w := (3, MkNet ({[3]} ∪ n_open w) (n_incoming w) (n_data w) (n_sent w) (n_clock w) (n_added w));
  sys_setsockopt _ _ _ _ w := (0, w);
  sys_bind _ _ w := (0, w);
  sys_listen _ _ w := (0, w);
  sys_connect _ _ w := (SOCKET_ERROR, w);
  sys_accept _ w := net_accept w;
  sys_select fd _ _ w := (if net_ready fd w then 1 else 0, net_ready fd w, w);
  sys_recv := net_recv;
  sys_send := net_send;
  sys_getsockname _ w := (Some (MkAddr AF_INET 0 (htonl 2130706433)), w);
  sys_getpeername _ w := (None, w);
  sys_closesocket fd w := MkNet (n_open w ∖ {[fd]}) (n_incoming w) (n_data w) (n_sent w) (n_clock w) (n_added w);
  SSL_new _ w := (Some (set_fold Z.max 0 (n_open w)), w);
  SSL_set_fd _ _ w := w;
  SSL_accept ssl w := (if bool_decide (n_data w !! ssl = Some []) then -1 else 1, w);
  SSL_read := net_recv;
  SSL_write := net_send;
  SSL_free _ w := w
|}.

Lemma fold_max_ge (X : gset Z) x : x ∈ X -> x <= set_fold Z.max 0 X.
Proof.
  revert x. apply (set_fold_ind_L (fun b X => forall x, x ∈ X -> x <= b)); [set_solver|].
  intros y Y b Hy IH x [->%elem_of_singleton|Hx]%elem_of_union; [lia|]. specialize (IH x Hx). lia.
Qed.

Lemma fold_max_pos (X : gset Z) : 0 <= set_fold Z.max 0 X.
Proof. apply (set_fold_ind_L (fun b _ => 0 <= b)); [lia|]. intros; lia. Qed.

Lemma net_recv_bounded fd n w r data w' :
  net_recv fd n w = (r, data, w') -> r <= Z.max 0 n /\ length data = Z.to_nat r.
Proof.
  unfold net_recv. destruct (n_data w !! fd) as [[|c l]|]; intros [= <- <- <-]; simpl;
    rewrite ?length_take; lia.
Qed.

Lemma net_recv_keeps fd n w : n_open (net_recv fd n w).2 = n_open w.
Proof. unfold net_recv. by destruct (n_data w !! fd) as [[|c l]|]. Qed.

#[export] Instance Net_laws : WinsockLaws Net.
Proof.
  refine (Build_WinsockLaws Net _ n_open _ _ _ _ _ _ _ _ _ _ _ _ _ _); try done.
  - exact net_recv_bounded.
  - exact net_recv_bounded.
  - intros fd w r w'. cbn. unfold net_accept. destruct (n_incoming w); [intros [= <- <-]; by left|].
    destruct (Z.eqb_spec (net_fd w) INVALID_SOCKET); intros [= <- <-]; [by left|right].
    pose proof (fold_max_pos (n_open w)). split_and!; [done|unfold net_fd; lia| |done].
    intros Hin%fold_max_ge. unfold net_fd in Hin. lia.
  - exact net_recv_keeps.
  - exact net_recv_keeps.
Qed.

Definition net_add (c : bytes * Z * bytes) (w : Net) : Net :=
  MkNet (n_open w) (n_incoming w) (n_data w) (n_sent w) (n_clock w) (n_added w ++ [c]).

Definition net_wait (ms : Z) (w : Net) : Net :=
  MkNet (n_open w) (n_incoming w) (n_data w) (n_sent w) (n_clock w + ms * 10 ^ 6) (n_added w).

(** Descriptions and candidates are what they were made of. *)
#[export] Instance Net_WebRTC : WebRTC Net := {|
  Factory := unit;
  PeerConnection := unit;
  MediaStream := unit;
  VideoTrack := unit;
  AudioTrack := unit;
  SessionDescription := bytes * bytes;
  IceCandidate := bytes * Z * bytes;
  kEnableDtlsSrtp := bs "DtlsSrtpKeyAgreement";
  kOffer := bs "offer";
  CreatePeerConnectionFactory w := (Some tt, w);
  CreatePeerConnection _ _ w := (Some tt, w);
  SetRemoteDescription _ _ w := ([OnAddStream tt], true, w);
  SetLocalDescription _ _ w := ([OnSignalingChange kStable], w);
  CreateAnswer _ _ w := w;
  AddIceCandidate _ c w := (true, [], net_add c w);
  AddStream _ _ w := (true, w);
  Close _ w := ([], w);
  CreateLocalMediaStream _ _ w := (Some tt, w);
  GetVideoTracks _ _ := [tt];
  GetAudioTracks _ _ := [];
  AddVideoTrack _ _ w := (true, w);
  AddAudioTrack _ _ w := (true, w);
  CreateSessionDescription type sdp := Some (type, sdp);
  sd_type d := d.1;
  sd_ToString d := (true, d.2);
  CreateIceCandidate mid line sdp := Some (mid, line, sdp);
  sdp_mid c := c.1.1;
  sdp_mline_index c := c.1.2;
  ice_ToString c := (true, c.2)
|}.

(** Nothing happens while the thread waits. *)
#[export] Instance Net_Runtime : Runtime Net := {|
  now := n_clock;
  ProcessMessages ms w := ([], net_wait ms w);
  thread_Start w := w;
  thread_Stop w := w
|}.
