(* ===== verification/SocketProofs.v ===== *)
(** * Sockets: ownership of handles, bounds of reads *)
From Stdlib Require Import ZArith Ascii String Lia.
From stdpp Require Import base tactics list gmap sets.
From S2P Require Import Prelude CLib Socket SampleNet.

#[local] Open Scope Z_scope.

Section Ownership.
Context {W : Type} `{WinsockLaws W}.

Lemma delete_handles (s : Socket) (w : W) :
  m_handle s <> 0 -> handles (delete_Socket s w) = handles w ∖ {[m_handle s]}.
Proof.
  intros Hh. unfold delete_Socket. rewrite (proj2 (Z.eqb_neq _ _) Hh), close_closes.
  by destruct (m_ssl s); rewrite ?SSL_free_keeps.
Qed.

(** The call of the system's [accept] that [accept] makes when a client waits:
    the result and the world after it. *)
Definition taken (s : Socket) (w : W) (fd : Z) (w2 : W) : Prop :=
  exists ret w1, sys_select (m_handle s) SOCKET_CONNECTION_TIMEOUT 0 w = (ret, true, w1) /\
    ret <> SOCKET_ERROR /\ sys_accept (m_handle s) w1 = (fd, w2) /\ fd <> INVALID_SOCKET.

(** No TLS session can be made for the new handle [fd], or its handshake fails. *)
Definition handshake_fails (s : Socket) (fd : Z) (w2 : W) : Prop :=
  exists ctx, m_sslCtx s = Some ctx /\
    let '(ssl, w4) := SSL_new ctx (sys_setsockopt fd IPPROTO_IP IP_DONTFRAGMENT 1 w2).2 in
    match ssl with
    | None => True
    | Some ssl => (SSL_accept ssl (SSL_set_fd ssl fd w4)).1 = -1
    end.

Lemma taken_opens s w fd w2 :
  taken s w fd w2 -> fd <> 0 /\ fd ∉ handles w /\ handles w2 = {[fd]} ∪ handles w.
Proof.
  intros (ret & w1 & E1 & _ & E2 & Hfd). pose proof (select_keeps (m_handle s) SOCKET_CONNECTION_TIMEOUT 0 w) as K1.
  rewrite E1 in K1. cbn [snd] in K1.
  destruct (accept_opens _ _ _ _ E2) as [[? _]|(_ & Hz & Hf & K2)]; [done|]. by rewrite K1 in *.
Qed.

(** Whether [accept] gets a client. *)
Lemma accept_takes s w :
  (exists fd w2, taken s w fd w2) \/
  ((forall fd w2, ~ taken s w fd w2) /\ (accept s w).1 = None /\ handles (accept s w).2 = handles w).
Proof.
  unfold accept, taken. pose proof (select_keeps (m_handle s) SOCKET_CONNECTION_TIMEOUT 0 w) as K1.
  destruct (sys_select _ _ _ _) as [[ret isset] w1]; cbn [snd] in K1.
  destruct (Z.eqb_spec ret SOCKET_ERROR) as [->|Hr];
    [right; split; [|done]; by intros ? ? (? & ? & [= <- _ _] & ? & _)|].
  destruct isset; cbn [negb]; [|right; split; [|done]; by intros ? ? (? & ? & [=] & _)].
  destruct (sys_accept _ w1) as [fd w2] eqn:E2. destruct (Z.eqb_spec fd INVALID_SOCKET) as [->|Hfd].
  - right. split; [intros ? ? (? & ? & [= _ <-] & _ & E & ?); rewrite E2 in E; by injection E as <- _|].
    split; [done|]. cbn [snd]. destruct (accept_opens _ _ _ _ E2) as [[_ ->]|[? _]]; done.
  - left. exists fd, w2, ret, w1. done.
Qed.

(** What [accept] makes of a client. *)
Lemma accept_taken s w fd w2 :
  taken s w fd w2 ->
  handles (accept s w).2 = handles w2 /\
  match (accept s w).1 with
  | Some t => ~ handshake_fails s fd w2 /\ m_handle t = fd /\ m_sslCtx t = m_sslCtx s /\
              (is_Some (m_ssl t) <-> is_Some (m_sslCtx s))
  | None => handshake_fails s fd w2
  end.
Proof.
  intros (ret & w1 & E1 & Hr & E2 & Hfd). unfold accept, handshake_fails. rewrite E1. cbn [negb].
  rewrite (proj2 (Z.eqb_neq _ _) Hr), E2, (proj2 (Z.eqb_neq _ _) Hfd).
  pose proof (setsockopt_keeps fd IPPROTO_IP IP_DONTFRAGMENT 1 w2) as K3.
  destruct (sys_setsockopt _ _ _ _ w2) as [r3 w3]; cbn [snd] in K3 |- *.
  destruct (m_sslCtx s) as [ctx|] eqn:Ec; cbn.
  - pose proof (SSL_new_keeps ctx w3) as K4. destruct (SSL_new ctx w3) as [[ssl|] w4] eqn:E4; cbn [snd] in K4.
    + pose proof (SSL_accept_keeps ssl (SSL_set_fd ssl fd w4)) as K5. rewrite SSL_set_fd_keeps in K5.
      destruct (SSL_accept ssl _) as [r5 w5] eqn:E5; cbn [snd] in K5. destruct (Z.eqb_spec r5 (-1)) as [->|H5].
      * split; [cbn; congruence|]. exists ctx. split; [done|]. by rewrite E4, E5.
      * split; [cbn; congruence|]. cbn. split_and!; try done. intros (c & [= <-] & Hc). by rewrite E4, E5 in Hc.
    + split; [cbn; congruence|]. exists ctx. split; [done|]. by rewrite E4.
  - split; [done|]. split_and!; try done. by intros (c & [=] & _).
Qed.


(** What a read of at most [size] characters may do. *)
Definition read_ok (s : Socket) (size : Z) (w : W) : Prop :=
  let '(ret, data, w') := read s size w in
  ret <= size /\ length data = Z.to_nat ret /\ handles w' = handles w /\
  ((sys_select (m_handle s) 0 SOCKET_READ_TIMEOUT w).1 = (0, false) -> ret = 0).

Lemma read_is_ok (s : Socket) (size : Z) (w : W) : 0 <= size -> read_ok s size w.
Proof.
  intros Hsize. unfold read_ok, read. pose proof (select_keeps (m_handle s) 0 SOCKET_READ_TIMEOUT w) as K1.
  destruct (sys_select _ _ _ _) as [[ret isset] w1]; cbn [snd] in K1.
  destruct (Z.eqb_spec ret SOCKET_ERROR) as [->|Hr].
  { split_and!; [lia|done|done|]. intros [= ?]. }
  destruct isset; cbn [negb]; [|by split_and!].
  assert (G : forall r (data : bytes) w2, r <= Z.max 0 size -> length data = Z.to_nat r ->
    handles w2 = handles w1 ->
    let '(ret', d, w') := if r =? -1 then (-1, data, w2) else (r, data, w2) in
    ret' <= size /\ length d = Z.to_nat ret' /\ handles w' = handles w /\
    ((ret, true) = (0, false) -> ret' = 0)).
  { intros r data w2 H1 H2 H3. destruct (Z.eqb_spec r (-1)) as [->|];
      (split_and!; [lia|done|congruence|done]). }
  destruct (secure s) as [ssl|].
  - pose proof (SSL_read_keeps ssl size w1) as K2.
    destruct (SSL_read _ _ _) as [[r data] w2] eqn:E. destruct (SSL_read_bounded _ _ _ _ _ _ E).
    by apply G.
  - pose proof (recv_keeps (m_handle s) size w1) as K2.
    destruct (sys_recv _ _ _) as [[r data] w2] eqn:E. destruct (recv_bounded _ _ _ _ _ _ E).
    by apply G.
Qed.

End Ownership.

(** ** Addresses *)

Lemma dec_byte z : 0 <= z < 256 -> (length (dec (i32 z)) <= 3)%nat.
Proof.
  intros Hz.
  assert (forallb (fun z => (length (dec (i32 z)) <=? 3)%nat) (seqZ 0 256) = true) as H
    by (vm_compute; reflexivity).
  rewrite forallb_forall in H. apply Nat.leb_le, H, list_elem_of_In, elem_of_seqZ. lia.
Qed.

Lemma land_byte z : 0 <= Z.land z 255 < 256.
Proof. change 255 with (Z.ones 8). rewrite Z.land_ones by lia. apply Z.mod_pos_bound; lia. Qed.

(** The address of a connected or bound socket always fits the 16 characters of
    the array it is printed to, so the functions fail only when the system does
    not know the address. *)
Lemma dotted_fits addr : exists t, dotted addr = Ok t /\ sprintf_array 16 t = Ok t.
Proof.
  unfold dotted. set (ip := htonl _). eexists; split; [reflexivity|].
  pose proof (dec_byte _ (land_byte (Z.shiftr ip 24))). pose proof (dec_byte _ (land_byte (Z.shiftr ip 16))).
  pose proof (dec_byte _ (land_byte (Z.shiftr ip 8))). pose proof (dec_byte _ (land_byte ip)).
  unfold sprintf_array. rewrite (proj2 (Nat.leb_le _ _)); [done|].
  repeat (rewrite length_app || cbn [length]). lia.
Qed.

(** ** Samples *)

(** A plain socket 4 with three characters to read, and a listener 3 to which a
    client comes. *)
Definition sample_net : Net := MkNet {[3; 4]} [[bs "x"]] {[4 := [bs "GET"]]} [] 0 [].

Definition sample_listener : @Socket Net _ := MkSocket (Some tt) None 3 [] 0.
Definition sample_client : @Socket Net _ := MkSocket (Some tt) (Some 5) 5 [] 0.

(** The same with a client that sends nothing: the handshake fails. *)
Definition silent_net : Net := MkNet {[3; 4]} [[]] ∅ [] 0 [].

