(* ===== verification/ConnectionProofs.v ===== *)
(** * Connections: framing, order of messages, life of the thread *)
From Stdlib Require Import ZArith Ascii String Lia.
From stdpp Require Import base tactics list gmap.
From S2P Require Import Prelude CLib Http MessageQueue Socket Observer Connection SampleNet.

#[local] Open Scope Z_scope.

(** ** Framing *)

Lemma dec_go_length n z acc : (length (dec_go n z acc) <= n + length acc)%nat.
Proof.
  revert z acc; induction n as [|n IH]; intros z acc; simpl; [lia|].
  destruct (z <? 10); simpl; [lia|]. specialize (IH (z / 10) (digit (z mod 10) :: acc)).
  simpl in IH; lia.
Qed.

Lemma dec_length z : (length (dec z) <= 21)%nat.
Proof.
  pose proof (dec_go_length 20 z []) as H1. pose proof (dec_go_length 20 (- z) []) as H2.
  unfold dec, dec_unsigned. cbn [length] in *. destruct (z <? 0); cbn [length]; lia.
Qed.

Lemma dec_nonneg z : 0 <= z -> dec z = dec_unsigned z.
Proof. intros; unfold dec. destruct (Z.ltb_spec z 0); [lia|done]. Qed.

(** A response to a waiting client: its header, for a peer and a body. *)
Definition response_header (peerId length_ : Z) : bytes :=
  bs "HTTP/1.1 200 OK" ++ CRLF ++ bs "Connection: close" ++ CRLF
  ++ bs "Server: WebRTC Reflector" ++ CRLF
  ++ bs "Content-Type: text/plain" ++ CRLF ++ bs "Accept-Ranges: none" ++ CRLF
  ++ bs "Pragma: " ++ dec_unsigned peerId ++ CRLF ++ bs "Cache-Control: no-store" ++ CRLF
  ++ bs "Content-Length: " ++ dec_unsigned length_ ++ CRLF ++ CRLF.

Lemma message_header_ok peerId n :
  0 <= peerId < 2 ^ 32 -> 0 <= n <= INT_MAX ->
  message_header peerId n = Ok (response_header peerId n).
Proof.
  intros Hp Hn. unfold message_header, snprintf.
  assert (vformat (cstr message_header_format) [AStr HTTP_SERVER_NAME; AInt peerId; AInt n]
    = Ok (bs "HTTP/1.1 200 OK" ++ CRLF ++ bs "Connection: close" ++ CRLF
      ++ bs "Server: WebRTC Reflector" ++ CRLF
      ++ bs "Content-Type: text/plain" ++ CRLF ++ bs "Accept-Ranges: none" ++ CRLF
      ++ bs "Pragma: " ++ dec (u32 peerId) ++ CRLF ++ bs "Cache-Control: no-store" ++ CRLF
      ++ bs "Content-Length: " ++ dec (i32 n) ++ CRLF ++ CRLF)) as -> by reflexivity.
  run. rewrite take_ge.
  - rewrite u32_small, i32_small, !dec_nonneg by (unfold INT_MIN, INT_MAX in *; lia). done.
  - pose proof (dec_length (u32 peerId)). pose proof (dec_length (i32 n)).
    change (Z.to_nat (HTTP_HEADER_SIZE_MAX - 1 - 1)) with 1022%nat.
    bs_length. lia.
Qed.

Section Sending.
Context {W : Type} `{Winsock W} `{Runtime W}.

(** A response as the pieces that are written, in order. *)
Definition response (peerId : Z) (message : bytes) : list bytes :=
  response_header peerId (size (cstr message))
  :: (if bool_decide (cstr message = []) then [] else [cstr message]).

Definition write_all (p : nat) (pieces : list bytes) (sh : Shared W) : outcome (Shared W) :=
  foldM (fun sh t => write_to p t sh) sh pieces.

Lemma sendMessage_response p message (c : WebrtcConnection W) sh :
  0 <= m_peerId c < 2 ^ 32 -> size message <= INT_MAX ->
  sendMessage p message c sh = write_all p (response (m_peerId c) message) sh.
Proof.
  intros Hp Hm. unfold sendMessage, response, write_all.
  assert (0 <= size (cstr message) <= INT_MAX) as Hs
    by (pose proof (strlen_le message); unfold strlen, size in *; lia).
  rewrite message_header_ok by done; run. cbn [foldM].
  destruct (Z.ltb_spec 0 (size (cstr message))) as [Hl|Hl].
  - rewrite bool_decide_false by (intros E; rewrite E in Hl; unfold size in Hl; simpl in Hl; lia).
    cbn [foldM]. destruct (write_to p _ sh) as [sh'| | |]; [|done..]. simpl.
    by destruct (write_to p _ sh').
  - rewrite bool_decide_true
      by (apply nil_length_inv; unfold size in Hl; lia).
    simpl. by destruct (write_to p _ sh).
Qed.
End Sending.

(** ** The observer only adds to its queue *)

Section Queue.
Context {W : Type} `{WebRTC W}.

Definition appends (o o' : Observer) : Prop := m_msgQueue o `prefix_of` m_msgQueue o'.

(** Everything [m] returns has a queue that extends that of [o]. *)
Definition extends (o : Observer) (m : outcome (Observer * W)) : Prop :=
  forall o' w', m = Ok (o', w') -> appends o o'.

Lemma appends_same o o' : m_msgQueue o' = m_msgQueue o -> appends o o'.
Proof. unfold appends. by intros ->. Qed.

Lemma appends_refl o : appends o o.
Proof. by apply appends_same. Qed.

Lemma appends_trans o1 o2 o3 : appends o1 o2 -> appends o2 o3 -> appends o1 o3.
Proof. unfold appends. intros; by etrans. Qed.

Lemma extends_ret o o' w : appends o o' -> extends o (Ok (o', w)).
Proof. by intros ? ? ? [= <- <-]. Qed.

Lemma extends_fault o f : extends o (UB f).
Proof. by intros ? ?. Qed.

Lemma extends_NoFuel o : extends o NoFuel.
Proof. by intros ? ?. Qed.

Lemma extends_bind o m f :
  extends o m -> (forall o' w', extends o' (f (o', w'))) -> extends o (m ≫= f).
Proof.
  intros Hm Hf o' w' E. apply bind_Ok_inv in E as ([o1 w1] & E1 & E2).
  exact (appends_trans _ _ _ (Hm _ _ E1) (Hf _ _ _ _ E2)).
Qed.

Lemma extends_pure {A} o (m : outcome A) f :
  (forall a, extends o (f a)) -> extends o (m ≫= f).
Proof. intros Hf o' w' E. apply bind_Ok_inv in E as (a & _ & E). by eapply Hf. Qed.

Lemma extends_weaken o1 o m : appends o o1 -> extends o1 m -> extends o m.
Proof. intros H1 H2 ? ? E. exact (appends_trans _ _ _ H1 (H2 _ _ E)). Qed.

(** Walks through the binds, branches and results of an operation. *)
Ltac extend :=
  repeat first
    [ progress cbv beta iota
    | apply extends_ret, appends_same; reflexivity
    | apply extends_fault
    | apply extends_NoFuel
    | eauto with reflector; fail
    | progress case_decide
    | match goal with
      | |- extends _ (match ?x with _ => _ end) => destruct x
      | |- extends _ (let '(_, _) := ?x in _) => destruct x
      end
    | apply extends_bind; [|intros ? ?]
    | apply extends_pure; intros ? ].

Lemma on_AddStream_extends stream o w : extends o (on_AddStream stream o w).
Proof. unfold on_AddStream. extend. Qed.

Lemma on_event_extends e o w : extends o (on_event e o w).
Proof.
  destruct e; simpl; try apply on_AddStream_extends;
    try (apply extends_ret, appends_same; reflexivity).
  - unfold on_IceGatheringChange. case_decide; apply extends_ret; [by eexists|apply appends_refl].
  - unfold on_IceCandidate. rewrite bind_assoc. apply extends_pure. intros [t|]; simpl; extend.
Qed.

Lemma foldM_extends {A} (f : Observer * W -> A -> outcome (Observer * W)) l o w :
  (forall a o w, extends o (f (o, w) a)) -> extends o (foldM f (o, w) l).
Proof.
  intros Hf. revert o w; induction l as [|a l IH]; intros o w; simpl; [apply extends_ret, appends_refl|].
  apply extends_bind; auto.
Qed.

Lemma on_events_extends es o w : extends o (on_events es o w).
Proof. apply foldM_extends. intros; apply on_event_extends. Qed.

#[local] Hint Resolve on_events_extends : reflector.

Lemma addIceCandidate_extends t o w : extends o (addIceCandidate t o w).
Proof.
  unfold addIceCandidate. destruct (m_peer_connection_ o); [|extend].
  apply extends_pure; intros [[ok j] errs]. destruct ok; cbn [negb]; [|extend].
  apply extends_pure; intros [v1 j1]. apply extends_pure; intros mid.
  apply extends_pure; intros [v2 j2]. apply extends_pure; intros line.
  apply extends_pure; intros [v3 j3]. apply extends_pure; intros sdp. extend.
Qed.

#[local] Hint Resolve addIceCandidate_extends : reflector.

Lemma candidates_extends n payload i o w : extends o (candidates_loop n payload i o w).
Proof.
  revert i o w; induction n as [|n IH]; intros i o w; cbn [candidates_loop]; extend.
Qed.

#[local] Hint Resolve candidates_extends : reflector.

Lemma initPeerConnection_queue o w : m_msgQueue (initPeerConnection o w).1.2 = m_msgQueue o.
Proof.
  unfold initPeerConnection. destruct (CreatePeerConnectionFactory w) as [[f|] w1]; [|done].
  by destruct (CreatePeerConnection f _ w1) as [[pc|] w2].
Qed.

Lemma on_sdp_extends payload o w : extends o (on_sdp payload o w).
Proof.
  unfold on_sdp, on_description. apply extends_pure; intros [[ok j] errs]. destruct ok; simpl; [|extend].
  apply extends_pure; intros [v1 j1]. apply extends_pure; intros type.
  apply extends_pure; intros [v2 j2]. apply extends_pure; intros sdp.
  destruct (CreateSessionDescription _ _) as [sd|]; [|extend].
  pose proof (initPeerConnection_queue o w) as Hq.
  destruct (initPeerConnection o w) as [[ok o1] w1]; cbn [fst snd] in Hq.
  apply (extends_weaken o1 o); [by apply appends_same|]. destruct ok; extend.
Qed.

Lemma onSignalingMessage_extends message o w : extends o (onSignalingMessage message o w).
Proof.
  unfold onSignalingMessage, on_ice, add_candidates. apply extends_pure; intros [cmd payload].
  case_decide; [apply on_sdp_extends|]. extend.
Qed.

Lemma OnSuccess_extends desc o w : extends o (OnSuccess desc o w).
Proof.
  unfold OnSuccess, add_candidates. destruct (m_peer_connection_ o); [|extend].
  apply extends_pure; intros json. set (o1 := sendSignalingMessage _ o).
  apply (extends_weaken o1 o); [by eexists|].
  destruct (SetLocalDescription _ _ _) as [es w1]. apply extends_bind; [extend|]. intros o2 w2. extend.
Qed.
End Queue.

Section Callbacks.
Context {W : Type} `{Runtime W}.

Lemma on_callbacks_extends es o w : extends o (on_callbacks es o w).
Proof.
  apply foldM_extends. intros [e|d|t] o1 w1; simpl;
    [apply on_event_extends|apply OnSuccess_extends|apply extends_ret, appends_refl].
Qed.
End Callbacks.

(** ** Executions of a connection's thread *)

Section Executions.
Context {W : Type} `{Winsock W} `{Runtime W}.

(** The messages that wait to be sent. *)
Definition unsent (c : WebrtcConnection W) : list bytes :=
  match m_thread c with Running _ o _ => m_msgQueue o | _ => [] end.

(** The message the next step sends, and the socket it is sent to. *)
Definition sends (c : WebrtcConnection W) : list (nat * bytes) :=
  match m_thread c, m_clientSocket c with
  | Running AtSend o _, Some p =>
      match m_msgQueue o with message :: _ => [(p, message)] | [] => [] end
  | _, _ => []
  end.

(** What the main thread may do between two steps: push a message, register a
    socket, ask the thread to stop, and anything to the sockets and the world. *)
Definition interferes (c c' : WebrtcConnection W) : Prop :=
  m_peerId c' = m_peerId c /\ m_state c' = m_state c /\ m_thread c' = m_thread c.

Abbreviation config := (WebrtcConnection W * Shared W)%type.

(** An execution, with what it sends. *)
Inductive execution : config -> list (nat * bytes) -> config -> Prop :=
  | exec_done x : execution x [] x
  | exec_run b c sh c1 sh1 log x :
      run_step b c sh = Some (Ok (c1, sh1)) -> execution (c1, sh1) log x ->
      execution (c, sh) (sends c ++ log) x
  | exec_main c sh c1 sh1 log x :
      interferes c c1 -> execution (c1, sh1) log x -> execution (c, sh) log x.

Definition is_running (c : WebrtcConnection W) : Prop :=
  match m_thread c with Running _ _ _ => True | _ => False end.

(** The outcome of the critical section. *)
Lemma send_step_inv o c sh r o' c' sh' :
  send_step o c sh = Ok (r, o', c', sh') ->
  (r = None /\ o' = o /\ c' = c /\ sh' = sh /\ (m_clientSocket c = None \/ m_msgQueue o = [])) \/
  (exists p m q, m_clientSocket c = Some p /\ m_msgQueue o = m :: q /\ r = Some m /\
    m_msgQueue o' = q /\ c' = set_clientSocket None c /\
    sendMessage p m c sh ≫= delete_at p = Ok sh').
Proof.
  unfold send_step, getSignalingMessageCount, getSignalingMessage.
  destruct (m_msgQueue o) as [|m q] eqn:Eq.
  { intros [= <- <- <- <-]. left. split_and!; auto. }
  rewrite (proj2 (Z.ltb_lt _ _)) by (simpl length; lia).
  destruct (m_clientSocket c) as [p|] eqn:Ep; [|intros [= <- <- <- <-]; left; split_and!; auto].
  intros E. apply bind_Ok_inv in E as (sh1 & E1 & E). apply bind_Ok_inv in E as (sh2 & E2 & E).
  injection E as <- <- <- <-. right. exists p, m, q. split_and!; try done. by rewrite E1.
Qed.

Lemma run_step_order b c sh c' sh' :
  run_step b c sh = Some (Ok (c', sh')) -> is_running c' ->
  unsent c `prefix_of` (sends c).*2 ++ unsent c'.
Proof.
  unfold run_step, unsent, sends, is_running.
  destruct (m_thread c) as [| |pc o t|] eqn:Et; try done.
  - intros [= <- <-] _. apply prefix_nil.
  - destruct pc as [| |message| | | |].
    + intros [= <- <-] _. done.
    + destruct b; [by intros [= <- <-]|]. destruct (dequeue _) as [[m|] q]; [|done].
      by intros [= <- <-].
    + intros [= E] _. apply bind_Ok_inv in E as ([o1 w1] & E1 & [= <- <-]). simpl.
      by apply (onSignalingMessage_extends _ _ _ _ _ E1).
    + intros [= E] _. apply bind_Ok_inv in E as ([[[r o1] c1] sh1] & E1 & [= <- <-]). simpl.
      destruct (send_step_inv _ _ _ _ _ _ _ E1) as
        [(-> & -> & -> & -> & Hn)|(p & m & q & -> & -> & -> & <- & -> & _)]; [|done].
      destruct Hn as [->| ->]; [done|]. by destruct (m_clientSocket c).
    + intros [= <- <-] _. done.
    + intros [= E] _. destruct (ProcessMessages _ _) as [es w1].
      apply bind_Ok_inv in E as ([o1 w2] & E1 & [= <- <-]). simpl.
      by apply (on_callbacks_extends _ _ _ _ _ E1).
    + by intros [= <- <-] ?.
Qed.

(** A step leaves the thread in the loop or finished, and it stays finished. *)
Lemma run_step_thread b c sh c' sh' :
  run_step b c sh = Some (Ok (c', sh')) -> is_running c' \/ m_thread c' = Finished.
Proof.
  unfold run_step, is_running. destruct (m_thread c) as [| |pc o t|] eqn:Et; try done.
  - intros [= <- <-]. by left.
  - destruct pc as [| |message| | | |].
    + intros [= <- <-]. by left.
    + destruct b; [intros [= <- <-]; by left|]. destruct (dequeue _) as [[m|] q]; [|done].
      intros [= <- <-]. by left.
    + intros [= E]. apply bind_Ok_inv in E as ([o1 w1] & E1 & [= <- <-]). by left.
    + intros [= E]. apply bind_Ok_inv in E as ([[[r o1] c1] sh1] & E1 & [= <- <-]). by left.
    + intros [= <- <-]. by left.
    + intros [= E]. destruct (ProcessMessages _ _) as [es w1].
      apply bind_Ok_inv in E as ([o1 w2] & E1 & [= <- <-]). by left.
    + intros [= <- <-]. by right.
Qed.

Lemma finished_stays x log y :
  execution x log y -> m_thread x.1 = Finished -> m_thread y.1 = Finished.
Proof.
  induction 1 as [x|b c sh c1 sh1 log x Hs _ IH|c sh c1 sh1 log x Hi _ IH]; intros Hf; auto.
  - unfold run_step in Hs. simpl in Hf. by rewrite Hf in Hs.
  - destruct Hi as (_ & _ & Ht). apply IH. simpl in *. by rewrite Ht.
Qed.

Lemma execution_order x log y :
  execution x log y -> is_running y.1 ->
  unsent x.1 `prefix_of` log.*2 ++ unsent y.1.
Proof.
  induction 1 as [x|b c sh c1 sh1 log x Hs Hx IH|c sh c1 sh1 log x Hi _ IH]; intros Hr; [done| |].
  - specialize (IH Hr). cbn [fst] in *. destruct (run_step_thread _ _ _ _ _ Hs) as [K|K].
    + pose proof (run_step_order _ _ _ _ _ Hs K) as Hp. rewrite fmap_app, <- app_assoc.
      etrans; [exact Hp|]. by apply prefix_app.
    + pose proof (finished_stays _ _ _ Hx K) as Hf. unfold is_running in Hr. by rewrite Hf in Hr.
  - specialize (IH Hr). destruct Hi as (_ & _ & Ht). simpl in *. unfold unsent in *. by rewrite Ht in IH.
Qed.
(** *** The state and the thread *)

Definition state_of (t : Thread W) : ConnectionState_t :=
  match t with
  | NotStarted | Started => CONNECTION_STATE_INIT
  | Running _ _ _ => CONNECTION_STATE_CONNECTED
  | Finished => CONNECTION_STATE_END
  end.

Definition state_rank (s : ConnectionState_t) : nat :=
  match s with
  | CONNECTION_STATE_INIT => 0
  | CONNECTION_STATE_CONNECTED => 1
  | CONNECTION_STATE_ERROR => 2
  | CONNECTION_STATE_END => 3
  end.

Definition coherent (c : WebrtcConnection W) : Prop := m_state c = state_of (m_thread c).

(** Closes what is left of a step that keeps the state. *)
Ltac keep Hc := simpl; rewrite ?Hc; split_and!; (done || (simpl; lia)).

Lemma run_step_state b c sh c' sh' :
  coherent c -> run_step b c sh = Some (Ok (c', sh')) ->
  coherent c' /\ (state_rank (m_state c) <= state_rank (m_state c'))%nat /\
  m_peerId c' = m_peerId c.
Proof.
  unfold coherent, run_step. intros Hc. rewrite Hc.
  destruct (m_thread c) as [| |pc o t|] eqn:Et; try done; cbn [state_of] in *.
  - intros [= <- <-]. keep Hc.
  - destruct pc as [| |message| | | |].
    + intros [= <- <-]. keep Hc.
    + destruct b; [intros [= <- <-]; keep Hc|].
      destruct (dequeue _) as [[m|] q]; [|done]. intros [= <- <-];keep Hc.
    + intros [= E]. apply bind_Ok_inv in E as ([o1 w1] & E1 & [= <- <-]). keep Hc.
    + intros [= E]. apply bind_Ok_inv in E as ([[[r o1] c1] sh1] & E1 & [= <- <-]).
      destruct (send_step_inv _ _ _ _ _ _ _ E1) as
        [(_ & _ & -> & _)|(p & m & q & _ & _ & _ & _ & -> & _)];keep Hc.
    + intros [= <- <-]. destruct (ice_step _ _ _);keep Hc.
    + intros [= E]. destruct (ProcessMessages _ _) as [es w1].
      apply bind_Ok_inv in E as ([o1 w2] & E1 & [= <- <-]). keep Hc.
    + intros [= <- <-]. keep Hc.
Qed.

Lemma execution_state x log y :
  execution x log y -> coherent x.1 ->
  coherent y.1 /\ (state_rank (m_state x.1) <= state_rank (m_state y.1))%nat /\
  m_peerId y.1 = m_peerId x.1.
Proof.
  induction 1 as [x|b c sh c1 sh1 log x Hs _ IH|c sh c1 sh1 log x Hi _ IH]; intros Hc; auto.
  - destruct (run_step_state _ _ _ _ _ Hc Hs) as (K1 & K2 & K3).
    destruct (IH K1) as (K4 & K5 & K6). simpl in *. split_and!; [done|lia|congruence].
  - destruct Hi as (K1 & K2 & K3). simpl in *. unfold coherent in *.
    rewrite K1, K2, K3 in IH. auto.
Qed.

(** *** A silent peer *)

(** [n] steps during which every wait times out and the main thread rests. *)
Fixpoint idle_run (n : nat) (c : WebrtcConnection W) (sh : Shared W) : outcome config :=
  match n with
  | O => Ok (c, sh)
  | S n =>
      match run_step true c sh with
      | Some m => '(c, sh) ← m; idle_run n c sh
      | None => Ok (c, sh)
      end
  end.

Section Silent.
Context (quiet : forall w : W, (ProcessMessages 100 w).1 = []).
Context (ticks : forall w : W, now w + 10 ^ 8 <= now (ProcessMessages 100 w).2).

Abbreviation looping id q o t alive :=
  (MkConnection id None q CONNECTION_STATE_CONNECTED (Running AtLoop o t) alive).

Lemma idle_iteration n id q o t sh :
  idle_run (5 + n) (looping id q o t true) sh =
  idle_run n (looping id q o t (negb (ice_step o t (outside sh))))
    (set_outside (ProcessMessages 100 (outside sh)).2 sh).
Proof using quiet.
  cbn [Nat.add idle_run run_step m_thread m_alive m_clientSocket]. cbn. run. cbn.
  unfold send_step. cbn [m_clientSocket set_thread].
  destruct (0 <? getSignalingMessageCount o); cbn; run.
  all: pose proof (quiet (outside sh)) as Hq;
    destruct (ice_step o t (outside sh)); cbn; run;
    destruct (ProcessMessages 100 (outside sh)) as [es w1]; cbn in Hq |- *; rewrite Hq; reflexivity.
Qed.

Lemma idle_end n id q o t sh :
  idle_run (2 + n) (looping id q o t false) sh =
  idle_run n (MkConnection id None q CONNECTION_STATE_END Finished false) sh.
Proof. reflexivity. Qed.

Lemma idle_finished n id q sh :
  idle_run n (MkConnection id None q CONNECTION_STATE_END Finished false) sh =
  Ok (MkConnection id None q CONNECTION_STATE_END Finished false, sh).
Proof. by destruct n. Qed.

Lemma idle_ends k id q o t sh :
  getIceState o <> kIceConnectionConnected ->
  60 * 10 ^ 9 <= now (outside sh) - t + Z.of_nat k * 10 ^ 8 ->
  exists sh', idle_run (5 * k + 7) (looping id q o t true) sh =
    Ok (MkConnection id None q CONNECTION_STATE_END Finished false, sh').
Proof using quiet ticks.
  revert sh; induction k as [|k IH]; intros sh Ho Hk.
  - change (5 * 0 + 7)%nat with (5 + 2)%nat. rewrite idle_iteration.
    assert (ice_step o t (outside sh) = true) as ->.
    { unfold ice_step. case_decide; [done|]. rewrite decide_True by done.
      apply Z.leb_le. unfold MAX_CONNECTION_TIME_SEC. apply Z.quot_le_lower_bound; lia. }
    cbn [negb]. change 2%nat with (2 + 0)%nat. rewrite idle_end, idle_finished. eauto.
  - replace (5 * S k + 7)%nat with (5 + (5 * k + 7))%nat by lia. rewrite idle_iteration.
    destruct (ice_step o t (outside sh)); cbn [negb].
    + replace (5 * k + 7)%nat with (2 + (5 * k + 5))%nat by lia. rewrite idle_end, idle_finished. eauto.
    + apply IH; [done|]. pose proof (ticks (outside sh)). simpl. lia.
Qed.
End Silent.
End Executions.

(** ** Properties *)

Section Properties.
Context {W : Type} `{Winsock W} `{Runtime W}.

(** What the critical section does. *)
Lemma send_step_response (o : Observer) (c : WebrtcConnection W) (sh : Shared W)
    (Hid : 0 <= m_peerId c < 2 ^ 32) (Hsize : Forall (fun m => size m <= INT_MAX) (m_msgQueue o)) :
  send_step o c sh =
  match m_msgQueue o, m_clientSocket c with
  | message :: q, Some p =>
      sh ← write_all p (response (m_peerId c) message) sh;
      sh ← delete_at p sh;
      Ok (Some message, set_msgQueue q o, set_clientSocket None c, sh)
  | _, _ => Ok (None, o, c, sh)
  end.
Proof.
  unfold send_step, getSignalingMessageCount, getSignalingMessage.
  destruct (m_msgQueue o) as [|message q]; [done|].
  rewrite (proj2 (Z.ltb_lt _ _)) by (simpl length; lia).
  destruct (m_clientSocket c) as [p|]; [|done].
  apply Forall_cons in Hsize as [Hm _]. by rewrite sendMessage_response.
Qed.

(** C10: the critical section of [Run] sends the oldest waiting message to the
    registered socket as one complete HTTP response (its header is never cut
    off, its Content-Length is the length of the body that follows, its Pragma
    the peer's id), then deletes the socket and forgets it; without a message or
    without a socket it does nothing. *)
Theorem send_step_responds (o : Observer) (c : WebrtcConnection W) (sh : Shared W)
    (Hid : 0 <= m_peerId c < 2 ^ 32) (Hsize : Forall (fun m => size m <= INT_MAX) (m_msgQueue o)) :
  send_step o c sh =
  match m_msgQueue o, m_clientSocket c with
  | message :: q, Some p =>
      sh ← write_all p (response (m_peerId c) message) sh;
      sh ← delete_at p sh;
      Ok (Some message, set_msgQueue q o, set_clientSocket None c, sh)
  | _, _ => Ok (None, o, c, sh)
  end.
Proof. by apply send_step_response. Qed.

(** C11: over any execution of a connection's thread, whatever the main thread
    does in between, the messages waiting for the peer are the next to be sent,
    in their order: none is dropped, repeated or overtaken while the thread
    runs. *)
Theorem messages_sent_in_order (x y : WebrtcConnection W * Shared W) (log : list (nat * bytes))
    (Hexec : execution x log y) (Hrun : is_running y.1) :
  unsent x.1 `prefix_of` log.*2 ++ unsent y.1.
Proof. by apply execution_order. Qed.

(** C30: a new connection's state follows its thread through every execution:
    INIT until [Run] starts, CONNECTED while it runs, END from its end on; it
    never goes back, and the peer's id never changes. *)
Theorem connection_state_follows_thread (x y : WebrtcConnection W * Shared W)
    (log : list (nat * bytes)) (Hstart : coherent x.1) (Hexec : execution x log y) :
  coherent y.1 /\ (state_rank (m_state x.1) <= state_rank (m_state y.1))%nat /\
  m_peerId y.1 = m_peerId x.1 /\
  (m_state y.1 = CONNECTION_STATE_END <-> m_thread y.1 = Finished).
Proof.
  destruct (execution_state _ _ _ Hexec Hstart) as (K1 & K2 & K3). split_and!; [done..|].
  unfold coherent in K1. rewrite K1. by destruct (m_thread y.1).
Qed.

End Properties.

(** *** Witnesses *)

Definition sample_shared : Shared Net :=
  MkShared {[7%nat := MkSocket None None 4 [] 0]} (MkNet {[3; 4]} [] ∅ [] 0 []).

Definition sample_observer : @Observer Net _ :=
  sendSignalingMessage (bs "ICE->{}") (new_Observer 5).

Definition sample_connection : WebrtcConnection Net :=
  MkConnection 5 (Some 7%nat) [] CONNECTION_STATE_CONNECTED (Running AtSend sample_observer 0) true.

Lemma send_step_responds_witness :
  (0 <= m_peerId sample_connection < 2 ^ 32) /\
  Forall (fun m => size m <= INT_MAX) (m_msgQueue sample_observer) /\
  send_step sample_observer sample_connection sample_shared =
  (sh ← write_all 7 (response 5 (bs "ICE->{}")) sample_shared;
   sh ← delete_at 7 sh;
   Ok (Some (bs "ICE->{}"), set_msgQueue [] sample_observer,
       set_clientSocket None sample_connection, sh)).
Proof.
  assert (Forall (fun m => size m <= INT_MAX) (m_msgQueue sample_observer)) as Hs
    by (repeat constructor; vm_compute; discriminate).
  split; [vm_compute; split; [discriminate|reflexivity]|]. split; [exact Hs|].
  apply (send_step_responds sample_observer sample_connection sample_shared);
    [vm_compute; split; [discriminate|reflexivity]|exact Hs].
Defined.

Definition sample_next : WebrtcConnection Net * Shared Net :=
  match run_step false sample_connection sample_shared with
  | Some (Ok x) => x
  | _ => (sample_connection, sample_shared)
  end.

Lemma sample_execution :
  execution (sample_connection, sample_shared) [(7%nat, bs "ICE->{}")] sample_next.
Proof.
  assert (match run_step false sample_connection sample_shared with
          | Some (Ok _) => true | _ => false end = true) as Hok by (vm_compute; reflexivity).
  apply (exec_run false sample_connection sample_shared sample_next.1 sample_next.2 []).
  - unfold sample_next. destruct (run_step _ _ _) as [[[c sh]| | |]|]; done.
  - destruct sample_next. apply exec_done.
Qed.

Lemma messages_sent_in_order_witness :
  execution (sample_connection, sample_shared) [(7%nat, bs "ICE->{}")] sample_next /\
  is_running sample_next.1 /\
  unsent sample_connection `prefix_of` [bs "ICE->{}"] ++ unsent sample_next.1.
Proof.
  split; [exact sample_execution|]. split; [vm_compute; exact I|].
  apply (messages_sent_in_order (sample_connection, sample_shared) sample_next
           [(7%nat, bs "ICE->{}")]); [exact sample_execution|vm_compute; exact I].
Defined.

Lemma connection_state_follows_thread_witness :
  coherent sample_connection /\
  (m_state sample_next.1 = CONNECTION_STATE_END <-> m_thread sample_next.1 = Finished).
Proof.
  split; [reflexivity|].
  apply (connection_state_follows_thread (sample_connection, sample_shared) sample_next
           [(7%nat, bs "ICE->{}")] eq_refl sample_execution).
Defined.

