(* ===== verification/ObserverProofs.v ===== *)
(** * What the observers say to each other

    A message splits at its first arrow; a list of candidates splits at its
    separators into the texts it was joined from.  The candidates an observer
    collects and the answer it makes are read by another observer, whatever
    WebRTC does, as the same candidates and the same description. *)
From Stdlib Require Import ZArith Ascii String Lia.
From stdpp Require Import base tactics list gmap.
From S2P Require Import Prelude CLib JsonValue JsonValueProofs JsonReader JsonWriter JsonGrammar JsonParseProofs JsonPrintProofs JsonWriterProofs Observer SampleNet.

#[local] Open Scope Z_scope.

Definition HASH : ascii := "#"%char.

(** ** Splitting a message *)

(** A character the pattern does not begin with is no place to find it. *)
Lemma find_go_skip c pat t s i :
  c ∉ t -> find_go (c :: pat) (t ++ s) i = find_go (c :: pat) s (i + length t).
Proof.
  revert i; induction t as [|d t IH]; intros i Hc; [by rewrite Nat.add_0_r|].
  apply not_elem_of_cons in Hc as [Hd Ht]. cbn [app find_go length].
  destruct (is_prefix (c :: pat) (d :: t ++ s)) eqn:E.
  - apply is_prefix_spec in E as [u [= -> _]]. done.
  - rewrite IH by done. f_equal. lia.
Qed.

Lemma find_go_here pat s i : find_go pat (pat ++ s) i = Some i.
Proof.
  assert (is_prefix pat (pat ++ s) = true) as E by (apply is_prefix_spec; by eexists).
  destruct (pat ++ s) as [|c u]; cbn [find_go]; by rewrite E.
Qed.

Lemma str_find_found c pat pre t s :
  c ∉ t ->
  str_find (c :: pat) (pre ++ t ++ (c :: pat) ++ s) (size pre) = size pre + size t.
Proof.
  intros Hc. unfold str_find, find_nat, size. rewrite Nat2Z.id, drop_app_length.
  destruct (Nat.leb_spec (length pre) (length (pre ++ t ++ (c :: pat) ++ s))) as [_|Hl];
    [|rewrite length_app in Hl; lia].
  rewrite find_go_skip by done. rewrite find_go_here. lia.
Qed.

Lemma str_find_missing c pat pre t :
  c ∉ t -> str_find (c :: pat) (pre ++ t) (size pre) = npos.
Proof.
  intros Hc. unfold str_find, find_nat, size. rewrite Nat2Z.id, drop_app_length.
  destruct (length pre <=? _)%nat; [|done].
  rewrite <- (app_nil_r t), find_go_skip by done. cbn [find_go].
  destruct (is_prefix (c :: pat) []) eqn:E; [|done]. apply is_prefix_spec in E as [u E]. done.
Qed.

Lemma npos_add_2 : size_t (npos + 2) = 1.
Proof. reflexivity. Qed.

(** A message with an arrow and no other hyphen before it. *)
Lemma split_message_arrow cmd payload :
  "-"%char ∉ cmd -> size (cmd ++ bs "->" ++ payload) < npos ->
  split_message (cmd ++ bs "->" ++ payload) = Ok (cmd, payload).
Proof.
  intros Hc Hs. unfold split_message.
  pose proof (str_find_found "-"%char (bs ">") [] cmd payload Hc) as E.
  change ("-"%char :: bs ">") with (bs "->") in E. cbn [app] in E. change (size []) with 0 in E.
  rewrite E, Z.add_0_l. unfold substr_from, size_t, size in *. rewrite length_app, Nat2Z.inj_add in Hs.
  rewrite length_app, Nat2Z.inj_add in Hs. change (Z.of_nat (length (bs "->"))) with 2 in Hs.
  unfold npos in *. rewrite u32_small by lia.
  rewrite !substr_Ok; unfold size; rewrite ?length_app; change (length (bs "->")) with 2%nat; try lia.
  run. rewrite Nat2Z.id. change (Z.to_nat 0) with 0%nat. rewrite drop_0, take_app_length.
  do 2 f_equal. rewrite app_assoc, drop_app_length'
    by (rewrite length_app; change (length (bs "->")) with 2%nat; lia).
  apply take_ge. lia.
Qed.

(** Any other message but the empty one: it splits at an arrow, or the command
    is the message itself and the payload all of it but its first character. *)
Lemma split_message_total message :
  message <> [] -> size message < npos ->
  exists cmd payload, split_message message = Ok (cmd, payload) /\
    (message = cmd ++ bs "->" ++ payload \/ cmd = message /\ payload = drop 1 message).
Proof.
  intros Hne Hs. unfold split_message, str_find, find_nat. change (Z.to_nat 0) with 0%nat.
  cbn [Nat.leb]. rewrite drop_0.
  destruct (find_go (bs "->") message 0) as [k|] eqn:E.
  - destruct (find_go_Some _ _ _ _ E) as (t & u & Hm & Hk & _). cbn [Nat.add] in Hk. subst k.
    exists t, u. split; [|by left].
    unfold substr_from, size_t, size in *. rewrite Hm, !length_app, !Nat2Z.inj_add in Hs.
    change (Z.of_nat (length (bs "->"))) with 2 in Hs. unfold npos in *. rewrite u32_small by lia.
    rewrite Hm, !substr_Ok; unfold size; rewrite ?length_app; change (length (bs "->")) with 2%nat; try lia.
    run. rewrite Nat2Z.id. change (Z.to_nat 0) with 0%nat. rewrite drop_0, take_app_length.
    do 2 f_equal. rewrite app_assoc, drop_app_length'
      by (rewrite length_app; change (length (bs "->")) with 2%nat; lia).
    apply take_ge. lia.
  - exists message, (drop 1 message). split; [|by right].
    assert (1 <= size message) by (destruct message; [done|unfold size; simpl; lia]).
    rewrite npos_add_2, substr_from_Ok by lia. rewrite substr_Ok; [|lia|unfold npos; lia].
    run. change (Z.to_nat 0) with 0%nat. rewrite drop_0, take_ge; [done|unfold size, npos in *; lia].
Qed.

(** ** Candidates joined by separators *)

Definition join (t : bytes) (ts : list bytes) : bytes := t ++ (ts ≫= fun t => separator ++ t).

Lemma join_cons t u ts : join t (u :: ts) = t ++ separator ++ join u ts.
Proof. unfold join. cbn [mbind list_bind]. by rewrite <- app_assoc. Qed.

Lemma join_snoc t ts u : join t (ts ++ [u]) = join t ts ++ separator ++ u.
Proof. unfold join. rewrite bind_app. cbn [mbind list_bind]. by rewrite app_nil_r, app_assoc. Qed.

Lemma length_join t ts : (length t + length ts <= length (join t ts))%nat.
Proof.
  revert t; induction ts as [|u ts IH]; intros t; [unfold join; rewrite length_app; simpl; lia|].
  rewrite join_cons, !length_app. specialize (IH u). change (length separator) with 6%nat. simpl. lia.
Qed.

Section Candidates.
Context {W : Type} `{WebRTC W}.

Abbreviation add_text := (fun (s : Observer * W) t => addIceCandidate t s.1 s.2).

(** From any place of the message on. *)
Lemma candidates_loop_join fuel pre t ts (o : Observer) (w : W) :
  Forall (fun t => HASH ∉ t) (t :: ts) -> size (pre ++ join t ts) < 2 ^ 31 -> (length ts < fuel)%nat ->
  candidates_loop fuel (pre ++ join t ts) (size pre) o w = foldM add_text (o, w) (t :: ts).
Proof.
  revert fuel pre t o w; induction ts as [|u ts IH]; intros fuel pre t o w Hts Hs Hf;
    (destruct fuel as [|fuel]; [simpl in Hf; lia|]); apply Forall_cons in Hts as [Ht Hts].
  - unfold join in *. cbn [mbind list_bind] in *. rewrite app_nil_r in *. cbn [candidates_loop foldM].
    change separator with (HASH :: bs "#####"). rewrite str_find_missing by done.
    rewrite Z.eqb_refl. cbn [negb]. unfold size in *. rewrite length_app in Hs.
    unfold size_t, npos. rewrite u32_small by (rewrite length_app; lia).
    rewrite substr_Ok; unfold size; rewrite ?length_app; try lia.
    rewrite Nat2Z.id, drop_app_length, take_ge by lia. run.
    cbn [fst snd]. by destruct (addIceCandidate t o w).
  - rewrite join_cons in *. cbn [candidates_loop]. change separator with (HASH :: bs "#####").
    rewrite str_find_found by done. change (HASH :: bs "#####") with separator.
    unfold size in *. rewrite !length_app in Hs. change (length separator) with 6%nat in Hs.
    destruct (Z.eqb_spec (Z.of_nat (length pre) + Z.of_nat (length t)) npos) as [E|_];
      [unfold npos in E; lia|]. cbn [negb].
    replace (Z.of_nat (length pre) + Z.of_nat (length t) - Z.of_nat (length pre))
      with (Z.of_nat (length t)) by lia.
    unfold size_t. rewrite !u32_small by lia.
    rewrite substr_Ok; unfold size; rewrite ?length_app; try lia.
    rewrite !Nat2Z.id, drop_app_length, take_app_length. run. cbn [foldM fst snd].
    destruct (addIceCandidate t o w) as [[o' w']| | |]; try done. run.
    replace (pre ++ t ++ separator ++ join u ts) with ((pre ++ t ++ separator) ++ join u ts)
      by (by rewrite <- !app_assoc).
    replace (Z.of_nat (length pre) + (Z.of_nat (length t) + 6)) with (size (pre ++ t ++ separator))
      by (unfold size; rewrite !length_app; change (length separator) with 6%nat; lia).
    apply IH; [done| |simpl in Hf; lia].
    unfold size. rewrite !length_app. change (length separator) with 6%nat. lia.
Qed.

Lemma add_candidates_join t ts (o : Observer) (w : W) :
  Forall (fun t => HASH ∉ t) (t :: ts) -> size (join t ts) < 2 ^ 31 ->
  add_candidates (join t ts) o w = foldM add_text (o, w) (t :: ts).
Proof.
  intros Hts Hs. apply (candidates_loop_join _ []); [done..|].
  pose proof (length_join t ts). lia.
Qed.
End Candidates.

(** ** The JSON text of a candidate *)

(** What quoting adds to a text. *)
Definition quote_alphabet : bytes := DQUOTE :: bs "\ubfnrt0123456789abcdef".

(** A property of all characters of quoted texts: that it holds of the alphabet
    and of the printable ASCII characters quoted. *)
Section Quoted.
Context (P : ascii -> Prop) (alphabet : Forall P quote_alphabet).

Lemma in_alphabet c : c ∈ quote_alphabet -> P c.
Proof using alphabet. pose proof alphabet as Hf. rewrite Forall_forall in Hf. apply Hf. Qed.

Lemma alphabet_text t : Forall (fun c => c ∈ quote_alphabet) t -> Forall P t.
Proof using alphabet. intros Ht. eapply Forall_impl; [exact Ht|]. apply in_alphabet. Qed.

Lemma hex16_all x : Forall P (toHex16Bit x).
Proof using alphabet.
  apply alphabet_text.
  assert (Hd : forall d, 0 <= d < 16 -> hex_char d ∈ quote_alphabet).
  { intros d Hd. assert (Forall (fun d => hex_char d ∈ quote_alphabet) (seqZ 0 16)) as Hf
      by (apply (bool_decide_unpack _); vm_compute; exact I).
    rewrite Forall_forall in Hf. apply Hf, elem_of_seqZ. lia. }
  assert (Hh : forall y, Forall (fun c => c ∈ quote_alphabet) (hex2 (Z.land y 255))).
  { intros y. assert (0 <= Z.land y 255 < 256)
      by (change 255 with (Z.ones 8); rewrite Z.land_ones by lia; by apply Z.mod_pos_bound).
    unfold hex2. repeat apply Forall_cons_2; [| |apply Forall_nil_2]; apply Hd.
    - split; [apply Z.div_pos|apply Z.div_lt_upper_bound]; lia.
    - apply Z.mod_pos_bound; lia. }
  unfold toHex16Bit. apply Forall_app. split; apply Hh.
Qed.

Lemma codepoint_all cp : 0 <= cp -> (32 <= cp < 128 -> P (byte cp)) -> Forall P (quote_codepoint cp).
Proof using alphabet.
  intros H0 Hcp. assert (Hu : Forall P (bs "\u")) by (apply alphabet_text; repeat constructor).
  unfold quote_codepoint. destruct ((cp <? 128) && (32 <=? cp)) eqn:E.
  - apply Forall_cons_2; [apply Hcp; lia|apply Forall_nil_2].
  - destruct (cp <? 65536); rewrite ?Forall_app; split_and!; done || apply hex16_all.
Qed.

Lemma escape_all c e : short_escape c = Some e -> Forall P e.
Proof using alphabet.
  unfold short_escape. intros He. apply alphabet_text. repeat case_decide; simplify_eq; by repeat constructor.
Qed.

Lemma quote_loop_all cps :
  Forall scalar cps -> Forall (fun cp => 32 <= cp < 128 -> P (byte cp)) cps -> Forall P (quote_loop (utf8 cps) 0).
Proof using alphabet.
  intros Hs; induction Hs as [|cp cps Hcp Hcps IH]; [constructor|]. intros [Hc Hp]%Forall_cons.
  change (utf8 (cp :: cps)) with (utf8_char cp ++ utf8 cps).
  pose proof (utf8_decode cp (utf8 cps) Hcp) as Hd.
  destruct (codePoint_cons cp (proj1 Hcp)) as (c & l & Ec & Hlow & Hhigh). rewrite Ec in *.
  cbn [app quote_loop]. destruct (short_escape c) as [e|] eqn:Ee.
  - destruct (short_escape_simple c e Ee) as (x & _ & _ & Hcode).
    destruct (Z.leb_spec cp 127) as [Hle|Hgt]; [|specialize (Hhigh Hgt); lia].
    destruct (Hlow Hle) as [-> _]. apply Forall_app. split; [by eapply escape_all|by apply IH].
  - cbn [app] in Hd. rewrite Hd. cbn [length]. rewrite Nat.sub_succ, Nat.sub_0_r, quote_loop_skip.
    apply Forall_app. split; [by apply codepoint_all; [apply Hcp|]|by apply IH].
Qed.

Lemma quoted_all cps :
  Forall scalar cps -> Forall (fun cp => 32 <= cp < 128 -> P (byte cp)) cps ->
  Forall P (valueToQuotedStringN (utf8 cps)).
Proof using alphabet.
  intros Hcps Hp. assert (Hd : P DQUOTE) by (apply in_alphabet; constructor).
  pose proof (quote_loop_all cps Hcps Hp) as Hq. unfold valueToQuotedStringN.
  destruct (isAnyCharRequiredQuoting (utf8 cps)) eqn:Er; cbn [negb].
  - apply Forall_cons_2; [done|]. apply Forall_app. split; [done|by repeat constructor].
  - assert (utf8 cps = []) as ->; [|by repeat constructor].
    destruct (utf8 cps) as [|c s]; [done|]. exfalso. unfold isAnyCharRequiredQuoting in Er.
    cbn [existsb] in Er. unfold needs_quoting in Er. pose proof (code_range c).
    destruct (Z.ltb_spec (code c) 128); lia.
Qed.
End Quoted.

(** Quoted texts are printable ASCII. *)
Definition printable_char (c : ascii) : Prop := 32 <= code c < 128.

Lemma quoted_printable s : is_utf8 s -> Forall printable_char (valueToQuotedStringN s).
Proof.
  intros (cps & Hcps & ->). apply quoted_all; [repeat constructor; discriminate|done|].
  apply Forall_true. intros cp Hcp. unfold printable_char. rewrite code_byte. unfold u8.
  rewrite Z.mod_small; lia.
Qed.

Lemma HASH_quoted s : is_utf8 s -> HASH ∉ s -> HASH ∉ valueToQuotedStringN s.
Proof.
  intros (cps & Hcps & ->) Hs Hin.
  assert (Forall (fun c => c <> HASH) (valueToQuotedStringN (utf8 cps))) as Hf.
  { apply quoted_all; [repeat constructor; discriminate|done|].
    apply Forall_forall. intros cp Hcp Hr E. apply Hs. apply list_elem_of_bind. exists cp. split; [|done].
    unfold utf8_char. destruct (Z.leb_spec cp 127); [rewrite E; constructor|lia]. }
  rewrite Forall_forall in Hf. by apply Hf in Hin.
Qed.

Lemma HASH_int z : minInt64 <= z <= maxInt64 -> HASH ∉ valueToString_int z.
Proof.
  unfold minInt64, maxInt64. intros Hz.
  assert (Hd : forall n, 0 <= n -> HASH ∉ dec_unsigned n).
  { intros n Hn Hin. pose proof (dec_unsigned_digits n Hn) as Hf.
    unfold all_digits in Hf. rewrite Forall_forall in Hf. by apply Hf in Hin. }
  unfold valueToString_int, uintToString. repeat case_match; rewrite ?not_elem_of_cons; split_and?; try done;
    apply Hd; unfold minInt64, maxInt64 in *; lia.
Qed.

Definition TAB : ascii := "009"%char.

(** The text of a candidate: its three members in the order of their names. *)
Definition candidate_value (mid : bytes) (line : Z) (sdp : bytes) : Value :=
  VObject [ (kCandidateSdpName, VString sdp); (kCandidateSdpMlineIndexName, VInt line);
            (kCandidateSdpMidName, VString mid) ].

Definition candidate_text (mid : bytes) (line : Z) (sdp : bytes) : bytes :=
  bs "{" ++ [LF; TAB] ++ valueToQuotedStringN kCandidateSdpName ++ bs " : " ++ valueToQuotedStringN sdp
  ++ bs "," ++ [LF; TAB] ++ valueToQuotedStringN kCandidateSdpMlineIndexName ++ bs " : "
  ++ valueToString_int line
  ++ bs "," ++ [LF; TAB] ++ valueToQuotedStringN kCandidateSdpMidName ++ bs " : "
  ++ valueToQuotedStringN mid ++ [LF] ++ bs "}".

(** A value without comments is evaluated as it is written. *)
#[local] Transparent gmap_empty.

Lemma candidate_written mid line sdp :
  writeString (candidate_value mid line sdp) = Ok (candidate_text mid line sdp).
Proof.
  unfold writeString. rewrite writeString_defaults. unfold write. lazy -[valueToQuotedStringN valueToString_int app].
  unfold candidate_text. generalize valueToQuotedStringN (valueToString_int line). intros q n.
  cbn. rewrite <- !app_assoc. cbn. reflexivity.
Qed.

(** An ASCII text is Unicode. *)
Lemma ascii_utf8 s : Forall (fun c => code c < 128) s -> is_utf8 s.
Proof.
  intros Hs. exists (code <$> s). split.
  - apply Forall_fmap. eapply Forall_impl; [exact Hs|]. intros c Hc. cbn in *.
    pose proof (code_range c). split; lia.
  - induction Hs as [|c s Hc Hs IH]; [done|]. cbn [fmap list_fmap utf8 mbind list_bind].
    unfold utf8 in IH. rewrite <- IH. unfold utf8_char. pose proof (code_range c).
    destruct (Z.leb_spec (code c) 127) as [_|?]; [|lia]. cbn [app]. f_equal.
    unfold byte, u8. rewrite Z.mod_small by lia. unfold code. by rewrite N2Z.id, ascii_N_embedding.
Qed.

(** The names of the members, and the prefixes of messages. *)
Definition literals : list bytes :=
  [kCandidateSdpMidName; kCandidateSdpMlineIndexName; kCandidateSdpName; kSessionDescriptionTypeName;
   kSessionDescriptionSdpName].

Lemma literal_text k : k ∈ literals -> is_utf8 k /\ size k < 2 ^ 30.
Proof.
  intros Hk. assert (Forall (fun k => Forall (fun c => code c < 128) k /\ size k < 2 ^ 30) literals) as Hf
    by (repeat constructor; vm_compute; reflexivity).
  rewrite Forall_forall in Hf. destruct (Hf k Hk) as [Ha Hs]. split; [by apply ascii_utf8|done].
Qed.

Lemma candidate_document mid line sdp :
  is_utf8 mid -> is_utf8 sdp -> minInt64 <= line <= maxInt64 ->
  document 1 (candidate_value mid line sdp) (candidate_text mid line sdp).
Proof.
  intros Hm Hs Hl. destruct (writeString_document 1 (candidate_value mid line sdp)) as (text & E & Hd).
  - split; [by repeat constructor|]. rewrite !Forall_cons, Forall_nil. cbn [fst snd printable].
    destruct (literal_text kCandidateSdpMidName) as [M1 M2]; [by repeat constructor|].
    destruct (literal_text kCandidateSdpMlineIndexName) as [L1 L2]; [by repeat constructor|].
    destruct (literal_text kCandidateSdpName) as [S1 S2]; [by repeat constructor|].
    repeat match goal with |- _ /\ _ => split end; try assumption; (exact I || apply Hl).
  - rewrite candidate_written in E. by injection E as ->.
Qed.

Lemma HASH_candidate mid line sdp :
  is_utf8 mid -> is_utf8 sdp -> minInt64 <= line <= maxInt64 -> HASH ∉ mid -> HASH ∉ sdp ->
  HASH ∉ candidate_text mid line sdp.
Proof.
  intros Hm Hs Hl Hm' Hs'. unfold candidate_text. rewrite !not_elem_of_app.
  pose proof (HASH_quoted mid Hm Hm'). pose proof (HASH_quoted sdp Hs Hs'). pose proof (HASH_int line Hl).
  split_and!; try done; vm_compute; set_solver.
Qed.

(** *** Sending and adding candidates *)

Section Exchange.
Context {W : Type} `{WebRTC W}.

(** A candidate that can be sent: WebRTC gives its text, and its texts are
    Unicode without a [#]. *)
Record sendable (c : IceCandidate) : Prop := {
  send_text : (ice_ToString c).1 = true;
  send_sdp : is_utf8 (ice_ToString c).2 /\ HASH ∉ (ice_ToString c).2 /\ size (ice_ToString c).2 < 2 ^ 30;
  send_mid : is_utf8 (sdp_mid c) /\ HASH ∉ sdp_mid c /\ size (sdp_mid c) < 2 ^ 30;
  send_line : INT_MIN <= sdp_mline_index c <= INT_MAX
}.

Definition text_of (c : IceCandidate) : bytes :=
  candidate_text (sdp_mid c) (sdp_mline_index c) (ice_ToString c).2.

Lemma int_in_int64 z : INT_MIN <= z <= INT_MAX -> minInt64 <= z <= maxInt64.
Proof. unfold INT_MIN, INT_MAX, minInt64, maxInt64. lia. Qed.

Lemma Value_of_string_Ok s : size s < 2 ^ 30 -> Value_of_string s = Ok (VString s).
Proof.
  intros Hs. unfold Value_of_string, maxInt. destruct (Z.leb_spec (size s) (2 ^ 31 - 1 - 4 - 1)); [done|lia].
Qed.

Lemma candidate_json_text c : sendable c -> candidate_json c = Ok (Some (text_of c)).
Proof.
  intros [Hok (_ & _ & Hs) (_ & _ & Hm) _]. unfold candidate_json, text_of.
  destruct (ice_ToString c) as [ok sdp]. cbn [fst snd] in *. subst ok.
  rewrite !Value_of_string_Ok by done. run.
  change (member_set VNull kCandidateSdpMidName ?v) with
    (Ok (VObject [(kCandidateSdpMidName, v)])). run.
  change (member_set (VObject [(kCandidateSdpMidName, ?v)]) kCandidateSdpMlineIndexName ?l) with
    (Ok (VObject [(kCandidateSdpMlineIndexName, l); (kCandidateSdpMidName, v)])). run.
  cbn [negb].
  change (member_set _ kCandidateSdpName (VString sdp)) with
    (Ok (candidate_value (sdp_mid c) (sdp_mline_index c) sdp)). run.
  by rewrite candidate_written.
Qed.

Lemma on_IceCandidate_text c (o : Observer) :
  sendable c ->
  on_IceCandidate c o
  = Ok (set_iceCandidateMsg
          (if bool_decide (m_iceCandidateMsg o = []) then bs "ICE->" ++ text_of c
           else m_iceCandidateMsg o ++ separator ++ text_of c) o).
Proof. intros Hc. unfold on_IceCandidate. by rewrite candidate_json_text. Qed.

(** The candidates are collected in the order they are found. *)
Lemma collects cs t ts (o : Observer) (w : W) :
  Forall sendable cs -> m_iceCandidateMsg o = bs "ICE->" ++ join t ts ->
  on_events (OnIceCandidate <$> cs) o w
  = Ok (set_iceCandidateMsg (bs "ICE->" ++ join t (ts ++ (text_of <$> cs))) o, w).
Proof.
  intros Hcs; revert ts o; induction Hcs as [|c cs Hc Hcs IH]; intros ts o Ho.
  - cbn [fmap list_fmap]. rewrite app_nil_r, <- Ho. by destruct o.
  - cbn [fmap list_fmap]. unfold on_events. cbn [foldM on_event]. rewrite on_IceCandidate_text by done. run.
    rewrite bool_decide_false by (rewrite Ho; discriminate).
    change (text_of c :: (text_of <$> cs)) with ([text_of c] ++ (text_of <$> cs)). rewrite (app_assoc ts).
    refine (eq_trans (IH (ts ++ [text_of c]) _ _) _).
    + cbn [m_iceCandidateMsg set_iceCandidateMsg]. by rewrite Ho, join_snoc, <- !app_assoc.
    + reflexivity.
Qed.

(** What the candidates and the end of gathering do to an observer that had
    collected none. *)
Lemma gathers c cs (o : Observer) (w : W) :
  Forall sendable (c :: cs) -> m_iceCandidateMsg o = [] ->
  on_events ((OnIceCandidate <$> (c :: cs)) ++ [OnIceGatheringChange kIceGatheringComplete]) o w
  = let msg := bs "ICE->" ++ join (text_of c) (text_of <$> cs) in
    Ok (sendSignalingMessage msg (set_iceCandidateMsg msg o), w).
Proof.
  intros [Hc Hcs]%Forall_cons Ho. unfold on_events. rewrite foldM_app. cbn [fmap list_fmap foldM on_event].
  rewrite on_IceCandidate_text by done. run. rewrite bool_decide_true by done.
  match goal with |- context [foldM ?f (?o, w) ?l] => change (foldM f (o, w) l) with (on_events l o w) end.
  rewrite (collects cs (text_of c) []); [by run|done|]. unfold join. cbn. by rewrite app_nil_r.
Qed.

(** The callbacks leave the peer connection where it is. *)
Lemma on_event_keeps e (o o' : Observer) (w w' : W) :
  on_event e o w = Ok (o', w') ->
  m_peer_connection_ o' = m_peer_connection_ o /\ m_remoteIceCandidateMsg o' = m_remoteIceCandidateMsg o.
Proof.
  destruct e as [| | |s|s|c|m|m]; cbn [on_event]; intros E; inv_bind; try done.
  - unfold on_IceGatheringChange. by destruct (decide _).
  - unfold on_IceCandidate in *. inv_bind. by repeat case_match; simplify_eq.
  - unfold on_AddStream in *. repeat case_match; simplify_eq; done.
Qed.

Lemma on_events_keep es (o o' : Observer) (w w' : W) :
  on_events es o w = Ok (o', w') ->
  m_peer_connection_ o' = m_peer_connection_ o /\ m_remoteIceCandidateMsg o' = m_remoteIceCandidateMsg o.
Proof.
  revert o w; induction es as [|e es IH]; intros o w; unfold on_events; cbn [foldM]; [by intros [= <- <-]|].
  intros E. apply bind_Ok_inv in E as ([o1 w1] & E1 & E2). apply IH in E2 as [-> ->].
  by eapply on_event_keeps.
Qed.

(** What the receiver does with one candidate. *)
Definition add_received (pc : PeerConnection) (s : Observer * W) (c : IceCandidate) : outcome (Observer * W) :=
  match CreateIceCandidate (sdp_mid c) (sdp_mline_index c) (ice_ToString c).2 with
  | None => Ok s
  | Some candidate =>
      let '(_, es, w) := AddIceCandidate pc candidate s.2 in on_events es s.1 w
  end.

Lemma addIceCandidate_text pc c (o : Observer) (w : W) :
  sendable c -> m_peer_connection_ o = Some pc -> size (text_of c) < 2 ^ 29 ->
  addIceCandidate (text_of c) o w = add_received pc (o, w) c.
Proof.
  intros [_ (Hs & _) (Hm & _) Hl] Hpc Hsize. unfold addIceCandidate, add_received. rewrite Hpc.
  pose proof (candidate_document _ _ _ Hm Hs (int_in_int64 _ Hl)) as Hd.
  unfold text_of in *. rewrite (document_parses _ _ _ Hd) by (lia || done). run. cbn [negb].
  set (mid := sdp_mid c). set (line := sdp_mline_index c) in *. set (sdp := (ice_ToString c).2).
  change (member_ref (candidate_value mid line sdp) kCandidateSdpMidName)
    with (Ok (VString mid, candidate_value mid line sdp)). run. cbn [asString]. run.
  change (member_ref (candidate_value mid line sdp) kCandidateSdpMlineIndexName)
    with (Ok (VInt line, candidate_value mid line sdp)). run.
  assert (isInt (VInt line) = true) as Hi by (unfold isInt, minInt, maxInt, INT_MIN, INT_MAX in *; lia).
  cbn [asInt]. rewrite Hi. run. unfold json_assert. run.
  change (member_ref (candidate_value mid line sdp) kCandidateSdpName)
    with (Ok (VString sdp, candidate_value mid line sdp)). run. cbn [asString fst snd]. by run.
Qed.

Lemma add_received_keeps pc c (o o' : Observer) (w w' : W) :
  add_received pc (o, w) c = Ok (o', w') -> m_peer_connection_ o' = m_peer_connection_ o.
Proof.
  unfold add_received. destruct (CreateIceCandidate _ _ _) as [k|]; [|by intros [= <- <-]].
  cbn [fst snd]. destruct (AddIceCandidate pc k w) as [[b es] w1]. intros E. by apply on_events_keep in E as [? _].
Qed.

Lemma add_texts pc cs (o : Observer) (w : W) :
  Forall sendable cs -> Forall (fun c => size (text_of c) < 2 ^ 29) cs -> m_peer_connection_ o = Some pc ->
  foldM (fun s t => addIceCandidate t s.1 s.2) (o, w) (text_of <$> cs) = foldM (add_received pc) (o, w) cs.
Proof.
  intros Hcs; revert o w; induction Hcs as [|c cs Hc Hcs IH]; intros o w Hsize Hpc; [done|].
  apply Forall_cons in Hsize as [Hs Hsize]. cbn [fmap list_fmap foldM fst snd].
  rewrite (addIceCandidate_text pc) by done.
  destruct (add_received pc (o, w) c) as [[o1 w1]| | |] eqn:E; try done. run.
  apply IH; [done|]. by rewrite (add_received_keeps _ _ _ _ _ _ E).
Qed.

Lemma size_join t ts : Forall (fun u => size u <= size (join t ts)) (t :: ts).
Proof.
  revert t; induction ts as [|u ts IH]; intros t.
  - repeat constructor. unfold join, size. rewrite length_app. lia.
  - rewrite join_cons. assert (Hle : size (join u ts) <= size (t ++ separator ++ join u ts))
      by (unfold size; rewrite !length_app; lia).
    constructor; [unfold size; rewrite !length_app; lia|].
    eapply Forall_impl; [apply IH|]. intros v Hv. cbn in *. lia.
Qed.

(** A list of candidates, read by an observer with a peer connection. *)
Lemma add_candidates_received pc c cs (o : Observer) (w : W) :
  Forall sendable (c :: cs) -> m_peer_connection_ o = Some pc ->
  size (join (text_of c) (text_of <$> cs)) < 2 ^ 29 ->
  add_candidates (join (text_of c) (text_of <$> cs)) o w = foldM (add_received pc) (o, w) (c :: cs).
Proof.
  intros Hcs Hpc Hsize. rewrite add_candidates_join; [|..].
  - change (text_of c :: (text_of <$> cs)) with (text_of <$> (c :: cs)). apply add_texts; [done| |done].
    pose proof (size_join (text_of c) (text_of <$> cs)) as Hj.
    change (text_of c :: (text_of <$> cs)) with (text_of <$> (c :: cs)) in Hj.
    apply (proj1 (Forall_fmap _ _ _)) in Hj. eapply Forall_impl; [exact Hj|]. intros x Hx. cbn in *. lia.
  - change (text_of c :: (text_of <$> cs)) with (text_of <$> (c :: cs)). apply Forall_fmap.
    eapply Forall_impl; [exact Hcs|]. intros x [_ (S1 & S2 & _) (M1 & M2 & _) L]. cbn.
    by apply HASH_candidate; [| |apply int_in_int64| |].
  - lia.
Qed.

Lemma onSignalingMessage_ICE payload (o : Observer) (w : W) :
  size (bs "ICE->" ++ payload) < npos -> onSignalingMessage (bs "ICE->" ++ payload) o w = on_ice payload o w.
Proof.
  intros Hs. unfold onSignalingMessage. change (bs "ICE->" ++ payload) with (bs "ICE" ++ bs "->" ++ payload).
  rewrite split_message_arrow; [|vm_compute; set_solver|done]. run.
  rewrite decide_False by discriminate. by rewrite decide_True.
Qed.

Lemma onSignalingMessage_SDP payload (o : Observer) (w : W) :
  size (bs "SDP->" ++ payload) < npos -> onSignalingMessage (bs "SDP->" ++ payload) o w = on_sdp payload o w.
Proof.
  intros Hs. unfold onSignalingMessage. change (bs "SDP->" ++ payload) with (bs "SDP" ++ bs "->" ++ payload).
  rewrite split_message_arrow; [|vm_compute; set_solver|done]. run. by rewrite decide_True.
Qed.

(** What the command words alone leave as payload is no JSON text. *)
Lemma parse_leftover t : t ∈ [bs "DP"; bs "CE"] -> exists j e, parse_json t = Ok (false, j, e).
Proof.
  rewrite !elem_of_cons. intros [->|[->|[]%not_elem_of_nil]]; eexists _, _; vm_compute; reflexivity.
Qed.

(** C35: a message from the peer.  The empty one throws; [SDP->] and [ICE->]
    select what happens to the rest of the message; any other message changes
    nothing, except that the three letters [ICE] alone, which leave the text
    [CE], replace the candidates an observer without a peer connection has
    remembered. *)
Theorem onSignalingMessage_dispatch (message : bytes) (o : Observer) (w : W)
    (Hsize : size message < npos) :
  (message = [] -> onSignalingMessage message o w = Throw ExOutOfRange) /\
  (forall payload, message = bs "SDP->" ++ payload ->
     onSignalingMessage message o w = on_sdp payload o w) /\
  (forall payload, message = bs "ICE->" ++ payload ->
     onSignalingMessage message o w = on_ice payload o w) /\
  (message <> [] ->
   (forall payload, message <> bs "SDP->" ++ payload /\ message <> bs "ICE->" ++ payload) ->
   onSignalingMessage message o w
   = Ok (if decide (message = bs "ICE" /\ m_peer_connection_ o = None)
         then set_remoteIceCandidateMsg (bs "CE") o else o, w)).
Proof.
  split_and!.
  - intros ->. done.
  - intros payload ->. by apply onSignalingMessage_SDP.
  - intros payload ->. by apply onSignalingMessage_ICE.
  - intros Hne Hno. unfold onSignalingMessage.
    destruct (split_message_total message Hne Hsize) as (cmd & payload & -> & Hm). run.
    destruct Hm as [Hm|[-> ->]].
    + destruct (Hno payload) as [Hs Hi]. do 2 rewrite decide_False by (intros ->; done).
      rewrite decide_False; [done|]. intros [-> _].
      assert ("-"%char ∈ bs "ICE") as Hin by (rewrite Hm, !elem_of_app; right; left; by constructor).
      vm_compute in Hin. set_solver.
    + destruct (decide (message = bs "SDP")) as [->|Hs].
      { unfold on_sdp. destruct (parse_leftover (bs "DP")) as (j & e & E); [by constructor|].
        change (drop 1 (bs "SDP")) with (bs "DP"). rewrite E. run. by rewrite decide_False by (intros [? _]; done). }
      destruct (decide (message = bs "ICE")) as [->|Hi]; [|by rewrite decide_False by (intros [? _]; done)].
      change (drop 1 (bs "ICE")) with (bs "CE"). unfold on_ice.
      destruct (m_peer_connection_ o) as [pc|] eqn:Epc; [|by rewrite decide_True].
      rewrite decide_False by (intros [_ ?]; done).
      change (bs "CE") with (join (bs "CE") []). rewrite add_candidates_join; [|repeat constructor; vm_compute; set_solver|done].
      cbn [foldM fst snd]. unfold addIceCandidate. rewrite Epc.
      destruct (parse_leftover (bs "CE")) as (j & e & ->); [by repeat constructor|]. by run.
Qed.

(** C14: the candidates an observer collects before WebRTC has found all of
    them become one message, and an observer with a peer connection that gets
    this message asks WebRTC to make and add exactly these candidates, in this
    order. *)
Theorem ice_exchange (c : IceCandidate) (cs : list IceCandidate) (o : Observer) (w : W)
    (Hcs : Forall sendable (c :: cs)) (Ho : m_iceCandidateMsg o = []) :
  exists msg o',
    on_events ((OnIceCandidate <$> (c :: cs)) ++ [OnIceGatheringChange kIceGatheringComplete]) o w = Ok (o', w) /\
    m_msgQueue o' = m_msgQueue o ++ [msg] /\
    (size msg < 2 ^ 29 ->
     forall (receiver : Observer) w pc, m_peer_connection_ receiver = Some pc ->
     onSignalingMessage msg receiver w = foldM (add_received pc) (receiver, w) (c :: cs)).
Proof.
  eexists _, _. split; [by apply gathers|]. split; [reflexivity|].
  intros Hs r w' pc Hpc. rewrite onSignalingMessage_ICE by (unfold npos; lia).
  unfold on_ice. rewrite Hpc. apply add_candidates_received; [done|done|].
  unfold size in *. rewrite length_app in Hs. lia.
Qed.

(** C23: candidates that arrive before the offer wait: the observer remembers
    the message, and when WebRTC has made the answer, and the answer has been
    queued and set, exactly these candidates are added, in order. *)
Theorem early_candidates_wait (c : IceCandidate) (cs : list IceCandidate) (o : Observer) (w : W)
    (Hcs : Forall sendable (c :: cs)) (Ho : m_peer_connection_ o = None)
    (Hsize : size (bs "ICE->" ++ join (text_of c) (text_of <$> cs)) < 2 ^ 29) :
  exists o',
    onSignalingMessage (bs "ICE->" ++ join (text_of c) (text_of <$> cs)) o w = Ok (o', w) /\
    forall (later : Observer) w pc desc answer,
      m_remoteIceCandidateMsg later = m_remoteIceCandidateMsg o' -> m_peer_connection_ later = Some pc ->
      description_json desc = Ok answer ->
      OnSuccess desc later w
      = let '(es, w) := SetLocalDescription pc desc w in
        s ← on_events es (sendSignalingMessage (bs "SDP->" ++ answer) later) w;
        foldM (add_received pc) s (c :: cs).
Proof.
  eexists. split; [rewrite onSignalingMessage_ICE by (unfold npos; lia); unfold on_ice; by rewrite Ho|].
  intros l w' pc desc answer Hl Hpc Hd. unfold OnSuccess. rewrite Hpc, Hd. run.
  destruct (SetLocalDescription pc desc w') as [es w1].
  destruct (on_events es _ w1) as [[o1 w2]| | |] eqn:E; try done. run.
  apply on_events_keep in E as [E1 E2]. cbn in E1, E2. rewrite Hpc in E1. rewrite Hl in E2. cbn in E2.
  rewrite E2, bool_decide_false by (unfold join, text_of, candidate_text; discriminate).
  apply add_candidates_received; [done|done|]. unfold size in *. rewrite length_app in Hsize. lia.
Qed.

(** The description an answer is sent as. *)
Definition description_value (type sdp : bytes) : Value :=
  VObject [(kSessionDescriptionSdpName, VString sdp); (kSessionDescriptionTypeName, VString type)].

Definition description_text (type sdp : bytes) : bytes :=
  bs "{" ++ [LF; TAB] ++ valueToQuotedStringN kSessionDescriptionSdpName ++ bs " : " ++ valueToQuotedStringN sdp
  ++ bs "," ++ [LF; TAB] ++ valueToQuotedStringN kSessionDescriptionTypeName ++ bs " : "
  ++ valueToQuotedStringN type ++ [LF] ++ bs "}".

Lemma description_printed type sdp :
  writeString (description_value type sdp) = Ok (description_text type sdp).
Proof.
  unfold writeString. rewrite writeString_defaults. unfold write. lazy -[valueToQuotedStringN app].
  unfold description_text. generalize valueToQuotedStringN. intros q.
  cbn. rewrite <- !app_assoc. cbn. reflexivity.
Qed.

Lemma description_document type sdp :
  is_utf8 type -> is_utf8 sdp -> document 1 (description_value type sdp) (description_text type sdp).
Proof.
  intros Ht Hs. destruct (writeString_document 1 (description_value type sdp)) as (text & E & Hd).
  - split; [by repeat constructor|]. rewrite !Forall_cons, Forall_nil. cbn [fst snd printable].
    destruct (literal_text kSessionDescriptionTypeName) as [T1 T2]; [by repeat constructor|].
    destruct (literal_text kSessionDescriptionSdpName) as [S1 S2]; [by repeat constructor|].
    repeat match goal with |- _ /\ _ => split end; (assumption || exact I).
  - rewrite description_printed in E. by injection E as ->.
Qed.

(** It is printed without a NUL. *)
Lemma description_no_nul type sdp : is_utf8 type -> is_utf8 sdp -> NUL ∉ description_text type sdp.
Proof.
  intros Ht Hs.
  assert (Hq : forall s, is_utf8 s -> NUL ∉ valueToQuotedStringN s).
  { intros s Hu Hin. pose proof (quoted_printable s Hu) as Hf. rewrite Forall_forall in Hf.
    apply Hf in Hin as [Hin _]. by apply Hin. }
  unfold description_text. rewrite !not_elem_of_app.
  split_and!; try (by apply Hq); vm_compute; set_solver.
Qed.

Lemma description_written desc :
  size (sd_type desc) < 2 ^ 30 -> size (sd_ToString desc).2 < 2 ^ 30 ->
  description_json desc = Ok (description_text (sd_type desc) (sd_ToString desc).2).
Proof.
  intros Ht Hs. unfold description_json. rewrite !Value_of_string_Ok by done. run.
  set (type := sd_type desc) in *. set (sdp := (sd_ToString desc).2) in *.
  change (member_set VNull kSessionDescriptionTypeName (VString type))
    with (Ok (VObject [(kSessionDescriptionTypeName, VString type)])). run.
  change (member_set _ kSessionDescriptionSdpName (VString sdp)) with (Ok (description_value type sdp)).
  run. apply description_printed.
Qed.

(** What [OnSuccess] does when no candidates wait. *)
Lemma OnSuccess_answers desc (o : Observer) (w : W) pc :
  m_peer_connection_ o = Some pc -> m_remoteIceCandidateMsg o = [] ->
  size (sd_type desc) < 2 ^ 30 -> size (sd_ToString desc).2 < 2 ^ 30 ->
  OnSuccess desc o w
  = let msg := bs "SDP->" ++ description_text (sd_type desc) (sd_ToString desc).2 in
    let '(es, w) := SetLocalDescription pc desc w in on_events es (sendSignalingMessage msg o) w.
Proof.
  intros Hpc Hr Ht Hs. unfold OnSuccess. rewrite Hpc, description_written by done. run.
  destruct (SetLocalDescription pc desc w) as [es w1].
  destruct (on_events es _ w1) as [[o1 w2]| | |] eqn:Ee; try done. run.
  apply on_events_keep in Ee as [_ E2]. cbn in E2. by rewrite E2, Hr, bool_decide_true.
Qed.

(** A description in any JSON text. *)
Lemma description_read d m type sdp text (o : Observer) (w : W) :
  document d (VObject m) text -> (d <= 999)%nat -> size text < 2 ^ 29 ->
  object_find kSessionDescriptionTypeName m = Some (VString type) ->
  object_find kSessionDescriptionSdpName m = Some (VString sdp) ->
  on_sdp text o w = on_description type sdp o w.
Proof.
  intros Hd Hn Hs Ht Hsdp. unfold on_sdp. rewrite (document_parses d _ _ Hd) by done. run. cbn [negb].
  unfold member_ref, resolveReference, json_assert. cbn [isNull isObject orb]. run.
  change (czstring kSessionDescriptionTypeName) with kSessionDescriptionTypeName. rewrite Ht. run.
  cbn [asString isNull isObject orb]. run.
  change (czstring kSessionDescriptionSdpName) with kSessionDescriptionSdpName. rewrite Hsdp. run.
  cbn [asString]. by run.
Qed.

(** C15: the answer WebRTC makes is queued as one message before it is set as
    the local description, and an observer that gets this message hands WebRTC
    exactly the answer's type and text, whatever characters the text has. *)
Theorem answer_round_trip (desc : SessionDescription) (o : Observer) (w : W) (pc : PeerConnection)
    (Hpc : m_peer_connection_ o = Some pc) (Hr : m_remoteIceCandidateMsg o = [])
    (Htype : is_utf8 (sd_type desc) /\ size (sd_type desc) < 2 ^ 30)
    (Hsdp : is_utf8 (sd_ToString desc).2 /\ size (sd_ToString desc).2 < 2 ^ 30) :
  exists msg,
    OnSuccess desc o w
    = (let '(es, w) := SetLocalDescription pc desc w in on_events es (sendSignalingMessage msg o) w) /\
    (size msg < 2 ^ 29 ->
     forall (receiver : Observer) w,
     onSignalingMessage msg receiver w = on_description (sd_type desc) (sd_ToString desc).2 receiver w).
Proof.
  destruct Htype as [Ht Ht'], Hsdp as [Hs Hs'].
  exists (bs "SDP->" ++ description_text (sd_type desc) (sd_ToString desc).2). split.
  - by apply OnSuccess_answers.
  - intros Hm r w'. rewrite onSignalingMessage_SDP by (unfold npos; lia).
    eapply (description_read 1); [by apply description_document|lia| |done..].
    unfold size in *. rewrite length_app in Hm. lia.
Qed.
End Exchange.

(** ** Witnesses *)

Definition host_candidate : bytes * Z * bytes :=
  (bs "audio", 0, bs "candidate:1 1 UDP 2122252543 10.0.0.1 49152 typ host").
Definition relay_candidate : bytes * Z * bytes :=
  (bs "video", 1, bs "candidate:2 1 UDP 41885439 192.0.2.1 3478 typ relay").

Definition a_net : Net := MkNet ∅ [] ∅ [] 0 [].
Definition an_observer : Observer (W := Net) := new_Observer 1.
Definition connected : Observer (W := Net) := set_peer_connection (W := Net) (Some tt) an_observer.

(** Texts of ASCII characters but [#], by evaluation. *)
Definition simple_text (s : bytes) : bool :=
  forallb (fun c => (code c <? 128) && negb (bool_decide (c = HASH))) s && (size s <? 2 ^ 30).

Lemma simple_text_fine s : simple_text s = true -> is_utf8 s /\ HASH ∉ s /\ size s < 2 ^ 30.
Proof.
  unfold simple_text. intros [Hf Hs]%andb_prop. rewrite forallb_forall in Hf. split_and!; [| |lia].
  - apply ascii_utf8, Forall_forall. intros c Hc%list_elem_of_In%Hf. lia.
  - intros Hc%list_elem_of_In%Hf. done.
Qed.

Lemma candidates_sendable : Forall (sendable (W := Net)) [host_candidate; relay_candidate].
Proof.
  repeat apply Forall_cons_2; [| |apply Forall_nil_2];
    (split; [done|by apply simple_text_fine|by apply simple_text_fine|split; discriminate]).
Qed.

Lemma onSignalingMessage_dispatch_witness :
  onSignalingMessage (bs "ICE") an_observer a_net = Ok (set_remoteIceCandidateMsg (bs "CE") an_observer, a_net).
Proof.
  refine (proj2 (proj2 (proj2 (onSignalingMessage_dispatch (bs "ICE") an_observer a_net _))) _ _);
    [reflexivity|discriminate|intros payload; split; discriminate].
Defined.

(** One short message is queued. *)
Definition one_short_message (r : outcome (Observer (W := Net) * Net)) : bool :=
  match r with
  | Ok (o, _) => match m_msgQueue o with [msg] => size msg <? 2 ^ 29 | _ => false end
  | _ => false
  end.

Lemma ice_exchange_witness :
  exists msg o',
    m_msgQueue o' = [msg] /\
    onSignalingMessage msg connected a_net
    = Ok (connected, MkNet ∅ [] ∅ [] 0 [host_candidate; relay_candidate]).
Proof.
  destruct (ice_exchange (W := Net) (H := Net_WebRTC) host_candidate [relay_candidate] an_observer a_net
              candidates_sendable eq_refl) as (msg & o' & E & Hq & Hr).
  assert (one_short_message (Ok (o', a_net)) = true) as K
    by (refine (eq_trans (eq_sym (f_equal one_short_message E)) _); vm_compute; reflexivity).
  cbn [one_short_message] in K. rewrite Hq in K. apply Z.ltb_lt in K.
  exists msg, o'. split; [exact Hq|]. rewrite (Hr K connected a_net tt eq_refl). reflexivity.
Defined.

Lemma early_candidates_wait_witness :
  exists o' : Observer (W := Net),
    onSignalingMessage
      (bs "ICE->" ++ join (text_of (W := Net) host_candidate) [text_of (W := Net) relay_candidate])
      an_observer a_net = Ok (o', a_net).
Proof.
  destruct (early_candidates_wait (W := Net) (H := Net_WebRTC) host_candidate [relay_candidate] an_observer a_net
              candidates_sendable eq_refl) as (o' & E & _); [vm_compute; reflexivity|]. exists o'. exact E.
Defined.

Lemma answer_round_trip_witness :
  exists msg, forall (receiver : Observer (W := Net)) w, size msg < 2 ^ 29 ->
    onSignalingMessage msg receiver w = on_description (bs "answer") (bs "v=0") receiver w.
Proof.
  destruct (answer_round_trip (W := Net) (H := Net_WebRTC) (bs "answer", bs "v=0") connected a_net tt
              eq_refl eq_refl) as (msg & _ & Hr).
  - split; by apply simple_text_fine.
  - split; by apply simple_text_fine.
  - exists msg. intros r w Hs. exact (Hr Hs r w).
Defined.
