(* ===== verification/Server.v ===== *)
(** * The server (server.cpp)

    The main loop: accept a client or clean up ended connections, read its
    request, answer it, close the client's socket.  The state holds the
    objects of the program: the sockets and the connections on the heap, the
    list of connections, the receive buffer and the variables of [main].
    [server_step] runs the main thread or a connection's thread by one step;
    the main thread's steps are accepting, reading, serving and closing, so
    other threads can run between any two of them. *)
From Stdlib Require Import ZArith Ascii String Lia.
From stdpp Require Import base tactics list gmap.
From S2P Require Import Prelude CLib Http Options Socket Observer Connection.

#[local] Open Scope Z_scope.

Definition HTTP_RW_BUFFER_SIZE : Z := 32 * 1024.

Definition HTTP_CMD_LANDING_PAGE : bytes := bs "index.html".
Definition HTTP_CMD_SIGN_IN : bytes := bs "signIn".
Definition HTTP_CMD_SIGN_OUT : bytes := bs "signOut".
Definition HTTP_CMD_MESSAGE : bytes := bs "message".
Definition HTTP_CMD_WAIT : bytes := bs "wait".
Definition HTTP_CMD_FAVICON : bytes := bs "favicon.ico".

(** Files, and OpenSSL's context for the server. *)
Class Files (W : Type) := {
  (** the contents of a file that can be opened *)
  read_file : bytes -> W -> option bytes;
  (** [stat]: the size of a file *)
  stat_size : bytes -> W -> option Z
}.

Class SslSetup (W : Type) `{Winsock W} := {
  InitializeSSL : W -> W;
  SSL_CTX_new : W -> SSL_CTX * W;
  use_certificate_chain_file : SSL_CTX -> bytes -> W -> bool * W;
  use_PrivateKey_file : SSL_CTX -> bytes -> W -> bool * W;
  check_private_key : SSL_CTX -> W -> bool * W
}.

(** ** Replies

    Each reply prints its header into [outBuffer] (the receive buffer), and
    writes the header and the body to the socket. *)

(** What [snprintf] leaves in a buffer: its text, a NUL, and the old bytes. *)
Definition print_into (buffer t : bytes) : bytes :=
  t ++ NUL :: drop (length t + 1) buffer.

Definition error_template : bytes :=
  bs "<!DOCTYPE html>" ++ [LF] ++ bs "                  <html>" ++ [LF]
  ++ bs "                  <body>" ++ [LF] ++ bs "                  <h1>%s</h1>" ++ [LF]
  ++ bs "                  </body>" ++ [LF] ++ bs "                  </html>".

Definition error_header_format : bytes :=
  bs "HTTP/1.1 200 OK" ++ CRLF ++ bs "Connection: close" ++ CRLF ++ bs "Server: %s" ++ CRLF
  ++ bs "Content-Type: text/html; charset=UTF-8" ++ CRLF ++ bs "Accept-Ranges: none" ++ CRLF
  ++ bs "Content-Encoding: UTF-8" ++ CRLF ++ bs "Cache-Control: no-store" ++ CRLF
  ++ bs "Content-Length: %d" ++ CRLF ++ CRLF.

Definition page_header_format : bytes :=
  bs "HTTP/1.1 200 OK" ++ CRLF ++ bs "Connection: close" ++ CRLF ++ bs "Server: %s" ++ CRLF
  ++ bs "Content-Type: %s" ++ CRLF ++ bs "Accept-Ranges: none" ++ CRLF
  ++ bs "Cache-Control: no-store" ++ CRLF ++ bs "Content-Length: %d" ++ CRLF ++ CRLF.

Definition reply_header_format : bytes :=
  bs "HTTP/1.1 200 OK" ++ CRLF ++ bs "Connection: close" ++ CRLF ++ bs "Server: %s" ++ CRLF
  ++ bs "Origin: %s" ++ CRLF ++ bs "Content-Type: text/plain" ++ CRLF
  ++ bs "Accept-Ranges: none" ++ CRLF ++ bs "Pragma: %u" ++ CRLF
  ++ bs "Cache-Control: no-store" ++ CRLF ++ bs "Content-Length: %d" ++ CRLF ++ CRLF.

Section Replies.
Context {W : Type} `{Winsock W} `{Files W}.

(** The buffer and the sockets after a reply. *)
Abbreviation reply := (outcome (bytes * Shared W)).

Definition sendReplyError (socket : nat) (errorTxt : bytes) (outBuffer : bytes) (sh : Shared W)
  : reply :=
  errorPage ← snprintf 127 error_template [AStr errorTxt];
  header ← snprintf (1024 - 1) error_header_format [AStr (bs "myserver"); AInt (size errorPage)];
  sh ← write_to socket header sh;
  sh ← write_to socket errorPage sh;
  Ok (print_into outBuffer header, sh).

Definition resource_not_found : bytes := bs "Resource not found!".

Definition sendReplyPage (socket : nat) (fileName mime : bytes) (o : Options) (g_log : Z)
    (outBuffer : bytes) (sh : Shared W) : reply :=
  match read_file fileName (outside sh) with
  | None => sendReplyError socket resource_not_found outBuffer sh
  | Some content =>
      let pageSize := i32 (size content + 64) in
      page ← snprintf (pageSize - 1) content
               [AStr (g_serverIp o); AInt (g_httpsPort o); AInt g_log];
      header ← snprintf (HTTP_HEADER_SIZE_MAX - 1) page_header_format
                 [AStr HTTP_SERVER_NAME; AStr mime; AInt (size page)];
      sh ← write_to socket header sh;
      sh ← write_to socket page sh;
      Ok (print_into outBuffer header, sh)
  end.

(** The loop that reads the icon: [fread] returns the number of complete items
    of 4096 bytes, and as many bytes are copied; [totalBytes] is the length. *)
Fixpoint favicon_loop (fuel : nat) (content fileContent : bytes) : outcome bytes :=
  match fuel with
  | O => NoFuel
  | S fuel =>
      if 4096 <=? size content then
        favicon_loop fuel (drop 4096 content) (fileContent ++ take 1 content)
      else Ok fileContent
  end.

Definition sendReplyFavicon (socket : nat) (fileName mime : bytes) (outBuffer : bytes)
    (sh : Shared W) : reply :=
  match read_file fileName (outside sh) with
  | None => sendReplyError socket resource_not_found outBuffer sh
  | Some content =>
      match stat_size fileName (outside sh) with
      | None => sendReplyError socket resource_not_found outBuffer sh
      | Some st_size =>
          if st_size <=? 0 then sendReplyError socket resource_not_found outBuffer sh
          else
            fileContent ← favicon_loop (S (length content)) content [];
            if st_size <? size fileContent then UB OutOfBounds
            else
              header ← snprintf (HTTP_HEADER_SIZE_MAX - 1) page_header_format
                         [AStr HTTP_SERVER_NAME; AStr mime; AInt (size fileContent)];
              sh ← write_to socket header sh;
              sh ← write_to socket fileContent sh;
              Ok (print_into outBuffer header, sh)
      end
  end.

Definition sendReply (socket : nat) (httpReq : HttpReq_t) (data : bytes) (outBuffer : bytes)
    (sh : Shared W) : reply :=
  header ← snprintf (HTTP_HEADER_SIZE_MAX - 1) reply_header_format
             [AStr HTTP_SERVER_NAME; AStr (origin httpReq); AInt (pragma httpReq);
              AInt (size data)];
  sh ← write_to socket header sh;
  sh ← (if 0 <? size data then write_to socket data sh else Ok sh);
  Ok (print_into outBuffer header, sh).
End Replies.

(** ** The state *)

Section Server.
Context {W : Type} `{Winsock W} `{Runtime W} `{Files W}.

(** Where the main thread is. *)
Inductive main_pc :=
  | MAccept
  | MRead (clientSocket : nat)
  | MServe (clientSocket : nat) (httpReq : HttpReq_t)
  | MClose (clientSocket : nat).

Record Server := MkServer {
  shared : Shared W;
  next_socket : nat;
  connections : gmap nat (WebrtcConnection W);
  next_connection : nat;
  webrtcConnectionList : list nat;
  serverSocket : Socket;
  httpRwBuffer : bytes;
  peerId : Z;
  closeWait : bool;
  options : Options;
  g_log : Z;
  main : main_pc
}.

Definition set_shared v s := MkServer v (next_socket s) (connections s) (next_connection s)
  (webrtcConnectionList s) (serverSocket s) (httpRwBuffer s) (peerId s) (closeWait s) (options s)
  (g_log s) (main s).
Definition set_connections v s := MkServer (shared s) (next_socket s) v (next_connection s)
  (webrtcConnectionList s) (serverSocket s) (httpRwBuffer s) (peerId s) (closeWait s) (options s)
  (g_log s) (main s).
Definition set_list v s := MkServer (shared s) (next_socket s) (connections s) (next_connection s)
  v (serverSocket s) (httpRwBuffer s) (peerId s) (closeWait s) (options s) (g_log s) (main s).
Definition set_buffer v s := MkServer (shared s) (next_socket s) (connections s)
  (next_connection s) (webrtcConnectionList s) (serverSocket s) v (peerId s) (closeWait s)
  (options s) (g_log s) (main s).
Definition set_closeWait v s := MkServer (shared s) (next_socket s) (connections s)
  (next_connection s) (webrtcConnectionList s) (serverSocket s) (httpRwBuffer s) (peerId s) v
  (options s) (g_log s) (main s).
Definition set_main v s := MkServer (shared s) (next_socket s) (connections s)
  (next_connection s) (webrtcConnectionList s) (serverSocket s) (httpRwBuffer s) (peerId s)
  (closeWait s) (options s) (g_log s) v.

(** A socket returned by [accept] gets an address. *)
Definition new_client (t : Socket) (s : Server) : Server :=
  MkServer (MkShared (<[next_socket s := t]> (sockets (shared s))) (outside (shared s)))
    (S (next_socket s)) (connections s) (next_connection s) (webrtcConnectionList s)
    (serverSocket s) (httpRwBuffer s) (peerId s) (closeWait s) (options s) (g_log s)
    (MRead (next_socket s)).

Definition connection_at (a : nat) (s : Server) : outcome (WebrtcConnection W) :=
  match connections s !! a with Some c => Ok c | None => UB UseAfterFree end.

(** ** Cleaning up *)

(** The loop over [webrtcConnectionList]: the addresses that stay in it, the
    connections and the world. *)
Fixpoint cleanup (l : list nat) (cs : gmap nat (WebrtcConnection W)) (w : W)
  : outcome (list nat * gmap nat (WebrtcConnection W) * W) :=
  match l with
  | [] => Ok ([], cs, w)
  | a :: l =>
      match cs !! a with
      | None => UB UseAfterFree
      | Some connection =>
          if decide (getState connection = CONNECTION_STATE_END) then
            let '(_, w) := disconnect connection w in
            cleanup l (delete a cs) w
          else
            '(l, cs, w) ← cleanup l cs w; Ok (a :: l, cs, w)
      end
  end.

(** The top of the main loop. *)
Definition accept_step (s : Server) : outcome Server :=
  let '(clientSocket, w) := accept (serverSocket s) (outside (shared s)) in
  let s := set_shared (set_outside w (shared s)) s in
  match clientSocket with
  | None =>
      '(l, cs, w) ← cleanup (webrtcConnectionList s) (connections s) (outside (shared s));
      Ok (set_list l (set_connections cs (set_shared (set_outside w (shared s)) s)))
  | Some t => Ok (new_client t s)
  end.

(** ** Reading a request *)

(** The bytes [d] stored at an offset of the buffer. *)
Definition store_at (i : nat) (d buffer : bytes) : bytes :=
  take i buffer ++ d ++ drop (i + length d) buffer.

(** The loop that receives until [read] returns nothing: the buffer, the number
    of bytes and the world. *)
Fixpoint receive_loop (fuel : nat) (client : Socket) (buffer : bytes) (totalBytes : Z) (w : W)
  : outcome (bytes * Z * W) :=
  match fuel with
  | O => NoFuel
  | S fuel =>
      let '(n, d, w) := Socket.read client (HTTP_RW_BUFFER_SIZE - totalBytes) w in
      let buffer := store_at (Z.to_nat totalBytes) d buffer in
      if 0 <? n then receive_loop fuel client buffer (totalBytes + n) w
      else Ok (buffer, totalBytes, w)
  end.

(** Every iteration but the last receives a byte. *)
Definition receive_fuel : nat := Z.to_nat HTTP_RW_BUFFER_SIZE + 1.

(** [httpRwBuffer[totalBytes] = 0], checked. *)
Definition terminate (buffer : bytes) (totalBytes : Z) : outcome bytes :=
  if totalBytes <? HTTP_RW_BUFFER_SIZE
  then Ok (store_at (Z.to_nat totalBytes) [NUL] buffer)
  else UB OutOfBounds.

Definition read_step (clientSocket : nat) (s : Server) : outcome Server :=
  client ← deref clientSocket (shared s);
  '(buffer, totalBytes, w) ←
    receive_loop receive_fuel client (httpRwBuffer s) 0 (outside (shared s));
  buffer ← terminate buffer totalBytes;
  let s := set_buffer buffer (set_shared (set_outside w (shared s)) s) in
  '(parsingDone, httpReq) ← parseHttpMessage buffer (Z.to_nat totalBytes) emptyReq;
  if negb parsingDone then
    sh ← delete_at clientSocket (shared s);
    Ok (set_main MAccept (set_shared sh s))
  else Ok (set_main (MServe clientSocket httpReq) s).

(** ** Serving it *)

(** The first connection of the list with a peer's id. *)
Fixpoint find_peer (l : list nat) (id : Z) (s : Server) : outcome (option nat) :=
  match l with
  | [] => Ok None
  | a :: l =>
      c ← connection_at a s;
      if Connection.getPeerId c =? id then Ok (Some a) else find_peer l id s
  end.

(** [std::string((char* )data)]: the bytes of the body up to a NUL. *)
Definition body_text (httpReq : HttpReq_t) (buffer : bytes) : outcome bytes :=
  match data httpReq with
  | Some i => Ok (cstr (drop i buffer))
  | None => UB NullPointer
  end.

Definition with_reply (r : outcome (bytes * Shared W)) (s : Server) : outcome Server :=
  '(buffer, sh) ← r; Ok (set_buffer buffer (set_shared sh s)).

Definition signIn (clientSocket : nat) (httpReq : HttpReq_t) (s : Server) : outcome Server :=
  let connection := new_WebrtcConnection (peerId s) in
  let a := next_connection s in
  let '(connection, w) := Connection.connect connection (outside (shared s)) in
  let s := MkServer (set_outside w (shared s)) (next_socket s) (<[a := connection]> (connections s))
             (S a) (webrtcConnectionList s ++ [a]) (serverSocket s) (httpRwBuffer s)
             (u32 (peerId s + 1)) (closeWait s) (options s) (g_log s) (main s) in
  let httpReq := set_pragma (Connection.getPeerId connection) httpReq in
  with_reply (sendReply clientSocket httpReq [] (httpRwBuffer s) (shared s)) s.

Definition deliver_message (httpReq : HttpReq_t) (s : Server) : outcome Server :=
  a ← find_peer (webrtcConnectionList s) (pragma httpReq) s;
  match a with
  | Some a =>
      message ← body_text httpReq (httpRwBuffer s);
      c ← connection_at a s;
      Ok (set_connections (<[a := pushMessage message c]> (connections s)) s)
  | None => Ok s
  end.

Definition register_wait (clientSocket : nat) (httpReq : HttpReq_t) (s : Server) : outcome Server :=
  a ← find_peer (webrtcConnectionList s) (pragma httpReq) s;
  match a with
  | Some a =>
      c ← connection_at a s;
      Ok (set_closeWait false
            (set_connections (<[a := setOutboundSocket clientSocket c]> (connections s)) s))
  | None => Ok s
  end.

(** The [if] over [httpReq.url.cmd]. *)
Definition serve (clientSocket : nat) (httpReq : HttpReq_t) (s : Server) : outcome Server :=
  let command := cmd (url httpReq) in
  if decide (command = [] \/ command = HTTP_CMD_LANDING_PAGE) then
    with_reply (sendReplyPage clientSocket HTTP_CMD_LANDING_PAGE (bs "text/html; charset=UTF-8")
                  (options s) (g_log s) (httpRwBuffer s) (shared s)) s
  else if decide (command = HTTP_CMD_SIGN_IN) then signIn clientSocket httpReq s
  else if decide (command = HTTP_CMD_SIGN_OUT) then Ok s
  else if decide (command = HTTP_CMD_MESSAGE) then
    s ← deliver_message httpReq s;
    with_reply (sendReply clientSocket httpReq [] (httpRwBuffer s) (shared s)) s
  else if decide (command = HTTP_CMD_WAIT) then register_wait clientSocket httpReq s
  else if decide (command = HTTP_CMD_FAVICON) then
    with_reply (sendReplyFavicon clientSocket HTTP_CMD_FAVICON (bs "image/x-icon")
                  (httpRwBuffer s) (shared s)) s
  else
    with_reply (sendReplyError clientSocket (bs "Invalid Request!") (httpRwBuffer s) (shared s)) s.

Definition serve_step (clientSocket : nat) (httpReq : HttpReq_t) (s : Server) : outcome Server :=
  s ← serve clientSocket httpReq s; Ok (set_main (MClose clientSocket) s).

(** [if (closeWait) delete clientSocket] *)
Definition close_step (clientSocket : nat) (s : Server) : outcome Server :=
  sh ← (if closeWait s then delete_at clientSocket (shared s) else Ok (shared s));
  Ok (set_main MAccept (set_shared sh s)).

(** ** Steps of the program *)

Definition main_step (s : Server) : outcome Server :=
  match main s with
  | MAccept => accept_step s
  | MRead p => read_step p s
  | MServe p httpReq => serve_step p httpReq s
  | MClose p => close_step p s
  end.

(** Who runs: the main thread, or the thread of the connection at an address,
    with the end of its wait for a message. *)
Inductive actor := Main | Peer (a : nat) (timed_out : bool).

Definition server_step (who : actor) (s : Server) : option (outcome Server) :=
  match who with
  | Main => Some (main_step s)
  | Peer a timed_out =>
      match connections s !! a with
      | None => None
      | Some c =>
          match run_step timed_out c (shared s) with
          | None => None
          | Some r =>
              Some ('(c, sh) ← r;
                    Ok (set_connections (<[a := c]> (connections s)) (set_shared sh s)))
          end
      end
  end.

(** A run of the program by a schedule; a thread without a step is left alone. *)
Fixpoint run_server (l : list actor) (s : Server) : outcome Server :=
  match l with
  | [] => Ok s
  | who :: l =>
      match server_step who s with
      | Some m => s ← m; run_server l s
      | None => run_server l s
      end
  end.

(** ** Starting it *)

(** [main] from the options to the loop; [None] stands for [exit(1)].  The
    results of [create], [bind] and [listen] are not looked at. *)
Definition start `{!SslSetup W} (o : Options) (g_log : Z) (buffer : bytes) (w : W)
  : outcome (option Server) :=
  let w := InitializeSSL w in
  let '(ctx, w) := SSL_CTX_new w in
  let '(ok, w) := use_certificate_chain_file ctx (g_certificate o) w in
  if negb ok then Ok None
  else
    let '(ok, w) := use_PrivateKey_file ctx (g_certificate o) w in
    if negb ok then Ok None
    else
      let '(ok, w) := check_private_key ctx w in
      if negb ok then Ok None
      else
        let serverSocket := new_Socket (g_serverIp o) (g_httpsPort o) (Some ctx) in
        '(_, serverSocket, w) ← create serverSocket w;
        let '(_, w) := Socket.bind serverSocket w in
        let '(_, w) := Socket.listen serverSocket 20 w in
        Ok (Some (MkServer (MkShared ∅ w) 0 ∅ 0 [] serverSocket buffer 1 true o g_log MAccept)).
End Server.
Arguments Server W {_ _}.
