(* ===== verification/SampleServer.v ===== *)
(** * A small server

    The server over the world of SampleNet.v, started with three clients that
    wait to be accepted; for the witnesses of theorems about any server. *)
From Stdlib Require Import ZArith Ascii String Lia.
From stdpp Require Import base tactics list gmap sets.
From S2P Require Import Prelude CLib Http Options Socket Observer Connection SampleNet Server.

#[local] Open Scope Z_scope.

(** One page and one icon of 5000 bytes. *)
Definition sample_page : bytes := bs "<p>%s:%d</p>".
Definition sample_icon : bytes := repeat "a"%char 4096 ++ repeat "b"%char 904.

Definition sample_file (name : bytes) : option bytes :=
  if decide (name = HTTP_CMD_LANDING_PAGE) then Some sample_page
  else if decide (name = HTTP_CMD_FAVICON) then Some sample_icon else None.

#[export] Instance Net_Files : Files Net := {|
  read_file name _ := sample_file name;
  stat_size name _ := size <$> sample_file name
|}.

#[export] Instance Net_SslSetup : SslSetup Net := {|
  InitializeSSL w := w;
  SSL_CTX_new w := (tt, w);
  use_certificate_chain_file _ _ w := (true, w);
  use_PrivateKey_file _ _ w := (true, w);
  check_private_key _ w := (true, w)
|}.

(** A sign-in, a wait of the peer it creates, and a message to that peer, in
    two pieces. *)
Definition sample_clients : list (list bytes) :=
  [ [render_request (bs "GET") (bs "signIn") (bs "h") false 0 []];
    [render_request (bs "GET") (bs "wait") (bs "h") false 1 []];
    let m := render_request (bs "POST") (bs "message") (bs "h") false 1 (bs "SDP->{}") in
    [take 30 m; drop 30 m] ].

Definition sample_world : Net := MkNet ∅ sample_clients ∅ [] 0 [].

Definition sample_options : Options.Options := Options.MkOptions (bs "127.0.0.1") 4433 (bs "server.pem").

Definition sample_buffer : bytes := repeat "x"%char (Z.to_nat HTTP_RW_BUFFER_SIZE).

(** The listening socket, and the server as it starts. *)
Definition sample_server : Server Net :=
  MkServer (MkShared ∅ (MkNet {[3]} sample_clients ∅ [] 0 [])) 0 ∅ 0 []
    (MkSocket (Some tt) None 3 (bs "127.0.0.1") 4433) sample_buffer 1 true sample_options 0 MAccept.

Lemma sample_start : start sample_options 0 sample_buffer sample_world = Ok (Some sample_server).
Proof. reflexivity. Qed.

(** The state a run from [s] ends in, or [s]. *)
Definition after (l : list actor) (s : Server Net) : Server Net :=
  match run_server l s with Ok s' => s' | _ => s end.

Lemma after_ok l s :
  match run_server l s with Ok _ => true | _ => false end = true ->
  run_server l s = Ok (after l s).
Proof. unfold after. by destruct (run_server l s). Qed.
