(* ===== verification/ServerInvariant.v ===== *)
(** * The server: no deleted socket or connection is ever used

    [fine] and [well] say that an operation uses no deleted object; [server_inv]
    is the ownership invariant that every step of every thread preserves. *)
From Stdlib Require Import ZArith Ascii String Lia.
From stdpp Require Import base tactics list gmap sets.
From S2P Require Import Prelude CLib CDouble JsonValue JsonNotes JsonReader JsonReaderProofs JsonWriter.
From S2P Require Import Http HttpProofs Options Socket Observer Connection SampleNet ConnectionProofs Server.

#[local] Open Scope Z_scope.

(** ** Operations that touch no heap object

    [fine m]: [m] does not end in the use of a deleted object. *)

Definition fine {A} (m : outcome A) : Prop := m <> UB UseAfterFree.

Lemma fine_Ok {A} (a : A) : fine (Ok a).
Proof. done. Qed.

Lemma fine_Throw {A} e : fine (@Throw A e).
Proof. done. Qed.

Lemma fine_NoFuel {A} : fine (@NoFuel A).
Proof. done. Qed.

Lemma fine_UB {A} f : f <> UseAfterFree -> fine (@UB A f).
Proof. intros H [= E]; by apply H. Qed.

Lemma fine_bind {A B} (m : outcome A) (f : A -> outcome B) :
  fine m -> (forall a, m = Ok a -> fine (f a)) -> fine (m ≫= f).
Proof. unfold fine. destruct m as [a|e|w|]; simpl; intros H1 H2; [by apply H2|done|congruence|done]. Qed.

Lemma fine_safe {A} X (m : outcome A) P : safe X m P -> fine m.
Proof. by destruct m. Qed.

Create HintDb fine discriminated.
#[local] Hint Constants Opaque : fine.
#[local] Hint Resolve fine_Ok fine_Throw fine_NoFuel : fine.

(** Walks through binds and branches; what is left are calls. *)
Ltac walk :=
  repeat first
    [ progress cbv beta iota
    | match goal with
      | |- fine (UB _) => apply fine_UB; discriminate
      | |- fine (_ ≫= _) => apply fine_bind; [|intros ? _]
      | |- fine (match ?x with _ => _ end) => destruct x
      | |- fine (let '(_, _) := ?x in _) => destruct x
      end
    | solve [auto with fine nocore] ].

Lemma fine_foldM {A B} (f : B -> A -> outcome B) l b :
  (forall b a, fine (f b a)) -> fine (foldM f b l).
Proof. intros Hf. revert b; induction l; intros b; simpl; walk. Qed.

(** *** JSON values and texts *)

Lemma fine_assert b : fine (json_assert b).
Proof. unfold json_assert. walk. Qed.
#[local] Hint Resolve fine_assert : fine.

Lemma fine_string s : fine (Value_of_string s).
Proof. unfold Value_of_string. walk. Qed.

Lemma fine_resolve v k : fine (resolveReference v k).
Proof. unfold resolveReference. walk. Qed.
#[local] Hint Resolve fine_string fine_resolve : fine.

Lemma fine_member_set v k w : fine (member_set v k w).
Proof. unfold member_set. walk. Qed.

Lemma fine_member_ref v k : fine (member_ref v k).
Proof. unfold member_ref. walk. Qed.

Lemma fine_find v k : fine (JsonValue.find v k).
Proof. unfold JsonValue.find. walk. Qed.
#[local] Hint Resolve fine_member_set fine_member_ref fine_find : fine.

Lemma fine_member_const v k : fine (member_const v k).
Proof. unfold member_const. walk. Qed.

Lemma fine_index_const v i : fine (index_const v i).
Proof. unfold index_const. walk. Qed.

Lemma fine_names v : fine (getMemberNames v).
Proof. unfold getMemberNames. walk. Qed.

Lemma fine_double a b d : fine (double_to_int a b d).
Proof. unfold double_to_int. walk. Qed.
#[local] Hint Resolve fine_member_const fine_index_const fine_names fine_double : fine.

Lemma fine_asString v : fine (asString v).
Proof. unfold asString. walk. Qed.

Lemma fine_asInt v : fine (asInt v).
Proof. unfold asInt. walk. Qed.

Lemma fine_asInt64 v : fine (asInt64 v).
Proof. unfold asInt64. walk. Qed.

Lemma fine_asUInt64 v : fine (asUInt64 v).
Proof. unfold asUInt64. walk. Qed.

Lemma fine_asDouble v : fine (asDouble v).
Proof. unfold asDouble. walk. Qed.

Lemma fine_asBool v : fine (asBool v).
Proof. unfold asBool. walk. Qed.
#[local] Hint Resolve fine_asString fine_asInt fine_asInt64 fine_asUInt64 fine_asDouble fine_asBool : fine.

Section Writer.
Context (cfg : WriterConfig) (notes : Notes).

Lemma fine_unindent s : fine (unindent cfg s).
Proof. unfold unindent. walk. Qed.

Lemma fine_child s i : fine (child_at s i).
Proof. unfold child_at. walk. Qed.
#[local] Hint Resolve fine_unindent fine_child : fine.

Lemma fine_multiline n i v : fine (multiline_children n i v).
Proof. revert i; induction n; intros i; simpl; walk. Qed.

Lemma fine_single n i s : fine (single_line cfg n i s).
Proof. revert i s; induction n; intros i s; simpl; walk. Qed.
#[local] Hint Resolve fine_multiline fine_single : fine.

Section Loops.
Context (write : Place -> Value -> WState -> outcome WState) (Hwrite : forall p v s, fine (write p v s)).
#[local] Hint Resolve Hwrite : fine.

Lemma fine_measure p v n i b l s : fine (measure_children notes write p v n i b l s).
Proof using Hwrite. revert i b l s; induction n; intros i b l s; simpl; walk. Qed.

Lemma fine_elements p v n i b s : fine (elements_loop cfg notes write p v n i b s).
Proof using Hwrite. revert i s; induction n; intros i s; cbn [elements_loop]; cbv zeta; walk. Qed.

Lemma fine_members p v l s : fine (members_loop cfg notes write p v l s).
Proof using Hwrite. revert s; induction l as [|k l IH]; intros s; cbn [members_loop]; cbv zeta; walk. Qed.
#[local] Hint Resolve fine_measure fine_elements fine_members : fine.

Lemma fine_array p v s : fine (writeArrayValue cfg notes write p v s).
Proof using Hwrite. unfold writeArrayValue, isMultilineArray. walk. Qed.
End Loops.

Lemma fine_writeValue n p v s : fine (writeValue cfg notes n p v s).
Proof.
  revert p v s; induction n as [|n IH]; intros p v s; [done|]. cbn [writeValue].
  destruct v; walk; unfold asLargestInt, asLargestUInt; walk.
  - by apply fine_array.
  - by apply fine_members.
Qed.

Lemma fine_write v : fine (JsonWriter.write cfg notes v).
Proof. unfold JsonWriter.write. cbv zeta. pose proof fine_writeValue. walk. Qed.
End Writer.

Lemma fine_put_all l v : fine (put_all l v).
Proof. apply fine_foldM. intros b [k x]. apply fine_member_set. Qed.

Lemma fine_setting_bool v k : fine (setting_bool v k).
Proof. unfold setting_bool. walk. Qed.

Lemma fine_setting_string v k : fine (setting_string v k).
Proof. unfold setting_string. walk. Qed.

Lemma fine_asUInt v : fine (asUInt v).
Proof. unfold asUInt. walk. Qed.
#[local] Hint Resolve fine_put_all fine_setting_bool fine_setting_string fine_asUInt fine_write : fine.

Lemma fine_newStreamWriter v : fine (newStreamWriter v).
Proof. unfold newStreamWriter. walk. Qed.
#[local] Hint Resolve fine_newStreamWriter : fine.

Lemma fine_writeString v : fine (writeString v).
Proof. unfold writeString, writeString_noted, StreamWriterBuilder_setDefaults. walk. Qed.

Lemma fine_parse_json t : fine (parse_json t).
Proof.
  rewrite parse_json_defaults. eapply fine_safe, char_reader_safe.
  unfold c_str. rewrite length_app; simpl; lia.
Qed.
#[local] Hint Resolve fine_writeString fine_parse_json : fine.

(** *** Formats *)

Lemma fine_vformat fmt args : fine (vformat fmt args).
Proof.
  revert args; induction fmt as [fmt IH] using (induction_ltof1 _ (@length ascii)).
  unfold ltof in IH. intros args. destruct fmt as [|c fmt]; [done|]. cbn [vformat].
  case_decide; [|apply fine_bind; [apply IH; simpl; lia|done]].
  destruct fmt as [|d fmt]; [by apply fine_UB|].
  assert (Hd : forall (g : bytes -> bytes) a, fine (o ← vformat fmt a; Ok (g o)))
    by (intros g a; apply fine_bind; [apply IH; simpl; lia|done]).
  destruct d as [[] [] [] [] [] [] [] []]; try (by apply fine_UB);
    try apply (Hd (cons "%"%char)); destruct args as [|[t|z] args]; try (by apply fine_UB);
    apply (Hd (app _)).
Qed.

Lemma fine_snprintf n fmt args : fine (snprintf n fmt args).
Proof.
  unfold snprintf. pose proof (fine_vformat (cstr fmt) args) as Hv.
  by destruct (vformat _ _) as [|?|?|]; simpl; unfold fine in *.
Qed.
#[local] Hint Resolve fine_snprintf : fine.

(** *** The request parser *)

Lemma fine_char m i : fine (char_at m i).
Proof. unfold char_at. walk. Qed.

Lemma fine_range m i n : fine (mem_range m i n).
Proof. unfold mem_range. walk. Qed.

Lemma fine_list {A} (l : list A) i : fine (list_at l i).
Proof. unfold list_at. walk. Qed.

Lemma fine_substr s i n : fine (substr s i n).
Proof. unfold substr. walk. Qed.
#[local] Hint Resolve fine_char fine_range fine_list fine_substr : fine.

Lemma fine_split_loop str ptrn n i j l : fine (splitString_loop str ptrn n i j l).
Proof. revert i j l; induction n; intros i j l; simpl; walk. Qed.
#[local] Hint Resolve fine_split_loop : fine.

Lemma fine_split s a b ptrn : fine (splitString s a b ptrn).
Proof. unfold splitString. walk. Qed.
#[local] Hint Resolve fine_split : fine.

Lemma fine_parseUrl t u : fine (parseUrl t u).
Proof.
  assert (forall m b a, fine (parseParam m b a))
    by (intros; unfold parseParam, split_desc, copyString; walk).
  unfold parseUrl, split_desc, copyString. walk. by apply fine_foldM.
Qed.
#[local] Hint Resolve fine_parseUrl : fine.

Lemma fine_request_line b i j r : fine (parseRequestLine b i j r).
Proof. unfold parseRequestLine, copyString. walk. Qed.

Lemma fine_header_line t r : fine (parseHeaderLine t r).
Proof. unfold parseHeaderLine, substr_from. walk. Qed.
#[local] Hint Resolve fine_request_line fine_header_line : fine.

Lemma fine_parse_loop n b len i j k r : fine (parse_loop n b len i j k r).
Proof. revert i j k r; induction n; intros i j k r; simpl; walk. Qed.

Lemma fine_parse b n r : fine (parseHttpMessage b n r).
Proof. apply fine_parse_loop. Qed.

(** *** The observer *)

Section ObserverFine.
Context {W : Type} `{WebRTC W}.

Lemma fine_event e (o : Observer) (w : W) : fine (on_event e o w).
Proof. unfold on_event, on_IceCandidate, candidate_json, on_AddStream. walk. Qed.

Lemma fine_events es (o : Observer) (w : W) : fine (on_events es o w).
Proof. apply fine_foldM. intros [? ?] e. apply fine_event. Qed.
#[local] Hint Resolve fine_events : fine.

Lemma fine_addIce t (o : Observer) (w : W) : fine (addIceCandidate t o w).
Proof. unfold addIceCandidate. walk. Qed.

#[local] Hint Resolve fine_addIce : fine.

Lemma fine_candidates n t i (o : Observer) (w : W) : fine (candidates_loop n t i o w).
Proof. revert i o w; induction n; intros i o w; simpl; walk. Qed.
#[local] Hint Resolve fine_candidates : fine.

Lemma fine_signaling t (o : Observer) (w : W) : fine (onSignalingMessage t o w).
Proof.
  unfold onSignalingMessage, split_message, substr_from, on_sdp, on_description, on_ice, add_candidates. walk.
Qed.

Lemma fine_OnSuccess d (o : Observer) (w : W) : fine (OnSuccess d o w).
Proof. unfold OnSuccess, description_json, add_candidates. walk. Qed.
End ObserverFine.

Lemma fine_callbacks {W} `{Runtime W} es (o : Observer) (w : W) : fine (on_callbacks es o w).
Proof.
  apply fine_foldM. intros [o1 w1] [e|d|t]; simpl;
    [apply fine_event|apply fine_OnSuccess|done].
Qed.

(** ** Heap objects

    [well m P]: [m] uses no deleted object, and what it returns satisfies [P]. *)

Definition well {A} (m : outcome A) (P : A -> Prop) : Prop :=
  match m with
  | Ok a => P a
  | UB f => f <> UseAfterFree
  | Throw _ | NoFuel => True
  end.

Lemma well_bind {A B} (m : outcome A) (f : A -> outcome B) P Q :
  well m P -> (forall a, P a -> well (f a) Q) -> well (m ≫= f) Q.
Proof. destruct m; simpl; auto. Qed.

Lemma well_mono {A} (m : outcome A) (P Q : A -> Prop) :
  well m P -> (forall a, P a -> Q a) -> well m Q.
Proof. destruct m; simpl; auto. Qed.

Lemma well_fine {A} (m : outcome A) : fine m -> well m (fun a => m = Ok a).
Proof. destruct m; try done. intros Hm ->. by apply Hm. Qed.

Lemma fine_well {A} (m : outcome A) P : well m P -> fine m.
Proof. destruct m; try done. by intros Hm [= ->]. Qed.

(** The first part of a bind touches no heap object. *)
Lemma well_fine_bind {A B} (m : outcome A) (f : A -> outcome B) Q :
  fine m -> (forall a, m = Ok a -> well (f a) Q) -> well (m ≫= f) Q.
Proof. intros H. eapply well_bind. by apply well_fine. Qed.

Section Heap.
Context {W : Type} `{Winsock W}.

(** The sockets of [sh'] are those of [sh]. *)
Definition same_heap (sh sh' : Shared W) : Prop := sockets sh' = sockets sh.

Lemma deref_well p (sh : Shared W) :
  is_Some (sockets sh !! p) -> well (deref p sh) (fun s => sockets sh !! p = Some s).
Proof. unfold deref. by intros [s ->]. Qed.

Lemma write_well p d (sh : Shared W) :
  is_Some (sockets sh !! p) -> well (write_to p d sh) (same_heap sh).
Proof.
  intros Hp. unfold write_to. eapply well_bind; [by apply deref_well|]. intros s _. done.
Qed.

Lemma delete_well p (sh : Shared W) :
  is_Some (sockets sh !! p) ->
  well (delete_at p sh) (fun sh' => sockets sh' = delete p (sockets sh)).
Proof.
  intros Hp. unfold delete_at. eapply well_bind; [by apply deref_well|]. intros s _. done.
Qed.

(** Two writes to the same socket. *)
Lemma writes_well p d1 d2 (b : bytes) (sh : Shared W) :
  is_Some (sockets sh !! p) ->
  well (sh ← write_to p d1 sh; sh ← write_to p d2 sh; Ok (b, sh)) (fun x => same_heap sh x.2).
Proof.
  intros Hp. eapply well_bind; [by apply write_well|]. intros sh1 H1.
  eapply well_bind; [apply write_well; by rewrite H1|]. intros sh2 H2. unfold same_heap in *; simpl.
  congruence.
Qed.
End Heap.

Section Replies.
Context {W : Type} `{Winsock W} `{Files W}.

Lemma error_well p t b (sh : Shared W) :
  is_Some (sockets sh !! p) -> well (sendReplyError p t b sh) (fun x => same_heap sh x.2).
Proof.
  intros Hp. unfold sendReplyError.
  do 2 (apply well_fine_bind; [apply fine_snprintf|intros ? _]). by apply writes_well.
Qed.

Lemma page_well p f m o g b (sh : Shared W) :
  is_Some (sockets sh !! p) -> well (sendReplyPage p f m o g b sh) (fun x => same_heap sh x.2).
Proof.
  intros Hp. unfold sendReplyPage. destruct (read_file _ _); [|by apply error_well].
  do 2 (apply well_fine_bind; [apply fine_snprintf|intros ? _]). by apply writes_well.
Qed.

Lemma fine_favicon n c t : fine (favicon_loop n c t).
Proof. revert c t; induction n; intros c t; simpl; walk. Qed.

Lemma favicon_well p f m b (sh : Shared W) :
  is_Some (sockets sh !! p) -> well (sendReplyFavicon p f m b sh) (fun x => same_heap sh x.2).
Proof.
  intros Hp. unfold sendReplyFavicon. destruct (read_file _ _) as [c|]; [|by apply error_well].
  destruct (stat_size _ _) as [n|]; [|by apply error_well].
  destruct (n <=? 0); [by apply error_well|].
  apply well_fine_bind; [apply fine_favicon|intros t _]. destruct (n <? size t); [done|].
  apply well_fine_bind; [apply fine_snprintf|intros ? _]. by apply writes_well.
Qed.

Lemma reply_well p r d b (sh : Shared W) :
  is_Some (sockets sh !! p) -> well (sendReply p r d b sh) (fun x => same_heap sh x.2).
Proof.
  intros Hp. unfold sendReply. apply well_fine_bind; [apply fine_snprintf|intros h _].
  eapply well_bind; [by apply write_well|]. intros sh1 H1.
  eapply well_bind with (P := same_heap sh1).
  { destruct (0 <? size d); [apply write_well; by rewrite H1|done]. }
  intros sh2 H2. unfold same_heap in *; simpl. congruence.
Qed.
End Replies.

(** ** The invariant *)

Section Invariant.
Context {W : Type} `{Winsock W} `{Runtime W} `{Files W}.

(** A step of a connection's thread leaves the heap alone, or deletes the
    registered socket and forgets it. *)
Definition run_effect (c : WebrtcConnection W) (sh : Shared W) (x : WebrtcConnection W * Shared W) : Prop :=
  (m_clientSocket x.1 = m_clientSocket c /\ same_heap sh x.2) \/
  (exists p, m_clientSocket c = Some p /\ m_clientSocket x.1 = None /\
             sockets x.2 = delete p (sockets sh)).

Lemma send_step_well o (c : WebrtcConnection W) (sh : Shared W) :
  (forall p, m_clientSocket c = Some p -> is_Some (sockets sh !! p)) ->
  well (send_step o c sh) (fun '(_, _, c', sh') => run_effect c sh (c', sh')).
Proof.
  intros Hc. assert (run_effect c sh (c, sh)) by (by left). unfold send_step.
  destruct (0 <? _); [|done]. destruct (m_clientSocket c) as [p|] eqn:Ep; [|done].
  destruct (getSignalingMessage o) as [[m|] o1]; [|done].
  specialize (Hc p eq_refl).
  eapply well_bind with (P := same_heap sh).
  { unfold sendMessage. apply well_fine_bind; [apply fine_snprintf|intros h _].
    eapply well_bind; [by apply write_well|]. intros sh1 Q1.
    destruct (0 <? _); [|done]. eapply well_mono; [apply write_well; by rewrite Q1|].
    unfold same_heap in *. congruence. }
  intros sh1 Q1. eapply well_bind; [apply delete_well; by rewrite Q1|].
  intros sh2 Q2. right. exists p. cbn [fst snd]. rewrite Q2, Q1. done.
Qed.

Lemma run_step_well b (c : WebrtcConnection W) (sh : Shared W) m :
  (forall p, m_clientSocket c = Some p -> is_Some (sockets sh !! p)) ->
  run_step b c sh = Some m -> well m (run_effect c sh).
Proof.
  intros Hc. assert (Hsame : forall t c' w, m_clientSocket c' = m_clientSocket c ->
    well (Ok (set_thread t c', set_outside w sh)) (run_effect c sh)) by (by left).
  unfold run_step. destruct (m_thread c) as [| |pc o t|]; try done.
  { intros [= <-]. by left. }
  destruct pc as [| |message| | | |].
  - intros [= <-]. by left.
  - destruct b; [intros [= <-]; by left|]. destruct (MessageQueue.dequeue _) as [[x|] q]; [|done].
    intros [= <-]. by left.
  - intros [= <-]. apply well_fine_bind; [apply fine_signaling|]. intros [o1 w1] _. by apply Hsame.
  - intros [= <-]. eapply well_bind; [by apply send_step_well|].
    intros [[[r o1] c1] sh1] Hx. exact Hx.
  - intros [= <-]. left. by destruct (ice_step _ _ _).
  - intros [= <-]. destruct (ProcessMessages _ _) as [es w1].
    apply well_fine_bind; [apply fine_callbacks|]. intros [o1 w2] _. by apply Hsame.
  - intros [= <-]. by left.
Qed.

(** The socket [p] exists and no connection has it. *)
Definition owned_by_main (s : Server W) (p : nat) : Prop :=
  is_Some (sockets (shared s) !! p) /\
  forall a c, connections s !! a = Some c -> m_clientSocket c <> Some p.

Record server_inv (s : Server W) : Prop := {
  inv_list : NoDup (webrtcConnectionList s);
  inv_listed : forall a, a ∈ webrtcConnectionList s -> is_Some (connections s !! a);
  inv_addr : forall a c, connections s !! a = Some c -> (a < next_connection s)%nat;
  inv_socket : forall a c p, connections s !! a = Some c -> m_clientSocket c = Some p ->
               is_Some (sockets (shared s) !! p);
  inv_distinct : forall a b c d p, connections s !! a = Some c -> connections s !! b = Some d ->
                 m_clientSocket c = Some p -> m_clientSocket d = Some p -> a = b;
  inv_fresh : forall p, is_Some (sockets (shared s) !! p) -> (p < next_socket s)%nat;
  inv_main : match main s with
             | MAccept => True
             | MRead p | MServe p _ => owned_by_main s p
             | MClose p => closeWait s = true -> owned_by_main s p
             end
}.

(** What the invariant depends on. *)
Lemma inv_ext (s s' : Server W) :
  server_inv s ->
  sockets (shared s') = sockets (shared s) -> next_socket s' = next_socket s ->
  connections s' = connections s -> next_connection s' = next_connection s ->
  webrtcConnectionList s' = webrtcConnectionList s -> closeWait s' = closeWait s ->
  main s' = main s -> server_inv s'.
Proof.
  intros [I1 I2 I3 I4 I5 I6 I7] E1 E2 E3 E4 E5 E6 E7.
  constructor; rewrite ?E1, ?E2, ?E3, ?E4, ?E5, ?E6, ?E7; auto.
  unfold owned_by_main in *. destruct (main s); rewrite ?E1, ?E3; auto.
Qed.

(** A connection may change but for its socket. *)
Lemma inv_update a c c' (s : Server W) :
  server_inv s -> connections s !! a = Some c -> m_clientSocket c' = m_clientSocket c ->
  server_inv (set_connections (<[a := c']> (connections s)) s).
Proof.
  intros [I1 I2 I3 I4 I5 I6 I7] Ha Hc.
  assert (Hl : forall b d, <[a := c']> (connections s) !! b = Some d ->
    exists d', connections s !! b = Some d' /\ m_clientSocket d = m_clientSocket d').
  { intros b d. destruct (decide (b = a)) as [->|].
    - rewrite lookup_insert_eq. intros [= <-]. eauto.
    - rewrite lookup_insert_ne by done. eauto. }
  assert (Ho : forall p, owned_by_main s p ->
    owned_by_main (set_connections (<[a := c']> (connections s)) s) p).
  { intros p [K1 K2]. split; [done|]. simpl. intros b d Hb. destruct (Hl b d Hb) as (d' & K & ->).
    by apply (K2 b). }
  constructor; simpl; auto.
  - intros b Hb. rewrite lookup_insert_is_Some'. auto.
  - intros b d Hb. destruct (Hl b d Hb) as (d' & K & _). eauto.
  - intros b d p Hb. destruct (Hl b d Hb) as (d' & K & ->). eauto.
  - intros b1 b2 d1 d2 p Ka Kb. destruct (Hl b1 d1 Ka) as (e1 & K1 & ->).
    destruct (Hl b2 d2 Kb) as (e2 & K2 & ->). eauto.
  - destruct (main s); auto.
Qed.
(** *** Cleaning up and accepting *)

Lemma cleanup_well l (cs : gmap nat (WebrtcConnection W)) (w : W) :
  NoDup l -> (forall a, a ∈ l -> is_Some (cs !! a)) ->
  well (cleanup l cs w) (fun '(l', cs', w') =>
    l' `sublist_of` l /\ cs' ⊆ cs /\ (forall a, a ∉ l -> cs' !! a = cs !! a) /\
    (forall a, a ∈ l' -> is_Some (cs' !! a))).
Proof.
  revert cs w; induction l as [|a l IH]; intros cs w Hn Hl; simpl.
  { split_and!; [constructor|done|done|]. intros a Ha. by apply not_elem_of_nil in Ha. }
  apply NoDup_cons in Hn as [Ha Hn].
  destruct (Hl a ltac:(left)) as [c Hc]. rewrite Hc.
  case_decide.
  - eapply well_mono; [apply IH; [done|]|].
    + intros b Hb. rewrite lookup_delete_ne by congruence. apply Hl. by right.
    + intros [[l' cs'] w'] (K1 & K2 & K3 & K4). split_and!; [by constructor| | |done].
      * etrans; [done|apply delete_subseteq].
      * intros b Hb%not_elem_of_cons. destruct Hb. rewrite K3, lookup_delete_ne by done. done.
  - eapply well_bind; [apply IH; [done|]|].
    + intros b Hb. apply Hl. by right.
    + intros [[l' cs'] w'] (K1 & K2 & K3 & K4). simpl.
      split_and!; [by constructor|done| |].
      * intros b [_ Hb]%not_elem_of_cons. by apply K3.
      * intros b [->|Hb]%elem_of_cons; [|auto]. rewrite K3 by done. eauto.
Qed.

Lemma accept_step_well (s : Server W) :
  server_inv s -> main s = MAccept -> well (accept_step s) server_inv.
Proof.
  intros [I1 I2 I3 I4 I5 I6 I7] Hm. unfold accept_step.
  destruct (accept _ _) as [[t|] w1].
  - simpl. constructor; simpl; auto.
    + intros a c p Ha Hc. destruct (I4 a c p Ha Hc) as [x Hx]. rewrite lookup_insert_is_Some'. eauto.
    + intros p. rewrite lookup_insert_is_Some'. intros [<-|Hp]; [lia|]. specialize (I6 p Hp). lia.
    + split; simpl; [rewrite lookup_insert_eq; eauto|]. intros a c Ha Hc.
      pose proof (I6 _ (I4 a c _ Ha Hc)). lia.
  - eapply well_bind; [by apply cleanup_well|]. intros [[l cs] w2] (K1 & K2 & K3 & K4). simpl.
    assert (Hsub : forall a c, cs !! a = Some c -> connections s !! a = Some c)
      by (intros; by eapply lookup_weaken).
    constructor; simpl; eauto.
    + eapply sublist_NoDup; eauto.
    + by rewrite Hm.
Qed.

(** *** Reading *)

Lemma fine_receive n t b k (w : W) : fine (receive_loop n t b k w).
Proof. revert b k w; induction n; intros b k w; simpl; walk. Qed.

Lemma owned_delete (s : Server W) p :
  server_inv s -> owned_by_main s p ->
  forall sh, sockets sh = delete p (sockets (shared s)) ->
  server_inv (set_main MAccept (set_shared sh s)).
Proof.
  intros [I1 I2 I3 I4 I5 I6 I7] [Hp Ho] sh Hsh. constructor; simpl; auto; rewrite ?Hsh.
  - intros a c q Ha Hc. rewrite lookup_delete_ne; [eauto|]. intros ->. by apply (Ho a c).
  - intros q Hq. apply I6. rewrite lookup_delete_is_Some in Hq. tauto.
Qed.

Lemma read_step_well p (s : Server W) :
  server_inv s -> main s = MRead p -> well (read_step p s) server_inv.
Proof.
  intros Hi Hm. pose proof (inv_main s Hi) as Ho. rewrite Hm in Ho. unfold read_step.
  eapply well_bind; [apply deref_well, Ho|]. intros client _.
  apply well_fine_bind; [apply fine_receive|]. intros [[b n] w] _.
  apply well_fine_bind; [unfold terminate; walk|]. intros b2 _.
  apply well_fine_bind; [apply fine_parse|]. intros [ok r] _.
  set (s2 := set_buffer b2 (set_shared (set_outside w (shared s)) s)).
  assert (server_inv s2) as Hi2 by (by apply (inv_ext s)).
  destruct ok; cbn [negb].
  - destruct Hi2 as [I1 I2 I3 I4 I5 I6 I7]. constructor; simpl; auto.
  - eapply well_bind; [apply delete_well; apply Ho|]. intros sh Hsh.
    by apply (owned_delete s2 p).
Qed.

(** *** Serving *)

Lemma find_peer_well l id (s : Server W) :
  (forall a, a ∈ l -> is_Some (connections s !! a)) ->
  well (find_peer l id s) (fun r => forall a, r = Some a ->
    exists c, connections s !! a = Some c /\ m_peerId c = id).
Proof.
  induction l as [|a l IH]; intros Hl; simpl; [done|].
  destruct (Hl a ltac:(left)) as [c Hc]. unfold connection_at. rewrite Hc; run.
  destruct (Z.eqb_spec (Connection.getPeerId c) id); [intros b [= <-]; eauto|].
  apply IH. intros b Hb. apply Hl. by right.
Qed.

Lemma inv_close p r (s : Server W) :
  server_inv s -> main s = MServe p r -> server_inv (set_main (MClose p) s).
Proof.
  intros [I1 I2 I3 I4 I5 I6 I7] Hm. rewrite Hm in I7. constructor; simpl; auto.
Qed.

Lemma with_reply_well p r (x : outcome (bytes * Shared W)) (s : Server W) :
  server_inv s -> main s = MServe p r -> well x (fun x => same_heap (shared s) x.2) ->
  well (with_reply x s) (fun s' => server_inv (set_main (MClose p) s')).
Proof.
  intros Hi Hm Hr. unfold with_reply. eapply well_bind; [exact Hr|]. intros [b sh] Hsh. simpl.
  apply (inv_close p r); [by apply (inv_ext s)|done].
Qed.

(** A new connection has no socket. *)
Lemma inv_sign_in c w n (s : Server W) :
  server_inv s -> m_clientSocket c = None ->
  server_inv (MkServer (set_outside w (shared s)) (next_socket s)
    (<[next_connection s := c]> (connections s)) (S (next_connection s))
    (webrtcConnectionList s ++ [next_connection s]) (serverSocket s) (httpRwBuffer s) n
    (closeWait s) (options s) (g_log s) (main s)).
Proof.
  intros [I1 I2 I3 I4 I5 I6 I7] Hc.
  assert (Hnew : forall a d, connections s !! a = Some d -> a <> next_connection s)
    by (intros a d Ha ->; apply I3 in Ha; lia).
  assert (Hl : forall a d p, <[next_connection s := c]> (connections s) !! a = Some d ->
    m_clientSocket d = Some p -> connections s !! a = Some d).
  { intros a d p. destruct (decide (a = next_connection s)) as [->|].
    - rewrite lookup_insert_eq. congruence.
    - by rewrite lookup_insert_ne. }
  assert (Ho : forall p, owned_by_main s p -> forall b, owned_by_main (MkServer
    (set_outside w (shared s)) (next_socket s) (<[next_connection s := c]> (connections s))
    (S (next_connection s)) (webrtcConnectionList s ++ [next_connection s]) (serverSocket s)
    (httpRwBuffer s) n b (options s) (g_log s) (main s)) p).
  { intros p [K1 K2] b. split; [done|]. simpl. intros a d Ha Hd. by apply (K2 a d (Hl _ _ _ Ha Hd)). }
  constructor; simpl; eauto.
  - apply NoDup_app. split_and!; [done| |apply NoDup_singleton].
    intros a Ha ->%list_elem_of_singleton. destruct (I2 _ Ha) as [d Hd]. by apply (Hnew _ _ Hd).
  - intros a [Ha| ->%list_elem_of_singleton]%elem_of_app; rewrite lookup_insert_is_Some'; auto.
  - intros a d. destruct (decide (a = next_connection s)) as [->|]; [lia|].
    rewrite lookup_insert_ne by done. intros Ha. apply I3 in Ha. lia.
  - destruct (main s); auto.
Qed.
Lemma deliver_well p r (s : Server W) :
  server_inv s -> main s = MServe p r ->
  well (deliver_message r s) (fun s' => server_inv s' /\ main s' = MServe p r /\
    same_heap (shared s) (shared s')).
Proof.
  intros Hi Hm. unfold deliver_message.
  eapply well_bind; [apply find_peer_well, (inv_listed s Hi)|]. intros [a|] Ha; [|done].
  destruct (Ha a eq_refl) as (c & Hc & _).
  apply well_fine_bind; [unfold body_text; walk|]. intros t _.
  unfold connection_at. rewrite Hc; run. split_and!; [|done|done].
  by apply (inv_update a c).
Qed.

(** The socket changes its owner. *)
Lemma inv_hand_over a c p r (s : Server W) :
  server_inv s -> main s = MServe p r -> connections s !! a = Some c ->
  server_inv (set_main (MClose p) (set_closeWait false
    (set_connections (<[a := setOutboundSocket p c]> (connections s)) s))).
Proof.
  intros Hi Hm Ha. pose proof (inv_main s Hi) as Ho. rewrite Hm in Ho. destruct Ho as [Hp Ho].
  destruct Hi as [I1 I2 I3 I4 I5 I6 I7].
  constructor; simpl; auto.
  - intros b Hb. rewrite lookup_insert_is_Some'. auto.
  - intros b d. destruct (decide (b = a)) as [->|]; [intros _; eauto|].
    rewrite lookup_insert_ne by done. eauto.
  - intros b d q. destruct (decide (b = a)) as [->|].
    + rewrite lookup_insert_eq. intros [= <-] [= <-]. done.
    + rewrite lookup_insert_ne by done. eauto.
  - intros b1 b2 d1 d2 q. destruct (decide (b1 = a)) as [->|], (decide (b2 = a)) as [->|];
      rewrite ?lookup_insert_eq, ?lookup_insert_ne by done; intros E1 E2 E3 E4.
    + done.
    + injection E1 as <-. injection E3 as <-. by destruct (Ho b2 d2 E2).
    + injection E2 as <-. injection E4 as <-. by destruct (Ho b1 d1 E1).
    + eauto.
  - done.
Qed.

Lemma serve_well p r (s : Server W) :
  server_inv s -> main s = MServe p r ->
  well (serve p r s) (fun s' => server_inv (set_main (MClose p) s')).
Proof.
  intros Hi Hm. pose proof (inv_main s Hi) as Ho. rewrite Hm in Ho. destruct Ho as [Hp Ho].
  unfold serve.
  case_decide; [apply (with_reply_well p r); [done|done|by apply page_well]|].
  case_decide.
  { unfold signIn. destruct (Connection.connect _ _) as [c w] eqn:Ec. injection Ec as <- <-.
    apply (with_reply_well p r); [by apply inv_sign_in|done|by apply reply_well]. }
  case_decide; [by apply (inv_close p r)|].
  case_decide.
  { eapply well_bind; [by apply (deliver_well p)|]. intros s1 (K1 & K2 & K3).
    apply (with_reply_well p r); [done|done|apply reply_well; by rewrite K3]. }
  case_decide.
  { unfold register_wait.
    eapply well_bind; [apply find_peer_well, (inv_listed s Hi)|].
    intros [a|] Ha; [|by apply (inv_close p r)].
    destruct (Ha a eq_refl) as (c & Hc & _). unfold connection_at. rewrite Hc; run.
    by apply (inv_hand_over a c p r). }
  case_decide; [apply (with_reply_well p r); [done|done|by apply favicon_well]|].
  apply (with_reply_well p r); [done|done|by apply error_well].
Qed.

Lemma main_step_well (s : Server W) : server_inv s -> well (main_step s) server_inv.
Proof.
  intros Hi. unfold main_step. destruct (main s) as [|p|p r|p] eqn:Hm.
  - by apply accept_step_well.
  - by apply read_step_well.
  - unfold serve_step. eapply well_bind; [by apply serve_well|]. done.
  - unfold close_step. pose proof (inv_main s Hi) as Ho. rewrite Hm in Ho.
    destruct (closeWait s) eqn:Ec.
    + eapply well_bind; [apply delete_well; by apply Ho|]. intros sh Hsh.
      apply (owned_delete s p); auto.
    + simpl. destruct Hi as [I1 I2 I3 I4 I5 I6 I7]. constructor; simpl; auto.
Qed.

(** *** The threads of the connections *)

Lemma peer_step_well a b (s : Server W) m :
  server_inv s -> server_step (Peer a b) s = Some m -> well m server_inv.
Proof.
  intros Hi. unfold server_step. destruct (connections s !! a) as [c|] eqn:Ha; [|done].
  destruct (run_step b c (shared s)) as [x|] eqn:Hs; [|done]. intros [= <-].
  eapply well_bind; [eapply run_step_well; [|exact Hs]; intros p; by apply (inv_socket s Hi a)|].
  intros [c1 sh1] [[K1 K2]|(p & K1 & K2 & K3)]; simpl in *.
  - apply (inv_ext (set_connections (<[a := c1]> (connections s)) s)); try done.
    by apply (inv_update a c).
  - destruct Hi as [I1 I2 I3 I4 I5 I6 I7].
    assert (Hl : forall b d q, <[a := c1]> (connections s) !! b = Some d ->
      m_clientSocket d = Some q -> b <> a /\ connections s !! b = Some d /\ q <> p).
    { intros b1 d q. destruct (decide (b1 = a)) as [->|Hne].
      - rewrite lookup_insert_eq. congruence.
      - rewrite lookup_insert_ne by done. intros Hb Hd. split_and!; [done..|].
        intros ->. by destruct (Hne (I5 b1 a d c p Hb Ha Hd K1)). }
    assert (Ho : forall q, owned_by_main s q -> owned_by_main
      (set_connections (<[a := c1]> (connections s)) (set_shared sh1 s)) q).
    { intros q [O1 O2]. split; simpl.
      - rewrite K3, lookup_delete_ne; [done|]. intros ->. by apply (O2 a c).
      - intros b1 d Hb Hd. destruct (Hl b1 d q Hb Hd) as (_ & Hb' & _). by apply (O2 b1 d). }
    constructor; simpl; auto.
    + intros b1 Hb. rewrite lookup_insert_is_Some'. auto.
    + intros b1 d. destruct (decide (b1 = a)) as [->|]; [intros _; eauto|].
      rewrite lookup_insert_ne by done. eauto.
    + intros b1 d q Hb Hd. destruct (Hl b1 d q Hb Hd) as (_ & Hb' & Hq).
      rewrite K3, lookup_delete_ne by done. eauto.
    + intros b1 b2 d1 d2 q B1 B2 D1 D2. destruct (Hl b1 d1 q B1 D1) as (_ & B1' & _).
      destruct (Hl b2 d2 q B2 D2) as (_ & B2' & _). eauto.
    + intros q. rewrite K3, lookup_delete_is_Some. intros [_ Hq]. auto.
    + destruct (main s); auto.
Qed.

Lemma run_server_well l (s : Server W) :
  server_inv s -> well (run_server l s) server_inv.
Proof.
  revert s; induction l as [|who l IH]; intros s Hi; [done|]. cbn [run_server].
  destruct (server_step who s) as [m|] eqn:Hs; [|by apply IH].
  apply (well_bind m _ server_inv); [|intros; by apply IH].
  destruct who; [injection Hs as <-; by apply main_step_well|by eapply peer_step_well].
Qed.

(** The server as [main] starts it. *)
Definition initial (s : Server W) : Prop :=
  sockets (shared s) = ∅ /\ connections s = ∅ /\ webrtcConnectionList s = [] /\
  peerId s = 1 /\ closeWait s = true /\ main s = MAccept.

Lemma initial_inv (s : Server W) : initial s -> server_inv s.
Proof.
  intros (E1 & E2 & E3 & E4 & E5 & E6).
  constructor; rewrite ?E1, ?E2, ?E3, ?E6; try done.
  - constructor.
  - intros a Ha. by apply not_elem_of_nil in Ha.
  - intros p [x Hx]. by rewrite lookup_empty in Hx.
Qed.
End Invariant.
