(* ===== verification/ServerProofs.v ===== *)
(** * The server: properties *)
From Stdlib Require Import ZArith Ascii String Lia.
From stdpp Require Import base tactics list gmap sets.
From S2P Require Import Prelude CLib Http HttpProofs Options Socket Observer Connection SampleNet SocketProofs.
From S2P Require Import ConnectionProofs Server SampleServer ServerInvariant.

#[local] Open Scope Z_scope.

(** ** Receiving *)

Lemma store_at_length i d b :
  (i + length d <= length b)%nat -> length (store_at i d b) = length b.
Proof. intros. unfold store_at. rewrite !length_app, length_take, length_drop. lia. Qed.

Section Receive.
Context {W : Type} `{WinsockLaws W}.

Lemma read_laws (s : Socket) (size : Z) (w : W) :
  0 <= size ->
  let '(ret, data, w') := Socket.read s size w in ret <= size /\ length data = Z.to_nat ret.
Proof.
  intros Hs. pose proof (read_is_ok s size w Hs) as Hr. unfold read_ok in Hr.
  destruct (Socket.read s size w) as [[ret data] w']. tauto.
Qed.

Lemma receive_ends n client buffer total (w : W) :
  Z.of_nat (length buffer) = HTTP_RW_BUFFER_SIZE -> 0 <= total <= HTTP_RW_BUFFER_SIZE ->
  HTTP_RW_BUFFER_SIZE - total < Z.of_nat n ->
  exists b t w', receive_loop n client buffer total w = Ok (b, t, w') /\
    total <= t <= HTTP_RW_BUFFER_SIZE /\ length b = length buffer /\
    take (Z.to_nat total) b = take (Z.to_nat total) buffer.
Proof.
  revert buffer total w; induction n as [|n IH]; intros buffer total w Hb Ht Hn; [lia|].
  cbn [receive_loop]. pose proof (read_laws client (HTTP_RW_BUFFER_SIZE - total) w ltac:(lia)) as Hr.
  destruct (Socket.read _ _ w) as [[r d] w1]. destruct Hr as [K1 K2].
  set (b1 := store_at _ d buffer).
  assert (length b1 = length buffer) as Hb1 by (apply store_at_length; lia).
  assert (take (Z.to_nat total) b1 = take (Z.to_nat total) buffer) as Ht1.
  { unfold b1, store_at. rewrite take_app_le, take_take, Nat.min_id; [done|].
    rewrite length_take. lia. }
  destruct (Z.ltb_spec 0 r) as [Hr|Hr].
  - destruct (IH b1 (total + r) w1) as (b & t & w' & E & K3 & K4 & K5); [lia..|].
    exists b, t, w'. split_and!; [done|lia|lia|congruence|]. rewrite <- Ht1.
    rewrite <- (Nat.min_l (Z.to_nat total) (Z.to_nat (total + r))) by lia.
    rewrite <- !take_take. by rewrite K5.
  - exists b1, total, w1. split_and!; [done|lia..|done|done].
Qed.

(** The client's socket gives these pieces, one for each read into what is left of
    the buffer behind [total] bytes, and then nothing more for now. *)
Inductive arrives (client : Socket) : Z -> list bytes -> W -> W -> Prop :=
  | arrives_end total w r d w' :
      Socket.read client (HTTP_RW_BUFFER_SIZE - total) w = (r, d, w') -> r <= 0 ->
      arrives client total [] w w'
  | arrives_piece total w d w1 ds w' :
      Socket.read client (HTTP_RW_BUFFER_SIZE - total) w = (size d, d, w1) -> d <> [] ->
      arrives client (total + size d) ds w1 w' -> arrives client total (d :: ds) w w'.

(** They end up one behind the other. *)
Lemma receive_gathers client total ds (w w' : W) n buffer :
  arrives client total ds w w' ->
  Z.of_nat (length buffer) = HTTP_RW_BUFFER_SIZE -> 0 <= total <= HTTP_RW_BUFFER_SIZE ->
  HTTP_RW_BUFFER_SIZE - total < Z.of_nat n ->
  exists b, receive_loop n client buffer total w = Ok (b, total + size (concat ds), w') /\
    take (Z.to_nat (total + size (concat ds))) b = take (Z.to_nat total) buffer ++ concat ds.
Proof.
  intros Ha. revert n buffer. induction Ha as [total w r d w' E Hr|total w d w1 ds w' E Hd Ha IH];
    intros n buffer Hb Ht Hn; (destruct n as [|n]; [lia|]); cbn [receive_loop concat];
    pose proof (read_laws client (HTTP_RW_BUFFER_SIZE - total) w ltac:(lia)) as Hl; rewrite E in Hl |- *;
    destruct Hl as [K1 K2].
  - destruct (Z.ltb_spec 0 r); [lia|]. assert (d = []) as -> by (apply nil_length_inv; lia).
    eexists. unfold size. cbn [length]. rewrite Z.add_0_r. split; [done|].
    unfold store_at. cbn [app length]. rewrite Nat.add_0_r, take_drop, app_nil_r. done.
  - assert (0 < size d) as Hs by (unfold size; destruct d; [done|cbn [length]; lia]).
    destruct (Z.ltb_spec 0 (size d)); [|lia]. set (b1 := store_at _ d buffer).
    assert (length b1 = length buffer) as Hb1 by (apply store_at_length; unfold size in *; lia).
    destruct (IH n b1) as (b & E1 & E2); [lia..|]. exists b. unfold size in *. rewrite length_app.
    replace (total + Z.of_nat (length d + length (concat ds))) with (total + Z.of_nat (length d) + Z.of_nat (length (concat ds))) by lia.
    split; [done|]. rewrite E2, app_assoc. f_equal. unfold b1, store_at.
    rewrite app_assoc, take_app_length'; [done|]. rewrite length_app, length_take. lia.
Qed.

(** C17: whatever a client sends and in whatever pieces, receiving a request ends,
    stores nothing outside the 32768 bytes of the buffer, and receives at most
    32768 bytes; the NUL written behind them falls outside the buffer exactly
    when it is full. *)
Theorem receive_bounded (client : Socket) (buffer : bytes) (w : W)
    (Hbuffer : Z.of_nat (length buffer) = HTTP_RW_BUFFER_SIZE) :
  exists b total w',
    receive_loop receive_fuel client buffer 0 w = Ok (b, total, w') /\
    0 <= total <= HTTP_RW_BUFFER_SIZE /\ length b = length buffer /\
    (terminate b total = UB OutOfBounds <-> total = HTTP_RW_BUFFER_SIZE) /\
    (total < HTTP_RW_BUFFER_SIZE ->
     terminate b total = Ok (take (Z.to_nat total) b ++ NUL :: drop (Z.to_nat total + 1) b)).
Proof.
  destruct (receive_ends receive_fuel client buffer 0 w) as (b & t & w' & E & K1 & K2 & _).
  { done. } { unfold HTTP_RW_BUFFER_SIZE; lia. } { unfold receive_fuel, HTTP_RW_BUFFER_SIZE; lia. }
  exists b, t, w'. unfold terminate.
  destruct (Z.ltb_spec t HTTP_RW_BUFFER_SIZE); split_and!; try done; try lia.
  - split; [done|lia].
  - split; [lia|done].
Qed.
End Receive.

(** ** Memory safety *)

Section Safety.
Context {W : Type} `{Winsock W} `{Runtime W} `{Files W} `{!SslSetup W}.

Lemma start_initial o g b (w : W) s : start o g b w = Ok (Some s) -> initial s.
Proof.
  unfold start. destruct (SSL_CTX_new _) as [ctx w1].
  destruct (use_certificate_chain_file _ _ _) as [[] w2]; [|done].
  destruct (use_PrivateKey_file _ _ _) as [[] w3]; [|done].
  destruct (check_private_key _ _) as [[] w4]; [|done]. cbn [negb].
  intros E. apply bind_Ok_inv in E as ([[r sk] w5] & _ & E).
  destruct (Socket.bind sk w5) as [r1 w6]. destruct (Socket.listen _ _ _) as [r2 w7].
  injection E as <-. done.
Qed.

(** The faults a run must not end in. *)
Definition uses_no_deleted_object {A} (m : outcome A) : Prop :=
  match m with UB UseAfterFree => False | _ => True end.

(** C2: from its start on, whatever the clients, the peers and the system do and
    however the main thread and the connections' threads interleave, the server
    never uses or deletes a socket or a connection that was deleted; every
    registered socket exists and belongs to one connection, and the socket the
    main thread works on belongs to none. *)
Theorem server_memory_safe (o : Options) (g : Z) (buffer : bytes) (w : W) (s : Server W)
    (l : list actor) (Hstart : start o g buffer w = Ok (Some s)) :
  uses_no_deleted_object (run_server l s) /\
  forall s', run_server l s = Ok s' -> server_inv s'.
Proof.
  pose proof (run_server_well l s (initial_inv s (start_initial _ _ _ _ _ Hstart))) as Hw.
  destruct (run_server l s) as [s'|e|[]|]; split; try done. by intros s'' [= <-].
Qed.

(** Without an address ([-i]) the server does not start: [create] fails its
    assertion, after the certificate has been accepted. *)
Theorem start_needs_an_address (o : Options) (g : Z) (buffer : bytes) (w : W)
    (Hip : g_serverIp o = []) :
  start o g buffer w = UB AssertFailed \/ start o g buffer w = Ok None.
Proof.
  unfold start. destruct (SSL_CTX_new _) as [ctx w1].
  destruct (use_certificate_chain_file _ _ _) as [[] w2]; [|by right].
  destruct (use_PrivateKey_file _ _ _) as [[] w3]; [|by right].
  destruct (check_private_key _ _) as [[] w4]; [|by right]. left.
  unfold create, new_Socket; cbn [negb m_handle m_ip m_port]. by rewrite Hip.
Qed.
End Safety.

(** ** What a step changes *)

Section Effects.
Context {W : Type} `{Winsock W} `{Runtime W} `{Files W}.

(** Connections keep their ids; a new one has the next id and the next address. *)
Definition ids_step (s s' : Server W) : Prop :=
  (peerId s' = peerId s \/ peerId s' = u32 (peerId s + 1)) /\
  forall a c', connections s' !! a = Some c' ->
    (exists c, connections s !! a = Some c /\ m_peerId c' = m_peerId c) \/
    (a = next_connection s /\ m_peerId c' = peerId s /\ peerId s' = u32 (peerId s + 1)).

(** Connections keep or lose their sockets, except for [p]. *)
Definition owners_step (p : option nat) (s s' : Server W) : Prop :=
  forall a c' q, connections s' !! a = Some c' -> m_clientSocket c' = Some q ->
    p = Some q \/ exists c, connections s !! a = Some c /\ m_clientSocket c = Some q.

Record effect (p : option nat) (s s' : Server W) : Prop := {
  effect_ids : ids_step s s';
  effect_owners : owners_step p s s';
  effect_wait : closeWait s' = true -> closeWait s = true
}.

Lemma effect_same p (s s' : Server W) :
  connections s' ⊆ connections s -> peerId s' = peerId s -> closeWait s' = closeWait s ->
  effect p s s'.
Proof.
  intros E1 E2 E3. assert (forall a c, connections s' !! a = Some c -> connections s !! a = Some c)
    by (intros; by eapply lookup_weaken).
  constructor; [split; [by left|]|intros a c q Ha Hc; right|by rewrite E3]; eauto.
Qed.

Lemma effect_update p a c c' (s s' : Server W) :
  connections s !! a = Some c -> connections s' = <[a := c']> (connections s) ->
  m_peerId c' = m_peerId c ->
  (forall q, m_clientSocket c' = Some q -> p = Some q \/ m_clientSocket c = Some q) ->
  peerId s' = peerId s -> (closeWait s' = true -> closeWait s = true) -> effect p s s'.
Proof.
  intros Ha E1 Hid Hs E2 E3. constructor; [split; [by left|]| |done].
  - intros b d. rewrite E1. destruct (decide (b = a)) as [->|].
    + rewrite lookup_insert_eq. intros [= <-]. eauto.
    + rewrite lookup_insert_ne by done. eauto.
  - intros b d q. rewrite E1. destruct (decide (b = a)) as [->|].
    + rewrite lookup_insert_eq. intros [= <-] Hq. destruct (Hs q Hq); eauto.
    + rewrite lookup_insert_ne by done. eauto.
Qed.

Lemma effect_ext p (s s1 s2 : Server W) :
  effect p s s1 -> connections s2 = connections s1 -> peerId s2 = peerId s1 ->
  closeWait s2 = closeWait s1 -> effect p s s2.
Proof.
  intros [[K1 K2] K3 K4] E1 E2 E3. constructor.
  - split; [by rewrite E2|]. intros a c. rewrite E1, E2. apply K2.
  - intros a c q. rewrite E1. apply K3.
  - by rewrite E3.
Qed.

Lemma with_reply_effect p (s0 s s' : Server W) x :
  effect p s0 s -> with_reply x s = Ok s' -> effect p s0 s'.
Proof.
  intros He E. unfold with_reply in E. apply bind_Ok_inv in E as ([b sh] & _ & [= <-]).
  by apply (effect_ext p s0 s).
Qed.

Lemma effect_refl p (s : Server W) : effect p s s.
Proof. by apply effect_same. Qed.

Lemma find_peer_at l id (s : Server W) a :
  find_peer l id s = Ok (Some a) -> exists c, connections s !! a = Some c.
Proof.
  induction l as [|b l IH]; simpl; [done|]. unfold connection_at at 1.
  destruct (connections s !! b) as [c|] eqn:Hb; [|done]. run.
  destruct (_ =? _); [intros [= <-]; eauto|done].
Qed.

Lemma deliver_effect p r (s s' : Server W) : deliver_message r s = Ok s' -> effect p s s'.
Proof.
  unfold deliver_message. intros E. apply bind_Ok_inv in E as ([a|] & Ea & E).
  - apply bind_Ok_inv in E as (t & _ & E). apply bind_Ok_inv in E as (c & Ec & [= <-]).
    unfold connection_at in Ec. destruct (connections s !! a) as [d|] eqn:Ha; [|done].
    injection Ec as ->. apply (effect_update p a c (pushMessage t c)); auto.
  - injection E as <-. apply effect_refl.
Qed.

Lemma serve_effect p r (s s' : Server W) : serve p r s = Ok s' -> effect (Some p) s s'.
Proof.
  unfold serve. pose proof (effect_refl (Some p) s) as Hr.
  case_decide; [by apply with_reply_effect|]. case_decide.
  { unfold signIn. destruct (Connection.connect _ _) as [c w] eqn:Ec. injection Ec as <- <-.
    apply with_reply_effect. constructor; [split; [by right|]| |done]; simpl.
    - intros a c. destruct (decide (a = next_connection s)) as [->|].
      + rewrite lookup_insert_eq. intros [= <-]. right. done.
      + rewrite lookup_insert_ne by done. eauto.
    - intros a c q. simpl. destruct (decide (a = next_connection s)) as [->|].
      + rewrite lookup_insert_eq. by intros [= <-].
      + rewrite lookup_insert_ne by done. eauto. }
  case_decide; [by intros [= <-]|]. case_decide.
  { intros E. apply bind_Ok_inv in E as (s1 & E1 & E). apply deliver_effect with (p := Some p) in E1.
    by apply (with_reply_effect _ _ _ _ _ E1 E). }
  case_decide.
  { unfold register_wait. intros E. apply bind_Ok_inv in E as ([a|] & Ea & E).
    - apply bind_Ok_inv in E as (c & Ec & [= <-]).
      unfold connection_at in Ec. destruct (connections s !! a) as [d|] eqn:Ha; [|done].
      injection Ec as ->. apply (effect_update (Some p) a c (setOutboundSocket p c)); auto; by simpl.
    - by injection E as <-. }
  case_decide; by apply with_reply_effect.
Qed.

Lemma run_step_id b (c : WebrtcConnection W) sh c' sh' :
  run_step b c sh = Some (Ok (c', sh')) -> m_peerId c' = m_peerId c.
Proof.
  unfold run_step. destruct (m_thread c) as [| |pc o t|]; try done; [by intros [= <- <-]|].
  destruct pc as [| |message| | | |].
  - by intros [= <- <-].
  - destruct b; [by intros [= <- <-]|]. destruct (MessageQueue.dequeue _) as [[x|] q]; [|done].
    by intros [= <- <-].
  - intros [= E]. by apply bind_Ok_inv in E as ([o1 w1] & _ & [= <- <-]).
  - intros [= E]. apply bind_Ok_inv in E as ([[[r o1] c1] sh1] & E1 & [= <- <-]).
    destruct (send_step_inv _ _ _ _ _ _ _ E1) as
      [(_ & _ & -> & _)|(p & m & q & _ & _ & _ & _ & -> & _)]; done.
  - intros [= <- <-]. by destruct (ice_step _ _ _).
  - intros [= E]. destruct (ProcessMessages _ _) as [es w1].
    by apply bind_Ok_inv in E as ([o1 w2] & _ & [= <- <-]).
  - by intros [= <- <-].
Qed.

(** The socket the main thread serves. *)
Definition serving (s : Server W) : option nat :=
  match main s with MServe p _ => Some p | _ => None end.

Lemma step_effect who (s s' : Server W) :
  server_inv s -> server_step who s = Some (Ok s') -> effect (serving s) s s'.
Proof.
  intros Hi. destruct who as [|a b]; simpl.
  - intros [= E]. unfold main_step in E. unfold serving. destruct (main s) as [|p|p r|p] eqn:Hm.
    + unfold accept_step in E. destruct (accept _ _) as [[t|] w1].
      * injection E as <-. by apply effect_same.
      * apply bind_Ok_inv in E as ([[l cs] w2] & E1 & [= <-]).
        pose proof (cleanup_well _ _ (outside (shared (set_shared (set_outside w1 (shared s)) s)))
          (inv_list s Hi) (inv_listed s Hi)) as Hc. simpl in E1, Hc. rewrite E1 in Hc.
        by apply effect_same; [apply Hc|..].
    + unfold read_step in E. apply bind_Ok_inv in E as (c & _ & E).
      apply bind_Ok_inv in E as ([[b n] w1] & _ & E). apply bind_Ok_inv in E as (b2 & _ & E).
      apply bind_Ok_inv in E as ([ok r] & _ & E). destruct ok; simpl in E.
      * injection E as <-. by apply effect_same.
      * apply bind_Ok_inv in E as (sh & _ & [= <-]). by apply effect_same.
    + unfold serve_step in E. apply bind_Ok_inv in E as (s1 & E1 & [= <-]).
      by apply (effect_ext _ s s1); [apply (serve_effect p r)|..].
    + unfold close_step in E. apply bind_Ok_inv in E as (sh & _ & [= <-]). by apply effect_same.
  - destruct (connections s !! a) as [c|] eqn:Ha; [|done].
    destruct (run_step b c (shared s)) as [m|] eqn:Hs; [|done]. intros [= E].
    apply bind_Ok_inv in E as ([c1 sh1] & -> & [= <-]).
    assert (run_effect c (shared s) (c1, sh1)) as Hr.
    { apply (run_step_well b c (shared s) (Ok (c1, sh1))); [|done]. intros p. by apply (inv_socket s Hi a). }
    apply (effect_update _ a c c1); try done; [by eapply run_step_id|].
    intros q Hq. destruct Hr as [[Hr _]|(p & _ & Hr & _)]; simpl in Hr; [right|]; congruence.
Qed.

(** *** Peer ids *)

(** The ids given so far are below the counter, and no two are equal. *)
Record ids_inv (s : Server W) : Prop := {
  ids_below : forall a c, connections s !! a = Some c -> 1 <= m_peerId c < peerId s;
  ids_distinct : forall a b c d, connections s !! a = Some c -> connections s !! b = Some d ->
                 m_peerId c = m_peerId d -> a = b
}.

Lemma ids_step_inv (s s' : Server W) :
  ids_step s s' -> 1 <= peerId s < 2 ^ 32 - 1 -> ids_inv s ->
  ids_inv s' /\ peerId s <= peerId s' <= peerId s + 1.
Proof.
  intros [Hn Hc] Hb [K1 K2].
  assert (u32 (peerId s + 1) = peerId s + 1) as Hu by (apply u32_small; lia).
  rewrite Hu in Hn. split; [|destruct Hn; lia]. constructor.
  - intros a c' Ha. destruct (Hc a c' Ha) as [(c & Q1 & ->)|(_ & -> & ->)]; [|lia].
    pose proof (K1 a c Q1). destruct Hn; lia.
  - intros a b c' d' Ha Hb' E.
    destruct (Hc a c' Ha) as [(c & Q1 & E1)|(-> & E1 & _)],
      (Hc b d' Hb') as [(d & Q2 & E2)|(-> & E2 & _)]; [|exfalso..|done].
    + apply (K2 a b c d); congruence.
    + pose proof (K1 a c Q1). lia.
    + pose proof (K1 b d Q2). lia.
Qed.

(** The first step of a run. *)
Lemma run_server_cons who l (s s' : Server W) :
  server_inv s -> run_server (who :: l) s = Ok s' ->
  exists s1, (s1 = s \/ server_step who s = Some (Ok s1)) /\ server_inv s1 /\ run_server l s1 = Ok s'.
Proof.
  intros Hi E. pose proof (run_server_well [who] s Hi) as Hw. simpl in E, Hw.
  destruct (server_step who s) as [m|]; [|by exists s; auto].
  apply bind_Ok_inv in E as (s1 & -> & E). exists s1. auto.
Qed.

Lemma run_ids l (s s' : Server W) :
  server_inv s -> ids_inv s -> 1 <= peerId s -> peerId s + Z.of_nat (length l) < 2 ^ 32 ->
  run_server l s = Ok s' -> ids_inv s'.
Proof.
  revert s; induction l as [|who l IH]; intros s Hi Hids Hp Hl E; [by injection E as <-|].
  cbn [length] in Hl. apply run_server_cons in E as (s1 & [->|Hs] & Hi1 & E); [| |done].
  { apply (IH s); auto; lia. }
  destruct (ids_step_inv s s1 (effect_ids _ _ _ (step_effect who s s1 Hi Hs))) as [K1 K2]; [lia|done|].
  apply (IH s1); auto; lia.
Qed.

(** *** Lost sockets *)

(** The socket [q] exists, and nobody will close it: no connection has it, and
    the main thread does not work on it or does not close any more. *)
Record lost (q : nat) (t : Socket) (s : Server W) : Prop := {
  lost_open : sockets (shared s) !! q = Some t;
  lost_wait : closeWait s = false;
  lost_owner : forall a c, connections s !! a = Some c -> m_clientSocket c <> Some q;
  lost_main : match main s with MRead p | MServe p _ => p <> q | _ => True end
}.

(** A reply leaves the sockets alone. *)
Lemma with_reply_heap x (s s' : Server W) :
  well x (fun x => same_heap (shared s) x.2) -> with_reply x s = Ok s' ->
  sockets (shared s') = sockets (shared s).
Proof.
  intros Hx E. unfold with_reply in E. apply bind_Ok_inv in E as ([b sh] & -> & [= <-]). apply Hx.
Qed.

Lemma deliver_heap r (s s' : Server W) : deliver_message r s = Ok s' -> shared s' = shared s.
Proof.
  unfold deliver_message. intros E. apply bind_Ok_inv in E as ([a|] & _ & E); [|by injection E as <-].
  apply bind_Ok_inv in E as (t & _ & E). by apply bind_Ok_inv in E as (c & _ & [= <-]).
Qed.

Lemma serve_heap p r (s s' : Server W) :
  is_Some (sockets (shared s) !! p) -> serve p r s = Ok s' -> sockets (shared s') = sockets (shared s).
Proof.
  intros Hp. unfold serve.
  case_decide; [by apply with_reply_heap, page_well|].
  case_decide.
  { unfold signIn. destruct (Connection.connect _ _) as [c w].
    intros E. apply with_reply_heap in E; [done|by apply reply_well]. }
  case_decide; [by intros [= <-]|]. case_decide.
  { intros E. apply bind_Ok_inv in E as (s1 & E1 & E). apply deliver_heap in E1.
    rewrite <- E1. rewrite <- E1 in Hp. apply with_reply_heap in E; [done|by apply reply_well]. }
  case_decide.
  { unfold register_wait. intros E. apply bind_Ok_inv in E as ([a|] & _ & E); [|by injection E as <-].
    by apply bind_Ok_inv in E as (c & _ & [= <-]). }
  case_decide; [by apply with_reply_heap, favicon_well|by apply with_reply_heap, error_well].
Qed.

Lemma lost_main_step q t (s s' : Server W) :
  server_inv s -> lost q t s -> main_step s = Ok s' ->
  sockets (shared s') !! q = Some t /\ match main s' with MRead p | MServe p _ => p <> q | _ => True end.
Proof.
  intros Hi [L1 L2 L3 L4] E. unfold main_step in E. pose proof (inv_main s Hi) as Hm.
  destruct (main s) as [|p|p r|p] eqn:Em.
  - unfold accept_step in E. destruct (accept _ _) as [[x|] w1].
    + injection E as <-. simpl. pose proof (inv_fresh s Hi q ltac:(eauto)).
      split; [rewrite lookup_insert_ne by lia; done|lia].
    + apply bind_Ok_inv in E as ([[l cs] w2] & _ & [= <-]). simpl. by rewrite Em.
  - unfold read_step in E. apply bind_Ok_inv in E as (c & _ & E).
    apply bind_Ok_inv in E as ([[b n] w1] & _ & E). apply bind_Ok_inv in E as (b2 & _ & E).
    apply bind_Ok_inv in E as ([ok r] & _ & E). destruct ok; cbn [negb] in E.
    + injection E as <-. done.
    + apply bind_Ok_inv in E as (sh & E & [= <-]). simpl. split; [|done].
        change (delete_at p (set_outside w1 (shared s)) = Ok sh) in E.
      unfold delete_at, deref in E. simpl in E. destruct (sockets (shared s) !! p); [|done].
      injection E as <-. simpl. by rewrite lookup_delete_ne.
  - unfold serve_step in E. apply bind_Ok_inv in E as (s1 & E & [= <-]). simpl.
    by rewrite (serve_heap p r s s1 (proj1 Hm) E).
  - unfold close_step in E. rewrite L2 in E. injection E as <-. done.
Qed.

Lemma lost_step q t who (s s' : Server W) :
  server_inv s -> lost q t s -> server_step who s = Some (Ok s') -> lost q t s'.
Proof.
  intros Hi Hl Hs. pose proof (step_effect who s s' Hi Hs) as [_ He Hw].
  destruct Hl as [L1 L2 L3 L4]. pose proof (Build_lost q t s L1 L2 L3 L4) as Hl.
  assert (sockets (shared s') !! q = Some t /\
    match main s' with MRead p | MServe p _ => p <> q | _ => True end) as [K1 K2].
  { destruct who as [|a b]; simpl in Hs.
    - injection Hs as Hs. by apply (lost_main_step q t s).
    - destruct (connections s !! a) as [c|] eqn:Ha; [|done].
      destruct (run_step b c (shared s)) as [m|] eqn:Hr; [|done]. injection Hs as Hs.
      apply bind_Ok_inv in Hs as ([c1 sh1] & -> & [= <-]). simpl. split; [|done].
      pose proof (run_step_well b c (shared s) _ (fun p => inv_socket s Hi a c p Ha) Hr) as Hx.
      destruct Hx as [[_ Hx]|(p & Hp & _ & Hx)]; simpl in Hx; rewrite Hx; [done|].
      rewrite lookup_delete_ne; [done|]. intros ->. by apply (L3 a c). }
  constructor; [done| |intros a c Ha Hc|done].
  - destruct (closeWait s'); [|done]. by rewrite Hw in L2.
  - destruct (He a c q Ha Hc) as [Hq|(d & Hd & Hq)]; [|by apply (L3 a d)].
    unfold serving in Hq. destruct (main s); try done. congruence.
Qed.

Lemma run_lost q t l (s s' : Server W) :
  server_inv s -> lost q t s -> run_server l s = Ok s' -> lost q t s'.
Proof.
  revert s; induction l as [|who l IH]; intros s Hi Hl E; [by injection E as <-|].
  apply run_server_cons in E as (s1 & [->|Hs] & Hi1 & E); [by eauto| |done].
  apply (IH s1); [done| |done]. by apply (lost_step q t who s).
Qed.
End Effects.

(** ** Cleaning up *)

Lemma filter_same {A} (f g : A -> bool) (l : list A) :
  (forall x, x ∈ l -> f x = g x) ->
  filter (fun x => f x = false) l = filter (fun x => g x = false) l.
Proof.
  induction l as [|x l IH]; intros E; [done|]. rewrite !filter_cons, (E x) by left.
  rewrite IH by (intros; apply E; by right). done.
Qed.

Section Cleanup.
Context {W : Type} `{Winsock W} `{Runtime W} `{Files W}.

(** The connection at an address has ended. *)
Definition ended (cs : gmap nat (WebrtcConnection W)) (a : nat) : bool :=
  match cs !! a with
  | Some c => bool_decide (getState c = CONNECTION_STATE_END)
  | None => false
  end.

Lemma ended_ext (cs cs' : gmap nat (WebrtcConnection W)) a :
  cs' !! a = cs !! a -> ended cs' a = ended cs a.
Proof. unfold ended. by intros ->. Qed.

Lemma cleanup_spec l (cs : gmap nat (WebrtcConnection W)) (w : W) :
  NoDup l -> (forall a, a ∈ l -> is_Some (cs !! a)) ->
  exists cs' w', cleanup l cs w = Ok (filter (fun a => ended cs a = false) l, cs', w') /\
    forall a, cs' !! a = if decide (a ∈ l /\ ended cs a = true) then None else cs !! a.
Proof.
  revert cs w; induction l as [|a l IH]; intros cs w Hn Hl; cbn [cleanup].
  { by exists cs, w. }
  apply NoDup_cons in Hn as [Ha Hn].
  destruct (Hl a ltac:(left)) as [c Hc]. rewrite Hc.
  assert (Hrest : forall b, b ∈ l -> is_Some (cs !! b)) by (intros; apply Hl; by right).
  assert (ended cs a = bool_decide (getState c = CONNECTION_STATE_END)) as He by (unfold ended; by rewrite Hc).
  case_decide as Hs.
  - rewrite bool_decide_true in He by done.
    assert (Hsame : forall b, b ∈ l -> delete a cs !! b = cs !! b)
      by (intros; apply lookup_delete_ne; congruence).
    destruct (IH (delete a cs) (disconnect c w).2 Hn) as (cs' & w' & E & Hcs').
    { intros b Hb. rewrite Hsame by done. auto. }
    exists cs', w'. unfold disconnect in *; simpl in E. rewrite E. split.
    + rewrite (filter_cons_False _ a) by congruence. do 3 f_equal.
      apply filter_same. intros b Hb. by rewrite (ended_ext cs (delete a cs) b (Hsame b Hb)).
    + intros b. rewrite Hcs'. destruct (decide (b = a)) as [->|Hba].
      * rewrite (decide_False (P := a ∈ l /\ _)) by tauto.
        rewrite decide_True by (split; [left|done]). apply lookup_delete_eq.
      * rewrite lookup_delete_ne by done.
        rewrite (ended_ext cs (delete a cs) b) by (by rewrite lookup_delete_ne).
        apply decide_ext. rewrite elem_of_cons. tauto.
  - rewrite bool_decide_false in He by done.
    destruct (IH cs w Hn Hrest) as (cs' & w' & -> & Hcs'). run. exists cs', w'. split.
    + by rewrite filter_cons_True.
    + intros b. rewrite Hcs'. apply decide_ext. rewrite elem_of_cons.
      split; [tauto|]. intros [[->|Hb] Hx]; [congruence|done].
Qed.
End Cleanup.

(** ** Properties of runs *)

Section Runs.
Context {W : Type} `{Winsock W} `{Runtime W} `{Files W} `{!SslSetup W}.

Lemma run_inv o g b (w : W) s l s' :
  start o g b w = Ok (Some s) -> run_server l s = Ok s' -> server_inv s'.
Proof.
  intros Hs E. pose proof (run_server_well l s (initial_inv s (start_initial _ _ _ _ _ Hs))) as Hw.
  by rewrite E in Hw.
Qed.

(** C20: no two connections have the same peer id, in any run of fewer than
    2^32 - 1 steps (after 2^32 sign-ins the counter wraps around). *)
Theorem peer_ids_unique (o : Options.Options) (g : Z) (buffer : bytes) (w : W) (s s' : Server W)
    (l : list actor) (a b : nat) (c d : WebrtcConnection W)
    (Hstart : start o g buffer w = Ok (Some s)) (Hrun : run_server l s = Ok s')
    (Hlength : Z.of_nat (length l) < 2 ^ 32 - 1)
    (Ha : connections s' !! a = Some c) (Hb : connections s' !! b = Some d)
    (Hid : Connection.getPeerId c = Connection.getPeerId d) : a = b.
Proof.
  pose proof (start_initial _ _ _ _ _ Hstart) as Hi.
  assert (ids_inv s') as [_ Hd]; [|by apply (Hd a b c d)].
  apply (run_ids l s); [by apply initial_inv| |..|done].
  - destruct Hi as (_ & E & _). by constructor; intros ?; rewrite E.
  - destruct Hi as (_ & _ & _ & -> & _). lia.
  - destruct Hi as (_ & _ & _ & -> & _). lia.
Qed.

(** C21: once a wait request has found its peer, the server closes no socket any
    more but those that wait for messages: the socket of every request served
    later stays open for the rest of the run, with no connection to close it. *)
Theorem served_sockets_leak (o : Options.Options) (g : Z) (buffer : bytes) (w : W)
    (s0 s s' : Server W) (l0 l : list actor) (q : nat) (t : Socket)
    (Hstart : start o g buffer w = Ok (Some s0)) (Hrun0 : run_server l0 s0 = Ok s)
    (Hwait : closeWait s = false) (Hserved : main s = MClose q)
    (Hopen : sockets (shared s) !! q = Some t)
    (Howner : forall a c, connections s !! a = Some c -> m_clientSocket c <> Some q)
    (Hrun : run_server l s = Ok s') :
  sockets (shared s') !! q = Some t /\
  forall a c, connections s' !! a = Some c -> m_clientSocket c <> Some q.
Proof.
  assert (lost q t s') as [K1 _ K2 _]; [|done].
  apply (run_lost q t l s); [by eapply run_inv| |done]. by constructor; rewrite ?Hserved.
Qed.

(** C22: when no client comes in time, the server deletes exactly the connections
    of its list that have ended, keeps the others in their order, and closes no
    socket. *)
Theorem cleanup_removes_ended (o : Options.Options) (g : Z) (buffer : bytes) (w w1 : W)
    (s0 s : Server W) (l0 : list actor)
    (Hstart : start o g buffer w = Ok (Some s0)) (Hrun0 : run_server l0 s0 = Ok s)
    (Hnone : accept (serverSocket s) (outside (shared s)) = (None, w1)) :
  exists s', accept_step s = Ok s' /\
    webrtcConnectionList s' = filter (fun a => ended (connections s) a = false) (webrtcConnectionList s) /\
    (forall a, connections s' !! a =
       if decide (a ∈ webrtcConnectionList s /\ ended (connections s) a = true) then None
       else connections s !! a) /\
    sockets (shared s') = sockets (shared s).
Proof.
  destruct (run_inv _ _ _ _ _ _ _ Hstart Hrun0) as [I1 I2 _ _ _ _ _].
  destruct (cleanup_spec (webrtcConnectionList s) (connections s) w1 I1 I2) as (cs & w2 & E & Hcs).
  unfold accept_step. rewrite Hnone. cbn [set_shared outside shared set_outside webrtcConnectionList connections].
  rewrite E. run. eexists. split; [reflexivity|]. done.
Qed.
End Runs.

(** ** Witnesses *)

Lemma receive_bounded_witness :
  Z.of_nat (length sample_buffer) = HTTP_RW_BUFFER_SIZE /\
  exists b total w',
    receive_loop receive_fuel (MkSocket None None 4 [] 0) sample_buffer 0 sample_net = Ok (b, total, w') /\
    0 <= total <= HTTP_RW_BUFFER_SIZE /\ length b = length sample_buffer /\
    (terminate b total = UB OutOfBounds <-> total = HTTP_RW_BUFFER_SIZE) /\
    (total < HTTP_RW_BUFFER_SIZE ->
     terminate b total = Ok (take (Z.to_nat total) b ++ NUL :: drop (Z.to_nat total + 1) b)).
Proof.
  assert (Z.of_nat (length sample_buffer) = HTTP_RW_BUFFER_SIZE) as E
    by (unfold sample_buffer, HTTP_RW_BUFFER_SIZE; rewrite repeat_length; lia).
  split; [exact E|]. apply (receive_bounded (MkSocket None None 4 [] 0) sample_buffer sample_net E).
Defined.

Lemma start_needs_an_address_witness :
  let o := Options.MkOptions [] 4433 (bs "server.pem") in
  start o 0 [] sample_world = UB AssertFailed \/ start o 0 [] sample_world = Ok None.
Proof. intros o. apply (start_needs_an_address o 0 [] sample_world). reflexivity. Defined.

Lemma server_memory_safe_witness :
  start sample_options 0 sample_buffer sample_world = Ok (Some sample_server) /\
  uses_no_deleted_object (run_server [Main; Main] sample_server) /\
  forall s', run_server [Main; Main] sample_server = Ok s' -> server_inv s'.
Proof.
  split; [exact sample_start|].
  apply (server_memory_safe sample_options 0 sample_buffer sample_world sample_server); exact sample_start.
Defined.

(** The three clients are served; the last one's socket stays open. *)
Definition sample_rounds (n : nat) : list actor := replicate n Main.

Lemma sample_run n :
  bool_decide (n <= 12)%nat = true ->
  run_server (sample_rounds n) sample_server = Ok (after (sample_rounds n) sample_server).
Proof.
  intros Hn%bool_decide_eq_true. apply after_ok.
  do 13 (destruct n as [|n]; [vm_compute; reflexivity|]). lia.
Qed.

Lemma peer_ids_unique_witness :
  exists s' c, run_server (sample_rounds 4) sample_server = Ok s' /\
    connections s' !! 0%nat = Some c /\ 0%nat = 0%nat.
Proof.
  assert (match connections (after (sample_rounds 4) sample_server) !! 0%nat with
          | Some _ => true | None => false end = true) as Hc by (vm_compute; reflexivity).
  exists (after (sample_rounds 4) sample_server).
  destruct (connections (after (sample_rounds 4) sample_server) !! 0%nat) as [c|] eqn:Ec; [|discriminate Hc].
  exists c. split; [exact (sample_run 4 eq_refl)|]. split; [reflexivity|].
  apply (peer_ids_unique sample_options 0 sample_buffer sample_world sample_server
           (after (sample_rounds 4) sample_server) (sample_rounds 4) 0 0 c c sample_start
           (sample_run 4 eq_refl)); [reflexivity|exact Ec|exact Ec|reflexivity].
Defined.

Definition sample_served : Server Net := after (sample_rounds 11) sample_server.

Lemma sample_owners a c : connections sample_served !! a = Some c -> m_clientSocket c <> Some 2%nat.
Proof.
  assert (bool_decide (map_Forall (fun _ c => m_clientSocket c <> Some 2%nat) (connections sample_served))
          = true) as Hf by (vm_compute; reflexivity).
  apply bool_decide_eq_true in Hf. by intros Ha%Hf.
Qed.

Lemma served_sockets_leak_witness :
  exists s' t, run_server [Main; Peer 0 true; Main] sample_served = Ok s' /\
    sockets (shared s') !! 2%nat = Some t /\
    forall a c, connections s' !! a = Some c -> m_clientSocket c <> Some 2%nat.
Proof.
  assert (match sockets (shared sample_served) !! 2%nat with Some _ => true | None => false end = true)
    as Ht by (vm_compute; reflexivity).
  destruct (sockets (shared sample_served) !! 2%nat) as [t|] eqn:Et; [|discriminate Ht].
  assert (run_server [Main; Peer 0 true; Main] sample_served
          = Ok (after [Main; Peer 0 true; Main] sample_served)) as E by (apply after_ok; vm_compute; reflexivity).
  exists (after [Main; Peer 0 true; Main] sample_served), t. split; [exact E|].
  apply (served_sockets_leak sample_options 0 sample_buffer sample_world sample_server sample_served
           (after [Main; Peer 0 true; Main] sample_served) (sample_rounds 11) [Main; Peer 0 true; Main] 2 t
           sample_start (sample_run 11 eq_refl)).
  - vm_compute; reflexivity.
  - vm_compute; reflexivity.
  - exact Et.
  - exact sample_owners.
  - exact E.
Defined.

Lemma cleanup_removes_ended_witness :
  exists w1 s', accept (serverSocket (after (sample_rounds 12) sample_server))
      (outside (shared (after (sample_rounds 12) sample_server))) = (None, w1) /\
    accept_step (after (sample_rounds 12) sample_server) = Ok s' /\
    webrtcConnectionList s' =
      filter (fun a => ended (connections (after (sample_rounds 12) sample_server)) a = false)
        (webrtcConnectionList (after (sample_rounds 12) sample_server)) /\
    (forall a, connections s' !! a =
       if decide (a ∈ webrtcConnectionList (after (sample_rounds 12) sample_server) /\
                  ended (connections (after (sample_rounds 12) sample_server)) a = true) then None
       else connections (after (sample_rounds 12) sample_server) !! a) /\
    sockets (shared s') = sockets (shared (after (sample_rounds 12) sample_server)).
Proof.
  set (s := after (sample_rounds 12) sample_server).
  assert (match (accept (serverSocket s) (outside (shared s))).1 with None => true | Some _ => false end
          = true) as Ha by (vm_compute; reflexivity).
  destruct (accept (serverSocket s) (outside (shared s))) as [[t|] w1] eqn:E; [discriminate Ha|].
  exists w1.
  destruct (cleanup_removes_ended sample_options 0 sample_buffer sample_world w1 sample_server s
           (sample_rounds 12) sample_start (sample_run 12 eq_refl) E) as (s' & K).
  exists s'. split; [reflexivity|exact K].
Defined.
