(* ===== verification/Delivery.v ===== *)
(** * From a client's bytes to a peer's queue

    What the replies of server.cpp write, and the way of a message: received in
    pieces, parsed, and put into the queue of the connection its [Pragma] names. *)
From Stdlib Require Import ZArith Ascii String Lia.
From stdpp Require Import base tactics list gmap sets.
From S2P Require Import Prelude CLib Http HttpProofs Options Socket Observer Connection SampleNet SocketProofs.
From S2P Require Import ConnectionProofs Server SampleServer ServerInvariant ServerProofs.

#[local] Open Scope Z_scope.

(** ** Headers *)

(** The complete header of [sendReply], [sendReplyPage] and [sendReplyFavicon]. *)
Definition reply_header (org : bytes) (prag n : Z) : bytes :=
  bs "HTTP/1.1 200 OK" ++ CRLF ++ bs "Connection: close" ++ CRLF
  ++ bs "Server: WebRTC Reflector" ++ CRLF ++ bs "Origin: " ++ cstr org ++ CRLF
  ++ bs "Content-Type: text/plain" ++ CRLF ++ bs "Accept-Ranges: none" ++ CRLF
  ++ bs "Pragma: " ++ dec_unsigned prag ++ CRLF ++ bs "Cache-Control: no-store" ++ CRLF
  ++ bs "Content-Length: " ++ dec_unsigned n ++ CRLF ++ CRLF.

Definition page_header (mime : bytes) (n : Z) : bytes :=
  bs "HTTP/1.1 200 OK" ++ CRLF ++ bs "Connection: close" ++ CRLF
  ++ bs "Server: WebRTC Reflector" ++ CRLF ++ bs "Content-Type: " ++ cstr mime ++ CRLF
  ++ bs "Accept-Ranges: none" ++ CRLF ++ bs "Cache-Control: no-store" ++ CRLF
  ++ bs "Content-Length: " ++ dec_unsigned n ++ CRLF ++ CRLF.

(** The room the array leaves for a header. *)
Definition header_room : nat := 1022.

Lemma print_reply_header org prag n :
  0 <= prag < 2 ^ 32 -> 0 <= n <= INT_MAX ->
  snprintf (HTTP_HEADER_SIZE_MAX - 1) reply_header_format
    [AStr HTTP_SERVER_NAME; AStr org; AInt prag; AInt n]
  = Ok (take header_room (reply_header org prag n)).
Proof.
  intros Hp Hn. unfold reply_header. rewrite <- (dec_nonneg prag), <- (dec_nonneg n) by lia.
  rewrite <- (u32_small prag) at 2 by done.
  rewrite <- (i32_small n) at 2 by (unfold INT_MIN, INT_MAX in *; lia). reflexivity.
Qed.

Lemma print_page_header mime n :
  0 <= n <= INT_MAX ->
  snprintf (HTTP_HEADER_SIZE_MAX - 1) page_header_format [AStr HTTP_SERVER_NAME; AStr mime; AInt n]
  = Ok (take header_room (page_header mime n)).
Proof.
  intros Hn. unfold page_header. rewrite <- (dec_nonneg n) by lia.
  rewrite <- (i32_small n) at 2 by (unfold INT_MIN, INT_MAX in *; lia). reflexivity.
Qed.

Lemma take_whole {A} n (l : list A) : take n l = l <-> (length l <= n)%nat.
Proof.
  split; [|apply take_ge]. intros E%(f_equal length). rewrite length_take in E. lia.
Qed.

Lemma reply_header_length org prag n :
  length (reply_header org prag n)
  = (174 + length (cstr org) + length (dec_unsigned prag) + length (dec_unsigned n))%nat.
Proof. unfold reply_header. bs_length. lia. Qed.

(** ** Replies *)

Section Replies.
Context {W : Type} `{Winsock W} `{Runtime W} `{Files W}.

(** Writes pieces to a socket and leaves the header in the buffer. *)
Definition respond (p : nat) (pieces : list bytes) (header b : bytes) (sh : Shared W)
  : outcome (bytes * Shared W) :=
  sh ← write_all p pieces sh; Ok (print_into b header, sh).

Lemma respond_two p h d (b : bytes) (sh : Shared W) :
  (sh ← write_to p h sh; sh ← write_to p d sh; Ok (print_into b h, sh)) = respond p [h; d] h b sh.
Proof.
  unfold respond, write_all. simpl. destruct (write_to p h sh) as [sh1| | |]; [|done..]. simpl.
  by destruct (write_to p d sh1).
Qed.

(** What [sendReply] writes: its header, then the data when there are any. *)
Lemma sendReply_writes p r d (b : bytes) (sh : Shared W) :
  0 <= pragma r < 2 ^ 32 -> size d <= INT_MAX ->
  let header := take header_room (reply_header (origin r) (pragma r) (size d)) in
  sendReply p r d b sh
  = respond p (header :: (if bool_decide (d = []) then [] else [d])) header b sh.
Proof.
  intros Hp Hd header. unfold sendReply. rewrite print_reply_header by (unfold size in *; lia || done). run.
  fold header. unfold respond, write_all. destruct d as [|x d]; simpl.
  - by destruct (write_to p header sh).
  - destruct (write_to p header sh) as [sh1| | |]; [|done..]. simpl.
    by destruct (write_to p (x :: d) sh1).
Qed.

(** C36: [sendReply] writes its header, then the data when there are any; the
    header's fields echo the request's origin and pragma and give the length of
    the data; what does not fit its 1022 bytes is cut off, so the header is
    complete exactly when the origin is short enough. *)
Theorem sendReply_correct (p : nat) (r : HttpReq_t) (d b : bytes) (sh : Shared W)
    (Hpragma : 0 <= pragma r < 2 ^ 32) (Hsize : size d <= INT_MAX) :
  let whole := reply_header (origin r) (pragma r) (size d) in
  let header := take header_room whole in
  sendReply p r d b sh
  = respond p (header :: (if bool_decide (d = []) then [] else [d])) header b sh /\
  (header = whole <-> (length (cstr (origin r)) + length (dec_unsigned (pragma r))
                       + length (dec_unsigned (size d)) <= 848)%nat).
Proof.
  intros whole header. split; [by apply sendReply_writes|].
  unfold header. rewrite take_whole. unfold whole. rewrite reply_header_length.
  unfold header_room. lia.
Qed.

(** A reply without data to an open socket. *)
Lemma reply_written p t r (b : bytes) (sh : Shared W) :
  sockets sh !! p = Some t -> 0 <= pragma r < 2 ^ 32 ->
  let header := take header_room (reply_header (origin r) (pragma r) 0) in
  sendReply p r [] b sh
  = Ok (print_into b header, set_outside (Socket.write t header (outside sh)).2 sh).
Proof.
  intros Ht Hp header. rewrite sendReply_writes by done. unfold respond, write_all, write_to, deref.
  simpl. by rewrite Ht.
Qed.

(** *** The icon *)

(** Every 4096th byte, as long as whole blocks are left. *)
Lemma favicon_loop_spec fuel content acc :
  (length content < fuel)%nat ->
  exists t, favicon_loop fuel content acc = Ok (acc ++ t) /\
    Z.of_nat (length t) = size content / 4096 /\
    forall i, (i < length t)%nat -> t !! i = content !! (4096 * i)%nat.
Proof.
  revert content acc; induction fuel as [|fuel IH]; intros content acc Hf; [lia|].
  cbn [favicon_loop]. destruct (Z.leb_spec 4096 (size content)) as [Hs|Hs].
  - unfold size in *. assert (length (drop 4096 content) = (length content - 4096)%nat) as Hd
      by apply length_drop.
    destruct (IH (drop 4096 content) (acc ++ take 1 content)) as (t & E & K1 & K2); [lia|].
    destruct content as [|x content]; [simpl in *; lia|].
    exists (x :: t). split_and!.
    + rewrite E, <- app_assoc. done.
    + cbn [length] in *. rewrite Nat2Z.inj_succ, K1, Hd.
      replace (Z.of_nat (S (length content) - 4096)) with (Z.of_nat (S (length content)) + (-1) * 4096) by lia.
      rewrite Z.div_add by lia. lia.
    + intros [|i] Hi; [by rewrite Nat.mul_0_r|]. cbn [length] in Hi.
      rewrite lookup_cons_ne_0 by done. cbn [pred]. rewrite K2 by lia. rewrite lookup_drop.
      f_equal. lia.
  - exists []. rewrite app_nil_r. split_and!; [done| |simpl; lia].
    rewrite Z.div_small by (unfold size in *; lia). done.
Qed.

(** C38: the icon is answered with one byte of each whole block of 4096 bytes of
    the file, the block's first one, and a length to match: a file of [n] bytes
    gives a body of [n / 4096] bytes. *)
Theorem favicon_keeps_one_byte_per_block (p : nat) (f mime content b : bytes) (sh : Shared W)
    (Hopen : read_file f (outside sh) = Some content)
    (Hstat : stat_size f (outside sh) = Some (size content))
    (Hsize : 0 < size content <= INT_MAX) :
  exists body,
    sendReplyFavicon p f mime b sh
    = respond p [take header_room (page_header mime (size body)); body]
        (take header_room (page_header mime (size body))) b sh /\
    size body = size content / 4096 /\
    forall i, (i < length body)%nat -> body !! i = content !! (4096 * i)%nat.
Proof.
  destruct (favicon_loop_spec (S (length content)) content []) as (t & E & K1 & K2); [lia|].
  exists t. split_and!; [|done|done].
  assert (0 <= size t <= size content) as Ht.
  { change (Z.of_nat (length t)) with (size t) in K1. rewrite K1. split.
    - apply Z.div_pos; unfold size; lia.
    - apply Z.div_le_upper_bound; lia. }
  unfold sendReplyFavicon. rewrite Hopen, Hstat. destruct (Z.leb_spec (size content) 0); [lia|].
  rewrite E. cbn [app]. run. destruct (Z.ltb_spec (size content) (size t)); [lia|].
  rewrite print_page_header by lia. run. apply respond_two.
Qed.
End Replies.

(** ** The receive buffer keeps its size *)

Section Buffer.
Context {W : Type} `{Winsock W} `{Runtime W} `{Files W}.

Lemma print_into_length (b t : bytes) :
  (length t < length b)%nat -> length (print_into b t) = length b.
Proof. intros. unfold print_into. rewrite length_app; cbn [length]. rewrite length_drop. lia. Qed.

Lemma snprintf_length n fmt args t :
  snprintf n fmt args = Ok t -> (length t <= Z.to_nat (n - 1))%nat.
Proof.
  unfold snprintf. destruct (vformat _ _); [|done..]. intros [= <-]. apply firstn_le_length.
Qed.

(** The replies print at most 1022 characters. *)
Definition keeps_size (b : bytes) (x : outcome (bytes * Shared W)) : Prop :=
  forall b' sh, x = Ok (b', sh) -> length b' = length b.

Lemma printed_keeps n fmt args (b d : bytes) p (sh : Shared W) :
  (Z.to_nat (n - 1) < length b)%nat ->
  keeps_size b (h ← snprintf n fmt args; sh ← write_to p h sh; sh ← write_to p d sh;
                Ok (print_into b h, sh)).
Proof.
  intros Hn b' sh' E. apply bind_Ok_inv in E as (h & Eh & E). rewrite respond_two in E.
  unfold respond in E. apply bind_Ok_inv in E as (sh1 & _ & [= <- _]).
  apply print_into_length. apply snprintf_length in Eh. lia.
Qed.

Context (b : bytes) (Hb : (1024 <= length b)%nat).

Lemma error_keeps p t (sh : Shared W) : keeps_size b (sendReplyError p t b sh).
Proof using Hb.
  intros b' sh' E. unfold sendReplyError in E. apply bind_Ok_inv in E as (e & _ & E).
  revert E. apply printed_keeps. change (Z.to_nat _) with 1022%nat. lia.
Qed.

Lemma page_keeps p f m o g (sh : Shared W) : keeps_size b (sendReplyPage p f m o g b sh).
Proof using Hb.
  intros b' sh' E. unfold sendReplyPage in E. destruct (read_file _ _); [|by eapply error_keeps].
  apply bind_Ok_inv in E as (e & _ & E). revert E. apply printed_keeps.
  change (Z.to_nat _) with 1022%nat. lia.
Qed.

Lemma favicon_keeps p f m (sh : Shared W) : keeps_size b (sendReplyFavicon p f m b sh).
Proof using Hb.
  intros b' sh' E. unfold sendReplyFavicon in E.
  destruct (read_file _ _) as [c|]; [|by eapply error_keeps].
  destruct (stat_size _ _) as [n|]; [|by eapply error_keeps].
  destruct (n <=? 0); [by eapply error_keeps|]. apply bind_Ok_inv in E as (e & _ & E).
  destruct (n <? size e); [done|]. revert E. apply printed_keeps.
  change (Z.to_nat _) with 1022%nat. lia.
Qed.

Lemma reply_keeps p r d (sh : Shared W) : keeps_size b (sendReply p r d b sh).
Proof using Hb.
  intros b' sh' E. unfold sendReply in E. apply bind_Ok_inv in E as (h & Eh%snprintf_length & E).
  apply bind_Ok_inv in E as (sh1 & _ & E). apply bind_Ok_inv in E as (sh2 & _ & [= <- _]).
  apply print_into_length. change (Z.to_nat _) with 1022%nat in Eh. lia.
Qed.
End Buffer.

Section Runs.
Context {W : Type} `{WinsockLaws W} `{Runtime W} `{Files W}.

Definition buffer_inv (s : Server W) : Prop := Z.of_nat (length (httpRwBuffer s)) = HTTP_RW_BUFFER_SIZE.

Lemma with_reply_buffer x (s s' : Server W) :
  keeps_size (httpRwBuffer s) x -> with_reply x s = Ok s' ->
  length (httpRwBuffer s') = length (httpRwBuffer s).
Proof.
  intros Hx E. unfold with_reply in E. apply bind_Ok_inv in E as ([b sh] & -> & [= <-]).
  by apply (Hx b sh).
Qed.

Lemma deliver_buffer r (s s' : Server W) :
  deliver_message r s = Ok s' -> httpRwBuffer s' = httpRwBuffer s.
Proof.
  unfold deliver_message. intros E. apply bind_Ok_inv in E as ([a|] & _ & E); [|by injection E as <-].
  apply bind_Ok_inv in E as (t & _ & E). by apply bind_Ok_inv in E as (c & _ & [= <-]).
Qed.

Lemma serve_buffer p r (s s' : Server W) : buffer_inv s -> serve p r s = Ok s' -> buffer_inv s'.
Proof.
  unfold buffer_inv, HTTP_RW_BUFFER_SIZE. intros Hb.
  assert (1024 <= length (httpRwBuffer s))%nat as Hl by lia.
  assert (forall x, keeps_size (httpRwBuffer s) x -> with_reply x s = Ok s' ->
    Z.of_nat (length (httpRwBuffer s')) = 32 * 1024) as Hx.
  { intros x K E. by rewrite (with_reply_buffer x s s' K E). }
  unfold serve.
  case_decide; [by apply Hx, page_keeps|]. case_decide.
  { unfold signIn. destruct (Connection.connect _ _) as [c w]. intros E.
    apply with_reply_buffer in E; [|by apply reply_keeps]. by rewrite E. }
  case_decide; [by intros [= <-]|]. case_decide.
  { intros E. apply bind_Ok_inv in E as (s1 & E1%deliver_buffer & E).
    apply with_reply_buffer in E; [|apply reply_keeps; by rewrite E1]. by rewrite E, E1. }
  case_decide.
  { unfold register_wait. intros E. apply bind_Ok_inv in E as ([a|] & _ & E); [|by injection E as <-].
    by apply bind_Ok_inv in E as (c & _ & [= <-]). }
  case_decide; [by apply Hx, favicon_keeps|by apply Hx, error_keeps].
Qed.

Lemma step_buffer who (s s' : Server W) :
  server_step who s = Some (Ok s') -> buffer_inv s -> buffer_inv s'.
Proof.
  intros Hs Hb. destruct who as [|a t]; simpl in Hs.
  - injection Hs as E. unfold main_step in E. destruct (main s) as [|p|p r|p].
    + unfold accept_step in E. destruct (accept _ _) as [[x|] w1]; [by injection E as <-|].
      by apply bind_Ok_inv in E as ([[l cs] w2] & _ & [= <-]).
    + unfold read_step in E. apply bind_Ok_inv in E as (c & _ & E).
      destruct (receive_ends receive_fuel c (httpRwBuffer s) 0 (outside (shared s)))
        as (b & n & w' & K & K1 & K2 & _); [done|unfold HTTP_RW_BUFFER_SIZE; lia|
        unfold receive_fuel, HTTP_RW_BUFFER_SIZE; lia|].
      rewrite K in E. rewrite bind_Ok in E. apply bind_Ok_inv in E as (b2 & Eb & E).
      assert (length b2 = length b) as Hb2.
      { unfold terminate in Eb. destruct (Z.ltb_spec n HTTP_RW_BUFFER_SIZE); [|done].
        injection Eb as <-. apply store_at_length. unfold buffer_inv in Hb. simpl. lia. }
      unfold buffer_inv in *. apply bind_Ok_inv in E as ([ok r] & _ & E). destruct ok; cbn [negb] in E.
      * injection E as <-. simpl. congruence.
      * apply bind_Ok_inv in E as (sh & _ & [= <-]). simpl. congruence.
    + unfold serve_step in E. apply bind_Ok_inv in E as (s1 & E & [= <-]).
      by apply (serve_buffer p r s s1).
    + unfold close_step in E. by apply bind_Ok_inv in E as (sh & _ & [= <-]).
  - destruct (connections s !! a) as [c|]; [|done]. destruct (run_step t c (shared s)); [|done].
    injection Hs as E. by apply bind_Ok_inv in E as ([c1 sh1] & _ & [= <-]).
Qed.

Lemma run_buffer l (s s' : Server W) : run_server l s = Ok s' -> buffer_inv s -> buffer_inv s'.
Proof.
  revert s; induction l as [|who l IH]; intros s E Hb; simpl in E; [congruence|].
  destruct (server_step who s) as [m|] eqn:Hs; [|by eauto].
  apply bind_Ok_inv in E as (s1 & -> & E). apply (IH s1); [done|]. by eapply step_buffer.
Qed.
End Runs.

(** ** Requests and messages *)

Section Messages.
Context {W : Type} `{WinsockLaws W} `{Runtime W} `{Files W} `{!SslSetup W}.

(** The state after reading a request. *)
Definition reading (b : bytes) (w : W) (pc : main_pc) (s : Server W) : Server W :=
  set_main pc (set_buffer b (set_shared (set_outside w (shared s)) s)).

Lemma read_step_request p client b n w1 msg r (s : Server W) :
  buffer_inv s -> sockets (shared s) !! p = Some client ->
  receive_loop receive_fuel client (httpRwBuffer s) 0 (outside (shared s)) = Ok (b, n, w1) ->
  take (Z.to_nat n) b = msg -> size msg < HTTP_RW_BUFFER_SIZE ->
  message_spec msg emptyReq = Ok (true, r) ->
  exists junk, read_step p s = Ok (reading (msg ++ NUL :: junk) w1 (MServe p r) s).
Proof.
  intros Hb Hp Hr Hm Hs Hspec.
  destruct (receive_ends receive_fuel client (httpRwBuffer s) 0 (outside (shared s)))
    as (b' & n' & w' & K & K1 & K2 & _); [done|unfold HTTP_RW_BUFFER_SIZE; lia|
    unfold receive_fuel, HTTP_RW_BUFFER_SIZE; lia|].
  rewrite Hr in K. injection K as <- <- <-.
  assert (Z.of_nat (length b) = HTTP_RW_BUFFER_SIZE) as Hlen by (rewrite K2; exact Hb).
  assert (length msg = Z.to_nat n) as Hn by (rewrite <- Hm, length_take; lia).
  exists (drop (Z.to_nat n + 1) b). unfold read_step, deref. rewrite Hp. run. rewrite Hr. run.
  unfold terminate. destruct (Z.ltb_spec n HTTP_RW_BUFFER_SIZE); [|unfold size in Hs; lia]. run.
  assert (store_at (Z.to_nat n) [NUL] b = msg ++ NUL :: drop (Z.to_nat n + 1) b) as ->
    by (unfold store_at; by rewrite Hm).
  rewrite <- Hn, parse_message_spec, Hspec. by run.
Qed.

Lemma start_buffer o g buffer w (s0 : Server W) :
  start o g buffer w = Ok (Some s0) -> httpRwBuffer s0 = buffer.
Proof.
  unfold start. destruct (SSL_CTX_new _) as [ctx w2].
  destruct (use_certificate_chain_file _ _ _) as [[] w3]; [|done].
  destruct (use_PrivateKey_file _ _ _) as [[] w4]; [|done].
  destruct (check_private_key _ _) as [[] w5]; [|done]. cbn [negb].
  intros E. apply bind_Ok_inv in E as ([[r sk] w6] & _ & E).
  destruct (Socket.bind sk w6) as [r1 w7]. destruct (Socket.listen _ _ _) as [r2 w8].
  by injection E as <-.
Qed.

Lemma started_buffer o g buffer w (s0 s : Server W) l0 :
  Z.of_nat (length buffer) = HTTP_RW_BUFFER_SIZE ->
  start o g buffer w = Ok (Some s0) -> run_server l0 s0 = Ok s -> buffer_inv s.
Proof.
  intros Hb Hs Hr. apply (run_buffer l0 s0 s Hr). unfold buffer_inv. by rewrite (start_buffer _ _ _ _ _ Hs).
Qed.

(** A request of the page, short enough for the buffer. *)
Record sendable (meth command org : bytes) (alive : bool) (prag : Z) (body : bytes) : Prop := {
  send_meth : word_without (bs " " ++ [CR]) meth;
  send_command : word_without (bs " /?" ++ [NUL; CR]) command;
  send_origin : CR ∉ org;
  send_pragma : 0 <= prag <= INT_MAX;
  send_size : size (render_request meth command org alive prag body) < HTTP_RW_BUFFER_SIZE
}.

Lemma sendable_spec meth command org alive prag body :
  sendable meth command org alive prag body ->
  message_spec (render_request meth command org alive prag body) emptyReq
  = Ok (true, rendered_request meth command org alive prag body).
Proof.
  intros [K1 K2 K3 K4 K5]. unfold HTTP_RW_BUFFER_SIZE in K5.
  assert (Z.of_nat (length body) < 32 * 1024).
  { unfold size, render_request in K5. rewrite !length_app in K5. lia. }
  apply message_spec_render; try done; unfold INT_MAX, npos; lia.
Qed.

(** C16: a request that arrives in any number of pieces, each what one read of the
    client's socket gives, is put together and read: the main thread goes on to
    serve exactly the request the client printed, with the printed text at the
    start of its buffer and a NUL behind it; connections and sockets are as
    before. *)
Theorem request_is_received (o : Options.Options) (g : Z) (buffer : bytes) (w w1 : W)
    (s0 s : Server W) (l0 : list actor) (p : nat) (client : Socket) (pieces : list bytes)
    (meth command org : bytes) (alive : bool) (prag : Z) (body : bytes)
    (Hbuffer : Z.of_nat (length buffer) = HTTP_RW_BUFFER_SIZE)
    (Hstart : start o g buffer w = Ok (Some s0)) (Hrun0 : run_server l0 s0 = Ok s)
    (Hmain : main s = MRead p) (Hclient : sockets (shared s) !! p = Some client)
    (Harrives : arrives client 0 pieces (outside (shared s)) w1)
    (Hmessage : concat pieces = render_request meth command org alive prag body)
    (Hsend : sendable meth command org alive prag body) :
  exists junk, main_step s
    = Ok (reading (render_request meth command org alive prag body ++ NUL :: junk) w1
            (MServe p (rendered_request meth command org alive prag body)) s).
Proof.
  assert (buffer_inv s) as Hb by (by apply (started_buffer o g buffer w s0 s l0)).
  destruct (receive_gathers client 0 pieces (outside (shared s)) w1 receive_fuel (httpRwBuffer s) Harrives Hb)
    as (b & Er & Hm); [unfold HTTP_RW_BUFFER_SIZE; lia|unfold receive_fuel, HTTP_RW_BUFFER_SIZE; lia|].
  unfold main_step. rewrite Hmain. apply (read_step_request p client b _ w1) with (2 := Hclient) (3 := Er); [done|..].
  - by rewrite Hm, Hmessage.
  - by apply send_size in Hsend.
  - by apply sendable_spec.
Qed.

(** *** The queue of the peer *)

Lemma find_peer_first l id (s : Server W) a c :
  (forall b, b ∈ l -> is_Some (connections s !! b)) ->
  a ∈ l -> connections s !! a = Some c -> m_peerId c = id ->
  (forall b d, connections s !! b = Some d -> m_peerId d = id -> b = a) ->
  find_peer l id s = Ok (Some a).
Proof.
  intros Hl Ha Hc Hid Hu. induction l as [|b l IH]; [by apply not_elem_of_nil in Ha|].
  cbn [find_peer]. destruct (Hl b ltac:(left)) as [d Hd]. unfold connection_at. rewrite Hd. run.
  unfold Connection.getPeerId. destruct (Z.eqb_spec (m_peerId d) id) as [E|E]; [by rewrite (Hu b d Hd E)|].
  apply IH; [intros; apply Hl; by right|].
  apply elem_of_cons in Ha as [->|]; [congruence|done].
Qed.

(** Peers' steps leave the main thread's data alone. *)
Definition is_peer (x : actor) : Prop := match x with Main => False | Peer _ _ => True end.

Record undisturbed (s s' : Server W) : Prop := {
  und_main : main s' = main s;
  und_buffer : httpRwBuffer s' = httpRwBuffer s;
  und_list : webrtcConnectionList s' = webrtcConnectionList s;
  und_ids : forall a, m_peerId <$> connections s' !! a = m_peerId <$> connections s !! a
}.

Lemma peers_undisturbed l (s s' : Server W) :
  Forall is_peer l -> run_server l s = Ok s' -> undisturbed s s'.
Proof.
  revert s; induction l as [|who l IH]; intros s Hl E; [by injection E as <-|].
  apply Forall_cons in Hl as [Hw Hl]. destruct who as [|a t]; [done|]. cbn [run_server] in E.
  destruct (server_step _ _) as [m|] eqn:Hs; [|by apply IH].
  apply bind_Ok_inv in E as (s1 & -> & E). simpl in Hs.
  destruct (connections s !! a) as [c|] eqn:Ha; [|done].
  destruct (run_step t c (shared s)) as [m|] eqn:Hr; [|done]. injection Hs as Hs.
  apply bind_Ok_inv in Hs as ([c1 sh1] & -> & [= <-]). destruct (IH _ Hl E) as [K1 K2 K3 K4].
  constructor; [done..|]. intros b. rewrite K4. simpl.
  destruct (decide (b = a)) as [->|]; [|by rewrite lookup_insert_ne].
  rewrite lookup_insert_eq, Ha. simpl. by rewrite (run_step_id t c (shared s) c1 sh1 Hr).
Qed.

Lemma run_server_app l1 l2 (s s1 : Server W) :
  run_server l1 s = Ok s1 -> run_server (l1 ++ l2) s = run_server l2 s1.
Proof.
  revert s; induction l1 as [|who l1 IH]; intros s E; cbn [run_server app] in *; [by injection E as ->|].
  destruct (server_step who s) as [m|]; [|by apply IH].
  apply bind_Ok_inv in E as (s2 & -> & E). run. by apply IH.
Qed.

Lemma initial_ids (s : Server W) : initial s -> ids_inv s.
Proof. intros (_ & E & _). by constructor; intros ?; rewrite E. Qed.

Lemma cstr_at_nul s t : cstr (s ++ NUL :: t) = cstr s.
Proof. induction s as [|c s IH]; [done|]. simpl. case_decide; [done|]. by rewrite IH. Qed.

(** The body of a request that was read. *)
Lemma rendered_body meth command org alive prag body junk :
  body <> [] ->
  body_text (rendered_request meth command org alive prag body)
    (render_request meth command org alive prag body ++ NUL :: junk) = Ok (cstr body).
Proof.
  intros Hb. unfold body_text, rendered_request. destruct body as [|x body]; [done|]. cbn [data].
  unfold render_request. rewrite !app_assoc, <- (app_assoc _ (x :: body)).
  rewrite drop_app_length' by (rewrite !length_app; lia).
  f_equal. exact (cstr_at_nul (x :: body) junk).
Qed.

(** The state in which a message to the peer at [a] is about to be served, after
    other threads have run. *)
Record serving_message (meth org : bytes) (alive : bool) (prag : Z) (body junk : bytes) (p a : nat)
    (s : Server W) : Prop := {
  sm_inv : server_inv s;
  sm_main : main s = MServe p (rendered_request meth HTTP_CMD_MESSAGE org alive prag body);
  sm_buffer : httpRwBuffer s = render_request meth HTTP_CMD_MESSAGE org alive prag body ++ NUL :: junk;
  sm_listed : a ∈ webrtcConnectionList s;
  sm_ids : ids_inv s;
  sm_id : m_peerId <$> connections s !! a = Some prag
}.

Lemma serving_message_later meth org alive prag body junk p a l0 l (s0 s s1 : Server W) :
  initial s0 -> run_server l0 s0 = Ok s ->
  main s = MServe p (rendered_request meth HTTP_CMD_MESSAGE org alive prag body) ->
  httpRwBuffer s = render_request meth HTTP_CMD_MESSAGE org alive prag body ++ NUL :: junk ->
  a ∈ webrtcConnectionList s -> m_peerId <$> connections s !! a = Some prag ->
  Forall is_peer l -> run_server l s = Ok s1 -> Z.of_nat (length (l0 ++ l)) < 2 ^ 32 - 1 ->
  serving_message meth org alive prag body junk p a s1.
Proof.
  intros Hi E0 Hm Hb Ha Hid Hl E Hn. pose proof (peers_undisturbed l s s1 Hl E) as [K1 K2 K3 K4].
  assert (run_server (l0 ++ l) s0 = Ok s1) as E1 by (by rewrite (run_server_app l0 l s0 s E0)).
  pose proof (run_server_well (l0 ++ l) s0 (initial_inv s0 Hi)) as Hw. rewrite E1 in Hw.
  constructor; [done|congruence..| |by rewrite K4].
  apply (run_ids (l0 ++ l) s0); [by apply initial_inv|by apply initial_ids| | |done];
    destruct Hi as (_ & _ & _ & -> & _); lia.
Qed.

Lemma find_served_peer meth org alive prag body junk p a (s : Server W) :
  serving_message meth org alive prag body junk p a s ->
  exists c, connections s !! a = Some c /\
    find_peer (webrtcConnectionList s) prag s = Ok (Some a).
Proof.
  intros [I1 _ _ I2 [_ I3] I4]. destruct (connections s !! a) as [c|] eqn:Hc; [|done].
  injection I4 as Hid. exists c. split; [done|].
  apply (find_peer_first _ _ _ _ c); [apply (inv_listed s I1)|done..|].
  intros b d Hb Hd. apply (I3 b a d c Hb Hc). congruence.
Qed.

(** The state after the message was served: it is in the queue of [c], and the
    reply was written to the client's socket [t]. *)
Definition message_served (meth org : bytes) (alive : bool) (prag : Z) (body : bytes) (p a : nat)
    (c : WebrtcConnection W) (t : Socket) (s : Server W) : Server W :=
  let header := take header_room (reply_header org prag 0) in
  set_main (MClose p)
    (set_buffer (print_into (httpRwBuffer s) header)
       (set_shared (set_outside (Socket.write t header (outside (shared s))).2 (shared s))
          (set_connections (<[a := pushMessage (cstr body) c]> (connections s)) s))).

Lemma serve_message meth org alive prag body junk p a (s : Server W) :
  serving_message meth org alive prag body junk p a s -> body <> [] -> 0 <= prag <= INT_MAX ->
  exists c t, connections s !! a = Some c /\ sockets (shared s) !! p = Some t /\
    main_step s = Ok (message_served meth org alive prag body p a c t s).
Proof.
  intros Hs Hbody Hpragma. destruct (find_served_peer _ _ _ _ _ _ _ _ _ Hs) as (c & Hc & Hfind).
  destruct Hs as [I1 I2 I3 _ _ _]. pose proof (inv_main s I1) as Hp. rewrite I2 in Hp.
  destruct Hp as [[t Ht] _]. exists c, t. split_and!; [done..|].
  set (r := rendered_request meth HTTP_CMD_MESSAGE org alive prag body) in *.
  set (s2 := set_connections (<[a := pushMessage (cstr body) c]> (connections s)) s).
  assert (deliver_message r s = Ok s2) as Hd.
  { unfold deliver_message. change (pragma r) with prag. rewrite Hfind. run.
    rewrite I3. unfold r at 1. rewrite rendered_body by done. run.
    unfold connection_at. rewrite Hc. by run. }
  unfold main_step. rewrite I2. unfold serve_step, serve. change (cmd (url r)) with HTTP_CMD_MESSAGE.
  rewrite decide_False by (by intros [?|?]). do 2 (rewrite decide_False by done).
  rewrite decide_True by done. rewrite Hd. run. unfold with_reply.
  rewrite (reply_written p t) by (done || (unfold INT_MAX in *; simpl; lia)). by run.
Qed.

(** From the client's bytes to the queue when the main thread is not interrupted. *)
Lemma posted_message_is_queued o g buffer w w1 (s0 s : Server W) l0 p a client b n
    meth org alive prag body c :
  Z.of_nat (length buffer) = HTTP_RW_BUFFER_SIZE ->
  start o g buffer w = Ok (Some s0) -> run_server l0 s0 = Ok s -> Z.of_nat (length l0) < 2 ^ 32 - 2 ->
  main s = MRead p -> sockets (shared s) !! p = Some client ->
  receive_loop receive_fuel client (httpRwBuffer s) 0 (outside (shared s)) = Ok (b, n, w1) ->
  take (Z.to_nat n) b = render_request meth HTTP_CMD_MESSAGE org alive prag body ->
  sendable meth HTTP_CMD_MESSAGE org alive prag body -> body <> [] ->
  a ∈ webrtcConnectionList s -> connections s !! a = Some c -> Connection.getPeerId c = prag ->
  exists s', run_server [Main; Main] s = Ok s' /\
    shared s' = MkShared (sockets (shared s))
                  (Socket.write client (take header_room (reply_header org prag 0)) w1).2 /\
    main s' = MClose p /\ connections s' = <[a := pushMessage (cstr body) c]> (connections s).
Proof.
  intros Hb Hs0 Hr Hl Hm Hp Hrec Hmsg Hsend Hbody Ha Hc Hid.
  destruct (read_step_request p client b n w1 _ (rendered_request meth HTTP_CMD_MESSAGE org alive prag body) s
              (started_buffer _ _ _ _ _ _ _ Hb Hs0 Hr) Hp Hrec Hmsg)
    as [junk E1]; [by apply send_size in Hsend|by apply sendable_spec|].
  set (s1 := reading _ _ _ _) in E1.
  assert (server_step Main s = Some (Ok s1)) as M1 by (cbn; unfold main_step; by rewrite Hm, E1).
  assert (run_server (l0 ++ [Main]) s0 = Ok s1) as R1
    by (rewrite (run_server_app _ _ _ _ Hr); cbn [run_server]; by rewrite M1).
  assert (serving_message meth org alive prag body junk p a s1) as Hs.
  { apply (serving_message_later _ _ _ _ _ _ _ _ (l0 ++ [Main]) [] s0 s1 s1); try done.
    - by eapply start_initial.
    - cbn. rewrite Hc. cbn. by f_equal.
    - rewrite !length_app. cbn. lia. }
  destruct (serve_message _ _ _ _ _ _ _ _ _ Hs) as (c' & u & Hc' & Hu & E2); [done|by apply send_pragma in Hsend|].
  cbn in Hc', Hu. rewrite Hc in Hc'. rewrite Hp in Hu. injection Hc' as <-. injection Hu as <-.
  eexists. cbn [run_server]. rewrite M1. run. cbn [server_step]. rewrite E2. run. by split_and!.
Qed.

(** C3: a message the server has read reaches the end of the queue of the one
    connection whose id is its [Pragma], up to its first NUL, whatever the
    connections' threads have done meanwhile; the other connections and the list
    do not change, and the main thread goes on to close the client's socket. *)
Theorem message_reaches_its_peer (o : Options.Options) (g : Z) (buffer : bytes) (w : W)
    (s0 s s1 : Server W) (l0 l : list actor) (p a : nat) (c : WebrtcConnection W)
    (meth org : bytes) (alive : bool) (prag : Z) (body junk : bytes)
    (Hstart : start o g buffer w = Ok (Some s0)) (Hrun0 : run_server l0 s0 = Ok s)
    (Hmain : main s = MServe p (rendered_request meth HTTP_CMD_MESSAGE org alive prag body))
    (Hbuffer : httpRwBuffer s
               = render_request meth HTTP_CMD_MESSAGE org alive prag body ++ NUL :: junk)
    (Hbody : body <> []) (Hpragma : 0 <= prag <= INT_MAX)
    (Hlisted : a ∈ webrtcConnectionList s) (Ha : connections s !! a = Some c)
    (Hid : Connection.getPeerId c = prag)
    (Hpeers : Forall is_peer l) (Hrun : run_server l s = Ok s1)
    (Hlength : Z.of_nat (length (l0 ++ l)) < 2 ^ 32 - 1) :
  exists c1 s', connections s1 !! a = Some c1 /\ main_step s1 = Ok s' /\
    connections s' = <[a := pushMessage (cstr body) c1]> (connections s1) /\
    webrtcConnectionList s' = webrtcConnectionList s1 /\ main s' = MClose p.
Proof.
  assert (serving_message meth org alive prag body junk p a s1) as Hs.
  { apply (serving_message_later meth org alive prag body junk p a l0 l s0 s s1); try done.
    - by eapply start_initial.
    - rewrite Ha. simpl. by f_equal. }
  destruct (serve_message _ _ _ _ _ _ _ _ _ Hs) as (c1 & t & Hc1 & _ & E); [done..|].
  by eexists c1, _.
Qed.

(** A message without a body crashes the server: the text is built from the
    null pointer [data], as soon as the peer it names exists. *)
Theorem message_without_body_crashes (o : Options.Options) (g : Z) (buffer : bytes) (w : W)
    (s0 s : Server W) (l0 : list actor) (p a : nat) (c : WebrtcConnection W)
    (meth org : bytes) (alive : bool) (prag : Z) (junk : bytes)
    (Hstart : start o g buffer w = Ok (Some s0)) (Hrun0 : run_server l0 s0 = Ok s)
    (Hmain : main s = MServe p (rendered_request meth HTTP_CMD_MESSAGE org alive prag []))
    (Hbuffer : httpRwBuffer s = render_request meth HTTP_CMD_MESSAGE org alive prag [] ++ NUL :: junk)
    (Hlisted : a ∈ webrtcConnectionList s) (Ha : connections s !! a = Some c)
    (Hid : Connection.getPeerId c = prag) (Hlength : Z.of_nat (length l0) < 2 ^ 32 - 1) :
  main_step s = UB NullPointer.
Proof.
  assert (serving_message meth org alive prag [] junk p a s) as Hs.
  { apply (serving_message_later meth org alive prag [] junk p a l0 [] s0 s s); try done.
    - by eapply start_initial.
    - rewrite Ha. simpl. by f_equal.
    - by rewrite app_nil_r. }
  destruct (find_served_peer _ _ _ _ _ _ _ _ _ Hs) as (c1 & Hc1 & Hfind).
  unfold main_step. rewrite Hmain. unfold serve_step, serve.
  change (cmd (url (rendered_request meth HTTP_CMD_MESSAGE org alive prag []))) with HTTP_CMD_MESSAGE.
  rewrite decide_False by (by intros [?|?]). do 2 (rewrite decide_False by done).
  rewrite decide_True by done. unfold deliver_message.
  change (pragma (rendered_request meth HTTP_CMD_MESSAGE org alive prag [])) with prag.
  rewrite Hfind. by run.
Qed.

(** C18: a sign-in makes one connection, started, with the next peer id and
    behind the others in the list, and answers with a header whose [Pragma] is
    that id and whose origin is the client's. *)
Theorem signIn_answers_with_the_new_id (p : nat) (r : HttpReq_t) (s : Server W)
    (Hinv : server_inv s) (Hmain : main s = MServe p r) (Hcmd : cmd (url r) = HTTP_CMD_SIGN_IN)
    (Hid : 0 <= peerId s < 2 ^ 32 - 1) :
  let header := take header_room (reply_header (origin r) (peerId s) 0) in
  exists sh s', main_step s = Ok s' /\
    write_all p [header] (set_outside (thread_Start (outside (shared s))) (shared s)) = Ok sh /\
    shared s' = sh /\ main s' = MClose p /\
    connections s' = <[next_connection s :=
      (Connection.connect (new_WebrtcConnection (peerId s)) (outside (shared s))).1]> (connections s) /\
    webrtcConnectionList s' = webrtcConnectionList s ++ [next_connection s] /\
    peerId s' = peerId s + 1.
Proof.
  intros header. pose proof (inv_main s Hinv) as Hp. rewrite Hmain in Hp. destruct Hp as [[t Ht] _].
  unfold main_step. rewrite Hmain. unfold serve_step, serve. rewrite Hcmd.
  rewrite decide_False by (by intros [?|?]). rewrite decide_True by done. unfold signIn. simpl.
  rewrite sendReply_writes by (done || (simpl; lia)).
  change (pragma _) with (peerId s). change (origin _) with (origin r).
  fold header. unfold respond, write_all, write_to, deref. simpl. rewrite Ht. run.
  eexists _, _. split; [reflexivity|]. split_and!; try done. simpl. apply u32_small. lia.
Qed.

(** C19: a wait request that names a peer hands the client's socket to that
    peer's connection, and to no other, writes nothing, and leaves the socket
    open; the main thread forgets it. *)
Theorem wait_hands_over_the_socket (o : Options.Options) (g : Z) (buffer : bytes) (w : W)
    (s0 s : Server W) (l0 : list actor) (p a : nat) (r : HttpReq_t) (c : WebrtcConnection W)
    (Hstart : start o g buffer w = Ok (Some s0)) (Hrun0 : run_server l0 s0 = Ok s)
    (Hlength : Z.of_nat (length l0) < 2 ^ 32 - 1)
    (Hmain : main s = MServe p r) (Hcmd : cmd (url r) = HTTP_CMD_WAIT)
    (Hlisted : a ∈ webrtcConnectionList s) (Ha : connections s !! a = Some c)
    (Hid : Connection.getPeerId c = pragma r) :
  exists s', run_server [Main; Main] s = Ok s' /\
    connections s' = <[a := setOutboundSocket p c]> (connections s) /\
    shared s' = shared s /\ main s' = MAccept.
Proof.
  pose proof (start_initial _ _ _ _ _ Hstart) as Hi.
  pose proof (run_inv _ _ _ _ _ _ _ Hstart Hrun0) as Hinv.
  assert (ids_inv s) as [_ Hd].
  { apply (run_ids l0 s0); [by apply initial_inv|by apply initial_ids|..|done];
      destruct Hi as (_ & _ & _ & -> & _); lia. }
  assert (main_step s = Ok (set_main (MClose p) (set_closeWait false
    (set_connections (<[a := setOutboundSocket p c]> (connections s)) s)))) as E.
  { unfold main_step. rewrite Hmain. unfold serve_step, serve. rewrite Hcmd.
    rewrite decide_False by (by intros [?|?]). do 3 (rewrite decide_False by done).
    rewrite decide_True by done. unfold register_wait. rewrite (find_peer_first _ _ s a c); try done.
    - run. unfold connection_at. by rewrite Ha.
    - apply (inv_listed s Hinv).
    - intros b d Hb Hbid. apply (Hd b a d c Hb Ha). unfold Connection.getPeerId in Hid. congruence. }
  cbn [run_server server_step]. rewrite E. run. eexists. by split.
Qed.
End Messages.

(** ** Witnesses *)

Definition sample_sockets : Shared Net :=
  MkShared {[7%nat := MkSocket None None 4 [] 0]} (MkNet {[3; 4]} [] ∅ [] 0 []).

Lemma sendReply_correct_witness :
  let r := rendered_request (bs "GET") (bs "signIn") (bs "h") false 7 [] in
  let header := take header_room (reply_header (bs "h") 7 0) in
  sendReply 7 r [] [] sample_sockets = respond 7 [header] header [] sample_sockets /\
  (header = reply_header (bs "h") 7 0 <-> (1 + 1 + 1 <= 848)%nat).
Proof.
  intros r header. apply (sendReply_correct 7 r [] [] sample_sockets); [split; reflexivity || discriminate|discriminate].
Defined.

Lemma favicon_keeps_one_byte_per_block_witness :
  exists body,
    sendReplyFavicon 7 HTTP_CMD_FAVICON (bs "image/x-icon") [] sample_sockets
    = respond 7 [take header_room (page_header (bs "image/x-icon") (size body)); body]
        (take header_room (page_header (bs "image/x-icon") (size body))) [] sample_sockets /\
    size body = size sample_icon / 4096 /\
    forall i, (i < length body)%nat -> body !! i = sample_icon !! (4096 * i)%nat.
Proof.
  apply (favicon_keeps_one_byte_per_block 7 HTTP_CMD_FAVICON (bs "image/x-icon") sample_icon []
           sample_sockets); [reflexivity|reflexivity|split; vm_compute; [reflexivity|discriminate]].
Defined.

Definition sample_message : bytes :=
  render_request (bs "POST") HTTP_CMD_MESSAGE (bs "h") false 1 (bs "SDP->{}").

Lemma by_decision (P : Prop) `{Decision P} : bool_decide P = true -> P.
Proof. apply bool_decide_eq_true. Qed.

Lemma sample_word f w : bool_decide (w <> [] /\ Forall (fun c => c ∉ f) w) = true -> word_without f w.
Proof. intros [K1 K2]%bool_decide_eq_true. rewrite Forall_forall in K2. by split. Qed.

Lemma sample_sendable : sendable (bs "POST") HTTP_CMD_MESSAGE (bs "h") false 1 (bs "SDP->{}").
Proof.
  constructor; [apply sample_word; vm_compute; reflexivity|apply sample_word; vm_compute; reflexivity| | |].
  - intros Hin. assert (bool_decide (CR ∈ bs "h") = false) as K by (vm_compute; reflexivity).
    by apply bool_decide_eq_false in K.
  - unfold INT_MAX. lia.
  - vm_compute. reflexivity.
Qed.

Lemma sample_buffer_size : Z.of_nat (length sample_buffer) = HTTP_RW_BUFFER_SIZE.
Proof. unfold sample_buffer, HTTP_RW_BUFFER_SIZE. rewrite repeat_length. lia. Qed.

Lemma read_result {client : @Socket Net _} {n w r d} :
  (Socket.read client n w).1 = (r, d) -> Socket.read client n w = (r, d, (Socket.read client n w).2).
Proof. destruct (Socket.read client n w) as [[r' d'] w']. by intros [= -> ->]. Qed.

Lemma request_is_received_witness :
  exists w1 junk,
    let s := after (sample_rounds 9) sample_server in
    main_step s = Ok (reading (sample_message ++ NUL :: junk) w1
      (MServe 2 (rendered_request (bs "POST") HTTP_CMD_MESSAGE (bs "h") false 1 (bs "SDP->{}"))) s).
Proof.
  set (s := after (sample_rounds 9) sample_server).
  assert (sockets (shared s) !! 2%nat = Some sample_client) as Et by (vm_compute; reflexivity).
  set (w0 := outside (shared s)).
  pose (w1 := (Socket.read sample_client HTTP_RW_BUFFER_SIZE w0).2).
  pose (w2 := (Socket.read sample_client (HTTP_RW_BUFFER_SIZE - 30) w1).2).
  exists (Socket.read sample_client (HTTP_RW_BUFFER_SIZE - size sample_message) w2).2.
  refine (request_is_received sample_options 0 sample_buffer sample_world _ sample_server s
           (sample_rounds 9) 2 sample_client [take 30 sample_message; drop 30 sample_message]
           (bs "POST") HTTP_CMD_MESSAGE (bs "h") false 1 (bs "SDP->{}")
           sample_buffer_size sample_start (sample_run 9 eq_refl) _ Et _ _ sample_sendable).
  - vm_compute. reflexivity.
  - apply (arrives_piece _ _ _ _ w1); [apply read_result; vm_compute; reflexivity|discriminate|].
    apply (arrives_piece _ _ _ _ w2); [apply read_result; vm_compute; reflexivity|discriminate|].
    apply (arrives_end _ _ _ 0 []); [apply read_result; vm_compute; reflexivity|discriminate].
  - vm_compute. reflexivity.
Defined.

(** The state before the message of the third client is served. *)
Definition sample_read : Server Net := after (sample_rounds 10) sample_server.

Definition sample_junk : bytes := drop (length sample_message + 1) (httpRwBuffer sample_read).

Lemma message_reaches_its_peer_witness :
  exists s1 c1 s', run_server [Peer 0 true] sample_read = Ok s1 /\
    connections s1 !! 0%nat = Some c1 /\ main_step s1 = Ok s' /\
    connections s' = <[0%nat := pushMessage (cstr (bs "SDP->{}")) c1]> (connections s1) /\
    webrtcConnectionList s' = webrtcConnectionList s1 /\ main s' = MClose 2.
Proof.
  assert (match connections sample_read !! 0%nat with
          | Some c => Connection.getPeerId c =? 1 | None => false end = true) as K by (vm_compute; reflexivity).
  destruct (connections sample_read !! 0%nat) as [c|] eqn:Ec; [|discriminate K].
  apply Z.eqb_eq in K.
  assert (run_server [Peer 0 true] sample_read = Ok (after [Peer 0 true] sample_read)) as Er
    by (apply after_ok; vm_compute; reflexivity).
  destruct (message_reaches_its_peer sample_options 0 sample_buffer sample_world sample_server sample_read
    (after [Peer 0 true] sample_read) (sample_rounds 10) [Peer 0 true] 2 0 c (bs "POST") (bs "h") false 1
    (bs "SDP->{}") sample_junk sample_start (sample_run 10 eq_refl)) as (c1 & s' & Q).
  - vm_compute. reflexivity.
  - refine (by_decision _ _). vm_compute. reflexivity.
  - discriminate.
  - unfold INT_MAX. lia.
  - refine (by_decision _ _). vm_compute. reflexivity.
  - exact Ec.
  - exact K.
  - constructor; [exact I|constructor].
  - exact Er.
  - reflexivity.
  - exists (after [Peer 0 true] sample_read), c1, s'. split; [exact Er|exact Q].
Defined.

(** The same with a message that has no body. *)
Definition bodyless_world : Net :=
  MkNet {[3]} [ [render_request (bs "GET") (bs "signIn") (bs "h") false 0 []];
                [render_request (bs "POST") HTTP_CMD_MESSAGE (bs "h") false 1 []] ] ∅ [] 0 [].

Definition bodyless_server : Server Net :=
  MkServer (MkShared ∅ bodyless_world) 0 ∅ 0 [] (MkSocket (Some tt) None 3 (bs "127.0.0.1") 4433)
    sample_buffer 1 true sample_options 0 MAccept.

Lemma message_without_body_crashes_witness :
  main_step (after (sample_rounds 6) bodyless_server) = UB NullPointer.
Proof.
  set (s := after (sample_rounds 6) bodyless_server).
  assert (match connections s !! 0%nat with
          | Some c => Connection.getPeerId c =? 1 | None => false end = true) as K by (vm_compute; reflexivity).
  destruct (connections s !! 0%nat) as [c|] eqn:Ec; [|discriminate K]. apply Z.eqb_eq in K.
  refine (message_without_body_crashes sample_options 0 sample_buffer bodyless_world bodyless_server s
    (sample_rounds 6) 1 0 c (bs "POST") (bs "h") false 1
    (drop (length (render_request (bs "POST") HTTP_CMD_MESSAGE (bs "h") false 1 []) + 1) (httpRwBuffer s))
    _ _ _ _ _ Ec K eq_refl).
  - reflexivity.
  - apply after_ok. vm_compute. reflexivity.
  - vm_compute. reflexivity.
  - refine (by_decision _ _). vm_compute. reflexivity.
  - refine (by_decision _ _). vm_compute. reflexivity.
Defined.

Lemma signIn_answers_with_the_new_id_witness :
  let s := after (sample_rounds 2) sample_server in
  let header := take header_room (reply_header (bs "h") (peerId s) 0) in
  exists sh s', main_step s = Ok s' /\
    write_all 0 [header] (set_outside (thread_Start (outside (shared s))) (shared s)) = Ok sh /\
    shared s' = sh /\ main s' = MClose 0 /\
    connections s' = <[next_connection s :=
      (Connection.connect (new_WebrtcConnection (peerId s)) (outside (shared s))).1]> (connections s) /\
    webrtcConnectionList s' = webrtcConnectionList s ++ [next_connection s] /\
    peerId s' = peerId s + 1.
Proof.
  intros s. apply (signIn_answers_with_the_new_id 0
    (rendered_request (bs "GET") HTTP_CMD_SIGN_IN (bs "h") false 0 []) s).
  - apply (run_inv sample_options 0 sample_buffer sample_world sample_server (sample_rounds 2)).
    + exact sample_start.
    + exact (sample_run 2 eq_refl).
  - vm_compute. reflexivity.
  - reflexivity.
  - vm_compute. split; [discriminate|reflexivity].
Defined.

Lemma wait_hands_over_the_socket_witness :
  let s := after (sample_rounds 6) sample_server in
  exists c s', run_server [Main; Main] s = Ok s' /\
    connections s' = <[0%nat := setOutboundSocket 1 c]> (connections s) /\
    shared s' = shared s /\ main s' = MAccept.
Proof.
  intros s. assert (match connections s !! 0%nat with
          | Some c => Connection.getPeerId c =? 1 | None => false end = true) as K by (vm_compute; reflexivity).
  destruct (connections s !! 0%nat) as [c|] eqn:Ec; [|discriminate K]. apply Z.eqb_eq in K.
  exists c. refine (wait_hands_over_the_socket sample_options 0 sample_buffer sample_world sample_server s
    (sample_rounds 6) 1 0 (rendered_request (bs "GET") HTTP_CMD_WAIT (bs "h") false 1 []) c
    sample_start (sample_run 6 eq_refl) eq_refl _ eq_refl _ Ec K).
  - vm_compute. reflexivity.
  - refine (by_decision _ _). vm_compute. reflexivity.
Defined.
