(* ===== verification/Answer.v ===== *)
(** * From a peer's offer to the answer it receives

    The whole way of an offer: posted to the server in a request, read, parsed
    and put into the queue of the peer's connection, handled by that connection's
    thread, and answered on the socket of the peer's [wait] request.  The main
    loop, the thread's steps, the observer, the JSON reader and writer and the
    framing of requests and responses are put together.  What WebRTC does is
    given by the worlds and callbacks of the section. *)
From Stdlib Require Import ZArith Ascii String Lia.
From stdpp Require Import base tactics list gmap.
From S2P Require Import Prelude CLib Http HttpProofs JsonValue JsonReader JsonGrammar Socket Observer Connection SampleNet.
From S2P Require Import ConnectionProofs ObserverProofs Options Server SampleServer ServerInvariant ServerProofs Delivery.

#[local] Open Scope Z_scope.

(** The steps of a thread whose waits end as [waits] says, one per step; where
    it has none, nothing happens. *)
Fixpoint thread_run {W} `{Winsock W} `{Runtime W} (waits : list bool) (c : WebrtcConnection W) (sh : Shared W)
  : outcome (WebrtcConnection W * Shared W) :=
  match waits with
  | [] => Ok (c, sh)
  | timed_out :: waits =>
      match run_step timed_out c sh with
      | Some m => '(c, sh) ← m; thread_run waits c sh
      | None => thread_run waits c sh
      end
  end.

Lemma thread_run_step {W} `{Winsock W} `{Runtime W} b waits c sh c' sh' :
  run_step b c sh = Some (Ok (c', sh')) -> thread_run (b :: waits) c sh = thread_run waits c' sh'.
Proof. cbn [thread_run]. by intros ->. Qed.

(** In the server, these are the steps of one peer. *)
Lemma run_server_thread {W} `{Winsock W} `{Runtime W} `{Files W} a waits (c : WebrtcConnection W) (sv : Server W) :
  connections sv !! a = Some c ->
  run_server (Peer a <$> waits) sv
  = '(c', sh') ← thread_run waits c (shared sv);
    Ok (set_connections (<[a := c']> (connections sv)) (set_shared sh' sv)).
Proof.
  revert c sv; induction waits as [|b waits IH]; intros c sv Hc.
  - cbn [thread_run]. run. destruct sv. cbn in *. by rewrite insert_id.
  - cbn [fmap list_fmap run_server server_step thread_run]. rewrite Hc.
    destruct (run_step b c (shared sv)) as [m|]; [|by apply IH].
    destruct m as [[c' sh']| | |]; run; [|done..]. rewrite (IH c'); [|apply lookup_insert_eq].
    destruct sv; cbn. destruct (thread_run waits c' sh') as [[c2 sh2]| | |]; run; [|done..].
    unfold set_connections, set_shared; cbn. by rewrite insert_insert_eq.
Qed.

(** An iteration that finds a message, and the next one, which finds none, up
    to the critical section. *)
Definition two_iterations : list bool :=
  [false; false; false; false; false; false] ++ [false; true; false].

Lemma prefix_no_nul : NUL ∉ bs "SDP->".
Proof. vm_compute. set_solver. Qed.

Section Answer.
Context {W : Type} `{WinsockLaws W} `{Runtime W} `{Files W} `{!SslSetup W}.
Context (id : Z) (p : nat) (s : Socket) (o : Observer) (t : Z) (sh : Shared W).

(** The offer, in any JSON text with its type and its description. *)
Context (d : nat) (m : list (bytes * Value)) (offer type sdp : bytes).
Hypothesis offer_text : document d (VObject m) offer.
Hypothesis offer_depth : (d <= 999)%nat.
Hypothesis offer_size : size (bs "SDP->" ++ offer) < 2 ^ 29.
Hypothesis offer_type : object_find kSessionDescriptionTypeName m = Some (VString type).
Hypothesis offer_sdp : object_find kSessionDescriptionSdpName m = Some (VString sdp).

(** WebRTC accepts it and makes a peer connection... *)
Context (description answer : SessionDescription) (factory : Factory) (pc : PeerConnection).
Context (es : list (PcEvent MediaStream IceCandidate)) (o1 : Observer) (w1 w2 w3 w4 w5 : W).
Hypothesis creates : CreateSessionDescription type sdp = Some description.
Hypothesis is_offer : sd_type description = kOffer.
Hypothesis makes_factory : CreatePeerConnectionFactory (outside sh) = (Some factory, w1).
Hypothesis makes_connection :
  CreatePeerConnection factory [(kEnableDtlsSrtp, bs "true")] w1 = (Some pc, w2).
Hypothesis sets_remote : SetRemoteDescription pc description w2 = (es, true, w3).
Hypothesis remote_events :
  on_events es (set_peer_connection (Some pc) (set_factory (Some factory) o)) w3 = Ok (o1, w4).

(** ... and delivers its answer while the thread processes messages. *)
Context (answer_events : list (PcEvent MediaStream IceCandidate)) (o2 : Observer) (w6 w7 : W).
Hypothesis delivers :
  ProcessMessages 100 (CreateAnswer pc (Observer.MkOptions 1 1 false false false) w4)
  = ([SdpSuccess answer], w5).
Hypothesis sets_local : SetLocalDescription pc answer w5 = (answer_events, w6).

Definition answer_message : bytes :=
  bs "SDP->" ++ description_text (sd_type answer) (sd_ToString answer).2.

Hypothesis local_events :
  on_events answer_events (sendSignalingMessage answer_message o1) w6 = Ok (o2, w7).
Hypothesis answer_type : is_utf8 (sd_type answer) /\ size (sd_type answer) < 2 ^ 30.
Hypothesis answer_sdp : is_utf8 (sd_ToString answer).2 /\ size (sd_ToString answer).2 < 2 ^ 30.
Hypothesis answer_size : size answer_message <= INT_MAX.

(** The connection: nothing else is waiting, and the peer waits with socket [p]. *)
Hypothesis id_range : 0 <= id < 2 ^ 32.
Hypothesis no_candidates : m_remoteIceCandidateMsg o = [].
Hypothesis nothing_queued : m_msgQueue o1 = [].
Hypothesis in_time : ice_step o1 t (CreateAnswer pc (Observer.MkOptions 1 1 false false false) w4) = false.
Hypothesis socket_open : sockets sh !! p = Some s.

Abbreviation waiting := (MkConnection id (Some p) [bs "SDP->" ++ offer] CONNECTION_STATE_CONNECTED
                           (Running AtLoop o t) true).

Lemma offer_handled :
  onSignalingMessage (bs "SDP->" ++ offer) o (outside sh)
  = Ok (o1, CreateAnswer pc (Observer.MkOptions 1 1 false false false) w4).
Proof using All.
  rewrite onSignalingMessage_SDP by (unfold npos; lia).
  rewrite (description_read d m type sdp); [|done|done| |done|done].
  2: { unfold size in *. rewrite length_app in offer_size. lia. }
  unfold on_description, initPeerConnection. rewrite creates, makes_factory, makes_connection. cbn [negb].
  cbn [m_peer_connection_ set_peer_connection]. rewrite sets_remote, remote_events. run. cbn [negb].
  rewrite decide_True by done. apply on_events_keep in remote_events as [-> _]. reflexivity.
Qed.

Lemma answer_queued :
  on_callbacks [SdpSuccess answer] o1 w5 = Ok (o2, w7).
Proof using All.
  destruct (on_events_keep _ _ _ _ _ remote_events) as [Hpc Hr]. cbn in Hpc, Hr.
  unfold on_callbacks. cbn [foldM on_callback].
  rewrite (OnSuccess_answers _ _ _ pc); [|done|by rewrite Hr|apply answer_type|apply answer_sdp].
  cbv zeta. rewrite sets_local. fold answer_message. by rewrite local_events.
Qed.

Lemma answer_first : exists q, m_msgQueue o2 = answer_message :: q.
Proof using All.
  destruct (on_events_extends _ _ _ _ _ local_events) as [q Hq]. exists q. rewrite Hq.
  cbn [sendSignalingMessage m_msgQueue set_msgQueue]. by rewrite nothing_queued.
Qed.

(** The first iteration handles the offer and queues the answer. *)
Lemma first_iteration rest :
  thread_run ([false; false; false; false; false; false] ++ rest) waiting sh
  = thread_run rest (MkConnection id (Some p) [] CONNECTION_STATE_CONNECTED (Running AtLoop o2 t) true)
      (set_outside w7 sh).
Proof using All.
  set (conn := fun q pc o => MkConnection id (Some p) q CONNECTION_STATE_CONNECTED (Running pc o t) true).
  set (w := CreateAnswer pc (Observer.MkOptions 1 1 false false false) w4) in *.
  cbn [app].
  rewrite (thread_run_step _ _ _ _ (conn [bs "SDP->" ++ offer] AtDequeue o) sh) by reflexivity.
  rewrite (thread_run_step _ _ _ _ (conn [] (AtSignal (bs "SDP->" ++ offer)) o) sh) by reflexivity.
  rewrite (thread_run_step _ _ _ _ (conn [] AtSend o1) (set_outside w sh)).
  2: { cbn [run_step m_thread conn]. rewrite offer_handled. reflexivity. }
  rewrite (thread_run_step _ _ _ _ (conn [] AtIce o1) (set_outside w sh)).
  2: { cbn [run_step m_thread conn]. unfold send_step, getSignalingMessageCount. by rewrite nothing_queued. }
  rewrite (thread_run_step _ _ _ _ (conn [] AtProcess o1) (set_outside w sh)).
  2: { cbn [run_step m_thread conn set_outside outside]. fold w in in_time. by rewrite in_time. }
  rewrite (thread_run_step _ _ _ _ (conn [] AtLoop o2) (set_outside w7 sh)); [done|].
  cbn [run_step m_thread conn set_outside outside]. fold w in delivers. rewrite delivers.
  rewrite answer_queued. reflexivity.
Qed.

Lemma no_nul_answer : cstr answer_message = answer_message.
Proof using All.
  apply cstr_id. unfold answer_message. rewrite not_elem_of_app. split; [apply prefix_no_nul|].
  by apply description_no_nul; [apply answer_type|apply answer_sdp].
Qed.

Lemma response_answer : response id answer_message = [response_header id (size answer_message); answer_message].
Proof using All. unfold response. rewrite no_nul_answer. reflexivity. Qed.

(** The second iteration sends it. *)
Lemma second_iteration :
  exists q, m_msgQueue o2 = answer_message :: q /\
  thread_run [false; true; false]
    (MkConnection id (Some p) [] CONNECTION_STATE_CONNECTED (Running AtLoop o2 t) true) (set_outside w7 sh)
  = sh' ← write_all p [response_header id (size answer_message); answer_message] (set_outside w7 sh);
    sh' ← delete_at p sh';
    Ok (MkConnection id None [] CONNECTION_STATE_CONNECTED (Running AtIce (set_msgQueue q o2) t) true, sh').
Proof using All.
  destruct answer_first as [q Hq]. exists q. split; [done|].
  set (conn := fun pc => MkConnection id (Some p) [] CONNECTION_STATE_CONNECTED (Running pc o2 t) true).
  rewrite (thread_run_step _ _ _ _ (conn AtDequeue) (set_outside w7 sh)) by reflexivity.
  rewrite (thread_run_step _ _ _ _ (conn AtSend) (set_outside w7 sh)) by reflexivity.
  cbn [thread_run run_step m_thread conn]. unfold send_step, getSignalingMessageCount, getSignalingMessage.
  rewrite Hq. rewrite (proj2 (Z.ltb_lt _ _)) by (simpl length; lia).
  change (m_clientSocket (conn AtSend)) with (Some p). cbv iota.
  rewrite sendMessage_response by done.
  change (m_peerId (conn AtSend)) with id. rewrite response_answer.
  destruct (write_all p _ _) as [sh1| | |]; try done. run. destruct (delete_at p sh1) as [sh2| | |]; done.
Qed.

Lemma written_to_open pieces (sh' : Shared W) :
  sockets sh' !! p = Some s ->
  write_all p pieces sh' = Ok (set_outside (foldl (fun w t => (Socket.write s t w).2) (outside sh') pieces) sh').
Proof using All.
  revert sh'; induction pieces as [|t' l IH]; intros sh' Hp; [by destruct sh'|].
  assert (write_to p t' sh' = Ok (set_outside (Socket.write s t' (outside sh')).2 sh')) as E
    by (unfold write_to, deref; by rewrite Hp).
  unfold write_all in *. cbn [foldM foldl]. rewrite E. run. by rewrite IH.
Qed.

(** The offer of a waiting peer is answered.  A connection's thread that
    finds the message [SDP->] with a JSON text of an offer handles it, and when
    WebRTC delivers the answer while messages are processed, the thread writes
    one complete HTTP response to the socket the peer waits with (a header with
    the exact length, then [SDP->] and the JSON text of the answer), deletes the
    socket, forgets it, and goes on with an empty queue. *)
Lemma offer_is_answered :
  exists o',
  thread_run two_iterations waiting sh
  = Ok (MkConnection id None [] CONNECTION_STATE_CONNECTED (Running AtIce o' t) true,
        MkShared (delete p (sockets sh))
          (delete_Socket s
             (Socket.write s answer_message
                (Socket.write s (response_header id (size answer_message)) w7).2).2)).
Proof using All.
  destruct second_iteration as (q & _ & E). exists (set_msgQueue q o2).
  unfold two_iterations. rewrite first_iteration, E.
  rewrite written_to_open by done. run. unfold delete_at, deref. cbn [sockets set_outside].
  rewrite socket_open. by run.
Qed.

(** *** The offer as a request *)

(** A server in any state it can reach, about to read from a client ([client],
    at [l]) the whole text of a request that names the waiting peer... *)
Context (options : Options.Options) (g : Z) (buffer b : bytes) (w0 w8 : W) (s0 sv : Server W) (l0 : list actor).
Context (l a : nat) (client : Socket) (n : Z) (meth org : bytes) (alive : bool).
Hypothesis buffer_size : Z.of_nat (length buffer) = HTTP_RW_BUFFER_SIZE.
Hypothesis starts : start options g buffer w0 = Ok (Some s0).
Hypothesis runs : run_server l0 s0 = Ok sv.
Hypothesis run_length : Z.of_nat (length l0) < 2 ^ 32 - 2.
Hypothesis reads : main sv = MRead l.
Hypothesis client_open : sockets (shared sv) !! l = Some client.
Hypothesis received :
  receive_loop receive_fuel client (httpRwBuffer sv) 0 (outside (shared sv)) = Ok (b, n, w8).
Hypothesis posted :
  take (Z.to_nat n) b = render_request meth HTTP_CMD_MESSAGE org alive id (bs "SDP->" ++ offer).
Hypothesis sent : sendable meth HTTP_CMD_MESSAGE org alive id (bs "SDP->" ++ offer).
Hypothesis no_nul : NUL ∉ offer.
Hypothesis listed : a ∈ webrtcConnectionList sv.
Hypothesis peer_waits :
  connections sv !! a = Some (MkConnection id (Some p) [] CONNECTION_STATE_CONNECTED (Running AtLoop o t) true).

(** ... and [sh], the sockets and the world when the client has its reply. *)
Hypothesis replied :
  sh = MkShared (sockets (shared sv))
         (Socket.write client (take header_room (reply_header org id 0)) w8).2.

Lemma offer_body : cstr (bs "SDP->" ++ offer) = bs "SDP->" ++ offer.
Proof using no_nul. apply cstr_id. rewrite not_elem_of_app. split; [apply prefix_no_nul|done]. Qed.

(** The main thread reads the request and puts the offer into the queue. *)
Lemma offer_delivered :
  exists sv', run_server [Main; Main] sv = Ok sv' /\ shared sv' = sh /\ main sv' = MClose l /\
    connections sv' = <[a := waiting]> (connections sv).
Proof using All.
  destruct (posted_message_is_queued options g buffer w0 w8 s0 sv l0 l a client b n meth org alive id
              (bs "SDP->" ++ offer) _ buffer_size starts runs run_length reads client_open received posted
              sent ltac:(discriminate) listed peer_waits eq_refl) as (sv' & K1 & K2 & K3 & K4).
  exists sv'. rewrite K4, offer_body, replied. by split_and!.
Qed.

(** C1: an offer posted to the server is answered on the socket its peer waits
    with.  Let a client post [SDP->] with a JSON text of an offer, in any number
    of pieces, to a server in any state it can reach, naming a peer that waits;
    the main thread reads and serves the request, the peer's thread runs two
    iterations, and WebRTC delivers its answer while the thread processes
    messages.  Then the waiting socket got one complete HTTP response (a header
    with the exact length, then [SDP->] and the JSON text of the answer) and is
    deleted and forgotten; the peer goes on with an empty queue, the other peers
    and sockets are as they were. *)
Theorem posted_offer_is_answered :
  exists o' s', run_server ([Main; Main] ++ (Peer a <$> two_iterations)) sv = Ok s' /\
    connections s' = <[a := MkConnection id None [] CONNECTION_STATE_CONNECTED
                              (Running AtIce o' t) true]> (connections sv) /\
    shared s' = MkShared (delete p (sockets (shared sv)))
      (delete_Socket s
         (Socket.write s answer_message
            (Socket.write s (response_header id (size answer_message)) w7).2).2) /\
    main s' = MClose l.
Proof using All.
  destruct offer_is_answered as [o' Ho]. destruct offer_delivered as (s1 & R & Hsh & Hm & Hc).
  exists o'. rewrite (run_server_app _ _ _ _ R).
  rewrite (run_server_thread a _ waiting) by (rewrite Hc; apply lookup_insert_eq).
  rewrite Hsh, Ho. run. eexists; split; [done|]. cbn. rewrite Hc, insert_insert_eq, replied.
  by split_and!.
Qed.
End Answer.

(** ** Witness *)

(** A world that delivers an answer whenever messages are processed. *)
Definition Answering_Runtime : Runtime Net := {|
  now := n_clock;
  ProcessMessages ms w := ([SdpSuccess (bs "answer", bs "v=0 answer")], net_wait ms w);
  thread_Start w := w;
  thread_Stop w := w
|}.

(** The server of SampleServer.v in it, with a client that posts an offer. *)
Definition sample_offer : bytes := description_text (bs "offer") (bs "v=0").

Definition offer_request : bytes :=
  render_request (bs "POST") HTTP_CMD_MESSAGE (bs "h") false 1 (bs "SDP->" ++ sample_offer).

Definition offer_clients : list (list bytes) :=
  [ [render_request (bs "GET") (bs "signIn") (bs "h") false 0 []];
    [render_request (bs "GET") (bs "wait") (bs "h") false 1 []];
    [take 30 offer_request; drop 30 offer_request] ].

Definition offer_server : Server Net :=
  MkServer (MkShared ∅ (MkNet {[3]} offer_clients ∅ [] 0 [])) 0 ∅ 0 []
    (MkSocket (Some tt) None 3 (bs "127.0.0.1") 4433) sample_buffer 1 true sample_options 0 MAccept.

Lemma offer_start : start sample_options 0 sample_buffer (MkNet ∅ offer_clients ∅ [] 0 []) = Ok (Some offer_server).
Proof. reflexivity. Qed.

(** Sign-in, the start of the peer's thread, the wait, and accepting the third client. *)
Definition offer_schedule : list actor := replicate 4 Main ++ [Peer 0 true] ++ replicate 5 Main.

#[local] Existing Instance Answering_Runtime.

Definition offer_posted : Server Net :=
  match run_server offer_schedule offer_server with Ok sv => sv | _ => offer_server end.

(** The client that posts the offer and the one that waits. *)
Definition offering : Socket (W := Net) := MkSocket (Some tt) (Some 5) 5 [] 0.
Definition waiting_client : Socket (W := Net) := MkSocket (Some tt) (Some 4) 4 [] 0.

Definition offer_received : bytes * Z * Net :=
  match receive_loop receive_fuel offering (httpRwBuffer offer_posted) 0 (outside (shared offer_posted)) with
  | Ok x => x
  | _ => ([], 0, outside (shared offer_posted))
  end.

(** The world when the offer is handled, and when the answer is ready. *)
Definition offer_world : Net :=
  (Socket.write offering (take header_room (reply_header (bs "h") 1 0)) offer_received.2).2.
Definition answer_world : Net := net_wait 100 offer_world.

Definition sample_answer : bytes := answer_message (W := Net) (bs "answer", bs "v=0 answer").

Definition answering : Observer (W := Net) :=
  set_localStream (W := Net) (Some tt)
    (set_peer_connection (W := Net) (Some tt) (set_factory (W := Net) (Some tt) (new_Observer 1))).

Lemma simple_pair s : simple_text s = true -> is_utf8 s /\ size s < 2 ^ 30.
Proof. intros Hs. by destruct (simple_text_fine s Hs) as (? & _ & ?). Qed.

Lemma offer_sendable : sendable (bs "POST") HTTP_CMD_MESSAGE (bs "h") false 1 (bs "SDP->" ++ sample_offer).
Proof.
  destruct sample_sendable as [K1 K2 K3 K4 _]. constructor; [done..|vm_compute; reflexivity].
Qed.

Lemma offer_posted_run : run_server offer_schedule offer_server = Ok offer_posted.
Proof.
  assert (match run_server offer_schedule offer_server with Ok _ => true | _ => false end = true) as K
    by (vm_compute; reflexivity).
  unfold offer_posted. by destruct (run_server offer_schedule offer_server).
Qed.

Lemma offer_receive :
  receive_loop receive_fuel offering (httpRwBuffer offer_posted) 0 (outside (shared offer_posted))
  = Ok (offer_received.1.1, offer_received.1.2, offer_received.2).
Proof.
  assert (match receive_loop receive_fuel offering (httpRwBuffer offer_posted) 0 (outside (shared offer_posted))
          with Ok _ => true | _ => false end = true) as K by (vm_compute; reflexivity).
  unfold offer_received. by destruct (receive_loop _ _ _ _ _) as [[[? ?] ?]| | |].
Qed.

Lemma posted_offer_is_answered_witness :
  exists o' s', run_server ([Main; Main] ++ (Peer 0 <$> two_iterations)) offer_posted = Ok s' /\
    connections s' = <[0%nat := MkConnection 1 None [] CONNECTION_STATE_CONNECTED
                                  (Running AtIce o' 0) true]> (connections offer_posted) /\
    shared s' = MkShared (delete 1%nat (sockets (shared offer_posted)))
      (delete_Socket waiting_client
         (Socket.write waiting_client sample_answer
            (Socket.write waiting_client (response_header 1 (size sample_answer)) answer_world).2).2) /\
    main s' = MClose 2.
Proof.
  simple refine (posted_offer_is_answered (W := Net) 1 1 waiting_client (new_Observer 1) 0
    (MkShared (sockets (shared offer_posted)) offer_world) 1
    [(kSessionDescriptionSdpName, VString (bs "v=0")); (kSessionDescriptionTypeName, VString (bs "offer"))]
    sample_offer (bs "offer") (bs "v=0") _ _ _ _ _ (bs "offer", bs "v=0") (bs "answer", bs "v=0 answer") tt tt
    [OnAddStream tt] answering offer_world offer_world offer_world offer_world answer_world
    _ _ _ _ _ _ [OnSignalingChange kStable] (sendSignalingMessage (W := Net) sample_answer answering)
    answer_world answer_world _ _ _ _ _ _ _ _ _ _ _
    sample_options 0 sample_buffer offer_received.1.1 (MkNet ∅ offer_clients ∅ [] 0 []) offer_received.2
    offer_server offer_posted offer_schedule 2 0 offering offer_received.1.2 (bs "POST") (bs "h") false
    sample_buffer_size offer_start offer_posted_run _ _ _ offer_receive _ offer_sendable _ _ _ eq_refl);
    try reflexivity.
  - apply description_document; by apply simple_text_fine.
  - lia.
  - by apply simple_pair.
  - by apply simple_pair.
  - vm_compute. discriminate.
  - lia.
  - refine (by_decision _ _). vm_compute. reflexivity.
  - refine (by_decision _ _). vm_compute. reflexivity.
Defined.
