(* ===== verification/Trickle.v ===== *)
(** * From posted candidates to the peer connection

    A browser posts the ICE candidates it finds in [ICE->] messages, one JSON
    text each, separated by [#].  This file follows such a message from the
    client's bytes through the main loop and the queue to the peer connection
    of the peer it names. *)
From Stdlib Require Import ZArith Ascii String Lia.
From stdpp Require Import base tactics list gmap.
From S2P Require Import Prelude CLib Http HttpProofs JsonValue JsonReader JsonGrammar JsonParseProofs Socket Observer Connection SampleNet.
From S2P Require Import ConnectionProofs ObserverProofs Options Server SampleServer ServerInvariant ServerProofs Delivery Answer.

#[local] Open Scope Z_scope.

(** A candidate as the browser describes it: media id, line and text. *)
Record Described := MkDescribed { mid_of : bytes; line_of : Z; candidate_of : bytes }.

(** The JSON texts that describe it, with whatever else they contain. *)
Definition describes (c : Described) (t : bytes) : Prop :=
  exists d m, document d (VObject m) t /\ (d <= 999)%nat /\
    object_find kCandidateSdpMidName m = Some (VString (mid_of c)) /\
    object_find kCandidateSdpMlineIndexName m = Some (VInt (line_of c)) /\
    INT_MIN <= line_of c <= INT_MAX /\
    object_find kCandidateSdpName m = Some (VString (candidate_of c)) /\ HASH ∉ t /\ NUL ∉ t.

Lemma separator_no_nul : NUL ∉ separator.
Proof. refine (by_decision _ _). vm_compute. reflexivity. Qed.

Lemma ice_prefix_no_nul : NUL ∉ bs "ICE->".
Proof. refine (by_decision _ _). vm_compute. reflexivity. Qed.

Section Trickle.
Context {W : Type} `{WinsockLaws W} `{Runtime W} `{Files W} `{!SslSetup W}.

(** What WebRTC is asked to do with it: make it, then add it. *)
Definition add_described (pc : PeerConnection) (s : Observer * W) (c : Described) : outcome (Observer * W) :=
  match CreateIceCandidate (mid_of c) (line_of c) (candidate_of c) with
  | None => Ok s
  | Some candidate =>
      let '(_, es, w) := AddIceCandidate pc candidate s.2 in on_events es s.1 w
  end.

Lemma member_ref_found m key v :
  czstring key = key -> object_find key m = Some v -> member_ref (VObject m) key = Ok (v, VObject m).
Proof.
  intros Hk Hf. unfold member_ref, resolveReference, json_assert. cbn [isNull isObject orb]. run.
  by rewrite Hk, Hf.
Qed.

Lemma addIceCandidate_described pc c t (o : Observer) (w : W) :
  describes c t -> size t < 2 ^ 29 -> m_peer_connection_ o = Some pc ->
  addIceCandidate t o w = add_described pc (o, w) c.
Proof.
  intros (d & m & Hd & Hn & Hm & Hl & Hr & Hc & _) Hs Hpc. unfold addIceCandidate, add_described.
  rewrite Hpc, (document_parses d _ _ Hd) by done. run. cbn [negb].
  rewrite (member_ref_found _ _ _ eq_refl Hm). run. cbn [asString]. run.
  rewrite (member_ref_found _ _ _ eq_refl Hl). run.
  assert (isInt (VInt (line_of c)) = true) as Hi by (unfold isInt, minInt, maxInt, INT_MIN, INT_MAX in *; lia).
  cbn [asInt]. rewrite Hi. run. unfold json_assert. run.
  rewrite (member_ref_found _ _ _ eq_refl Hc). run. cbn [asString fst snd]. by run.
Qed.

Lemma add_described_keeps pc c (o o' : Observer) (w w' : W) :
  add_described pc (o, w) c = Ok (o', w') -> m_peer_connection_ o' = m_peer_connection_ o.
Proof.
  unfold add_described. destruct (CreateIceCandidate _ _ _) as [k|]; [|by intros [= <- <-]].
  cbn [fst snd]. destruct (AddIceCandidate pc k w) as [[b es] w1]. intros E. by apply on_events_keep in E as [? _].
Qed.

Lemma add_all_described pc cs ts (o : Observer) (w : W) :
  Forall2 describes cs ts -> Forall (fun t => size t < 2 ^ 29) ts -> m_peer_connection_ o = Some pc ->
  foldM (fun s t => addIceCandidate t s.1 s.2) (o, w) ts = foldM (add_described pc) (o, w) cs.
Proof.
  intros Hf; revert o w; induction Hf as [|c t cs ts Hc Hf IH]; intros o w Hs Hpc; [done|].
  apply Forall_cons in Hs as [Ht Hs]. cbn [foldM fst snd]. rewrite (addIceCandidate_described pc c) by done.
  destruct (add_described pc (o, w) c) as [[o1 w1]| | |] eqn:E; try done. run.
  apply IH; [done|]. by rewrite (add_described_keeps _ _ _ _ _ _ E).
Qed.

Lemma described_text cs ts : Forall2 describes cs ts -> Forall (fun t => HASH ∉ t) ts /\ Forall (fun t => NUL ∉ t) ts.
Proof.
  induction 1 as [|c t cs ts (d & m & _ & _ & _ & _ & _ & _ & Hh & Hn) Hf [IH1 IH2]]; split; by constructor.
Qed.

Lemma NUL_join t ts : Forall (fun t => NUL ∉ t) (t :: ts) -> NUL ∉ join t ts.
Proof.
  revert t; induction ts as [|u ts IH]; intros t Ht.
  - apply Forall_cons in Ht as [Ht _]. unfold join. rewrite not_elem_of_app. split; [done|]. apply not_elem_of_nil.
  - apply Forall_cons in Ht as [Ht Hts]. rewrite join_cons, !not_elem_of_app. split_and!; [done| |by apply IH].
    apply separator_no_nul.
Qed.

(** An observer with a peer connection handles the message. *)
Lemma onSignalingMessage_described pc cs t ts (o : Observer) (w : W) :
  Forall2 describes cs (t :: ts) -> size (bs "ICE->" ++ join t ts) < 2 ^ 29 -> m_peer_connection_ o = Some pc ->
  onSignalingMessage (bs "ICE->" ++ join t ts) o w = foldM (add_described pc) (o, w) cs.
Proof.
  intros Hf Hs Hpc. assert (size (join t ts) < 2 ^ 29) as Hj by (unfold size in *; rewrite length_app in Hs; lia).
  rewrite onSignalingMessage_ICE by (unfold npos; lia). unfold on_ice. rewrite Hpc.
  destruct (described_text _ _ Hf) as [Hh _]. rewrite add_candidates_join by (done || lia).
  apply (add_all_described pc cs (t :: ts)); [done| |done].
  eapply Forall_impl; [apply size_join|]. intros u Hu. cbn in *. lia.
Qed.

(** Three steps of a thread that finds a message. *)
Lemma message_handled id q message (o o' : Observer) t0 (sh : Shared W) w' :
  onSignalingMessage message o (outside sh) = Ok (o', w') ->
  thread_run [false; false; false]
    (MkConnection id q [message] CONNECTION_STATE_CONNECTED (Running AtLoop o t0) true) sh
  = Ok (MkConnection id q [] CONNECTION_STATE_CONNECTED (Running AtSend o' t0) true, set_outside w' sh).
Proof.
  intros E. set (conn := fun l pc o => MkConnection id q l CONNECTION_STATE_CONNECTED (Running pc o t0) true).
  rewrite (thread_run_step _ _ _ _ (conn [message] AtDequeue o) sh) by reflexivity.
  rewrite (thread_run_step _ _ _ _ (conn [] (AtSignal message) o) sh) by reflexivity.
  rewrite (thread_run_step _ _ _ _ (conn [] AtSend o') (set_outside w' sh)); [done|].
  cbn [run_step m_thread conn]. by rewrite E.
Qed.

(** C4: the candidates a client posts are added to the peer connection of the
    peer they are for.  Let a client post [ICE->] and any number of candidates,
    in any JSON texts, in any number of pieces, to a server in any state it can
    reach, naming a peer whose thread has a peer connection and nothing else to
    do; then, after the main thread's two steps and three of the peer's thread,
    WebRTC was asked to make and add exactly these candidates, in this order,
    and the client had its reply before. *)
Theorem posted_candidates_are_added (options : Options.Options) (g : Z) (buffer b : bytes) (w0 w w' : W)
    (s0 sv : Server W) (l0 : list actor) (l a : nat) (client : Socket) (n : Z) (meth org : bytes)
    (alive : bool) (id : Z) (q : option nat) (o o' : Observer) (t0 : Z) (pc : PeerConnection)
    (cs : list Described) (t : bytes) (ts : list bytes)
    (Hbuffer : Z.of_nat (length buffer) = HTTP_RW_BUFFER_SIZE)
    (Hstart : start options g buffer w0 = Ok (Some s0)) (Hrun : run_server l0 s0 = Ok sv)
    (Hlength : Z.of_nat (length l0) < 2 ^ 32 - 2)
    (Hmain : main sv = MRead l) (Hclient : sockets (shared sv) !! l = Some client)
    (Hreceive : receive_loop receive_fuel client (httpRwBuffer sv) 0 (outside (shared sv)) = Ok (b, n, w))
    (Hposted : take (Z.to_nat n) b
               = render_request meth HTTP_CMD_MESSAGE org alive id (bs "ICE->" ++ join t ts))
    (Hsend : Delivery.sendable meth HTTP_CMD_MESSAGE org alive id (bs "ICE->" ++ join t ts))
    (Hlisted : a ∈ webrtcConnectionList sv)
    (Hpeer : connections sv !! a
             = Some (MkConnection id q [] CONNECTION_STATE_CONNECTED (Running AtLoop o t0) true))
    (Hpc : m_peer_connection_ o = Some pc) (Hcs : Forall2 describes cs (t :: ts))
    (Hadd : foldM (add_described pc)
              (o, (Socket.write client (take header_room (reply_header org id 0)) w).2) cs = Ok (o', w')) :
  exists s', run_server ([Main; Main] ++ (Peer a <$> [false; false; false])) sv = Ok s' /\
    connections s' = <[a := MkConnection id q [] CONNECTION_STATE_CONNECTED
                              (Running AtSend o' t0) true]> (connections sv) /\
    shared s' = MkShared (sockets (shared sv)) w' /\ main s' = MClose l.
Proof.
  destruct (posted_message_is_queued options g buffer w0 w s0 sv l0 l a client b n meth org alive id
              _ _ Hbuffer Hstart Hrun Hlength Hmain Hclient Hreceive Hposted Hsend
              ltac:(discriminate) Hlisted Hpeer eq_refl) as (s1 & R & Hsh & Hm & Hc).
  assert (cstr (bs "ICE->" ++ join t ts) = bs "ICE->" ++ join t ts) as Hnul.
  { apply cstr_id. rewrite not_elem_of_app. split; [apply ice_prefix_no_nul|].
    apply NUL_join. by destruct (described_text _ _ Hcs). }
  rewrite Hnul in Hc. rewrite (run_server_app _ _ _ _ R).
  rewrite (run_server_thread a _ (MkConnection id q [bs "ICE->" ++ join t ts] CONNECTION_STATE_CONNECTED
             (Running AtLoop o t0) true)) by (rewrite Hc; apply lookup_insert_eq).
  assert (size (bs "ICE->" ++ join t ts) < 2 ^ 29) as Hsize.
  { apply send_size in Hsend. unfold render_request, HTTP_RW_BUFFER_SIZE in Hsend.
    unfold size in *. rewrite !length_app in *. lia. }
  rewrite (message_handled _ _ _ _ o' _ _ w'); [|by rewrite Hsh, (onSignalingMessage_described pc cs)]. run.
  eexists; split; [done|]. cbn. rewrite Hsh, Hc, insert_insert_eq. by split_and!.
Qed.
End Trickle.

(** ** Witness *)

Definition sample_described : list Described :=
  [MkDescribed (bs "audio") 0 (bs "candidate:1"); MkDescribed (bs "video") 1 (bs "candidate:2")].

Definition described_text_of (c : Described) : bytes :=
  candidate_text (mid_of c) (line_of c) (candidate_of c).

Lemma sample_describes : Forall2 describes sample_described (described_text_of <$> sample_described).
Proof.
  assert (forall c, simple_text (mid_of c) = true -> simple_text (candidate_of c) = true ->
    INT_MIN <= line_of c <= INT_MAX ->
    bool_decide (HASH ∉ described_text_of c /\ NUL ∉ described_text_of c) = true ->
    describes c (described_text_of c)) as Hd.
  { intros c Hm Hc Hl Hno%bool_decide_eq_true. exists 1%nat. eexists. split.
    - apply candidate_document; [by apply simple_text_fine..|by apply int_in_int64].
    - split; [lia|]. by destruct Hno. }
  repeat constructor; (apply Hd; [reflexivity|reflexivity|split; discriminate|vm_compute; reflexivity]).
Qed.

Definition candidates_message : bytes :=
  bs "ICE->" ++ join (described_text_of (MkDescribed (bs "audio") 0 (bs "candidate:1")))
                  [described_text_of (MkDescribed (bs "video") 1 (bs "candidate:2"))].

Definition candidates_request : bytes :=
  render_request (bs "POST") HTTP_CMD_MESSAGE (bs "h") false 1 candidates_message.

(** A client signs in, posts its offer, and posts two candidates. *)
Definition trickle_clients : list (list bytes) :=
  [ [render_request (bs "GET") (bs "signIn") (bs "h") false 0 []];
    [offer_request];
    [take 50 candidates_request; drop 50 candidates_request] ].

Definition trickle_server : Server Net :=
  MkServer (MkShared ∅ (MkNet {[3]} trickle_clients ∅ [] 0 [])) 0 ∅ 0 []
    (MkSocket (Some tt) None 3 (bs "127.0.0.1") 4433) sample_buffer 1 true sample_options 0 MAccept.

Lemma trickle_start : start sample_options 0 sample_buffer (MkNet ∅ trickle_clients ∅ [] 0 []) = Ok (Some trickle_server).
Proof. reflexivity. Qed.

Definition trickle_schedule : list actor :=
  replicate 4 Main ++ [Peer 0 true] ++ replicate 4 Main ++ replicate 6 (Peer 0 false) ++ [Main].

Definition trickle_posted : Server Net := after trickle_schedule trickle_server.

Definition trickle_client : Socket (W := Net) := MkSocket (Some tt) (Some 4) 4 [] 0.
Definition trickle_received : bytes * Z * Net :=
  match receive_loop receive_fuel trickle_client (httpRwBuffer trickle_posted) 0 (outside (shared trickle_posted)) with
  | Ok x => x
  | _ => ([], 0, outside (shared trickle_posted))
  end.

Lemma trickle_receive :
  receive_loop receive_fuel trickle_client (httpRwBuffer trickle_posted) 0 (outside (shared trickle_posted))
  = Ok (trickle_received.1.1, trickle_received.1.2, trickle_received.2).
Proof.
  assert (match receive_loop receive_fuel trickle_client (httpRwBuffer trickle_posted) 0
                  (outside (shared trickle_posted)) with Ok _ => true | _ => false end = true) as K
    by (vm_compute; reflexivity).
  unfold trickle_received. by destruct (receive_loop _ _ _ _ _) as [[[? ?] ?]| | |].
Qed.

(** The world after the reply, and after both candidates were added to it. *)
Definition trickle_world : Net :=
  (Socket.write trickle_client (take header_room (reply_header (bs "h") 1 0)) trickle_received.2).2.
Definition trickle_added : Net :=
  net_add (bs "video", 1, bs "candidate:2") (net_add (bs "audio", 0, bs "candidate:1") trickle_world).

Lemma posted_candidates_are_added_witness :
  exists s', run_server ([Main; Main] ++ (Peer 0 <$> [false; false; false])) trickle_posted = Ok s' /\
    connections s' = <[0%nat := MkConnection 1 None [] CONNECTION_STATE_CONNECTED
                                  (Running AtSend answering 0) true]> (connections trickle_posted) /\
    shared s' = MkShared (sockets (shared trickle_posted)) trickle_added /\ main s' = MClose 2.
Proof.
  simple refine (posted_candidates_are_added (W := Net) sample_options 0 sample_buffer trickle_received.1.1
    (MkNet ∅ trickle_clients ∅ [] 0 []) trickle_received.2 trickle_added trickle_server trickle_posted
    trickle_schedule 2 0 trickle_client trickle_received.1.2 (bs "POST") (bs "h") false 1 None answering answering
    0 tt sample_described (described_text_of (MkDescribed (bs "audio") 0 (bs "candidate:1")))
    [described_text_of (MkDescribed (bs "video") 1 (bs "candidate:2"))]
    sample_buffer_size trickle_start _ eq_refl _ _ trickle_receive _ _ _ _ eq_refl sample_describes _).
  - apply after_ok. vm_compute. reflexivity.
  - vm_compute. reflexivity.
  - vm_cast_no_check (eq_refl (sockets (shared trickle_posted) !! 2%nat)).
  - refine (by_decision _ _). vm_compute. reflexivity.
  - destruct sample_sendable as [K1 K2 K3 K4 _]. constructor; [done..|vm_compute; reflexivity].
  - refine (by_decision _ _). vm_compute. reflexivity.
  - vm_cast_no_check (eq_refl (connections trickle_posted !! 0%nat)).
  - reflexivity.
Defined.
